(* ===== verification/_CoqProject ===== *)
-Q . S2P
Prelude.v
Pod.v
Api.v
QueueLayout.v
QueueAccount.v
QueueInv.v
QueueScan.v
QueueAdd.v
QueueRemove.v
QueueSpec.v
QueueRobust.v
QueueTheorems.v
QueueMark.v
QueueTiny.v
Solana.v
Accounts.v
Instructions.v
Verify.v
Handlers.v
Provide.v
Reason.v
Laws.v
RequestTheorems.v
ProvideTheorems.v
QueueAdmin.v
Vrf.v
Solvency.v
Registry.v
RegistryTheorems.v
Sdk.v
SdkTheorems.v
OracleClock.v
ClockTheorems.v
OracleTasks.v
TaskTheorems.v
OracleSources.v
SourceTheorems.v
OracleSend.v
OracleRun.v
RunTheorems.v
SendTheorems.v
SendSchedule.v
Fulfilment.v
Chain.v
ChainCalm.v
ChainHandlers.v
ChainTheorems.v
ChainIds.v
ChainKeys.v
ChainSpec.v
ChainHistory.v
ChainFulfilment.v
Service.v
Cli.v
Concrete.v
Witnesses.v
OracleWitnesses.v
ChainWitnesses.v
