(* ===== verification/Prelude.v ===== *)
(** * Verification of the Solana VRF program and its oracle

    The repository is a verifiable-random-function oracle on Solana. A program
    asks for randomness by an instruction that appends a request to an
    oracle's queue account; the oracle, an off-chain service, watches its
    queues, computes a VRF output with a proof for each request and sends a
    transaction; the on-chain program verifies the proof, removes the request
    and calls the requester's callback with the hash of the output. A request
    that is not served within the time to live is purged. This library models
    the on-chain program ([src/api], [src/program]), the VRF crate
    ([src/vrf]), the oracle service ([src/vrf-oracle]) and the command-line
    client ([src/vrf-cli]), and proves what makes them correct, up to whole
    histories: any sequence of transactions from the program's deployment on,
    with the oracle service beside it.

    ** Parts, files and their sources

    Common ground
    - [Prelude.v]: outcomes of Rust functions ([Ok], [Err], panic), integers
      at their width, byte slices, and lemmas on them.
    - [Pod.v]: [repr(C)] plain-old-data layouts (bytemuck casts) built from
      little-endian fields; [Api.v]: [consts.rs], [error.rs], the account
      discriminators of [state/mod.rs].

    The queue account ([api/src/state/queue.rs])
    - [QueueLayout.v] (structs), [QueueAccount.v] (every operation, on the raw
      bytes of the account), [QueueInv.v] (the representation invariant: the
      bytes are a chain of entries, used or free), [QueueScan.v],
      [QueueAdd.v], [QueueRemove.v] (each operation under the invariant),
      [QueueSpec.v] (the abstract queue: a list of requests, and [represents]),
      [QueueRobust.v] (arbitrary bytes), [QueueMark.v] (a used queue stays
      recognisable), [QueueTiny.v] (accounts too small for any item),
      [QueueTheorems.v] (the theorems).

    The on-chain program
    - [Solana.v]: accounts as a shared store, the state-and-error monad [M] of
      the handlers, the interface [Runtime] to everything outside the
      repository, and [api/src/steel.rs].
    - [Accounts.v]: [pda.rs], [loaders.rs], [program/src/fees.rs],
      [state/oracle.rs], [state/oracles.rs]; [Instructions.v]:
      [instruction.rs], [macros.rs] and the parsing in [program/src/lib.rs].
    - [Verify.v]: [api/src/verify.rs]; [Handlers.v] and [Provide.v]: the
      handlers, one Definition per file of [program/src], and
      [process_instruction].
    - [Reason.v] (inversion of monadic runs), [Laws.v] (the documented
      behaviour of the runtime, as the class [RuntimeLaws]),
      [RequestTheorems.v], [ProvideTheorems.v], [QueueAdmin.v] (purge, close,
      pause, delegate), [Registry.v], [RegistryTheorems.v] (initialise, oracle
      registry, queue creation), [Solvency.v] (the fees of one queue).
    - [Chain.v]: the program on chain over time: [chain_step] (a successful
      call from outside with any accounts and any data, or anything other
      programs may do), [reachable] states, [queue_change] (what a step may do
      to a queue), the invariant [chain_inv]. [ChainCalm.v] (what leaves all
      queues alone), [ChainHandlers.v] (each handler is such a change),
      [ChainTheorems.v] (the theorems on all reachable states),
      [ChainIds.v] (the ids of pending requests), [ChainKeys.v] (who can
      change the VRF key of an oracle).
      [ChainSpec.v]: the abstract specification, a service of queues of
      requests and keys with labelled steps, and the simulation;
      [ChainHistory.v]: ids over its histories.
    - [Vrf.v]: [vrf/src/vrf.rs] over the curve library, and its relation to
      the on-chain verifier, and [vrf/examples/keygen.rs]; [Sdk.v], [SdkTheorems.v]: [api/src/sdk.rs] and
      the way from an instruction to its handler.

    The oracle service ([vrf-oracle/src])
    - [OracleClock.v], [ClockTheorems.v]: [blockhash_cache.rs], [SlotTracker]
      of [oracle/client.rs], the host's age of a request in
      [oracle/processor.rs].
    - [OracleTasks.v], [TaskTheorems.v]: [process_oracle_queue] and the maps
      of [OracleClient], as a function (one view without interruption) and as
      a step relation in which the cleanup of tasks interleaves with views.
    - [OracleSources.v], [SourceTheorems.v]: [oracle/sources.rs],
      [fetch_and_process_program_accounts], and how [run] starts scans: a
      transition system of the timer, connects and the lock.
    - [OracleSend.v], [SendTheorems.v]: [ProcessableItem], the retry loop of a
      request's task and [priority_fee]. [SendSchedule.v]: that loop against
      the slot tracker, which moves while the task waits.
    - [OracleRun.v], [RunTheorems.v]: [OracleClient], [create_update_source],
      the start of [run], [oracle/utils.rs], [args.rs] and [main.rs] with its
      restart loop.
    - The service and the chain together: [Fulfilment.v] (its transaction
      against the handler), [ChainFulfilment.v] (in every reachable state),
      [Service.v] (scans of a reachable state).
    - [Cli.v]: [vrf-cli/src/main.rs].

    Concrete runs
    - [Concrete.v]: a small executable runtime, curve and codecs with proofs
      that they have the behaviour the theorems assume; [Witnesses.v],
      [OracleWitnesses.v]: the theorems applied to concrete accounts;
      [ChainWitnesses.v]: a chain from genesis to a fulfilled request.

    ** What is shown

    - Queue: any sequence of operations on a fresh account behaves like
      operations on a list, answers included, and never panics; added requests
      are found and read back; removal, trimming and reuse of holes; scans
      terminate within their fuel; on arbitrary bytes the operations stay in
      bounds.
    - Requests and randomness: what a successful request stores and pays and
      exactly when one is refused; randomness is only provided with a valid
      proof by the queue's oracle in a later slot, at most once, with the
      callback signed by the right identity; purging, closing, pausing, delegating, creation and registration have
      exactly the documented effects; dispatch is total and encoding is
      injective.
    - All histories of the chain: the program refines an abstract service, in
      whose histories every request is accounted for (it waits, or was
      fulfilled, or expired, and that once); a step does one of five things to
      a queue; no two requests of a queue are given an id from the same input;
      a request leaves its queue only by a fulfilment with a valid proof or
      after its time to live; every queue can pay for its pending requests;
      whatever has expired can be cleared by anyone; and the keys that proofs
      are checked under are registered by the program's upgrade authority.
    - VRF: the off-chain and the on-chain verifier accept the same proofs,
      proofs are complete and specially sound.
    - Oracle: views of a queue have exactly the described effect on requests
      and tasks; no request ever has two tasks or waits behind a dead one,
      whatever the interleaving; a task never panics and ends after at most a
      hundred attempts whose transactions differ, within fee and delay bounds,
      in order and in different slots; scans do not pile up, and after a
      reconnect one begins within a few steps, behind one other at most;
      restarts lose nothing; clocks, caches and early sends.
    - Together, in every reachable state: a scan shows the service exactly
      the queues and their requests; every request of a queue is taken up by
      a task; and the transaction that the task prepares is accepted on chain
      and fulfils the request, if the oracle is registered with its key, the
      request has not expired, a slot has passed and the callback accepts its
      call.

    ** Modelling choices, bounds and fuel

    Machine integers are [Z] with [wrap], [saturating_*] and [checked_*]
    written out where the source has them; bytes are [Byte.byte] lists; [f64]
    is the Standard Library's [spec_float] at binary64. A panic is an outcome
    of its own. An [AccountInfo] is a key with flags into the shared store, so
    aliased accounts share lamports and data. A failed instruction leaves no
    state, as on chain.

    A scan of a queue account has one unit of fuel per byte of the account,
    and every item it visits is at least 96 bytes long: [scan_terminates]
    shows that more fuel never changes a result. [hash_to_point] makes the
    source's own 512 attempts. The retry loop of the oracle is run over a list
    of answers, one for each turn; [request_task_spec] bounds the turns.

    Code outside the repository is an interface and nothing is assumed of it
    but what a theorem names: [Runtime] (sysvars, cross-program invocation,
    hashing, curve syscalls, the delegation SDK) with [RuntimeLaws],
    [SyscallLaws] and [PdaLaws]; [Dalek] (curve25519-dalek, HKDF) with
    [DalekLaws], [DalekField] and [EncodingSizes]; [OraclesBorsh],
    [RequestBorsh] with their round trips; [KeyOrder] (the order of a
    [HashMap]'s keys); [CliHost]. Over time, [Chain] is a runtime for every
    clock with [ChainLaws]: accounts are given to a program with zeroed data
    only, delegation touches no account of the program but the one it is
    asked for, addresses and hashes do not change with time. Whoever calls from outside
    cannot sign for an address derived from the program. [program_accounts]
    in [Service.v] is what the documentation promises of
    [getProgramAccounts].

    In the transition system of the oracle, spawning a task for an item is one
    step: the source holds the in-flight lock from the reservation of the id
    to the publication of the handle, and the task starts only afterwards. The
    two cleanup steps of a task are steps of their own, and an aborted task
    may stop at any point or still perform them. What [getDelegationStatus]
    answers for a queue is part of its view, so a view starts in one step,
    whenever the answer arrives. A request that a view has dropped is assumed
    not to come back to the queue under its id (the program does not give the
    same id twice, see [ChainHistory.v]); without this, the late cleanup of an
    aborted task could remove the handle of its successor.

    Scans share one lock. In [OracleSources.v] a step is an action of one
    task that others can see: a tick, a connect, the first run of a spawned
    task, the clearing of the flag, the start and the end of a scan, which may
    fail. The lock is tokio's: whoever waits longest gets it when it is
    released.

    ** Not modelled

    Logging ([msg!], [println!], [trace!]); [Queue::try_from_bytes_mut], which
    has the checks of [try_from_bytes] and is not used; features for tests
    ([unit_test_config], the ephemeral test queue) and the tests themselves;
    on the oracle's side the parsing of arguments (clap), HTTP and JSON, the
    formatting of RPC requests, and the lengths of the sleeps between
    reconnects. [Chain.v] follows the accounts the program owns on one chain:
    a delegated queue leaves the base chain's model and is one of the queues
    that the rollup's starts with. *)

From Stdlib Require Export ZArith Lia Strings.String Strings.Byte.
From coqutil Require Export Byte.
From stdpp Require Export base list gmap.

#[global] Open Scope Z_scope.
#[global] Open Scope list_scope.
#[global] Set Default Goal Selector "!".
#[global] Set Warnings "-clear-no-such-hyp".

(** ** Outcomes

    A Rust function of the program ends in one of three ways: it returns
    [Ok], it returns [Err] with an error value, or it panics (an index out
    of range, a [copy_from_slice] of the wrong length, ...).  On chain both
    [Err] and a panic abort the transaction. *)

Inductive outcome (E A : Type) : Type :=
| Ok (a : A)
| Err (e : E)
| Panic.
Arguments Ok {E A} a.
Arguments Err {E A} e.
Arguments Panic {E A}.

#[global] Instance outcome_ret {E} : MRet (outcome E) := λ A a, Ok a.
#[global] Instance outcome_bind {E} : MBind (outcome E) := λ A B f m,
  match m with
  | Ok a => f a
  | Err e => Err e
  | Panic => Panic
  end.
#[global] Instance outcome_fmap {E} : FMap (outcome E) := λ A B f m,
  match m with
  | Ok a => Ok (f a)
  | Err e => Err e
  | Panic => Panic
  end.

(** [Option::ok_or] *)
Definition ok_or {E A} (o : option A) (e : E) : outcome E A :=
  match o with Some a => Ok a | None => Err e end.

(** The early return [if !c { return Err(e) }]. *)
Definition ensure {E} (c : bool) (e : E) : outcome E unit :=
  if c then Ok () else Err e.

(** A condition whose failure panics. *)
Definition ensure_or_panic {E} (c : bool) : outcome E unit :=
  if c then Ok () else Panic.

Section OutcomeLaws.
Context {E A B C : Type}.
Implicit Types (m : outcome E A).

Lemma outcome_bind_assoc m (f : A → outcome E B) (g : B → outcome E C) :
  (m ≫= f) ≫= g = m ≫= (λ a, f a ≫= g).
Proof. by destruct m. Qed.

Lemma bind_Ok m (f : A → outcome E B) b :
  m ≫= f = Ok b ↔ ∃ a, m = Ok a ∧ f a = Ok b.
Proof. destruct m; naive_solver. Qed.

Lemma bind_not_Panic m (f : A → outcome E B) :
  m ≠ Panic → (∀ a, m = Ok a → f a ≠ Panic) → m ≫= f ≠ Panic.
Proof. destruct m; naive_solver. Qed.

Lemma ok_or_Ok (o : option A) (e : E) a : ok_or o e = Ok a ↔ o = Some a.
Proof. destruct o; naive_solver. Qed.

Lemma ok_or_not_Panic (o : option A) (e : E) : ok_or o e ≠ Panic.
Proof. by destruct o. Qed.
End OutcomeLaws.

Lemma ensure_Ok {E} (c : bool) (e : E) u : ensure c e = Ok u ↔ c = true.
Proof. destruct c, u; naive_solver. Qed.

Lemma ensure_not_Panic {E} (c : bool) (e : E) : ensure c e ≠ Panic.
Proof. by destruct c. Qed.

Lemma ensure_or_panic_Ok {E} (c : bool) u :
  ensure_or_panic (E:=E) c = Ok u ↔ c = true.
Proof. destruct c, u; naive_solver. Qed.

Create HintDb outcome.
#[export] Hint Resolve bind_not_Panic ok_or_not_Panic ensure_not_Panic : outcome.

(** Take a successful run apart, one step of the monad at a time. *)
Ltac inv_outcome :=
  repeat match goal with
  | H : mbind _ _ = Ok _ |- _ => apply bind_Ok in H as (? & ? & H)
  | H : ensure _ _ = Ok _ |- _ => apply ensure_Ok in H
  | H : ensure_or_panic _ = Ok _ |- _ => apply ensure_or_panic_Ok in H
  | H : ok_or _ _ = Ok _ |- _ => apply ok_or_Ok in H
  | H : Ok _ = Ok _ |- _ => injection H as H
  | H : mret _ = Ok _ |- _ => injection H as H
  | H : Err _ = Ok _ |- _ => discriminate H
  | H : Panic = Ok _ |- _ => discriminate H
  | u : unit |- _ => destruct u
  end.

(** ** Machine integers

    A [w]-bit unsigned integer is the [Z] it denotes; every place where the
    code truncates or wraps is written out with one of these. *)

Definition wrap (w : Z) (z : Z) : Z := z mod 2 ^ w.
Definition as_u8 : Z → Z := wrap 8.
Definition as_u16 : Z → Z := wrap 16.
Definition as_u32 : Z → Z := wrap 32.
Definition as_u64 : Z → Z := wrap 64.

(** [z] fits in [w] unsigned bits. *)
Definition fits (w z : Z) : Prop := 0 ≤ z < 2 ^ w.

#[global] Instance fits_dec w z : Decision (fits w z).
Proof. unfold fits. apply _. Defined.

Definition saturating_add (w x y : Z) : Z := Z.min (x + y) (2 ^ w - 1).
Definition saturating_sub (x y : Z) : Z := Z.max (x - y) 0.
Definition wrapping_sub (w x y : Z) : Z := wrap w (x - y).

Definition checked_add (w x y : Z) : option Z :=
  if x + y <? 2 ^ w then Some (x + y) else None.
Definition checked_sub (x y : Z) : option Z :=
  if y <=? x then Some (x - y) else None.

(** [b as u8] *)
Definition bool_as_u8 (b : bool) : Z := if b then 1 else 0.

Lemma wrap_small w z : fits w z → wrap w z = z.
Proof. intros H. by apply Z.mod_small. Qed.

Lemma wrap_fits w z : 0 ≤ w → fits w (wrap w z).
Proof. intros H. apply Z.mod_pos_bound. by apply Z.pow_pos_nonneg. Qed.

Lemma fits_mono w w' z : 0 ≤ w ≤ w' → fits w z → fits w' z.
Proof. intros ? [??]. split; [done|]. pose proof (Z.pow_le_mono_r 2 w w'). lia. Qed.

Lemma as_u16_small z : fits 16 z → as_u16 z = z.
Proof. apply wrap_small. Qed.

Lemma as_u32_small z : fits 32 z → as_u32 z = z.
Proof. apply wrap_small. Qed.

Lemma as_u64_small z : fits 64 z → as_u64 z = z.
Proof. apply wrap_small. Qed.

(** Expose the bounds of [fits] facts to [lia]. *)
Ltac fits_lia :=
  repeat match goal with H : fits _ _ |- _ => unfold fits in H end;
  unfold fits; simpl (2 ^ _) in *; lia.

(** ** Bytes *)

#[global] Instance byte_eq_dec : EqDecision byte.
Proof. intros a b. apply Byte.byte_eq_dec. Defined.

#[global] Instance byte_countable : Countable byte :=
  inj_countable Byte.to_N Byte.of_N Byte.of_to_N.

Definition bytes_eqb (a b : list byte) : bool := bool_decide (a = b).

Lemma bytes_eqb_eq a b : bytes_eqb a b = true ↔ a = b.
Proof. apply bool_decide_eq_true. Qed.

Lemma bytes_eqb_neq a b : bytes_eqb a b = false ↔ a ≠ b.
Proof. apply bool_decide_eq_false. Qed.

(** A Rust byte-string literal [b"..."]. *)
Definition bytes_of_string (s : string) : list byte := list_byte_of_string s.

Definition zeros (n : Z) : list byte := replicate (Z.to_nat n) Byte.x00.

(** ** Slices

    Offsets are [Z], as the other integers; a Rust slice [l[s..e]] is
    [index_range], which panics when the range is not inside the list. *)

Section Slices.
Context {A : Type}.
Implicit Types (l k : list A) (s e p : Z).

Definition zlen l : Z := Z.of_nat (length l).

Definition slice l s e : list A := take (Z.to_nat (e - s)) (drop (Z.to_nat s) l).

(** Overwrite [l[p .. p + len k]] with [k] (in bounds by the caller). *)
Definition splice l p k : list A :=
  take (Z.to_nat p) l ++ k ++ drop (Z.to_nat (p + zlen k)) l.

Definition in_range l s e : bool := (0 <=? s) && (s <=? e) && (e <=? zlen l).

Definition index_range {E} l s e : outcome E (list A) :=
  if in_range l s e then Ok (slice l s e) else Panic.

(** [l[s..e].copy_from_slice(k)]: panics on a bad range or a bad length. *)
Definition copy_into {E} l s e k : outcome E (list A) :=
  if in_range l s e && (zlen k =? e - s) then Ok (splice l s k) else Panic.

Lemma zlen_nonneg l : 0 ≤ zlen l.
Proof. unfold zlen. lia. Qed.

Lemma zlen_nil : zlen (@nil A) = 0.
Proof. done. Qed.

Lemma zlen_cons x l : zlen (x :: l) = zlen l + 1.
Proof. unfold zlen. simpl. lia. Qed.

Lemma zlen_app l k : zlen (l ++ k) = zlen l + zlen k.
Proof. unfold zlen. rewrite length_app. lia. Qed.

Lemma zlen_replicate n (x : A) : 0 ≤ n → zlen (replicate (Z.to_nat n) x) = n.
Proof. intros. unfold zlen. rewrite length_replicate. lia. Qed.

Lemma zlen_slice l s e : 0 ≤ s ≤ e → e ≤ zlen l → zlen (slice l s e) = e - s.
Proof. unfold zlen, slice. rewrite length_take, length_drop. lia. Qed.

Lemma zlen_splice l p k :
  0 ≤ p → p + zlen k ≤ zlen l → zlen (splice l p k) = zlen l.
Proof.
  unfold zlen, splice. rewrite !length_app, length_take, length_drop.
  unfold zlen. lia.
Qed.

Lemma slice_all l : slice l 0 (zlen l) = l.
Proof.
  unfold slice. rewrite drop_0. apply take_ge. unfold zlen. lia.
Qed.

Lemma slice_empty l s e : e ≤ s → slice l s e = [].
Proof. intros. unfold slice. replace (Z.to_nat (e - s)) with 0%nat by lia. done. Qed.

Lemma slice_split l s m e :
  0 ≤ s ≤ m → m ≤ e → slice l s e = slice l s m ++ slice l m e.
Proof.
  intros. unfold slice.
  replace (Z.to_nat m) with (Z.to_nat s + Z.to_nat (m - s))%nat by lia.
  rewrite <- drop_drop.
  replace (Z.to_nat (e - s)) with (Z.to_nat (m - s) + Z.to_nat (e - m))%nat by lia.
  by rewrite take_take_drop.
Qed.

Lemma slice_slice l a b s e :
  0 ≤ a → 0 ≤ s → e ≤ b - a → slice (slice l a b) s e = slice l (a + s) (a + e).
Proof.
  intros. unfold slice.
  rewrite skipn_firstn_comm, take_take, drop_drop.
  f_equal; [lia|]. f_equal; lia.
Qed.

Lemma slice_app_l l k s e : 0 ≤ s → e ≤ zlen l → slice (l ++ k) s e = slice l s e.
Proof.
  intros. unfold slice, zlen in *. destruct (decide (s ≤ e)).
  - rewrite drop_app, take_app, length_drop.
    replace (_ - (length l - Z.to_nat s))%nat with 0%nat by lia.
    by rewrite take_0, app_nil_r.
  - replace (Z.to_nat (e - s)) with 0%nat by lia. by rewrite !take_0.
Qed.

Lemma slice_app_r l k s e :
  zlen l ≤ s → slice (l ++ k) s e = slice k (s - zlen l) (e - zlen l).
Proof.
  intros. unfold slice, zlen in *. rewrite drop_app, (drop_ge l) by lia.
  simpl. f_equal; [lia|]. f_equal. lia.
Qed.

Lemma zlen_take_pos l p : 0 ≤ p ≤ zlen l → zlen (take (Z.to_nat p) l) = p.
Proof. unfold zlen. rewrite length_take. lia. Qed.

Lemma slice_splice_within l p k s e :
  0 ≤ p → p + zlen k ≤ zlen l → p ≤ s → e ≤ p + zlen k →
  slice (splice l p k) s e = slice k (s - p) (e - p).
Proof.
  intros. unfold splice. pose proof (zlen_nonneg k).
  rewrite slice_app_r by (rewrite zlen_take_pos; lia).
  rewrite zlen_take_pos by lia. by rewrite slice_app_l by lia.
Qed.

Lemma slice_splice_same l p k :
  0 ≤ p → p + zlen k ≤ zlen l → slice (splice l p k) p (p + zlen k) = k.
Proof.
  intros. rewrite slice_splice_within by lia.
  replace (p - p) with 0 by lia. replace (p + zlen k - p) with (zlen k) by lia.
  apply slice_all.
Qed.

Lemma slice_splice_before l p k s e :
  0 ≤ s → p + zlen k ≤ zlen l → e ≤ p → slice (splice l p k) s e = slice l s e.
Proof.
  intros. pose proof (zlen_nonneg k). destruct (decide (s ≤ e)) as [Hse|Hse].
  - unfold splice. rewrite slice_app_l; [|lia|rewrite zlen_take_pos; lia].
    unfold slice. rewrite skipn_firstn_comm, take_take. f_equal. lia.
  - by rewrite !slice_empty by lia.
Qed.

Lemma slice_splice_after l p k s e :
  0 ≤ p → p + zlen k ≤ zlen l → p + zlen k ≤ s →
  slice (splice l p k) s e = slice l s e.
Proof.
  intros. pose proof (zlen_nonneg k). unfold splice.
  rewrite slice_app_r by (rewrite zlen_take_pos; lia).
  rewrite zlen_take_pos by lia. rewrite slice_app_r by lia.
  unfold slice. rewrite drop_drop. f_equal; [lia|]. f_equal. lia.
Qed.

(** A write does not show in a range it does not touch. *)
Lemma slice_splice_disjoint l p k s e :
  0 ≤ p → 0 ≤ s → p + zlen k ≤ zlen l → e ≤ p ∨ p + zlen k ≤ s →
  slice (splice l p k) s e = slice l s e.
Proof.
  intros ??? [?|?]; [by apply slice_splice_before|by apply slice_splice_after].
Qed.

Lemma index_range_Ok {E} l s e k :
  index_range (E:=E) l s e = Ok k ↔ 0 ≤ s ≤ e ∧ e ≤ zlen l ∧ k = slice l s e.
Proof.
  unfold index_range, in_range.
  destruct (_ && _) eqn:Hb; rewrite ?andb_true_iff, ?andb_false_iff, ?Z.leb_le, ?Z.leb_gt in Hb;
    naive_solver lia.
Qed.

Lemma index_range_eq {E} l s e :
  0 ≤ s ≤ e → e ≤ zlen l → index_range (E:=E) l s e = Ok (slice l s e).
Proof. intros. by apply index_range_Ok. Qed.

Lemma copy_into_Ok {E} l s e k l' :
  copy_into (E:=E) l s e k = Ok l' ↔
    0 ≤ s ∧ e ≤ zlen l ∧ zlen k = e - s ∧ l' = splice l s k.
Proof.
  unfold copy_into, in_range. pose proof (zlen_nonneg k).
  destruct (_ && _) eqn:Hb;
    rewrite ?andb_true_iff, ?andb_false_iff, ?Z.leb_le, ?Z.leb_gt, ?Z.eqb_eq, ?Z.eqb_neq in Hb;
    naive_solver lia.
Qed.

Lemma copy_into_eq {E} l s e k :
  0 ≤ s → e ≤ zlen l → zlen k = e - s → copy_into (E:=E) l s e k = Ok (splice l s k).
Proof. intros. by apply copy_into_Ok. Qed.

(** Two writes next to each other are one. *)
Lemma splice_splice_right l p k1 k2 :
  0 ≤ p → p + zlen k1 + zlen k2 ≤ zlen l →
  splice (splice l p k1) (p + zlen k1) k2 = splice l p (k1 ++ k2).
Proof.
  intros. pose proof (zlen_nonneg k1). pose proof (zlen_nonneg k2).
  unfold splice at 1. unfold splice at 3. rewrite zlen_app, <- app_assoc.
  assert (take (Z.to_nat (p + zlen k1)) (splice l p k1) = take (Z.to_nat p) l ++ k1) as ->.
  { unfold splice. rewrite app_assoc, take_app_le.
    - apply take_ge. rewrite length_app, length_take. unfold zlen in *. lia.
    - rewrite length_app, length_take. unfold zlen in *. lia. }
  rewrite <- app_assoc. do 3 f_equal.
  unfold splice. rewrite app_assoc, drop_app_ge.
  - rewrite drop_drop, length_app, length_take. f_equal. unfold zlen in *. lia.
  - rewrite length_app, length_take. unfold zlen in *. lia.
Qed.

Lemma splice_splice_left l p k1 k2 :
  0 ≤ p → p + zlen k1 + zlen k2 ≤ zlen l →
  splice (splice l (p + zlen k1) k2) p k1 = splice l p (k1 ++ k2).
Proof.
  intros. pose proof (zlen_nonneg k1). pose proof (zlen_nonneg k2).
  unfold splice at 1. unfold splice at 3. rewrite zlen_app, <- app_assoc.
  f_equal; [|f_equal].
  - unfold splice. rewrite take_app_le, take_take; [f_equal; lia|].
    rewrite length_take. unfold zlen in *. lia.
  - unfold splice. rewrite drop_app_ge.
    + rewrite length_take. unfold zlen in *.
      replace (_ - _)%nat with 0%nat by lia. rewrite drop_0. do 2 f_equal. lia.
    + rewrite length_take. unfold zlen in *. lia.
Qed.

(** Writes to disjoint ranges commute. *)
Lemma splice_splice_comm l p1 k1 p2 k2 :
  0 ≤ p1 → p1 + zlen k1 ≤ p2 → p2 + zlen k2 ≤ zlen l →
  splice (splice l p1 k1) p2 k2 = splice (splice l p2 k2) p1 k1.
Proof.
  intros. pose proof (zlen_nonneg k1). pose proof (zlen_nonneg k2).
  unfold splice. unfold zlen in *.
  rewrite take_app_ge by (rewrite length_take; lia).
  rewrite take_app_ge by (rewrite !length_take; lia).
  rewrite (drop_app_ge (take _ _)) by (rewrite !length_take; lia).
  rewrite (drop_app_ge k1) by (rewrite !length_take; lia).
  rewrite (take_app_le (take _ _)) by (rewrite length_take; lia).
  rewrite (drop_app_le (take _ _)) by (rewrite !length_take; lia).
  rewrite take_take, drop_drop, skipn_firstn_comm, !length_take, <- !app_assoc.
  repeat first [lia | reflexivity | f_equal].
Qed.

Lemma splice_whole l k : zlen k = zlen l → splice l 0 k = k.
Proof.
  intros Hk. unfold splice. simpl. rewrite drop_ge, app_nil_r; [done|].
  unfold zlen in *. lia.
Qed.
End Slices.

Lemma filter_fmap_bool {A B} (f : A → B) (p : B → bool) (l : list A) :
  filter (λ y, p y) (f <$> l) = f <$> filter (λ x, p (f x)) l.
Proof.
  induction l as [|x l IH]; [done|]. rewrite fmap_cons, !filter_cons, IH.
  by destruct (decide (p (f x))).
Qed.

Lemma filter_all {A} (P : A → Prop) `{∀ x, Decision (P x)} (l : list A) :
  Forall P l → filter P l = l.
Proof. induction 1 as [|x l Hx _ IH]; [done|]. by rewrite filter_cons_True, IH. Qed.

Lemma zlen_fmap {A B} (f : A → B) (l : list A) : zlen (f <$> l) = zlen l.
Proof. unfold zlen. by rewrite length_fmap. Qed.

#[export] Hint Rewrite @zlen_nil @zlen_cons @zlen_app @zlen_fmap : zlen.

(** Length goals of the byte layout. *)
Ltac zlen_lia :=
  autorewrite with zlen;
  repeat match goal with
  | |- context [zlen (splice ?l ?p ?k)] => rewrite (zlen_splice l p k) by zlen_lia
  | |- context [zlen (slice ?l ?s ?e)] => rewrite (zlen_slice l s e) by zlen_lia
  end; lia.
