(* ===== verification/Pod.v ===== *)
(** * Plain-old-data layouts

    The account structures of the program are [#[repr(C)]] structs without
    padding ([bytemuck::Pod]): a value {i is} its little-endian bytes.  This
    file has the codecs of the field types and the combinators that build
    the codec of a struct from its fields in declaration order, each with
    the laws that make reading and writing account data inverse to each
    other.  [bytes_of], [pod_read] and [size_of] are bytemuck's [bytes_of],
    [pod_read_unaligned]/[try_from_bytes] and [core::mem::size_of]. *)

From coqutil Require Import Word.LittleEndianList.
From S2P Require Import Prelude.

Record codec (A : Type) := Codec {
  c_size : Z;
  c_enc : A → list byte;
  c_dec : list byte → A;
  c_wf : A → Prop;
  c_size_nonneg : 0 ≤ c_size;
  c_enc_len a : c_wf a → zlen (c_enc a) = c_size;
  c_dec_enc a : c_wf a → c_dec (c_enc a) = a;
  c_enc_dec bs : zlen bs = c_size → c_enc (c_dec bs) = bs;
  c_dec_wf bs : zlen bs = c_size → c_wf (c_dec bs);
}.
Arguments Codec {A}.
Arguments c_size {A}.
Arguments c_enc {A}.
Arguments c_dec {A}.
Arguments c_wf {A}.

(** ** Field codecs *)

(** An unsigned integer of [n] bytes, little endian. *)
Program Definition le_codec (n : nat) : codec Z := {|
  c_size := Z.of_nat n;
  c_enc := le_split n;
  c_dec := le_combine;
  c_wf := fits (8 * Z.of_nat n);
|}.
Next Obligation. lia. Qed.
Next Obligation. intros n a _. unfold zlen. by rewrite length_le_split. Qed.
Next Obligation.
  intros n a Ha. rewrite le_combine_split, Z.mul_comm. by apply Z.mod_small.
Qed.
Next Obligation. unfold zlen. intros n bs Hbs. apply split_le_combine'. lia. Qed.
Next Obligation.
  unfold zlen, fits. intros n bs Hbs. rewrite <- Hbs. apply le_combine_bound.
Qed.

Abbreviation u8c := (le_codec 1).
Abbreviation u16c := (le_codec 2).
Abbreviation u32c := (le_codec 4).
Abbreviation u64c := (le_codec 8).

(** A byte array [[u8; n]]. *)
Program Definition array_codec (n : nat) : codec (list byte) := {|
  c_size := Z.of_nat n;
  c_enc bs := bs;
  c_dec bs := bs;
  c_wf bs := zlen bs = Z.of_nat n;
|}.
Solve Obligations with (intros; auto; lia).

(** ** Struct codecs *)

(** Two fields in a row. *)
Program Definition pair_codec {A B} (ca : codec A) (cb : codec B) : codec (A * B) := {|
  c_size := c_size ca + c_size cb;
  c_enc '(a, b) := c_enc ca a ++ c_enc cb b;
  c_dec bs := (c_dec ca (slice bs 0 (c_size ca)),
               c_dec cb (slice bs (c_size ca) (c_size ca + c_size cb)));
  c_wf '(a, b) := c_wf ca a ∧ c_wf cb b;
|}.
Next Obligation.
  intros A B ca cb. pose proof (c_size_nonneg A ca). pose proof (c_size_nonneg B cb). lia.
Qed.
Next Obligation.
  intros A B ca cb [a b] [??]. simpl. rewrite zlen_app, !c_enc_len by done. done.
Qed.
Next Obligation.
  intros A B ca cb [a b] [Ha Hb]. pose proof (c_size_nonneg A ca).
  pose proof (c_enc_len _ ca a Ha) as Hla. pose proof (c_enc_len _ cb b Hb) as Hlb.
  simpl. f_equal.
  - rewrite slice_app_l by lia. rewrite <- Hla, slice_all. by apply c_dec_enc.
  - rewrite slice_app_r by lia. rewrite Hla.
    replace (c_size ca - c_size ca) with 0 by lia.
    replace (c_size ca + c_size cb - c_size ca) with (zlen (c_enc cb b)) by lia.
    rewrite slice_all. by apply c_dec_enc.
Qed.
Next Obligation.
  intros A B ca cb bs Hbs. pose proof (c_size_nonneg A ca). pose proof (c_size_nonneg B cb).
  simpl. rewrite !c_enc_dec by (rewrite zlen_slice; lia).
  rewrite <- slice_split by lia. rewrite <- Hbs. apply slice_all.
Qed.
Next Obligation.
  intros A B ca cb bs Hbs. pose proof (c_size_nonneg A ca). pose proof (c_size_nonneg B cb).
  split; apply c_dec_wf; rewrite zlen_slice; lia.
Qed.

Infix "⊗" := pair_codec (at level 40, left associativity).

(** A struct is its tuple of fields. *)
Program Definition struct_codec {T A} (c : codec T) (mk : T → A) (fields : A → T)
    (Hmf : ∀ a, mk (fields a) = a) (Hfm : ∀ t, fields (mk t) = t) : codec A := {|
  c_size := c_size c;
  c_enc a := c_enc c (fields a);
  c_dec bs := mk (c_dec c bs);
  c_wf a := c_wf c (fields a);
|}.
Next Obligation. intros. apply c_size_nonneg. Qed.
Next Obligation. intros. by apply c_enc_len. Qed.
Next Obligation. intros * Hmf Hfm a Ha. simpl in *. by rewrite c_dec_enc. Qed.
Next Obligation. intros * Hmf Hfm bs Hbs. simpl in *. rewrite Hfm. by apply c_enc_dec. Qed.
Next Obligation. intros * Hmf Hfm bs Hbs. simpl in *. rewrite Hfm. by apply c_dec_wf. Qed.

(** ** The [Pod] trait *)

Class Pod (A : Type) := pod_codec : codec A.

Definition size_of (A : Type) `{Pod A} : Z := c_size pod_codec.
Definition bytes_of {A} `{Pod A} (a : A) : list byte := c_enc pod_codec a.
Definition pod_read {A} `{Pod A} (bs : list byte) : A := c_dec pod_codec bs.
Definition pod_wf {A} `{Pod A} (a : A) : Prop := c_wf pod_codec a.

Section PodLaws.
Context {A} `{Pod A}.

Lemma size_of_nonneg : 0 ≤ size_of A.
Proof. apply c_size_nonneg. Qed.

Lemma zlen_bytes_of a : pod_wf a → zlen (bytes_of a) = size_of A.
Proof. apply c_enc_len. Qed.

Lemma pod_read_bytes_of a : pod_wf a → pod_read (bytes_of a) = a.
Proof. apply c_dec_enc. Qed.

Lemma bytes_of_pod_read bs : zlen bs = size_of A → bytes_of (pod_read bs) = bs.
Proof. apply c_enc_dec. Qed.

Lemma pod_read_wf bs : zlen bs = size_of A → pod_wf (pod_read bs).
Proof. apply c_dec_wf. Qed.

Lemma pod_read_inj bs1 bs2 :
  zlen bs1 = size_of A → zlen bs2 = size_of A →
  pod_read bs1 = pod_read bs2 → bs1 = bs2.
Proof.
  intros H1 H2 Heq. by rewrite <- (bytes_of_pod_read bs1), <- (bytes_of_pod_read bs2), Heq.
Qed.

(** [bytemuck::try_from_bytes] checks the length; account and instruction
    buffers are 8-byte aligned by the loader, so its alignment test passes. *)
Definition pod_try_from_bytes {E} (e : E) (bs : list byte) : outcome E A :=
  if zlen bs =? size_of A then Ok (pod_read bs) else Err e.

(** [bytemuck::cast_slice] from structs to bytes. *)
Definition cast_to_bytes (l : list A) : list byte := mjoin (bytes_of <$> l).

(** [bytemuck::cast_slice] from [n] structs' worth of bytes to structs. *)
Fixpoint cast_from_bytes (n : nat) (bs : list byte) : list A :=
  match n with
  | O => []
  | S n' => pod_read (slice bs 0 (size_of A))
            :: cast_from_bytes n' (slice bs (size_of A) (zlen bs))
  end.

Lemma cast_to_bytes_cons a l : cast_to_bytes (a :: l) = bytes_of a ++ cast_to_bytes l.
Proof. done. Qed.

Lemma zlen_cast_to_bytes l :
  Forall pod_wf l → zlen (cast_to_bytes l) = zlen l * size_of A.
Proof.
  induction 1 as [|a l Ha _ IH]; [done|].
  rewrite cast_to_bytes_cons, zlen_app, zlen_cons, IH, zlen_bytes_of by done. lia.
Qed.

Lemma cast_from_to_bytes l :
  Forall pod_wf l → cast_from_bytes (length l) (cast_to_bytes l) = l.
Proof.
  induction 1 as [|a l Ha _ IH]; [done|]. pose proof size_of_nonneg.
  rewrite cast_to_bytes_cons. cbn [length cast_from_bytes].
  rewrite <- (zlen_bytes_of a) by done. pose proof (zlen_nonneg (bytes_of a)).
  rewrite slice_app_l, slice_all, pod_read_bytes_of by (done || lia).
  rewrite slice_app_r, zlen_app, Z.sub_diag, Z.add_simpl_l by lia.
  by rewrite slice_all, IH.
Qed.
End PodLaws.

Arguments cast_to_bytes {A _} l : simpl never.
Arguments pod_read {A _} bs : simpl never.
Arguments bytes_of {A _} a : simpl never.
Arguments size_of A {_} : simpl never.
Arguments pod_wf {A _} a : simpl never.
