(* ===== verification/Api.v ===== *)
(** * Errors, constants and account discriminators of the API crate

    [api/src/error.rs], [api/src/consts.rs], [api/src/lib.rs] and the
    discriminators of [api/src/state/mod.rs]. *)

From coqutil Require Import Word.LittleEndianList.
From S2P Require Import Prelude.

(** ** Errors *)

(** The [ProgramError] values the program returns or passes on. *)
Inductive ProgramError : Type :=
| Custom (code : Z)
| InvalidArgument
| InvalidInstructionData
| InvalidAccountData
| AccountDataTooSmall
| InsufficientFunds
| IncorrectProgramId
| MissingRequiredSignature
| AccountAlreadyInitialized
| NotEnoughAccountKeys
| AccountBorrowFailed
| InvalidSeeds
| BorshIoError
| UnsupportedSysvar
| InvalidRealloc
| InvalidAccountOwner.

#[global] Instance ProgramError_eq_dec : EqDecision ProgramError.
Proof. solve_decision. Defined.

Inductive SolanaVrfError : Type :=
| Unauthorized
| RandomnessRequestNotFound
| InvalidProof
| InvalidCallbackAccounts
| InvalidQueueIndex
| ArgumentSizeTooLarge
| QueueNotEmpty
| InvalidOracleIdentity
| OracleMustProvideInDifferentSlot
| QueueAlreadyInUse
| QueuePaused
| QueueSizeTooLarge.

#[global] Instance SolanaVrfError_eq_dec : EqDecision SolanaVrfError.
Proof. solve_decision. Defined.

(** [error as u32] *)
Definition error_code (e : SolanaVrfError) : Z :=
  match e with
  | Unauthorized => 0
  | RandomnessRequestNotFound => 1
  | InvalidProof => 2
  | InvalidCallbackAccounts => 3
  | InvalidQueueIndex => 5
  | ArgumentSizeTooLarge => 8
  | QueueNotEmpty => 11
  | InvalidOracleIdentity => 12
  | OracleMustProvideInDifferentSlot => 13
  | QueueAlreadyInUse => 14
  | QueuePaused => 15
  | QueueSizeTooLarge => 16
  end.

(** [impl From<SolanaVrfError> for ProgramError] *)
Definition vrf_error (e : SolanaVrfError) : ProgramError := Custom (error_code e).

Lemma vrf_error_inj e1 e2 : vrf_error e1 = vrf_error e2 → e1 = e2.
Proof. destruct e1, e2; vm_compute; congruence. Qed.

(** A fallible computation that does not touch the accounts. *)
Abbreviation res := (outcome ProgramError).

(** ** Public keys *)

(** The [pubkey!] literals of the source: 32 bytes, written in base 58. *)
Definition base58_alphabet : string :=
  "123456789ABCDEFGHJKLMNPQRSTUVWXYZabcdefghijkmnopqrstuvwxyz".

Fixpoint base58_digit_from (alphabet : string) (i : Z) (c : Ascii.ascii) : Z :=
  match alphabet with
  | EmptyString => 0
  | String d rest => if Ascii.eqb c d then i else base58_digit_from rest (i + 1) c
  end.

Fixpoint base58_value (s : string) (acc : Z) : Z :=
  match s with
  | EmptyString => acc
  | String c rest => base58_value rest (acc * 58 + base58_digit_from base58_alphabet 0 c)
  end.

(** Big-endian, as base 58 is defined. *)
Definition pubkey (s : string) : list byte := rev (le_split 32 (base58_value s 0)).

Lemma zlen_pubkey s : zlen (pubkey s) = 32.
Proof. unfold pubkey, zlen. by rewrite length_rev, length_le_split. Qed.

(** [Pubkey::default()], which is also the system program's id. *)
Definition Pubkey_default : list byte := zeros 32.
Definition system_program_ID : list byte := pubkey "11111111111111111111111111111111".

Lemma system_program_ID_default : system_program_ID = Pubkey_default.
Proof. by vm_compute. Qed.

(** The program's own id ([declare_id!]). *)
Definition ID : list byte := pubkey "Vrf1RNUjXmQGjmQrQLvJHs9SNkvDJEsRVFPkfSQUwGz".

(** ** Constants *)

Definition ORACLES : list byte := bytes_of_string "oracles".
Definition ORACLE_DATA : list byte := bytes_of_string "oracle".
Definition IDENTITY : list byte := bytes_of_string "identity".
Definition QUEUE : list byte := bytes_of_string "queue".
Definition VRF_PREFIX_CHALLENGE : list byte := bytes_of_string "VRF-Ephem-Challenge".
Definition VRF_PREFIX_HASH_TO_POINT : list byte :=
  bytes_of_string "VRF-Ephem-v2-HashToRistretto".
Definition VRF_PREFIX_HASH_TO_SCALAR : list byte := bytes_of_string "VRF-Ephem-HashToScalar".

Definition VRF_HIGH_PRIORITY_LAMPORTS_COST : Z := 800000.
Definition VRF_LAMPORTS_COST : Z := 500000.

Definition QUEUE_TTL_SECONDS : Z := 120.
Definition MAX_QUEUE_ACCOUNT_SIZE : Z := 512 * 1024.

Definition RISTRETTO_BASEPOINT_POINT : list byte := byte.of_Z <$>
  [226; 242; 174; 10; 106; 188; 78; 113; 168; 132; 169; 97; 197; 0; 81; 95; 88; 227; 11; 106; 165;
   130; 221; 141; 182; 166; 89; 69; 224; 141; 45; 118].

Definition DEFAULT_EPHEMERAL_QUEUE : list byte :=
  pubkey "5hBR571xnXppuCPveTrctfTU7tJLSN94nq7kv7FRK5Tc".

(** ** Account discriminators *)

Inductive AccountDiscriminator : Type := DOracles | DOracle | DQueue.

#[global] Instance AccountDiscriminator_eq_dec : EqDecision AccountDiscriminator.
Proof. solve_decision. Defined.

Definition discriminator_tag (d : AccountDiscriminator) : Z :=
  match d with DOracles => 0 | DOracle => 1 | DQueue => 3 end.

(** [AccountDiscriminator::to_bytes]: the tag as a little-endian [u64]. *)
Definition discriminator_to_bytes (d : AccountDiscriminator) : list byte :=
  le_split 8 (discriminator_tag d).

Lemma zlen_discriminator d : zlen (discriminator_to_bytes d) = 8.
Proof. by destruct d. Qed.

Lemma discriminator_to_bytes_inj d1 d2 :
  discriminator_to_bytes d1 = discriminator_to_bytes d2 → d1 = d2.
Proof. destruct d1, d2; vm_compute; congruence. Qed.
