(* ===== verification/QueueLayout.v ===== *)
(** * The oracle queue: data

    [api/src/state/queue.rs], lines 1-126: the queue header, the queue item
    and the callback account metas, with their byte layout, the wall-clock
    stamps, and the accessors that read an item's callback data back from the
    account.  The operations on the queue are in [QueueAccount.v]. *)

From S2P Require Import Prelude Pod Api.

Definition MAX_CALLBACK_ACCOUNTS : Z := 25.

(** ** The header, at offset 0 of the account data after the discriminator *)

Record Queue : Type := mkQueue {
  item_count : Z;       (* u32 *)
  cursor : Z;           (* u32 *)
  queue_index : Z;      (* u8 *)
  paused : Z;           (* u8 *)
  queue_padding : list byte; (* [u8; 2] *)
}.

#[global] Program Instance Queue_pod : Pod Queue :=
  struct_codec (u32c ⊗ u32c ⊗ u8c ⊗ u8c ⊗ array_codec 2)
    (λ '(a, b, c, d, e), mkQueue a b c d e)
    (λ q, (item_count q, cursor q, queue_index q, paused q, queue_padding q)) _ _.
Next Obligation. by intros []. Qed.
Next Obligation. by intros [[[[]]]]. Qed.

#[global] Instance Queue_eq_dec : EqDecision Queue.
Proof. solve_decision. Defined.

(** ** Queue items *)

Record QueueItem : Type := mkQueueItem {
  slot : Z;                          (* u64 *)
  item_id : list byte;               (* [u8; 32] *)
  callback_program_id : list byte;   (* [u8; 32] *)
  callback_discriminator_offset : Z; (* u32 *)
  metas_offset : Z;                  (* u32 *)
  args_offset : Z;                   (* u32 *)
  callback_discriminator_len : Z;    (* u16 *)
  metas_len : Z;                     (* u16: number of metas *)
  args_len : Z;                      (* u16: number of bytes *)
  priority_request : Z;              (* u8 *)
  used : Z;                          (* u8 *)
  identity_mode : Z;                 (* u8 *)
  identity_bump : Z;                 (* u8 *)
  created_at : Z;                    (* u16 *)
}.

#[global] Program Instance QueueItem_pod : Pod QueueItem :=
  struct_codec
    (u64c ⊗ array_codec 32 ⊗ array_codec 32 ⊗ u32c ⊗ u32c ⊗ u32c
      ⊗ u16c ⊗ u16c ⊗ u16c ⊗ u8c ⊗ u8c ⊗ u8c ⊗ u8c ⊗ u16c)
    (λ '(a, b, c, d, e, f, g, h, i, j, k, l, m, n), mkQueueItem a b c d e f g h i j k l m n)
    (λ q, (slot q, item_id q, callback_program_id q, callback_discriminator_offset q,
           metas_offset q, args_offset q, callback_discriminator_len q, metas_len q,
           args_len q, priority_request q, used q, identity_mode q, identity_bump q,
           created_at q)) _ _.
Next Obligation. by intros []. Qed.
Next Obligation. by intros [[[[[[[[[[[[[]]]]]]]]]]]]]. Qed.

#[global] Instance QueueItem_eq_dec : EqDecision QueueItem.
Proof. solve_decision. Defined.

(** [QueueItem::default()] *)
Definition QueueItem_default : QueueItem :=
  mkQueueItem 0 (zeros 32) (zeros 32) 0 0 0 0 0 0 0 0 0 0 0.

Definition set_id (it : QueueItem) (i : list byte) : QueueItem :=
  mkQueueItem (slot it) i (callback_program_id it) (callback_discriminator_offset it)
    (metas_offset it) (args_offset it) (callback_discriminator_len it) (metas_len it)
    (args_len it) (priority_request it) (used it) (identity_mode it) (identity_bump it)
    (created_at it).

Definition set_used (it : QueueItem) (u : Z) : QueueItem :=
  mkQueueItem (slot it) (item_id it) (callback_program_id it) (callback_discriminator_offset it)
    (metas_offset it) (args_offset it) (callback_discriminator_len it) (metas_len it)
    (args_len it) (priority_request it) u (identity_mode it) (identity_bump it)
    (created_at it).

(** ** Callback accounts *)

Record CompactAccountMeta : Type := mkCompactMeta {
  meta_pubkey : list byte; (* [u8; 32] *)
  meta_is_writable : Z;    (* u8 *)
}.

#[global] Program Instance CompactAccountMeta_pod : Pod CompactAccountMeta :=
  struct_codec (array_codec 32 ⊗ u8c) (λ '(a, b), mkCompactMeta a b)
    (λ m, (meta_pubkey m, meta_is_writable m)) _ _.
Next Obligation. by intros []. Qed.
Next Obligation. by intros []. Qed.

#[global] Instance CompactAccountMeta_eq_dec : EqDecision CompactAccountMeta.
Proof. solve_decision. Defined.

Record SerializableAccountMeta : Type := mkSerializableMeta {
  ser_pubkey : list byte;
  ser_is_signer : bool;
  ser_is_writable : bool;
}.

(** The account metas of a Solana instruction. *)
Record AccountMeta : Type := mkAccountMeta {
  am_pubkey : list byte;
  am_is_signer : bool;
  am_is_writable : bool;
}.

(** [impl From<SerializableAccountMeta> for CompactAccountMeta] *)
Definition compact_meta (m : SerializableAccountMeta) : CompactAccountMeta :=
  mkCompactMeta (ser_pubkey m) (bool_as_u8 (ser_is_writable m)).

Definition to_account_meta (m : CompactAccountMeta) : AccountMeta :=
  mkAccountMeta (meta_pubkey m) false (negb (meta_is_writable m =? 0)).

(** ** Sizes and alignment *)

Definition align_of_QueueItem : Z := 8.

Lemma size_of_Queue : size_of Queue = 12.
Proof. done. Qed.

Lemma size_of_QueueItem : size_of QueueItem = 96.
Proof. done. Qed.

Lemma size_of_CompactAccountMeta : size_of CompactAccountMeta = 33.
Proof. done. Qed.

(** [(x + align - 1) & !(align - 1)] *)
Definition align_up (x : Z) : Z :=
  Z.land (x + align_of_QueueItem - 1) (Z.lnot (align_of_QueueItem - 1)).

Definition items_start : Z := align_up (size_of Queue).

(** ** Wall-clock stamps *)

Definition CREATED_AT_UNIT_SECS : Z := 4.

(** [(unix_timestamp / CREATED_AT_UNIT_SECS) as u16], on [i64]. *)
Definition created_at_from (unix_timestamp : Z) : Z :=
  as_u16 (Z.quot unix_timestamp CREATED_AT_UNIT_SECS).

Definition age_secs (it : QueueItem) (now_stamp : Z) : Z :=
  wrapping_sub 16 now_stamp (created_at it) * CREATED_AT_UNIT_SECS.

(** ** Reading an item's callback data from the account

    Each of these indexes the account data with offsets stored in the item,
    and panics when they point outside of it. *)

Definition callback_discriminator (it : QueueItem) (acc : list byte) : res (list byte) :=
  let start := callback_discriminator_offset it in
  let end_ := start + callback_discriminator_len it in
  index_range acc start end_.

Definition account_metas (it : QueueItem) (acc : list byte) : res (list CompactAccountMeta) :=
  let start := metas_offset it in
  let count := metas_len it in
  let byte_len := count * size_of CompactAccountMeta in
  let end_ := start + byte_len in
  bs ← index_range acc start end_;
  mret (cast_from_bytes (Z.to_nat count) bs).

Definition callback_args (it : QueueItem) (acc : list byte) : res (list byte) :=
  let start := args_offset it in
  let end_ := start + args_len it in
  index_range acc start end_.

(** ** Properties of the layout *)

Lemma align_up_spec x : align_up x = (x + 7) / 8 * 8.
Proof.
  unfold align_up, align_of_QueueItem.
  replace (x + 8 - 1) with (x + 7) by lia.
  change (Z.lnot (8 - 1)) with (Z.lnot (Z.ones 3)).
  rewrite <- Z.ldiff_land, Z.ldiff_ones_r, Z.shiftl_mul_pow2, Z.shiftr_div_pow2 by lia.
  done.
Qed.

Lemma align_up_bounds x : x ≤ align_up x < x + 8.
Proof. rewrite align_up_spec. pose proof (Z.div_mod (x + 7) 8). pose proof (Z.mod_pos_bound (x + 7) 8). lia. Qed.

Lemma align_up_mod x : align_up x mod 8 = 0.
Proof. rewrite align_up_spec. apply Z.mod_mul. lia. Qed.

Lemma align_up_aligned x : x mod 8 = 0 → align_up x = x.
Proof.
  intros Hx. pose proof (align_up_bounds x). pose proof (align_up_mod x).
  pose proof (Z.div_mod x 8). pose proof (Z.div_mod (align_up x) 8). lia.
Qed.

Lemma align_up_mono x y : x ≤ y → align_up x ≤ align_up y.
Proof. intros. rewrite !align_up_spec. apply Z.mul_le_mono_nonneg_r; [lia|]. apply Z.div_le_mono; lia. Qed.

Lemma align_up_le_aligned x y : x ≤ y → y mod 8 = 0 → align_up x ≤ y.
Proof. intros. rewrite <- (align_up_aligned y) by done. by apply align_up_mono. Qed.

Lemma items_start_eq : items_start = 16.
Proof. done. Qed.

(** The well-formedness of an item is that of its fields. *)
Lemma QueueItem_wf_iff it :
  pod_wf it ↔
    fits 64 (slot it) ∧ zlen (item_id it) = 32 ∧ zlen (callback_program_id it) = 32 ∧
    fits 32 (callback_discriminator_offset it) ∧ fits 32 (metas_offset it) ∧
    fits 32 (args_offset it) ∧ fits 16 (callback_discriminator_len it) ∧
    fits 16 (metas_len it) ∧ fits 16 (args_len it) ∧ fits 8 (priority_request it) ∧
    fits 8 (used it) ∧ fits 8 (identity_mode it) ∧ fits 8 (identity_bump it) ∧
    fits 16 (created_at it).
Proof. destruct it. unfold pod_wf. simpl. tauto. Qed.

Lemma CompactAccountMeta_wf_iff m :
  pod_wf m ↔ zlen (meta_pubkey m) = 32 ∧ fits 8 (meta_is_writable m).
Proof. destruct m. unfold pod_wf. simpl. tauto. Qed.
