(* ===== verification/QueueAccount.v ===== *)
(** * The oracle queue: operations

    [impl QueueAccount] and [impl Queue] of [api/src/state/queue.rs].

    A [QueueAccount] is the account data after the 8-byte discriminator, a
    [list byte].  The Rust view also holds [header: &mut Queue], which points
    to the first bytes of the same buffer: here the header is always read
    from and written to those bytes, so the aliasing is the model's own.
    [usize] offsets are unbounded [Z]: they stay far below [2^64].  A method
    taking [&mut self] is a [queue_op]: it returns the new bytes together
    with its outcome, also when it fails, as the code does. *)

From S2P Require Import Prelude Pod Api QueueLayout.

(** ** State passing *)

Definition queue_op (A : Type) : Type := list byte → list byte * res A.

#[global] Instance queue_op_ret : MRet queue_op := λ A a acc, (acc, Ok a).
#[global] Instance queue_op_bind : MBind queue_op := λ A B f m acc,
  match m acc with
  | (acc', Ok a) => f a acc'
  | (acc', Err e) => (acc', Err e)
  | (acc', Panic) => (acc', Panic)
  end.

Definition q_get : queue_op (list byte) := λ acc, (acc, Ok acc).
Definition q_modify (f : list byte → list byte) : queue_op unit := λ acc, (f acc, Ok ()).
Definition q_lift {A} (r : res A) : queue_op A := λ acc, (acc, r).
(** Run a partial update of the bytes; a panic leaves them as they are. *)
Definition q_try (f : list byte → res (list byte)) : queue_op unit := λ acc,
  match f acc with
  | Ok acc' => (acc', Ok ())
  | Err e => (acc, Err e)
  | Panic => (acc, Panic)
  end.

(** ** The header *)

Definition header (acc : list byte) : Queue := pod_read (slice acc 0 (size_of Queue)).
Definition set_header (acc : list byte) (h : Queue) : list byte := splice acc 0 (bytes_of h).

Definition set_cursor (c : Z) (acc : list byte) : list byte :=
  let h := header acc in
  set_header acc (mkQueue (item_count h) c (queue_index h) (paused h) (queue_padding h)).
Definition set_item_count (n : Z) (acc : list byte) : list byte :=
  let h := header acc in
  set_header acc (mkQueue n (cursor h) (queue_index h) (paused h) (queue_padding h)).
Definition set_index (i : Z) (acc : list byte) : list byte :=
  let h := header acc in
  set_header acc (mkQueue (item_count h) (cursor h) i (paused h) (queue_padding h)).
Definition set_paused (p : Z) (acc : list byte) : list byte :=
  let h := header acc in
  set_header acc (mkQueue (item_count h) (cursor h) (queue_index h) p (queue_padding h)).

(** ** Loading *)

(** The length and discriminator checks of [load] and [try_from_bytes]. *)
Definition check_queue_data (data : list byte) : res unit :=
  ensure (8 <=? zlen data) InvalidAccountData;;
  ensure (bytes_eqb (discriminator_to_bytes DQueue) (slice data 0 8)) InvalidAccountData.

(** [QueueAccount::load]: the bytes after the discriminator, with the cursor
    of a fresh account (0) moved to the start of the items. *)
Definition load (data : list byte) : res (list byte) :=
  check_queue_data data;;
  let body := slice data 8 (zlen data) in
  let header_size := size_of Queue in
  ensure (header_size <=? zlen body) InvalidAccountData;;
  h ← pod_try_from_bytes InvalidAccountData (slice body 0 header_size);
  mret (if cursor h =? 0 then set_cursor (as_u32 items_start) body else body).

(** The whole account data of a loaded queue. *)
Definition store_body (data body : list byte) : list byte := slice data 0 8 ++ body.

(** [Queue::try_from_bytes] (and [try_from_bytes_mut]): the header alone. *)
Definition Queue_try_from_bytes (data : list byte) : res Queue :=
  let header_size := size_of Queue in
  ensure (8 + header_size <=? zlen data) InvalidAccountData;;
  ensure (bytes_eqb (discriminator_to_bytes DQueue) (slice data 0 8)) InvalidAccountData;;
  pod_try_from_bytes InvalidAccountData (slice data 8 (8 + header_size)).

Definition Queue_len (q : Queue) : Z := item_count q.
Definition Queue_is_empty (q : Queue) : bool := item_count q =? 0.

(** ** Scanning *)

Definition read_item_unaligned (acc : list byte) (pos : Z) : QueueItem :=
  pod_read (slice acc pos (pos + size_of QueueItem)).

Definition item_next (pos : Z) (it : QueueItem) : Z :=
  let metas_bytes := metas_len it * size_of CompactAccountMeta in
  let item_end := pos + size_of QueueItem + callback_discriminator_len it
                  + metas_bytes + args_len it in
  align_up item_end.

Definition scan_end (acc : list byte) : Z := Z.min (zlen acc) (cursor (header acc)).

(** The loop of [scan_items].  [visit] is the closure with the variables it
    captures as the state [S]; [fuel] bounds the number of iterations, each
    of which advances by at least the size of an item, so [zlen acc]
    iterations are always enough ([scan_loop_unfold]). *)
Fixpoint scan_loop {S R} (fuel : nat) (visit : S → Z → Z → Z → QueueItem → S * option R)
    (acc : list byte) (end_ : Z) (s : S) (used_index pos : Z) : S * option R :=
  match fuel with
  | O => (s, None)
  | Datatypes.S fuel' =>
    if pos + size_of QueueItem <=? end_ then
      let item := read_item_unaligned acc pos in
      let next := item_next pos item in
      match visit s used_index pos next item with
      | (s', Some r) => (s', Some r)
      | (s', None) =>
        scan_loop fuel' visit acc end_ s'
          (if used item =? 1 then used_index + 1 else used_index) next
      end
    else (s, None)
  end.

Definition scan_items {S R} (visit : S → Z → Z → Z → QueueItem → S * option R)
    (acc : list byte) (s : S) : S * option R :=
  scan_loop (Z.to_nat (zlen acc)) visit acc (scan_end acc) s 0 items_start.

Record ReusableSpan : Type := mkReusableSpan { span_item_pos : Z; span_logical_index : Z }.

Record QueueScan : Type := mkQueueScan {
  last_used_end_aligned : Z;
  reusable_span : option ReusableSpan;
}.

Definition visit_reusable (required_span : Z) (s : QueueScan)
    (logical_index item_pos next : Z) (item : QueueItem) : QueueScan * option unit :=
  if used item =? 1 then (mkQueueScan next (reusable_span s), None)
  else if bool_decide (reusable_span s = None) && (next - item_pos =? required_span)
  then (mkQueueScan (last_used_end_aligned s) (Some (mkReusableSpan item_pos logical_index)), None)
  else (s, None).

Definition scan_for_reusable_span (acc : list byte) (required_span : Z) : QueueScan :=
  fst (scan_items (visit_reusable required_span) acc (mkQueueScan items_start None)).

(** ** Adding *)

Record QueueItemLayout : Type := mkLayout { total_needed : Z; required_span : Z }.

Definition item_layout (discriminator : list byte) (metas : list CompactAccountMeta)
    (args : list byte) : res QueueItemLayout :=
  if (MAX_CALLBACK_ACCOUNTS <? zlen metas) || (512 <? zlen args)
  then Err (vrf_error ArgumentSizeTooLarge)
  else
    let total := saturating_add 64 (saturating_add 64 (saturating_add 64 (size_of QueueItem)
                   (zlen discriminator)) (zlen metas * size_of CompactAccountMeta)) (zlen args) in
    Ok (mkLayout total (align_up total)).

(** The item [write_item_at] stores: the base item with its offsets and
    lengths (truncated to the width of their fields) filled in. *)
Definition placed_item (base : QueueItem) (disc_off metas_off args_off : Z)
    (discriminator : list byte) (metas : list CompactAccountMeta) (args : list byte) : QueueItem :=
  mkQueueItem (slot base) (item_id base) (callback_program_id base)
    (as_u32 disc_off) (as_u32 metas_off) (as_u32 args_off)
    (as_u16 (zlen discriminator)) (as_u16 (zlen metas)) (as_u16 (zlen args))
    (priority_request base) 1 (identity_mode base) (identity_bump base) (created_at base).

Definition write_item_at (item_pos : Z) (base_item : QueueItem) (discriminator : list byte)
    (metas : list CompactAccountMeta) (args : list byte) : queue_op Z :=
  let item_size := size_of QueueItem in
  let disc_off := item_pos + item_size in
  let metas_off := disc_off + zlen discriminator in
  let metas_bytes_len := zlen metas * size_of CompactAccountMeta in
  let args_off := metas_off + metas_bytes_len in
  let args_end := args_off + zlen args in
  acc ← q_get;
  q_lift (ensure (args_end <=? zlen acc) AccountDataTooSmall);;
  q_try (λ acc, copy_into acc disc_off metas_off discriminator);;
  q_try (λ acc, copy_into acc metas_off args_off (cast_to_bytes metas));;
  q_try (λ acc, copy_into acc args_off args_end args);;
  let item := placed_item base_item disc_off metas_off args_off discriminator metas args in
  q_try (λ acc, copy_into acc item_pos (item_pos + item_size) (bytes_of item));;
  mret args_end.

(** [if (last as u32) < self.header.cursor { self.header.cursor = last as u32 }] *)
Definition shrink_cursor (last : Z) (acc : list byte) : list byte :=
  if as_u32 last <? cursor (header acc) then set_cursor (as_u32 last) acc else acc.

Definition bump_item_count (acc : list byte) : list byte :=
  set_item_count (saturating_add 32 (item_count (header acc)) 1) acc.

(** [add_item_with_id], its branch that appends at the cursor. *)
Definition append_item (base_item : QueueItem) (discriminator : list byte)
    (metas : list CompactAccountMeta) (args : list byte) (id_from_pos : Z → list byte)
    (layout : QueueItemLayout) : queue_op Z :=
  acc ← q_get;
  let aligned := align_up (cursor (header acc)) in
  q_lift (ensure (saturating_add 64 aligned (total_needed layout) <=? zlen acc) AccountDataTooSmall);;
  (if negb (aligned =? cursor (header acc)) then
     let start := cursor (header acc) in
     let end_ := aligned in
     q_try (λ acc, copy_into acc start end_ (zeros (end_ - start)));;
     q_modify (set_cursor (as_u32 end_))
   else mret ());;
  acc ← q_get;
  let item_pos := cursor (header acc) in
  let item := set_id base_item (id_from_pos (as_u32 item_pos)) in
  end_ ← write_item_at item_pos item discriminator metas args;
  q_modify (set_cursor (as_u32 end_));;
  acc ← q_get;
  let logical_index := item_count (header acc) in
  q_modify bump_item_count;;
  mret logical_index.

Definition add_item_with_id (base_item : QueueItem) (discriminator : list byte)
    (metas : list CompactAccountMeta) (args : list byte) (id_from_pos : Z → list byte)
    : queue_op Z :=
  layout ← q_lift (item_layout discriminator metas args);
  acc ← q_get;
  let scan := scan_for_reusable_span acc (required_span layout) in
  q_modify (shrink_cursor (last_used_end_aligned scan));;
  acc ← q_get;
  match reusable_span scan with
  | Some span =>
    if span_item_pos span <? cursor (header acc) then
      let item := set_id base_item (id_from_pos (as_u32 (span_item_pos span))) in
      write_item_at (span_item_pos span) item discriminator metas args;;
      q_modify bump_item_count;;
      mret (span_logical_index span)
    else append_item base_item discriminator metas args id_from_pos layout
  | None => append_item base_item discriminator metas args id_from_pos layout
  end.

Definition add_item (base_item : QueueItem) (discriminator : list byte)
    (metas : list CompactAccountMeta) (args : list byte) : queue_op Z :=
  let i := item_id base_item in
  add_item_with_id base_item discriminator metas args (λ _, i).

(** ** Reading *)

Definition visit_collect (s : list QueueItem) (_ _ _ : Z) (item : QueueItem)
    : list QueueItem * option unit :=
  if used item =? 1 then (s ++ [item], None) else (s, None).

Definition iter_items (acc : list byte) : list QueueItem :=
  fst (scan_items visit_collect acc []).

Definition visit_index (index : Z) (_ : unit) (logical_index item_pos _ : Z) (item : QueueItem)
    : unit * option (Z * QueueItem) :=
  ((), if (used item =? 1) && (logical_index =? index) then Some (item_pos, item) else None).

Definition get_item_by_index (index : Z) (acc : list byte) : option QueueItem :=
  snd <$> snd (scan_items (visit_index index) acc ()).

Definition visit_id (i : list byte) (_ : unit) (logical_index _ _ : Z) (item : QueueItem)
    : unit * option (Z * QueueItem) :=
  ((), if (used item =? 1) && bytes_eqb (item_id item) i then Some (logical_index, item) else None).

Definition find_item_by_id (i : list byte) (acc : list byte) : option (Z * QueueItem) :=
  snd (scan_items (visit_id i) acc ()).

Definition is_empty (acc : list byte) : bool := item_count (header acc) =? 0.
Definition len (acc : list byte) : Z := item_count (header acc).

(** ** Removing *)

Definition visit_last_used (s : Z) (_ _ next : Z) (item : QueueItem) : Z * option unit :=
  if used item =? 1 then (next, None) else (s, None).

Definition trim_trailing_holes (acc : list byte) : list byte :=
  shrink_cursor (fst (scan_items visit_last_used acc items_start)) acc.

Definition drop_item_count (acc : list byte) : list byte :=
  set_item_count (saturating_sub (item_count (header acc)) 1) acc.

Definition remove_item (index : Z) : queue_op QueueItem :=
  acc ← q_get;
  '(item_pos, item) ← q_lift (ok_or (snd (scan_items (visit_index index) acc ()))
                                    (vrf_error InvalidQueueIndex));
  let item := set_used item 0 in
  q_modify drop_item_count;;
  q_try (λ acc, copy_into acc item_pos (item_pos + size_of QueueItem) (bytes_of item));;
  q_modify trim_trailing_holes;;
  mret item.

(** The loop of [remove_items_matching]: [end_] is computed once, the bytes
    are rewritten during the walk, [on_removed] folds over the removed items. *)
Fixpoint remove_loop {S} (fuel : nat) (pred : QueueItem → bool) (on_removed : S → QueueItem → S)
    (end_ : Z) (acc : list byte) (s : S) (last pos : Z) : list byte * S * Z :=
  match fuel with
  | O => (acc, s, last)
  | Datatypes.S fuel' =>
    if pos + size_of QueueItem <=? end_ then
      let item := read_item_unaligned acc pos in
      let next := item_next pos item in
      if used item =? 1 then
        if pred item then
          let item := set_used item 0 in
          let acc := splice acc pos (bytes_of item) in
          let acc := drop_item_count acc in
          remove_loop fuel' pred on_removed end_ acc (on_removed s item) last next
        else remove_loop fuel' pred on_removed end_ acc s next next
      else remove_loop fuel' pred on_removed end_ acc s last next
    else (acc, s, last)
  end.

Definition remove_items_matching {S} (pred : QueueItem → bool) (on_removed : S → QueueItem → S)
    (acc : list byte) (s : S) : list byte * S :=
  let '(acc', s', last) :=
    remove_loop (Z.to_nat (zlen acc)) pred on_removed (scan_end acc) acc s items_start items_start in
  (shrink_cursor last acc', s').

Arguments read_item_unaligned : simpl never.
Arguments header : simpl never.
Arguments set_header : simpl never.
Arguments item_next : simpl never.
Arguments items_start : simpl never.
