(* ===== verification/QueueInv.v ===== *)
(** * The oracle queue: representation invariant

    What the bytes of a queue account mean: a chain of entries (used items
    and holes) laid out one after the other from [items_start] to the
    cursor.  The lemmas say how header updates and writes act on a chain,
    and that the loop of [scan_items] visits exactly its entries. *)

From S2P Require Import Prelude Pod Api QueueLayout QueueAccount.

(** ** The header bytes *)

Section Header.
Implicit Types (acc : list byte) (h : Queue).

Lemma header_wf acc : 12 ≤ zlen acc → pod_wf (header acc).
Proof. intros. apply pod_read_wf. rewrite zlen_slice; [done| |]; rewrite size_of_Queue; lia. Qed.

Lemma Queue_wf_iff h :
  pod_wf h ↔ fits 32 (item_count h) ∧ fits 32 (cursor h) ∧ fits 8 (queue_index h)
             ∧ fits 8 (paused h) ∧ zlen (queue_padding h) = 2.
Proof. destruct h. unfold pod_wf. simpl. tauto. Qed.

Lemma zlen_set_header acc h : pod_wf h → 12 ≤ zlen acc → zlen (set_header acc h) = zlen acc.
Proof.
  intros Hh ?. unfold set_header. apply zlen_splice; [lia|].
  rewrite zlen_bytes_of, size_of_Queue by done. lia.
Qed.

Lemma header_set_header acc h : pod_wf h → 12 ≤ zlen acc → header (set_header acc h) = h.
Proof.
  intros Hh ?. unfold header, set_header. pose proof (zlen_bytes_of h Hh) as Hl.
  rewrite <- Hl. replace (zlen (bytes_of h)) with (0 + zlen (bytes_of h)) at 1 by lia.
  rewrite slice_splice_same by (rewrite ?Hl, ?size_of_Queue; lia).
  by apply pod_read_bytes_of.
Qed.

Lemma slice_set_header acc h s e :
  pod_wf h → 12 ≤ zlen acc → 12 ≤ s → slice (set_header acc h) s e = slice acc s e.
Proof.
  intros Hh ??. pose proof (zlen_bytes_of h Hh) as Hl. rewrite size_of_Queue in Hl.
  unfold set_header. apply slice_splice_after; lia.
Qed.

(** Writes behind the header do not change it. *)
Lemma header_splice acc p k :
  12 ≤ p → p + zlen k ≤ zlen acc → header (splice acc p k) = header acc.
Proof.
  intros. unfold header. rewrite slice_splice_before; [done|lia|lia|].
  rewrite size_of_Queue. lia.
Qed.
End Header.

(** A header update that keeps the length and every byte behind the header. *)
Record header_update (acc acc' : list byte) (h' : Queue) : Prop := {
  hu_header : header acc' = h';
  hu_len : zlen acc' = zlen acc;
  hu_slice s e : 12 ≤ s → slice acc' s e = slice acc s e;
}.

Lemma set_header_update acc h : pod_wf h → 12 ≤ zlen acc → header_update acc (set_header acc h) h.
Proof.
  split; [by apply header_set_header|by apply zlen_set_header|].
  intros. by apply slice_set_header.
Qed.

Definition with_cursor (h : Queue) (c : Z) : Queue :=
  mkQueue (item_count h) c (queue_index h) (paused h) (queue_padding h).
Definition with_count (h : Queue) (n : Z) : Queue :=
  mkQueue n (cursor h) (queue_index h) (paused h) (queue_padding h).

Lemma set_cursor_update c acc :
  12 ≤ zlen acc → fits 32 c → header_update acc (set_cursor c acc) (with_cursor (header acc) c).
Proof.
  intros ? Hc. apply set_header_update; [|done].
  pose proof (header_wf acc ltac:(done)) as Hwf. rewrite Queue_wf_iff in *. simpl. naive_solver.
Qed.

Lemma set_item_count_update n acc :
  12 ≤ zlen acc → fits 32 n → header_update acc (set_item_count n acc) (with_count (header acc) n).
Proof.
  intros ? Hc. apply set_header_update; [|done].
  pose proof (header_wf acc ltac:(done)) as Hwf. rewrite Queue_wf_iff in *. simpl. naive_solver.
Qed.

(** ** Entries and chains *)

(** An entry of the queue: an item and the bytes of its discriminator, metas
    and arguments. *)
Record entry : Type := mkEntry { e_item : QueueItem; e_payload : list byte }.

Definition payload_len (it : QueueItem) : Z :=
  callback_discriminator_len it + metas_len it * 33 + args_len it.
Definition entry_end (p : Z) (it : QueueItem) : Z := p + 96 + payload_len it.
Definition e_used (x : entry) : bool := used (e_item x) =? 1.

(** [x] is stored at [p], ends before [lim], and its offsets point to its own
    payload. *)
Record entry_at (acc : list byte) (lim p : Z) (x : entry) : Prop := {
  ea_end : entry_end p (e_item x) ≤ lim;
  ea_wf : pod_wf (e_item x);
  ea_item : slice acc p (p + 96) = bytes_of (e_item x);
  ea_payload : slice acc (p + 96) (entry_end p (e_item x)) = e_payload x;
  ea_disc : callback_discriminator_offset (e_item x) = p + 96;
  ea_metas : metas_offset (e_item x) = p + 96 + callback_discriminator_len (e_item x);
  ea_args : args_offset (e_item x) =
            p + 96 + callback_discriminator_len (e_item x) + metas_len (e_item x) * 33;
}.

(** The entries [xs] are stored one after the other from [p]; the next one
    would start at [e]. *)
Fixpoint chain (acc : list byte) (lim p : Z) (xs : list entry) (e : Z) : Prop :=
  match xs with
  | [] => e = p
  | x :: xs' => entry_at acc lim p x ∧ chain acc lim (item_next p (e_item x)) xs' e
  end.

Lemma item_next_eq p it : item_next p it = align_up (entry_end p it).
Proof.
  unfold item_next, entry_end, payload_len.
  rewrite size_of_QueueItem, size_of_CompactAccountMeta. f_equal. lia.
Qed.

Lemma payload_len_nonneg it : pod_wf it → 0 ≤ payload_len it.
Proof. intros Hit. rewrite QueueItem_wf_iff in Hit. unfold payload_len. destruct_and!. fits_lia. Qed.

Lemma item_next_bounds p it :
  pod_wf it → p + 96 ≤ entry_end p it ≤ item_next p it ∧ item_next p it < entry_end p it + 8.
Proof.
  intros Hit. rewrite item_next_eq. pose proof (align_up_bounds (entry_end p it)).
  pose proof (payload_len_nonneg it Hit). unfold entry_end in *. lia.
Qed.

Section Chain.
Implicit Types (acc : list byte) (xs : list entry) (lim p e : Z).

Lemma chain_end acc lim p xs e : chain acc lim p xs e → p + 96 * zlen xs ≤ e.
Proof.
  revert p. induction xs as [|x xs IH]; intros p; simpl; [unfold zlen; simpl; lia|].
  intros [Hx Hxs]. apply IH in Hxs. rewrite zlen_cons.
  pose proof (item_next_bounds p _ (ea_wf _ _ _ _ Hx)). lia.
Qed.

Lemma chain_app acc lim p xs1 xs2 e :
  chain acc lim p (xs1 ++ xs2) e ↔ ∃ m, chain acc lim p xs1 m ∧ chain acc lim m xs2 e.
Proof.
  revert p. induction xs1 as [|x xs1 IH]; intros p; simpl; [naive_solver|].
  rewrite IH. naive_solver.
Qed.

Lemma entry_at_ext acc acc' lim lim' p x :
  (∀ s t, p ≤ s → t ≤ entry_end p (e_item x) → slice acc' s t = slice acc s t) →
  entry_end p (e_item x) ≤ lim' →
  entry_at acc lim p x → entry_at acc' lim' p x.
Proof.
  intros Hs Hlim [Hend Hwf Hit Hpay Hd Hm Ha].
  pose proof (item_next_bounds p _ Hwf).
  split; try done; rewrite Hs by lia; done.
Qed.

(** A chain depends only on the bytes of its entries. *)
Lemma chain_ext acc acc' lim lim' p xs e :
  (∀ s t, p ≤ s → t ≤ Z.min lim e → slice acc' s t = slice acc s t) →
  Z.min lim e ≤ lim' →
  chain acc lim p xs e → chain acc' lim' p xs e.
Proof.
  revert p. induction xs as [|x xs IH]; intros p Hs Hlim; simpl; [done|].
  intros [Hx Hxs].
  pose proof (item_next_bounds p _ (ea_wf _ _ _ _ Hx)).
  pose proof (chain_end _ _ _ _ _ Hxs). pose proof (zlen_nonneg xs).
  pose proof (ea_end _ _ _ _ Hx). split.
  - eapply entry_at_ext; [|lia|done]. intros s t ??. apply Hs; lia.
  - eapply IH; [|done|done]. intros s t ??. apply Hs; lia.
Qed.

Lemma chain_header_update acc acc' h lim p xs e :
  header_update acc acc' h → 12 ≤ p → chain acc lim p xs e → chain acc' lim p xs e.
Proof.
  intros Hu ?. apply chain_ext; [|lia]. intros s t ??. apply (hu_slice _ _ _ Hu). lia.
Qed.

Lemma chain_aligned acc lim p xs e : p mod 8 = 0 → chain acc lim p xs e → e mod 8 = 0.
Proof.
  revert p. induction xs as [|x xs IH]; intros p Hp; simpl; [by intros ->|].
  intros [_ Hxs]. eapply IH; [|exact Hxs]. rewrite item_next_eq. apply align_up_mod.
Qed.

(** Reading the item of an entry gives the item. *)
Lemma read_item_at acc lim p x :
  entry_at acc lim p x → read_item_unaligned acc p = e_item x.
Proof.
  intros Hx. unfold read_item_unaligned. rewrite size_of_QueueItem, (ea_item _ _ _ _ Hx).
  apply pod_read_bytes_of, Hx.
Qed.
End Chain.

(** ** The scan loop on a chain *)

(** What the loop of [scan_items] computes on a list of entries. *)
Fixpoint fold_scan {S R} (visit : S → Z → Z → Z → QueueItem → S * option R)
    (s : S) (ui p : Z) (xs : list entry) : S * option R :=
  match xs with
  | [] => (s, None)
  | x :: xs' =>
    match visit s ui p (item_next p (e_item x)) (e_item x) with
    | (s', Some r) => (s', Some r)
    | (s', None) =>
      fold_scan visit s' (if e_used x then ui + 1 else ui) (item_next p (e_item x)) xs'
    end
  end.

Lemma scan_loop_chain {S R} (visit : S → Z → Z → Z → QueueItem → S * option R)
    acc lim e fuel s ui p xs :
  chain acc lim p xs e → lim ≤ e → (length xs < fuel)%nat →
  scan_loop fuel visit acc lim s ui p = fold_scan visit s ui p xs.
Proof.
  intros Hc He. revert fuel s ui p Hc. induction xs as [|x xs IH]; intros fuel s ui p Hc Hfuel;
    (destruct fuel as [|fuel]; [simpl in Hfuel; lia|]);
    cbn [chain scan_loop fold_scan] in Hc |- *; cbv zeta; rewrite size_of_QueueItem.
  - replace (p + 96 <=? lim) with false; [done|]. symmetry. apply Z.leb_gt. lia.
  - destruct Hc as [Hx Hxs]. pose proof (item_next_bounds p _ (ea_wf _ _ _ _ Hx)).
    pose proof (ea_end _ _ _ _ Hx).
    replace (p + 96 <=? lim) with true by (symmetry; apply Z.leb_le; lia).
    rewrite (read_item_at _ _ _ _ Hx).
    destruct (visit s ui p (item_next p (e_item x)) (e_item x)) as [s' [r|]]; [done|].
    apply IH; [done|simpl in Hfuel; lia].
Qed.

(** ** The invariant of a queue account *)

Definition live (xs : list entry) : list entry := filter e_used xs.

(** Either the queue has no entries or its last entry is in use. *)
Definition last_is_used (xs : list entry) : Prop :=
  match last xs with None => True | Some x => e_used x = true end.

Record queue_inv (acc : list byte) (xs : list entry) : Prop := {
  qi_len : 16 ≤ zlen acc ≤ 2 ^ 32 - 8;
  qi_cursor : 16 ≤ cursor (header acc) ≤ zlen acc;
  qi_chain : chain acc (cursor (header acc)) 16 xs (align_up (cursor (header acc)));
  qi_count : item_count (header acc) = zlen (live xs);
  qi_last : last_is_used xs;
}.

(** The invariant without its last clause: holes may end the chain, as they
    do between the two halves of a removal. *)
Record queue_weak (acc : list byte) (xs : list entry) : Prop := {
  qw_len : 16 ≤ zlen acc ≤ 2 ^ 32 - 8;
  qw_cursor : 16 ≤ cursor (header acc) ≤ zlen acc;
  qw_chain : chain acc (cursor (header acc)) 16 xs (align_up (cursor (header acc)));
  qw_count : item_count (header acc) = zlen (live xs);
}.

Lemma queue_inv_weak acc xs : queue_inv acc xs → queue_weak acc xs.
Proof. by intros []. Qed.

Lemma length_live xs : (length (live xs) ≤ length xs)%nat.
Proof. apply length_filter. Qed.

Section Weak.
Context {acc : list byte} {xs : list entry} (Hw : queue_weak acc xs).

Lemma qw_entries_bound : 16 + 96 * zlen xs ≤ align_up (cursor (header acc)).
Proof. apply (chain_end _ _ _ _ _ (qw_chain _ _ Hw)). Qed.

Lemma qw_scan {S R} (visit : S → Z → Z → Z → QueueItem → S * option R) s :
  scan_items visit acc s = fold_scan visit s 0 16 xs.
Proof.
  pose proof qw_entries_bound. pose proof (qw_cursor _ _ Hw). pose proof (qw_len _ _ Hw).
  pose proof (align_up_bounds (cursor (header acc))).
  unfold scan_items, scan_end. rewrite Z.min_r, items_start_eq by lia.
  eapply scan_loop_chain; [apply (qw_chain _ _ Hw)|lia|]. unfold zlen in *. lia.
Qed.
End Weak.

Section Inv.
Context {acc : list byte} {xs : list entry} (Hinv : queue_inv acc xs).

Lemma qi_entries_bound : 16 + 96 * zlen xs ≤ align_up (cursor (header acc)).
Proof. apply qw_entries_bound, queue_inv_weak, Hinv. Qed.

Lemma qi_scan {S R} (visit : S → Z → Z → Z → QueueItem → S * option R) s :
  scan_items visit acc s = fold_scan visit s 0 16 xs.
Proof. apply qw_scan, queue_inv_weak, Hinv. Qed.
End Inv.
