(* ===== verification/QueueScan.v ===== *)
(** * The oracle queue: what each scan computes

    Every scan of the queue ([find_item_by_id], [get_item_by_index],
    [iter_items], the search for a reusable span, the trim) as a function of
    the list of entries. *)

From S2P Require Import Prelude Pod Api QueueLayout QueueAccount QueueInv.

(** ** Used entries, positions and trailing holes *)

Lemma live_cons x xs : live (x :: xs) = if e_used x then x :: live xs else live xs.
Proof. unfold live. rewrite filter_cons. by destruct (e_used x). Qed.

Lemma live_app xs ys : live (xs ++ ys) = live xs ++ live ys.
Proof. apply filter_app. Qed.

(** The offset behind the entries [xs] laid out from [p]. *)
Fixpoint walk_end (p : Z) (xs : list entry) : Z :=
  match xs with
  | [] => p
  | x :: xs' => walk_end (item_next p (e_item x)) xs'
  end.

Lemma chain_walk_end acc lim p xs e : chain acc lim p xs e → e = walk_end p xs.
Proof. revert p. induction xs as [|x xs IH]; intros p; simpl; [done|]. intros [_ ?]. by apply IH. Qed.

Lemma walk_end_app p xs ys : walk_end p (xs ++ ys) = walk_end (walk_end p xs) ys.
Proof. revert p. induction xs as [|x xs IH]; intros p; simpl; [done|]. apply IH. Qed.

(** The entries with their offsets, and the used ones among them. *)
Fixpoint placed (p : Z) (xs : list entry) : list (Z * entry) :=
  match xs with
  | [] => []
  | x :: xs' => (p, x) :: placed (item_next p (e_item x)) xs'
  end.

Definition live_at (p : Z) (xs : list entry) : list (Z * entry) :=
  filter (λ qx, e_used qx.2) (placed p xs).

Lemma live_at_cons p x xs :
  live_at p (x :: xs) =
    if e_used x then (p, x) :: live_at (item_next p (e_item x)) xs
    else live_at (item_next p (e_item x)) xs.
Proof. unfold live_at. cbn [placed]. rewrite filter_cons. simpl. by destruct (e_used x). Qed.

Lemma live_at_live p xs : (live_at p xs).*2 = live xs.
Proof.
  revert p. induction xs as [|x xs IH]; intros p; [done|].
  rewrite live_at_cons, live_cons. destruct (e_used x); [rewrite fmap_cons|]; by rewrite IH.
Qed.

Lemma live_at_lookup p xs n q x :
  live_at p xs !! n = Some (q, x) →
  ∃ xs1 xs2, xs = xs1 ++ x :: xs2 ∧ q = walk_end p xs1 ∧ length (live xs1) = n ∧ e_used x = true.
Proof.
  revert p n. induction xs as [|y xs IH]; intros p n; [done|].
  rewrite live_at_cons. destruct (e_used y) eqn:Hy; [destruct n as [|n]; simpl|].
  - intros [= <- <-]. by exists [], xs.
  - intros (xs1 & xs2 & -> & -> & <- & ?)%IH. exists (y :: xs1), xs2. by rewrite live_cons, Hy.
  - intros (xs1 & xs2 & -> & -> & <- & ?)%IH. exists (y :: xs1), xs2. by rewrite live_cons, Hy.
Qed.

(** [xs] without its trailing holes. *)
Fixpoint trim (xs : list entry) : list entry :=
  match xs with
  | [] => []
  | x :: xs' =>
    match trim xs' with
    | [] => if e_used x then [x] else []
    | t => x :: t
    end
  end.

Lemma trim_prefix xs : ∃ ys, xs = trim xs ++ ys ∧ live ys = [].
Proof.
  induction xs as [|x xs (ys & Hxs & Hys)]; [by exists []|]. simpl.
  destruct (trim xs) as [|t ts] eqn:Ht.
  - destruct (e_used x) eqn:Hx.
    + exists xs. split; [done|]. by rewrite Hxs.
    + exists (x :: xs). rewrite live_cons, Hx. split; [done|]. by rewrite Hxs.
  - exists ys. split; [|done]. rewrite Hxs at 1. done.
Qed.

Lemma live_trim xs : live (trim xs) = live xs.
Proof.
  destruct (trim_prefix xs) as (ys & Hxs & Hys). rewrite Hxs at 2. by rewrite live_app, Hys, app_nil_r.
Qed.

Lemma trim_last_is_used xs : last_is_used (trim xs).
Proof.
  induction xs as [|x xs IH]; [done|]. simpl. destruct (trim xs) as [|t ts]; [|done].
  by destruct (e_used x) eqn:?.
Qed.

Lemma trim_id xs : last_is_used xs → trim xs = xs.
Proof.
  induction xs as [|x xs IH]; [done|]. intros Hl. cbn [trim].
  destruct xs as [|y xs]; [simpl in *; by rewrite Hl|]. rewrite IH by done. done.
Qed.

(** ** The closures of the scans *)

Lemma fold_visit_index i ui p xs :
  fold_scan (visit_index i) () ui p xs =
    ((), if ui <=? i then prod_map id e_item <$> live_at p xs !! Z.to_nat (i - ui) else None).
Proof.
  revert ui p. induction xs as [|x xs IH]; intros ui p; [by destruct (_ <=? _)|].
  cbn [fold_scan]. unfold visit_index at 1. fold (e_used x). rewrite live_at_cons.
  destruct (e_used x) eqn:Hx; cbn [andb]; [|apply IH].
  destruct (Z.eqb_spec ui i) as [->|Hne].
  - rewrite Z.leb_refl, Z.sub_diag. done.
  - rewrite IH. destruct (Z.leb_spec ui i), (Z.leb_spec (ui + 1) i); try lia; [|done].
    replace (Z.to_nat (i - ui)) with (S (Z.to_nat (i - (ui + 1)))) by lia. done.
Qed.

Lemma fold_visit_id i ui p xs :
  snd (fold_scan (visit_id i) () ui p xs) =
    (λ nx, (ui + Z.of_nat nx.1, e_item nx.2)) <$>
      list_find (λ x, item_id (e_item x) = i) (live xs).
Proof.
  revert ui p. induction xs as [|x xs IH]; intros ui p; [done|].
  cbn [fold_scan]. unfold visit_id at 1. fold (e_used x). rewrite live_cons.
  destruct (e_used x) eqn:Hx; cbn [andb]; [|apply IH].
  cbn [list_find]. unfold bytes_eqb. case_decide as Hid.
  - rewrite bool_decide_eq_true_2 by done. simpl. do 2 f_equal. lia.
  - rewrite bool_decide_eq_false_2, IH by done.
    destruct (list_find _ (live xs)) as [[n y]|]; simpl; [|done]. do 2 f_equal. lia.
Qed.

Lemma fold_visit_collect s ui p xs :
  fst (fold_scan visit_collect s ui p xs) = s ++ (e_item <$> live xs).
Proof.
  revert s ui p. induction xs as [|x xs IH]; intros s ui p; [by rewrite app_nil_r|].
  cbn [fold_scan]. unfold visit_collect at 1. fold (e_used x). rewrite live_cons.
  destruct (e_used x); rewrite IH; [|done]. by rewrite fmap_cons, <- app_assoc.
Qed.

Lemma fold_visit_last_used s ui p xs :
  fst (fold_scan visit_last_used s ui p xs) =
    match trim xs with [] => s | t => walk_end p t end.
Proof.
  revert s ui p. induction xs as [|x xs IH]; intros s ui p; [done|].
  cbn [fold_scan trim]. unfold visit_last_used at 1. fold (e_used x).
  destruct (e_used x); rewrite IH; by destruct (trim xs).
Qed.

Corollary fold_visit_last_used_start ui p xs :
  fst (fold_scan visit_last_used p ui p xs) = walk_end p (trim xs).
Proof. rewrite fold_visit_last_used. by destruct (trim xs). Qed.

(** The first hole whose span is exactly [req]. *)
Fixpoint find_hole (req ui p : Z) (xs : list entry) : option ReusableSpan :=
  match xs with
  | [] => None
  | x :: xs' =>
    let next := item_next p (e_item x) in
    if negb (e_used x) && (next - p =? req) then Some (mkReusableSpan p ui)
    else find_hole req (if e_used x then ui + 1 else ui) next xs'
  end.

Lemma fold_visit_reusable req l o ui p xs :
  fst (fold_scan (visit_reusable req) (mkQueueScan l o) ui p xs) =
    mkQueueScan (match trim xs with [] => l | t => walk_end p t end)
                (match o with Some s => Some s | None => find_hole req ui p xs end).
Proof.
  revert l o ui p. induction xs as [|x xs IH]; intros l o ui p; [by destruct o|].
  cbn [fold_scan trim find_hole]. unfold visit_reusable at 1. fold (e_used x).
  destruct (e_used x) eqn:Hx; cbn [negb andb reusable_span last_used_end_aligned].
  - rewrite IH. f_equal; by destruct (trim xs).
  - destruct o as [s|].
    + rewrite bool_decide_eq_false_2 by done. cbn [andb]. rewrite IH. f_equal. by destruct (trim xs).
    + rewrite bool_decide_eq_true_2 by done. cbn [andb].
      destruct (_ =? req); rewrite IH; f_equal; by destruct (trim xs).
Qed.

Lemma find_hole_Some req ui p xs sp :
  find_hole req ui p xs = Some sp →
  ∃ xs1 x xs2, xs = xs1 ++ x :: xs2 ∧ e_used x = false ∧ span_item_pos sp = walk_end p xs1 ∧
    span_logical_index sp = ui + zlen (live xs1) ∧
    item_next (span_item_pos sp) (e_item x) - span_item_pos sp = req.
Proof.
  revert ui p. induction xs as [|x xs IH]; intros ui p; [done|]. cbn [find_hole].
  destruct (e_used x) eqn:Hx; cbn [negb andb].
  2: destruct (Z.eqb_spec (item_next p (e_item x) - p) req) as [Hreq|Hreq].
  2: { intros [= <-]. exists [], x, xs. simpl. repeat split; try done. unfold zlen. simpl. lia. }
  all: intros (xs1 & y & xs2 & -> & ? & ? & Hk & ?)%IH; exists (x :: xs1), y, xs2;
    rewrite live_cons, Hx, ?zlen_cons; repeat split; try done; lia.
Qed.

Lemma find_hole_None req ui p xs xs1 x xs2 :
  find_hole req ui p xs = None → xs = xs1 ++ x :: xs2 → e_used x = false →
  item_next (walk_end p xs1) (e_item x) - walk_end p xs1 ≠ req.
Proof.
  revert ui p xs. induction xs1 as [|y xs1 IH]; intros ui p xs Hf -> Hx; cbn [find_hole app] in Hf.
  - rewrite Hx in Hf. cbn [negb andb] in Hf. simpl.
    by destruct (Z.eqb_spec (item_next p (e_item x) - p) req).
  - cbn [walk_end]. destruct (negb (e_used y) && _) in Hf; [done|]. by eapply IH.
Qed.

(** ** The scans of a well-formed queue *)

Section Scans.
Context {acc : list byte} {xs : list entry} (Hinv : queue_inv acc xs).

Lemma inv_walk_end : walk_end 16 xs = align_up (cursor (header acc)).
Proof. symmetry. apply (chain_walk_end _ _ _ _ _ (qi_chain _ _ Hinv)). Qed.

Lemma inv_scan_for_reusable_span req :
  scan_for_reusable_span acc req =
    mkQueueScan (align_up (cursor (header acc))) (find_hole req 0 16 xs).
Proof.
  unfold scan_for_reusable_span. rewrite (qi_scan Hinv), fold_visit_reusable.
  rewrite trim_id by apply (qi_last _ _ Hinv). f_equal. rewrite <- inv_walk_end.
  by destruct xs.
Qed.

Lemma inv_iter_items : iter_items acc = e_item <$> live xs.
Proof. unfold iter_items. by rewrite (qi_scan Hinv), fold_visit_collect. Qed.

Lemma inv_find_item_by_id i :
  find_item_by_id i acc =
    (λ nx, (Z.of_nat nx.1, e_item nx.2)) <$> list_find (λ x, item_id (e_item x) = i) (live xs).
Proof. unfold find_item_by_id. by rewrite (qi_scan Hinv), fold_visit_id. Qed.

Lemma inv_scan_index i :
  0 ≤ i → snd (scan_items (visit_index i) acc ()) =
    prod_map id e_item <$> live_at 16 xs !! Z.to_nat i.
Proof.
  intros. rewrite (qi_scan Hinv), fold_visit_index. cbn [snd].
  rewrite Z.sub_0_r. by destruct (Z.leb_spec 0 i); [|lia].
Qed.

Lemma inv_get_item_by_index i :
  0 ≤ i → get_item_by_index i acc = e_item <$> live xs !! Z.to_nat i.
Proof.
  intros. unfold get_item_by_index. rewrite inv_scan_index by done.
  rewrite <- (live_at_live 16 xs), list_lookup_fmap.
  by destruct (live_at 16 xs !! _) as [[]|].
Qed.

(** The cursor never has to be shrunk. *)
Lemma inv_shrink_cursor : shrink_cursor (align_up (cursor (header acc))) acc = acc.
Proof.
  unfold shrink_cursor. pose proof (qi_len _ _ Hinv). pose proof (qi_cursor _ _ Hinv).
  pose proof (align_up_bounds (cursor (header acc))).
  pose proof (align_up_le_aligned (cursor (header acc)) (2 ^ 32 - 8) ltac:(lia) eq_refl).
  rewrite as_u32_small by (unfold fits; lia).
  destruct (Z.ltb_spec (align_up (cursor (header acc))) (cursor (header acc))); [lia|done].
Qed.
End Scans.

(** ** Rewriting one entry in place *)

(** Writing [k] inside the span of the entry [h] replaces [h] by the entry
    [y] that is then stored there, and leaves the others as they are. *)
Lemma chain_replace acc lim e p k xs1 h xs2 y :
  chain acc lim 16 (xs1 ++ h :: xs2) e → p = walk_end 16 xs1 →
  p + zlen k ≤ item_next p (e_item h) → p + zlen k ≤ zlen acc →
  entry_at (splice acc p k) lim p y → item_next p (e_item y) = item_next p (e_item h) →
  chain (splice acc p k) lim 16 (xs1 ++ y :: xs2) e.
Proof.
  intros Hc Hp Hk Hl Hy Hnext. apply chain_app in Hc as (m & Hc1 & Hch & Hc2).
  assert (m = p) as -> by (rewrite (chain_walk_end _ _ _ _ _ Hc1); done).
  pose proof (chain_end _ _ _ _ _ Hc1). pose proof (zlen_nonneg xs1). pose proof (zlen_nonneg k).
  apply chain_app. exists p. split; [|split; [done|]].
  - eapply chain_ext; [|apply Z.le_min_l|exact Hc1]. intros s t ??.
    destruct (decide (s ≤ t)); [|by rewrite !slice_empty by lia].
    apply slice_splice_before; lia.
  - rewrite Hnext. eapply chain_ext; [|apply Z.le_min_l|exact Hc2]. intros s t ??.
    apply slice_splice_after; lia.
Qed.

(** The entry at the head of a suffix of the chain. *)
Lemma chain_lookup acc lim e xs1 h xs2 :
  chain acc lim 16 (xs1 ++ h :: xs2) e →
  entry_at acc lim (walk_end 16 xs1) h ∧ walk_end 16 xs1 mod 8 = 0 ∧ 16 ≤ walk_end 16 xs1.
Proof.
  intros Hc. apply chain_app in Hc as (m & Hc1 & Hch & _).
  rewrite <- (chain_walk_end _ _ _ _ _ Hc1). pose proof (chain_end _ _ _ _ _ Hc1).
  pose proof (zlen_nonneg xs1). split; [done|]. split; [|lia].
  by eapply chain_aligned; [|exact Hc1].
Qed.

(** Something always follows a hole. *)
Lemma hole_room acc xs1 h xs2 :
  queue_inv acc (xs1 ++ h :: xs2) → e_used h = false →
  item_next (walk_end 16 xs1) (e_item h) + 96 ≤ cursor (header acc).
Proof.
  intros Hinv Hh. pose proof (qi_chain _ _ Hinv) as Hc.
  apply chain_app in Hc as (m & Hc1 & Hch & Hc2).
  rewrite <- (chain_walk_end _ _ _ _ _ Hc1).
  destruct xs2 as [|y xs2].
  - pose proof (qi_last _ _ Hinv) as Hl. unfold last_is_used in Hl.
    rewrite last_snoc in Hl. congruence.
  - destruct Hc2 as [Hy _]. pose proof (ea_end _ _ _ _ Hy).
    pose proof (item_next_bounds (item_next m (e_item h)) _ (ea_wf _ _ _ _ Hy)). lia.
Qed.

Lemma last_is_used_replace xs1 h xs2 y :
  last_is_used (xs1 ++ h :: xs2) → e_used h = false → last_is_used (xs1 ++ y :: xs2).
Proof.
  unfold last_is_used. destruct xs2 as [|z xs2]; [rewrite last_snoc; congruence|].
  by rewrite !last_app_cons, !last_cons_cons.
Qed.
