(* ===== verification/QueueAdd.v ===== *)
(** * The oracle queue: adding an item

    [write_item_at] and [add_item_with_id] on the entries of a queue: which
    entry is written where, on every branch, and that the invariant is kept. *)

From S2P Require Import Prelude Pod Api QueueLayout QueueAccount QueueInv QueueScan.

(** The bytes an item needs, its payload included. *)
Definition item_total (disc : list byte) (metas : list CompactAccountMeta) (args : list byte) : Z :=
  96 + zlen disc + zlen metas * 33 + zlen args.

(** What the code assumes of the arguments of [add_item_with_id]: they are
    values of their Rust types, and the discriminator is shorter than 64 KiB
    ([request_randomness] admits 8 bytes). *)
Record add_args (base : QueueItem) (disc : list byte) (metas : list CompactAccountMeta)
    (idf : Z → list byte) : Prop := {
  aa_base : pod_wf base;
  aa_disc : zlen disc < 2 ^ 16;
  aa_metas : Forall pod_wf metas;
  aa_id p : zlen (idf p) = 32;
}.

Definition fits_limits (metas : list CompactAccountMeta) (args : list byte) : Prop :=
  zlen metas ≤ 25 ∧ zlen args ≤ 512.

(** The entry [add_item_with_id] stores at [pos]. *)
Definition new_entry (pos : Z) (base : QueueItem) (disc : list byte)
    (metas : list CompactAccountMeta) (args : list byte) (idf : Z → list byte) : entry :=
  mkEntry
    (placed_item (set_id base (idf (as_u32 pos))) (pos + 96) (pos + 96 + zlen disc)
       (pos + 96 + zlen disc + zlen metas * 33) disc metas args)
    (disc ++ cast_to_bytes metas ++ args).

(** Account data of the same size, with the same index, pause flag and padding. *)
Record same_frame (acc acc' : list byte) : Prop := {
  sf_len : zlen acc' = zlen acc;
  sf_index : queue_index (header acc') = queue_index (header acc);
  sf_paused : paused (header acc') = paused (header acc);
  sf_padding : queue_padding (header acc') = queue_padding (header acc);
}.

#[global] Instance same_frame_refl : Reflexive same_frame.
Proof. by split. Qed.

#[global] Instance same_frame_trans : Transitive same_frame.
Proof. intros x y z [] []. split; congruence. Qed.

Lemma same_frame_cursor acc acc' c :
  header_update acc acc' (with_cursor (header acc) c) → same_frame acc acc'.
Proof. intros [Hh Hl _]. split; [done|..]; by rewrite Hh. Qed.

Lemma same_frame_count acc acc' n :
  header_update acc acc' (with_count (header acc) n) → same_frame acc acc'.
Proof. intros [Hh Hl _]. split; [done|..]; by rewrite Hh. Qed.

Lemma same_frame_splice acc p k :
  12 ≤ p → p + zlen k ≤ zlen acc → same_frame acc (splice acc p k).
Proof. intros. split; [apply zlen_splice; lia|..]; by rewrite header_splice. Qed.

(** ** The layout check *)

Lemma item_layout_Ok disc metas args :
  zlen disc < 2 ^ 16 → fits_limits metas args →
  item_layout disc metas args =
    Ok (mkLayout (item_total disc metas args) (align_up (item_total disc metas args))).
Proof.
  intros Hd [Hm Ha]. unfold item_layout.
  pose proof (zlen_nonneg disc). pose proof (zlen_nonneg metas). pose proof (zlen_nonneg args).
  destruct (Z.ltb_spec MAX_CALLBACK_ACCOUNTS (zlen metas)) as [?|_]; [unfold MAX_CALLBACK_ACCOUNTS in *; lia|].
  destruct (Z.ltb_spec 512 (zlen args)); [lia|]. cbn [orb].
  rewrite size_of_QueueItem, size_of_CompactAccountMeta.
  unfold saturating_add. rewrite !Z.min_l by lia. done.
Qed.

Lemma item_layout_Err disc metas args :
  ¬ fits_limits metas args → item_layout disc metas args = Err (vrf_error ArgumentSizeTooLarge).
Proof.
  intros Hn. unfold item_layout. unfold fits_limits, MAX_CALLBACK_ACCOUNTS in *.
  destruct (Z.ltb_spec 25 (zlen metas)); [done|]. destruct (Z.ltb_spec 512 (zlen args)); [done|].
  lia.
Qed.

(** ** Writing one item *)

Section Write.
Context {base : QueueItem} {disc : list byte} {metas : list CompactAccountMeta}
  {args : list byte} {idf : Z → list byte}.
Context (Hargs : add_args base disc metas idf) (Hlim : fits_limits metas args).
Implicit Types (acc : list byte) (pos : Z).

Let x pos := new_entry pos base disc metas args idf.
Let x_bytes pos : list byte := bytes_of (e_item (x pos)) ++ e_payload (x pos).

Lemma new_entry_lens pos :
  callback_discriminator_len (e_item (x pos)) = zlen disc ∧
  metas_len (e_item (x pos)) = zlen metas ∧ args_len (e_item (x pos)) = zlen args.
Proof.
  destruct Hlim. pose proof (zlen_nonneg disc). pose proof (zlen_nonneg metas).
  pose proof (zlen_nonneg args). pose proof (aa_disc _ _ _ _ Hargs).
  simpl. rewrite !as_u16_small by fits_lia. done.
Qed.

Lemma new_entry_end pos : entry_end pos (e_item (x pos)) = pos + item_total disc metas args.
Proof.
  destruct (new_entry_lens pos) as (Hd & Hm & Ha).
  unfold entry_end, payload_len, item_total. rewrite Hd, Hm, Ha. lia.
Qed.

Lemma new_entry_next pos :
  pos mod 8 = 0 →
  item_next pos (e_item (x pos)) = pos + align_up (item_total disc metas args).
Proof.
  intros Hpos. rewrite item_next_eq, new_entry_end, !align_up_spec.
  pose proof (Z.div_mod pos 8). replace (pos + item_total disc metas args + 7)
    with (item_total disc metas args + 7 + pos / 8 * 8) by lia.
  rewrite Z.div_add by lia. lia.
Qed.

Lemma new_entry_wf pos : pod_wf (e_item (x pos)).
Proof.
  pose proof (aa_base _ _ _ _ Hargs) as Hb. rewrite QueueItem_wf_iff in *.
  pose proof (aa_id _ _ _ _ Hargs (as_u32 pos)). simpl. destruct_and!.
  repeat split; try done; try (apply wrap_fits; lia); try (by apply wrap_fits); fits_lia.
Qed.

Lemma zlen_payload pos : zlen (e_payload (x pos)) = item_total disc metas args - 96.
Proof.
  simpl. rewrite !zlen_app, zlen_cast_to_bytes by apply Hargs.
  rewrite size_of_CompactAccountMeta. unfold item_total. lia.
Qed.

Lemma zlen_x_bytes pos : zlen (x_bytes pos) = item_total disc metas args.
Proof.
  unfold x_bytes. rewrite zlen_app, zlen_payload, zlen_bytes_of by apply new_entry_wf.
  rewrite size_of_QueueItem. lia.
Qed.

Lemma item_total_bounds : 96 ≤ item_total disc metas args < 2 ^ 17.
Proof.
  unfold item_total. destruct Hlim. pose proof (zlen_nonneg disc).
  pose proof (zlen_nonneg metas). pose proof (zlen_nonneg args).
  pose proof (aa_disc _ _ _ _ Hargs). lia.
Qed.

(** The four copies are one write of the whole entry. *)
Lemma write_item_at_Ok acc pos :
  0 ≤ pos → pos + item_total disc metas args ≤ zlen acc →
  write_item_at pos (set_id base (idf (as_u32 pos))) disc metas args acc =
    (splice acc pos (x_bytes pos), Ok (pos + item_total disc metas args)).
Proof.
  intros Hpos Hend. pose proof item_total_bounds as Htot.
  pose proof (zlen_nonneg disc). pose proof (zlen_nonneg metas). pose proof (zlen_nonneg args).
  pose proof (new_entry_wf pos) as Hwf.
  assert (zlen (cast_to_bytes metas) = zlen metas * 33) as Hcast.
  { rewrite zlen_cast_to_bytes by apply Hargs. done. }
  assert (zlen (bytes_of (e_item (x pos))) = 96) as Hitem.
  { rewrite zlen_bytes_of by done. done. }
  unfold write_item_at, mbind, queue_op_bind, q_get, q_lift, q_try, mret, queue_op_ret.
  rewrite size_of_QueueItem, size_of_CompactAccountMeta.
  unfold item_total in *. unfold ensure.
  destruct (Z.leb_spec (pos + 96 + zlen disc + zlen metas * 33 + zlen args) (zlen acc)); [|lia].
  rewrite copy_into_eq by lia. rewrite copy_into_eq by zlen_lia.
  rewrite copy_into_eq by zlen_lia. rewrite copy_into_eq; [|lia|zlen_lia|].
  2: { etrans; [exact Hitem|lia]. }
  f_equal; [|f_equal; lia].
  unfold x_bytes, x, new_entry. cbn [e_item e_payload].
  rewrite splice_splice_right by lia.
  replace (pos + 96 + zlen disc + zlen metas * 33)
    with (pos + 96 + zlen (disc ++ cast_to_bytes metas)) by zlen_lia.
  rewrite splice_splice_right by zlen_lia.
  rewrite <- app_assoc. change (e_item (x pos)) with
    (placed_item (set_id base (idf (as_u32 pos))) (pos + 96) (pos + 96 + zlen disc)
       (pos + 96 + zlen disc + zlen metas * 33) disc metas args) in Hitem.
  replace (pos + 96 + zlen (disc ++ cast_to_bytes metas))
    with (pos + 96 + zlen disc + zlen metas * 33) by zlen_lia.
  rewrite <- Hitem at 1. apply splice_splice_left; [lia|]. rewrite Hitem. zlen_lia.
Qed.

Lemma write_item_at_Err acc pos :
  zlen acc < pos + item_total disc metas args →
  write_item_at pos (set_id base (idf (as_u32 pos))) disc metas args acc =
    (acc, Err AccountDataTooSmall).
Proof.
  intros Hend. unfold write_item_at, mbind, queue_op_bind, q_get, q_lift, ensure.
  rewrite size_of_QueueItem, size_of_CompactAccountMeta. unfold item_total in *.
  by destruct (Z.leb_spec (pos + 96 + zlen disc + zlen metas * 33 + zlen args) (zlen acc)); [lia|].
Qed.

(** After the write the entry is stored at [pos]. *)
Lemma entry_at_written acc lim pos :
  0 ≤ pos → pos + item_total disc metas args ≤ lim → lim ≤ zlen acc → zlen acc ≤ 2 ^ 32 - 8 →
  entry_at (splice acc pos (x_bytes pos)) lim pos (x pos).
Proof.
  intros Hpos Hend Hlen Hmax. pose proof (new_entry_wf pos) as Hwf.
  pose proof (zlen_x_bytes pos) as Hxb. pose proof item_total_bounds as Htot.
  assert (zlen (bytes_of (e_item (x pos))) = 96) as Hitem by by rewrite zlen_bytes_of.
  pose proof (zlen_payload pos) as Hpay.
  destruct (new_entry_lens pos) as (Hd & Hm & Ha).
  pose proof (zlen_nonneg disc). pose proof (zlen_nonneg metas). pose proof (zlen_nonneg args).
  split; [by rewrite new_entry_end|done|..].
  - rewrite slice_splice_within by lia. unfold x_bytes.
    rewrite slice_app_l by lia. rewrite <- Hitem, Z.sub_diag, Z.add_simpl_l. apply slice_all.
  - rewrite new_entry_end, slice_splice_within by lia. unfold x_bytes.
    rewrite slice_app_r by lia. rewrite Hitem.
    replace (pos + 96 - pos - 96) with 0 by lia.
    replace (pos + item_total disc metas args - pos - 96) with (zlen (e_payload (x pos))) by lia.
    apply slice_all.
  - simpl. apply as_u32_small. fits_lia.
  - rewrite Hd. simpl. unfold item_total in *. apply as_u32_small. fits_lia.
  - rewrite Hd, Hm. simpl. unfold item_total in *. apply as_u32_small. fits_lia.
Qed.
End Write.

(** ** Count updates *)

Lemma queue_inv_count_bound acc xs : queue_inv acc xs → zlen (live xs) < 2 ^ 32 - 1.
Proof.
  intros Hinv. pose proof (qi_entries_bound Hinv). pose proof (qi_len _ _ Hinv).
  pose proof (qi_cursor _ _ Hinv). pose proof (align_up_bounds (cursor (header acc))).
  pose proof (length_live xs). unfold zlen in *. lia.
Qed.

Lemma bump_item_count_update acc n :
  12 ≤ zlen acc → item_count (header acc) = n → 0 ≤ n < 2 ^ 32 - 1 →
  header_update acc (bump_item_count acc) (with_count (header acc) (n + 1)).
Proof.
  intros ? Hn ?. unfold bump_item_count. rewrite Hn. unfold saturating_add.
  rewrite Z.min_l by lia. apply set_item_count_update; fits_lia.
Qed.

(** Reassemble the invariant after the bytes, the cursor and the count moved. *)
Lemma queue_inv_intro acc xs c n :
  16 ≤ zlen acc ≤ 2 ^ 32 - 8 → cursor (header acc) = c → item_count (header acc) = n →
  16 ≤ c ≤ zlen acc → chain acc c 16 xs (align_up c) → n = zlen (live xs) → last_is_used xs →
  queue_inv acc xs.
Proof. intros ? <- <- ????. by split. Qed.

(** ** [add_item_with_id] on the entries *)

Section Add.
Context {base : QueueItem} {disc : list byte} {metas : list CompactAccountMeta}
  {args : list byte} {idf : Z → list byte}.
Context (Hargs : add_args base disc metas idf).
Context {acc : list byte} {xs : list entry} (Hinv : queue_inv acc xs).

Let total := item_total disc metas args.
Let x pos := new_entry pos base disc metas args idf.
Let run := add_item_with_id base disc metas args idf acc.

(** Up to the choice of the position. *)
Lemma add_item_scan :
  fits_limits metas args →
  run = match find_hole (align_up total) 0 16 xs with
        | Some span =>
          if span_item_pos span <? cursor (header acc) then
            (write_item_at (span_item_pos span)
               (set_id base (idf (as_u32 (span_item_pos span)))) disc metas args;;
             q_modify bump_item_count;;
             mret (span_logical_index span)) acc
          else append_item base disc metas args idf (mkLayout total (align_up total)) acc
        | None => append_item base disc metas args idf (mkLayout total (align_up total)) acc
        end.
Proof.
  intros Hlim. subst run. unfold add_item_with_id.
  rewrite item_layout_Ok by (done || apply Hargs). fold total.
  unfold mbind at 1, queue_op_bind at 1, q_lift at 1.
  unfold mbind at 1, queue_op_bind at 1, q_get at 1. cbv zeta. cbn [required_span].
  rewrite (inv_scan_for_reusable_span Hinv). cbn [last_used_end_aligned reusable_span].
  unfold mbind at 1, queue_op_bind at 1, q_modify at 1.
  rewrite (inv_shrink_cursor Hinv).
  unfold mbind at 1, queue_op_bind at 1, q_get at 1.
  destruct (find_hole _ _ _ _) as [sp|]; [|done]. by destruct (_ <? _).
Qed.

Lemma add_item_too_large :
  ¬ fits_limits metas args → run = (acc, Err (vrf_error ArgumentSizeTooLarge)).
Proof.
  intros Hn. subst run. unfold add_item_with_id.
  by rewrite item_layout_Err.
Qed.

(** The first hole of exactly the right span is reused in place. *)
Lemma add_item_reuse sp xs1 h xs2 :
  fits_limits metas args → find_hole (align_up total) 0 16 xs = Some sp →
  xs = xs1 ++ h :: xs2 → e_used h = false → span_item_pos sp = walk_end 16 xs1 →
  item_next (span_item_pos sp) (e_item h) - span_item_pos sp = align_up total →
  ∃ acc', run = (acc', Ok (span_logical_index sp)) ∧ same_frame acc acc' ∧
          cursor (header acc') = cursor (header acc) ∧
          queue_inv acc' (xs1 ++ x (span_item_pos sp) :: xs2).
Proof.
  intros Hlim Hf Hxs Hh Hp Hspan. rewrite add_item_scan, Hf by done.
  pose proof Hinv as Hi. rewrite Hxs in Hi. rewrite Hp in *.
  set (p := walk_end 16 xs1) in *.
  pose proof (qi_len _ _ Hi). pose proof (qi_cursor _ _ Hi).
  pose proof (item_total_bounds Hargs Hlim) as Htot. fold total in Htot.
  pose proof (align_up_bounds total).
  destruct (chain_lookup _ _ _ _ _ _ (qi_chain _ _ Hi)) as (_ & Hp8 & Hp16). fold p in Hp8, Hp16.
  pose proof (hole_room _ _ _ _ Hi Hh) as Hroom. fold p in Hroom.
  destruct (Z.ltb_spec p (cursor (header acc))); [|lia].
  unfold mbind at 1, queue_op_bind at 1.
  rewrite (write_item_at_Ok Hargs Hlim) by (unfold total in *; lia). cbn.
  set (k := _ ++ _). set (acc1 := splice acc p k).
  pose proof (zlen_x_bytes Hargs p : zlen k = total) as Hk.
  assert (zlen acc1 = zlen acc) as Hl1 by (apply zlen_splice; lia).
  assert (header acc1 = header acc) as Hh1 by (apply header_splice; lia).
  pose proof (queue_inv_count_bound _ _ Hi). pose proof (zlen_nonneg (live (xs1 ++ h :: xs2))).
  pose proof (bump_item_count_update acc1 (zlen (live (xs1 ++ h :: xs2))) ltac:(lia)) as Hb.
  rewrite Hh1 in Hb. specialize (Hb (qi_count _ _ Hi) ltac:(lia)).
  pose proof (hu_header _ _ _ Hb) as Hh2. pose proof (hu_len _ _ _ Hb).
  eexists. split; [done|]. split_and!.
  - etrans; [apply (same_frame_splice acc p k); lia|].
    eapply (same_frame_count acc1). rewrite Hh1. exact Hb.
  - by rewrite Hh2.
  - eapply queue_inv_intro; rewrite ?Hh2; cbn [cursor item_count with_count]; try done; try lia.
    + eapply chain_header_update; [exact Hb|lia|].
      eapply chain_replace; [apply (qi_chain _ _ Hi)|done|lia|lia|..].
      * apply (entry_at_written Hargs Hlim); unfold total in *; lia.
      * rewrite (new_entry_next Hargs Hlim) by done. fold total. lia.
    + rewrite !live_app, !live_cons, Hh. simpl. zlen_lia.
    + eapply last_is_used_replace; [apply (qi_last _ _ Hi)|done].
Qed.

(** The padding in front of the next item is zeroed and the cursor moved
    behind it; the entries stay where they are. *)
Lemma align_cursor_step c :
  c = align_up (cursor (header acc)) → c ≤ zlen acc →
  ∃ acc1,
    (if negb (c =? cursor (header acc)) then
       q_try (λ acc', copy_into acc' (cursor (header acc)) c (zeros (c - cursor (header acc))));;
       q_modify (set_cursor (as_u32 c))
     else mret ()) acc = (acc1, Ok ()) ∧
    header acc1 = with_cursor (header acc) c ∧ zlen acc1 = zlen acc ∧
    chain acc1 c 16 xs c.
Proof.
  intros Hc Hlen. pose proof (qi_len _ _ Hinv). pose proof (qi_cursor _ _ Hinv).
  pose proof (align_up_bounds (cursor (header acc))) as Hb. rewrite <- Hc in Hb.
  pose proof (qi_chain _ _ Hinv) as Hch. rewrite <- Hc in Hch.
  destruct (Z.eqb_spec c (cursor (header acc))) as [He|Hne]; cbn [negb].
  - exists acc. split_and!; [done| |done|by rewrite <- He in Hch].
    unfold with_cursor. rewrite He. by destruct (header acc).
  - set (k := zeros (c - cursor (header acc))).
    assert (zlen k = c - cursor (header acc)) as Hk by (apply zlen_replicate; lia).
    unfold mbind, queue_op_bind, q_try. rewrite copy_into_eq by lia. unfold q_modify.
    rewrite as_u32_small by fits_lia. set (acc0 := splice _ _ _).
    assert (zlen acc0 = zlen acc) as Hl0 by (apply zlen_splice; lia).
    assert (header acc0 = header acc) as Hh0 by (apply header_splice; lia).
    destruct (set_cursor_update c acc0) as [Hh1 Hl1 Hs1]; [lia|fits_lia|].
    eexists. split; [done|]. split_and!; [by rewrite Hh1, Hh0|lia|].
    eapply chain_ext; [|apply Z.le_min_r|exact Hch]. intros s t ??.
    rewrite Hs1 by lia. destruct (decide (s ≤ t)); [|by rewrite !slice_empty by lia].
    apply slice_splice_before; lia.
Qed.

Lemma append_item_Ok c :
  fits_limits metas args → c = align_up (cursor (header acc)) → c + total ≤ zlen acc →
  ∃ acc', append_item base disc metas args idf (mkLayout total (align_up total)) acc
            = (acc', Ok (zlen (live xs))) ∧
          same_frame acc acc' ∧ cursor (header acc') = c + total ∧
          queue_inv acc' (xs ++ [x c]).
Proof.
  intros Hlim Hc Hlen. pose proof (qi_len _ _ Hinv). pose proof (qi_cursor _ _ Hinv).
  pose proof (item_total_bounds Hargs Hlim) as Htot. fold total in Htot.
  pose proof (align_up_bounds (cursor (header acc))) as Hb. rewrite <- Hc in Hb.
  pose proof (queue_inv_count_bound _ _ Hinv). pose proof (zlen_nonneg (live xs)).
  assert (c mod 8 = 0) as Hc8 by (rewrite Hc; apply align_up_mod).
  destruct (align_cursor_step c Hc ltac:(lia)) as (acc1 & Hstep & Hh1 & Hl1 & Hch1).
  unfold append_item. cbn [total_needed].
   unfold mbind at 1, queue_op_bind at 1, q_get at 1. cbv zeta. rewrite <- Hc.
   unfold mbind at 1, queue_op_bind at 1, q_lift at 1, ensure, saturating_add.
  rewrite Z.min_l by lia. destruct (Z.leb_spec (c + total) (zlen acc)); [|lia].
  unfold mbind at 1, queue_op_bind at 1. rewrite Hstep.
  unfold mbind at 1, queue_op_bind at 1, q_get at 1. rewrite Hh1. cbn [with_cursor cursor].
  unfold mbind at 1, queue_op_bind at 1.
  rewrite (write_item_at_Ok Hargs Hlim) by (unfold total in *; lia). fold total.
  set (k := bytes_of _ ++ _). set (acc2 := splice acc1 c k). set (n := zlen (live xs)).
  pose proof (zlen_x_bytes Hargs c : zlen k = total) as Hk.
  assert (zlen acc2 = zlen acc) as Hl2 by (rewrite <- Hl1; apply zlen_splice; lia).
  assert (header acc2 = with_cursor (header acc) c) as Hh2
    by (rewrite <- Hh1; apply header_splice; lia).
  assert (chain acc2 (c + total) 16 (xs ++ [x c]) (align_up (c + total))) as Hch2.
  { apply chain_app. exists c. split.
    - eapply chain_ext; [|apply Z.le_trans with c; [apply Z.le_min_r|lia]|exact Hch1].
      intros s t ??. destruct (decide (s ≤ t)); [|by rewrite !slice_empty by lia].
      apply slice_splice_before; lia.
    - split; [apply (entry_at_written Hargs Hlim); fold total; lia|].
      cbn [chain]. rewrite item_next_eq, (new_entry_end Hargs Hlim). done. }
  unfold mbind, queue_op_bind, q_modify, q_get, mret, queue_op_ret.
  rewrite as_u32_small by fits_lia.
  destruct (set_cursor_update (c + total) acc2) as [Hh3 Hl3 Hs3]; [lia|fits_lia|].
  rewrite Hh3, Hh2. set (acc3 := set_cursor _ _) in *. rewrite Hh2 in Hh3.
  destruct (bump_item_count_update acc3 n) as [Hh4 Hl4 Hs4]; [lia|rewrite Hh3; apply Hinv|lia|].
  rewrite Hh3 in Hh4. cbn [item_count with_cursor with_count cursor] in *.
  rewrite (qi_count _ _ Hinv). eexists. split; [done|]. split_and!.
  - split; [lia|..]; by rewrite Hh4.
  - by rewrite Hh4.
  - eapply queue_inv_intro; rewrite ?Hh4; cbn [cursor item_count with_count with_cursor]; try done; try lia.
    + eapply chain_ext; [|apply Z.le_min_l|exact Hch2]. intros s t ??.
      rewrite Hs4, Hs3 by lia. done.
    + rewrite live_app. unfold n. by autorewrite with zlen.
    + unfold last_is_used. by rewrite last_snoc.
Qed.

Lemma append_item_Err :
  fits_limits metas args → zlen acc < align_up (cursor (header acc)) + total →
  append_item base disc metas args idf (mkLayout total (align_up total)) acc
    = (acc, Err AccountDataTooSmall).
Proof.
  intros Hlim Hlen. pose proof (qi_len _ _ Hinv). pose proof (qi_cursor _ _ Hinv).
  pose proof (align_up_bounds (cursor (header acc))).
  pose proof (item_total_bounds Hargs Hlim) as Htot. fold total in Htot.
  unfold append_item, mbind, queue_op_bind, q_get, q_lift, ensure, saturating_add.
  cbn [total_needed]. rewrite Z.min_l by lia.
  by destruct (Z.leb_spec (align_up (cursor (header acc)) + total) (zlen acc)); [lia|].
Qed.
End Add.
