(* ===== verification/QueueRemove.v ===== *)
(** * The oracle queue: removing items

    [trim_trailing_holes], [remove_item] and [remove_items_matching] on the
    entries of a queue. *)

From S2P Require Import Prelude Pod Api QueueLayout QueueAccount QueueInv QueueScan QueueAdd.

(** The entry that a removal leaves behind. *)
Definition freed (x : entry) : entry := mkEntry (set_used (e_item x) 0) (e_payload x).

Lemma e_used_freed x : e_used (freed x) = false.
Proof. done. Qed.

Lemma freed_wf x : pod_wf (e_item x) → pod_wf (e_item (freed x)).
Proof. rewrite !QueueItem_wf_iff. simpl. intros. destruct_and!. repeat split; try done; fits_lia. Qed.

Lemma item_next_freed p x : item_next p (e_item (freed x)) = item_next p (e_item x).
Proof. done. Qed.

Lemma live_freed xs1 x xs2 : live (xs1 ++ freed x :: xs2) = live xs1 ++ live xs2.
Proof. by rewrite live_app, live_cons, e_used_freed. Qed.

Lemma walk_end_freed xs1 x xs2 p :
  walk_end p (xs1 ++ freed x :: xs2) = walk_end p (xs1 ++ x :: xs2).
Proof. by rewrite !walk_end_app. Qed.

(** Clearing the flag of a stored entry leaves its payload where it is. *)
Lemma entry_at_freed acc lim p x :
  0 ≤ p → lim ≤ zlen acc → entry_at acc lim p x →
  entry_at (splice acc p (bytes_of (e_item (freed x)))) lim p (freed x).
Proof.
  intros Hp Hl [Hend Hwf Hit Hpay Hd Hm Ha]. pose proof (freed_wf x Hwf) as Hwf'.
  pose proof (item_next_bounds p _ Hwf). pose proof (payload_len_nonneg _ Hwf).
  assert (zlen (bytes_of (e_item (freed x))) = 96) as Hlen by by rewrite zlen_bytes_of.
  split; try done.
  - rewrite <- Hlen. apply slice_splice_same; lia.
  - change (entry_end p (e_item (freed x))) with (entry_end p (e_item x)).
    rewrite slice_splice_after; [done|lia..].
Qed.

(** ** Trimming *)

Section Trim.
Context {acc : list byte} {xs : list entry} (Hw : queue_weak acc xs).

Let c := cursor (header acc).
Let m := walk_end 16 (trim xs).

Lemma trim_end : chain acc m 16 (trim xs) m ∧ m mod 8 = 0 ∧ 16 ≤ m ∧
  ((trim xs = xs ∧ m = align_up c) ∨ m + 96 ≤ c).
Proof.
  pose proof (qw_chain _ _ Hw) as Hc. destruct (trim_prefix xs) as (ys & Hxs & Hys).
  rewrite Hxs in Hc. apply chain_app in Hc as (m' & Hc1 & Hc2).
  pose proof (chain_walk_end _ _ _ _ _ Hc1) as Hm'. fold m in Hm'. subst m'.
  pose proof (chain_end _ _ _ _ _ Hc1). pose proof (zlen_nonneg (trim xs)).
  split_and!; [|by eapply chain_aligned; [|exact Hc1]|lia|].
  - eapply chain_ext; [done|apply Z.le_min_r|done].
  - destruct ys as [|y ys].
    + left. rewrite app_nil_r in Hxs. done.
    + right. destruct Hc2 as [Hy _]. pose proof (ea_end _ _ _ _ Hy).
      pose proof (item_next_bounds m _ (ea_wf _ _ _ _ Hy)). fold c in H1. lia.
Qed.

Lemma shrink_to_trim :
  queue_inv (shrink_cursor m acc) (trim xs) ∧ same_frame acc (shrink_cursor m acc) ∧
  (∀ s e, 12 ≤ s → slice (shrink_cursor m acc) s e = slice acc s e).
Proof.
  pose proof (qw_len _ _ Hw). pose proof (qw_cursor _ _ Hw) as Hcur. fold c in Hcur.
  pose proof (align_up_bounds c).
  pose proof (align_up_le_aligned c (2 ^ 32 - 8) ltac:(lia) eq_refl).
  destruct trim_end as (Hm & Hm8 & Hm16 & Hcase). unfold shrink_cursor. fold c.
  rewrite as_u32_small by (unfold fits; destruct Hcase as [[]|]; lia).
  destruct Hcase as [[Ht He]|Hlt].
  - destruct (Z.ltb_spec m c); [lia|]. split_and!; [|done|done].
    rewrite Ht. destruct Hw. split; try done. rewrite <- Ht. apply trim_last_is_used.
  - destruct (Z.ltb_spec m c); [|lia].
    destruct (set_cursor_update m acc) as [Hh Hl Hs]; [lia|fits_lia|].
    split_and!; [|by eapply same_frame_cursor|done].
    eapply queue_inv_intro; rewrite ?Hh; cbn [cursor item_count with_cursor]; try done; try lia.
    + rewrite (align_up_aligned m) by done.
      eapply chain_ext; [|apply Z.le_min_l|exact Hm]. intros s t ??. apply Hs. lia.
    + rewrite live_trim. apply (qw_count _ _ Hw).
    + apply trim_last_is_used.
Qed.

Lemma trim_trailing_holes_eq : trim_trailing_holes acc = shrink_cursor m acc.
Proof.
  unfold trim_trailing_holes. rewrite (qw_scan Hw), items_start_eq.
  by rewrite fold_visit_last_used_start.
Qed.
End Trim.

(** ** [remove_item] *)

Lemma drop_item_count_update acc n :
  12 ≤ zlen acc → item_count (header acc) = n → 1 ≤ n < 2 ^ 32 →
  header_update acc (drop_item_count acc) (with_count (header acc) (n - 1)).
Proof.
  intros ? Hn ?. unfold drop_item_count. rewrite Hn. unfold saturating_sub.
  rewrite Z.max_l by lia. apply set_item_count_update; fits_lia.
Qed.

Lemma with_count_drop_wf h :
  pod_wf h → pod_wf (with_count h (saturating_sub (item_count h) 1)).
Proof.
  rewrite !Queue_wf_iff. cbn [with_count item_count cursor queue_index paused queue_padding].
  unfold saturating_sub. intros. destruct_and!. split_and!; try done; fits_lia.
Qed.

Lemma drop_item_count_splice acc p k :
  12 ≤ p → p + zlen k ≤ zlen acc →
  drop_item_count (splice acc p k) = splice (drop_item_count acc) p k.
Proof.
  intros. pose proof (zlen_nonneg k). pose proof (header_wf acc ltac:(lia)) as Hwf.
  unfold drop_item_count, set_item_count. rewrite header_splice by lia.
  unfold set_header. symmetry. apply splice_splice_comm; [lia| |lia].
  rewrite zlen_bytes_of, size_of_Queue; [lia|].
  by apply with_count_drop_wf.
Qed.

Section Free.
Context {acc : list byte} {xs1 : list entry} {x : entry} {xs2 : list entry}.
Context (Hw : queue_weak acc (xs1 ++ x :: xs2)) (Hu : e_used x = true).

Let p := walk_end 16 xs1.
Let k := bytes_of (e_item (freed x)).

Lemma free_bounds :
  entry_at acc (cursor (header acc)) p x ∧ zlen k = 96 ∧ 16 ≤ p ∧ p mod 8 = 0 ∧
  p + 96 ≤ entry_end p (e_item x) ≤ item_next p (e_item x) ∧
  entry_end p (e_item x) ≤ cursor (header acc) ≤ zlen acc ∧
  16 ≤ zlen acc ≤ 2 ^ 32 - 8.
Proof.
  destruct (chain_lookup _ _ _ _ _ _ (qw_chain _ _ Hw)) as (Hat & Hp8 & Hp16).
  fold p in Hat, Hp8, Hp16. pose proof (qw_cursor _ _ Hw). pose proof (ea_end _ _ _ _ Hat).
  pose proof (item_next_bounds p _ (ea_wf _ _ _ _ Hat)). pose proof (qw_len _ _ Hw).
  split_and!; try done; try lia.
  unfold k. rewrite zlen_bytes_of; [done|]. apply freed_wf, Hat.
Qed.

(** Clearing the flag of a used entry and counting it out. *)
Lemma free_entry :
  let acc' := splice (drop_item_count acc) p k in
  queue_weak acc' (xs1 ++ freed x :: xs2) ∧ same_frame acc acc' ∧
  cursor (header acc') = cursor (header acc) ∧
  entry_at acc' (cursor (header acc)) p (freed x).
Proof.
  destruct free_bounds as (Hat & Hk & Hp16 & Hp8 & Hn & Hend & Hl).
  pose proof (qw_entries_bound Hw) as Heb. pose proof (align_up_bounds (cursor (header acc))).
  pose proof (length_live (xs1 ++ x :: xs2)) as Hll. pose proof (qw_count _ _ Hw) as Hc.
  assert (zlen (live (xs1 ++ x :: xs2)) ≤ zlen (xs1 ++ x :: xs2)) as Hll' by (unfold zlen; lia).
  rewrite live_app, live_cons, Hu in Hc, Hll'. autorewrite with zlen in Hc, Hll', Heb.
  pose proof (zlen_nonneg (live xs1)). pose proof (zlen_nonneg (live xs2)).
  destruct (drop_item_count_update acc _ ltac:(lia) Hc ltac:(lia)) as [Hh1 Hl1 Hs1].
  set (acc1 := drop_item_count acc) in *. intros acc2.
  assert (header acc2 = header acc1) as Hh2 by (apply header_splice; lia).
  assert (zlen acc2 = zlen acc) as Hl2 by (rewrite <- Hl1; apply zlen_splice; lia).
  assert (entry_at acc1 (cursor (header acc)) p x) as Hat1
    by (eapply entry_at_ext; [|by apply Hat|exact Hat]; intros; apply Hs1; lia).
  pose proof (entry_at_freed acc1 (cursor (header acc)) p x ltac:(lia) ltac:(lia) Hat1) as Hat2.
  fold k acc2 in Hat2. split_and!; [|split|..]; rewrite ?Hh2, ?Hh1; try done.
  split; rewrite ?Hh2, ?Hh1; cbn [with_count cursor item_count]; [lia|lia| |].
  - eapply (chain_replace acc1 _ _ p k xs1 x xs2); [|done|lia|lia|exact Hat2|done].
    eapply chain_ext; [|apply Z.le_min_l|apply (qw_chain _ _ Hw)]. intros; apply Hs1; lia.
  - rewrite live_freed. zlen_lia.
Qed.
End Free.

(** Behind its header [acc'] still has the bytes of the entries [xs], whatever
    was trimmed. *)
Definition leaves (acc' : list byte) (xs : list entry) : Prop :=
  ∃ acc, queue_weak acc xs ∧ ∀ s e, 12 ≤ s → slice acc' s e = slice acc s e.

Section Remove.
Context {acc : list byte} {xs : list entry} (Hinv : queue_inv acc xs).

Lemma remove_item_Err i :
  0 ≤ i → live xs !! Z.to_nat i = None →
  remove_item i acc = (acc, Err (vrf_error InvalidQueueIndex)).
Proof.
  intros Hi Hn. unfold remove_item, mbind, queue_op_bind, q_get, q_lift.
  rewrite (inv_scan_index Hinv) by done.
  rewrite <- (live_at_live 16 xs), list_lookup_fmap in Hn.
  by destruct (live_at 16 xs !! _).
Qed.

(** The item is marked free in place and the trailing holes go; its payload
    stays readable where it was. *)
Lemma remove_item_Ok i x :
  0 ≤ i → live xs !! Z.to_nat i = Some x →
  ∃ acc' xs1 xs2,
    xs = xs1 ++ x :: xs2 ∧ length (live xs1) = Z.to_nat i ∧ e_used x = true ∧
    remove_item i acc = (acc', Ok (e_item (freed x))) ∧
    queue_inv acc' (trim (xs1 ++ freed x :: xs2)) ∧ same_frame acc acc' ∧
    entry_at acc' (zlen acc) (walk_end 16 xs1) (freed x) ∧
    leaves acc' (xs1 ++ freed x :: xs2).
Proof.
  intros Hi Hx. pose proof (inv_scan_index Hinv i Hi) as Hscan.
  rewrite <- (live_at_live 16 xs), list_lookup_fmap in Hx.
  destruct (live_at 16 xs !! Z.to_nat i) as [[q y]|] eqn:Hl; [|done].
  cbn in Hx. injection Hx as ->.
  apply live_at_lookup in Hl as (xs1 & xs2 & Hxs & -> & Hn & Hu).
  pose proof (queue_inv_weak _ _ Hinv) as Hv. rewrite Hxs in Hv.
  destruct (free_bounds Hv) as (Hat & Hk & Hp16 & Hp8 & Hnx & Hend & Hl).
  destruct (free_entry Hv Hu) as (Hw & Hf & Hcur & Hat2).
  pose proof (sf_len _ _ Hf) as Hl2.
  set (p := walk_end 16 xs1) in *. set (k := bytes_of (e_item (freed x))) in *.
  set (acc2 := splice _ p k) in *.
  destruct (shrink_to_trim Hw) as (Hi' & Hf' & Hs). rewrite <- (trim_trailing_holes_eq Hw) in *.
  exists (trim_trailing_holes acc2), xs1, xs2. split_and!; try done.
  - unfold remove_item, mbind, queue_op_bind, q_get, q_lift, q_modify, q_try.
    rewrite Hscan. cbn -[drop_item_count trim_trailing_holes].
    rewrite size_of_QueueItem. change (bytes_of (set_used (e_item x) 0)) with k.
    rewrite copy_into_eq; [done|lia| |lia].
    assert (zlen (drop_item_count acc) = zlen acc) as ->; [|lia].
    unfold drop_item_count, set_item_count. apply zlen_set_header; [|lia].
    apply with_count_drop_wf, header_wf. lia.
  - by etrans.
  - eapply entry_at_ext; [|apply Z.le_trans with (cursor (header acc)); [apply Hat2|lia]|exact Hat2].
    intros; apply Hs; lia.
  - by exists acc2.
Qed.
End Remove.

(** ** [remove_items_matching] *)

Section RemoveMatching.
Context {S : Type} (pred : QueueItem → bool) (on_removed : S → QueueItem → S).

Definition matched (x : entry) : bool := e_used x && pred (e_item x).
Definition purge (x : entry) : entry := if matched x then freed x else x.

(** The items handed to [on_removed], in order. *)
Definition purged (xs : list entry) : list QueueItem :=
  (λ x, e_item (freed x)) <$> filter matched xs.

Lemma item_next_purge p x : item_next p (e_item (purge x)) = item_next p (e_item x).
Proof. unfold purge. by destruct (matched x). Qed.

Lemma live_purge xs : live (purge <$> xs) = filter (λ x, negb (pred (e_item x))) (live xs).
Proof.
  induction xs as [|x xs IH]; [done|]. rewrite fmap_cons, !live_cons, IH.
  unfold purge, matched. destruct (e_used x) eqn:Hu; cbn [andb]; [|by rewrite Hu].
  rewrite filter_cons. by destruct (pred (e_item x)); [rewrite e_used_freed|rewrite Hu].
Qed.

Lemma purged_cons x xs :
  purged (x :: xs) = if matched x then e_item (freed x) :: purged xs else purged xs.
Proof. unfold purged. rewrite filter_cons. by destruct (matched x). Qed.

Lemma purged_live xs :
  purged xs = (λ x, e_item (freed x)) <$> filter (λ x, pred (e_item x)) (live xs).
Proof.
  unfold purged, live. f_equal. rewrite list_filter_filter.
  apply list_filter_iff. intros x. unfold matched. destruct (e_used x), (pred (e_item x)); naive_solver.
Qed.

Lemma remove_loop_chain fuel acc xs1 ys s last :
  queue_weak acc (xs1 ++ ys) → (length ys < fuel)%nat →
  ∃ acc',
    remove_loop fuel pred on_removed (cursor (header acc)) acc s last (walk_end 16 xs1)
      = (acc', foldl on_removed s (purged ys),
         match trim (purge <$> ys) with [] => last | t => walk_end (walk_end 16 xs1) t end) ∧
    queue_weak acc' (xs1 ++ (purge <$> ys)) ∧ same_frame acc acc' ∧
    cursor (header acc') = cursor (header acc).
Proof.
  revert fuel acc xs1 s last.
  induction ys as [|y ys IH]; intros fuel acc xs1 s last Hw Hfuel;
    (destruct fuel as [|fuel]; [simpl in Hfuel; lia|]);
    cbn [remove_loop]; cbv zeta; rewrite size_of_QueueItem.
  - rewrite app_nil_r in Hw. pose proof (chain_walk_end _ _ _ _ _ (qw_chain _ _ Hw)) as He.
    pose proof (align_up_bounds (cursor (header acc))).
    destruct (Z.leb_spec (walk_end 16 xs1 + 96) (cursor (header acc))); [lia|].
    exists acc. by rewrite app_nil_r.
  - destruct (free_bounds Hw) as (Hat & Hk & Hp16 & Hp8 & Hnx & Hend & Hl).
    destruct (Z.leb_spec (walk_end 16 xs1 + 96) (cursor (header acc))); [|lia].
    rewrite (read_item_at _ _ _ _ Hat). fold (e_used y).
    assert (∀ acc1 z s' l', queue_weak acc1 (xs1 ++ z :: ys) →
      item_next (walk_end 16 xs1) (e_item z) = item_next (walk_end 16 xs1) (e_item y) →
      cursor (header acc1) = cursor (header acc) →
      ∃ acc', remove_loop fuel pred on_removed (cursor (header acc)) acc1 s' l'
                (item_next (walk_end 16 xs1) (e_item y))
        = (acc', foldl on_removed s' (purged ys),
           match trim (purge <$> ys) with
           | [] => l' | t => walk_end (item_next (walk_end 16 xs1) (e_item y)) t end) ∧
        queue_weak acc' (xs1 ++ z :: (purge <$> ys)) ∧ same_frame acc1 acc' ∧
        cursor (header acc') = cursor (header acc)) as Hstep.
    { intros acc1 z s' l' Hw1 Hz Hc1. replace (xs1 ++ z :: ys) with ((xs1 ++ [z]) ++ ys) in Hw1 by by rewrite <- app_assoc.
      destruct (IH fuel acc1 (xs1 ++ [z]) s' l' Hw1 ltac:(simpl in Hfuel; lia))
        as (acc' & Hr & Hw' & Hf & Hc').
      rewrite walk_end_app in Hr. cbn [walk_end] in Hr. rewrite Hz, Hc1 in Hr.
      rewrite <- app_assoc in Hw'. exists acc'. rewrite Hc', Hc1. by split_and!. }
    rewrite fmap_cons, purged_cons. cbn [trim].
    assert (purge y = if matched y then freed y else y) as Hpy by done. rewrite !Hpy. clear Hpy.
    destruct (matched y) eqn:Hm; unfold matched in Hm;
      destruct (e_used y) eqn:Hu; cbn [andb] in Hm; try discriminate Hm; try rewrite Hm.
    + destruct (free_entry Hw Hu) as (Hw2 & Hf2 & Hc2 & _).
      rewrite drop_item_count_splice by (change (bytes_of (set_used (e_item y) 0)) with (bytes_of (e_item (freed y))); lia).
      destruct (Hstep _ (freed y) (on_removed s (e_item (freed y))) last Hw2 eq_refl Hc2)
        as (acc' & Hr & Hw' & Hf' & Hc').
      exists acc'. split_and!; [|done|by etrans|done].
      rewrite e_used_freed. etrans; [exact Hr|]. by destruct (trim (purge <$> ys)).
    + destruct (Hstep acc y s (item_next (walk_end 16 xs1) (e_item y)) Hw eq_refl eq_refl)
        as (acc' & Hr & Hw' & Hf' & Hc').
      exists acc'. split_and!; try done.
      etrans; [exact Hr|]. by destruct (trim (purge <$> ys)).
    + destruct (Hstep acc y s last Hw eq_refl eq_refl) as (acc' & Hr & Hw' & Hf' & Hc').
      exists acc'. split_and!; try done.
      etrans; [exact Hr|]. by destruct (trim (purge <$> ys)).
Qed.

Lemma remove_items_matching_Ok acc xs s :
  queue_inv acc xs →
  ∃ acc', remove_items_matching pred on_removed acc s = (acc', foldl on_removed s (purged xs)) ∧
          queue_inv acc' (trim (purge <$> xs)) ∧ same_frame acc acc' ∧ leaves acc' (purge <$> xs).
Proof.
  intros Hinv. pose proof (queue_inv_weak _ _ Hinv) as Hw.
  pose proof (qi_entries_bound Hinv). pose proof (qi_len _ _ Hinv). pose proof (qi_cursor _ _ Hinv).
  pose proof (align_up_bounds (cursor (header acc))).
  destruct (remove_loop_chain (Z.to_nat (zlen acc)) acc [] xs s 16 Hw) as (acc1 & Hr & Hw1 & Hf & Hc).
  { unfold zlen in *. lia. }
  destruct (shrink_to_trim Hw1) as (Hi & Hf' & Hs).
  unfold remove_items_matching, scan_end. rewrite Z.min_r, items_start_eq by lia.
  cbn [walk_end app] in Hr, Hi, Hf', Hs. rewrite Hr. cbv zeta beta iota.
  eexists. split; [reflexivity|]. split; [|split; [etrans; [exact Hf|]|exists acc1; split; [done|]]].
  all: destruct (trim (purge <$> xs)) eqn:Ht; done.
Qed.
End RemoveMatching.
