(* ===== verification/QueueSpec.v ===== *)
(** * The oracle queue: specification

    What the queue promises to the handlers that use it: it is a list of
    randomness requests.  [represents acc rs] relates the bytes of a queue
    account to the requests stored in it; the theorems say that loading,
    adding, finding, removing and purging act on the bytes as the list
    operations act on the requests, on every branch. *)

From S2P Require Import Prelude Pod Api QueueLayout QueueAccount QueueInv QueueScan QueueAdd QueueRemove.

(** ** Requests *)

(** One randomness request. Of its place in the account it keeps only the
    position of its item, which its id depends on. *)
Record request : Type := mkRequest {
  r_slot : Z;
  r_id : list byte;
  r_program : list byte;
  r_disc : list byte;
  r_metas : list CompactAccountMeta;
  r_args : list byte;
  r_priority : Z;
  r_identity_mode : Z;
  r_identity_bump : Z;
  r_created_at : Z;
  r_pos : Z;
}.

#[global] Instance request_eq_dec : EqDecision request.
Proof. solve_decision. Defined.

Definition request_of (x : entry) : request :=
  let it := e_item x in
  let d := callback_discriminator_len it in
  let m := d + metas_len it * 33 in
  mkRequest (slot it) (item_id it) (callback_program_id it)
    (slice (e_payload x) 0 d)
    (cast_from_bytes (Z.to_nat (metas_len it)) (slice (e_payload x) d m))
    (slice (e_payload x) m (m + args_len it))
    (priority_request it) (identity_mode it) (identity_bump it) (created_at it)
    (callback_discriminator_offset it - 96).

(** The request that [add_item_with_id] stores at [pos] under the id [i]. *)
Definition new_request (base : QueueItem) (pos : Z) (i disc : list byte) (metas : list CompactAccountMeta)
    (args : list byte) : request :=
  mkRequest (slot base) i (callback_program_id base) disc metas args
    (priority_request base) (identity_mode base) (identity_bump base) (created_at base) pos.

(** The bytes [acc] of a queue account hold the requests [rs], in this order. *)
Definition represents (acc : list byte) (rs : list request) : Prop :=
  ∃ xs, queue_inv acc xs ∧ rs = request_of <$> live xs.

(** Reading the item [it] from [acc] gives the request [r]. *)
Record item_reads (acc : list byte) (it : QueueItem) (r : request) : Prop := {
  ir_slot : slot it = r_slot r;
  ir_id : item_id it = r_id r;
  ir_program : callback_program_id it = r_program r;
  ir_priority : priority_request it = r_priority r;
  ir_identity_mode : identity_mode it = r_identity_mode r;
  ir_identity_bump : identity_bump it = r_identity_bump r;
  ir_created_at : created_at it = r_created_at r;
  ir_pos : callback_discriminator_offset it - 96 = r_pos r;
  ir_disc : callback_discriminator it acc = Ok (r_disc r);
  ir_metas : account_metas it acc = Ok (r_metas r);
  ir_args : callback_args it acc = Ok (r_args r);
}.

Lemma request_of_freed x : request_of (freed x) = request_of x.
Proof. done. Qed.

(** The offsets an item carries lead to its own payload. *)
Lemma entry_at_reads acc lim p x :
  0 ≤ p → lim ≤ zlen acc → entry_at acc lim p x → item_reads acc (e_item x) (request_of x).
Proof.
  intros Hp Hl [Hend Hwf Hit Hpay Hd Hm Ha]. pose proof Hwf as Hw. rewrite QueueItem_wf_iff in Hw.
  destruct_and!. unfold entry_end, payload_len in *.
  assert (∀ s e, 0 ≤ s ≤ e → e ≤ payload_len (e_item x) →
    index_range (E:=ProgramError) acc (p + 96 + s) (p + 96 + e) = Ok (slice (e_payload x) s e)) as Hr.
  { unfold payload_len. intros s e ??. rewrite index_range_eq by fits_lia.
    rewrite <- Hpay, slice_slice by fits_lia. f_equal. }
  unfold payload_len in Hr. split; try done; cbn [r_disc r_metas r_args request_of].
  - unfold callback_discriminator. rewrite Hd. etrans; [|apply Hr; fits_lia]. f_equal; lia.
  - unfold account_metas. rewrite size_of_CompactAccountMeta, Hm.
    by rewrite <- (Z.add_assoc (p + 96)), Hr by fits_lia.
  - unfold callback_args. rewrite Ha. etrans; [|apply Hr; fits_lia]. f_equal; lia.
Qed.

Lemma e_used_new pos base disc metas args idf :
  e_used (new_entry pos base disc metas args idf) = true.
Proof. done. Qed.

Lemma request_of_new pos base disc metas args idf :
  add_args base disc metas idf → fits_limits metas args → 0 ≤ pos < 2 ^ 32 - 96 →
  request_of (new_entry pos base disc metas args idf)
    = new_request base pos (idf (as_u32 pos)) disc metas args.
Proof.
  intros Hargs Hlim Hpos. destruct (new_entry_lens Hargs Hlim pos) as (Hd & Hm & Ha).
  pose proof (zlen_nonneg disc). pose proof (zlen_nonneg metas). pose proof (zlen_nonneg args).
  unfold request_of. rewrite Hd, Hm, Ha. cbn [e_item e_payload new_entry]. unfold new_request.
  pose proof (zlen_cast_to_bytes metas (aa_metas _ _ _ _ Hargs)) as Hc.
  rewrite size_of_CompactAccountMeta in Hc. f_equal.
  - rewrite slice_app_l by lia. apply slice_all.
  - rewrite slice_app_r, slice_app_l, <- Hc by lia.
    rewrite Z.sub_diag, Z.add_simpl_l, slice_all.
    unfold zlen. rewrite Nat2Z.id. apply cast_from_to_bytes, Hargs.
  - rewrite !slice_app_r by lia. rewrite Hc.
    replace (zlen disc + zlen metas * 33 - zlen disc - zlen metas * 33) with 0 by lia.
    replace (_ - _ - _) with (zlen args) by lia. apply slice_all.
  - cbn. rewrite as_u32_small by fits_lia. lia.
Qed.

(** ** What the operations do to the requests *)

Section Represents.
Context {acc : list byte} {rs : list request} (Hrep : represents acc rs).

Lemma represents_len : len acc = zlen rs.
Proof.
  destruct Hrep as (xs & Hinv & ->). unfold len. rewrite (qi_count _ _ Hinv).
  unfold zlen. by rewrite length_fmap.
Qed.

Lemma represents_is_empty : is_empty acc = true ↔ rs = [].
Proof.
  unfold is_empty. fold (len acc). rewrite represents_len, Z.eqb_eq.
  destruct rs; [done|]. rewrite zlen_cons. pose proof (zlen_nonneg l). split; [lia|done].
Qed.

Lemma represents_bounds : 16 ≤ zlen acc ≤ 2 ^ 32 - 8 ∧ 16 + 96 * zlen rs ≤ zlen acc + 7.
Proof.
  destruct Hrep as (xs & Hinv & ->). pose proof (qi_len _ _ Hinv). pose proof (qi_cursor _ _ Hinv).
  pose proof (qi_entries_bound Hinv). pose proof (align_up_bounds (cursor (header acc))).
  pose proof (length_live xs). split; [done|]. unfold zlen in *. rewrite length_fmap. lia.
Qed.

Lemma live_entry_reads xs x :
  queue_inv acc xs → x ∈ live xs → item_reads acc (e_item x) (request_of x) ∧ used (e_item x) = 1.
Proof.
  intros Hinv Hx. rewrite <- (live_at_live 16 xs) in Hx.
  apply list_elem_of_fmap in Hx as ([p y] & -> & [n Hn]%list_elem_of_lookup). cbn [snd].
  apply live_at_lookup in Hn as (xs1 & xs2 & Hxs & -> & _ & Hu).
  pose proof Hinv as Hv. rewrite Hxs in Hv.
  destruct (chain_lookup _ _ _ _ _ _ (qi_chain _ _ Hv)) as (Hat & _ & Hp).
  pose proof (qi_cursor _ _ Hinv).
  split; [eapply entry_at_reads; [| |exact Hat]; lia|]. by apply Z.eqb_eq.
Qed.

Lemma represents_find i :
  match find_item_by_id i acc, list_find (λ r, r_id r = i) rs with
  | Some (n, it), Some (m, r) => n = Z.of_nat m ∧ item_reads acc it r ∧ used it = 1
  | None, None => True
  | _, _ => False
  end.
Proof.
  destruct Hrep as (xs & Hinv & ->). rewrite (inv_find_item_by_id Hinv), list_find_fmap.
  change ((λ r, r_id r = i) ∘ request_of) with (λ x, item_id (e_item x) = i).
  destruct (list_find _ (live xs)) as [[n x]|] eqn:Hf; [|done]. cbn.
  split; [done|]. apply (live_entry_reads xs); [done|].
  apply list_find_Some in Hf as (Hl & _). by eapply list_elem_of_lookup_2.
Qed.

Lemma represents_get i :
  0 ≤ i →
  match get_item_by_index i acc, rs !! Z.to_nat i with
  | Some it, Some r => item_reads acc it r ∧ used it = 1
  | None, None => True
  | _, _ => False
  end.
Proof.
  intros Hi. destruct Hrep as (xs & Hinv & ->).
  rewrite (inv_get_item_by_index Hinv) by done. rewrite list_lookup_fmap.
  destruct (live xs !! Z.to_nat i) as [x|] eqn:Hl; [|done]. cbn.
  apply (live_entry_reads xs); [done|]. by eapply list_elem_of_lookup_2.
Qed.

Lemma represents_iter :
  Forall2 (λ it r, item_reads acc it r ∧ used it = 1) (iter_items acc) rs.
Proof.
  destruct Hrep as (xs & Hinv & ->). rewrite (inv_iter_items Hinv).
  rewrite Forall2_fmap. apply Forall_Forall2_diag, Forall_forall. intros x Hx.
  by apply (live_entry_reads xs).
Qed.

(** The items of different requests are at different places. *)
Lemma represents_positions : NoDup (r_pos <$> rs) ∧ Forall (λ r, fits 32 (r_pos r)) rs.
Proof.
  destruct Hrep as (xs & Hinv & ->). pose proof (qi_chain _ _ Hinv) as Hc. clear Hinv.
  assert (∀ p e lim, 16 ≤ p → chain acc lim p xs e →
    NoDup (r_pos <$> (request_of <$> live xs)) ∧
    Forall (λ r, p ≤ r_pos r ∧ fits 32 (r_pos r)) (request_of <$> live xs)) as Hpos.
  { clear. induction xs as [|x xs IH]; intros p e lim Hp; [by split; constructor|]. intros [Hx Hxs].
    pose proof (ea_wf _ _ _ _ Hx) as Hwf. pose proof (item_next_bounds p _ Hwf).
    destruct (IH (item_next p (e_item x)) e lim ltac:(lia) Hxs) as [Hnd Hall]. rewrite live_cons. destruct (e_used x).
    - assert (r_pos (request_of x) = p) as Hr by (cbn; rewrite (ea_disc _ _ _ _ Hx); lia).
      rewrite !fmap_cons. split.
      + constructor; [|done]. rewrite Hr. intros (r & Heq & Hin)%list_elem_of_fmap.
        rewrite Forall_forall in Hall. destruct (Hall r Hin). lia.
      + constructor; [|eapply Forall_impl; [exact Hall|]; intros r [? ?]; split; [lia|done]].
        rewrite Hr. split; [lia|]. rewrite QueueItem_wf_iff in Hwf. destruct_and!.
        pose proof (ea_disc _ _ _ _ Hx). fits_lia.
    - split; [done|]. eapply Forall_impl; [exact Hall|]. intros r [? ?]. split; [lia|done]. }
  destruct (Hpos _ _ _ (Z.le_refl 16) Hc) as [? Hall]. split; [done|].
  eapply Forall_impl; [exact Hall|]. by intros r [].
Qed.

(** Removing the [i]-th request returns its item, whose data can still be
    read from the account afterwards. *)
Lemma represents_remove i :
  0 ≤ i →
  match rs !! Z.to_nat i with
  | Some r => ∃ acc' it, remove_item i acc = (acc', Ok it) ∧
                represents acc' (delete (Z.to_nat i) rs) ∧ same_frame acc acc' ∧
                item_reads acc' it r ∧ used it = 0
  | None => remove_item i acc = (acc, Err (vrf_error InvalidQueueIndex))
  end.
Proof.
  intros Hi. destruct Hrep as (xs & Hinv & ->). rewrite list_lookup_fmap.
  destruct (live xs !! Z.to_nat i) as [x|] eqn:Hl; cbn; [|by apply (remove_item_Err Hinv)].
  destruct (remove_item_Ok Hinv i x Hi Hl)
    as (acc' & xs1 & xs2 & Hxs & Hn & Hu & Hr & Hinv' & Hf & Hat & _).
  exists acc', (e_item (freed x)). split_and!; try done.
  - exists (trim (xs1 ++ freed x :: xs2)). split; [done|].
    rewrite live_trim, live_freed, Hxs, live_app, live_cons, Hu, <- Hn.
    rewrite !fmap_app, fmap_cons, <- (length_fmap request_of). by rewrite delete_middle.
  - rewrite <- request_of_freed. eapply entry_at_reads; [| |exact Hat]; [|by rewrite (sf_len _ _ Hf)].
    rewrite Hxs in Hinv. destruct (chain_lookup _ _ _ _ _ _ (qi_chain _ _ Hinv)) as (_ & _ & ?). lia.
Qed.
End Represents.

(** ** Purging *)

Section Purge.
Context {S : Type} (pred : QueueItem → bool) (on_removed : S → QueueItem → S).

(** The predicate sees only fields that the request has: the callback
    data and the offsets do not matter to it. *)
Definition respects (rpred : request → bool) : Prop :=
  ∀ x, pred (e_item x) = rpred (request_of x).

Lemma represents_purge acc rs rpred s :
  represents acc rs → respects rpred →
  ∃ acc' its, remove_items_matching pred on_removed acc s = (acc', foldl on_removed s its) ∧
    represents acc' (filter (λ r, negb (rpred r)) rs) ∧ same_frame acc acc' ∧
    length its = length (filter (λ r, rpred r) rs) ∧
    Forall2 (λ it r, slot it = r_slot r ∧ item_id it = r_id r ∧
                     priority_request it = r_priority r ∧ used it = 0) its
            (filter (λ r, rpred r) rs).
Proof.
  intros (xs & Hinv & ->) Hp.
  destruct (remove_items_matching_Ok pred on_removed acc xs s Hinv) as (acc' & Hr & Hinv' & Hf & _).
  assert (filter (λ r, rpred r) (request_of <$> live xs)
          = request_of <$> filter (λ x, pred (e_item x)) (live xs)) as Hfil.
  { rewrite filter_fmap_bool. f_equal. apply list_filter_iff. intros x. by rewrite Hp. }
  exists acc', (purged pred xs). split_and!; try done.
  - exists (trim (purge pred <$> xs)). split; [done|].
    rewrite live_trim, live_purge, (filter_fmap_bool request_of (λ r, negb (rpred r))). f_equal.
    apply list_filter_iff. intros x. by rewrite Hp.
  - by rewrite Hfil, purged_live, !length_fmap.
  - rewrite Hfil, purged_live, Forall2_fmap. by apply Forall_Forall2_diag, Forall_true.
Qed.
End Purge.

(** ** Adding *)

(** [r] inserted at position [i]. *)
Definition insert_at {A} (i : Z) (r : A) (rs : list A) : list A :=
  take (Z.to_nat i) rs ++ r :: drop (Z.to_nat i) rs.

Lemma insert_at_app {A} (r : A) rs1 rs2 : insert_at (zlen rs1) r (rs1 ++ rs2) = rs1 ++ r :: rs2.
Proof. unfold insert_at, zlen. by rewrite Nat2Z.id, take_app_length, drop_app_length. Qed.

Lemma insert_at_end {A} (r : A) rs : insert_at (zlen rs) r rs = rs ++ [r].
Proof. rewrite <- (app_nil_r rs) at 2. apply insert_at_app. Qed.

Section AddSpec.
Context {base : QueueItem} {disc : list byte} {metas : list CompactAccountMeta}
  {args : list byte} {idf : Z → list byte}.
Context (Hargs : add_args base disc metas idf).

(** The request goes in at the returned index, and every request in front
    of it and behind it stays; a refused request leaves the bytes alone. *)
Lemma represents_add acc rs :
  represents acc rs →
  match add_item_with_id base disc metas args idf acc with
  | (acc', Ok i) => fits_limits metas args ∧ 0 ≤ i ≤ zlen rs ∧ same_frame acc acc' ∧
      ∃ pos, 16 ≤ pos ∧ pos mod 8 = 0 ∧ pos + item_total disc metas args ≤ zlen acc ∧
        represents acc' (insert_at i (new_request base pos (idf pos) disc metas args) rs)
  | (acc', Err e) => acc' = acc ∧
      ((e = AccountDataTooSmall ∧ fits_limits metas args ∧
        zlen acc < align_up (cursor (header acc)) + item_total disc metas args)
       ∨ (e = vrf_error ArgumentSizeTooLarge ∧ ¬ fits_limits metas args))
  | (_, Panic) => False
  end.
Proof.
  intros (xs & Hinv & ->).
  destruct (decide (zlen metas ≤ 25 ∧ zlen args ≤ 512)) as [Hlim|Hlim].
  2: { rewrite add_item_too_large by done. naive_solver. }
  change (fits_limits metas args) in Hlim.
  pose proof (qi_len _ _ Hinv). pose proof (qi_cursor _ _ Hinv).
  pose proof (item_total_bounds Hargs Hlim). pose proof (align_up_bounds (cursor (header acc))).
  destruct (find_hole (align_up (item_total disc metas args)) 0 16 xs) as [sp|] eqn:Hf.
  - destruct (find_hole_Some _ _ _ _ _ Hf) as (xs1 & h & xs2 & Hxs & Hh & Hp & Hi & Hspan).
    destruct (add_item_reuse Hargs Hinv sp xs1 h xs2 Hlim Hf Hxs Hh Hp Hspan)
      as (acc' & -> & Hframe & _ & Hinv').
    pose proof Hinv as Hv. rewrite Hxs in Hv. pose proof (hole_room _ _ _ _ Hv Hh) as Hroom.
    destruct (chain_lookup _ _ _ _ _ _ (qi_chain _ _ Hv)) as (_ & Hp8 & Hp16).
    pose proof (align_up_bounds (item_total disc metas args)).
    rewrite <- Hp in *. pose proof (zlen_nonneg (live xs1)). pose proof (zlen_nonneg (live xs2)).
    assert (request_of <$> live xs = (request_of <$> live xs1) ++ (request_of <$> live xs2)) as Hl
      by by rewrite Hxs, live_app, live_cons, Hh, fmap_app.
    assert (zlen (request_of <$> live xs1) = zlen (live xs1)) as Hl1
      by by rewrite zlen_fmap.
    split_and!; [done|lia| |done|].
    { rewrite Hl, zlen_app. pose proof (zlen_nonneg (request_of <$> live xs2)). lia. }
    exists (span_item_pos sp). split_and!; try lia.
    eexists. split; [exact Hinv'|]. rewrite Hl, Hi, Z.add_0_l, <- Hl1, insert_at_app.
    rewrite live_app, live_cons, e_used_new, fmap_app, fmap_cons.
    rewrite (request_of_new _ _ _ _ _ _ Hargs Hlim), as_u32_small by fits_lia.
    done.
  - rewrite (add_item_scan Hargs Hinv), Hf by done.
    destruct (decide (zlen acc < align_up (cursor (header acc)) + item_total disc metas args)).
    { rewrite (append_item_Err Hargs Hinv) by done. naive_solver. }
    set (c := align_up (cursor (header acc))) in *.
    destruct (append_item_Ok Hargs Hinv c Hlim eq_refl ltac:(lia))
      as (acc' & -> & Hframe & _ & Hinv').
    assert (zlen (live xs) = zlen (request_of <$> live xs)) as -> by by rewrite zlen_fmap.
    pose proof (zlen_nonneg (request_of <$> live xs)).
    split_and!; [done|lia|lia|done|]. exists c. split_and!; [lia|apply align_up_mod|lia|].
    eexists. split; [exact Hinv'|].
    rewrite insert_at_end.
    rewrite live_app, live_cons, e_used_new, fmap_app, fmap_cons. rewrite (request_of_new _ _ _ _ _ _ Hargs Hlim), as_u32_small by fits_lia.
    done.
Qed.
End AddSpec.

(** ** Loading and pausing *)

(** Account data, discriminator included, of a queue with the requests [rs]. *)
Definition queue_data (data : list byte) (rs : list request) : Prop :=
  ∃ acc, data = discriminator_to_bytes DQueue ++ acc ∧ represents acc rs.

(** The index in the header of a queue account. *)
Definition header_index (data : list byte) : Z := queue_index (header (drop 8 data)).

Lemma header_index_app acc : header_index (discriminator_to_bytes DQueue ++ acc) = queue_index (header acc).
Proof. unfold header_index. by rewrite drop_app_length'. Qed.

Lemma check_queue_data_app acc : check_queue_data (discriminator_to_bytes DQueue ++ acc) = Ok ().
Proof.
  unfold check_queue_data. rewrite slice_app_l by done.
  replace (slice _ 0 8) with (discriminator_to_bytes DQueue) by done.
  rewrite zlen_app, zlen_discriminator. pose proof (zlen_nonneg acc).
  destruct (Z.leb_spec 8 (8 + zlen acc)); [|lia]. cbn.
  by rewrite (proj2 (bytes_eqb_eq _ _) eq_refl).
Qed.

Lemma slice_disc acc e : slice (discriminator_to_bytes DQueue ++ acc) 8 e = slice acc 0 (e - 8).
Proof. by rewrite slice_app_r. Qed.

Lemma load_app acc :
  12 ≤ zlen acc →
  load (discriminator_to_bytes DQueue ++ acc) =
    Ok (if cursor (header acc) =? 0 then set_cursor 16 acc else acc).
Proof.
  intros. unfold load. rewrite check_queue_data_app. cbn. rewrite size_of_Queue.
  rewrite slice_disc, zlen_app, zlen_discriminator, Z.add_simpl_l, slice_all.
  unfold ensure. destruct (Z.leb_spec 12 (zlen acc)); [|lia]. cbn.
  unfold pod_try_from_bytes. rewrite zlen_slice, size_of_Queue by lia. cbn. done.
Qed.

Lemma load_represents acc rs :
  represents acc rs → load (discriminator_to_bytes DQueue ++ acc) = Ok acc.
Proof.
  intros (xs & Hinv & _). pose proof (qi_len _ _ Hinv). pose proof (qi_cursor _ _ Hinv).
  rewrite load_app by lia. by destruct (Z.eqb_spec (cursor (header acc)) 0); [lia|].
Qed.

Lemma Queue_try_from_bytes_app acc :
  12 ≤ zlen acc → Queue_try_from_bytes (discriminator_to_bytes DQueue ++ acc) = Ok (header acc).
Proof.
  intros. pose proof (check_queue_data_app acc) as Hc. unfold check_queue_data in Hc.
  unfold Queue_try_from_bytes. rewrite size_of_Queue. unfold ensure in *.
  rewrite zlen_app, zlen_discriminator in *. destruct (Z.leb_spec (8 + 12) (8 + zlen acc)); [|lia].
  destruct (Z.leb_spec 8 (8 + zlen acc)); [|lia]. cbn in Hc |- *.
  destruct (bytes_eqb _ _); [|done]. cbn. rewrite slice_disc.
  unfold pod_try_from_bytes. by rewrite zlen_slice, size_of_Queue by lia.
Qed.

(** A header update that touches neither the cursor nor the count. *)
Lemma represents_header_update acc acc' h rs :
  represents acc rs → header_update acc acc' h →
  cursor h = cursor (header acc) → item_count h = item_count (header acc) → represents acc' rs.
Proof.
  intros (xs & Hinv & ->) Hu Hc Hn. exists xs. split; [|done].
  pose proof (qi_len _ _ Hinv). pose proof (qi_cursor _ _ Hinv). pose proof (hu_len _ _ _ Hu).
  apply (queue_inv_intro acc' xs (cursor h) (item_count h)); rewrite ?(hu_header _ _ _ Hu); [lia|done|done|lia|..].
  - rewrite Hc. eapply chain_header_update; [exact Hu|lia|]. apply (qi_chain _ _ Hinv).
  - rewrite Hn. apply (qi_count _ _ Hinv).
  - apply (qi_last _ _ Hinv).
Qed.

Definition with_paused (h : Queue) (p : Z) : Queue :=
  mkQueue (item_count h) (cursor h) (queue_index h) p (queue_padding h).
Definition with_index (h : Queue) (i : Z) : Queue :=
  mkQueue (item_count h) (cursor h) i (paused h) (queue_padding h).

Lemma set_paused_update p acc :
  12 ≤ zlen acc → fits 8 p → header_update acc (set_paused p acc) (with_paused (header acc) p).
Proof.
  intros ? Hp. apply set_header_update; [|done].
  pose proof (header_wf acc ltac:(done)) as Hwf. rewrite Queue_wf_iff in *. simpl. naive_solver.
Qed.

Lemma set_index_update i acc :
  12 ≤ zlen acc → fits 8 i → header_update acc (set_index i acc) (with_index (header acc) i).
Proof.
  intros ? Hp. apply set_header_update; [|done].
  pose proof (header_wf acc ltac:(done)) as Hwf. rewrite Queue_wf_iff in *. simpl. naive_solver.
Qed.

Lemma represents_set_paused acc rs p :
  represents acc rs → fits 8 p →
  represents (set_paused p acc) rs ∧ paused (header (set_paused p acc)) = p ∧
  zlen (set_paused p acc) = zlen acc.
Proof.
  intros Hrep Hp. destruct (represents_bounds Hrep) as [? _].
  pose proof (set_paused_update p acc ltac:(lia) Hp) as Hu.
  split_and!; [by eapply represents_header_update|by rewrite (hu_header _ _ _ Hu)|apply Hu].
Qed.

Lemma represents_set_index acc rs i :
  represents acc rs → fits 8 i →
  represents (set_index i acc) rs ∧ queue_index (header (set_index i acc)) = i ∧
  zlen (set_index i acc) = zlen acc.
Proof.
  intros Hrep Hp. destruct (represents_bounds Hrep) as [? _].
  pose proof (set_index_update i acc ltac:(lia) Hp) as Hu.
  split_and!; [by eapply represents_header_update|by rewrite (hu_header _ _ _ Hu)|apply Hu].
Qed.

(** ** A fresh account *)

Lemma slice_zeros n s e : 0 ≤ s ≤ e → e ≤ n → slice (zeros n) s e = zeros (e - s).
Proof.
  intros. unfold slice, zeros. rewrite drop_replicate, take_replicate. f_equal. lia.
Qed.

Lemma header_zeros n : 12 ≤ n → header (zeros n) = mkQueue 0 0 0 0 (zeros 2).
Proof. intros. unfold header. rewrite size_of_Queue, slice_zeros by lia. by vm_compute. Qed.

Lemma represents_fresh n :
  16 ≤ n ≤ 2 ^ 32 - 8 →
  represents (set_cursor 16 (zeros n)) [] ∧ header (set_cursor 16 (zeros n)) = mkQueue 0 16 0 0 (zeros 2) ∧
  zlen (set_cursor 16 (zeros n)) = n.
Proof.
  intros. assert (zlen (zeros n) = n) as Hl by (apply zlen_replicate; lia).
  destruct (set_cursor_update 16 (zeros n)) as [Hh Hl' _]; [lia|fits_lia|].
  rewrite header_zeros in Hh by lia. split_and!; [|done|lia].
  exists []. split; [|done]. apply (queue_inv_intro _ [] 16 0); rewrite ?Hh; [lia|done|done|cbn; lia|done..].
Qed.

Lemma load_fresh n :
  16 ≤ n ≤ 2 ^ 32 - 8 →
  load (discriminator_to_bytes DQueue ++ zeros n) = Ok (set_cursor 16 (zeros n)).
Proof.
  intros. assert (zlen (zeros n) = n) as Hl by (apply zlen_replicate; lia).
  by rewrite load_app, header_zeros by lia.
Qed.
