(* ===== verification/QueueRobust.v ===== *)
(** * The oracle queue: arbitrary account contents

    The queue is read back from an account on every instruction.  These
    lemmas do not assume the invariant: for any bytes the scans end after a
    number of steps bounded by the size of the account, and no operation
    indexes out of range. *)

From S2P Require Import Prelude Pod Api QueueLayout QueueAccount QueueInv QueueAdd QueueRemove.

(** ** Termination of the scans *)

Section Scan.
Context (acc : list byte).

Lemma read_item_wf p : 0 ≤ p → p + 96 ≤ zlen acc → pod_wf (read_item_unaligned acc p).
Proof.
  intros. apply pod_read_wf. rewrite size_of_QueueItem, zlen_slice by lia. lia.
Qed.

Lemma scan_step p end_ :
  0 ≤ p → p + 96 ≤ end_ → end_ ≤ zlen acc →
  p + 96 ≤ item_next p (read_item_unaligned acc p).
Proof.
  intros. pose proof (read_item_wf p ltac:(lia) ltac:(lia)) as Hwf.
  pose proof (item_next_bounds p _ Hwf). lia.
Qed.

Lemma scan_end_le : scan_end acc ≤ zlen acc.
Proof. unfold scan_end. lia. Qed.

(** Any two sufficient amounts of fuel agree. *)
Lemma scan_loop_fuel {S R} (visit : S → Z → Z → Z → QueueItem → S * option R) f1 f2 end_ s ui p :
  0 ≤ p → end_ ≤ zlen acc →
  end_ - p < 96 * Z.of_nat f1 → end_ - p < 96 * Z.of_nat f2 →
  scan_loop f1 visit acc end_ s ui p = scan_loop f2 visit acc end_ s ui p.
Proof.
  intros Hp He. revert f2 s ui p Hp.
  induction f1 as [|f1 IH]; intros [|f2] s ui p Hp H1 H2; cbn [scan_loop]; cbv zeta;
    rewrite ?size_of_QueueItem; try done.
  - destruct (Z.leb_spec (p + 96) end_); [lia|done].
  - destruct (Z.leb_spec (p + 96) end_); [lia|done].
  - destruct (Z.leb_spec (p + 96) end_); [|done].
    pose proof (scan_step p end_ ltac:(lia) ltac:(lia) He).
    destruct (visit _ _ _ _ _) as [s' [r|]]; [done|]. apply IH; lia.
Qed.

(** The loop of the code, which has no fuel: one more iteration changes nothing. *)
Lemma scan_items_fuel {S R} (visit : S → Z → Z → Z → QueueItem → S * option R) fuel s :
  (Z.to_nat (zlen acc) ≤ fuel)%nat →
  scan_loop fuel visit acc (scan_end acc) s 0 items_start = scan_items visit acc s.
Proof.
  intros. pose proof scan_end_le. pose proof (zlen_nonneg acc). rewrite items_start_eq.
  apply scan_loop_fuel; rewrite ?items_start_eq; lia.
Qed.

(** How many items a full scan visits. *)
Definition count_visit (n : Z) (_ _ _ : Z) (_ : QueueItem) : Z * option unit := (n + 1, None).

Lemma scan_count_bound fuel end_ n ui p :
  0 ≤ p → end_ ≤ zlen acc →
  96 * (fst (scan_loop fuel count_visit acc end_ n ui p) - n) ≤ Z.max 0 (end_ - p).
Proof.
  intros Hp He. revert n ui p Hp.
  induction fuel as [|fuel IH]; intros n ui p Hp; cbn [scan_loop fst]; [lia|].
  cbv zeta. rewrite size_of_QueueItem.
  destruct (Z.leb_spec (p + 96) end_); [|cbn [fst]; lia].
  pose proof (scan_step p end_ ltac:(lia) ltac:(lia) He). cbn [count_visit].
  match goal with |- context [scan_loop fuel _ _ _ _ ?u ?q] => specialize (IH (n + 1) u q ltac:(lia)) end.
  lia.
Qed.

(** Whatever index a scan finds points to a whole item. *)
Lemma scan_index_bounds i fuel end_ ui p q it :
  0 ≤ p → end_ ≤ zlen acc →
  snd (scan_loop fuel (visit_index i) acc end_ () ui p) = Some (q, it) →
  p ≤ q ∧ q + 96 ≤ end_ ∧ pod_wf it ∧ used it = 1.
Proof.
  intros Hp He. revert ui p Hp.
  induction fuel as [|fuel IH]; intros ui p Hp; cbn [scan_loop snd]; [done|].
  cbv zeta. rewrite size_of_QueueItem.
  destruct (Z.leb_spec (p + 96) end_); [|done].
  pose proof (scan_step p end_ ltac:(lia) ltac:(lia) He).
  unfold visit_index at 1. destruct (_ && _) eqn:Hb.
  - cbn [snd]. intros [= <- <-]. apply andb_true_iff in Hb as [Hu%Z.eqb_eq _].
    split_and!; [lia|lia| |done]. apply read_item_wf; lia.
  - intros (? & ? & ? & ?)%IH; [|lia]. split_and!; try done; lia.
Qed.

Lemma scan_reusable_bounds req fuel end_ st ui p :
  0 ≤ p → end_ ≤ zlen acc →
  (∀ sp, reusable_span st = Some sp → 0 ≤ span_item_pos sp) →
  ∀ sp, reusable_span (fst (scan_loop fuel (visit_reusable req) acc end_ st ui p)) = Some sp →
        0 ≤ span_item_pos sp.
Proof.
  intros Hp He. revert st ui p Hp.
  induction fuel as [|fuel IH]; intros st ui p Hp Hst; cbn [scan_loop fst]; [done|].
  cbv zeta. rewrite size_of_QueueItem.
  destruct (Z.leb_spec (p + 96) end_); [|done].
  pose proof (scan_step p end_ ltac:(lia) ltac:(lia) He).
  destruct (visit_reusable req st _ _ _ _) as [s' [r|]] eqn:Hv; unfold visit_reusable in Hv;
    destruct (used _ =? 1); try destruct (_ && _); try done; injection Hv as <-;
    apply IH; try done; try lia.
  cbn. by intros sp [= <-].
Qed.
End Scan.

(** ** No operation panics *)

Lemma zlen_drop_item_count acc : 12 ≤ zlen acc → zlen (drop_item_count acc) = zlen acc.
Proof.
  intros H. unfold drop_item_count, set_item_count. apply zlen_set_header; [|exact H].
  exact (with_count_drop_wf (header acc) (header_wf acc H)).
Qed.

Lemma zlen_shrink_cursor last acc : 12 ≤ zlen acc → zlen (shrink_cursor last acc) = zlen acc.
Proof.
  intros H. unfold shrink_cursor. destruct (_ <? _); [|done].
  assert (fits 32 (as_u32 last)) as Hf by by apply wrap_fits.
  exact (hu_len _ _ _ (set_cursor_update _ _ H Hf)).
Qed.

Lemma zlen_trim_trailing_holes acc : 12 ≤ zlen acc → zlen (trim_trailing_holes acc) = zlen acc.
Proof. apply zlen_shrink_cursor. Qed.

Lemma zlen_bump_item_count acc : 12 ≤ zlen acc → zlen (bump_item_count acc) = zlen acc.
Proof.
  intros H. pose proof (header_wf acc H) as Hwf. rewrite Queue_wf_iff in Hwf. destruct Hwf as [Hc _].
  assert (fits 32 (saturating_add 32 (item_count (header acc)) 1)) as Hf
    by (unfold saturating_add; fits_lia).
  exact (hu_len _ _ _ (set_item_count_update _ _ H Hf)).
Qed.

(** An operation that keeps the size of the account and does not panic. *)
Definition safe_op {A} (m : queue_op A) (acc : list byte) : Prop :=
  zlen (fst (m acc)) = zlen acc ∧ snd (m acc) ≠ Panic.

Lemma remove_item_safe i acc : 12 ≤ zlen acc → safe_op (remove_item i) acc.
Proof.
  intros. unfold safe_op, remove_item, mbind, queue_op_bind, q_get, q_lift, q_modify, q_try.
  destruct (snd (scan_items _ _ _)) as [[q it]|] eqn:Hs; cbn -[drop_item_count]; [|done].
  apply scan_index_bounds in Hs as (Hq & Hend & Hwf & _); [|by rewrite items_start_eq|apply scan_end_le].
  rewrite items_start_eq in Hq. pose proof (scan_end_le acc). rewrite size_of_QueueItem.
  pose proof (zlen_drop_item_count acc ltac:(lia)) as Hl.
  assert (zlen (bytes_of (set_used it 0)) = 96) as Hk.
  { rewrite zlen_bytes_of; [done|]. by apply (freed_wf (mkEntry it [])). }
  rewrite copy_into_eq by lia. cbn. split; [|done].
  rewrite zlen_trim_trailing_holes by (rewrite zlen_splice; lia). rewrite zlen_splice; lia.
Qed.

Lemma q_lift_Ok {A} (r : res A) acc acc' a : q_lift r acc = (acc', Ok a) → acc' = acc ∧ r = Ok a.
Proof. intros H. split; [exact (eq_sym (f_equal fst H))|exact (f_equal snd H)]. Qed.

Section AddSafe.
Context {base : QueueItem} {disc : list byte} {metas : list CompactAccountMeta}
  {args : list byte} {idf : Z → list byte}.
Context (Hargs : add_args base disc metas idf) (Hlim : fits_limits metas args).

Lemma write_item_at_safe pos acc :
  0 ≤ pos → safe_op (write_item_at pos (set_id base (idf (as_u32 pos))) disc metas args) acc.
Proof.
  intros Hpos. unfold safe_op.
  destruct (decide (pos + item_total disc metas args ≤ zlen acc)).
  - rewrite (write_item_at_Ok Hargs Hlim) by done. cbn. split; [|done].
    pose proof (zlen_x_bytes Hargs (args:=args) pos) as Hx.
    apply zlen_splice; [done|]. etrans; [|exact l]. apply Z.eq_le_incl. f_equal. exact Hx.
  - rewrite write_item_at_Err by lia. done.
Qed.

(** Composing safe steps. *)
Lemma safe_bind {A B} (m : queue_op A) (f : A → queue_op B) acc :
  safe_op m acc →
  (∀ acc' a, m acc = (acc', Ok a) → zlen acc' = zlen acc → safe_op (f a) acc') →
  safe_op (m ≫= f) acc.
Proof.
  unfold safe_op, mbind, queue_op_bind. destruct (m acc) as [acc' [a|e|]] eqn:Hm; cbn;
    intros [Hl Hp] Hf; [|done|done].
  destruct (Hf acc' a eq_refl Hl). split; [congruence|done].
Qed.

Lemma append_item_safe acc layout :
  12 ≤ zlen acc < 2 ^ 32 → total_needed layout = item_total disc metas args →
  safe_op (append_item base disc metas args idf layout) acc.
Proof.
  intros Hl Ht. unfold append_item. rewrite Ht.
  pose proof (header_wf acc ltac:(lia)) as Hwf. rewrite Queue_wf_iff in Hwf.
  destruct Hwf as (_ & Hc & _). pose proof (align_up_bounds (cursor (header acc))) as Hb.
  pose proof (item_total_bounds Hargs Hlim).
  apply safe_bind; [done|]. intros ? ? [= <- <-] _.
  apply safe_bind; [by unfold q_lift, safe_op, ensure; destruct (_ <=? _)|].
  intros acc' [] [-> He]%q_lift_Ok _. apply ensure_Ok, Z.leb_le in He.
  unfold saturating_add in He. rewrite Z.min_l in He by fits_lia.
  apply safe_bind.
  { destruct (negb _); [|done].
    apply safe_bind; [|intros; split; [|done]; apply set_cursor_update; [lia|by apply wrap_fits]].
    unfold safe_op, q_try. rewrite copy_into_eq; [|fits_lia|lia|apply zlen_replicate; lia].
    cbn. split; [|done]. apply zlen_splice; [fits_lia|]. unfold zeros.
    rewrite zlen_replicate; lia. }
  intros acc1 [] _ Hl1. apply safe_bind; [done|]. intros ? ? [= <- <-] _.
  pose proof (header_wf acc1 ltac:(lia)) as Hwf1. rewrite Queue_wf_iff in Hwf1.
  destruct Hwf1 as (_ & Hc1 & _).
  apply safe_bind; [apply write_item_at_safe; fits_lia|]. intros acc2 end_ _ Hl2.
  apply safe_bind; [split; [|done]; apply set_cursor_update; [lia|by apply wrap_fits]|].
  intros acc3 [] _ Hl3. apply safe_bind; [done|]. intros ? ? [= <- <-] _.
  apply safe_bind; [split; [|done]; apply zlen_bump_item_count; lia|]. done.
Qed.

Lemma add_item_with_id_safe_lim acc :
  12 ≤ zlen acc < 2 ^ 32 → safe_op (add_item_with_id base disc metas args idf) acc.
Proof.
  intros Hl. unfold add_item_with_id.
  apply safe_bind; [by unfold safe_op, q_lift; rewrite item_layout_Ok by (done || apply Hargs)|].
  intros acc0 layout [-> Hlay]%q_lift_Ok _. rewrite item_layout_Ok in Hlay by (done || apply Hargs).
  injection Hlay as <-. apply safe_bind; [done|]. intros ? ? [= <- <-] _. cbv zeta.
  apply safe_bind; [split; [|done]; apply zlen_shrink_cursor; lia|]. intros acc1 [] _ Hl1.
  apply safe_bind; [done|]. intros ? ? [= <- <-] _.
  destruct (reusable_span _) as [sp|] eqn:Hs; [|apply append_item_safe; [lia|done]].
  destruct (_ <? _); [|apply append_item_safe; [lia|done]].
  apply safe_bind.
  { apply write_item_at_safe. unfold scan_for_reusable_span, scan_items in Hs.
    eapply scan_reusable_bounds; [| | |exact Hs]; [by rewrite items_start_eq|apply scan_end_le|done]. }
  intros acc2 end_ _ Hl2. apply safe_bind; [|done].
  split; [|done]. apply zlen_bump_item_count. lia.
Qed.
End AddSafe.

Lemma add_item_with_id_safe base disc metas args idf acc :
  add_args base disc metas idf → 12 ≤ zlen acc < 2 ^ 32 →
  safe_op (add_item_with_id base disc metas args idf) acc.
Proof.
  intros Hargs Hl. destruct (decide (zlen metas ≤ 25 ∧ zlen args ≤ 512)) as [Hlim|Hlim].
  - by apply add_item_with_id_safe_lim.
  - unfold safe_op. by rewrite add_item_too_large.
Qed.
