(* ===== verification/QueueTheorems.v ===== *)
(** * The oracle queue: theorems

    The properties of [api/src/state/queue.rs], with inputs at which they
    apply. *)

From S2P Require Import Prelude Pod Api QueueLayout QueueAccount QueueInv QueueScan QueueAdd QueueRemove QueueSpec QueueRobust.

(** ** Calls on a queue and their specification *)

(** The state-changing calls the handlers make. *)
Inductive queue_call : Type :=
| CallAdd (base : QueueItem) (disc : list byte) (metas : list CompactAccountMeta)
    (args : list byte) (idf : Z → list byte)
| CallRemove (index : Z)
| CallPurge (now_stamp : Z)
| CallSetPaused (p : Z).

Definition expired (now_stamp : Z) (it : QueueItem) : bool :=
  QUEUE_TTL_SECONDS <? age_secs it now_stamp.

Definition run_call (c : queue_call) : queue_op Z :=
  match c with
  | CallAdd base disc metas args idf => add_item_with_id base disc metas args idf
  | CallRemove i => it ← remove_item i; mret i
  | CallPurge now => λ acc,
      let '(acc', n) := remove_items_matching (expired now) (λ n _, n + 1) acc 0 in (acc', Ok n)
  | CallSetPaused p => q_modify (set_paused p);; mret 0
  end.

(** Arguments of their Rust types. *)
Definition valid_call (c : queue_call) : Prop :=
  match c with
  | CallAdd base disc metas args idf => add_args base disc metas idf
  | CallRemove i => 0 ≤ i
  | CallPurge _ => True
  | CallSetPaused p => fits 8 p
  end.

Definition request_expired (now : Z) (r : request) : bool :=
  QUEUE_TTL_SECONDS <? wrapping_sub 16 now (r_created_at r) * CREATED_AT_UNIT_SECS.

(** What a call may do to the list of requests, and what it returns. *)
Inductive spec_call : queue_call → list request → res Z → list request → Prop :=
| spec_add base disc metas args idf rs i pos :
    fits_limits metas args → 0 ≤ i ≤ zlen rs →
    spec_call (CallAdd base disc metas args idf) rs (Ok i)
      (insert_at i (new_request base pos (idf pos) disc metas args) rs)
| spec_add_full base disc metas args idf rs :
    spec_call (CallAdd base disc metas args idf) rs (Err AccountDataTooSmall) rs
| spec_add_too_large base disc metas args idf rs :
    ¬ fits_limits metas args →
    spec_call (CallAdd base disc metas args idf) rs (Err (vrf_error ArgumentSizeTooLarge)) rs
| spec_remove i rs r :
    rs !! Z.to_nat i = Some r → spec_call (CallRemove i) rs (Ok i) (delete (Z.to_nat i) rs)
| spec_remove_absent i rs :
    rs !! Z.to_nat i = None →
    spec_call (CallRemove i) rs (Err (vrf_error InvalidQueueIndex)) rs
| spec_purge now rs :
    spec_call (CallPurge now) rs (Ok (zlen (filter (λ r, request_expired now r) rs)))
      (filter (λ r, negb (request_expired now r)) rs)
| spec_pause p rs : spec_call (CallSetPaused p) rs (Ok 0) rs.

(** A list of calls, one after the other, each with its result. *)
Fixpoint run_calls (cs : list queue_call) (acc : list byte) : list byte * list (res Z) :=
  match cs with
  | [] => (acc, [])
  | c :: cs' =>
    let '(acc1, r) := run_call c acc in
    let '(acc2, rs) := run_calls cs' acc1 in
    (acc2, r :: rs)
  end.

Inductive spec_calls : list queue_call → list request → list (res Z) → list request → Prop :=
| spec_nil rs : spec_calls [] rs [] rs
| spec_cons c cs rs rs1 rs2 r out :
    spec_call c rs r rs1 → spec_calls cs rs1 out rs2 → spec_calls (c :: cs) rs (r :: out) rs2.

Lemma expired_respects now : respects (expired now) (request_expired now).
Proof. done. Qed.

Lemma foldl_count {A} (l : list A) n : foldl (λ n _, n + 1) n l = n + zlen l.
Proof.
  revert n. induction l as [|x l IH]; intros n; simpl; [unfold zlen; simpl; lia|].
  rewrite IH, zlen_cons. lia.
Qed.

(** One call. *)
Lemma run_call_refines c acc rs acc' r :
  represents acc rs → valid_call c → run_call c acc = (acc', r) →
  ∃ rs', spec_call c rs r rs' ∧ represents acc' rs' ∧ zlen acc' = zlen acc.
Proof.
  intros Hrep Hv. destruct c as [base disc metas args idf|i|now|p]; cbn [run_call valid_call] in *.
  - pose proof (represents_add Hv (args:=args) acc rs Hrep) as Ha. intros Hrun. rewrite Hrun in Ha.
    destruct r as [i|e|]; [|destruct Ha as [-> [(-> & _)|(-> & Hn)]]|done].
    + destruct Ha as (Hlim & Hi & Hf & pos & _ & _ & _ & Hr).
      eexists. split; [by eapply spec_add|]. split; [done|apply Hf].
    + exists rs. split; [constructor|done].
    + exists rs. split; [by constructor|done].
  - intros Hrun. pose proof (represents_remove Hrep i Hv) as Hr.
    unfold mbind, queue_op_bind, mret, queue_op_ret in Hrun.
    destruct (rs !! Z.to_nat i) as [q|] eqn:Hl.
    + destruct Hr as (acc1 & it & Hrm & Hrep' & Hf & _). rewrite Hrm in Hrun.
      injection Hrun as <- <-. eexists. split; [by econstructor|]. split; [done|apply Hf].
    + rewrite Hr in Hrun. injection Hrun as <- <-. exists rs. split; [by constructor|done].
  - destruct (represents_purge (expired now) (λ n _, n + 1) acc rs (request_expired now) 0 Hrep
                (expired_respects now)) as (acc1 & its & Hrm & Hrep' & Hf & Hlen & _).
    rewrite Hrm. intros [= <- <-]. rewrite foldl_count, Z.add_0_l.
    replace (zlen its) with (zlen (filter (λ r, request_expired now r) rs))
      by (unfold zlen; by rewrite Hlen).
    eexists. split; [constructor|]. split; [done|apply Hf].
  - destruct (represents_set_paused acc rs p Hrep Hv) as (Hrep' & _ & Hl).
    intros [= <- <-]. exists rs. split; [constructor|done].
Qed.

(** ** Refinement of whole runs *)

Lemma run_calls_refines cs acc rs acc' out :
  represents acc rs → Forall valid_call cs → run_calls cs acc = (acc', out) →
  ∃ rs', spec_calls cs rs out rs' ∧ represents acc' rs' ∧ zlen acc' = zlen acc.
Proof.
  revert acc rs out. induction cs as [|c cs IH]; intros acc rs out Hrep Hv; cbn [run_calls].
  - intros [= <- <-]. exists rs. split; [constructor|done].
  - apply Forall_cons in Hv as [Hc Hcs].
    destruct (run_call c acc) as [acc1 r] eqn:H1. destruct (run_calls cs acc1) as [acc2 o] eqn:H2.
    intros [= <- <-].
    destruct (run_call_refines _ _ _ _ _ Hrep Hc H1) as (rs1 & Hs1 & Hrep1 & Hl1).
    destruct (IH _ _ _ Hrep1 Hcs H2) as (rs2 & Hs2 & Hrep2 & Hl2).
    exists rs2. split; [by econstructor|]. split; [done|congruence].
Qed.

(** C1. The queue implements the list of requests it is specified by: for
    every sequence of additions, removals, purges and pauses on a freshly
    created account of any size, the results are those of the list
    specification, and the bytes represent the resulting list.  In
    particular no call panics, and the account keeps its size. *)
Theorem queue_refines_list (n : Z) (cs : list queue_call) acc0 acc out :
  16 ≤ n ≤ 2 ^ 32 - 8 →
  load (discriminator_to_bytes DQueue ++ zeros n) = Ok acc0 →
  Forall valid_call cs → run_calls cs acc0 = (acc, out) →
  ∃ rs, spec_calls cs [] out rs ∧ represents acc rs ∧ zlen acc = n ∧ Panic ∉ out.
Proof.
  intros Hn Hload Hv Hrun. rewrite load_fresh in Hload by done. injection Hload as <-.
  destruct (represents_fresh n Hn) as (Hrep & _ & Hl).
  destruct (run_calls_refines _ _ _ _ _ Hrep Hv Hrun) as (rs & Hs & Hrep' & Hl').
  exists rs. split_and!; [done|done|lia|].
  clear -Hs. intros Hp.
  induction Hs as [|c cs rs rs1 rs2 r out Hc Hs IH]; [by apply not_elem_of_nil in Hp|].
  apply elem_of_cons in Hp as [<-|Hp]; [inversion Hc|by apply IH].
Qed.

(** ** Round trips *)

(** C34. A request that was added is found again: after a successful
    [add_item_with_id] whose id is not in the queue yet, [find_item_by_id]
    returns the index that the call returned and an item that is in use,
    whose fields, discriminator, metas and arguments read back from the
    account are the ones that were stored. *)
Theorem find_after_add base disc metas args idf acc rs acc' i :
  represents acc rs → add_args base disc metas idf →
  (∀ p r, r ∈ rs → r_id r ≠ idf p) →
  add_item_with_id base disc metas args idf acc = (acc', Ok i) →
  ∃ pos it, find_item_by_id (idf pos) acc' = Some (i, it) ∧ used it = 1 ∧
            item_reads acc' it (new_request base pos (idf pos) disc metas args).
Proof.
  intros Hrep Hargs Hfresh Hadd. pose proof (represents_add Hargs (args:=args) acc rs Hrep) as Ha.
  rewrite Hadd in Ha. destruct Ha as (_ & Hi & _ & pos & _ & _ & _ & Hrep').
  set (r := new_request base pos (idf pos) disc metas args) in *. exists pos.
  assert (list_find (λ r, r_id r = idf pos) (insert_at i r rs) = Some (Z.to_nat i, r)) as Hf.
  { apply list_find_Some. unfold insert_at. unfold zlen in Hi.
    assert (length (take (Z.to_nat i) rs) = Z.to_nat i) as Hlt by (rewrite length_take; lia).
    split_and!; [|done|].
    - rewrite lookup_app_r by lia. by rewrite Hlt, Nat.sub_diag.
    - intros j y Hj Hlt'. rewrite lookup_app_l in Hj by lia. apply Hfresh.
      apply list_elem_of_lookup_2 in Hj. by eapply elem_of_take in Hj as (? & ?%list_elem_of_lookup_2 & _). }
  pose proof (represents_find Hrep' (idf pos)) as Hfind. rewrite Hf in Hfind.
  destruct (find_item_by_id (idf pos) acc') as [[n it]|]; [|done].
  destruct Hfind as (-> & Hreads & Hu). exists it. by rewrite Z2Nat.id by lia.
Qed.

(** Removing a request gives its item back, marked free; the request's
    discriminator, metas and arguments can still be read from the account
    through it, although its span may have been trimmed; the other requests
    stay in their order. An index without a request is an error that changes
    nothing. *)
Theorem remove_item_spec acc rs i :
  represents acc rs → 0 ≤ i →
  match rs !! Z.to_nat i with
  | Some r => ∃ acc' it, remove_item i acc = (acc', Ok it) ∧ used it = 0 ∧ item_reads acc' it r ∧
                represents acc' (delete (Z.to_nat i) rs) ∧ len acc' = len acc - 1
  | None => remove_item i acc = (acc, Err (vrf_error InvalidQueueIndex))
  end.
Proof.
  intros Hrep Hi. pose proof (represents_remove Hrep i Hi) as Hr.
  destruct (rs !! Z.to_nat i) as [r|] eqn:Hl; [|done].
  destruct Hr as (acc' & it & Hrm & Hrep' & _ & Hreads & Hu). exists acc', it.
  split_and!; try done. rewrite (represents_len Hrep), (represents_len Hrep').
  apply lookup_lt_Some in Hl. unfold zlen. rewrite length_delete by (by apply lookup_lt_is_Some). lia.
Qed.

(** Reading the queue agrees with the list of requests it represents:
    by index, by id, as a whole, its length and its emptiness test. *)
Lemma queue_reads acc rs :
  represents acc rs →
  Forall2 (λ it r, item_reads acc it r ∧ used it = 1) (iter_items acc) rs ∧
  (∀ i, 0 ≤ i → get_item_by_index i acc = iter_items acc !! Z.to_nat i) ∧
  (∀ i, find_item_by_id i acc =
          (λ nx, (Z.of_nat nx.1, nx.2)) <$> list_find (λ it, item_id it = i) (iter_items acc)) ∧
  len acc = zlen rs ∧ (is_empty acc = true ↔ rs = []).
Proof.
  intros Hrep. split_and!.
  - by apply represents_iter.
  - intros i Hi. destruct Hrep as (xs & Hinv & ->).
    by rewrite (inv_get_item_by_index Hinv), (inv_iter_items Hinv), list_lookup_fmap.
  - intros i. destruct Hrep as (xs & Hinv & ->).
    rewrite (inv_find_item_by_id Hinv), (inv_iter_items Hinv), list_find_fmap.
    change ((λ it, item_id it = i) ∘ e_item) with (λ x, item_id (e_item x) = i).
    by destruct (list_find _ (live xs)) as [[]|].
  - by apply represents_len.
  - by apply represents_is_empty.
Qed.

(** ** When an addition succeeds *)

Section Room.
Context {base : QueueItem} {disc : list byte} {metas : list CompactAccountMeta}
  {args : list byte} {idf : Z → list byte}.
Context (Hargs : add_args base disc metas idf).

(** Room: a hole of exactly the right span, or enough bytes behind the cursor. *)
Definition has_room (acc : list byte) (xs : list entry) (total : Z) : Prop :=
  find_hole (align_up total) 0 16 xs ≠ None ∨ align_up (cursor (header acc)) + total ≤ zlen acc.

Lemma add_item_room acc xs :
  queue_inv acc xs → fits_limits metas args →
  (has_room acc xs (item_total disc metas args) ↔
   ∃ acc' i, add_item_with_id base disc metas args idf acc = (acc', Ok i)).
Proof.
  intros Hinv Hlim. unfold has_room.
  destruct (find_hole (align_up (item_total disc metas args)) 0 16 xs) as [sp|] eqn:Hf.
  - destruct (find_hole_Some _ _ _ _ _ Hf) as (xs1 & h & xs2 & Hxs & Hh & Hp & Hi & Hspan).
    destruct (add_item_reuse Hargs Hinv sp xs1 h xs2 Hlim Hf Hxs Hh Hp Hspan) as (acc' & -> & _).
    split; [by eauto|]. by left.
  - rewrite (add_item_scan Hargs Hinv), Hf by done.
    destruct (decide (align_up (cursor (header acc)) + item_total disc metas args ≤ zlen acc)) as [Hl|Hl].
    + destruct (append_item_Ok Hargs Hinv _ Hlim eq_refl Hl) as (acc' & -> & _).
      split; [by eauto|by right].
    + rewrite (append_item_Err Hargs Hinv) by (done || lia). split; [intros [?|?]; done|].
      by intros (? & ? & ?).
Qed.
End Room.

Definition r_total (r : request) : Z := item_total (r_disc r) (r_metas r) (r_args r).

Lemma zlen_cast_from_bytes n bs : zlen (cast_from_bytes (A:=CompactAccountMeta) n bs) = Z.of_nat n.
Proof. revert bs. induction n as [|n IH]; intros bs; [done|]. cbn [cast_from_bytes]. rewrite zlen_cons, IH. lia. Qed.

Lemma r_total_request_of acc lim p x :
  0 ≤ p → lim ≤ zlen acc → entry_at acc lim p x → r_total (request_of x) = 96 + payload_len (e_item x).
Proof.
  intros Hp Hl [Hend Hwf Hit Hpay _ _ _]. rewrite QueueItem_wf_iff in Hwf. destruct_and!.
  assert (zlen (e_payload x) = payload_len (e_item x)) as Hpl.
  { rewrite <- Hpay. unfold entry_end, payload_len in *. rewrite zlen_slice; fits_lia. }
  unfold r_total, item_total, request_of, payload_len in *. cbn [r_disc r_metas r_args].
  rewrite zlen_cast_from_bytes, !zlen_slice, Z2Nat.id by fits_lia. lia.
Qed.

Lemma trim_snoc_live xs ys : live ys ≠ [] → trim (xs ++ ys) = xs ++ trim ys.
Proof.
  intros Hys. assert (trim ys ≠ []) as Ht by (intros Ht; apply Hys; by rewrite <- live_trim, Ht).
  induction xs as [|x xs IH]; [done|]. cbn [app trim]. rewrite IH.
  destruct (xs ++ trim ys) eqn:He; [|done]. by apply app_eq_nil in He as [_ ?].
Qed.

Lemma walk_end_trim_le p xs :
  Forall (λ x, pod_wf (e_item x)) xs → walk_end p (trim xs) ≤ walk_end p xs.
Proof.
  intros Hwf. assert (∀ p ys, Forall (λ x, pod_wf (e_item x)) ys → p ≤ walk_end p ys) as Hmono.
  { clear. intros p ys H. revert p. induction H as [|y ys Hy _ IH]; intros p; simpl; [lia|].
    pose proof (item_next_bounds p _ Hy). specialize (IH (item_next p (e_item y))). lia. }
  destruct (trim_prefix xs) as (ys & Hxs & _). rewrite Hxs at 2. rewrite walk_end_app.
  apply Hmono. rewrite Hxs in Hwf. by apply Forall_app in Hwf as [_ ?].
Qed.

Lemma chain_wf acc lim p xs e : chain acc lim p xs e → Forall (λ x, pod_wf (e_item x)) xs.
Proof.
  revert p. induction xs as [|x xs IH]; intros p; simpl; [constructor|].
  intros [Hx Hxs]. constructor; [apply Hx|by eapply IH].
Qed.

(** Space is never lost: after any request is removed, a request of the
    same size can be added, even to a queue that was completely full. *)
Theorem remove_then_add acc rs i r base disc metas args idf acc' it :
  represents acc rs → 0 ≤ i → rs !! Z.to_nat i = Some r →
  remove_item i acc = (acc', Ok it) →
  add_args base disc metas idf → fits_limits metas args → item_total disc metas args = r_total r →
  ∃ acc'' j, add_item_with_id base disc metas args idf acc' = (acc'', Ok j).
Proof.
  intros (xs & Hinv & ->) Hi Hr Hrm Hargs Hlim Htot. rewrite list_lookup_fmap in Hr.
  destruct (live xs !! Z.to_nat i) as [x|] eqn:Hl; [|done]. injection Hr as <-.
  destruct (remove_item_Ok Hinv i x Hi Hl)
    as (acc1 & xs1 & xs2 & -> & Hn & Hu & Hrm' & Hinv' & Hf & Hat & _).
  rewrite Hrm in Hrm'. injection Hrm' as -> _.
  apply (proj1 (add_item_room Hargs _ _ Hinv' Hlim)). unfold has_room.
  destruct (chain_lookup _ _ _ _ _ _ (qi_chain _ _ Hinv)) as (Hat0 & Hp8 & Hp16).
  pose proof (qi_cursor _ _ Hinv). rewrite Htot. change (request_of x) with (request_of (freed x)).
  rewrite (r_total_request_of acc1 (zlen acc) (walk_end 16 xs1)); [|lia|by rewrite (sf_len _ _ Hf)|done].
  change (payload_len (e_item (freed x))) with (payload_len (e_item x)).
  set (p := walk_end 16 xs1) in *.
  destruct (decide (live xs2 = [])) as [Hx2|Hx2].
  - right. rewrite <- (inv_walk_end Hinv').
    assert (trim (xs1 ++ freed x :: xs2) = trim xs1) as ->.
    { clear -Hx2. assert (trim (freed x :: xs2) = []) as Ht.
      { cbn [trim]. rewrite e_used_freed. assert (live (trim xs2) = []) by by rewrite live_trim.
        pose proof (trim_last_is_used xs2) as Hlu. destruct (trim xs2) as [|t ts]; [done|].
        exfalso. unfold last_is_used in Hlu. destruct (last (t :: ts)) as [y|] eqn:Hy.
        - apply last_Some in Hy as (l' & Hy). rewrite Hy, live_app, live_cons, Hlu in H.
          by apply app_eq_nil in H as [_ ?].
        - by apply last_None in Hy. }
      induction xs1 as [|z xs1 IH]; [done|]. cbn [app trim]. by rewrite IH. }
    pose proof (chain_wf _ _ _ _ _ (qi_chain _ _ Hinv)) as Hwf. apply Forall_app in Hwf as [Hwf _].
    pose proof (walk_end_trim_le 16 xs1 Hwf). fold p in H0. pose proof (ea_end _ _ _ _ Hat0) as He.
    unfold entry_end in He. fold p in He. rewrite (sf_len _ _ Hf). lia.
  - left. rewrite trim_snoc_live by (by rewrite live_cons, e_used_freed).
    assert (trim (freed x :: xs2) = freed x :: trim xs2) as ->.
    { cbn [trim]. rewrite e_used_freed. assert (trim xs2 ≠ []) by (intros Ht; by rewrite <- live_trim, Ht in Hx2).
      by destruct (trim xs2). }
    intros Hnone. eapply find_hole_None; [exact Hnone|reflexivity|done|]. fold p.
    rewrite item_next_eq. unfold entry_end. change (payload_len (e_item (freed x))) with (payload_len (e_item x)).
    rewrite !align_up_spec. pose proof (Z.div_mod p 8). replace (p + 96 + payload_len (e_item x) + 7)
      with (96 + payload_len (e_item x) + 7 + p / 8 * 8) by lia.
    rewrite Z.div_add by lia. lia.
Qed.

(** [add_item_with_id] on every branch: it succeeds exactly when the
    arguments are within the limits and there is room (a hole of exactly
    the aligned size, or the bytes behind the cursor); arguments over the
    limits are reported first, and a refused request leaves every byte of
    the account as it was. *)
Theorem add_item_errors acc xs base disc metas args idf :
  queue_inv acc xs → add_args base disc metas idf →
  match snd (add_item_with_id base disc metas args idf acc) with
  | Ok _ => fits_limits metas args ∧ has_room acc xs (item_total disc metas args)
  | Err e => fst (add_item_with_id base disc metas args idf acc) = acc ∧
      ((e = vrf_error ArgumentSizeTooLarge ∧ ¬ fits_limits metas args) ∨
       (e = AccountDataTooSmall ∧ fits_limits metas args ∧
        ¬ has_room acc xs (item_total disc metas args)))
  | Panic => False
  end.
Proof.
  intros Hinv Hargs.
  pose proof (represents_add Hargs (args:=args) acc (request_of <$> live xs)
                (ex_intro _ xs (conj Hinv eq_refl))) as Ha.
  destruct (add_item_with_id base disc metas args idf acc) as [acc' [i|e|]] eqn:Hadd; cbn; [..|done].
  - destruct Ha as (Hlim & _). split; [done|]. apply (add_item_room (idf:=idf) Hargs _ _ Hinv Hlim). eauto.
  - destruct Ha as [-> [(-> & Hlim & _)|[-> Hn]]]; [|by auto].
    split; [done|]. right. split_and!; [done|done|].
    rewrite (add_item_room (idf:=idf) Hargs _ _ Hinv Hlim). rewrite Hadd. naive_solver.
Qed.

(** ** Arbitrary account contents *)

(** C32. No queue operation panics or changes the size of the account,
    whatever bytes the account holds: a corrupted queue can make a handler
    fail with an error, not abort inside the queue code. *)
Theorem queue_operations_safe (acc : list byte) base disc metas args idf i :
  12 ≤ zlen acc < 2 ^ 32 → add_args base disc metas idf →
  safe_op (add_item_with_id base disc metas args idf) acc ∧ safe_op (remove_item i) acc.
Proof.
  intros Hl Hargs. split; [by apply add_item_with_id_safe|]. apply remove_item_safe. lia.
Qed.

(** Every scan of the queue terminates: on any bytes, the loop with any
    larger amount of fuel computes the same, so the fuel of [scan_items]
    never cuts the loop of the code short; and a scan visits at most one
    item per 96 bytes behind the header. *)
Theorem scan_terminates {S R} (visit : S → Z → Z → Z → QueueItem → S * option R) acc s fuel :
  (Z.to_nat (zlen acc) ≤ fuel)%nat →
  scan_loop fuel visit acc (scan_end acc) s 0 items_start = scan_items visit acc s ∧
  96 * fst (scan_items count_visit acc 0) ≤ Z.max 0 (zlen acc - 16).
Proof.
  intros Hf. split; [by apply scan_items_fuel|]. unfold scan_items.
  pose proof (scan_count_bound acc (Z.to_nat (zlen acc)) (scan_end acc) 0 0 items_start
                ltac:(by rewrite items_start_eq) (scan_end_le acc)) as Hb.
  rewrite Z.sub_0_r, items_start_eq in *. pose proof (scan_end_le acc). lia.
Qed.

(** ** Wall-clock age *)

Lemma quot_4_bounds t : 0 ≤ t → 4 * Z.quot t 4 ≤ t < 4 * Z.quot t 4 + 4.
Proof. intros. pose proof (Z.quot_rem' t 4). pose proof (Z.rem_bound_pos t 4). lia. Qed.

Lemma age_secs_exact it t0 t1 :
  0 ≤ t0 ≤ t1 → t1 - t0 < 2 ^ 18 - 4 → created_at it = created_at_from t0 →
  age_secs it (created_at_from t1) = 4 * (Z.quot t1 4 - Z.quot t0 4).
Proof.
  intros Ht Hd Hc. unfold age_secs, wrapping_sub. rewrite Hc. unfold created_at_from, as_u16, wrap.
  unfold CREATED_AT_UNIT_SECS. rewrite Zminus_mod_idemp_l, Zminus_mod_idemp_r.
  pose proof (quot_4_bounds t0). pose proof (quot_4_bounds t1).
  rewrite Z.mod_small by lia. lia.
Qed.

(** Expiry is accurate to the resolution of the stamp, and the 16-bit
    wrap-around of the stamps does not show for 72 hours: a request younger
    than or exactly as old as the TTL is never expired, and one that is at
    least seven seconds over it always is. *)
Theorem expired_accurate it t0 t1 :
  0 ≤ t0 ≤ t1 → t1 - t0 < 72 * 3600 → created_at it = created_at_from t0 →
  Z.abs (age_secs it (created_at_from t1) - (t1 - t0)) < 4 ∧
  (t1 - t0 ≤ QUEUE_TTL_SECONDS → expired (created_at_from t1) it = false) ∧
  (QUEUE_TTL_SECONDS + 7 ≤ t1 - t0 → expired (created_at_from t1) it = true).
Proof.
  intros Ht Hd Hc. pose proof (age_secs_exact it t0 t1 Ht ltac:(lia) Hc) as Ha.
  pose proof (quot_4_bounds t0). pose proof (quot_4_bounds t1).
  unfold expired, QUEUE_TTL_SECONDS. rewrite Ha. split_and!; [lia|..]; intros ?.
  - apply Z.ltb_ge. lia.
  - apply Z.ltb_lt. lia.
Qed.

(** The purge pass removes exactly the expired requests, in one walk,
    keeps the others in their order, and hands every removed item to the fee
    callback exactly once and in order. *)
Theorem purge_spec acc rs now (s : Z) (fee : Z → QueueItem → Z) :
  represents acc rs →
  ∃ acc' its, remove_items_matching (expired now) fee acc s = (acc', foldl fee s its) ∧
    represents acc' (filter (λ r, negb (request_expired now r)) rs) ∧
    Forall2 (λ it r, item_id it = r_id r ∧ priority_request it = r_priority r ∧ used it = 0) its
            (filter (λ r, request_expired now r) rs) ∧
    zlen rs = len acc' + zlen its.
Proof.
  intros Hrep. destruct (represents_purge (expired now) fee acc rs _ s Hrep (expired_respects now))
    as (acc' & its & Hrm & Hrep' & _ & Hlen & Hall).
  exists acc', its. split_and!; [done|done| |].
  - eapply Forall2_impl; [exact Hall|]. naive_solver.
  - rewrite (represents_len Hrep'). unfold zlen. rewrite Hlen. clear.
    induction rs as [|r rs IH]; [done|]. rewrite !filter_cons.
    destruct (request_expired now r); simpl in *; lia.
Qed.

(** ** A concrete queue

    A queue account of 400 bytes, and two requests for it. *)

Definition demo_acc : list byte := set_cursor 16 (zeros 400).
Definition demo_base : QueueItem :=
  mkQueueItem 7 (zeros 32) (replicate 32 Byte.x01) 0 0 0 0 0 0 1 1 1 254 30.
Definition demo_disc : list byte := bytes_of_string "callback".
Definition demo_metas : list CompactAccountMeta := [mkCompactMeta (replicate 32 Byte.x05) 1].
Definition demo_args : list byte := bytes_of_string "args".
Definition demo_id (pos : Z) : list byte := replicate 32 Byte.x09.
Definition demo_request : request := new_request demo_base 16 (demo_id 0) demo_disc demo_metas demo_args.
Abbreviation demo_add := (add_item_with_id demo_base demo_disc demo_metas demo_args demo_id).
Definition demo_acc1 : list byte := fst (demo_add demo_acc).

Lemma demo_add_args : add_args demo_base demo_disc demo_metas demo_id.
Proof.
  split; [by rewrite QueueItem_wf_iff; vm_compute; intuition congruence|done| |done].
  constructor; [|constructor]. rewrite CompactAccountMeta_wf_iff. vm_compute. intuition congruence.
Defined.

Lemma demo_limits : fits_limits demo_metas demo_args.
Proof. split; vm_compute; congruence. Defined.

Lemma demo_fresh : represents demo_acc [].
Proof. apply represents_fresh. lia. Defined.

Lemma demo_add_eq : demo_add demo_acc = (demo_acc1, Ok 0).
Proof. by vm_compute. Defined.

(** The first request of an empty queue is stored at the start of the items. *)
Lemma demo_first acc acc1 :
  represents acc [] → demo_add acc = (acc1, Ok 0) →
  iter_items acc1 = [placed_item (set_id demo_base (demo_id 0)) 112 120 153 demo_disc demo_metas demo_args] →
  represents acc1 [demo_request].
Proof.
  intros Hrep Hadd Hit. pose proof (represents_add demo_add_args (args:=demo_args) acc [] Hrep) as Ha.
  rewrite Hadd in Ha. destruct Ha as (_ & _ & _ & pos & _ & _ & _ & Hr).
  assert (pos = 16) as ->; [|exact Hr].
  pose proof (represents_iter Hr) as Hall. rewrite Hit in Hall.
  inversion Hall as [|? ? ? ? [Hreads _] _]; subst. exact (eq_sym (ir_pos _ _ _ Hreads)).
Qed.

Lemma demo_represents : represents demo_acc1 [demo_request].
Proof. apply (demo_first demo_acc); [exact demo_fresh|exact demo_add_eq|vm_compute; reflexivity]. Defined.

Definition demo_calls : list queue_call :=
  [CallAdd demo_base demo_disc demo_metas demo_args demo_id;
   CallAdd demo_base demo_disc [] demo_args demo_id;
   CallAdd demo_base demo_disc demo_metas demo_args demo_id;
   CallRemove 0; CallSetPaused 1; CallRemove 5; CallPurge 70].

Lemma demo_calls_valid : Forall valid_call demo_calls.
Proof.
  repeat constructor; try apply demo_add_args; simpl; try (unfold fits; lia); try done.
  all: try (destruct demo_add_args; done).
Defined.

Lemma queue_refines_list_witness :
  load (discriminator_to_bytes DQueue ++ zeros 400) = Ok demo_acc ∧
  snd (run_calls demo_calls demo_acc) =
    [Ok 0; Ok 1; Err AccountDataTooSmall; Ok 0; Ok 0; Err (vrf_error InvalidQueueIndex); Ok 1] ∧
  ∃ rs, spec_calls demo_calls [] (snd (run_calls demo_calls demo_acc)) rs ∧
        represents (fst (run_calls demo_calls demo_acc)) rs ∧
        zlen (fst (run_calls demo_calls demo_acc)) = 400 ∧
        Panic ∉ snd (run_calls demo_calls demo_acc).
Proof.
  split; [apply load_fresh; lia|]. split; [by vm_compute|].
  apply (queue_refines_list 400 demo_calls demo_acc); [lia|apply load_fresh; lia|apply demo_calls_valid|].
  by destruct (run_calls demo_calls demo_acc).
Defined.

Lemma find_after_add_witness :
  ∃ pos it, find_item_by_id (demo_id pos) demo_acc1 = Some (0, it) ∧ used it = 1 ∧
            item_reads demo_acc1 it (new_request demo_base pos (demo_id pos) demo_disc demo_metas demo_args).
Proof.
  apply (find_after_add demo_base demo_disc demo_metas demo_args demo_id demo_acc [] demo_acc1 0).
  - apply demo_fresh.
  - apply demo_add_args.
  - intros p r Hr. by apply not_elem_of_nil in Hr.
  - apply demo_add_eq.
Defined.

Lemma remove_item_spec_witness :
  ∃ acc' it, remove_item 0 demo_acc1 = (acc', Ok it) ∧ used it = 0 ∧ item_reads acc' it demo_request ∧
             represents acc' [] ∧ len acc' = len demo_acc1 - 1.
Proof. apply (remove_item_spec demo_acc1 [demo_request] 0 demo_represents). lia. Defined.


(** A full queue: the account has room for one such request only. *)
Definition demo_small : list byte := set_cursor 16 (zeros 157).

Lemma remove_then_add_witness :
  ∃ acc1 acc2 acc3 it j, demo_add demo_small = (acc1, Ok 0) ∧
    snd (demo_add acc1) = Err AccountDataTooSmall ∧
    remove_item 0 acc1 = (acc2, Ok it) ∧ demo_add acc2 = (acc3, Ok j).
Proof.
  set (acc1 := fst (demo_add demo_small)). set (acc2 := fst (remove_item 0 acc1)).
  assert (represents demo_small []) as Hf by (apply represents_fresh; lia).
  assert (demo_add demo_small = (acc1, Ok 0)) as H1 by by vm_compute.
  assert (represents acc1 [demo_request]) as Hr.
  { apply (demo_first demo_small); [exact Hf|exact H1|vm_compute; reflexivity]. }
  assert (∃ it, remove_item 0 acc1 = (acc2, Ok it)) as [it H2] by (eexists; by vm_compute).
  destruct (remove_then_add acc1 [demo_request] 0 demo_request demo_base demo_disc demo_metas
              demo_args demo_id acc2 it Hr ltac:(lia) eq_refl H2 demo_add_args demo_limits eq_refl)
    as (acc3 & j & H3).
  exists acc1, acc2, acc3, it, j. split; [done|]. split; [by vm_compute|]. by split.
Defined.

Lemma add_item_errors_witness :
  match snd (demo_add demo_acc) with
  | Ok _ => fits_limits demo_metas demo_args ∧ has_room demo_acc [] (item_total demo_disc demo_metas demo_args)
  | Err _ | Panic => False
  end.
Proof.
  assert (queue_inv demo_acc []) as Hinv.
  { destruct demo_fresh as ([|x xs] & Hinv & Heq); [done|]. exfalso.
    pose proof (qi_chain _ _ Hinv) as Hc. apply chain_end in Hc. vm_compute in Hc. congruence. }
  pose proof (add_item_errors demo_acc [] demo_base demo_disc demo_metas demo_args demo_id
                Hinv demo_add_args) as H.
  rewrite demo_add_eq in H |- *. exact H.
Defined.

Lemma queue_operations_safe_witness : safe_op demo_add (replicate 200 Byte.xff) ∧
  safe_op (remove_item 3) (replicate 200 Byte.xff).
Proof.
  apply (queue_operations_safe (replicate 200 Byte.xff)); [by vm_compute|apply demo_add_args].
Defined.

Lemma scan_terminates_witness :
  scan_loop 1000 visit_collect demo_acc1 (scan_end demo_acc1) [] 0 items_start
    = scan_items visit_collect demo_acc1 [] ∧
  96 * fst (scan_items count_visit demo_acc1 0) ≤ Z.max 0 (zlen demo_acc1 - 16).
Proof. apply (scan_terminates visit_collect demo_acc1 []). vm_compute. lia. Defined.

Lemma expired_accurate_witness :
  Z.abs (age_secs demo_base (created_at_from 250) - (250 - 121)) < 4 ∧
  (250 - 121 ≤ QUEUE_TTL_SECONDS → expired (created_at_from 250) demo_base = false) ∧
  (QUEUE_TTL_SECONDS + 7 ≤ 250 - 121 → expired (created_at_from 250) demo_base = true).
Proof. apply (expired_accurate demo_base 121 250); [lia|lia|by vm_compute]. Defined.

Lemma purge_spec_witness :
  ∃ acc' (its : list QueueItem), remove_items_matching (expired 70) (λ n _, n + 1) demo_acc1 0
                = (acc', foldl (λ n _, n + 1) 0 its) ∧
    represents acc' [] ∧ zlen [demo_request] = len acc' + zlen its.
Proof.
  destruct (purge_spec demo_acc1 [demo_request] 70 0 (λ n _, n + 1) demo_represents)
    as (acc' & its & H1 & H2 & _ & H4).
  assert (filter (λ r, negb (request_expired 70 r)) [demo_request] = []) as Hf by by vm_compute.
  rewrite Hf in H2. exists acc', its. split; [exact H1|]. split; [exact H2|exact H4].
Defined.
