(* ===== verification/QueueMark.v ===== *)
(** * The oracle queue: a used queue stays marked

    Delegation is only allowed for a queue that has never been used, and the
    handler decides that from the bytes: any non-zero byte behind the header
    counts as use.  The first item of a queue always starts at the same
    offset, so the byte of its discriminator offset is a mark that no
    operation ever clears. *)

From coqutil Require Import Word.LittleEndianList.
From S2P Require Import Prelude Pod Api QueueLayout QueueAccount QueueInv QueueScan QueueAdd QueueRemove QueueSpec QueueTheorems.

(** The low byte of the discriminator offset of an item at offset 16 is 112. *)
Definition marked (acc : list byte) : Prop := slice acc 88 89 = [byte.of_Z 112].

Lemma disc_offset_byte it :
  pod_wf it → slice (bytes_of it) 72 76 = le_split 4 (callback_discriminator_offset it).
Proof.
  intros Hwf. pose proof Hwf as Hw. rewrite QueueItem_wf_iff in Hw. destruct_and!.
  assert (bytes_of it =
    (le_split 8 (slot it) ++ item_id it ++ callback_program_id it) ++
    le_split 4 (callback_discriminator_offset it) ++
    (le_split 4 (metas_offset it) ++ le_split 4 (args_offset it) ++
     le_split 2 (callback_discriminator_len it) ++ le_split 2 (metas_len it) ++
     le_split 2 (args_len it) ++ le_split 1 (priority_request it) ++ le_split 1 (used it) ++
     le_split 1 (identity_mode it) ++ le_split 1 (identity_bump it) ++ le_split 2 (created_at it))) as ->.
  { destruct it. unfold bytes_of, pod_codec, QueueItem_pod. cbn [c_enc struct_codec pair_codec le_codec array_codec].
    by rewrite <- !app_assoc. }
  assert (∀ n z, zlen (le_split n z) = Z.of_nat n) as Hls by (intros; unfold zlen; by rewrite length_le_split).
  assert (zlen (le_split 8 (slot it) ++ item_id it ++ callback_program_id it) = 72) as Hpre.
  { rewrite !zlen_app, Hls. lia. }
  rewrite slice_app_r, Hpre, slice_app_l by (rewrite ?Hls; lia).
  change (76 - 72) with (Z.of_nat 4). rewrite <- (Hls 4%nat (callback_discriminator_offset it)).
  apply slice_all.
Qed.

Lemma first_entry_marked acc lim x : entry_at acc lim 16 x → marked acc.
Proof.
  intros [_ Hwf Hit _ Hd _ _]. unfold marked.
  pose proof (disc_offset_byte _ Hwf) as Hb. rewrite <- Hit, Hd, slice_slice in Hb by lia.
  change (16 + 72) with 88 in Hb. change (16 + 76) with 92 in Hb.
  rewrite <- (Z.add_0_r 88) at 1. change 89 with (88 + 1). rewrite <- (slice_slice acc 88 92 0 1) by lia.
  by rewrite Hb.
Qed.

Lemma weak_marked acc xs : queue_weak acc xs → xs ≠ [] → marked acc.
Proof.
  intros Hw Hne. destruct xs as [|x xs]; [done|]. pose proof (qw_chain _ _ Hw) as [Hx _].
  by eapply first_entry_marked.
Qed.

Lemma leaves_marked acc xs : leaves acc xs → xs ≠ [] → marked acc.
Proof.
  intros (acc0 & Hw & Hs) Hne. unfold marked. rewrite Hs by lia. by eapply weak_marked.
Qed.

Lemma represents_marked acc rs : represents acc rs → rs ≠ [] → marked acc.
Proof.
  intros (xs & Hinv & ->) Hne. apply (weak_marked acc xs); [by apply queue_inv_weak|].
  intros ->. by apply Hne.
Qed.

(** No call clears the mark. *)
Lemma run_call_marked c acc rs acc' r :
  represents acc rs → valid_call c → run_call c acc = (acc', r) → marked acc → marked acc'.
Proof.
  intros Hrep Hv Hrun Hmark. destruct c as [base disc metas args idf|i|now|p]; cbn [run_call valid_call] in *.
  - pose proof (represents_add Hv (args:=args) acc rs Hrep) as Ha. rewrite Hrun in Ha.
    destruct r as [i|e|]; [|by destruct Ha as [-> _]|done].
    destruct Ha as (_ & _ & _ & pos & _ & _ & _ & Hr). eapply represents_marked; [exact Hr|].
    unfold insert_at. intros Hn. by apply app_eq_nil in Hn as [_ ?].
  - destruct Hrep as (xs & Hinv & ->). unfold mbind, queue_op_bind, mret, queue_op_ret in Hrun.
    destruct (live xs !! Z.to_nat i) as [x|] eqn:Hl.
    + destruct (remove_item_Ok Hinv i x Hv Hl) as (acc1 & xs1 & xs2 & _ & _ & _ & Hrm & _ & _ & _ & Hlv).
      rewrite Hrm in Hrun. injection Hrun as <- _. eapply leaves_marked; [exact Hlv|].
      intros Hn. by apply app_eq_nil in Hn as [_ ?].
    + rewrite (remove_item_Err Hinv i Hv Hl) in Hrun. by injection Hrun as <- _.
  - destruct Hrep as (xs & Hinv & ->).
    destruct (remove_items_matching_Ok (expired now) (λ n _, n + 1) acc xs 0 Hinv)
      as (acc1 & Hrm & _ & _ & Hlv). rewrite Hrm in Hrun. injection Hrun as <- _.
    destruct xs as [|x xs]; [|by eapply leaves_marked].
    destruct Hlv as (acc2 & _ & _). pose proof (qi_chain _ _ Hinv) as Hc. cbn in Hc.
    unfold remove_items_matching in Hrm.
    pose proof (qi_len _ _ Hinv). pose proof (qi_cursor _ _ Hinv).
    pose proof (align_up_bounds (cursor (header acc))).
    assert (cursor (header acc) = 16) as Hc16 by lia.
    unfold scan_end in Hrm. rewrite Z.min_r, Hc16, items_start_eq in Hrm by lia.
    destruct (Z.to_nat (zlen acc)) as [|f]; cbn [remove_loop] in Hrm; rewrite ?size_of_QueueItem in Hrm.
    2: change (16 + 96 <=? 16) with false in Hrm.
    all: cbv beta iota zeta in Hrm; apply (f_equal fst) in Hrm; cbn [fst] in Hrm; rewrite <- Hrm.
    all: unfold shrink_cursor; by rewrite Hc16.
  - destruct (represents_bounds Hrep) as [? _]. injection Hrun as <- _. unfold marked.
    by rewrite (hu_slice _ _ _ (set_paused_update p acc ltac:(lia) Hv)) by lia.
Qed.

Lemma run_calls_marked cs acc rs acc' out :
  represents acc rs → Forall valid_call cs → run_calls cs acc = (acc', out) → marked acc → marked acc'.
Proof.
  revert acc rs out. induction cs as [|c cs IH]; intros acc rs out Hrep Hv; cbn [run_calls].
  - by intros [= <- _].
  - apply Forall_cons in Hv as [Hc Hcs].
    destruct (run_call c acc) as [acc1 r] eqn:H1. destruct (run_calls cs acc1) as [acc2 o] eqn:H2.
    intros [= <- _] Hm. destruct (run_call_refines _ _ _ _ _ Hrep Hc H1) as (rs1 & _ & Hrep1 & _).
    eapply IH; [exact Hrep1|done|exact H2|]. exact (run_call_marked c acc rs acc1 r Hrep Hc H1 Hm).
Qed.

(** The test of [process_delegate_oracle_queue] on the variable region. *)
Definition region_used (d : list byte) : bool :=
  existsb (λ b, negb (bool_decide (b = Byte.x00))) (slice d 20 (zlen d)).

Lemma marked_region_used acc : 89 ≤ zlen acc → marked acc → region_used (discriminator_to_bytes DQueue ++ acc) = true.
Proof.
  intros Hl Hm. unfold region_used. apply existsb_exists. exists (byte.of_Z 112). split; [|by vm_compute].
  rewrite slice_app_r, zlen_app, zlen_discriminator, Z.add_simpl_l by (rewrite zlen_discriminator; lia).
  rewrite (slice_split acc (20 - 8) 88), (slice_split acc 88 89) by lia. rewrite Hm.
  apply in_app_iff. right. left. done.
Qed.

Lemma represents_zlen acc rs : represents acc rs → rs ≠ [] → 105 ≤ zlen acc.
Proof.
  intros Hrep Hne. destruct (represents_bounds Hrep) as [_ Hb]. destruct rs as [|r rs]; [done|].
  rewrite zlen_cons in Hb. pose proof (zlen_nonneg rs). lia.
Qed.

(** C37. A queue that ever stored a request is recognised as used for good:
    once one addition succeeded, no sequence of removals, purges, pauses and
    further additions makes the bytes behind the header all zero again, even
    when the queue is empty. *)
Theorem used_queue_recognised (n : Z) cs1 base disc metas args idf cs2 acc0 acc1 acc2 acc3 out1 out2 i :
  16 ≤ n ≤ 2 ^ 32 - 8 → load (discriminator_to_bytes DQueue ++ zeros n) = Ok acc0 →
  Forall valid_call (cs1 ++ CallAdd base disc metas args idf :: cs2) →
  run_calls cs1 acc0 = (acc1, out1) →
  add_item_with_id base disc metas args idf acc1 = (acc2, Ok i) →
  run_calls cs2 acc2 = (acc3, out2) →
  region_used (discriminator_to_bytes DQueue ++ acc3) = true.
Proof.
  intros Hn Hload Hv H1 Hadd H2. rewrite load_fresh in Hload by done. injection Hload as <-.
  apply Forall_app in Hv as [Hv1 [Hva Hv2]%Forall_cons].
  destruct (represents_fresh n Hn) as (Hrep0 & _ & Hl0).
  destruct (run_calls_refines _ _ _ _ _ Hrep0 Hv1 H1) as (rs1 & _ & Hrep1 & Hl1).
  pose proof (represents_add Hva (args:=args) acc1 rs1 Hrep1) as Ha. rewrite Hadd in Ha.
  destruct Ha as (_ & _ & Hf & pos & _ & _ & _ & Hrep2).
  assert (insert_at i (new_request base pos (idf pos) disc metas args) rs1 ≠ []) as Hne.
  { unfold insert_at. intros Hnil. by apply app_eq_nil in Hnil as [_ ?]. }
  pose proof (represents_marked _ _ Hrep2 Hne) as Hm. pose proof (represents_zlen _ _ Hrep2 Hne).
  destruct (run_calls_refines _ _ _ _ _ Hrep2 Hv2 H2) as (rs3 & _ & _ & Hl3).
  apply marked_region_used; [lia|]. eapply run_calls_marked; eauto.
Qed.

Lemma used_queue_recognised_witness :
  region_used (discriminator_to_bytes DQueue ++ fst (run_calls [CallRemove 0; CallPurge 3] demo_acc1)) = true.
Proof.
  apply (used_queue_recognised 400 [] demo_base demo_disc demo_metas demo_args demo_id
           [CallRemove 0; CallPurge 3] demo_acc demo_acc demo_acc1
           (fst (run_calls [CallRemove 0; CallPurge 3] demo_acc1)) []
           (snd (run_calls [CallRemove 0; CallPurge 3] demo_acc1)) 0).
  - lia.
  - apply load_fresh. lia.
  - constructor; [apply demo_add_args|]. constructor; [simpl; lia|]. by constructor.
  - done.
  - apply demo_add_eq.
  - by destruct (run_calls _ demo_acc1).
Defined.
