(* ===== verification/QueueTiny.v ===== *)
(** * Queue accounts without room

    [initialize_oracle_queue] has no lower bound on the size it is asked for.
    From 20 to 23 bytes of account data the header fits but the start of the
    items, at offset 16 behind the discriminator, lies beyond the end. Such a
    queue is a dead end, not a hazard: no operation finds, adds or removes
    anything in it, and none panics. *)

From S2P Require Import Prelude Pod Api QueueLayout QueueAccount QueueInv QueueSpec.

Record tiny (acc : list byte) : Prop := {
  tiny_len : 12 ≤ zlen acc < 16;
  tiny_count : item_count (header acc) = 0;
  tiny_cursor : cursor (header acc) = 16;
}.

Section Tiny.
Context {acc : list byte} (Ht : tiny acc).

Lemma tiny_load : load (discriminator_to_bytes DQueue ++ acc) = Ok acc.
Proof. destruct Ht. rewrite load_app by lia. by destruct (Z.eqb_spec (cursor (header acc)) 0); [lia|]. Qed.

Lemma tiny_end : (items_start + size_of QueueItem <=? scan_end acc) = false.
Proof. destruct Ht. apply Z.leb_gt. unfold scan_end. change (items_start + size_of QueueItem) with 112. lia. Qed.

Lemma tiny_scan {S R} (visit : S → Z → Z → Z → QueueItem → S * option R) s : scan_items visit acc s = (s, None).
Proof. unfold scan_items. destruct (Z.to_nat (zlen acc)); [done|]. cbn [scan_loop]. by rewrite tiny_end. Qed.

Lemma tiny_find i : find_item_by_id i acc = None.
Proof. unfold find_item_by_id. by rewrite tiny_scan. Qed.

Lemma tiny_shrink : shrink_cursor items_start acc = acc.
Proof. destruct Ht as [_ _ Hc]. unfold shrink_cursor. rewrite Hc. by change (as_u32 items_start <? 16) with false. Qed.

Lemma tiny_purge {S} pred (f : S → QueueItem → S) s : remove_items_matching pred f acc s = (acc, s).
Proof.
  unfold remove_items_matching. destruct (Z.to_nat (zlen acc)); cbn [remove_loop];
    rewrite ?tiny_end; by rewrite tiny_shrink.
Qed.

Lemma tiny_add base disc metas args idf acc' n :
  add_item_with_id base disc metas args idf acc ≠ (acc', Ok n).
Proof.
  unfold add_item_with_id, mbind, queue_op_bind, q_lift, q_get, q_modify.
  destruct (item_layout disc metas args) as [[total span]|e|] eqn:Hl; [|done|done].
  assert (0 ≤ total) as Htot.
  { unfold item_layout in Hl. destruct (_ || _); [done|]. injection Hl as <- _.
    pose proof (zlen_nonneg disc). pose proof (zlen_nonneg metas). pose proof (zlen_nonneg args).
    unfold saturating_add. rewrite size_of_CompactAccountMeta.
    change (size_of QueueItem) with 96. lia. }
  unfold scan_for_reusable_span. rewrite tiny_scan. cbn [fst last_used_end_aligned reusable_span].
  rewrite tiny_shrink. unfold append_item, mbind, queue_op_bind, q_lift, q_get.
  destruct Ht as [Hlen _ Hc]. rewrite Hc. change (align_up 16) with 16. cbn [total_needed].
  assert ((saturating_add 64 16 total <=? zlen acc) = false) as ->; [|done].
  apply Z.leb_gt. unfold saturating_add. lia.
Qed.

Lemma tiny_set_paused p : fits 8 p → tiny (set_paused p acc).
Proof.
  intros Hp. destruct Ht as [Hl Hn Hc]. pose proof (set_paused_update p acc ltac:(lia) Hp) as Hu.
  split; rewrite ?(hu_header _ _ _ Hu), ?(hu_len _ _ _ Hu); done.
Qed.
End Tiny.

Lemma tiny_fresh n i : 12 ≤ n < 16 → fits 8 i →
  tiny (set_index i (set_cursor 16 (zeros n))) ∧ queue_index (header (set_index i (set_cursor 16 (zeros n)))) = i.
Proof.
  intros Hn Hi. assert (zlen (zeros n) = n) as Hl by (apply zlen_replicate; lia).
  destruct (set_cursor_update 16 (zeros n)) as [Hh Hl' _]; [lia|fits_lia|].
  rewrite header_zeros in Hh by lia.
  pose proof (set_index_update i (set_cursor 16 (zeros n)) ltac:(lia) Hi) as Hu.
  split; [split|]; rewrite ?(hu_header _ _ _ Hu), ?(hu_len _ _ _ Hu), ?Hh; [lia|done..].
Qed.
