(* ===== verification/Solana.v ===== *)
(** * Accounts, the runtime and account validation

    The accounts a Solana program works on, the state-and-error monad of the
    handlers, the interface to the code outside the repository (the runtime
    and the cryptographic syscalls), and [api/src/steel.rs]. *)

From S2P Require Import Prelude Pod Api QueueLayout.

(** ** Accounts *)

Record Account : Type := mkAccount {
  a_lamports : Z;
  a_data : list byte;
  a_owner : list byte;
  a_executable : bool;
}.

(** The accounts by public key. An [AccountInfo] points into this store: two
    infos with the same key share their lamports and data, as on chain. *)
Abbreviation Store := (gmap (list byte) Account).

Record AccountInfo : Type := mkInfo {
  key : list byte;
  info_is_signer : bool;
  info_is_writable : bool;
}.

Record Instruction : Type := mkInstruction {
  ix_program_id : list byte;
  ix_accounts : list AccountMeta;
  ix_data : list byte;
}.

Record Clock : Type := mkClock { clock_slot : Z; clock_unix_timestamp : Z }.

(** An account that does not exist reads as an empty account of the system
    program. *)
Definition no_account : Account := mkAccount 0 [] system_program_ID false.
Definition get_account (σ : Store) (k : list byte) : Account := default no_account (σ !! k).

(** ** Code outside the repository

    The runtime, the sysvars of the transaction, the cryptographic syscalls
    and the SDK functions the program calls. Nothing is assumed of them here:
    a theorem that needs their documented behaviour names it. *)
Class Runtime : Type := {
  find_program_address : list (list byte) → list byte → list byte * Z;
  create_program_address : list (list byte) → list byte → option (list byte);
  hashv : list (list byte) → list byte;
  hash : list byte → list byte;
  (** [Clock::get()] and [Rent::get()], the latter as [minimum_balance] *)
  clock_get : res Clock;
  rent_get : res (Z → Z);
  (** [Rent::default().minimum_balance] *)
  rent_default_minimum_balance : Z → Z;
  (** [AccountInfo::resize] and [AccountInfo::assign] *)
  account_resize : AccountInfo → Z → Store → outcome ProgramError Store;
  account_assign : AccountInfo → list byte → Store → Store;
  (** cross-program invocation; no signer seeds for [invoke] *)
  invoke_signed : Instruction → list AccountInfo → list (list (list byte)) → Store →
                  outcome ProgramError Store;
  system_create_account : list byte → list byte → Z → Z → list byte → Instruction;
  system_transfer : list byte → list byte → Z → Instruction;
  system_allocate : list byte → Z → Instruction;
  system_assign : list byte → list byte → Instruction;
  (** [delegate_account_with_any_validator]: the accounts, the seeds of the
      delegated account, the commit frequency and the validator *)
  delegate_account : list AccountInfo → list (list byte) → Z → option (list byte) → Store →
                     outcome ProgramError Store;
  (** bincode of [UpgradeableLoaderState]: nothing when it does not parse,
      [Some None] for the variants other than [ProgramData] *)
  deserialize_loader_state : list byte → option (option (option (list byte)));
  (** curve syscalls: compressed points and scalars are 32 bytes *)
  validate_edwards : list byte → bool;
  validate_ristretto : list byte → bool;
  multiply_ristretto : list byte → list byte → option (list byte);
  add_ristretto : list byte → list byte → option (list byte);
  (** [Scalar::from_bytes_mod_order(_).to_bytes()] *)
  scalar_from_bytes_mod_order : list byte → list byte;
}.

Definition bpf_loader_upgradeable_ID : list byte :=
  pubkey "BPFLoaderUpgradeab1e11111111111111111111111".
Definition sysvar_ID : list byte := pubkey "Sysvar1111111111111111111111111111111111111".
Definition slot_hashes_ID : list byte := pubkey "SysvarS1otHashes111111111111111111111111111".

(** ** The monad of the handlers

    A handler changes the accounts and may fail; when it fails the runtime
    throws its changes away, so the state of a failed run is not kept. *)

Definition M (A : Type) : Type := Store → outcome ProgramError (A * Store).

#[global] Instance M_ret : MRet M := λ A a σ, Ok (a, σ).
#[global] Instance M_bind : MBind M := λ A B f m σ,
  match m σ with
  | Ok (a, σ') => f a σ'
  | Err e => Err e
  | Panic => Panic
  end.

Definition lift {A} (r : res A) : M A := λ σ, (λ a, (a, σ)) <$> r.
Definition fail {A} (e : ProgramError) : M A := λ _, Err e.
Definition panic {A} : M A := λ _, Panic.
Definition run_store (f : Store → outcome ProgramError Store) : M unit := λ σ, (λ σ', ((), σ')) <$> f σ.
Definition require (c : bool) (e : ProgramError) : M unit := lift (ensure c e).

Definition account (k : list byte) : M Account := λ σ, Ok (get_account σ k, σ).
Definition set_account (k : list byte) (a : Account) : M unit := λ σ, Ok ((), <[k := a]> σ).

Definition with_lamports (a : Account) (n : Z) : Account :=
  mkAccount n (a_data a) (a_owner a) (a_executable a).
Definition with_data (a : Account) (d : list byte) : Account :=
  mkAccount (a_lamports a) d (a_owner a) (a_executable a).

Definition lamports (i : AccountInfo) : M Z := a ← account (key i); mret (a_lamports a).
Definition data (i : AccountInfo) : M (list byte) := a ← account (key i); mret (a_data a).
Definition set_lamports (i : AccountInfo) (n : Z) : M unit :=
  a ← account (key i); set_account (key i) (with_lamports a n).
Definition set_data (i : AccountInfo) (d : list byte) : M unit :=
  a ← account (key i); set_account (key i) (with_data a d).

(** A [RefCell] borrow that is still held makes a second one of the same
    account fail. *)
Definition not_borrowed (held i : AccountInfo) : M unit :=
  require (negb (bytes_eqb (key held) (key i))) AccountBorrowFailed.

(** ** [AccountInfoValidation] *)

Definition is_signer (i : AccountInfo) : M unit :=
  require (info_is_signer i) MissingRequiredSignature.
Definition is_writable (i : AccountInfo) : M unit :=
  require (info_is_writable i) InvalidAccountData.
Definition account_is_empty (i : AccountInfo) : M unit :=
  d ← data i; require (zlen d =? 0) AccountAlreadyInitialized.
Definition has_address (i : AccountInfo) (address : list byte) : M unit :=
  require (bytes_eqb (key i) address) InvalidAccountData.
Definition has_owner (i : AccountInfo) (owner : list byte) : M unit :=
  a ← account (key i); require (bytes_eqb (a_owner a) owner) InvalidAccountOwner.
Definition is_sysvar (i : AccountInfo) (sysvar_id : list byte) : M unit :=
  has_owner i sysvar_ID;; has_address i sysvar_id.

Section Steel.
Context {rt : Runtime}.

Definition has_seeds (i : AccountInfo) (seeds : list (list byte)) (program_id : list byte) : M unit :=
  require (bytes_eqb (key i) (fst (find_program_address seeds program_id))) InvalidSeeds.

(** ** [AsAccount] *)

(** Account types with a one-byte discriminator. *)
Class Discriminator (T : Type) := discriminator : Z.

(** [AccountDeserialize::try_from_bytes], both variants. *)
Definition try_from_bytes {T} `{Pod T, Discriminator T} (d : list byte) : res T :=
  ensure (8 <=? zlen d) InvalidAccountData;;
  b ← index_range d 0 1;
  ensure (bytes_eqb b [byte.of_Z discriminator]) InvalidAccountData;;
  pod_try_from_bytes InvalidAccountData (slice d 8 (zlen d)).

Definition as_account (T : Type) `{Pod T, Discriminator T} (i : AccountInfo)
    (program_id : list byte) : M T :=
  has_owner i program_id;;
  d ← data i;
  require (zlen d =? 8 + size_of T) InvalidAccountData;;
  lift (try_from_bytes d).

(** [as_account_mut] returns a reference into the account: the handler reads
    the value here and writes it back with [store_account]. *)
Definition as_account_mut (T : Type) `{Pod T, Discriminator T} (i : AccountInfo)
    (program_id : list byte) : M T :=
  has_owner i program_id;;
  is_writable i;;
  d ← data i;
  require (zlen d =? 8 + size_of T) InvalidAccountData;;
  lift (try_from_bytes d).

Definition store_account {T} `{Pod T} (i : AccountInfo) (v : T) : M unit :=
  d ← data i; set_data i (splice d 8 (bytes_of v)).

(** ** Closing and creating accounts *)

(** The lamport sum wraps as in a release build. *)
Definition close_account (account_info recipient : AccountInfo) : M unit :=
  l ← lamports account_info;
  r ← lamports recipient;
  set_lamports recipient (as_u64 (r + l));;
  set_lamports account_info 0;;
  run_store (λ σ, Ok (account_assign account_info system_program_ID σ));;
  run_store (account_resize account_info 0).

Definition invoke (ix : Instruction) (infos : list AccountInfo) : M unit :=
  run_store (invoke_signed ix infos []).

(** The part that [create_program_account] and [create_pda] share: create
    the account, or, when it already holds lamports, fund, allocate and
    assign it. *)
Definition create_account_at (target system_program payer : AccountInfo) (space : Z)
    (owner : list byte) (signer_seeds : list (list byte)) (minimum_balance : Z → Z) : M unit :=
  l ← lamports target;
  if l =? 0 then
    run_store (invoke_signed
      (system_create_account (key payer) (key target) (minimum_balance space) space owner)
      [payer; target; system_program] [signer_seeds])
  else
    let rent_exempt_balance := saturating_sub (minimum_balance space) l in
    (if 0 <? rent_exempt_balance then
       invoke (system_transfer (key payer) (key target) rent_exempt_balance)
         [payer; target; system_program]
     else mret ());;
    run_store (invoke_signed (system_allocate (key target) space) [target; system_program]
                 [signer_seeds]);;
    run_store (invoke_signed (system_assign (key target) owner) [target; system_program]
                 [signer_seeds]).

Definition create_program_account (T : Type) `{Pod T, Discriminator T}
    (target system_program payer : AccountInfo) (owner : list byte)
    (seeds : list (list byte)) : M unit :=
  let bump := snd (find_program_address seeds owner) in
  let signer_seeds := seeds ++ [[byte.of_Z bump]] in
  let space := 8 + size_of T in
  rent ← lift rent_get;
  create_account_at target system_program payer space owner signer_seeds rent;;
  d ← data target;
  d' ← lift (copy_into d 0 1 [byte.of_Z discriminator]);
  set_data target d'.
End Steel.
