(* ===== verification/Accounts.v ===== *)
(** * Program-derived accounts, loaders and fees

    [api/src/pda.rs], [api/src/loaders.rs], [program/src/fees.rs], the PDA
    helpers of [api/src/state/mod.rs], the oracle account of
    [api/src/state/oracle.rs] and the oracle registry of
    [api/src/state/oracles.rs]. *)

From S2P Require Import Prelude Pod Api QueueLayout QueueAccount Solana.

(** ** The oracle account *)

Record Oracle : Type := mkOracle {
  vrf_pubkey : list byte;      (* PodRistrettoPoint *)
  registration_slot : Z;       (* u64 *)
  open_queues : Z;             (* u64 *)
}.

#[global] Program Instance Oracle_pod : Pod Oracle :=
  struct_codec (array_codec 32 ⊗ u64c ⊗ u64c) (λ '(a, b, c), mkOracle a b c)
    (λ o, (vrf_pubkey o, registration_slot o, open_queues o)) _ _.
Next Obligation. by intros []. Qed.
Next Obligation. by intros [[]]. Qed.

#[global] Instance Oracle_discriminator : Discriminator Oracle := discriminator_tag DOracle.

Lemma size_of_Oracle : size_of Oracle = 48.
Proof. done. Qed.

Lemma Oracle_wf_iff o :
  pod_wf o ↔ zlen (vrf_pubkey o) = 32 ∧ fits 64 (registration_slot o) ∧ fits 64 (open_queues o).
Proof. destruct o. unfold pod_wf. simpl. tauto. Qed.

Definition set_open_queues (o : Oracle) (n : Z) : Oracle :=
  mkOracle (vrf_pubkey o) (registration_slot o) n.

(** ** The oracle registry

    Borsh is a library: its serialisation of [Oracles] (a [Vec<Pubkey>]) is a
    parameter. *)

Class OraclesBorsh : Type := {
  oracles_to_vec : list (list byte) → option (list byte);
  oracles_try_from_slice : list byte → option (list (list byte));
}.

Record Oracles : Type := mkOracles { oracles : list (list byte) }.

Definition Oracles_default : Oracles := mkOracles [].

Definition size_with_discriminator (o : Oracles) : Z :=
  let item_size := 32 in 8 + 4 + item_size * zlen (oracles o).

Section OraclesBytes.
Context {ob : OraclesBorsh}.

Definition to_bytes_with_discriminator (o : Oracles) : res (list byte) :=
  serialized ← ok_or (oracles_to_vec (oracles o)) InvalidAccountData;
  mret (discriminator_to_bytes DOracles ++ serialized).

Definition try_from_bytes_with_discriminator (d : list byte) : res Oracles :=
  ensure (8 <=? zlen d) InvalidAccountData;;
  ensure (bytes_eqb (discriminator_to_bytes DOracles) (slice d 0 8)) InvalidAccountData;;
  l ← ok_or (oracles_try_from_slice (slice d 8 (zlen d))) InvalidAccountData;
  mret (mkOracles l).
End OraclesBytes.

Section Accounts.
Context {rt : Runtime}.

(** ** PDA addresses *)

Definition oracles_pda : list byte * Z := find_program_address [ORACLES] ID.
Definition oracle_data_pda (identity : list byte) : list byte * Z :=
  find_program_address [ORACLE_DATA; identity] ID.
Definition program_identity_pda : list byte * Z :=
  (pubkey "9irBy75QS2BN81FUgXuHcjqceJJRuc9oDkAe8TKVvvAw", 254).
Definition scoped_identity_pda (callback_program_id : list byte) : list byte * Z :=
  find_program_address [IDENTITY; callback_program_id] ID.
Definition oracle_queue_pda (identity : list byte) (index : Z) : list byte * Z :=
  find_program_address [QUEUE; identity; [byte.of_Z index]] ID.

(** ** Creating and resizing *)

Definition create_pda (target : AccountInfo) (space : Z) (pda_seeds : list (list byte))
    (pda_bump : Z) (system_program payer : AccountInfo) : M unit :=
  let owner := ID in
  let pda_signer_seeds := pda_seeds ++ [[byte.of_Z pda_bump]] in
  rent ← lift rent_get;
  create_account_at target system_program payer space owner pda_signer_seeds rent.

Definition resize_pda (payer pda system_program : AccountInfo) (new_size : Z) : M unit :=
  let new_minimum_balance := rent_default_minimum_balance new_size in
  l ← lamports pda;
  let lamports_diff := saturating_sub new_minimum_balance l in
  (if 0 <? lamports_diff then
     invoke (system_transfer (key payer) (key pda) lamports_diff) [payer; pda; system_program]
   else
     let abs_diff := saturating_sub l new_minimum_balance in
     set_lamports pda (l - abs_diff);;
     p ← lamports payer;
     set_lamports payer (as_u64 (p + abs_diff)));;
  run_store (account_resize pda new_size).

(** ** Loaders *)

Definition load_program_upgrade_authority (program : list byte) (program_data : AccountInfo)
    : M (option (list byte)) :=
  let program_data_address := fst (find_program_address [program] bpf_loader_upgradeable_ID) in
  require (bytes_eqb program_data_address (key program_data)) InvalidAccountData;;
  d ← data program_data;
  state ← lift (ok_or (deserialize_loader_state d) InvalidAccountData);
  lift (ok_or state InvalidAccountData).

Definition is_empty_or_zeroed (i : AccountInfo) : M unit :=
  d ← data i;
  require (forallb (λ b, bool_decide (b = Byte.x00)) d) AccountAlreadyInitialized.

(** ** Fees *)

(** The production build, without the [ephemeral-test-queue] feature. *)
Definition is_fee_exempt_ephemeral_queue (queue : list byte) : bool :=
  bytes_eqb queue DEFAULT_EPHEMERAL_QUEUE.

Definition transfer_fee (oracle_queue_info oracle_info : AccountInfo) (amount : Z) : M unit :=
  not_borrowed oracle_queue_info oracle_info;;
  queue_lamports ← lamports oracle_queue_info;
  oracle_lamports ← lamports oracle_info;
  q ← lift (ok_or (checked_sub queue_lamports amount) InsufficientFunds);
  set_lamports oracle_queue_info q;;
  o ← lift (ok_or (checked_add 64 oracle_lamports amount) InvalidArgument);
  set_lamports oracle_info o.

Definition request_cost (priority : bool) : Z :=
  if priority then VRF_HIGH_PRIORITY_LAMPORTS_COST else VRF_LAMPORTS_COST.
End Accounts.
