(* ===== verification/Instructions.v ===== *)
(** * Instructions

    [api/src/instruction.rs] and [api/src/macros.rs]: the instruction tags,
    the argument structs and their encodings, and [parse_instruction8] of
    [program/src/lib.rs]. *)

From S2P Require Import Prelude Pod Api QueueLayout.

Inductive SolanaVrfInstruction : Type :=
| IxInitialize
| IxModifyOracle
| IxInitializeOracleQueue
| IxRequestHighPriorityRandomness
| IxProvideRandomness
| IxDelegateOracleQueue
| IxCloseOracleQueue
| IxRequestRandomness
| IxPurgeExpiredRequests
| IxRequestRandomnessScoped
| IxRequestHighPriorityRandomnessScoped
| IxSetQueuePaused.

#[global] Instance SolanaVrfInstruction_eq_dec : EqDecision SolanaVrfInstruction.
Proof. solve_decision. Defined.

(** The [repr(u8)] tag. *)
Definition ix_tag (ix : SolanaVrfInstruction) : Z :=
  match ix with
  | IxInitialize => 0
  | IxModifyOracle => 1
  | IxInitializeOracleQueue => 2
  | IxRequestHighPriorityRandomness => 3
  | IxProvideRandomness => 4
  | IxDelegateOracleQueue => 5
  | IxCloseOracleQueue => 7
  | IxRequestRandomness => 8
  | IxPurgeExpiredRequests => 9
  | IxRequestRandomnessScoped => 10
  | IxRequestHighPriorityRandomnessScoped => 11
  | IxSetQueuePaused => 12
  end.

(** [TryFromPrimitive] *)
Definition ix_try_from (tag : Z) : option SolanaVrfInstruction :=
  match tag with
  | 0 => Some IxInitialize
  | 1 => Some IxModifyOracle
  | 2 => Some IxInitializeOracleQueue
  | 3 => Some IxRequestHighPriorityRandomness
  | 4 => Some IxProvideRandomness
  | 5 => Some IxDelegateOracleQueue
  | 7 => Some IxCloseOracleQueue
  | 8 => Some IxRequestRandomness
  | 9 => Some IxPurgeExpiredRequests
  | 10 => Some IxRequestRandomnessScoped
  | 11 => Some IxRequestHighPriorityRandomnessScoped
  | 12 => Some IxSetQueuePaused
  | _ => None
  end.

(** ** Argument structs *)

Record ModifyOracle : Type := mkModifyOracle {
  mo_identity : list byte;
  mo_oracle_pubkey : list byte;
  mo_operation : Z;
}.

#[global] Program Instance ModifyOracle_pod : Pod ModifyOracle :=
  struct_codec (array_codec 32 ⊗ array_codec 32 ⊗ u8c) (λ '(a, b, c), mkModifyOracle a b c)
    (λ m, (mo_identity m, mo_oracle_pubkey m, mo_operation m)) _ _.
Next Obligation. by intros []. Qed.
Next Obligation. by intros [[]]. Qed.

Record InitializeOracleQueue : Type := mkInitializeOracleQueue {
  ioq_target_size : Z;
  ioq_index : Z;
  ioq_padding : list byte;
}.

#[global] Program Instance InitializeOracleQueue_pod : Pod InitializeOracleQueue :=
  struct_codec (u32c ⊗ u8c ⊗ array_codec 3) (λ '(a, b, c), mkInitializeOracleQueue a b c)
    (λ m, (ioq_target_size m, ioq_index m, ioq_padding m)) _ _.
Next Obligation. by intros []. Qed.
Next Obligation. by intros [[]]. Qed.

(** [InitializeOracleQueue::new] *)
Definition InitializeOracleQueue_new (index target_size : Z) : InitializeOracleQueue :=
  mkInitializeOracleQueue target_size index (zeros 3).

Record ProvideRandomness : Type := mkProvideRandomness {
  pr_input : list byte;
  pr_output : list byte;
  pr_commitment_base : list byte;
  pr_commitment_hash : list byte;
  pr_scalar : list byte;
}.

#[global] Program Instance ProvideRandomness_pod : Pod ProvideRandomness :=
  struct_codec (array_codec 32 ⊗ array_codec 32 ⊗ array_codec 32 ⊗ array_codec 32 ⊗ array_codec 32)
    (λ '(a, b, c, d, e), mkProvideRandomness a b c d e)
    (λ m, (pr_input m, pr_output m, pr_commitment_base m, pr_commitment_hash m, pr_scalar m)) _ _.
Next Obligation. by intros []. Qed.
Next Obligation. by intros [[[[]]]]. Qed.

(** [DelegateOracleQueue], [CloseOracleQueue] and [PurgeExpiredRequests] hold
    a queue index only. *)
Record QueueIndexArgs : Type := mkQueueIndexArgs { qia_index : Z }.

#[global] Program Instance QueueIndexArgs_pod : Pod QueueIndexArgs :=
  struct_codec u8c mkQueueIndexArgs qia_index _ _.
Next Obligation. by intros []. Qed.
Next Obligation. done. Qed.

Record SetQueuePaused : Type := mkSetQueuePaused { sqp_index : Z; sqp_paused : Z }.

#[global] Program Instance SetQueuePaused_pod : Pod SetQueuePaused :=
  struct_codec (u8c ⊗ u8c) (λ '(a, b), mkSetQueuePaused a b) (λ m, (sqp_index m, sqp_paused m)) _ _.
Next Obligation. by intros []. Qed.
Next Obligation. by intros []. Qed.

(** [RequestRandomness] is in Borsh, a library: its decoder is a parameter. *)
Record RequestRandomness : Type := mkRequestRandomness {
  rr_caller_seed : list byte;
  rr_callback_program_id : list byte;
  rr_callback_discriminator : list byte;
  rr_callback_accounts_metas : list SerializableAccountMeta;
  rr_callback_args : list byte;
}.

Class RequestBorsh : Type := {
  request_to_vec : RequestRandomness → list byte;
  request_deserialize : list byte → option RequestRandomness;
}.

(** A decoded request has values of its Rust types. *)
Definition request_wf (r : RequestRandomness) : Prop :=
  zlen (rr_caller_seed r) = 32 ∧ zlen (rr_callback_program_id r) = 32 ∧
  Forall (λ m, zlen (ser_pubkey m) = 32) (rr_callback_accounts_metas r).

(** An I/O error of Borsh becomes [ProgramError::BorshIoError]. *)
Definition RequestRandomness_try_from_bytes `{RequestBorsh} (bytes : list byte) : res RequestRandomness :=
  ok_or (request_deserialize bytes) BorshIoError.

(** ** [instruction8!] *)

Definition ix_header (ix : SolanaVrfInstruction) : list byte := byte.of_Z (ix_tag ix) :: zeros 7.

Definition ix_to_bytes {A} `{Pod A} (ix : SolanaVrfInstruction) (args : A) : list byte :=
  ix_header ix ++ bytes_of args.

Definition args_try_from_bytes {A} `{Pod A} (d : list byte) : res A :=
  pod_try_from_bytes InvalidInstructionData d.

Definition parse_instruction8 (program_id d : list byte) : res (SolanaVrfInstruction * list byte) :=
  ensure (bytes_eqb program_id ID) IncorrectProgramId;;
  ensure (8 <=? zlen d) InvalidInstructionData;;
  tag ← index_range d 0 1;
  ix ← ok_or (tag !! 0%nat ≫= λ b, ix_try_from (byte.unsigned b)) InvalidInstructionData;
  mret (ix, slice d 8 (zlen d)).

(** ** Round trips *)

Lemma ix_try_from_tag ix : ix_try_from (ix_tag ix) = Some ix.
Proof. by destruct ix. Qed.

Lemma ix_try_from_Some tag ix : ix_try_from tag = Some ix → tag = ix_tag ix.
Proof.
  unfold ix_try_from. intros H. repeat (destruct tag as [|tag|tag]; try discriminate H; try (by injection H as <-)).
  all: repeat (destruct tag as [tag|tag|]; try discriminate H; try (by injection H as <-)).
Qed.

Lemma parse_header ix d : parse_instruction8 ID (ix_header ix ++ d) = Ok (ix, d).
Proof.
  unfold parse_instruction8. rewrite (proj2 (bytes_eqb_eq _ _) eq_refl).
  assert (zlen (ix_header ix) = 8) as Hh by by destruct ix.
  pose proof (zlen_nonneg d). rewrite zlen_app, Hh, (proj2 (Z.leb_le _ _)) by lia. cbn [ensure].
  rewrite index_range_eq by (rewrite ?zlen_app, ?Hh; lia).
  rewrite (slice_app_l _ _ 0 1) by lia. rewrite slice_app_r, Hh, Z.sub_diag, Z.add_simpl_l, slice_all by lia.
  by destruct ix.
Qed.

Lemma args_round_trip {A} `{Pod A} (a : A) : pod_wf a → args_try_from_bytes (bytes_of a) = Ok a.
Proof.
  intros Ha. unfold args_try_from_bytes, pod_try_from_bytes.
  by rewrite zlen_bytes_of, Z.eqb_refl, pod_read_bytes_of.
Qed.
