(* ===== verification/Verify.v ===== *)
(** * On-chain verification of VRF proofs

    [api/src/verify.rs], on compressed points and scalars (32 bytes each),
    over the curve syscalls of the runtime. *)

From coqutil Require Import Word.LittleEndianList.
From S2P Require Import Prelude Pod Api QueueLayout Solana.

Definition HASH_TO_POINT_MAX_ATTEMPTS : nat := 512.

(** [counter.to_le_bytes()] of a [u16]. *)
Definition counter_bytes (counter : Z) : list byte := le_split 2 counter.

Section Verify.
Context {rt : Runtime}.

(** The candidates are tried in order; [attempts] of them are left. *)
Fixpoint hash_to_point_loop (attempts : nat) (counter : Z) (input : list byte) : option (list byte) :=
  match attempts with
  | O => None
  | S attempts' =>
    let candidate := hashv [VRF_PREFIX_HASH_TO_POINT; counter_bytes counter; input] in
    if validate_ristretto candidate then Some candidate
    else hash_to_point_loop attempts' (counter + 1) input
  end.

Definition hash_to_point (input : list byte) : option (list byte) :=
  hash_to_point_loop HASH_TO_POINT_MAX_ATTEMPTS 0 input.

Definition hash_to_scalar (input : list byte) : list byte :=
  let hashed_input := hash (VRF_PREFIX_HASH_TO_SCALAR ++ input) in
  scalar_from_bytes_mod_order hashed_input.

(** The challenge of a transcript. *)
Definition challenge (output commitment_base commitment_hash pk input : list byte) : list byte :=
  let challenge_input :=
    VRF_PREFIX_CHALLENGE ++ output ++ commitment_base ++ commitment_hash ++ pk ++ input in
  hash_to_scalar (hash challenge_input).

Definition verify_vrf (pk input output : list byte) (proof : list byte * list byte * list byte) : bool :=
  let '(commitment_base, commitment_hash, s) := proof in
  match hash_to_point input with
  | None => false
  | Some h =>
    let c := challenge output commitment_base commitment_hash pk input in
    match multiply_ristretto s RISTRETTO_BASEPOINT_POINT with
    | None => false
    | Some lhs_base =>
      match multiply_ristretto c pk with
      | None => false
      | Some rhs_base_r =>
        match add_ristretto commitment_base rhs_base_r with
        | None => false
        | Some rhs_base =>
          match multiply_ristretto s h with
          | None => false
          | Some lhs_hash =>
            match multiply_ristretto c output with
            | None => false
            | Some rhs_hash_r =>
              match add_ristretto commitment_hash rhs_hash_r with
              | None => false
              | Some rhs_hash => bytes_eqb lhs_base rhs_base && bytes_eqb lhs_hash rhs_hash
              end
            end
          end
        end
      end
    end
  end.

Definition is_on_curve (k : list byte) : bool := validate_edwards k.

(** ** What the loop returns *)

Lemma hash_to_point_loop_Some n c input p :
  hash_to_point_loop n c input = Some p →
  ∃ i, (i < n)%nat ∧ validate_ristretto p = true ∧
    p = hashv [VRF_PREFIX_HASH_TO_POINT; counter_bytes (c + Z.of_nat i); input] ∧
    ∀ j, (j < i)%nat → validate_ristretto
      (hashv [VRF_PREFIX_HASH_TO_POINT; counter_bytes (c + Z.of_nat j); input]) = false.
Proof.
  revert c. induction n as [|n IH]; intros c; cbn [hash_to_point_loop]; cbv zeta; [done|].
  destruct (validate_ristretto (hashv [_; counter_bytes c; input])) eqn:Hv.
  - intros H. injection H as H. subst p. exists 0%nat. rewrite Z.add_0_r. split_and!; [lia|done|done|intros j ?; lia].
  - intros (i & Hi & Hp & -> & Hj)%IH. exists (S i). split_and!; [lia|done| |].
    + by replace (c + 1 + Z.of_nat i) with (c + Z.of_nat (S i)) by lia.
    + intros [|j] Hlt; [by rewrite Z.add_0_r|].
      replace (c + Z.of_nat (S j)) with (c + 1 + Z.of_nat j) by lia. apply Hj. lia.
Qed.

Lemma hash_to_point_loop_None n c input :
  hash_to_point_loop n c input = None ↔
  ∀ j, (j < n)%nat → validate_ristretto
    (hashv [VRF_PREFIX_HASH_TO_POINT; counter_bytes (c + Z.of_nat j); input]) = false.
Proof.
  revert c. induction n as [|n IH]; intros c; cbn [hash_to_point_loop]; cbv zeta.
  - split; [intros _ j ?; lia|done].
  - destruct (validate_ristretto (hashv [_; counter_bytes c; input])) eqn:Hv.
    + split; [done|]. intros H. specialize (H 0%nat ltac:(lia)). rewrite Z.add_0_r in H. congruence.
    + rewrite IH. split.
      * intros H [|j] ?; [by rewrite Z.add_0_r|].
        replace (c + Z.of_nat (S j)) with (c + 1 + Z.of_nat j) by lia. apply H. lia.
      * intros H j ?. replace (c + 1 + Z.of_nat j) with (c + Z.of_nat (S j)) by lia. apply H. lia.
Qed.
End Verify.
