(* ===== verification/Handlers.v ===== *)
(** * Instruction handlers

    The handlers of [program/src/]: each [process_*] function in full, in the
    order of the code. Messages ([msg!]) and [trace] only log. *)

From coqutil Require Import Word.LittleEndianList.
From S2P Require Import Prelude Pod Api QueueLayout QueueAccount Solana Accounts Instructions Verify.

Section Handlers.
Context {rt : Runtime} {ob : OraclesBorsh} {rb : RequestBorsh}.

(** Run a queue operation on the queue in account [i] and write the bytes
    back: the view borrows the account data for its whole life. *)
Definition with_queue {A} (i : AccountInfo) (m : queue_op A) : M A :=
  d ← data i;
  acc ← lift (load d);
  let '(acc', r) := m acc in
  set_data i (store_body d acc');;
  lift r.

(** ** [initialize.rs] *)

Definition process_initialize (accounts : list AccountInfo) (_ : list byte) : M unit :=
  match accounts with
  | [signer_info; oracles_info; system_program] =>
    is_signer signer_info;;
    account_is_empty oracles_info;;
    is_writable oracles_info;;
    has_seeds oracles_info [ORACLES] ID;;
    oracles_bytes ← lift (to_bytes_with_discriminator Oracles_default);
    create_pda oracles_info (zlen oracles_bytes) [ORACLES] (snd oracles_pda) system_program
      signer_info;;
    oracles_data ← data oracles_info;
    oracles_data' ← lift (copy_into oracles_data 0 (zlen oracles_data) oracles_bytes);
    set_data oracles_info oracles_data'
  | _ => fail NotEnoughAccountKeys
  end.

(** ** [modify_oracles.rs] *)

(** The branch of operation 0. *)
Definition push_oracle (args : ModifyOracle) (oracle_data_info system_program signer_info : AccountInfo)
    (reg : Oracles) : M Oracles :=
  create_program_account Oracle oracle_data_info system_program signer_info ID
    [ORACLE_DATA; mo_identity args];;
  oracle_data ← as_account_mut Oracle oracle_data_info ID;
  clock ← lift clock_get;
  store_account oracle_data_info
    (mkOracle (mo_oracle_pubkey args) (clock_slot clock) (open_queues oracle_data));;
  mret (mkOracles (oracles reg ++ [mo_identity args])).

(** The branch of operation 1. *)
Definition retain_oracle (args : ModifyOracle) (oracle_data_info signer_info : AccountInfo)
    (reg : Oracles) : M Oracles :=
  oracle_data ← as_account Oracle oracle_data_info ID;
  require (open_queues oracle_data =? 0) (vrf_error QueueNotEmpty);;
  close_account oracle_data_info signer_info;;
  mret (mkOracles (filter (λ oracle, oracle ≠ mo_identity args) (oracles reg))).

(** The end of the handler: the registry account is resized and rewritten. *)
Definition write_registry (signer_info oracles_info system_program : AccountInfo) (reg : Oracles)
    : M unit :=
  resize_pda signer_info oracles_info system_program (size_with_discriminator reg);;
  oracles_bytes ← lift (to_bytes_with_discriminator reg);
  oracles_data ← data oracles_info;
  oracles_data' ← lift (copy_into oracles_data 0 (zlen oracles_data) oracles_bytes);
  set_data oracles_info oracles_data'.

Definition process_modify_oracles (accounts : list AccountInfo) (d : list byte) : M unit :=
  args ← lift (args_try_from_bytes (A:=ModifyOracle) d);
  require (negb (bytes_eqb (mo_identity args) Pubkey_default
                 || bytes_eqb (mo_identity args) system_program_ID
                 || negb (is_on_curve (mo_identity args))))
    (vrf_error InvalidOracleIdentity);;
  require (negb ((mo_operation args =? 0)
                 && (bytes_eqb (mo_oracle_pubkey args) (zeros 32)
                     || negb (validate_ristretto (mo_oracle_pubkey args)))))
    (vrf_error InvalidOracleIdentity);;
  match accounts with
  | [signer_info; oracles_info; oracle_data_info; program_data_info; system_program] =>
    is_signer signer_info;;
    authority ← load_program_upgrade_authority ID program_data_info;
    admin_pubkey ← lift (ok_or authority (vrf_error Unauthorized));
    require (bytes_eqb (key signer_info) admin_pubkey) (vrf_error Unauthorized);;
    is_writable oracles_info;;
    has_seeds oracles_info [ORACLES] ID;;
    is_writable oracle_data_info;;
    has_seeds oracle_data_info [ORACLE_DATA; mo_identity args] ID;;
    oracles_data ← data oracles_info;
    reg ← lift (try_from_bytes_with_discriminator oracles_data);
    reg' ←
      (if mo_operation args =? 0 then
         push_oracle args oracle_data_info system_program signer_info reg
       else if mo_operation args =? 1 then
         retain_oracle args oracle_data_info signer_info reg
       else fail InvalidArgument);
    write_registry signer_info oracles_info system_program reg'
  | _ => fail NotEnoughAccountKeys
  end.

(** ** [initialize_oracle_queue.rs] *)

Definition MAX_EXTRA_BYTES : Z := 10240.

(** Create the PDA with [size] bytes, or resize it when the program owns it already. *)
Definition create_or_resize (oracle_queue_info signer_info system_program : AccountInfo)
    (size : Z) (seeds : list (list byte)) (bump : Z) : M unit :=
  a ← account (key oracle_queue_info);
  if negb (bytes_eqb (a_owner a) ID)
  then create_pda oracle_queue_info size seeds bump system_program signer_info
  else resize_pda signer_info oracle_queue_info system_program size.

(** Write the discriminator and the header through the zero-copy view. *)
Definition init_queue_header (oracle_queue_info : AccountInfo) (index : Z) : M unit :=
  d ← data oracle_queue_info;
  d' ← lift (copy_into d 0 8 (discriminator_to_bytes DQueue));
  acc ← lift (load d');
  set_data oracle_queue_info (store_body d' (set_index index acc)).

Definition process_initialize_oracle_queue (accounts : list AccountInfo) (d : list byte) : M unit :=
  args ← lift (args_try_from_bytes (A:=InitializeOracleQueue) d);
  match accounts with
  | [signer_info; oracle_info; oracle_data_info; oracle_queue_info; system_program] =>
    is_signer signer_info;;
    is_signer oracle_info;;
    let index := byte.of_Z (ioq_index args) in
    let seeds := [QUEUE; key oracle_info; [index]] in
    has_seeds oracle_data_info [ORACLE_DATA; key oracle_info] ID;;
    is_writable oracle_queue_info;;
    has_seeds oracle_queue_info seeds ID;;
    is_empty_or_zeroed oracle_queue_info;;
    let bump := snd (find_program_address seeds ID) in
    let target_size := ioq_target_size args in
    require (target_size <=? MAX_QUEUE_ACCOUNT_SIZE) (vrf_error QueueSizeTooLarge);;
    queue_data ← data oracle_queue_info;
    let current_size := zlen queue_data in
    let extra_bytes := saturating_sub target_size current_size in
    if MAX_EXTRA_BYTES <? extra_bytes then
      create_or_resize oracle_queue_info signer_info system_program
        (current_size + MAX_EXTRA_BYTES) seeds bump
    else
      create_or_resize oracle_queue_info signer_info system_program target_size seeds bump;;
      init_queue_header oracle_queue_info (ioq_index args);;
      oracle_data ← as_account_mut Oracle oracle_data_info ID;
      store_account oracle_data_info
        (set_open_queues oracle_data (saturating_add 64 (open_queues oracle_data) 1))
  | _ => fail NotEnoughAccountKeys
  end.

(** ** [set_queue_paused.rs] *)

Definition process_set_queue_paused (accounts : list AccountInfo) (d : list byte) : M unit :=
  args ← lift (args_try_from_bytes (A:=SetQueuePaused) d);
  require (sqp_paused args <=? 1) InvalidInstructionData;;
  match accounts with
  | [oracle_info; oracle_queue_info] =>
    is_signer oracle_info;;
    is_writable oracle_queue_info;;
    has_owner oracle_queue_info ID;;
    has_seeds oracle_queue_info [QUEUE; key oracle_info; [byte.of_Z (sqp_index args)]] ID;;
    qd ← data oracle_queue_info;
    lift (Queue_try_from_bytes qd);;
    with_queue oracle_queue_info (q_modify (set_paused (sqp_paused args)))
  | _ => fail NotEnoughAccountKeys
  end.

(** ** [close_oracle_queue.rs] *)

Definition process_close_oracle_queue (accounts : list AccountInfo) (d : list byte) : M unit :=
  args ← lift (args_try_from_bytes (A:=QueueIndexArgs) d);
  match accounts with
  | [oracle_info; oracle_data_info; oracle_queue_info] =>
    is_signer oracle_info;;
    is_writable oracle_data_info;;
    has_owner oracle_data_info ID;;
    has_seeds oracle_data_info [ORACLE_DATA; key oracle_info] ID;;
    is_writable oracle_queue_info;;
    has_owner oracle_queue_info ID;;
    has_seeds oracle_queue_info [QUEUE; key oracle_info; [byte.of_Z (qia_index args)]] ID;;
    qd ← data oracle_queue_info;
    lift (Queue_try_from_bytes qd);;
    empty ← with_queue oracle_queue_info (acc ← q_get; mret (is_empty acc));
    require empty (vrf_error QueueNotEmpty);;
    oracle_data ← as_account_mut Oracle oracle_data_info ID;
    store_account oracle_data_info
      (set_open_queues oracle_data (saturating_sub (open_queues oracle_data) 1));;
    (* [oracle_data_mut] is still borrowed when [close_account] resizes the queue *)
    not_borrowed oracle_data_info oracle_queue_info;;
    close_account oracle_queue_info oracle_info
  | _ => fail NotEnoughAccountKeys
  end.

(** ** [request_randomness.rs] *)

(** What the id of a request at position [idx] hashes; [time] is an [i64]. *)
Definition combined_hash_input (args : RequestRandomness) (slot : Z) (slothash : list byte)
    (time idx : Z) : list (list byte) :=
  [rr_caller_seed args; le_split 8 slot; slothash; rr_callback_discriminator args;
   rr_callback_program_id args; le_split 8 (as_u64 time); le_split 4 idx].

(** The id of a request: the input the oracle's proof is for. *)
Definition combined_hash (args : RequestRandomness) (slot : Z) (slothash : list byte) (time idx : Z)
    : list byte :=
  hashv (combined_hash_input args slot slothash time idx).

Definition request_base_item (args : RequestRandomness) (slot time : Z)
    (high_priority scoped : bool) (identity_bump : Z) : QueueItem :=
  mkQueueItem slot (zeros 32) (rr_callback_program_id args) 0 0 0 0 0 0
    (bool_as_u8 high_priority) 1 (bool_as_u8 scoped) identity_bump (created_at_from time).

(** What the handler does with the queue view. *)
Definition request_queue_step (args : RequestRandomness) (slot : Z) (slothash : list byte)
    (time : Z) (high_priority scoped : bool) (identity_bump : Z) : queue_op unit :=
  acc ← q_get;
  q_lift (ensure (paused (header acc) =? 0) (vrf_error QueuePaused));;
  q_lift (ensure (zlen (rr_callback_discriminator args) <=? 8) (vrf_error ArgumentSizeTooLarge));;
  let metas := compact_meta <$> rr_callback_accounts_metas args in
  add_item_with_id (request_base_item args slot time high_priority scoped identity_bump)
    (rr_callback_discriminator args) metas (rr_callback_args args)
    (combined_hash args slot slothash time);;
  mret ().

Definition process_request_randomness (accounts : list AccountInfo) (d : list byte)
    (high_priority scoped : bool) : M unit :=
  args ← lift (RequestRandomness_try_from_bytes d);
  let identity_bump :=
    if scoped then snd (scoped_identity_pda (rr_callback_program_id args)) else 0 in
  match accounts with
  | [signer_info; program_identity_info; oracle_queue_info; system_program_info; slothashes_info] =>
    is_signer signer_info;;
    has_seeds program_identity_info [IDENTITY] (rr_callback_program_id args);;
    is_signer program_identity_info;;
    is_writable oracle_queue_info;;
    has_owner oracle_queue_info ID;;
    is_sysvar slothashes_info slot_hashes_ID;;
    sh ← data slothashes_info;
    slothash ← lift (index_range sh 16 48);
    clock ← lift clock_get;
    qd ← data oracle_queue_info;
    lift (Queue_try_from_bytes qd);;
    with_queue oracle_queue_info
      (request_queue_step args (clock_slot clock) slothash (clock_unix_timestamp clock)
         high_priority scoped identity_bump);;
    if negb (is_fee_exempt_ephemeral_queue (key oracle_queue_info)) then
      invoke (system_transfer (key signer_info) (key oracle_queue_info) (request_cost high_priority))
        [signer_info; oracle_queue_info; system_program_info]
    else mret ()
  | _ => fail NotEnoughAccountKeys
  end.

(** ** [purge_expired_requests.rs] *)

Definition item_cost (item : QueueItem) : Z := request_cost (priority_request item =? 1).

Definition item_expired (now_stamp : Z) (item : QueueItem) : bool :=
  QUEUE_TTL_SECONDS <? age_secs item now_stamp.

Definition add_cost (total_cost : Z) (item : QueueItem) : Z :=
  saturating_add 64 total_cost (item_cost item).

Definition process_purge_expired_requests (accounts : list AccountInfo) (d : list byte) : M unit :=
  args ← lift (args_try_from_bytes (A:=QueueIndexArgs) d);
  match accounts with
  | [oracle_info; oracle_queue_info] =>
    is_writable oracle_queue_info;;
    has_owner oracle_queue_info ID;;
    has_seeds oracle_queue_info [QUEUE; key oracle_info; [byte.of_Z (qia_index args)]] ID;;
    clock ← lift clock_get;
    let now_stamp := created_at_from (clock_unix_timestamp clock) in
    qd ← data oracle_queue_info;
    lift (Queue_try_from_bytes qd);;
    total_cost ← with_queue oracle_queue_info (λ acc,
      let '(acc', total) := remove_items_matching (item_expired now_stamp) add_cost acc 0 in
      (acc', Ok total));
    if (0 <? total_cost) && negb (is_fee_exempt_ephemeral_queue (key oracle_queue_info)) then
      transfer_fee oracle_queue_info oracle_info total_cost
    else mret ()
  | _ => fail NotEnoughAccountKeys
  end.

(** ** [delegate_oracle_queue.rs] *)

Definition process_delegate_oracle_queue (accounts : list AccountInfo) (d : list byte) : M unit :=
  args ← lift (args_try_from_bytes (A:=QueueIndexArgs) d);
  match accounts with
  | [authority_info; oracle_queue_info; buffer; delegation_record; delegation_metadata;
     delegation_program; owner_program; system_program] =>
    is_signer authority_info;;
    has_address owner_program ID;;
    let pda_seeds := [QUEUE; key authority_info; [byte.of_Z (qia_index args)]] in
    is_writable oracle_queue_info;;
    has_owner oracle_queue_info ID;;
    has_seeds oracle_queue_info pda_seeds ID;;
    qd ← data oracle_queue_info;
    queue ← lift (Queue_try_from_bytes qd);
    let variable_region_start := 8 + size_of Queue in
    require (negb (negb (item_count queue =? 0)
                   || existsb (λ b, negb (bool_decide (b = Byte.x00)))
                        (slice qd variable_region_start (zlen qd))))
      (vrf_error QueueAlreadyInUse);;
    run_store (delegate_account
      [authority_info; oracle_queue_info; owner_program; buffer; delegation_record;
       delegation_metadata; delegation_program; system_program]
      pda_seeds 0 (Some system_program_ID))
  | _ => fail NotEnoughAccountKeys
  end.
End Handlers.
