(* ===== verification/Provide.v ===== *)
(** * Providing randomness, and the dispatch of instructions

    [program/src/provide_randomness.rs] and [process_instruction] of
    [program/src/lib.rs]. *)

From S2P Require Import Prelude Pod Api QueueLayout QueueAccount Solana Accounts Instructions Verify Handlers.

Definition ALLOWED_EXECUTABLE_CALLBACK_ACCOUNTS : list (list byte) := [
  pubkey "11111111111111111111111111111111";
  pubkey "TokenkegQfeZyiNwAJbNbGKPFXCWuBvf9Ss623VQ5DA";
  pubkey "TokenzQdBNbLqP5VEhdkAS6EPFLC1PHnBqCXEpPxuEb";
  pubkey "ATokenGPvbdGVxr1b2hvZbsiqW5xWH25efTNsLJA8knL";
  pubkey "metaqbxxUerdq28cj1RbAWkYQm3ybzjb6a8bt518x1s";
  pubkey "CoREENxT6tW1HoK8ypY1SxRMZTcVPm7R94rH4PZNhX7d";
  pubkey "DELeGGvXpWV2fqJUhqcF5ZSYMS4JTLjteaAMARRSaeSh";
  pubkey "Magic11111111111111111111111111111111111111"].

Definition LOADERS : list (list byte) := [
  pubkey "NativeLoader1111111111111111111111111111111";
  pubkey "BPFLoader1111111111111111111111111111111111";
  pubkey "BPFLoader2111111111111111111111111111111111";
  pubkey "BPFLoaderUpgradeab1e11111111111111111111111";
  pubkey "LoaderV411111111111111111111111111111111111"].

Definition is_program (a : Account) : bool :=
  a_executable a || bool_decide (a_owner a ∈ LOADERS).

Definition has_disallowed_executable_callback_account (accounts : list AccountInfo) (σ : Store) : bool :=
  existsb (λ i, is_program (get_account σ (key i))
                && negb (bool_decide (key i ∈ ALLOWED_EXECUTABLE_CALLBACK_ACCOUNTS))) accounts.

(** What is taken out of the queue: the removed item and its callback data. *)
Record removed_request : Type := mkRemoved {
  rm_item : QueueItem;
  rm_metas : list CompactAccountMeta;
  rm_disc : list byte;
  rm_args : list byte;
}.

Section Provide.
Context {rt : Runtime} {ob : OraclesBorsh} {rb : RequestBorsh}.

(** What the handler does with the queue view. *)
Definition provide_queue_step (args : ProvideRandomness) (oracle_key oracle_vrf_pubkey : list byte)
    : queue_op removed_request :=
  acc ← q_get;
  '(index, item) ← q_lift (ok_or (find_item_by_id (pr_input args) acc)
                                 (vrf_error RandomnessRequestNotFound));
  metas ← q_lift (account_metas item acc);
  q_lift (ensure (negb (existsb (λ m, bytes_eqb (meta_pubkey m) oracle_key) metas))
            (vrf_error InvalidCallbackAccounts));;
  clock ← q_lift clock_get;
  q_lift (ensure (negb (clock_slot clock <=? slot item)) (vrf_error OracleMustProvideInDifferentSlot));;
  q_lift (ensure (verify_vrf oracle_vrf_pubkey (pr_input args) (pr_output args)
                    (pr_commitment_base args, pr_commitment_hash args, pr_scalar args))
            (vrf_error InvalidProof));;
  removed_item ← remove_item index;
  acc' ← q_get;
  metas ← q_lift (account_metas removed_item acc');
  disc ← q_lift (callback_discriminator removed_item acc');
  args_bytes ← q_lift (callback_args removed_item acc');
  mret (mkRemoved removed_item metas disc args_bytes).

(** The callback instruction of a removed request. *)
Definition callback_instruction (r : removed_request) (identity output : list byte) : Instruction :=
  mkInstruction (callback_program_id (rm_item r))
    (mkAccountMeta identity true false :: (to_account_meta <$> rm_metas r))
    (rm_disc r ++ hash output ++ rm_args r).

(** Sign the callback with the identity of the request's mode. *)
Definition invoke_callback (r : removed_request) (ix : Instruction)
    (callback_program_info program_identity_info : AccountInfo)
    (remaining_accounts : list AccountInfo) : M unit :=
  let callback_id := callback_program_id (rm_item r) in
  let all_accounts := callback_program_info :: program_identity_info :: remaining_accounts in
  if identity_mode (rm_item r) =? 1 then
    let bump := byte.of_Z (identity_bump (rm_item r)) in
    scoped ← lift (ok_or (create_program_address [IDENTITY; callback_id; [bump]] ID) InvalidSeeds);
    has_address program_identity_info scoped;;
    run_store (invoke_signed ix all_accounts [[IDENTITY; callback_id; [bump]]])
  else
    (λ σ, require (negb (has_disallowed_executable_callback_account remaining_accounts σ))
            (vrf_error InvalidCallbackAccounts) σ);;
    has_address program_identity_info (fst program_identity_pda);;
    run_store (invoke_signed ix all_accounts [[IDENTITY; [byte.of_Z (snd program_identity_pda)]]]).

(** [accounts.split_at(5)] panics on fewer than five accounts. *)
Definition process_provide_randomness (accounts : list AccountInfo) (d : list byte) : M unit :=
  args ← lift (args_try_from_bytes (A:=ProvideRandomness) d);
  match accounts with
  | oracle_info :: program_identity_info :: oracle_data_info :: oracle_queue_info
    :: callback_program_info :: remaining_accounts =>
    is_signer oracle_info;;
    has_seeds oracle_data_info [ORACLE_DATA; key oracle_info] ID;;
    oracle_data ← as_account Oracle oracle_data_info ID;
    let oracle_vrf_pubkey := vrf_pubkey oracle_data in
    qd ← data oracle_queue_info;
    header ← lift (Queue_try_from_bytes qd);
    is_writable oracle_queue_info;;
    has_owner oracle_queue_info ID;;
    has_seeds oracle_queue_info [QUEUE; key oracle_info; [byte.of_Z (queue_index header)]] ID;;
    removed ← with_queue oracle_queue_info
                (provide_queue_step args (key oracle_info) oracle_vrf_pubkey);
    has_address callback_program_info (callback_program_id (rm_item removed));;
    let ix := callback_instruction removed (key program_identity_info) (pr_output args) in
    invoke_callback removed ix callback_program_info program_identity_info remaining_accounts;;
    if negb (is_fee_exempt_ephemeral_queue (key oracle_queue_info)) then
      transfer_fee oracle_queue_info oracle_info (item_cost (rm_item removed))
    else mret ()
  | _ => panic
  end.

(** ** [process_instruction] *)

Definition process_instruction (program_id : list byte) (accounts : list AccountInfo)
    (d : list byte) : M unit :=
  '(ix, d) ← lift (parse_instruction8 program_id d);
  match ix with
  | IxInitialize => process_initialize accounts d
  | IxModifyOracle => process_modify_oracles accounts d
  | IxInitializeOracleQueue => process_initialize_oracle_queue accounts d
  | IxRequestHighPriorityRandomness => process_request_randomness accounts d true false
  | IxRequestRandomness => process_request_randomness accounts d false false
  | IxRequestHighPriorityRandomnessScoped => process_request_randomness accounts d true true
  | IxRequestRandomnessScoped => process_request_randomness accounts d false true
  | IxProvideRandomness => process_provide_randomness accounts d
  | IxDelegateOracleQueue => process_delegate_oracle_queue accounts d
  | IxCloseOracleQueue => process_close_oracle_queue accounts d
  | IxPurgeExpiredRequests => process_purge_expired_requests accounts d
  | IxSetQueuePaused => process_set_queue_paused accounts d
  end.
End Provide.
