(* ===== verification/Reason.v ===== *)
(** * Reasoning about handlers

    Inversion of successful runs of the account and queue monads, one lemma
    per primitive, and the tactics [inv_M] and [inv_q] that apply them; the
    effect of writes on the accounts of the store. *)

From S2P Require Import Prelude Pod Api QueueLayout QueueAccount QueueSpec Solana Accounts Handlers.

(** ** Store updates *)

Definition upd_data (σ : Store) (k : list byte) (d : list byte) : Store :=
  <[k := with_data (get_account σ k) d]> σ.
Definition upd_lamports (σ : Store) (k : list byte) (n : Z) : Store :=
  <[k := with_lamports (get_account σ k) n]> σ.

Abbreviation lamports_at σ k := (a_lamports (get_account σ k)).
Abbreviation data_at σ k := (a_data (get_account σ k)).
Abbreviation owner_at σ k := (a_owner (get_account σ k)).

Section Store.
Implicit Types (σ : Store) (k : list byte).

Lemma get_account_insert σ k a : get_account (<[k := a]> σ) k = a.
Proof. unfold get_account. by rewrite lookup_insert_eq. Qed.

Lemma get_account_insert_ne σ k k' a : k ≠ k' → get_account (<[k := a]> σ) k' = get_account σ k'.
Proof. intros. unfold get_account. by rewrite lookup_insert_ne. Qed.

Lemma get_upd_data σ k d : get_account (upd_data σ k d) k = with_data (get_account σ k) d.
Proof. apply get_account_insert. Qed.

Lemma get_upd_data_ne σ k k' d : k ≠ k' → get_account (upd_data σ k d) k' = get_account σ k'.
Proof. apply get_account_insert_ne. Qed.

Lemma get_upd_lamports σ k n : get_account (upd_lamports σ k n) k = with_lamports (get_account σ k) n.
Proof. apply get_account_insert. Qed.

Lemma get_upd_lamports_ne σ k k' n : k ≠ k' → get_account (upd_lamports σ k n) k' = get_account σ k'.
Proof. apply get_account_insert_ne. Qed.

Lemma lamports_upd_data σ k k' d : lamports_at (upd_data σ k d) k' = lamports_at σ k'.
Proof.
  destruct (decide (k = k')) as [<-|]; [by rewrite get_upd_data|by rewrite get_upd_data_ne].
Qed.

Lemma owner_upd_data σ k k' d : owner_at (upd_data σ k d) k' = owner_at σ k'.
Proof.
  destruct (decide (k = k')) as [<-|]; [by rewrite get_upd_data|by rewrite get_upd_data_ne].
Qed.

Lemma data_upd_lamports σ k k' n : data_at (upd_lamports σ k n) k' = data_at σ k'.
Proof.
  destruct (decide (k = k')) as [<-|]; [by rewrite get_upd_lamports|by rewrite get_upd_lamports_ne].
Qed.

Lemma owner_upd_lamports σ k k' n : owner_at (upd_lamports σ k n) k' = owner_at σ k'.
Proof.
  destruct (decide (k = k')) as [<-|]; [by rewrite get_upd_lamports|by rewrite get_upd_lamports_ne].
Qed.
End Store.

#[export] Hint Rewrite get_upd_data get_upd_lamports lamports_upd_data owner_upd_data
  data_upd_lamports owner_upd_lamports : store.

(** ** Inversion of [M] *)

Section InvM.
Context {A B : Type}.
Implicit Types (σ : Store) (i : AccountInfo).

Lemma M_bind_Ok (m : M A) (f : A → M B) σ b σ' :
  (m ≫= f) σ = Ok (b, σ') ↔ ∃ a σ1, m σ = Ok (a, σ1) ∧ f a σ1 = Ok (b, σ').
Proof. unfold mbind, M_bind. destruct (m σ) as [[a σ1]|e|]; naive_solver. Qed.

Lemma M_ret_Ok (a b : A) σ σ' : (mret a : M A) σ = Ok (b, σ') ↔ b = a ∧ σ' = σ.
Proof. unfold mret, M_ret. naive_solver. Qed.

Lemma lift_Ok (r : res A) σ b σ' : lift r σ = Ok (b, σ') ↔ r = Ok b ∧ σ' = σ.
Proof. unfold lift. destruct r; cbn; naive_solver. Qed.
End InvM.

(** Running forward: a step that succeeds, and one that does not. *)
Lemma M_step {A B} (m : M A) (f : A → M B) σ a σ1 :
  m σ = Ok (a, σ1) → (m ≫= f) σ = f a σ1.
Proof. unfold mbind, M_bind. by intros ->. Qed.

Lemma M_check {B} (m : M unit) (f : unit → M B) σ σ1 :
  m σ = Ok ((), σ1) → (m ≫= f) σ = f () σ1.
Proof. apply M_step. Qed.

Lemma M_step_Err {A B} (m : M A) (f : A → M B) σ e : m σ = Err e → (m ≫= f) σ = Err e.
Proof. unfold mbind, M_bind. by intros ->. Qed.

Lemma M_step_Panic {A B} (m : M A) (f : A → M B) σ : m σ = Panic → (m ≫= f) σ = Panic.
Proof. unfold mbind, M_bind. by intros ->. Qed.

Lemma require_Ok c e u σ σ' : require c e σ = Ok (u, σ') ↔ c = true ∧ σ' = σ.
Proof. unfold require. rewrite lift_Ok, ensure_Ok. done. Qed.

Lemma run_store_Ok f u σ σ' : run_store f σ = Ok (u, σ') ↔ f σ = Ok σ'.
Proof. unfold run_store. destruct u, (f σ); cbn; naive_solver. Qed.

Lemma account_Ok k a σ σ' : account k σ = Ok (a, σ') ↔ a = get_account σ k ∧ σ' = σ.
Proof. unfold account. naive_solver. Qed.

Lemma lamports_Ok i n σ σ' : lamports i σ = Ok (n, σ') ↔ n = lamports_at σ (key i) ∧ σ' = σ.
Proof.
  unfold lamports. rewrite M_bind_Ok. setoid_rewrite account_Ok. setoid_rewrite M_ret_Ok. naive_solver.
Qed.

Lemma data_Ok i d σ σ' : data i σ = Ok (d, σ') ↔ d = data_at σ (key i) ∧ σ' = σ.
Proof.
  unfold data. rewrite M_bind_Ok. setoid_rewrite account_Ok. setoid_rewrite M_ret_Ok. naive_solver.
Qed.

Lemma set_data_Ok i d u σ σ' : set_data i d σ = Ok (u, σ') ↔ σ' = upd_data σ (key i) d.
Proof.
  destruct u. unfold set_data. rewrite M_bind_Ok. setoid_rewrite account_Ok.
  unfold set_account, upd_data. naive_solver.
Qed.

Lemma set_lamports_Ok i n u σ σ' : set_lamports i n σ = Ok (u, σ') ↔ σ' = upd_lamports σ (key i) n.
Proof.
  destruct u. unfold set_lamports. rewrite M_bind_Ok. setoid_rewrite account_Ok.
  unfold set_account, upd_lamports. naive_solver.
Qed.

Lemma is_signer_Ok i u σ σ' : is_signer i σ = Ok (u, σ') ↔ info_is_signer i = true ∧ σ' = σ.
Proof. apply require_Ok. Qed.

Lemma is_writable_Ok i u σ σ' : is_writable i σ = Ok (u, σ') ↔ info_is_writable i = true ∧ σ' = σ.
Proof. apply require_Ok. Qed.

Lemma has_address_Ok i k u σ σ' : has_address i k σ = Ok (u, σ') ↔ key i = k ∧ σ' = σ.
Proof. unfold has_address. by rewrite require_Ok, bytes_eqb_eq. Qed.

Lemma has_owner_Ok i k u σ σ' : has_owner i k σ = Ok (u, σ') ↔ owner_at σ (key i) = k ∧ σ' = σ.
Proof.
  unfold has_owner. rewrite M_bind_Ok. setoid_rewrite account_Ok. setoid_rewrite require_Ok.
  setoid_rewrite bytes_eqb_eq. naive_solver.
Qed.

Lemma has_seeds_Ok `{Runtime} i seeds p u σ σ' :
  has_seeds i seeds p σ = Ok (u, σ') ↔ key i = fst (find_program_address seeds p) ∧ σ' = σ.
Proof. unfold has_seeds. by rewrite require_Ok, bytes_eqb_eq. Qed.

Lemma not_borrowed_Ok h i u σ σ' : not_borrowed h i σ = Ok (u, σ') ↔ key h ≠ key i ∧ σ' = σ.
Proof.
  unfold not_borrowed. rewrite require_Ok, negb_true_iff, bytes_eqb_neq. done.
Qed.

Lemma as_account_Ok T `{Pod T, Discriminator T} i p v σ σ' :
  as_account T i p σ = Ok (v, σ') ↔
    owner_at σ (key i) = p ∧ zlen (data_at σ (key i)) = 8 + size_of T ∧
    try_from_bytes (data_at σ (key i)) = Ok v ∧ σ' = σ.
Proof.
  unfold as_account. rewrite M_bind_Ok. setoid_rewrite has_owner_Ok.
  setoid_rewrite M_bind_Ok. setoid_rewrite data_Ok. setoid_rewrite M_bind_Ok.
  setoid_rewrite require_Ok. setoid_rewrite Z.eqb_eq. setoid_rewrite lift_Ok.
  split; [naive_solver|]. intros (? & ? & ? & ->). exists (), σ. split; [done|].
  eexists _, _. split; [done|]. by exists (), σ.
Qed.

Lemma as_account_mut_Ok T `{Pod T, Discriminator T} i p v σ σ' :
  as_account_mut T i p σ = Ok (v, σ') ↔
    owner_at σ (key i) = p ∧ info_is_writable i = true ∧
    zlen (data_at σ (key i)) = 8 + size_of T ∧
    try_from_bytes (data_at σ (key i)) = Ok v ∧ σ' = σ.
Proof.
  unfold as_account_mut. rewrite M_bind_Ok. setoid_rewrite has_owner_Ok.
  setoid_rewrite M_bind_Ok. setoid_rewrite is_writable_Ok.
  setoid_rewrite M_bind_Ok. setoid_rewrite data_Ok. setoid_rewrite M_bind_Ok.
  setoid_rewrite require_Ok. setoid_rewrite Z.eqb_eq. setoid_rewrite lift_Ok.
  split; [naive_solver|]. intros (? & ? & ? & ? & ->). exists (), σ. split; [done|].
  exists (), σ. split; [done|]. eexists _, _. split; [done|]. by exists (), σ.
Qed.

Lemma store_account_Ok {T} `{Pod T} i (v : T) u σ σ' :
  store_account i v σ = Ok (u, σ') ↔
    σ' = upd_data σ (key i) (splice (data_at σ (key i)) 8 (bytes_of v)).
Proof.
  unfold store_account. rewrite M_bind_Ok. setoid_rewrite data_Ok. setoid_rewrite set_data_Ok.
  naive_solver.
Qed.

Lemma with_queue_Ok `{Runtime} {A} i (m : queue_op A) a σ σ' :
  with_queue i m σ = Ok (a, σ') ↔
    ∃ acc acc', load (data_at σ (key i)) = Ok acc ∧ m acc = (acc', Ok a) ∧
                σ' = upd_data σ (key i) (store_body (data_at σ (key i)) acc').
Proof.
  unfold with_queue. rewrite M_bind_Ok. setoid_rewrite data_Ok. setoid_rewrite M_bind_Ok.
  setoid_rewrite lift_Ok. split.
  - intros (? & ? & [-> ->] & acc & ? & [Hl ->] & Hm). destruct (m acc) as [acc' r] eqn:Hr.
    apply M_bind_Ok in Hm as (u & σ1 & Hs%set_data_Ok & [-> ->]%lift_Ok). subst. eauto.
  - intros (acc & acc' & Hl & Hm & ->). eexists _, _. split; [done|]. eexists _, _. split; [done|].
    rewrite Hm. apply M_bind_Ok. eexists (), _. by rewrite set_data_Ok, lift_Ok.
Qed.

(** ** Inversion of [queue_op] *)

Lemma q_bind_Ok {A B} (m : queue_op A) (f : A → queue_op B) acc acc' b :
  (m ≫= f) acc = (acc', Ok b) ↔ ∃ a acc1, m acc = (acc1, Ok a) ∧ f a acc1 = (acc', Ok b).
Proof. unfold mbind, queue_op_bind. destruct (m acc) as [acc1 [a|e|]]; naive_solver. Qed.

Lemma q_lift_Ok_iff {A} (r : res A) acc acc' a : q_lift r acc = (acc', Ok a) ↔ r = Ok a ∧ acc' = acc.
Proof. unfold q_lift. naive_solver. Qed.

Lemma q_get_Ok acc acc' a : q_get acc = (acc', Ok a) ↔ a = acc ∧ acc' = acc.
Proof. unfold q_get. naive_solver. Qed.

Lemma q_modify_Ok f acc acc' u : q_modify f acc = (acc', Ok u) ↔ acc' = f acc.
Proof. destruct u. unfold q_modify. naive_solver. Qed.

Lemma q_ret_Ok {A} (a b : A) acc acc' : (mret a : queue_op A) acc = (acc', Ok b) ↔ b = a ∧ acc' = acc.
Proof. unfold mret, queue_op_ret. naive_solver. Qed.

(** ** Tactics *)

(** One primitive step of a successful handler run. *)
Ltac inv_M_step :=
  match goal with
  | H : mbind _ _ _ = Ok (_, _) |- _ =>
      let a := fresh "x" in let s := fresh "σ" in let H1 := fresh "H" in
      apply M_bind_Ok in H as (a & s & H1 & H)
  | H : lift _ _ = Ok (_, _) |- _ => apply lift_Ok in H as [H ->]
  | H : require _ _ _ = Ok (_, _) |- _ => apply require_Ok in H as [H ->]
  | H : is_signer _ _ = Ok (_, _) |- _ => apply is_signer_Ok in H as [H ->]
  | H : is_writable _ _ = Ok (_, _) |- _ => apply is_writable_Ok in H as [H ->]
  | H : has_address _ _ _ = Ok (_, _) |- _ => apply has_address_Ok in H as [H ->]
  | H : has_owner _ _ _ = Ok (_, _) |- _ => apply has_owner_Ok in H as [H ->]
  | H : has_seeds _ _ _ _ = Ok (_, _) |- _ => apply has_seeds_Ok in H as [H ->]
  | H : not_borrowed _ _ _ = Ok (_, _) |- _ => apply not_borrowed_Ok in H as [H ->]
  | H : account _ _ = Ok (_, _) |- _ => apply account_Ok in H as [-> ->]
  | H : lamports _ _ = Ok (_, _) |- _ => apply lamports_Ok in H as [-> ->]
  | H : data _ _ = Ok (_, _) |- _ => apply data_Ok in H as [-> ->]
  | H : set_data _ _ _ = Ok (_, _) |- _ => apply set_data_Ok in H as ->
  | H : set_lamports _ _ _ = Ok (_, _) |- _ => apply set_lamports_Ok in H as ->
  | H : as_account _ _ _ _ = Ok (_, _) |- _ => apply as_account_Ok in H as (? & ? & H & ->)
  | H : as_account_mut _ _ _ _ = Ok (_, _) |- _ => apply as_account_mut_Ok in H as (? & ? & ? & H & ->)
  | H : store_account _ _ _ = Ok (_, _) |- _ => apply store_account_Ok in H as ->
  | H : run_store _ _ = Ok (_, _) |- _ => apply run_store_Ok in H
  | H : mret _ _ = Ok (_, _) |- _ =>
      apply M_ret_Ok in H as [H ->]; match type of H with ?b = _ => first [subst b|clear H] end
  | H : fail _ _ = Ok _ |- _ => discriminate H
  | H : panic _ = Ok _ |- _ => discriminate H
  | u : unit |- _ => destruct u
  end.

Ltac inv_M := repeat inv_M_step.

(** One step of a successful queue operation. *)
Ltac inv_q_step :=
  match goal with
  | H : mbind _ _ _ = (_, Ok _) |- _ =>
      let a := fresh "x" in let s := fresh "acc" in let H1 := fresh "H" in
      apply q_bind_Ok in H as (a & s & H1 & H)
  | H : q_lift _ _ = (_, Ok _) |- _ => apply q_lift_Ok_iff in H as [H ->]
  | H : q_get _ = (_, Ok _) |- _ => apply q_get_Ok in H as [-> ->]
  | H : q_modify _ _ = (_, Ok _) |- _ => apply q_modify_Ok in H as ->
  | H : mret _ _ = (_, Ok _) |- _ =>
      apply q_ret_Ok in H as [H ->]; match type of H with ?b = _ => first [subst b|idtac] end
  | H : ensure _ _ = Ok _ |- _ => apply ensure_Ok in H
  | H : ok_or _ _ = Ok _ |- _ => apply ok_or_Ok in H
  | u : unit |- _ => destruct u
  end.

Ltac inv_q := repeat inv_q_step.
