(* ===== verification/Laws.v ===== *)
(** * Documented behaviour of the runtime

    [RuntimeLaws] states what the handlers rely on of the code outside the
    repository; the theorems about handlers take it as an interface, and
    [Concrete.v] has a runtime that satisfies it. *)

From S2P Require Import Prelude Pod Api QueueLayout QueueAccount QueueInv QueueAdd QueueSpec Solana Accounts Instructions Handlers Reason.

(** Moving [n] lamports, one account after the other. *)
Definition move_lamports (σ : Store) (from to : list byte) (n : Z) : Store :=
  let σ1 := upd_lamports σ from (lamports_at σ from - n) in
  upd_lamports σ1 to (lamports_at σ1 to + n).

(** Same accounts, whether or not an empty account is in the map. *)
Definition store_eq (σ σ' : Store) : Prop := ∀ k, get_account σ k = get_account σ' k.

#[global] Instance store_eq_equiv : Equivalence store_eq.
Proof. 
  split; unfold store_eq; [done|intros x y H k; by rewrite H|intros x y z H1 H2 k; by rewrite H1].
Qed.

#[global] Instance get_account_proper : Proper (store_eq ==> eq ==> eq) get_account.
Proof. intros σ σ' H k ? <-. apply H. Qed.

#[global] Instance upd_lamports_proper : Proper (store_eq ==> eq ==> eq ==> store_eq) upd_lamports.
Proof.
  intros σ σ' H k ? <- n ? <- k'.
  destruct (decide (k = k')) as [<-|]; [by rewrite !get_upd_lamports, H|by rewrite !get_upd_lamports_ne].
Qed.

#[global] Instance upd_data_proper : Proper (store_eq ==> eq ==> eq ==> store_eq) upd_data.
Proof.
  intros σ σ' H k ? <- d ? <- k'.
  destruct (decide (k = k')) as [<-|]; [by rewrite !get_upd_data, H|by rewrite !get_upd_data_ne].
Qed.

(** Data and owner of every account but [k] are the same. *)
Definition same_data_except (σ σ' : Store) (k : list byte) : Prop :=
  ∀ k', k' ≠ k → data_at σ' k' = data_at σ k' ∧ owner_at σ' k' = owner_at σ k'.

Class RuntimeLaws {rt : Runtime} : Prop := {
  (** hashes and addresses are 32 bytes *)
  hashv_len l : zlen (hashv l) = 32;
  (** the clock holds a [u64] slot, and PDA bumps are bytes *)
  clock_fits c : clock_get = Ok c → fits 64 (clock_slot c);
  bump_fits seeds p : fits 8 (snd (find_program_address seeds p));
  (** a transfer of the system program moves exactly the lamports *)
  transfer_law from to n infos seeds σ σ' :
    fits 64 n →
    invoke_signed (system_transfer from to n) infos seeds σ = Ok σ' →
    n ≤ lamports_at σ from ∧ store_eq σ' (move_lamports σ from to n);
  (** the system program's [create_account], [allocate] and [assign], as far as
      data and owners are concerned *)
  create_account_law from to lam space owner infos seeds σ σ' :
    0 ≤ space < 2 ^ 63 → zlen owner = 32 →
    invoke_signed (system_create_account from to lam space owner) infos seeds σ = Ok σ' →
    data_at σ' to = zeros space ∧ owner_at σ' to = owner ∧ same_data_except σ σ' to;
  allocate_law k space infos seeds σ σ' :
    0 ≤ space < 2 ^ 63 →
    invoke_signed (system_allocate k space) infos seeds σ = Ok σ' →
    data_at σ' k = zeros space ∧ owner_at σ' k = owner_at σ k ∧ same_data_except σ σ' k;
  assign_cpi_law k owner infos seeds σ σ' :
    zlen owner = 32 →
    invoke_signed (system_assign k owner) infos seeds σ = Ok σ' →
    data_at σ' k = data_at σ k ∧ owner_at σ' k = owner ∧ same_data_except σ σ' k;
  (** balances stay [u64]s *)
  cpi_lamports_fit ix infos seeds σ σ' :
    (∀ k, fits 64 (lamports_at σ k)) → invoke_signed ix infos seeds σ = Ok σ' →
    ∀ k, fits 64 (lamports_at σ' k);
  (** only its owner debits an account or changes its data, and a program
      that is not on top of the call stack is not re-entered *)
  cpi_isolation ix infos seeds σ σ' k :
    invoke_signed ix infos seeds σ = Ok σ' → ix_program_id ix ≠ ID → owner_at σ k = ID →
    lamports_at σ k ≤ lamports_at σ' k ∧ data_at σ' k = data_at σ k ∧ owner_at σ' k = ID;
  (** [assign] sets the owner, [resize] cuts or extends with zeros *)
  assign_law i owner σ k :
    get_account (account_assign i owner σ) k =
      if decide (k = key i)
      then mkAccount (lamports_at σ k) (data_at σ k) owner (a_executable (get_account σ k))
      else get_account σ k;
  resize_law i n σ σ' :
    account_resize i n σ = Ok σ' → 0 ≤ n →
    store_eq σ' (upd_data σ (key i)
      (take (Z.to_nat n) (data_at σ (key i)) ++ zeros (n - zlen (data_at σ (key i)))));
}.

(** ** Lamports *)

Lemma move_lamports_data σ from to n k : data_at (move_lamports σ from to n) k = data_at σ k.
Proof. unfold move_lamports. by rewrite !data_upd_lamports. Qed.

Lemma move_lamports_owner σ from to n k : owner_at (move_lamports σ from to n) k = owner_at σ k.
Proof. unfold move_lamports. by rewrite !owner_upd_lamports. Qed.

Lemma move_lamports_executable σ from to n k :
  a_executable (get_account (move_lamports σ from to n) k) = a_executable (get_account σ k).
Proof.
  assert (∀ σ0 k0 l, a_executable (get_account (upd_lamports σ0 k0 l) k) = a_executable (get_account σ0 k)) as H.
  { intros σ0 k0 l. destruct (decide (k0 = k)) as [<-|]; [by rewrite get_upd_lamports|by rewrite get_upd_lamports_ne]. }
  unfold move_lamports. by rewrite !H.
Qed.

Lemma move_lamports_to σ from to n :
  from ≠ to → lamports_at (move_lamports σ from to n) to = lamports_at σ to + n.
Proof.
  intros. unfold move_lamports. rewrite get_upd_lamports. cbn. by rewrite get_upd_lamports_ne.
Qed.

Lemma move_lamports_from σ from to n :
  from ≠ to → lamports_at (move_lamports σ from to n) from = lamports_at σ from - n.
Proof.
  intros. unfold move_lamports. rewrite get_upd_lamports_ne by done. by rewrite get_upd_lamports.
Qed.

Lemma move_lamports_other σ from to n k :
  from ≠ k → to ≠ k → get_account (move_lamports σ from to n) k = get_account σ k.
Proof. intros. unfold move_lamports. by rewrite !get_upd_lamports_ne. Qed.

Lemma checked_sub_Some x y z : checked_sub x y = Some z ↔ y ≤ x ∧ z = x - y.
Proof. unfold checked_sub. destruct (Z.leb_spec y x); naive_solver lia. Qed.

Lemma checked_add_Some w x y z : checked_add w x y = Some z ↔ x + y < 2 ^ w ∧ z = x + y.
Proof. unfold checked_add. destruct (Z.ltb_spec (x + y) (2 ^ w)); naive_solver lia. Qed.

(** [transfer_fee] moves exactly the fee. *)
Lemma transfer_fee_Ok {rt : Runtime} q o n u σ σ' :
  transfer_fee q o n σ = Ok (u, σ') ↔
    key q ≠ key o ∧ n ≤ lamports_at σ (key q) ∧ lamports_at σ (key o) + n < 2 ^ 64 ∧
    σ' = move_lamports σ (key q) (key o) n.
Proof.
  destruct u. unfold transfer_fee. split.
  - intros H. inv_M. inv_outcome.
    repeat match goal with H : checked_sub _ _ = Some _ |- _ => apply checked_sub_Some in H as [? ->]
           | H : checked_add _ _ _ = Some _ |- _ => apply checked_add_Some in H as [? ->] end.
    split_and!; try done. unfold move_lamports. by rewrite get_upd_lamports_ne.
  - intros (Hne & Hq & Ho & ->). apply bytes_eqb_neq in Hne as Hb.
    unfold not_borrowed, require, lift, ensure, lamports, set_lamports, account, set_account,
      mbind, M_bind, mret, M_ret, fmap, outcome_fmap, ok_or. rewrite Hb. cbn [negb].
    rewrite (proj2 (checked_sub_Some _ _ _) (conj Hq eq_refl)).
    rewrite (proj2 (checked_add_Some 64 _ _ _) (conj Ho eq_refl)).
    unfold move_lamports, upd_lamports. by rewrite get_account_insert_ne.
Qed.

(** ** Typed accounts *)

Section Typed.
Context {T : Type} `{Pod T, Discriminator T}.

Lemma try_from_bytes_Ok d (v : T) :
  try_from_bytes d = Ok v ↔
    zlen d = 8 + size_of T ∧ slice d 0 1 = [byte.of_Z discriminator] ∧
    v = pod_read (slice d 8 (zlen d)).
Proof.
  unfold try_from_bytes, pod_try_from_bytes, ensure, index_range, in_range.
  pose proof (size_of_nonneg (A:=T)).
  destruct (Z.leb_spec 8 (zlen d)); cbn [mbind outcome_bind].
  2: { split; [done|]. intros (? & _). lia. }
  destruct (Z.leb_spec 1 (zlen d)); [|lia]. cbn [andb Z.leb Z.compare mbind outcome_bind].
  rewrite (zlen_slice d 8 (zlen d)) by lia.
  destruct (bytes_eqb _ _) eqn:Hb; [apply bytes_eqb_eq in Hb|apply bytes_eqb_neq in Hb];
    cbn [mbind outcome_bind].
  - destruct (Z.eqb_spec (zlen d - 8) (size_of T)).
    + split; [intros [= <-]; split_and!; [lia|done|done]|]. by intros (_ & _ & ->).
    + split; [done|]. intros (? & _). lia.
  - split; [done|]. by intros (_ & ? & _).
Qed.

Lemma try_from_bytes_wf d (v : T) : try_from_bytes d = Ok v → pod_wf v.
Proof.
  intros (Hl & _ & ->)%try_from_bytes_Ok. pose proof (size_of_nonneg (A:=T)).
  apply pod_read_wf. rewrite zlen_slice by lia. lia.
Qed.

(** A value that is stored is read back. *)
Lemma try_from_bytes_store d (v0 v : T) :
  try_from_bytes d = Ok v0 → pod_wf v → try_from_bytes (splice d 8 (bytes_of v)) = Ok v.
Proof.
  intros (Hl & Hd & _)%try_from_bytes_Ok Hwf. pose proof (size_of_nonneg (A:=T)).
  pose proof (zlen_bytes_of v Hwf) as Hv.
  apply try_from_bytes_Ok. rewrite zlen_splice by lia. split_and!; [done| |].
  - by rewrite slice_splice_before by lia.
  - replace (zlen d) with (8 + zlen (bytes_of v)) by lia.
    rewrite slice_splice_same by lia. by rewrite pod_read_bytes_of.
Qed.
End Typed.

(** ** Queue accounts *)

Lemma store_body_app acc acc' : store_body (discriminator_to_bytes DQueue ++ acc) acc'
  = discriminator_to_bytes DQueue ++ acc'.
Proof.
  unfold store_body. by f_equal.
Qed.

(** Running a queue operation on an account that holds the requests [rs]. *)
Lemma with_queue_represents {rt : Runtime} {A} i (m : queue_op A) a σ σ' rs :
  queue_data (data_at σ (key i)) rs → with_queue i m σ = Ok (a, σ') →
  ∃ acc acc', represents acc rs ∧ data_at σ (key i) = discriminator_to_bytes DQueue ++ acc ∧
    m acc = (acc', Ok a) ∧ σ' = upd_data σ (key i) (discriminator_to_bytes DQueue ++ acc').
Proof.
  intros (acc & Hd & Hrep) (acc0 & acc' & Hl & Hm & ->)%with_queue_Ok.
  rewrite Hd in *. rewrite (load_represents acc rs Hrep) in Hl. injection Hl as <-.
  exists acc, acc'. by rewrite store_body_app.
Qed.

(** Running a queue operation, and what follows, on such an account. *)
Lemma with_queue_eq {rt : Runtime} {A B} i (m : queue_op A) (f : A → M B) σ acc rs :
  data_at σ (key i) = discriminator_to_bytes DQueue ++ acc → represents acc rs →
  (with_queue i m ≫= f) σ =
    match m acc with
    | (acc', Ok a) => f a (upd_data σ (key i) (discriminator_to_bytes DQueue ++ acc'))
    | (_, Err e) => Err e
    | (_, Panic) => Panic
    end.
Proof.
  intros Hd Hrep. unfold mbind at 1, M_bind at 1, with_queue.
  erewrite M_step by (apply data_Ok; split; [symmetry; exact Hd|done]).
  erewrite M_step by (apply lift_Ok; split; [by apply load_represents with rs|done]).
  destruct (m acc) as [acc' r]. erewrite M_check by (by apply set_data_Ok).
  rewrite store_body_app. by destruct r.
Qed.

Lemma queue_data_header d rs :
  queue_data d rs → ∃ h, Queue_try_from_bytes d = Ok h ∧ item_count h = zlen rs.
Proof.
  intros (acc & -> & Hrep). destruct (represents_bounds Hrep) as [? _].
  exists (header acc). rewrite Queue_try_from_bytes_app by lia. split; [done|].
  apply (represents_len Hrep).
Qed.

Lemma queue_data_upd σ k acc rs :
  represents acc rs → queue_data (data_at (upd_data σ k (discriminator_to_bytes DQueue ++ acc)) k) rs.
Proof. intros. rewrite get_upd_data. by exists acc. Qed.

(** ** Pending fees *)

Definition r_cost (r : request) : Z := request_cost (r_priority r =? 1).

(** What the requests of a queue will pay to the oracle. *)
Fixpoint pending_fees (rs : list request) : Z :=
  match rs with [] => 0 | r :: rs' => r_cost r + pending_fees rs' end.

Lemma r_cost_pos r : 500000 ≤ r_cost r ≤ 800000.
Proof. unfold r_cost, request_cost. destruct (_ =? _); unfold VRF_HIGH_PRIORITY_LAMPORTS_COST, VRF_LAMPORTS_COST; lia. Qed.

Lemma pending_fees_app rs1 rs2 : pending_fees (rs1 ++ rs2) = pending_fees rs1 + pending_fees rs2.
Proof. induction rs1 as [|r rs1 IH]; simpl; [lia|]. rewrite IH. lia. Qed.

Lemma pending_fees_insert i r rs : pending_fees (insert_at i r rs) = r_cost r + pending_fees rs.
Proof.
  unfold insert_at. rewrite pending_fees_app. simpl.
  rewrite <- (take_drop (Z.to_nat i) rs) at 3. rewrite pending_fees_app. lia.
Qed.

Lemma pending_fees_delete i r rs :
  rs !! i = Some r → pending_fees rs = r_cost r + pending_fees (delete i rs).
Proof.
  intros Hr. rewrite <- (take_drop_middle _ _ _ Hr) at 1. rewrite delete_take_drop.
  rewrite !pending_fees_app. simpl. lia.
Qed.

Lemma pending_fees_filter (p : request → bool) rs :
  pending_fees rs = pending_fees (filter (λ r, p r) rs) + pending_fees (filter (λ r, negb (p r)) rs).
Proof.
  induction rs as [|r rs IH]; [done|]. rewrite !filter_cons. cbn [pending_fees]. rewrite IH.
  destruct (p r); simpl; lia.
Qed.

Lemma pending_fees_nonneg rs : 0 ≤ pending_fees rs.
Proof. induction rs as [|r rs IH]; simpl; [lia|]. pose proof (r_cost_pos r). lia. Qed.

Lemma pending_fees_bound rs : pending_fees rs ≤ 800000 * zlen rs.
Proof.
  induction rs as [|r rs IH]; [done|]. rewrite zlen_cons. simpl. pose proof (r_cost_pos r). lia.
Qed.
