(* ===== verification/RequestTheorems.v ===== *)
(** * Requesting randomness: theorems

    The handler [process_request_randomness]: what a successful request
    means for the queue and the balances, what is refused and why, and what
    the id of a request commits to. *)

From coqutil Require Import Word.LittleEndianList.
From S2P Require Import Prelude Pod Api QueueLayout QueueAccount QueueInv QueueAdd QueueSpec QueueTheorems Solana Accounts Instructions Handlers Reason Laws.

(** The request that the handler stores when the item goes to position [pos]. *)
Definition stored_request {rt : Runtime} (args : RequestRandomness) (slot : Z) (slothash : list byte)
    (time : Z) (high_priority scoped : bool) (identity_bump pos : Z) : request :=
  mkRequest slot (combined_hash args slot slothash time pos) (rr_callback_program_id args)
    (rr_callback_discriminator args) (compact_meta <$> rr_callback_accounts_metas args)
    (rr_callback_args args) (bool_as_u8 high_priority) (bool_as_u8 scoped) identity_bump
    (created_at_from time) pos.

(** ** What the id commits to *)

Lemma le_split_inj n x y : fits (8 * Z.of_nat n) x → fits (8 * Z.of_nat n) y →
  le_split n x = le_split n y → x = y.
Proof.
  intros Hx Hy H. apply (f_equal le_combine) in H. rewrite !le_combine_split in H.
  rewrite !Z.mod_small in H; [done|..]; unfold fits in *; rewrite Z.mul_comm; done.
Qed.

Lemma as_u64_inj x y :
  - 2 ^ 63 ≤ x < 2 ^ 63 → - 2 ^ 63 ≤ y < 2 ^ 63 → as_u64 x = as_u64 y → x = y.
Proof.
  unfold as_u64, wrap. intros Hx Hy H.
  pose proof (Z.div_mod x (2 ^ 64)). pose proof (Z.div_mod y (2 ^ 64)). lia.
Qed.

(** The id commits to the request: two requests whose hashed bytes agree
    have the same caller seed, slot, slot hash, callback discriminator,
    callback program, time and position, although the discriminator has no
    fixed length and the fields are concatenated without separators. *)
Theorem combined_hash_binds args1 args2 slot1 slot2 sh1 sh2 time1 time2 idx1 idx2 :
  request_wf args1 → request_wf args2 → zlen sh1 = 32 → zlen sh2 = 32 →
  fits 64 slot1 → fits 64 slot2 → fits 32 idx1 → fits 32 idx2 →
  - 2 ^ 63 ≤ time1 < 2 ^ 63 → - 2 ^ 63 ≤ time2 < 2 ^ 63 →
  mjoin (combined_hash_input args1 slot1 sh1 time1 idx1) =
    mjoin (combined_hash_input args2 slot2 sh2 time2 idx2) →
  rr_caller_seed args1 = rr_caller_seed args2 ∧ slot1 = slot2 ∧ sh1 = sh2 ∧
  rr_callback_discriminator args1 = rr_callback_discriminator args2 ∧
  rr_callback_program_id args1 = rr_callback_program_id args2 ∧ time1 = time2 ∧ idx1 = idx2.
Proof.
  intros (Hs1 & Hp1 & _) (Hs2 & Hp2 & _) Hsh1 Hsh2 Hsl1 Hsl2 Hi1 Hi2 Ht1 Ht2.
  unfold combined_hash_input. cbn [mjoin list_join]. rewrite !app_nil_r. unfold zlen in *. intros H.
  pose proof (f_equal length H) as Hlen. rewrite !length_app, !length_le_split in Hlen.
  apply app_inj_1 in H as [Hseed H]; [|lia].
  apply app_inj_1 in H as [Hslot H]; [|by rewrite !length_le_split].
  apply app_inj_1 in H as [Hsh H]; [|lia].
  apply app_inj_1 in H as [Hdisc H]; [|lia].
  apply app_inj_1 in H as [Hprog H]; [|lia].
  apply app_inj_1 in H as [Htime Hidx]; [|by rewrite !length_le_split].
  apply le_split_inj in Hslot; [|done..]. apply le_split_inj in Hidx; [|done..].
  apply le_split_inj in Htime; [|by apply wrap_fits..]. by apply as_u64_inj in Htime.
Qed.

Section Request.
Context {rt : Runtime} {ob : OraclesBorsh} {rb : RequestBorsh} {laws : RuntimeLaws}.

Lemma request_add_args args slot slothash time hp scoped bump :
  request_wf args → fits 64 slot → fits 8 bump → zlen (rr_callback_discriminator args) ≤ 8 →
  add_args (request_base_item args slot time hp scoped bump) (rr_callback_discriminator args)
    (compact_meta <$> rr_callback_accounts_metas args) (combined_hash args slot slothash time).
Proof.
  intros (Hseed & Hprog & Hmetas) Hslot Hbump Hd. split; [|lia| |intros; apply hashv_len].
  - rewrite QueueItem_wf_iff. cbn -[created_at_from].
    split_and!; try done; try (by apply wrap_fits); unfold fits, bool_as_u8; try lia.
    all: destruct hp, scoped; lia.
  - apply Forall_fmap. eapply Forall_impl; [exact Hmetas|]. intros m Hm.
    apply CompactAccountMeta_wf_iff. cbn. split; [done|]. unfold fits, bool_as_u8.
    destruct (ser_is_writable m); lia.
Qed.

(** What the handler does with the queue, on every branch. *)
Lemma request_queue_step_spec acc rs args slot slothash time hp scoped bump :
  represents acc rs → request_wf args → fits 64 slot → fits 8 bump →
  match request_queue_step args slot slothash time hp scoped bump acc with
  | (acc', Ok _) =>
      paused (header acc) = 0 ∧ zlen (rr_callback_discriminator args) ≤ 8 ∧
      fits_limits (compact_meta <$> rr_callback_accounts_metas args) (rr_callback_args args) ∧
      same_frame acc acc' ∧
      ∃ i pos, 0 ≤ i ≤ zlen rs ∧ 16 ≤ pos < zlen acc ∧ pos mod 8 = 0 ∧
        represents acc' (insert_at i (stored_request args slot slothash time hp scoped bump pos) rs)
  | (acc', Err e) => acc' = acc ∧
      ((e = vrf_error QueuePaused ∧ paused (header acc) ≠ 0) ∨
       (e = vrf_error ArgumentSizeTooLarge ∧ paused (header acc) = 0 ∧
        (8 < zlen (rr_callback_discriminator args) ∨
         ¬ fits_limits (compact_meta <$> rr_callback_accounts_metas args) (rr_callback_args args))) ∨
       (e = AccountDataTooSmall ∧ paused (header acc) = 0 ∧
        zlen (rr_callback_discriminator args) ≤ 8 ∧
        fits_limits (compact_meta <$> rr_callback_accounts_metas args) (rr_callback_args args) ∧
        zlen acc < align_up (cursor (header acc)) +
          item_total (rr_callback_discriminator args)
            (compact_meta <$> rr_callback_accounts_metas args) (rr_callback_args args)))
  | (_, Panic) => False
  end.
Proof.
  intros Hrep Hwf Hslot Hbump.
  unfold request_queue_step, mbind, queue_op_bind, q_get, q_lift, ensure.
  destruct (Z.eqb_spec (paused (header acc)) 0) as [Hp|Hp]; [|by auto].
  destruct (Z.leb_spec (zlen (rr_callback_discriminator args)) 8) as [Hd|Hd]; [|by auto 7].
  pose proof (request_add_args args slot slothash time hp scoped bump Hwf Hslot Hbump Hd) as Hargs.
  pose proof (represents_add Hargs (args:=rr_callback_args args) acc rs Hrep) as Ha.
  destruct (add_item_with_id _ _ _ _ _ acc) as [acc' [i|e|]]; [|naive_solver|done].
  destruct Ha as (Hlim & Hi & Hf & pos & Hp16 & Hp8 & Hpl & Hr). unfold mret, queue_op_ret.
  destruct (item_total_bounds Hargs Hlim) as [Htot _].
  split_and!; try done. exists i, pos. split_and!; try done; lia.
Qed.

Lemma request_cost_fits hp : fits 64 (request_cost hp).
Proof. destruct hp; unfold request_cost, fits, VRF_HIGH_PRIORITY_LAMPORTS_COST, VRF_LAMPORTS_COST; lia. Qed.

(** The payment at the end of a request. *)
Lemma pay_request signer queue cost infos σ σ' :
  key signer ≠ key queue → fits 64 cost →
  (if negb (is_fee_exempt_ephemeral_queue (key queue))
   then run_store (invoke_signed (system_transfer (key signer) (key queue) cost) infos [])
   else mret ()) σ = Ok ((), σ') →
  let fee := if is_fee_exempt_ephemeral_queue (key queue) then 0 else cost in
  (∀ k, data_at σ' k = data_at σ k) ∧ (∀ k, owner_at σ' k = owner_at σ k) ∧
  lamports_at σ' (key queue) = lamports_at σ (key queue) + fee ∧
  lamports_at σ' (key signer) = lamports_at σ (key signer) - fee.
Proof.
  intros Hne Hcost H. destruct (is_fee_exempt_ephemeral_queue (key queue)); cbn [negb] in H; inv_M.
  - cbv zeta. split_and!; try done; lia.
  - apply transfer_law in H as [_ Heq]; [|done]. cbv zeta. unfold store_eq in Heq. split_and!.
    + intros k. by rewrite Heq, move_lamports_data.
    + intros k. by rewrite Heq, move_lamports_owner.
    + by rewrite Heq, move_lamports_to.
    + by rewrite Heq, move_lamports_from.
Qed.

(** The accounts of a request pass the checks of the handler. *)
Record request_accounts_ok (signer identity queue slothashes : AccountInfo)
    (args : RequestRandomness) (σ : Store) : Prop := {
  rao_signer : info_is_signer signer = true;
  rao_identity : key identity = fst (find_program_address [IDENTITY] (rr_callback_program_id args));
  rao_identity_signer : info_is_signer identity = true;
  rao_queue_writable : info_is_writable queue = true;
  rao_queue_owner : owner_at σ (key queue) = ID;
  rao_slothashes_owner : owner_at σ (key slothashes) = sysvar_ID;
  rao_slothashes : key slothashes = slot_hashes_ID;
  rao_slothashes_data : 48 ≤ zlen (data_at σ (key slothashes));
}.

(** What a successful run implies, in the terms of the code. *)
Lemma request_randomness_inv signer identity queue system slothashes d hp scoped σ σ' rs :
  queue_data (data_at σ (key queue)) rs →
  process_request_randomness [signer; identity; queue; system; slothashes] d hp scoped σ = Ok ((), σ') →
  ∃ args clock acc acc',
    let bump := if scoped then snd (scoped_identity_pda (rr_callback_program_id args)) else 0 in
    request_deserialize d = Some args ∧ clock_get = Ok clock ∧
    request_accounts_ok signer identity queue slothashes args σ ∧
    data_at σ (key queue) = discriminator_to_bytes DQueue ++ acc ∧ represents acc rs ∧ fits 8 bump ∧
    request_queue_step args (clock_slot clock) (slice (data_at σ (key slothashes)) 16 48)
      (clock_unix_timestamp clock) hp scoped bump acc = (acc', Ok ()) ∧
    (if negb (is_fee_exempt_ephemeral_queue (key queue))
     then run_store (invoke_signed (system_transfer (key signer) (key queue) (request_cost hp))
                       [signer; queue; system] [])
     else mret ()) (upd_data σ (key queue) (discriminator_to_bytes DQueue ++ acc')) = Ok ((), σ').
Proof.
  intros Hq Hrun. unfold process_request_randomness in Hrun.
  unfold is_sysvar, RequestRandomness_try_from_bytes, invoke in Hrun. inv_M. inv_outcome.
  match goal with H : index_range _ _ _ = Ok _ |- _ => apply index_range_Ok in H as (_ & Hlen & Hsh) end.
  match goal with H : with_queue _ _ _ = _ |- _ =>
    eapply with_queue_represents in H as (acc & acc' & Hrep & Hd & Hm & ->); [|exact Hq] end.
  match goal with H : request_deserialize d = Some ?a, H' : clock_get = Ok ?c |- _ =>
    exists a, c, acc, acc' end.
  intros bump. assert (fits 8 bump) as Hb.
  { unfold bump. destruct scoped; [apply bump_fits|unfold fits; lia]. }
  rewrite <- Hsh. split; [eassumption|]. split; [eassumption|].
  split; [constructor; eassumption|]. repeat (split; [eassumption|]). exact Hrun.
Qed.

(** C9. A successful request: the payer and the identity PDA of the callback
    program signed, the queue is owned by the program and not paused, the
    arguments are within the limits; one request, stamped with the current
    slot and time and identified by the combined hash at its position, was
    inserted and the others kept in order; and the queue received exactly
    the fee of its priority (nothing, if it is exempt). *)
Theorem request_randomness_success signer identity queue system slothashes d hp scoped σ σ' rs :
  queue_data (data_at σ (key queue)) rs → key signer ≠ key queue →
  (∀ args, request_deserialize d = Some args → request_wf args) →
  process_request_randomness [signer; identity; queue; system; slothashes] d hp scoped σ = Ok ((), σ') →
  ∃ args clock i pos,
    let bump := if scoped then snd (scoped_identity_pda (rr_callback_program_id args)) else 0 in
    let fee := if is_fee_exempt_ephemeral_queue (key queue) then 0 else request_cost hp in
    request_deserialize d = Some args ∧ clock_get = Ok clock ∧
    info_is_signer signer = true ∧ info_is_signer identity = true ∧
    key identity = fst (find_program_address [IDENTITY] (rr_callback_program_id args)) ∧
    info_is_writable queue = true ∧ owner_at σ (key queue) = ID ∧
    (∃ h, Queue_try_from_bytes (data_at σ (key queue)) = Ok h ∧ paused h = 0) ∧
    zlen (rr_callback_discriminator args) ≤ 8 ∧ zlen (rr_callback_accounts_metas args) ≤ 25 ∧
    zlen (rr_callback_args args) ≤ 512 ∧ 0 ≤ i ≤ zlen rs ∧
    queue_data (data_at σ' (key queue))
      (insert_at i (stored_request args (clock_slot clock) (slice (data_at σ (key slothashes)) 16 48)
         (clock_unix_timestamp clock) hp scoped bump pos) rs) ∧
    lamports_at σ' (key queue) = lamports_at σ (key queue) + fee ∧
    lamports_at σ' (key signer) = lamports_at σ (key signer) - fee.
Proof.
  intros Hq Hne Hwf Hrun.
  destruct (request_randomness_inv signer identity queue system slothashes d hp scoped σ σ' rs Hq Hrun)
    as (args & clock & acc & acc' & Hargs & Hclock & [] & Hd & Hrep & Hb & Hm & Hpay).
  pose proof (request_queue_step_spec acc rs args (clock_slot clock)
                (slice (data_at σ (key slothashes)) 16 48) (clock_unix_timestamp clock)
                hp scoped _ Hrep (Hwf _ Hargs) (clock_fits _ Hclock) Hb) as Hstep.
  rewrite Hm in Hstep. destruct Hstep as (Hp & Hdl & [Hml Hal] & _ & i & pos & Hi & Hpos & _ & Hrep').
  rewrite zlen_fmap in Hml. destruct (represents_bounds Hrep) as [? _]. clear Hrun. rename Hpay into Hrun.
  destruct (pay_request _ _ _ _ _ _ Hne (request_cost_fits hp) Hrun) as (Hdata & _ & Hql & Hsl).
  exists args, clock, i, pos. intros bump' fee.
  split_and!; try done.
  - exists (header acc). by rewrite Hd, Queue_try_from_bytes_app by lia.
  - lia.
  - lia.
  - rewrite (Hdata (key queue)), get_upd_data. exists acc'. done.
  - by rewrite Hql, lamports_upd_data.
  - by rewrite Hsl, lamports_upd_data.
Qed.

(** Behind the checks, the handler is its queue step and the payment. *)
Lemma request_randomness_eq signer identity queue system slothashes d hp scoped σ rs acc args clock :
  data_at σ (key queue) = discriminator_to_bytes DQueue ++ acc → represents acc rs →
  request_deserialize d = Some args → clock_get = Ok clock →
  request_accounts_ok signer identity queue slothashes args σ →
  process_request_randomness [signer; identity; queue; system; slothashes] d hp scoped σ =
    match request_queue_step args (clock_slot clock) (slice (data_at σ (key slothashes)) 16 48)
            (clock_unix_timestamp clock) hp scoped
            (if scoped then snd (scoped_identity_pda (rr_callback_program_id args)) else 0) acc with
    | (acc', Ok _) =>
        (if negb (is_fee_exempt_ephemeral_queue (key queue)) then
           invoke (system_transfer (key signer) (key queue) (request_cost hp)) [signer; queue; system]
         else mret ()) (upd_data σ (key queue) (discriminator_to_bytes DQueue ++ acc'))
    | (_, Err e) => Err e
    | (_, Panic) => Panic
    end.
Proof.
  intros Hd Hrep Hargs Hclock []. destruct (represents_bounds Hrep) as [? _].
  unfold process_request_randomness, RequestRandomness_try_from_bytes, is_sysvar.
  rewrite Hargs. erewrite M_step by (by apply lift_Ok). cbv zeta.
  erewrite M_check by (by apply is_signer_Ok).
  erewrite M_check by (by apply has_seeds_Ok).
  erewrite M_check by (by apply is_signer_Ok).
  erewrite M_check by (by apply is_writable_Ok).
  erewrite M_check by (by apply has_owner_Ok).
  erewrite M_check by (apply M_bind_Ok; eexists (), _; by rewrite has_owner_Ok, has_address_Ok).
  erewrite M_step by (by apply data_Ok).
  erewrite M_step by (apply lift_Ok; split; [by apply index_range_Ok|done]).
  erewrite M_step by (by apply lift_Ok).
  erewrite M_step by (by apply data_Ok).
  erewrite M_step by (apply lift_Ok; split; [apply Queue_try_from_bytes_app; lia|done]).
  rewrite (with_queue_eq _ _ _ _ _ _ Hd Hrep).
  destruct (request_queue_step _ _ _ _ _ _ _ acc) as [acc' [u|e|]]; done.
Qed.

(** C33. The outcome of a request whose accounts pass the checks: a paused
    queue refuses it, arguments over the limits are refused, and otherwise
    it succeeds whenever there are enough bytes behind the cursor and the
    payer can pay. *)
Theorem request_randomness_outcome signer identity queue system slothashes d hp scoped σ rs acc args clock :
  data_at σ (key queue) = discriminator_to_bytes DQueue ++ acc → represents acc rs →
  request_deserialize d = Some args → request_wf args → clock_get = Ok clock →
  request_accounts_ok signer identity queue slothashes args σ →
  let run := process_request_randomness [signer; identity; queue; system; slothashes] d hp scoped σ in
  let metas := compact_meta <$> rr_callback_accounts_metas args in
  let allowed := zlen (rr_callback_discriminator args) ≤ 8 ∧ fits_limits metas (rr_callback_args args) in
  (paused (header acc) ≠ 0 → run = Err (vrf_error QueuePaused)) ∧
  (paused (header acc) = 0 → ¬ allowed → run = Err (vrf_error ArgumentSizeTooLarge)) ∧
  (paused (header acc) = 0 → allowed →
   align_up (cursor (header acc)) + item_total (rr_callback_discriminator args) metas (rr_callback_args args)
     ≤ zlen acc →
   (∀ acc', ∃ σ', invoke_signed (system_transfer (key signer) (key queue) (request_cost hp))
      [signer; queue; system] [] (upd_data σ (key queue) (discriminator_to_bytes DQueue ++ acc')) = Ok σ') →
   ∃ σ', run = Ok ((), σ')).
Proof.
  intros Hd Hrep Hargs Hwf Hclock Hok run metas allowed. subst run.
  rewrite (request_randomness_eq _ _ _ _ _ _ _ _ _ _ _ _ _ Hd Hrep Hargs Hclock Hok).
  set (bump := if scoped then _ else _). set (sh := slice _ 16 48).
  assert (fits 8 bump) as Hb by (unfold bump; destruct scoped; [apply bump_fits|unfold fits; lia]).
  pose proof (request_queue_step_spec acc rs args (clock_slot clock) sh (clock_unix_timestamp clock)
                hp scoped bump Hrep Hwf (clock_fits _ Hclock) Hb) as Hstep. fold metas in Hstep.
  destruct (request_queue_step _ _ _ _ _ _ _ acc) as [acc' [u|e|]]; [| |done].
  - destruct Hstep as (Hp & Hdl & Hlim & _). split_and!; [done|intros _ []; by split|].
    intros _ _ _ Hcpi. destruct (is_fee_exempt_ephemeral_queue (key queue)); cbn [negb]; [by eexists|].
    destruct (Hcpi acc') as [σ' Hσ']. exists σ'. unfold invoke. by apply run_store_Ok.
  - destruct Hstep as [-> Hcases]. unfold allowed.
    destruct Hcases as [[-> ?]|[(-> & ? & Hbig)|(-> & ? & ? & ? & ?)]]; split_and!; try done.
    + intros _ [??]. by destruct Hbig; [lia|].
    + intros _ Hn. exfalso. by apply Hn.
    + intros _ _ ?. lia.
Qed.
End Request.
