(* ===== verification/ProvideTheorems.v ===== *)
(** * Providing randomness: theorems

    The handler [process_provide_randomness]: which requests can be
    fulfilled, by whom and with what proof, what the callback program
    receives, and that a request is fulfilled and paid at most once. *)

From S2P Require Import Prelude Pod Api QueueLayout QueueAccount QueueInv QueueAdd QueueSpec QueueTheorems Solana Accounts Instructions Verify Handlers Provide Reason Laws.

(** The removed item and the callback data are those of the request [r]. *)
Record removed_as (x : removed_request) (r : request) : Prop := {
  ra_program : callback_program_id (rm_item x) = r_program r;
  ra_priority : priority_request (rm_item x) = r_priority r;
  ra_mode : identity_mode (rm_item x) = r_identity_mode r;
  ra_bump : identity_bump (rm_item x) = r_identity_bump r;
  ra_metas : rm_metas x = r_metas r;
  ra_disc : rm_disc x = r_disc r;
  ra_args : rm_args x = r_args r;
}.

(** The proof of a [ProvideRandomness] instruction. *)
Definition proof_of (args : ProvideRandomness) : list byte * list byte * list byte :=
  (pr_commitment_base args, pr_commitment_hash args, pr_scalar args).

Section Provide.
Context {rt : Runtime} {ob : OraclesBorsh} {rb : RequestBorsh}.

(** What the handler does with the queue, on every branch. *)
Lemma provide_queue_step_spec acc rs args oracle_key pk :
  represents acc rs →
  let run := provide_queue_step args oracle_key pk acc in
  match list_find (λ r, r_id r = pr_input args) rs with
  | None => run = (acc, Err (vrf_error RandomnessRequestNotFound))
  | Some (i, r) =>
    if existsb (λ m, bytes_eqb (meta_pubkey m) oracle_key) (r_metas r)
    then run = (acc, Err (vrf_error InvalidCallbackAccounts))
    else match clock_get with
         | Ok clock =>
           if clock_slot clock <=? r_slot r
           then run = (acc, Err (vrf_error OracleMustProvideInDifferentSlot))
           else if verify_vrf pk (pr_input args) (pr_output args) (proof_of args)
           then ∃ acc' x, run = (acc', Ok x) ∧ removed_as x r ∧ same_frame acc acc' ∧
                          represents acc' (delete i rs)
           else run = (acc, Err (vrf_error InvalidProof))
         | Err e => run = (acc, Err e)
         | Panic => run = (acc, Panic)
         end
  end.
Proof.
  intros Hrep run. subst run. pose proof (represents_find Hrep (pr_input args)) as Hfind.
  unfold provide_queue_step, mbind, queue_op_bind, q_get, q_lift, proof_of.
  destruct (find_item_by_id _ acc) as [[n it]|]; destruct (list_find _ rs) as [[i r]|] eqn:Hf; try done.
  destruct Hfind as (-> & Hreads & _). cbn [ok_or].
  rewrite (ir_metas _ _ _ Hreads). destruct (existsb _ _); [done|]. cbn [negb ensure].
  destruct clock_get as [clock|e|]; [|done..].
  rewrite (ir_slot _ _ _ Hreads). destruct (_ <=? _); [done|]. cbn [negb ensure].
  destruct (verify_vrf _ _ _ _); [|done]. cbn [ensure].
  pose proof (represents_remove Hrep (Z.of_nat i) ltac:(lia)) as Hrm. rewrite Nat2Z.id in Hrm.
  apply list_find_Some in Hf as (Hl & _). rewrite Hl in Hrm.
  destruct Hrm as (acc' & it' & -> & Hrep' & Hframe & Hr' & _).
  rewrite (ir_metas _ _ _ Hr'), (ir_disc _ _ _ Hr'), (ir_args _ _ _ Hr').
  eexists _, _. split; [reflexivity|]. split_and!; [|done|done]. by destruct Hr'.
Qed.

Lemma provide_queue_step_Ok acc rs args oracle_key pk acc' x :
  represents acc rs → provide_queue_step args oracle_key pk acc = (acc', Ok x) →
  ∃ i r clock, list_find (λ r, r_id r = pr_input args) rs = Some (i, r) ∧
    Forall (λ m, meta_pubkey m ≠ oracle_key) (r_metas r) ∧
    clock_get = Ok clock ∧ r_slot r < clock_slot clock ∧
    verify_vrf pk (pr_input args) (pr_output args) (proof_of args) = true ∧
    removed_as x r ∧ same_frame acc acc' ∧ represents acc' (delete i rs).
Proof.
  intros Hrep Hrun. pose proof (provide_queue_step_spec acc rs args oracle_key pk Hrep) as H.
  cbv zeta in H. rewrite Hrun in H.
  destruct (list_find _ rs) as [[i r]|]; [|done].
  destruct (existsb _ _) eqn:Hex; [done|]. destruct clock_get as [clock|e|]; [|done..].
  destruct (Z.leb_spec (clock_slot clock) (r_slot r)); [done|].
  destruct (verify_vrf _ _ _ _) eqn:Hv; [|done].
  destruct H as (acc1 & x1 & [= <- <-] & Hra & Hframe & Hrep'). exists i, r, clock.
  split_and!; try done. apply Forall_forall. intros m Hm Heq.
  apply not_true_iff_false in Hex. apply Hex, existsb_exists. exists m.
  split; [by apply list_elem_of_In|]. by apply bytes_eqb_eq.
Qed.

(** The identity that signs the callback of [r], and its signer seeds. *)
Definition callback_identity (r : request) (remaining : list AccountInfo) (σ : Store)
    (identity : list byte) (seeds : list (list (list byte))) : Prop :=
  if r_identity_mode r =? 1
  then create_program_address [IDENTITY; r_program r; [byte.of_Z (r_identity_bump r)]] ID = Some identity ∧
       seeds = [[IDENTITY; r_program r; [byte.of_Z (r_identity_bump r)]]]
  else identity = fst program_identity_pda ∧
       seeds = [[IDENTITY; [byte.of_Z (snd program_identity_pda)]]] ∧
       has_disallowed_executable_callback_account remaining σ = false.

Lemma invoke_callback_Ok x r ix cb pid rem σ σ' :
  removed_as x r → invoke_callback x ix cb pid rem σ = Ok ((), σ') →
  ∃ seeds, callback_identity r rem σ (key pid) seeds ∧ invoke_signed ix (cb :: pid :: rem) seeds σ = Ok σ'.
Proof.
  intros [Hp _ Hmode Hbump _ _ _] H. unfold invoke_callback in H. unfold callback_identity.
  rewrite Hp, Hmode, Hbump in H. destruct (r_identity_mode r =? 1); inv_M; inv_outcome.
  - subst. eexists. by repeat split.
  - apply negb_true_iff in H0. eexists. by repeat split.
Qed.

(** Everything a successful run of the handler implies, in the order of the code. *)
Lemma provide_randomness_inv o pid od q cb rem d σ σ' rs :
  queue_data (data_at σ (key q)) rs →
  process_provide_randomness (o :: pid :: od :: q :: cb :: rem) d σ = Ok ((), σ') →
  ∃ args oracle header i r clock acc' seeds σ2,
    let σ1 := upd_data σ (key q) (discriminator_to_bytes DQueue ++ acc') in
    let ix := mkInstruction (r_program r)
      (mkAccountMeta (key pid) true false :: (to_account_meta <$> r_metas r))
      (r_disc r ++ hash (pr_output args) ++ r_args r) in
    args_try_from_bytes d = Ok args ∧
    (info_is_signer o = true ∧ key od = fst (find_program_address [ORACLE_DATA; key o] ID) ∧
     owner_at σ (key od) = ID ∧ try_from_bytes (data_at σ (key od)) = Ok oracle) ∧
    (Queue_try_from_bytes (data_at σ (key q)) = Ok header ∧ info_is_writable q = true ∧
     owner_at σ (key q) = ID ∧
     key q = fst (find_program_address [QUEUE; key o; [byte.of_Z (queue_index header)]] ID)) ∧
    (list_find (λ r, r_id r = pr_input args) rs = Some (i, r) ∧
     Forall (λ m, meta_pubkey m ≠ key o) (r_metas r) ∧
     clock_get = Ok clock ∧ r_slot r < clock_slot clock ∧
     verify_vrf (vrf_pubkey oracle) (pr_input args) (pr_output args) (proof_of args) = true) ∧
    (represents acc' (delete i rs) ∧ header_index (discriminator_to_bytes DQueue ++ acc') = header_index (data_at σ (key q))) ∧
    (key cb = r_program r ∧ callback_identity r rem σ1 (key pid) seeds ∧
     invoke_signed ix (cb :: pid :: rem) seeds σ1 = Ok σ2) ∧
    (if is_fee_exempt_ephemeral_queue (key q) then σ' = σ2
     else key q ≠ key o ∧ r_cost r ≤ lamports_at σ2 (key q) ∧
          σ' = move_lamports σ2 (key q) (key o) (r_cost r)).
Proof.
  intros Hq Hrun. unfold process_provide_randomness in Hrun. inv_M.
  match goal with H : with_queue _ _ _ = _ |- _ =>
    eapply with_queue_represents in H as (acc & acc' & Hrep & Hd & Hm & ->); [|exact Hq] end.
  apply (provide_queue_step_Ok acc rs) in Hm as (i & r & clock & Hf & Hmetas & Hc & Hs & Hv & Hra & Hframe & Hrep');
    [|done].
  match goal with H : invoke_callback _ _ _ _ _ _ = Ok (?u, _) |- _ =>
    destruct u; apply (invoke_callback_Ok _ r) in H as (seeds & Hid & Hcpi); [|done] end.
  pose proof Hra as [Hprog Hprio _ _ Hrm Hrd Hrarg]. unfold callback_instruction in Hcpi.
  rewrite Hprog, Hrm, Hrd, Hrarg in Hcpi.
  match goal with H : key cb = _ |- _ => rewrite Hprog in H end.
  eexists _, _, _, i, r, clock, acc', seeds, _. cbv zeta.
  split; [eassumption|]. split; [split_and!; eassumption|]. split; [split_and!; eassumption|].
  split; [split_and!; eassumption|].
  split; [split; [done|rewrite Hd, !header_index_app; apply Hframe]|]. split; [split_and!; eassumption|].
  destruct (is_fee_exempt_ephemeral_queue (key q)); cbn [negb] in Hrun; [by inv_M|].
  apply transfer_fee_Ok in Hrun as (? & ? & _ & ->). unfold item_cost, r_cost in *.
  rewrite Hprio in *. done.
Qed.

(** The callback instruction the program of request [r] receives. *)
Definition callback_of (r : request) (identity output : list byte) : Instruction :=
  mkInstruction (r_program r) (mkAccountMeta identity true false :: (to_account_meta <$> r_metas r))
    (r_disc r ++ hash output ++ r_args r).

(** C2. Randomness is only ever provided by the oracle that owns the queue,
    for a request that is in it, in a slot after the request's, with a proof
    that verifies under the oracle's registered VRF key for the id of the
    request; the oracle is not among the callback accounts; and the callback
    is made once, to the requester's program, signed by the identity of the
    request's mode, with the hash of the verified output between the
    requester's discriminator and arguments, after the request was taken
    out of the queue. *)
Theorem provide_randomness_sound o pid od q cb rem d σ σ' rs :
  queue_data (data_at σ (key q)) rs →
  process_provide_randomness (o :: pid :: od :: q :: cb :: rem) d σ = Ok ((), σ') →
  ∃ args oracle header i r clock σ1 σ2 seeds,
    args_try_from_bytes d = Ok args ∧ info_is_signer o = true ∧
    key od = fst (find_program_address [ORACLE_DATA; key o] ID) ∧ owner_at σ (key od) = ID ∧
    try_from_bytes (data_at σ (key od)) = Ok oracle ∧
    Queue_try_from_bytes (data_at σ (key q)) = Ok header ∧ owner_at σ (key q) = ID ∧
    key q = fst (find_program_address [QUEUE; key o; [byte.of_Z (queue_index header)]] ID) ∧
    rs !! i = Some r ∧ r_id r = pr_input args ∧
    clock_get = Ok clock ∧ r_slot r < clock_slot clock ∧
    verify_vrf (vrf_pubkey oracle) (r_id r) (pr_output args) (proof_of args) = true ∧
    Forall (λ m, meta_pubkey m ≠ key o) (r_metas r) ∧
    queue_data (data_at σ1 (key q)) (delete i rs) ∧
    (∀ k, k ≠ key q → get_account σ1 k = get_account σ k) ∧
    key cb = r_program r ∧ callback_identity r rem σ1 (key pid) seeds ∧
    invoke_signed (callback_of r (key pid) (pr_output args)) (cb :: pid :: rem) seeds σ1 = Ok σ2.
Proof.
  intros Hq Hrun. destruct (provide_randomness_inv o pid od q cb rem d σ σ' rs Hq Hrun)
    as (args & oracle & header & i & r & clock & acc' & seeds & σ2 & Ha & (Hsig & Hod & Hoo & Hor) &
        (Hh & _ & Hqo & Hqk) & (Hf & Hm & Hc & Hs & Hv) & [Hrep _] & (Hcb & Hid & Hcpi) & _).
  apply list_find_Some in Hf as (Hl & Hid' & _).
  exists args, oracle, header, i, r, clock,
    (upd_data σ (key q) (discriminator_to_bytes DQueue ++ acc')), σ2, seeds. rewrite Hid'.
  split_and!; try eassumption; [done|by apply queue_data_upd|]. intros k Hk. by apply get_upd_data_ne.
Qed.
End Provide.

(** ** After the callback *)

Section After.
Context {rt : Runtime} {ob : OraclesBorsh} {rb : RequestBorsh} {laws : RuntimeLaws}.

(** What is left when the callback program is not the VRF program itself. *)
Lemma provide_randomness_after o pid od q cb rem d σ σ' rs args :
  queue_data (data_at σ (key q)) rs → args_try_from_bytes d = Ok args →
  Forall (λ r, r_program r ≠ ID) rs →
  process_provide_randomness (o :: pid :: od :: q :: cb :: rem) d σ = Ok ((), σ') →
  ∃ i r, list_find (λ r, r_id r = pr_input args) rs = Some (i, r) ∧
    queue_data (data_at σ' (key q)) (delete i rs) ∧ owner_at σ' (key q) = ID ∧
    header_index (data_at σ' (key q)) = header_index (data_at σ (key q)) ∧
    (is_fee_exempt_ephemeral_queue (key q) = false → key q ≠ key o) ∧
    lamports_at σ (key q) - (if is_fee_exempt_ephemeral_queue (key q) then 0 else r_cost r)
      ≤ lamports_at σ' (key q).
Proof.
  intros Hq Hargs Hprog Hrun.
  destruct (provide_randomness_inv o pid od q cb rem d σ σ' rs Hq Hrun)
    as (args' & oracle & header & i & r & clock & acc' & seeds & σ2 & Ha & _ &
        (_ & _ & Hqo & _) & (Hf & _) & [Hrep Hix] & (_ & _ & Hcpi) & Hfee).
  rewrite Hargs in Ha. injection Ha as <-. exists i, r. split; [done|].
  apply list_find_Some in Hf as (Hl & _). apply list_elem_of_lookup_2 in Hl.
  rewrite Forall_forall in Hprog. specialize (Hprog _ Hl).
  eapply (cpi_isolation _ _ _ _ _ (key q)) in Hcpi as (Hlam & Hdata & Howner);
    [|exact Hprog|by rewrite owner_upd_data].
  rewrite lamports_upd_data in Hlam. rewrite get_upd_data in Hdata. cbn in Hdata.
  destruct (is_fee_exempt_ephemeral_queue (key q)).
  - subst σ'. split_and!; [by rewrite Hdata; exists acc'|done|by rewrite Hdata|done|lia].
  - destruct Hfee as (Hne & Hle & ->).
    rewrite move_lamports_data, move_lamports_owner, move_lamports_from by done.
    split_and!; [by rewrite Hdata; exists acc'|done|by rewrite Hdata|done|lia].
Qed.

(** C12. A request is fulfilled at most once: after a successful run the
    queue holds the other requests, unchanged and in order, and no further
    run for the same input succeeds, by whoever and with whatever proof. *)
Theorem provide_randomness_once o pid od q cb rem d σ σ' rs args o2 pid2 od2 cb2 rem2 d2 args2 :
  queue_data (data_at σ (key q)) rs → NoDup (r_id <$> rs) → Forall (λ r, r_program r ≠ ID) rs →
  args_try_from_bytes d = Ok args → args_try_from_bytes d2 = Ok args2 → pr_input args2 = pr_input args →
  process_provide_randomness (o :: pid :: od :: q :: cb :: rem) d σ = Ok ((), σ') →
  queue_data (data_at σ' (key q)) (filter (λ r, r_id r ≠ pr_input args) rs) ∧
  ∀ σ'', process_provide_randomness (o2 :: pid2 :: od2 :: q :: cb2 :: rem2) d2 σ' ≠ Ok ((), σ'').
Proof.
  intros Hq Hnd Hprog Ha Ha2 Hin Hrun.
  destruct (provide_randomness_after o pid od q cb rem d σ σ' rs args Hq Ha Hprog Hrun)
    as (i & r & Hf & Hq' & _).
  assert (delete i rs = filter (λ r, r_id r ≠ pr_input args) rs) as Hdel.
  { apply list_find_Some in Hf as (Hl & Hid & Hbefore). clear -Hl Hid Hnd Hbefore.
    revert i Hl Hbefore. induction rs as [|x rs IH]; intros i Hl Hbefore; [done|].
    rewrite fmap_cons, NoDup_cons in Hnd. destruct Hnd as [Hx Hnd]. destruct i as [|i].
    - injection Hl as ->. rewrite filter_cons_False by naive_solver. simpl. symmetry.
      apply filter_all, Forall_forall. intros y Hy Hyid. apply Hx. rewrite Hid, <- Hyid.
      apply list_elem_of_fmap. by exists y.
    - rewrite filter_cons_True by (by apply (Hbefore 0%nat); [done|lia]). simpl. f_equal.
      apply (IH Hnd i Hl). intros j y Hy ?. apply (Hbefore (S j)); [done|lia]. }
  rewrite Hdel in Hq'. split; [done|]. intros σ'' Hrun2.
  destruct (provide_randomness_inv o2 pid2 od2 q cb2 rem2 d2 σ' σ'' _ Hq' Hrun2)
    as (args' & _ & _ & j & r2 & _ & _ & _ & _ & Ha' & _ & _ & (Hf2 & _) & _).
  rewrite Ha2 in Ha'. injection Ha' as <-. apply list_find_Some in Hf2 as (Hl & Hid & _).
  apply list_elem_of_lookup_2, list_elem_of_filter in Hl as [Hne _]. by rewrite Hid, Hin in Hne.
Qed.
End After.
