(* ===== verification/QueueAdmin.v ===== *)
(** * Purging, closing, pausing and delegating a queue: theorems

    The handlers [process_purge_expired_requests], [process_close_oracle_queue],
    [process_set_queue_paused] and [process_delegate_oracle_queue]. *)

From S2P Require Import Prelude Pod Api QueueLayout QueueAccount QueueInv QueueAdd QueueSpec QueueTheorems QueueMark Solana Accounts Instructions Handlers Reason Laws.

(** ** Fees of purged requests *)

Lemma foldl_add_cost its rs t :
  Forall2 (λ it r, slot it = r_slot r ∧ item_id it = r_id r ∧
                   priority_request it = r_priority r ∧ used it = 0) its rs →
  0 ≤ t → t + pending_fees rs < 2 ^ 64 → foldl add_cost t its = t + pending_fees rs.
Proof.
  intros H. revert t. induction H as [|it r its rs (_ & _ & Hp & _) _ IH]; intros t Ht Hb; [simpl; lia|].
  cbn [foldl pending_fees] in *. pose proof (pending_fees_nonneg rs). pose proof (r_cost_pos r).
  assert (add_cost t it = t + r_cost r) as Hc.
  { unfold add_cost, item_cost, r_cost, saturating_add in *. rewrite Hp. apply Z.min_l. lia. }
  rewrite Hc, IH by lia. lia.
Qed.

Section Purge.
Context {rt : Runtime} {ob : OraclesBorsh} {rb : RequestBorsh}.

(** The queue operation of the purge handler. *)
Definition purge_step (now : Z) : queue_op Z := λ acc,
  let '(acc', total) := remove_items_matching (item_expired now) add_cost acc 0 in (acc', Ok total).

Lemma purge_step_spec acc rs now :
  represents acc rs →
  ∃ acc', purge_step now acc = (acc', Ok (pending_fees (filter (λ r, request_expired now r) rs))) ∧
    represents acc' (filter (λ r, negb (request_expired now r)) rs) ∧ same_frame acc acc'.
Proof.
  intros Hrep. assert (respects (item_expired now) (request_expired now)) as Hresp by done.
  destruct (represents_purge _ add_cost acc rs _ 0 Hrep Hresp) as (acc' & its & Hrm & Hrep' & Hf & _ & Hall).
  exists acc'. split_and!; [|done|done]. unfold purge_step. rewrite Hrm.
  rewrite (foldl_add_cost _ _ _ Hall); [done|lia|].
  pose proof (pending_fees_filter (request_expired now) rs).
  pose proof (pending_fees_nonneg (filter (λ r, negb (request_expired now r)) rs)).
  pose proof (pending_fees_bound rs). destruct (represents_bounds Hrep). lia.
Qed.

(** The checks of the purge handler: no signature is among them. *)
Record purge_accounts_ok (o q : AccountInfo) (index : Z) (σ : Store) : Prop := {
  pao_writable : info_is_writable q = true;
  pao_owner : owner_at σ (key q) = ID;
  pao_seeds : key q = fst (find_program_address [QUEUE; key o; [byte.of_Z index]] ID);
}.

(** What a purge at [now] makes of the store: the expired requests leave the
    queue [q], the header's index, pause flag and padding stay, and the
    lamports of their fees, if [pays], go from the queue to the oracle [o];
    nothing else of any account differs. *)
Record purged (o q : list byte) (now : Z) (pays : bool) (rs : list request) (σ σ' : Store) : Prop := {
  pu_queue : queue_data (data_at σ' q) (filter (λ r, negb (request_expired now r)) rs);
  pu_size : zlen (data_at σ' q) = zlen (data_at σ q);
  pu_header : ∃ h h', Queue_try_from_bytes (data_at σ q) = Ok h ∧ Queue_try_from_bytes (data_at σ' q) = Ok h' ∧
    queue_index h' = queue_index h ∧ paused h' = paused h ∧ queue_padding h' = queue_padding h;
  pu_data k : k ≠ q → data_at σ' k = data_at σ k;
  pu_owner k : owner_at σ' k = owner_at σ k;
  pu_executable k : a_executable (get_account σ' k) = a_executable (get_account σ k);
  pu_lamports k : lamports_at σ' k =
    if pays then
      let fees := pending_fees (filter (λ r, request_expired now r) rs) in
      if decide (k = q) then lamports_at σ k - fees
      else if decide (k = o) then lamports_at σ k + fees else lamports_at σ k
    else lamports_at σ k;
}.

(** The purge's own write, before the fees move. *)
Lemma purged_data o q now rs σ acc acc' :
  data_at σ q = discriminator_to_bytes DQueue ++ acc → same_frame acc acc' → represents acc rs →
  represents acc' (filter (λ r, negb (request_expired now r)) rs) →
  purged o q now false rs σ (upd_data σ q (discriminator_to_bytes DQueue ++ acc')).
Proof.
  intros Hd [Hlen Hi Hp Hpad] Hrep Hrep'. destruct (represents_bounds Hrep) as [? _].
  split; [by apply queue_data_upd|..].
  - rewrite get_upd_data, Hd. unfold zlen in *. cbn [a_data with_data]. rewrite !length_app. lia.
  - exists (header acc), (header acc'). rewrite get_upd_data, Hd. cbn [a_data with_data].
    split_and!; try done; apply Queue_try_from_bytes_app; lia.
  - intros k Hk. by rewrite get_upd_data_ne.
  - intros k. apply owner_upd_data.
  - intros k. destruct (decide (q = k)) as [<-|]; [by rewrite get_upd_data|by rewrite get_upd_data_ne].
  - intros k. apply lamports_upd_data.
Qed.

Lemma purged_pays o q now rs σ σ1 :
  o ≠ q → purged o q now false rs σ σ1 →
  purged o q now true rs σ (move_lamports σ1 q o (pending_fees (filter (λ r, request_expired now r) rs))).
Proof.
  intros Hne [Hq Hlen Hh Hd Ho He Hl]. split; rewrite ?move_lamports_data; try done.
  - intros k Hk. rewrite move_lamports_data. by apply Hd.
  - intros k. by rewrite move_lamports_owner.
  - intros k. by rewrite move_lamports_executable.
  - intros k. cbv zeta. destruct (decide (k = q)) as [->|]; [by rewrite move_lamports_from, Hl|].
    destruct (decide (k = o)) as [->|]; [by rewrite move_lamports_to, Hl|].
    by rewrite move_lamports_other, Hl.
Qed.

(** Purging, see [purge_expired_requests_spec]. *)
Lemma purge_runs o q d σ args clock rs :
  queue_data (data_at σ (key q)) rs → args_try_from_bytes d = Ok args → clock_get = Ok clock →
  purge_accounts_ok o q (qia_index args) σ →
  let now := created_at_from (clock_unix_timestamp clock) in
  let fees := pending_fees (filter (λ r, request_expired now r) rs) in
  let run := process_purge_expired_requests [o; q] d σ in
  let pays := (0 <? fees) && negb (is_fee_exempt_ephemeral_queue (key q)) in
  (pays = true → key q ≠ key o ∧ fees ≤ lamports_at σ (key q) ∧ lamports_at σ (key o) + fees < 2 ^ 64) →
  ∃ σ', run = Ok ((), σ') ∧ purged (key o) (key q) now pays rs σ σ'.
Proof.
  intros (acc & Hd & Hrep) Hargs Hclock [] now fees run pays Hpay. subst run.
  destruct (represents_bounds Hrep) as [? _].
  destruct (purge_step_spec acc rs now Hrep) as (acc' & Hstep & Hrep' & Hframe). fold fees in Hstep.
  unfold process_purge_expired_requests. rewrite Hargs.
  erewrite M_step by (by apply lift_Ok). erewrite M_check by (by apply is_writable_Ok).
  erewrite M_check by (by apply has_owner_Ok). erewrite M_check by (by apply has_seeds_Ok).
  erewrite M_step by (by apply lift_Ok). erewrite M_step by (by apply data_Ok).
  erewrite M_step by (apply lift_Ok; split; [rewrite ?Hd; apply Queue_try_from_bytes_app; lia|done]).
  fold now. change (λ acc0 : list byte, let '(_, _) := _ in _) with (purge_step now).
  rewrite (with_queue_eq _ _ _ _ _ _ Hd Hrep), Hstep. fold pays.
  pose proof (purged_data (key o) (key q) now rs σ acc acc' Hd Hframe Hrep Hrep') as H1.
  set (σ1 := upd_data σ (key q) _) in *.
  destruct pays; [|by exists σ1].
  destruct (Hpay eq_refl) as (Hne & Hle & Hov). exists (move_lamports σ1 (key q) (key o) fees).
  split; [|by apply purged_pays].
  apply transfer_fee_Ok. by rewrite !(pu_lamports _ _ _ _ _ _ _ H1).
Qed.

(** C20. Purging: anyone can do it. It takes exactly the expired requests out
    of the queue, keeps the others in order, and pays the oracle of the
    queue exactly their fees (nothing, if the queue is exempt). Nothing else
    changes: not the index, pause flag or padding of the queue's header, nor
    its size, and of no account anything but the lamports of those two. It
    succeeds if the queue can pay, which solvency grants, and the oracle's
    balance has room for the fees. *)
Theorem purge_expired_requests_spec o q d σ args clock rs :
  queue_data (data_at σ (key q)) rs → args_try_from_bytes d = Ok args → clock_get = Ok clock →
  purge_accounts_ok o q (qia_index args) σ →
  let now := created_at_from (clock_unix_timestamp clock) in
  let fees := pending_fees (filter (λ r, request_expired now r) rs) in
  let run := process_purge_expired_requests [o; q] d σ in
  let pays := (0 <? fees) && negb (is_fee_exempt_ephemeral_queue (key q)) in
  (pays = true → key q ≠ key o ∧ fees ≤ lamports_at σ (key q) ∧ lamports_at σ (key o) + fees < 2 ^ 64) →
  ∃ σ', run = Ok ((), σ') ∧ purged (key o) (key q) now pays rs σ σ'.
Proof. by apply purge_runs. Qed.
End Purge.

(** ** Pausing *)

Section Pause.
Context {rt : Runtime} {ob : OraclesBorsh} {rb : RequestBorsh}.

(** Only the oracle of a queue pauses or resumes it, with 0 or 1; that
    changes the pause flag and nothing else: not the requests, not another
    account, no balance. *)
Theorem set_queue_paused_spec o q d σ σ' rs :
  queue_data (data_at σ (key q)) rs →
  process_set_queue_paused [o; q] d σ = Ok ((), σ') →
  ∃ args h h', args_try_from_bytes d = Ok args ∧ info_is_signer o = true ∧ sqp_paused args ≤ 1 ∧
    owner_at σ (key q) = ID ∧
    key q = fst (find_program_address [QUEUE; key o; [byte.of_Z (sqp_index args)]] ID) ∧
    Queue_try_from_bytes (data_at σ (key q)) = Ok h ∧
    Queue_try_from_bytes (data_at σ' (key q)) = Ok h' ∧ h' = with_paused h (sqp_paused args) ∧
    queue_data (data_at σ' (key q)) rs ∧
    (∀ k, k ≠ key q → get_account σ' k = get_account σ k) ∧
    (∀ k, lamports_at σ' k = lamports_at σ k).
Proof.
  intros Hq Hrun. unfold process_set_queue_paused in Hrun. inv_M.
  eapply with_queue_represents in Hrun as (acc & acc' & Hrep & Hd & Hm & ->); [|exact Hq]. inv_q.
  destruct (represents_bounds Hrep) as [? _].
  assert (fits 8 (sqp_paused x)) as Hp.
  { unfold args_try_from_bytes, pod_try_from_bytes in H. destruct (Z.eqb_spec (zlen d) (size_of SetQueuePaused)); [|done].
    injection H as <-. pose proof (pod_read_wf (A:=SetQueuePaused) d e) as Hwf. by destruct Hwf. }
  destruct (represents_set_paused acc rs _ Hrep Hp) as (Hrep' & Hpaused & Hl).
  pose proof (set_paused_update (sqp_paused x) acc ltac:(lia) Hp) as Hu.
  exists x, (header acc), (header (set_paused (sqp_paused x) acc)).
  rewrite get_upd_data. cbn [a_data with_data]. split_and!; try done.
  - by apply Z.leb_le.
  - rewrite Hd. apply Queue_try_from_bytes_app. lia.
  - apply Queue_try_from_bytes_app. lia.
  - apply (hu_header _ _ _ Hu).
  - by exists (set_paused (sqp_paused x) acc).
  - intros k Hk. by rewrite get_upd_data_ne.
  - intros k. by rewrite lamports_upd_data.
Qed.
End Pause.

(** ** Closing *)

Section Close.
Context {rt : Runtime} {ob : OraclesBorsh} {rb : RequestBorsh} {laws : RuntimeLaws}.

Lemma close_account_Ok a r σ σ' u :
  close_account a r σ = Ok (u, σ') → key a ≠ key r →
  get_account σ' (key a) = mkAccount 0 [] system_program_ID (a_executable (get_account σ (key a))) ∧
  lamports_at σ' (key r) = as_u64 (lamports_at σ (key r) + lamports_at σ (key a)) ∧
  (∀ k, k ≠ key a → data_at σ' k = data_at σ k ∧ owner_at σ' k = owner_at σ k) ∧
  (∀ k, k ≠ key a → k ≠ key r → get_account σ' k = get_account σ k).
Proof.
  intros Hrun Hne. unfold close_account in Hrun. inv_M.
  match goal with H : Ok (account_assign _ _ _) = Ok _ |- _ => injection H as <- end.
  apply resize_law in Hrun; [|done].
  set (σ1 := upd_lamports (upd_lamports _ _ _) _ _) in *.
  assert (∀ k, k ≠ key a → get_account σ' k = get_account σ1 k) as Hoth.
  { intros k Hk. rewrite (Hrun k), get_upd_data_ne, assign_law by done. by rewrite decide_False. }
  split_and!.
  - rewrite (Hrun (key a)), get_upd_data, assign_law, decide_True by done.
    unfold with_data. cbn [a_lamports a_data a_owner a_executable].
    unfold σ1. rewrite get_upd_lamports. cbn [a_lamports a_executable with_lamports].
    rewrite get_upd_lamports_ne by done.
    assert (∀ l : list byte, take (Z.to_nat 0) l ++ zeros (0 - zlen l) = []) as Hnil.
    { intros l. pose proof (zlen_nonneg l). unfold zeros.
      replace (Z.to_nat (0 - zlen l)) with 0%nat by lia. done. }
    by rewrite Hnil.
  - rewrite Hoth by done. unfold σ1. rewrite get_upd_lamports_ne by done.
    by rewrite get_upd_lamports.
  - intros k Hk. rewrite Hoth by done. unfold σ1.
    by rewrite !data_upd_lamports, !owner_upd_lamports.
  - intros k Hk Hk'. rewrite Hoth by done. unfold σ1. by rewrite !get_upd_lamports_ne.
Qed.

(** C35. A queue is closed only by its oracle and only when it holds no
    request; the account is then empty and back with the system program,
    its whole balance is the oracle's, and the oracle counts one open queue
    less. *)
Theorem close_oracle_queue_spec o od q d σ σ' rs oracle :
  queue_data (data_at σ (key q)) rs → key q ≠ key o → key od ≠ key o →
  try_from_bytes (data_at σ (key od)) = Ok oracle →
  0 ≤ lamports_at σ (key o) → 0 ≤ lamports_at σ (key q) →
  lamports_at σ (key o) + lamports_at σ (key q) < 2 ^ 64 →
  process_close_oracle_queue [o; od; q] d σ = Ok ((), σ') →
  rs = [] ∧ info_is_signer o = true ∧
  (∃ args, args_try_from_bytes d = Ok args ∧
     key q = fst (find_program_address [QUEUE; key o; [byte.of_Z (qia_index args)]] ID) ∧
     key od = fst (find_program_address [ORACLE_DATA; key o] ID)) ∧
  data_at σ' (key q) = [] ∧ owner_at σ' (key q) = system_program_ID ∧ lamports_at σ' (key q) = 0 ∧
  lamports_at σ' (key o) = lamports_at σ (key o) + lamports_at σ (key q) ∧
  try_from_bytes (data_at σ' (key od)) = Ok (set_open_queues oracle (saturating_sub (open_queues oracle) 1)).
Proof.
  intros Hq Hne Hodo Hor Ho0 Hq0 Hov Hrun. unfold process_close_oracle_queue in Hrun. inv_M.
  match goal with H : with_queue _ _ _ = _ |- _ =>
    eapply with_queue_represents in H as (acc & acc' & Hrep & Hd & Hm & ->); [|exact Hq] end. inv_q.
  apply close_account_Ok in Hrun as (Hqa & Hol & Hdata & _); [|done].
  rewrite !lamports_upd_data in Hol.
  match goal with H : key od ≠ key q |- _ => rename H into Hodq end.
  match goal with H : try_from_bytes _ = Ok ?v |- _ =>
    rewrite get_upd_data_ne in H by congruence; rewrite Hor in H; injection H as <- end.
  rewrite (proj1 (Hdata (key od) ltac:(congruence))), get_upd_data.
  rewrite (get_upd_data_ne σ (key q) (key od)) by congruence.
  rewrite Hqa. split_and!; try done.
  - by apply (represents_is_empty Hrep).
  - eexists. by split_and!.
  - rewrite Hol, as_u64_small by fits_lia. done.
  - eapply try_from_bytes_store; [exact Hor|]. pose proof (try_from_bytes_wf _ _ Hor) as Hwf.
    rewrite Oracle_wf_iff in *. cbn. unfold saturating_sub. destruct_and!. split_and!; try done; fits_lia.
Qed.
End Close.

(** ** Delegating *)

Section Delegate.
Context {rt : Runtime} {ob : OraclesBorsh} {rb : RequestBorsh}.

(** The checks of the delegation handler. *)
Record delegate_accounts_ok (authority q owner_program : AccountInfo) (index : Z) (σ : Store) : Prop := {
  dao_signer : info_is_signer authority = true;
  dao_program : key owner_program = ID;
  dao_writable : info_is_writable q = true;
  dao_owner : owner_at σ (key q) = ID;
  dao_seeds : key q = fst (find_program_address [QUEUE; key authority; [byte.of_Z index]] ID);
}.

(** C36. Delegation happens exactly for a queue that holds no request and
    whose bytes behind the header are all zero, that is (with
    [used_queue_recognised]) one that never held a request; any other queue
    is refused as already in use. The delegation itself is asked for the
    queue's own seeds, with the system program as validator. *)
Theorem delegate_oracle_queue_spec authority q buffer record metadata program owner_program system
    d σ args rs :
  queue_data (data_at σ (key q)) rs → args_try_from_bytes d = Ok args →
  delegate_accounts_ok authority q owner_program (qia_index args) σ →
  let run := process_delegate_oracle_queue
    [authority; q; buffer; record; metadata; program; owner_program; system] d σ in
  (rs ≠ [] ∨ region_used (data_at σ (key q)) = true → run = Err (vrf_error QueueAlreadyInUse)) ∧
  (rs = [] → region_used (data_at σ (key q)) = false →
   run = (λ σ', ((), σ')) <$>
     delegate_account [authority; q; owner_program; buffer; record; metadata; program; system]
       [QUEUE; key authority; [byte.of_Z (qia_index args)]] 0 (Some system_program_ID) σ).
Proof.
  intros Hq Hargs [] run. destruct (queue_data_header _ _ Hq) as (h & Hh & Hn).
  assert (run = (require (negb (negb (item_count h =? 0) || region_used (data_at σ (key q))))
                   (vrf_error QueueAlreadyInUse);;
                 run_store (delegate_account
                   [authority; q; owner_program; buffer; record; metadata; program; system]
                   [QUEUE; key authority; [byte.of_Z (qia_index args)]] 0 (Some system_program_ID))) σ) as ->.
  { subst run. unfold process_delegate_oracle_queue. rewrite Hargs.
    erewrite M_step by (by apply lift_Ok). erewrite M_check by (by apply is_signer_Ok).
    erewrite M_check by (by apply has_address_Ok). erewrite M_check by (by apply is_writable_Ok).
    erewrite M_check by (by apply has_owner_Ok). erewrite M_check by (by apply has_seeds_Ok).
    erewrite M_step by (by apply data_Ok). erewrite M_step by (apply lift_Ok; split; [exact Hh|done]).
    rewrite size_of_Queue. done. }
  rewrite Hn. split.
  - intros Hused. apply M_step_Err.
    assert (negb (negb (zlen rs =? 0) || region_used (data_at σ (key q))) = false) as ->; [|done].
    apply negb_false_iff, orb_true_iff. destruct Hused as [Hne|Hu]; [left|by right].
    apply negb_true_iff, Z.eqb_neq. destruct rs as [|r rs']; [done|].
    rewrite zlen_cons. pose proof (zlen_nonneg rs'). lia.
  - intros -> Hu. rewrite Hu. cbn [negb orb]. by erewrite M_check by (by apply require_Ok).
Qed.
End Delegate.
