(* ===== verification/Vrf.v ===== *)
(** * The VRF: proving and verifying

    [vrf/src/vrf.rs], the oracle's side, over the curve library
    ([curve25519-dalek]) and HKDF, and its relation to the on-chain verifier
    of [Verify.v]. *)

From S2P Require Import Prelude Pod Api QueueLayout Solana Verify.

Definition VRF_PREFIX_NONCE : list byte := bytes_of_string "VRF-Ephem-Nonce".

(** The curve library: scalars, Ristretto points and their encodings. *)
Class Dalek : Type := {
  Scalar : Type;
  Point : Type;
  s_add : Scalar → Scalar → Scalar;
  s_mul : Scalar → Scalar → Scalar;
  p_add : Point → Point → Point;
  p_mul : Scalar → Point → Point;
  p_eqb : Point → Point → bool;
  basepoint : Point;
  compress : Point → list byte;
  decompress : list byte → option Point;
  scalar_to_bytes : Scalar → list byte;
  (** [Scalar::from_bytes_mod_order] *)
  from_bytes_mod_order : list byte → Scalar;
  (** [Hkdf::<Sha512>::new(Some(salt), ikm).expand(info, 64 bytes)] *)
  hkdf_expand : list byte → list byte → list byte → option (list byte);
}.

Section Vrf.
Context {rt : Runtime} {dk : Dalek}.

(** An [expect] or an explicit [panic!]. *)
Definition expect {A} (o : option A) : res A :=
  match o with Some a => Ok a | None => Panic end.

Definition generate_vrf_keypair (keypair : list byte) : res (Scalar * Point) :=
  okm ← expect (hkdf_expand (bytes_of_string "VRF-Solana-SecretKey") keypair (bytes_of_string "VRF-Key"));
  sk_bytes ← index_range okm 0 32;
  let sk := from_bytes_mod_order sk_bytes in
  mret (sk, p_mul sk basepoint).

Fixpoint vrf_hash_to_point_loop (attempts : nat) (counter : Z) (input : list byte) : res Point :=
  match attempts with
  | O => Panic
  | S attempts' =>
    let candidate := hashv [VRF_PREFIX_HASH_TO_POINT; counter_bytes counter; input] in
    match decompress candidate with
    | Some point => Ok point
    | None => vrf_hash_to_point_loop attempts' (counter + 1) input
    end
  end.

Definition vrf_hash_to_point (input : list byte) : res Point :=
  vrf_hash_to_point_loop HASH_TO_POINT_MAX_ATTEMPTS 0 input.

Definition vrf_hash_to_scalar (input : list byte) : Scalar :=
  from_bytes_mod_order (hash (VRF_PREFIX_HASH_TO_SCALAR ++ input)).

Definition vrf_challenge (output commitment_base commitment_hash pk input : list byte) : Scalar :=
  let challenge_input :=
    VRF_PREFIX_CHALLENGE ++ output ++ commitment_base ++ commitment_hash ++ pk ++ input in
  vrf_hash_to_scalar (hash challenge_input).

Definition vrf_nonce (sk : Scalar) (input : list byte) : res Scalar :=
  okm ← expect (hkdf_expand VRF_PREFIX_NONCE (scalar_to_bytes sk ++ input) (bytes_of_string "VRF-Nonce"));
  k_bytes ← index_range okm 0 32;
  mret (from_bytes_mod_order k_bytes).

Definition compute_vrf (sk : Scalar) (input : list byte)
    : res (list byte * (list byte * list byte * Scalar)) :=
  h ← vrf_hash_to_point input;
  let vrf_output := p_mul sk h in
  let pk := p_mul sk basepoint in
  k ← vrf_nonce sk input;
  let commitment_base := p_mul k basepoint in
  let commitment_hash := p_mul k h in
  let c := vrf_challenge (compress vrf_output) (compress commitment_base) (compress commitment_hash)
             (compress pk) input in
  let s := s_add k (s_mul c sk) in
  mret (compress vrf_output, (compress commitment_base, compress commitment_hash, s)).

Definition vrf_verify (pk : Point) (input output : list byte)
    (proof : list byte * list byte * Scalar) : res bool :=
  let '(commitment_base_compressed, commitment_hash_compressed, s) := proof in
  match decompress output with
  | None => Ok false
  | Some out =>
    match decompress commitment_base_compressed with
    | None => Ok false
    | Some commitment_base =>
      match decompress commitment_hash_compressed with
      | None => Ok false
      | Some commitment_hash =>
        h ← vrf_hash_to_point input;
        let c := vrf_challenge output commitment_base_compressed commitment_hash_compressed
                   (compress pk) input in
        let lhs_base := p_mul s basepoint in
        let rhs_base := p_add commitment_base (p_mul c pk) in
        let lhs_hash := p_mul s h in
        let rhs_hash := p_add commitment_hash (p_mul c out) in
        mret (p_eqb lhs_base rhs_base && p_eqb lhs_hash rhs_hash)
      end
    end
  end.
End Vrf.

(** ** Documented behaviour of the curve library and the syscalls *)

Class DalekLaws {dk : Dalek} : Prop := {
  p_eqb_eq P Q : p_eqb P Q = true ↔ P = Q;
  p_mul_add a b P : p_mul (s_add a b) P = p_add (p_mul a P) (p_mul b P);
  p_mul_mul a b P : p_mul (s_mul a b) P = p_mul a (p_mul b P);
  decompress_compress P : decompress (compress P) = Some P;
  compress_decompress b P : decompress b = Some P → compress P = b;
}.

Class SyscallLaws {rt : Runtime} {dk : Dalek} : Prop := {
  basepoint_bytes : compress basepoint = RISTRETTO_BASEPOINT_POINT;
  validate_law b : validate_ristretto b = true ↔ is_Some (decompress b);
  scalar_law b : scalar_from_bytes_mod_order b = scalar_to_bytes (from_bytes_mod_order b);
  multiply_law s b : multiply_ristretto (scalar_to_bytes s) b = (λ P, compress (p_mul s P)) <$> decompress b;
  add_law a b : add_ristretto a b =
    match decompress a, decompress b with
    | Some P, Some Q => Some (compress (p_add P Q))
    | _, _ => None
    end;
}.

Section Agreement.
Context {rt : Runtime} {dk : Dalek} {dl : DalekLaws} {sl : SyscallLaws}.

Lemma compress_inj P Q : compress P = compress Q → P = Q.
Proof. intros H. apply (f_equal decompress) in H. rewrite !decompress_compress in H. congruence. Qed.

Lemma compress_eqb P Q : bytes_eqb (compress P) (compress Q) = p_eqb P Q.
Proof.
  destruct (p_eqb P Q) eqn:H.
  - apply bytes_eqb_eq. by apply p_eqb_eq in H as ->.
  - apply bytes_eqb_neq. intros Heq%compress_inj. apply p_eqb_eq in Heq. congruence.
Qed.

Lemma hash_to_point_loops n c input :
  match vrf_hash_to_point_loop n c input with
  | Ok h => hash_to_point_loop n c input = Some (compress h)
  | Panic => hash_to_point_loop n c input = None
  | Err _ => False
  end.
Proof.
  revert c. induction n as [|n IH]; intros c; cbn [vrf_hash_to_point_loop hash_to_point_loop]; [done|].
  cbv zeta. destruct (decompress _) as [P|] eqn:Hd.
  - assert (validate_ristretto (hashv [VRF_PREFIX_HASH_TO_POINT; counter_bytes c; input]) = true) as ->
      by (apply validate_law; by eexists). by rewrite (compress_decompress _ _ Hd).
  - destruct (validate_ristretto _) eqn:Hv; [|apply IH].
    apply validate_law in Hv as [P HP]. congruence.
Qed.

Lemma challenge_scalar output cb ch pk input :
  challenge output cb ch pk input = scalar_to_bytes (vrf_challenge output cb ch pk input).
Proof. unfold challenge, hash_to_scalar, vrf_challenge, vrf_hash_to_scalar. apply scalar_law. Qed.

(** The on-chain verifier, on values of the curve library. *)
Lemma verify_vrf_points pk input output cb ch s :
  verify_vrf (compress pk) input output (cb, ch, scalar_to_bytes s) =
    match vrf_hash_to_point input, decompress cb, decompress ch, decompress output with
    | Ok h, Some B, Some H, Some out =>
      let c := vrf_challenge output cb ch (compress pk) input in
      p_eqb (p_mul s basepoint) (p_add B (p_mul c pk)) && p_eqb (p_mul s h) (p_add H (p_mul c out))
    | _, _, _, _ => false
    end.
Proof.
  unfold verify_vrf, hash_to_point, vrf_hash_to_point.
  pose proof (hash_to_point_loops HASH_TO_POINT_MAX_ATTEMPTS 0 input) as Hh.
  destruct (vrf_hash_to_point_loop _ _ _) as [h|e|]; [|done|by rewrite Hh]. rewrite Hh.
  rewrite !challenge_scalar. cbv zeta.
  rewrite <- basepoint_bytes, !multiply_law, !decompress_compress. cbn [fmap option_fmap option_map].
  rewrite !add_law, !decompress_compress.
  destruct (decompress cb) as [B|]; [|done]. destruct (decompress output) as [out|]; cbn [fmap option_fmap option_map].
  2: by destruct (decompress ch).
  rewrite add_law, decompress_compress. destruct (decompress ch) as [H|]; [|done].
  by rewrite !compress_eqb.
Qed.

(** C18. The two verifiers agree: the on-chain program accepts exactly the
    proofs that the oracle's own [verify_vrf] accepts; where the latter
    panics because no candidate hashes to a point, the program rejects. *)
Theorem verifiers_agree pk input output cb ch s :
  verify_vrf (compress pk) input output (cb, ch, scalar_to_bytes s) =
    match vrf_verify pk input output (cb, ch, s) with Ok b => b | _ => false end.
Proof.
  rewrite verify_vrf_points. unfold vrf_verify.
  destruct (decompress output) as [out|], (decompress cb) as [B|], (decompress ch) as [H|];
    destruct (vrf_hash_to_point input) as [h|e|]; done.
Qed.

(** What [compute_vrf] returns, on both verifiers. *)
Lemma compute_vrf_verifies sk input :
  match compute_vrf sk input with
  | Ok (output, (cb, ch, s)) =>
      let pk := p_mul sk basepoint in
      verify_vrf (compress pk) input output (cb, ch, scalar_to_bytes s) = true ∧
      vrf_verify pk input output (cb, ch, s) = Ok true ∧
      ∃ h, hash_to_point input = Some (compress h) ∧ output = compress (p_mul sk h)
  | Err _ => False
  | Panic => hash_to_point input = None ∨ vrf_nonce sk input = Panic
  end.
Proof.
  unfold compute_vrf. pose proof (hash_to_point_loops HASH_TO_POINT_MAX_ATTEMPTS 0 input) as Hh.
  fold (vrf_hash_to_point input) (hash_to_point input) in Hh.
  destruct (vrf_hash_to_point input) as [h|e|] eqn:Hv; [|done|by left]. cbn [mbind outcome_bind].
  destruct (vrf_nonce sk input) as [k|e|] eqn:Hk; cbn [mbind outcome_bind].
  - cbv zeta. cbn [mret outcome_ret]. cbv zeta.
    assert (∀ c P, p_eqb (p_mul (s_add k (s_mul c sk)) P) (p_add (p_mul k P) (p_mul c (p_mul sk P))) = true) as He.
    { intros c P. apply p_eqb_eq. by rewrite p_mul_add, p_mul_mul. }
    split_and!.
    + rewrite verify_vrf_points, Hv, !decompress_compress. cbv zeta. by rewrite !He.
    + unfold vrf_verify. rewrite !decompress_compress, Hv. cbn [mbind outcome_bind]. cbv zeta. by rewrite !He.
    + by exists h.
  - unfold vrf_nonce, expect, mbind, outcome_bind, index_range in Hk.
    destruct (hkdf_expand _ _ _) as [okm|]; [|done]. by destruct (in_range _ _ _).
  - by right.
Qed.

(** [vrf/examples/keygen.rs]: the public key and the validity it prints. *)
Definition keygen_main (keypair : list byte) : res (list byte * bool) :=
  '(sk, pk) ← generate_vrf_keypair keypair;
  let input_hash := hash (bytes_of_string "blockhash" ++ bytes_of_string "test-seed") in
  '(output, (commitment_base, commitment_hash, s)) ← compute_vrf sk input_hash;
  is_valid ← vrf_verify pk input_hash output (commitment_base, commitment_hash, s);
  mret (compress pk, is_valid).

(** It prints that the proof is valid. *)
Lemma keygen_valid keypair pk b : keygen_main keypair = Ok (pk, b) → b = true.
Proof.
  unfold keygen_main, generate_vrf_keypair. destruct (expect _) as [okm|e|]; [|done|done]. cbn [mbind outcome_bind].
  destruct (index_range okm 0 32) as [b32|e|]; [|done|done]. cbn [mbind outcome_bind mret outcome_ret].
  set (sk := from_bytes_mod_order b32). set (input := hash _). pose proof (compute_vrf_verifies sk input) as Hc.
  destruct (compute_vrf sk input) as [[output [[cb ch] s]]|e|]; [|done|done]. cbn [mbind outcome_bind].
  destruct Hc as (_ & Hv & _). rewrite Hv. cbn. by intros [= _ <-].
Qed.

(** C19. Completeness: whatever [compute_vrf] returns for a secret key is
    accepted on chain, and off chain, under the public key of that secret
    key; and it fails only if no candidate hashes to a point or HKDF fails. *)
Theorem compute_vrf_complete sk input :
  match compute_vrf sk input with
  | Ok (output, (cb, ch, s)) =>
      let pk := p_mul sk basepoint in
      verify_vrf (compress pk) input output (cb, ch, scalar_to_bytes s) = true ∧
      vrf_verify pk input output (cb, ch, s) = Ok true ∧
      ∃ h, hash_to_point input = Some (compress h) ∧ output = compress (p_mul sk h)
  | Err _ => False
  | Panic => hash_to_point input = None ∨ vrf_nonce sk input = Panic
  end.
Proof. exact (compute_vrf_verifies sk input). Qed.
End Agreement.

(** ** Special soundness *)

(** The further algebra of a prime-order group: scalars are a field. *)
Class DalekField {dk : Dalek} : Type := {
  s_sub : Scalar → Scalar → Scalar;
  s_inv : Scalar → Scalar;
  s_one : Scalar;
  p_sub : Point → Point → Point;
  s_mul_inv a b : a ≠ b → s_mul (s_inv (s_sub a b)) (s_sub a b) = s_one;
  p_mul_one P : p_mul s_one P = P;
  p_mul_sub a b P : p_mul (s_sub a b) P = p_sub (p_mul a P) (p_mul b P);
  p_sub_add_l R P Q : p_sub (p_add R P) (p_add R Q) = p_sub P Q;
}.

(** C17. Special soundness: if for the same commitments the verifier accepts
    under two different challenges (two answers of the hash oracle, here the
    hash functions of two runtimes), then a secret key can be computed from
    the responses that is the discrete logarithm of the public key and links
    the output to the hashed input: the accepted output is the VRF value of
    that key and cannot be chosen. *)
Theorem vrf_special_soundness {rt1 rt2 : Runtime} {dk : Dalek} {dl : DalekLaws}
    {sl1 : SyscallLaws (rt:=rt1)} {sl2 : SyscallLaws (rt:=rt2)} {df : DalekField}
    pk input output cb ch s1 s2 h out :
  hash_to_point (rt:=rt1) input = Some (compress h) → hash_to_point (rt:=rt2) input = Some (compress h) →
  decompress output = Some out →
  verify_vrf (rt:=rt1) (compress pk) input output (cb, ch, scalar_to_bytes s1) = true →
  verify_vrf (rt:=rt2) (compress pk) input output (cb, ch, scalar_to_bytes s2) = true →
  let c1 := vrf_challenge (rt:=rt1) output cb ch (compress pk) input in
  let c2 := vrf_challenge (rt:=rt2) output cb ch (compress pk) input in
  c1 ≠ c2 →
  let sk := s_mul (s_inv (s_sub c1 c2)) (s_sub s1 s2) in
  pk = p_mul sk basepoint ∧ out = p_mul sk h.
Proof.
  intros Hh1 Hh2 Hout H1 H2 c1 c2 Hne sk.
  pose proof (hash_to_point_loops (rt:=rt1) HASH_TO_POINT_MAX_ATTEMPTS 0 input) as Hl1.
  pose proof (hash_to_point_loops (rt:=rt2) HASH_TO_POINT_MAX_ATTEMPTS 0 input) as Hl2.
  rewrite (verify_vrf_points (rt:=rt1)), Hout in H1. rewrite (verify_vrf_points (rt:=rt2)), Hout in H2. fold c1 in H1. fold c2 in H2.
  unfold hash_to_point, vrf_hash_to_point in *. rewrite Hh1 in Hl1. rewrite Hh2 in Hl2.
  destruct (vrf_hash_to_point_loop (rt:=rt1) _ _ _) as [h1|e|]; [|done..].
  destruct (vrf_hash_to_point_loop (rt:=rt2) _ _ _) as [h2|e|]; [|done..].
  injection Hl1 as Hl1. injection Hl2 as Hl2. apply compress_inj in Hl1 as <-. apply compress_inj in Hl2 as <-.
  destruct (decompress cb) as [B|]; [|done]. destruct (decompress ch) as [H|]; [|done].
  apply andb_true_iff in H1 as [H1%p_eqb_eq H1'%p_eqb_eq], H2 as [H2%p_eqb_eq H2'%p_eqb_eq].
  assert (∀ R P X, p_mul s1 P = p_add R (p_mul c1 X) → p_mul s2 P = p_add R (p_mul c2 X) → X = p_mul sk P) as Hex.
  { intros R P X E1 E2. unfold sk. rewrite p_mul_mul, p_mul_sub, E1, E2, p_sub_add_l, <- p_mul_sub.
    by rewrite <- p_mul_mul, (s_mul_inv _ _ Hne), p_mul_one. }
  split; [by apply (Hex B)|by apply (Hex H)].
Qed.
