(* ===== verification/Solvency.v ===== *)
(** * Solvency of a queue

    The fee of a request is paid into the queue account when it is made and
    out of it when it is fulfilled or purged.  Over any sequence of
    transactions the queue holds at least what its pending requests cost, so
    no fulfilment and no purge ever fails for want of lamports. *)

From S2P Require Import Prelude Pod Api QueueLayout QueueAccount QueueInv QueueAdd QueueSpec QueueTheorems QueueMark Solana Accounts Instructions Verify Handlers Provide Reason Laws RequestTheorems ProvideTheorems QueueAdmin.

(** The decoder of a request returns values of the Rust types. *)
Class RequestBorshLaws {rb : RequestBorsh} : Prop := {
  request_deserialize_wf d args : request_deserialize d = Some args → request_wf args;
}.

(** One transaction on the accounts, seen from the queue [q]. *)
Inductive queue_tx {rt : Runtime} {ob : OraclesBorsh} {rb : RequestBorsh} (q : list byte)
    : Store → Store → Prop :=
| tx_request signer identity queue system slothashes d hp scoped σ σ' :
    key queue = q → key signer ≠ q →
    (∀ args, request_deserialize d = Some args → rr_callback_program_id args ≠ ID) →
    process_request_randomness [signer; identity; queue; system; slothashes] d hp scoped σ = Ok ((), σ') →
    queue_tx q σ σ'
| tx_provide o pid od queue cb rem d σ σ' :
    key queue = q →
    process_provide_randomness (o :: pid :: od :: queue :: cb :: rem) d σ = Ok ((), σ') →
    queue_tx q σ σ'
| tx_purge o queue d σ σ' :
    key queue = q → process_purge_expired_requests [o; queue] d σ = Ok ((), σ') → queue_tx q σ σ'
| tx_pause o queue d σ σ' :
    key queue = q → process_set_queue_paused [o; queue] d σ = Ok ((), σ') → queue_tx q σ σ'
(** anything that leaves the queue's data alone and takes nothing from it *)
| tx_other σ σ' :
    data_at σ' q = data_at σ q → owner_at σ' q = owner_at σ q → lamports_at σ q ≤ lamports_at σ' q →
    queue_tx q σ σ'.

(** The balance covers [reserve] (the rent) and every pending fee. *)
Record solvent (reserve : Z) (q : list byte) (σ : Store) (rs : list request) : Prop := {
  so_data : queue_data (data_at σ q) rs;
  so_owner : owner_at σ q = ID;
  so_programs : Forall (λ r, r_program r ≠ ID) rs;
  so_funds : reserve + pending_fees rs ≤ lamports_at σ q;
}.

Lemma Forall_insert_at {A} (P : A → Prop) i r rs : P r → Forall P rs → Forall P (insert_at i r rs).
Proof.
  intros Hr Hrs. unfold insert_at. apply Forall_app. split; [by apply Forall_take|].
  constructor; [done|by apply Forall_drop].
Qed.

Section Solvency.
Context {rt : Runtime} {ob : OraclesBorsh} {rb : RequestBorsh}.
Context {laws : RuntimeLaws} {rbl : RequestBorshLaws}.
Context (q : list byte) (Hnx : is_fee_exempt_ephemeral_queue q = false).

Lemma purge_inv o queue d σ σ' rs :
  queue_data (data_at σ (key queue)) rs →
  process_purge_expired_requests [o; queue] d σ = Ok ((), σ') →
  ∃ clock, clock_get = Ok clock ∧
    let now := created_at_from (clock_unix_timestamp clock) in
    let fees := pending_fees (filter (λ r, request_expired now r) rs) in
    queue_data (data_at σ' (key queue)) (filter (λ r, negb (request_expired now r)) rs) ∧
    owner_at σ' (key queue) = owner_at σ (key queue) ∧
    header_index (data_at σ' (key queue)) = header_index (data_at σ (key queue)) ∧
    (is_fee_exempt_ephemeral_queue (key queue) = false →
     lamports_at σ' (key queue) = lamports_at σ (key queue) - fees).
Proof.
  intros Hq Hrun. unfold process_purge_expired_requests in Hrun. inv_M.
  match goal with H : with_queue _ (λ acc, let '(_, _) := remove_items_matching (item_expired ?n) _ _ _ in _) _ = _ |- _ =>
    eapply (with_queue_represents queue (purge_step n)) in H as (acc & acc' & Hrep & Hd & Hm & ->); [|exact Hq] end.
  match goal with H : clock_get = Ok ?c |- _ => rename c into clock; exists clock; split; [done|] end.
  set (now := created_at_from (clock_unix_timestamp clock)) in *. intros now' fees. subst now'.
  destruct (purge_step_spec acc rs now Hrep) as (acc1 & Hstep & Hrep' & Hframe). fold fees in Hstep.
  rewrite Hstep in Hm. injection Hm as <- <-.
  assert (header_index (data_at (upd_data σ (key queue) (discriminator_to_bytes DQueue ++ acc1)) (key queue)) =
    header_index (data_at σ (key queue))) as Hix
    by (rewrite get_upd_data; cbn; rewrite Hd, !header_index_app; apply Hframe).
  pose proof (pending_fees_nonneg (filter (λ r, request_expired now r) rs)) as Hnn. fold fees in Hnn.
  pose proof (queue_data_upd σ (key queue) acc1 _ Hrep') as Hq1.
  destruct (Z.ltb_spec 0 fees); cbn [andb] in Hrun.
  - destruct (is_fee_exempt_ephemeral_queue (key queue)); cbn [negb] in Hrun.
    + inv_M. split_and!; [done|by rewrite owner_upd_data|done|done].
    + apply transfer_fee_Ok in Hrun as (Hne & _ & _ & ->).
      rewrite move_lamports_data, move_lamports_owner, move_lamports_from, owner_upd_data, lamports_upd_data by done.
      done.
  - inv_M. rewrite owner_upd_data, lamports_upd_data. split_and!; [done|done|done|lia].
Qed.

Lemma request_solvent reserve signer identity queue system slothashes d hp scoped σ σ' rs :
  key queue = q → key signer ≠ q →
  (∀ args, request_deserialize d = Some args → rr_callback_program_id args ≠ ID) →
  process_request_randomness [signer; identity; queue; system; slothashes] d hp scoped σ = Ok ((), σ') →
  solvent reserve q σ rs → ∃ rs', solvent reserve q σ' rs'.
Proof.
  intros <- Hs Hprog Hrun [Hd Ho Hp Hf].
  destruct (request_randomness_inv signer identity queue system slothashes d hp scoped σ σ' rs Hd Hrun)
    as (args & clock & acc & acc' & Hargs & Hclock & _ & Hacc & Hrep & Hb & Hm & Hpay).
  pose proof (request_queue_step_spec acc rs args (clock_slot clock)
                (slice (data_at σ (key slothashes)) 16 48) (clock_unix_timestamp clock)
                hp scoped _ Hrep (request_deserialize_wf _ _ Hargs) (clock_fits _ Hclock) Hb) as Hstep.
  rewrite Hm in Hstep. destruct Hstep as (_ & _ & _ & _ & i & pos & _ & _ & _ & Hrep').
  destruct (pay_request _ _ _ _ _ _ Hs (request_cost_fits hp) Hpay) as (Hdata & Hown & Hql & _).
  rewrite Hnx in Hql. rewrite lamports_upd_data in Hql.
  eexists. split.
  - rewrite Hdata. by apply queue_data_upd.
  - by rewrite Hown, owner_upd_data.
  - apply Forall_insert_at; [|done]. by apply Hprog.
  - rewrite pending_fees_insert, Hql. unfold r_cost, stored_request. cbn [r_priority].
    assert ((bool_as_u8 hp =? 1) = hp) as -> by by destruct hp. lia.
Qed.

Lemma provide_solvent reserve o pid od queue cb rem d σ σ' rs :
  key queue = q →
  process_provide_randomness (o :: pid :: od :: queue :: cb :: rem) d σ = Ok ((), σ') →
  solvent reserve q σ rs → ∃ rs', solvent reserve q σ' rs'.
Proof.
  intros <- Hrun [Hd Ho Hp Hf].
  destruct (provide_randomness_inv o pid od queue cb rem d σ σ' rs Hd Hrun) as (args & _ & _ & _ & _ & _ & _ & _ & _ & Hargs & _).
  destruct (provide_randomness_after o pid od queue cb rem d σ σ' rs args Hd Hargs Hp Hrun)
    as (i & r & Hfind & Hd' & Ho' & _ & _ & Hl). rewrite Hnx in Hl.
  apply list_find_Some in Hfind as (Hi & _). exists (delete i rs). split; [done|done| |].
  - by apply Forall_delete.
  - rewrite (pending_fees_delete i r rs Hi) in Hf. lia.
Qed.

Lemma purge_solvent reserve o queue d σ σ' rs :
  key queue = q → process_purge_expired_requests [o; queue] d σ = Ok ((), σ') →
  solvent reserve q σ rs → ∃ rs', solvent reserve q σ' rs'.
Proof.
  intros <- Hrun [Hd Ho Hp Hf].
  destruct (purge_inv o queue d σ σ' rs Hd Hrun) as (clock & _ & Hd' & Ho' & _ & Hl).
  set (p := λ r, request_expired (created_at_from (clock_unix_timestamp clock)) r) in *.
  exists (filter (λ r, negb (p r)) rs). split; [done|by rewrite Ho'| |].
  - apply Forall_forall. intros r Hr. apply list_elem_of_filter in Hr as [_ Hr].
    rewrite Forall_forall in Hp. by apply Hp.
  - rewrite (Hl Hnx). pose proof (pending_fees_filter p rs). lia.
Qed.

Lemma pause_solvent reserve o queue d σ σ' rs :
  key queue = q → process_set_queue_paused [o; queue] d σ = Ok ((), σ') →
  solvent reserve q σ rs → ∃ rs', solvent reserve q σ' rs'.
Proof.
  intros <- Hrun [Hd Ho Hp Hf]. unfold process_set_queue_paused in Hrun. inv_M.
  eapply with_queue_represents in Hrun as (acc & acc' & Hrep & Hacc & Hm & ->); [|exact Hd]. inv_q.
  exists rs. split; [|by rewrite owner_upd_data|done|by rewrite lamports_upd_data].
  apply queue_data_upd. apply represents_set_paused; [done|].
  match goal with H : args_try_from_bytes d = Ok ?a |- _ => rename H into Hargs end.
  unfold args_try_from_bytes, pod_try_from_bytes in Hargs.
  destruct (Z.eqb_spec (zlen d) (size_of SetQueuePaused)) as [He|]; [|done].
  injection Hargs as <-. by destruct (pod_read_wf (A:=SetQueuePaused) d He).
Qed.

Lemma queue_tx_solvent reserve σ σ' rs :
  solvent reserve q σ rs → queue_tx q σ σ' → ∃ rs', solvent reserve q σ' rs'.
Proof.
  intros Hsol Htx. destruct Htx.
  - by eapply request_solvent.
  - by eapply provide_solvent.
  - by eapply purge_solvent.
  - by eapply pause_solvent.
  - destruct Hsol as [Hd Ho Hp Hf]. exists rs. split; [congruence|congruence|done|lia].
Qed.

(** One queue, under the laws of a single call only (for all queues, in every
    state the chain can be in, see [queues_solvent]): start from a queue that
    holds its rent and the fees of its pending requests; after any number of requests, fulfilments, purges and
    pauses, interleaved with anything else that may happen to the other
    accounts, it still does. Hence a purge always finds the fees it pays. *)
Theorem queue_stays_solvent reserve σ σ' rs :
  solvent reserve q σ rs → rtc (queue_tx q) σ σ' →
  ∃ rs', solvent reserve q σ' rs' ∧
    ∀ p : request → bool, reserve + pending_fees (filter (λ r, p r) rs') ≤ lamports_at σ' q.
Proof.
  intros Hsol Hrtc. revert rs Hsol. induction Hrtc as [σ|σ σ1 σ2 Hstep _ IH]; intros rs Hsol.
  - exists rs. split; [done|]. intros p. destruct Hsol as [_ _ _ Hf].
    pose proof (pending_fees_filter p rs). pose proof (pending_fees_nonneg (filter (λ r, negb (p r)) rs)). lia.
  - destruct (queue_tx_solvent reserve σ σ1 rs Hsol Hstep) as (rs1 & Hsol1). by eapply IH.
Qed.
End Solvency.
