(* ===== verification/Registry.v ===== *)
(** * The oracle registry and the creation of queues: theorems

    The handlers [process_initialize], [process_modify_oracles] and
    [process_initialize_oracle_queue]. *)

From S2P Require Import Prelude Pod Api QueueLayout QueueAccount QueueInv QueueAdd QueueSpec Solana Accounts Instructions Verify Handlers Reason Laws QueueAdmin.

(** Borsh gives back what it wrote. A [Vec<Pubkey>] takes 4 bytes for its
    length and 32 per key, and what is read holds public keys. *)
Class OraclesBorshLaws {ob : OraclesBorsh} : Prop := {
  oracles_round_trip l b :
    Forall (λ k, zlen k = 32) l → oracles_to_vec l = Some b →
    oracles_try_from_slice b = Some l ∧ zlen b = 4 + 32 * zlen l;
  oracles_read_keys b l : oracles_try_from_slice b = Some l → Forall (λ k, zlen k = 32) l;
}.

Section Effects.
Context {rt : Runtime} {laws : RuntimeLaws}.

Lemma same_data_except_refl σ k : same_data_except σ σ k.
Proof. by intros k' _. Qed.

Lemma same_data_except_trans σ1 σ2 σ3 k :
  same_data_except σ1 σ2 k → same_data_except σ2 σ3 k → same_data_except σ1 σ3 k.
Proof.
  intros H1 H2 k' Hk. destruct (H1 k' Hk) as [Hd Ho]. destruct (H2 k' Hk) as [Hd' Ho']. split; congruence.
Qed.

Lemma move_lamports_same σ σ' from to n k :
  store_eq σ' (move_lamports σ from to n) →
  data_at σ' k = data_at σ k ∧ owner_at σ' k = owner_at σ k.
Proof. intros H. by rewrite (H k), move_lamports_data, move_lamports_owner. Qed.

(** Creating an account, with or without lamports on it. *)
Lemma create_account_at_Ok target sys payer space owner seeds mb σ σ' u :
  0 ≤ space < 2 ^ 63 → zlen owner = 32 → (∀ n, fits 64 (mb n)) → fits 64 (lamports_at σ (key target)) →
  create_account_at target sys payer space owner seeds mb σ = Ok (u, σ') →
  data_at σ' (key target) = zeros space ∧ owner_at σ' (key target) = owner ∧
  same_data_except σ σ' (key target).
Proof.
  intros Hsp Hown Hmb Hl Hrun. unfold create_account_at in Hrun. inv_M.
  destruct (lamports_at σ (key target) =? 0); inv_M.
  - by apply create_account_law in Hrun.
  - set (diff := saturating_sub _ _) in *.
    assert (fits 64 diff) as Hdiff.
    { unfold diff, saturating_sub. pose proof (Hmb space). fits_lia. }
    match goal with H : (if _ then _ else _) σ = Ok (_, ?s) |- _ =>
      assert (∀ k, data_at s k = data_at σ k ∧ owner_at s k = owner_at σ k) as Hpay;
      [destruct (0 <? diff); unfold invoke in H; inv_M;
       [apply transfer_law in H as [_ Heq]; [|done]; intros k; by eapply move_lamports_same|done]|] end.
    match goal with H : invoke_signed (system_allocate _ _) _ _ _ = _ |- _ =>
      apply allocate_law in H as (Hd1 & Ho1 & Hs1); [|done] end.
    apply assign_cpi_law in Hrun as (Hd2 & Ho2 & Hs2); [|done].
    split_and!; [congruence|done|].
    eapply same_data_except_trans; [|eapply same_data_except_trans; [exact Hs1|exact Hs2]].
    intros k _. apply Hpay.
Qed.

Lemma resize_pda_Ok payer pda sys n σ σ' u :
  0 ≤ n → (∀ n, fits 64 (rent_default_minimum_balance n)) → fits 64 (lamports_at σ (key pda)) →
  resize_pda payer pda sys n σ = Ok (u, σ') →
  data_at σ' (key pda) = take (Z.to_nat n) (data_at σ (key pda)) ++ zeros (n - zlen (data_at σ (key pda))) ∧
  owner_at σ' (key pda) = owner_at σ (key pda) ∧ same_data_except σ σ' (key pda).
Proof.
  intros Hn Hmb Hl Hrun. unfold resize_pda in Hrun. inv_M.
  set (diff := saturating_sub (rent_default_minimum_balance n) _) in *.
  assert (fits 64 diff) as Hdiff by (unfold diff, saturating_sub; pose proof (Hmb n); fits_lia).
  match goal with H : (if _ then _ else _) σ = Ok (_, ?s) |- _ =>
    assert (∀ k, data_at s k = data_at σ k ∧ owner_at s k = owner_at σ k) as Hpay;
    [destruct (0 <? diff); unfold invoke in H; inv_M;
     [apply transfer_law in H as [_ Heq]; [|done]; intros k; by eapply move_lamports_same
     |intros k; by rewrite !data_upd_lamports, !owner_upd_lamports]|] end.
  apply resize_law in Hrun; [|done].
  destruct (Hpay (key pda)) as [Hd Ho].
  split_and!.
  - by rewrite (Hrun (key pda)), get_upd_data, Hd.
  - by rewrite (Hrun (key pda)), owner_upd_data, Ho.
  - intros k Hk. rewrite (Hrun k), get_upd_data_ne by done. apply Hpay.
Qed.
End Effects.

(** ** Creating a queue *)

Lemma forallb_zero d : forallb (λ b, bool_decide (b = Byte.x00)) d = true → d = zeros (zlen d).
Proof.
  unfold zeros, zlen. rewrite Nat2Z.id. induction d as [|b d IH]; [done|].
  cbn [forallb length replicate]. intros [->%bool_decide_eq_true Hd]%andb_true_iff. by rewrite <- IH.
Qed.

Lemma resize_zeros m n :
  0 ≤ m → 0 ≤ n → take (Z.to_nat n) (zeros m) ++ zeros (n - zlen (zeros m)) = zeros n.
Proof.
  intros. assert (zlen (zeros m) = m) as -> by (apply zlen_replicate; lia).
  unfold zeros. rewrite take_replicate, <- replicate_add. f_equal. lia.
Qed.

(** The lamports and rents of an instruction are [u64]s. *)
Record lamports_wf {rt : Runtime} (σ : Store) : Prop := {
  lw_accounts k : fits 64 (lamports_at σ k);
  lw_rent mb n : rent_get = Ok mb → fits 64 (mb n);
  lw_default n : fits 64 (rent_default_minimum_balance n);
}.

Section InitQueue.
Context {rt : Runtime} {ob : OraclesBorsh} {rb : RequestBorsh} {laws : RuntimeLaws}.

Lemma zlen_ID : zlen ID = 32.
Proof. apply zlen_pubkey. Qed.

Lemma create_or_resize_Ok queue signer sys n seeds bump σ σ' u :
  lamports_wf σ → 0 ≤ n < 2 ^ 63 → data_at σ (key queue) = zeros (zlen (data_at σ (key queue))) →
  create_or_resize queue signer sys n seeds bump σ = Ok (u, σ') →
  data_at σ' (key queue) = zeros n ∧ owner_at σ' (key queue) = ID ∧ same_data_except σ σ' (key queue).
Proof.
  intros [Hl Hr Hdef] Hn Hz Hrun. unfold create_or_resize in Hrun. inv_M.
  destruct (bytes_eqb _ ID) eqn:Ho; cbn [negb] in Hrun.
  - apply bytes_eqb_eq in Ho. apply resize_pda_Ok in Hrun as (Hd & Ho' & Hs); [|lia|done|done].
    split_and!; [|congruence|done]. rewrite Hd, Hz. apply resize_zeros; [apply zlen_nonneg|lia].
  - unfold create_pda in Hrun. inv_M.
    apply create_account_at_Ok in Hrun; [done|lia|apply zlen_ID|by intros; eapply Hr|apply Hl].
Qed.

Lemma init_queue_header_Ok queue index n σ σ' u :
  24 ≤ n ≤ 2 ^ 32 → fits 8 index → data_at σ (key queue) = zeros n →
  init_queue_header queue index σ = Ok (u, σ') →
  ∃ acc, σ' = upd_data σ (key queue) (discriminator_to_bytes DQueue ++ acc) ∧ represents acc [] ∧
    queue_index (header acc) = index ∧ paused (header acc) = 0 ∧ zlen acc = n - 8.
Proof.
  intros Hn Hi Hd Hrun. unfold init_queue_header in Hrun. inv_M. rewrite Hd in *.
  match goal with H : copy_into _ _ _ _ = Ok _ |- _ => apply copy_into_Ok in H as (_ & _ & _ & Hc) end.
  assert (splice (zeros n) 0 (discriminator_to_bytes DQueue) =
          discriminator_to_bytes DQueue ++ zeros (n - 8)) as Hsp.
  { unfold splice. rewrite zlen_discriminator. change (take (Z.to_nat 0) (zeros n)) with (@nil byte).
    rewrite app_nil_l. unfold zeros. rewrite drop_replicate. do 2 f_equal. lia. }
  rewrite Hsp in Hc. subst.
  match goal with H : load _ = Ok _ |- _ => rewrite load_fresh in H by lia; injection H as <- end.
  rewrite store_body_app.
  destruct (represents_fresh (n - 8) ltac:(lia)) as (Hrep & Hh & Hl).
  destruct (represents_set_index _ _ index Hrep Hi) as (Hrep' & Hidx & Hl').
  eexists. split; [done|]. split_and!; [done|done| |lia].
  rewrite (hu_header _ _ _ (set_index_update index (set_cursor 16 (zeros (n - 8))) ltac:(lia) Hi)), Hh. done.
Qed.

(** One creation instruction, see [initialize_oracle_queue_spec]. *)
Lemma initialize_oracle_queue_step signer o od q sys d σ σ' args :
  lamports_wf σ → key od ≠ key q → args_try_from_bytes d = Ok args →
  process_initialize_oracle_queue [signer; o; od; q; sys] d σ = Ok ((), σ') →
  let size := zlen (data_at σ (key q)) in
  let target := ioq_target_size args in
  info_is_signer signer = true ∧ info_is_signer o = true ∧
  key q = fst (find_program_address [QUEUE; key o; [byte.of_Z (ioq_index args)]] ID) ∧
  key od = fst (find_program_address [ORACLE_DATA; key o] ID) ∧
  data_at σ (key q) = zeros size ∧ target ≤ MAX_QUEUE_ACCOUNT_SIZE ∧
  owner_at σ' (key q) = ID ∧
  (size + 10240 < target →
     data_at σ' (key q) = zeros (size + 10240) ∧ data_at σ' (key od) = data_at σ (key od)) ∧
  (target ≤ size + 10240 → 24 ≤ target →
     queue_data (data_at σ' (key q)) [] ∧ zlen (data_at σ' (key q)) = target ∧
     (∃ h, Queue_try_from_bytes (data_at σ' (key q)) = Ok h ∧ queue_index h = ioq_index args ∧ paused h = 0) ∧
     ∃ oracle, try_from_bytes (data_at σ (key od)) = Ok oracle ∧
       try_from_bytes (data_at σ' (key od)) =
         Ok (set_open_queues oracle (saturating_add 64 (open_queues oracle) 1))).
Proof.
  intros Hwf Hne Hargs Hrun size target. unfold process_initialize_oracle_queue in Hrun.
  rewrite Hargs in Hrun. unfold is_empty_or_zeroed in Hrun. inv_M.
  match goal with H : Ok args = Ok _ |- _ => injection H as <- end.
  match goal with H : forallb _ _ = true |- _ => apply forallb_zero in H as Hz end.
  match goal with H : (ioq_target_size args <=? _) = true |- _ => apply Z.leb_le in H as Hmax end.
  pose proof (zlen_nonneg (data_at σ (key q))) as Hsz. fold size in Hsz, Hz. fold target in Hmax.
  assert (0 ≤ target < 2 ^ 32 ∧ fits 8 (ioq_index args)) as [Ht Hidx].
  { unfold args_try_from_bytes, pod_try_from_bytes in Hargs.
    destruct (Z.eqb_spec (zlen d) (size_of InitializeOracleQueue)) as [He|]; [|done].
    injection Hargs as <-. by destruct (pod_read_wf (A:=InitializeOracleQueue) d He) as [[??]?]. }
  change (ioq_target_size args) with target in Hrun. fold size in Hrun.
  do 4 (split; [eassumption|]). split; [done|]. split; [done|].
  destruct (Z.ltb_spec MAX_EXTRA_BYTES (saturating_sub target size)) as [Hgrow|Hlast];
    unfold MAX_EXTRA_BYTES, saturating_sub in *.
  - apply create_or_resize_Ok in Hrun as (Hd & Ho & Hs); [|done|unfold MAX_QUEUE_ACCOUNT_SIZE in *; lia|done].
    split; [done|]. split; [intros _; split; [done|by apply Hs]|lia].
  - inv_M.
    match goal with H : create_or_resize _ _ _ _ _ _ _ = _ |- _ =>
      apply create_or_resize_Ok in H as (Hd & Ho & Hs); [|done|lia|done] end.
    match goal with H : init_queue_header _ _ _ = Ok (?v, _) |- _ => rename H into Hinit end.
    split; [rewrite owner_upd_data; unfold init_queue_header in Hinit; inv_M; by rewrite owner_upd_data|].
    split; [lia|].
    + intros _ H24. unfold MAX_QUEUE_ACCOUNT_SIZE in *.
      apply (init_queue_header_Ok q _ target) in Hinit as (acc & -> & Hrep & Hi & Hp & Hl);
        [|lia|done|done].
      rewrite (get_upd_data_ne _ (key od) (key q)) by done. rewrite get_upd_data. cbn [a_data with_data].
      match goal with H : try_from_bytes _ = Ok ?v |- _ =>
        rename H into Hor; rename v into oracle end.
      rewrite get_upd_data. cbn [a_data with_data].
      rewrite (get_upd_data_ne _ (key q) (key od)) in Hor |- * by congruence.
      rewrite (proj1 (Hs (key od) Hne)) in Hor |- *.
      split; [by exists acc|]. split; [rewrite zlen_app, zlen_discriminator; lia|]. split.
      * exists (header acc). rewrite Queue_try_from_bytes_app by lia. done.
      * exists oracle. split; [done|]. eapply try_from_bytes_store; [exact Hor|].
        pose proof (try_from_bytes_wf _ _ Hor) as Hwfo. rewrite Oracle_wf_iff in *. cbn.
        unfold saturating_add. destruct_and!. split_and!; try done; fits_lia.
Qed.

Lemma create_account_at_fits target sys payer space owner seeds mb σ σ' u :
  create_account_at target sys payer space owner seeds mb σ = Ok (u, σ') →
  (∀ k, fits 64 (lamports_at σ k)) → ∀ k, fits 64 (lamports_at σ' k).
Proof.
  intros Hrun Hfit. unfold create_account_at in Hrun. inv_M.
  destruct (lamports_at σ (key target) =? 0); inv_M; [by eapply cpi_lamports_fit|].
  eapply cpi_lamports_fit; [|exact Hrun]. eapply cpi_lamports_fit; [|eassumption].
  destruct (0 <? saturating_sub _ _); unfold invoke in *; inv_M; [by eapply cpi_lamports_fit|done].
Qed.

Lemma upd_lamports_fits σ k n :
  (∀ k, fits 64 (lamports_at σ k)) → fits 64 n → ∀ k', fits 64 (lamports_at (upd_lamports σ k n) k').
Proof.
  intros Hfit Hn k'. destruct (decide (k = k')) as [<-|]; [by rewrite get_upd_lamports|by rewrite get_upd_lamports_ne].
Qed.

Lemma resize_pda_fits payer pda sys n σ σ' u :
  0 ≤ n → (∀ n, fits 64 (rent_default_minimum_balance n)) →
  resize_pda payer pda sys n σ = Ok (u, σ') →
  (∀ k, fits 64 (lamports_at σ k)) → ∀ k, fits 64 (lamports_at σ' k).
Proof.
  intros Hn Hdef Hrun Hfit. unfold resize_pda in Hrun. inv_M. intros k.
  apply resize_law in Hrun; [|done]. rewrite (Hrun k), lamports_upd_data. revert k.
  destruct (0 <? saturating_sub _ _); unfold invoke in *; inv_M; [by eapply cpi_lamports_fit|].
  assert (∀ k', fits 64 (lamports_at (upd_lamports σ (key pda) (lamports_at σ (key pda)
      - saturating_sub (lamports_at σ (key pda)) (rent_default_minimum_balance n))) k')) as Hfit'.
  { apply upd_lamports_fits; [done|]. pose proof (Hfit (key pda)). pose proof (Hdef n).
    unfold saturating_sub. fits_lia. }
  apply upd_lamports_fits; [done|]. by apply wrap_fits.
Qed.

Lemma initialize_oracle_queue_fits accounts d σ σ' u :
  lamports_wf σ → process_initialize_oracle_queue accounts d σ = Ok (u, σ') → lamports_wf σ'.
Proof.
  intros [Hl Hr Hdef] Hrun. split; [|done|done].
  unfold process_initialize_oracle_queue, is_empty_or_zeroed in Hrun.
  do 6 (destruct accounts as [|? accounts]; try (inv_M; done)). inv_M.
  match goal with H : args_try_from_bytes _ = Ok ?a |- _ => rename a into args; rename H into Hargs end.
  assert (0 ≤ ioq_target_size args) as Ht.
  { unfold args_try_from_bytes, pod_try_from_bytes in Hargs.
    destruct (Z.eqb_spec (zlen d) (size_of InitializeOracleQueue)) as [He|]; [|done].
    injection Hargs as <-. destruct (pod_read_wf (A:=InitializeOracleQueue) d He) as [[[??]?]?]. done. }
  assert (∀ q s sys n seeds bump σ σ' u, 0 ≤ n → (∀ k, fits 64 (lamports_at σ k)) →
    create_or_resize q s sys n seeds bump σ = Ok (u, σ') → ∀ k, fits 64 (lamports_at σ' k)) as Hcor.
  { clear -Hr Hdef laws. intros q s sys n seeds bump σ σ' u Hn Hl H. unfold create_or_resize in H. inv_M.
    destruct (negb _); [|by eapply resize_pda_fits].
    unfold create_pda in H. inv_M. by eapply create_account_at_fits. }
  destruct (_ <? _); inv_M.
  - eapply Hcor; [|exact Hl|exact Hrun]. pose proof (zlen_nonneg (data_at σ (key a2))). unfold MAX_EXTRA_BYTES. lia.
  - unfold init_queue_header in *. inv_M. intros k. rewrite !lamports_upd_data. by eapply Hcor.
Qed.

(** Creating a queue takes one instruction per 10240 bytes. Each of
    them is signed by payer and oracle and refuses an account with any
    non-zero byte or a target above 512 KiB. While the target is more than
    10240 bytes away, the account only grows, by exactly that much and all
    zero; the last one leaves an empty, unpaused queue of the target size
    with the requested index, owned by the program, and counts one more
    open queue for the oracle. *)
Theorem initialize_oracle_queue_spec signer o od q sys d σ σ' args :
  lamports_wf σ → key od ≠ key q → args_try_from_bytes d = Ok args →
  process_initialize_oracle_queue [signer; o; od; q; sys] d σ = Ok ((), σ') →
  let size := zlen (data_at σ (key q)) in
  let target := ioq_target_size args in
  info_is_signer signer = true ∧ info_is_signer o = true ∧
  key q = fst (find_program_address [QUEUE; key o; [byte.of_Z (ioq_index args)]] ID) ∧
  key od = fst (find_program_address [ORACLE_DATA; key o] ID) ∧
  data_at σ (key q) = zeros size ∧ target ≤ MAX_QUEUE_ACCOUNT_SIZE ∧
  owner_at σ' (key q) = ID ∧
  (size + 10240 < target →
     data_at σ' (key q) = zeros (size + 10240) ∧ data_at σ' (key od) = data_at σ (key od)) ∧
  (target ≤ size + 10240 → 24 ≤ target →
     queue_data (data_at σ' (key q)) [] ∧ zlen (data_at σ' (key q)) = target ∧
     (∃ h, Queue_try_from_bytes (data_at σ' (key q)) = Ok h ∧ queue_index h = ioq_index args ∧ paused h = 0) ∧
     ∃ oracle, try_from_bytes (data_at σ (key od)) = Ok oracle ∧
       try_from_bytes (data_at σ' (key od)) =
         Ok (set_open_queues oracle (saturating_add 64 (open_queues oracle) 1))).
Proof. intros. by apply (initialize_oracle_queue_step signer o od q sys d). Qed.
End InitQueue.
