(* ===== verification/RegistryTheorems.v ===== *)
(** * The oracle registry: theorems

    The handlers [process_initialize] and [process_modify_oracles]: who may
    change the registry, and what the registry and the oracle accounts hold
    afterwards. *)

From S2P Require Import Prelude Pod Api QueueLayout QueueAccount QueueInv QueueAdd QueueSpec Solana Accounts Instructions Verify Handlers Reason Laws QueueAdmin Registry.

Section RegistryTheorems.
Context {rt : Runtime} {ob : OraclesBorsh} {rb : RequestBorsh}.
Context {laws : RuntimeLaws} {oblaws : OraclesBorshLaws}.

(** The registry account holds exactly the identities [l]. *)
Definition holds_oracles (d : list byte) (l : list (list byte)) : Prop :=
  try_from_bytes_with_discriminator d = Ok (mkOracles l) ∧
  zlen d = size_with_discriminator (mkOracles l).

Lemma registry_round_trip l b :
  Forall (λ k, zlen k = 32) l → to_bytes_with_discriminator (mkOracles l) = Ok b →
  holds_oracles b l.
Proof.
  intros Hl Hb. unfold to_bytes_with_discriminator in Hb.
  apply bind_Ok in Hb as (v & Hv%ok_or_Ok & Hb).
  assert (b = discriminator_to_bytes DOracles ++ v) as -> by (unfold mret, outcome_ret in Hb; congruence).
  destruct (oracles_round_trip l v Hl Hv) as [Hr Hlen]. pose proof (zlen_nonneg l).
  unfold holds_oracles, size_with_discriminator. rewrite zlen_app, zlen_discriminator. cbn [oracles].
  split; [|lia]. unfold try_from_bytes_with_discriminator.
  rewrite zlen_app, zlen_discriminator, (proj2 (Z.leb_le _ _)) by lia.
  cbn [ensure mbind outcome_bind].
  rewrite (slice_app_l _ _ 0 8), slice_all, (proj2 (bytes_eqb_eq _ _) eq_refl) by (rewrite ?zlen_discriminator; lia).
  cbn [ensure mbind outcome_bind].
  rewrite slice_app_r, zlen_discriminator by (rewrite ?zlen_discriminator; lia).
  rewrite Z.sub_diag, Z.add_simpl_l, slice_all. by rewrite Hr.
Qed.

Lemma registry_read_keys d r : try_from_bytes_with_discriminator d = Ok r →
  Forall (λ k, zlen k = 32) (oracles r).
Proof.
  unfold try_from_bytes_with_discriminator. intros H.
  apply bind_Ok in H as (? & _ & H). apply bind_Ok in H as (? & _ & H).
  apply bind_Ok in H as (l & Hl%ok_or_Ok & [= <-]). by eapply oracles_read_keys.
Qed.

(** A new oracle account reads as a zeroed [Oracle]. *)
Lemma create_oracle_Ok target sys payer seeds σ σ' u :
  lamports_wf σ →
  create_program_account Oracle target sys payer ID seeds σ = Ok (u, σ') →
  try_from_bytes (data_at σ' (key target)) = Ok (mkOracle (zeros 32) 0 0) ∧
  owner_at σ' (key target) = ID ∧ same_data_except σ σ' (key target) ∧
  (∀ k, fits 64 (lamports_at σ' k)).
Proof.
  intros [Hl Hr _] Hrun. unfold create_program_account in Hrun. rewrite size_of_Oracle in Hrun. inv_M.
  match goal with H : create_account_at _ _ _ _ _ _ _ _ = _ |- _ =>
    pose proof (create_account_at_fits _ _ _ _ _ _ _ _ _ _ H Hl) as Hfit;
    apply create_account_at_Ok in H as (Hd & Ho & Hs); [|lia|apply zlen_ID|by intros; eapply Hr|apply Hl] end.
  match goal with H : copy_into _ _ _ _ = Ok _ |- _ => apply copy_into_Ok in H as (_ & _ & _ & ->) end.
  rewrite get_upd_data. cbn [a_data a_owner with_data]. rewrite Hd. split_and!.
  - vm_compute. reflexivity.
  - done.
  - intros k Hk. rewrite get_upd_data_ne by done. by apply Hs.
  - intros k. rewrite lamports_upd_data. apply Hfit.
Qed.

Lemma close_account_fits a r σ σ' u :
  close_account a r σ = Ok (u, σ') → key a ≠ key r →
  (∀ k, fits 64 (lamports_at σ k)) → ∀ k, fits 64 (lamports_at σ' k).
Proof.
  intros Hrun Hne Hfit k. apply close_account_Ok in Hrun as (Ha & Hr & _ & Hoth); [|done].
  destruct (decide (k = key a)) as [->|]; [rewrite Ha; by cbn|].
  destruct (decide (k = key r)) as [->|]; [rewrite Hr; by apply wrap_fits|]. by rewrite Hoth.
Qed.

Lemma write_registry_Ok signer oi sys l σ σ' u :
  (∀ k, fits 64 (lamports_at σ k)) → (∀ n, fits 64 (rent_default_minimum_balance n)) →
  Forall (λ k, zlen k = 32) l →
  write_registry signer oi sys (mkOracles l) σ = Ok (u, σ') →
  holds_oracles (data_at σ' (key oi)) l ∧ same_data_except σ σ' (key oi).
Proof.
  intros Hl Hdef Hkeys Hrun. unfold write_registry in Hrun. inv_M.
  match goal with H : resize_pda _ _ _ _ _ = _ |- _ => apply resize_pda_Ok in H as (_ & _ & Hs) end; [|
    pose proof (zlen_nonneg l); unfold size_with_discriminator; cbn [oracles]; lia|done|done].
  match goal with H : to_bytes_with_discriminator _ = _ |- _ => apply registry_round_trip in H as Hh; [|done] end.
  match goal with H : copy_into _ _ _ _ = Ok _ |- _ => apply copy_into_Ok in H as (_ & _ & Hlen & ->) end.
  rewrite splice_whole by lia. rewrite get_upd_data. split; [done|].
  intros k Hk. rewrite get_upd_data_ne by done. by apply Hs.
Qed.

Lemma push_oracle_Ok args odi sys signer reg σ σ' reg' :
  lamports_wf σ → zlen (mo_oracle_pubkey args) = 32 →
  push_oracle args odi sys signer reg σ = Ok (reg', σ') →
  reg' = mkOracles (oracles reg ++ [mo_identity args]) ∧ owner_at σ' (key odi) = ID ∧
  (∃ clock, clock_get = Ok clock ∧ try_from_bytes (data_at σ' (key odi)) =
     Ok (mkOracle (mo_oracle_pubkey args) (clock_slot clock) 0)) ∧
  same_data_except σ σ' (key odi) ∧ (∀ k, fits 64 (lamports_at σ' k)).
Proof.
  intros Hwf Hpk Hrun. unfold push_oracle in Hrun. inv_M.
  match goal with H : create_program_account _ _ _ _ _ _ _ = _ |- _ =>
    apply create_oracle_Ok in H as (Hd & Ho & Hs & Hfit); [|done] end.
  match goal with H : try_from_bytes _ = Ok ?o |- _ => rewrite Hd in H; injection H as <- end.
  match goal with H : clock_get = Ok ?c |- _ => pose proof (clock_fits _ H); rename H into Hc; rename c into clock end.
  split; [done|]. rewrite get_upd_data. cbn [a_owner a_data with_data open_queues].
  split; [done|]. split; [|split].
  - exists clock. split; [done|]. eapply try_from_bytes_store; [exact Hd|]. by apply Oracle_wf_iff.
  - intros k Hk. rewrite get_upd_data_ne by done. by apply Hs.
  - intros k. by rewrite lamports_upd_data.
Qed.

Lemma retain_oracle_Ok args odi signer reg σ σ' reg' :
  (∀ k, fits 64 (lamports_at σ k)) → key signer ≠ key odi →
  retain_oracle args odi signer reg σ = Ok (reg', σ') →
  reg' = mkOracles (filter (λ o, o ≠ mo_identity args) (oracles reg)) ∧
  (∃ oracle, try_from_bytes (data_at σ (key odi)) = Ok oracle ∧ open_queues oracle = 0) ∧
  data_at σ' (key odi) = [] ∧ owner_at σ' (key odi) = system_program_ID ∧
  same_data_except σ σ' (key odi) ∧ (∀ k, fits 64 (lamports_at σ' k)).
Proof.
  intros Hfit Hne Hrun. unfold retain_oracle in Hrun. inv_M.
  match goal with H : close_account _ _ _ = _ |- _ =>
    pose proof (close_account_fits _ _ _ _ _ H ltac:(congruence) Hfit);
    apply close_account_Ok in H as (-> & _ & Hs & _); [|congruence] end.
  match goal with H : (open_queues _ =? 0) = true |- _ => apply Z.eqb_eq in H end.
  split_and!; try done. by eexists.
Qed.

(** C38. Only the program's upgrade authority, by its signature, changes the
    registry, and only for an identity that is a curve point. Operation 0
    needs a valid, non-zero VRF key, appends the identity to the registry
    and leaves an oracle account of the program with that key, the current
    slot and no open queue. Operation 1 needs an oracle without open queues,
    removes every occurrence of the identity and closes its account. There
    is no other operation, and the registry account always has the exact
    size of what it holds. *)
Theorem modify_oracles_spec s oi odi pd sys d σ σ' args :
  lamports_wf σ → key oi ≠ key odi → key s ≠ key odi → args_try_from_bytes d = Ok args →
  process_modify_oracles [s; oi; odi; pd; sys] d σ = Ok ((), σ') →
  info_is_signer s = true ∧
  key pd = fst (find_program_address [ID] bpf_loader_upgradeable_ID) ∧
  deserialize_loader_state (data_at σ (key pd)) = Some (Some (Some (key s))) ∧
  is_on_curve (mo_identity args) = true ∧
  key oi = fst oracles_pda ∧ key odi = fst (oracle_data_pda (mo_identity args)) ∧
  ∃ l, try_from_bytes_with_discriminator (data_at σ (key oi)) = Ok (mkOracles l) ∧
    ((mo_operation args = 0 ∧ validate_ristretto (mo_oracle_pubkey args) = true ∧
        mo_oracle_pubkey args ≠ zeros 32 ∧
        holds_oracles (data_at σ' (key oi)) (l ++ [mo_identity args]) ∧
        owner_at σ' (key odi) = ID ∧
        ∃ clock, clock_get = Ok clock ∧
          try_from_bytes (data_at σ' (key odi)) =
            Ok (mkOracle (mo_oracle_pubkey args) (clock_slot clock) 0)) ∨
     (mo_operation args = 1 ∧
        holds_oracles (data_at σ' (key oi)) (filter (λ o, o ≠ mo_identity args) l) ∧
        (∃ oracle, try_from_bytes (data_at σ (key odi)) = Ok oracle ∧ open_queues oracle = 0) ∧
        data_at σ' (key odi) = [] ∧ owner_at σ' (key odi) = system_program_ID)).
Proof.
  intros Hwf Hne Hns Hargs Hrun. pose proof Hwf as [Hl Hr Hdef].
  assert (zlen (mo_identity args) = 32 ∧ zlen (mo_oracle_pubkey args) = 32) as [Hid Hpk].
  { unfold args_try_from_bytes, pod_try_from_bytes in Hargs.
    destruct (Z.eqb_spec (zlen d) (size_of ModifyOracle)) as [He|]; [|done].
    injection Hargs as <-. by destruct (pod_read_wf (A:=ModifyOracle) d He) as [[??]?]. }
  unfold process_modify_oracles in Hrun. rewrite Hargs in Hrun. unfold load_program_upgrade_authority in Hrun.
  inv_M. match goal with H : Ok args = Ok _ |- _ => injection H as <- end.
  match goal with H : write_registry _ _ _ ?r _ = _ |- _ =>
    rename H into Hwrite; destruct r as [l'] end.
  match goal with H : try_from_bytes_with_discriminator _ = Ok ?r |- _ =>
    pose proof (registry_read_keys _ _ H) as Hkeys; rename H into Hread; destruct r as [l] end.
  repeat match goal with H : ok_or _ _ = Ok _ |- _ => apply ok_or_Ok in H as -> end.
  repeat match goal with H : bytes_eqb _ _ = true |- _ => apply bytes_eqb_eq in H end. subst.
  match goal with H : negb (_ || _ || _) = true |- _ =>
    apply negb_true_iff, orb_false_iff in H as [_ Hcurve%negb_false_iff] end.
  do 6 (split; [done|]). exists l. split; [done|]. cbn [oracles] in *.
  destruct (Z.eqb_spec (mo_operation args) 0) as [Hop|Hop];
    [left|destruct (Z.eqb_spec (mo_operation args) 1) as [Hop1|]; [right|done]].
  - match goal with H : push_oracle _ _ _ _ _ _ = _ |- _ =>
      apply push_oracle_Ok in H as (Heq & Ho & (clock & Hc & Hd) & Hs & Hfit); [|done|done] end.
    injection Heq as ->.
    apply write_registry_Ok in Hwrite as [Hreg Hs']; [|done|done|apply Forall_app; split; [done|by constructor]].
    destruct (Hs' (key odi)) as [Hd' Ho']; [congruence|]. rewrite Hd', Ho'.
    match goal with H : negb (true && _) = true |- _ =>
      apply negb_true_iff, orb_false_iff in H as [Hz%bytes_eqb_neq Hv%negb_false_iff] end.
    split_and!; try done. by exists clock.
  - match goal with H : retain_oracle _ _ _ _ _ = _ |- _ =>
      apply retain_oracle_Ok in H as (Heq & Hor & Hd & Ho & Hs & Hfit); [|done|done] end.
    injection Heq as ->.
    apply write_registry_Ok in Hwrite as [Hreg Hs']; [|done|done|
      apply Forall_forall; intros k [_ Hk]%list_elem_of_filter; by rewrite Forall_forall in Hkeys; apply Hkeys].
    destruct (Hs' (key odi)) as [Hd' Ho']; [congruence|]. by rewrite Hd', Ho'.
Qed.

(** The registry is created once, by any paying signer, at its own
    address: an account with data is refused, and the new account belongs to
    the program, holds no oracle and is no larger than it must be. *)
Theorem initialize_spec s oi sys d σ :
  lamports_wf σ →
  (∀ σ', process_initialize [s; oi; sys] d σ = Ok ((), σ') →
     info_is_signer s = true ∧ data_at σ (key oi) = [] ∧ key oi = fst oracles_pda ∧
     holds_oracles (data_at σ' (key oi)) [] ∧ owner_at σ' (key oi) = ID ∧
     same_data_except σ σ' (key oi)) ∧
  (info_is_signer s = true → data_at σ (key oi) ≠ [] →
     process_initialize [s; oi; sys] d σ = Err AccountAlreadyInitialized).
Proof.
  intros [Hl Hr _]. split.
  - intros σ' Hrun. unfold process_initialize, account_is_empty in Hrun. inv_M.
    match goal with H : (zlen _ =? 0) = true |- _ => apply Z.eqb_eq in H; rename H into Hz end.
    match goal with H : to_bytes_with_discriminator _ = _ |- _ =>
      apply registry_round_trip in H as Hh; [|constructor]; destruct Hh as [Hh Hsz] end.
    unfold create_pda in *. inv_M.
    match goal with H : create_account_at _ _ _ _ _ _ _ _ = _ |- _ =>
      apply create_account_at_Ok in H as (_ & Ho & Hs);
        [|by rewrite Hsz|apply zlen_ID|by intros; eapply Hr|apply Hl] end.
    match goal with H : copy_into _ _ _ _ = Ok _ |- _ => apply copy_into_Ok in H as (_ & _ & Hlen & ->) end.
    rewrite splice_whole by lia. rewrite get_upd_data. split_and!; try done.
    + by apply nil_length_inv, Nat2Z.inj.
    + intros k Hk. rewrite get_upd_data_ne by done. by apply Hs.
  - intros Hs Hne. unfold process_initialize, account_is_empty.
    erewrite M_check by (by apply is_signer_Ok). apply M_step_Err.
    erewrite M_step by (by apply data_Ok). unfold require, lift.
    destruct (data_at σ (key oi)) as [|b l]; [done|]. rewrite zlen_cons.
    pose proof (zlen_nonneg l). by rewrite (proj2 (Z.eqb_neq _ _)) by lia.
Qed.
End RegistryTheorems.
