(* ===== verification/Sdk.v ===== *)
(** * Instruction builders

    [api/src/sdk.rs]: the instructions a client sends, their correspondence
    to the handlers, and the transaction that creates a queue. *)

From S2P Require Import Prelude Pod Api QueueLayout QueueAccount QueueInv QueueAdd QueueSpec Solana Accounts Instructions Handlers Provide Reason Laws Registry.

Definition AccountMeta_new (k : list byte) (signer : bool) : AccountMeta := mkAccountMeta k signer true.
Definition AccountMeta_new_readonly (k : list byte) (signer : bool) : AccountMeta :=
  mkAccountMeta k signer false.

(** The addresses of the delegation program, from its SDK. *)
Class DelegationSdk : Type := {
  DELEGATION_PROGRAM_ID : list byte;
  delegate_buffer_pda : list byte → list byte → list byte;
  delegation_record_pda : list byte → list byte;
  delegation_metadata_pda : list byte → list byte;
}.

(** [u32::div_ceil] *)
Definition div_ceil (a b : Z) : Z := (a + (b - 1)) / b.

Section Sdk.
Context {rt : Runtime} {ds : DelegationSdk}.

Definition initialize (signer : list byte) : Instruction :=
  mkInstruction ID
    [AccountMeta_new signer true; AccountMeta_new (fst oracles_pda) false;
     AccountMeta_new_readonly system_program_ID false]
    (ix_header IxInitialize).

Definition modify_oracle_accounts (signer identity : list byte) : list AccountMeta :=
  let program_data_address := fst (find_program_address [ID] bpf_loader_upgradeable_ID) in
  [AccountMeta_new signer true; AccountMeta_new (fst oracles_pda) false;
   AccountMeta_new (fst (oracle_data_pda identity)) false;
   AccountMeta_new_readonly program_data_address false;
   AccountMeta_new_readonly system_program_ID false].

Definition add_oracle (signer identity oracle_pubkey : list byte) : Instruction :=
  mkInstruction ID (modify_oracle_accounts signer identity)
    (ix_to_bytes IxModifyOracle (mkModifyOracle identity oracle_pubkey 0)).

Definition remove_oracle (signer identity : list byte) : Instruction :=
  mkInstruction ID (modify_oracle_accounts signer identity)
    (ix_to_bytes IxModifyOracle (mkModifyOracle identity (zeros 32) 1)).

Definition initialize_oracle_queue_ix (signer identity : list byte) (index target_size : Z) : Instruction :=
  mkInstruction ID
    [AccountMeta_new signer true; AccountMeta_new_readonly identity true;
     AccountMeta_new (fst (oracle_data_pda identity)) false;
     AccountMeta_new (fst (oracle_queue_pda identity index)) false;
     AccountMeta_new_readonly system_program_ID false]
    (ix_to_bytes IxInitializeOracleQueue (InitializeOracleQueue_new index target_size)).

Definition initialize_oracle_queue (signer identity : list byte) (index : Z)
    (bytes_to_allocate : option Z) : list Instruction :=
  let target_size := default 9500 bytes_to_allocate in
  let inits := div_ceil target_size 10240 in
  replicate (Z.to_nat inits) (initialize_oracle_queue_ix signer identity index target_size).

Definition provide_randomness_with_identity_mode
    (oracle_identity oracle_queue callback_program_id : list byte) (identity_mode : Z)
    (rnd_seed output commitment_base_compressed commitment_hash_compressed s : list byte) : Instruction :=
  let program_identity :=
    if identity_mode =? 1 then fst (scoped_identity_pda callback_program_id)
    else fst program_identity_pda in
  mkInstruction ID
    [AccountMeta_new oracle_identity true; AccountMeta_new_readonly program_identity false;
     AccountMeta_new_readonly (fst (oracle_data_pda oracle_identity)) false;
     AccountMeta_new oracle_queue false; AccountMeta_new_readonly callback_program_id false]
    (ix_to_bytes IxProvideRandomness
       (mkProvideRandomness rnd_seed output commitment_base_compressed commitment_hash_compressed s)).

Definition provide_randomness o q c seed output cb ch s : Instruction :=
  provide_randomness_with_identity_mode o q c 1 seed output cb ch s.
Definition provide_randomness_legacy o q c seed output cb ch s : Instruction :=
  provide_randomness_with_identity_mode o q c 0 seed output cb ch s.

Definition purge_expired_requests (identity : list byte) (index : Z) : Instruction :=
  mkInstruction ID
    [AccountMeta_new identity false; AccountMeta_new (fst (oracle_queue_pda identity index)) false]
    (ix_to_bytes IxPurgeExpiredRequests (mkQueueIndexArgs index)).

Definition delegate_oracle_queue (signer queue : list byte) (index : Z) : Instruction :=
  mkInstruction ID
    [AccountMeta_new signer true; AccountMeta_new queue false;
     AccountMeta_new (delegate_buffer_pda queue ID) false;
     AccountMeta_new (delegation_record_pda queue) false;
     AccountMeta_new (delegation_metadata_pda queue) false;
     AccountMeta_new_readonly DELEGATION_PROGRAM_ID false;
     AccountMeta_new_readonly ID false; AccountMeta_new_readonly system_program_ID false]
    (ix_to_bytes IxDelegateOracleQueue (mkQueueIndexArgs index)).

Definition close_oracle_queue (identity : list byte) (index : Z) : Instruction :=
  mkInstruction ID
    [AccountMeta_new identity true; AccountMeta_new (fst (oracle_data_pda identity)) false;
     AccountMeta_new (fst (oracle_queue_pda identity index)) false]
    (ix_to_bytes IxCloseOracleQueue (mkQueueIndexArgs index)).

Definition set_queue_paused (identity : list byte) (index : Z) (paused : bool) : Instruction :=
  mkInstruction ID
    [AccountMeta_new_readonly identity true; AccountMeta_new (fst (oracle_queue_pda identity index)) false]
    (ix_to_bytes IxSetQueuePaused (mkSetQueuePaused index (bool_as_u8 paused))).
End Sdk.

(** ** Running instructions *)

(** An account meta as the runtime passes it to the program. *)
Definition info_of (m : AccountMeta) : AccountInfo :=
  mkInfo (am_pubkey m) (am_is_signer m) (am_is_writable m).

Section Run.
Context {rt : Runtime} {ob : OraclesBorsh} {rb : RequestBorsh}.

Definition run_instruction (ix : Instruction) : M unit :=
  process_instruction (ix_program_id ix) (info_of <$> ix_accounts ix) (ix_data ix).

(** A transaction: the instructions one after the other. *)
Fixpoint run_instructions (l : list Instruction) : M unit :=
  match l with
  | [] => mret ()
  | ix :: l => run_instruction ix;; run_instructions l
  end.

Lemma run_ix {A} `{Pod A} accounts ix (args : A) :
  run_instruction (mkInstruction ID accounts (ix_to_bytes ix args)) =
  process_instruction ID (info_of <$> accounts) (ix_header ix ++ bytes_of args).
Proof. done. Qed.

(** The handler of an instruction. *)
Definition handler (ix : SolanaVrfInstruction) (accounts : list AccountInfo) (d : list byte) : M unit :=
  match ix with
  | IxInitialize => process_initialize accounts d
  | IxModifyOracle => process_modify_oracles accounts d
  | IxInitializeOracleQueue => process_initialize_oracle_queue accounts d
  | IxRequestHighPriorityRandomness => process_request_randomness accounts d true false
  | IxRequestRandomness => process_request_randomness accounts d false false
  | IxRequestHighPriorityRandomnessScoped => process_request_randomness accounts d true true
  | IxRequestRandomnessScoped => process_request_randomness accounts d false true
  | IxProvideRandomness => process_provide_randomness accounts d
  | IxDelegateOracleQueue => process_delegate_oracle_queue accounts d
  | IxCloseOracleQueue => process_close_oracle_queue accounts d
  | IxPurgeExpiredRequests => process_purge_expired_requests accounts d
  | IxSetQueuePaused => process_set_queue_paused accounts d
  end.

Lemma process_header accounts ix d σ :
  process_instruction ID accounts (ix_header ix ++ d) σ = handler ix accounts d σ.
Proof.
  unfold process_instruction. rewrite parse_header.
  erewrite M_step by (by apply lift_Ok). by destruct ix.
Qed.

Lemma run_instructions_app l1 l2 σ :
  run_instructions (l1 ++ l2) σ = (run_instructions l1;; run_instructions l2) σ.
Proof.
  revert σ. induction l1 as [|ix l1 IH]; intros σ; [done|].
  cbn [app run_instructions]. unfold mbind, M_bind at 1 2.
  unfold M_bind. destruct (run_instruction ix σ) as [[u σ1]|e|]; [|done|done].
  rewrite IH. done.
Qed.
End Run.
