(* ===== verification/SdkTheorems.v ===== *)
(** * Instructions: dispatch and transactions

    What [process_instruction] does with any instruction data, that the
    instructions of the SDK reach their handlers with their arguments, and
    that the SDK's transaction creates a queue. *)

From S2P Require Import Prelude Pod Api QueueLayout QueueAccount QueueInv QueueAdd QueueSpec Solana Accounts Instructions Handlers Provide Reason Laws Registry Sdk.

Section Dispatch.
Context {rt : Runtime} {ob : OraclesBorsh} {rb : RequestBorsh} {ds : DelegationSdk}.

(** Dispatch is total: an instruction for another program id, with less
    than 8 bytes or with a first byte that is no tag is refused with the
    matching error, whatever the accounts; otherwise exactly the handler of
    the tag runs, on the bytes after the 8-byte header. No instruction data
    makes the dispatch itself panic. *)
Theorem process_instruction_spec program_id accounts d σ :
  process_instruction program_id accounts d σ =
    if negb (bytes_eqb program_id ID) then Err IncorrectProgramId
    else match d with
         | tag :: _ :: _ :: _ :: _ :: _ :: _ :: _ :: args =>
           match ix_try_from (byte.unsigned tag) with
           | Some ix => handler ix accounts args σ
           | None => Err InvalidInstructionData
           end
         | _ => Err InvalidInstructionData
         end.
Proof.
  unfold process_instruction, parse_instruction8.
  destruct (bytes_eqb program_id ID); [|done].
  do 7 (destruct d as [|? d]; [done|]). destruct d as [|x d]; [done|].
  cbn [negb ensure mbind outcome_bind].
  assert (zlen (b :: b0 :: b1 :: b2 :: b3 :: b4 :: b5 :: x :: d) = 8 + zlen d) as Hl.
  { rewrite !zlen_cons. lia. }
  pose proof (zlen_nonneg d).
  rewrite Hl, (proj2 (Z.leb_le _ _)), index_range_eq by (rewrite ?Hl; lia).
  cbn [ensure mbind outcome_bind]. change (slice (b :: _) 0 1) with [b].
  change ([b] !! 0%nat ≫= λ b, ix_try_from (byte.unsigned b)) with (ix_try_from (byte.unsigned b)).
  replace (slice (b :: b0 :: b1 :: b2 :: b3 :: b4 :: b5 :: x :: d) 8 (8 + zlen d)) with d.
  2: { change (b :: b0 :: b1 :: b2 :: b3 :: b4 :: b5 :: x :: d)
         with ([b; b0; b1; b2; b3; b4; b5; x] ++ d).
       rewrite slice_app_r by (change (zlen [b; b0; b1; b2; b3; b4; b5; x]) with 8; lia).
       change (zlen [b; b0; b1; b2; b3; b4; b5; x]) with 8.
       by rewrite Z.sub_diag, Z.add_simpl_l, slice_all. }
  destruct (ix_try_from (byte.unsigned b)) as [ix|]; [|done].
  cbn [ok_or mbind outcome_bind]. erewrite M_step by (by apply lift_Ok). by destruct ix.
Qed.

(** An instruction of the program built from arguments. *)
Lemma run_handler {A} `{Pod A} accounts ix (args : A) σ :
  run_instruction (mkInstruction ID accounts (ix_to_bytes ix args)) σ =
  handler ix (info_of <$> accounts) (bytes_of args) σ.
Proof. rewrite run_ix. apply process_header. Qed.

(** C40. What the program writes, the program reads: every argument struct
    with a fixed layout is decoded from its instruction bytes to itself, for
    all twelve instructions, and two different instructions or arguments
    never have the same bytes. *)
Theorem instruction_round_trip {A} `{Pod A} ix ix' (args args' : A) :
  pod_wf args → pod_wf args' →
  parse_instruction8 ID (ix_to_bytes ix args) = Ok (ix, bytes_of args) ∧
  args_try_from_bytes (bytes_of args) = Ok args ∧
  (ix_to_bytes ix args = ix_to_bytes ix' args' → ix = ix' ∧ args = args').
Proof.
  intros Hwf Hwf'. split; [apply parse_header|]. split; [by apply args_round_trip|].
  unfold ix_to_bytes. intros Heq.
  assert (Ok (E:=ProgramError) (ix, bytes_of args) = Ok (ix', bytes_of args')) as [= -> Hb].
  { by rewrite <- !parse_header, Heq. }
  split; [done|].
  assert (Ok (E:=ProgramError) args = Ok args') as [= ->]; [|done].
  by rewrite <- (args_round_trip args Hwf), Hb, args_round_trip.
Qed.
End Dispatch.

Section CreateQueue.
Context {rt : Runtime} {ob : OraclesBorsh} {rb : RequestBorsh} {laws : RuntimeLaws}.
Context (payer identity : list byte) (index n : Z).

Let od : list byte := fst (oracle_data_pda identity).
Let q : list byte := fst (oracle_queue_pda identity index).
Let ix : Instruction := initialize_oracle_queue_ix payer identity index n.

Let info_od : AccountInfo := mkInfo od false true.
Let info_q : AccountInfo := mkInfo q false true.
Let signer : AccountInfo := mkInfo payer true true.
Let oracle : AccountInfo := mkInfo identity true false.
Let system : AccountInfo := mkInfo system_program_ID false false.

Lemma run_init σ :
  run_instruction ix σ =
  process_initialize_oracle_queue [signer; oracle; info_od; info_q; system]
    (bytes_of (InitializeOracleQueue_new index n)) σ.
Proof. exact (run_handler _ IxInitializeOracleQueue (InitializeOracleQueue_new index n) σ). Qed.

Lemma init_args : fits 32 n → fits 8 index →
  args_try_from_bytes (bytes_of (InitializeOracleQueue_new index n)) =
    Ok (InitializeOracleQueue_new index n).
Proof. intros Hn Hi. apply args_round_trip. by split; [split|]. Qed.

(** The instructions before the last one only grow the account. *)
Lemma run_growing k m σ σ' u :
  lamports_wf σ → fits 32 n → fits 8 index → od ≠ q → 0 ≤ m →
  data_at σ q = zeros m → m + 10240 * Z.of_nat k < n ∨ k = 0%nat →
  run_instructions (replicate k ix) σ = Ok (u, σ') →
  lamports_wf σ' ∧ data_at σ' q = zeros (m + 10240 * Z.of_nat k) ∧ data_at σ' od = data_at σ od.
Proof.
  intros Hwf Hn Hi Hne Hm Hd Hk Hrun. revert m σ Hwf Hm Hd Hk Hrun.
  induction k as [|k IH]; intros m σ Hwf Hm Hd Hk Hrun; cbn [replicate run_instructions] in Hrun; inv_M.
  { by replace (m + 10240 * Z.of_nat 0) with m by lia. }
  destruct Hk as [Hk|Hk]; [|discriminate Hk].
  match goal with H : run_instruction ix _ = Ok (_, ?s) |- _ => rename H into Hrun1; rename s into σ1 end.
  rewrite run_init in Hrun1. pose proof (initialize_oracle_queue_fits _ _ _ _ _ Hwf Hrun1) as Hwf1.
  apply (initialize_oracle_queue_step signer oracle info_od info_q system _ _ _ _ Hwf Hne (init_args Hn Hi))
    in Hrun1 as (_ & _ & _ & _ & _ & _ & _ & Hgrow & _).
  assert (zlen (zeros m) = m) as Hzm by (apply zlen_replicate; lia).
  cbn [key info_q info_od ioq_target_size InitializeOracleQueue_new] in Hgrow. rewrite Hd, Hzm in Hgrow.
  destruct Hgrow as [Hd1 Hod1]; [lia|].
  destruct (IH (m + 10240) σ1 Hwf1) as (Hwf' & Hd' & Hod'); [lia|done| |done|].
  { destruct k; [by right|left; lia]. }
  split; [done|]. split; [|congruence]. rewrite Hd'. f_equal. lia.
Qed.

(** C39. The SDK's transaction creates a queue: run one after the other on an
    account without data, its [div_ceil target 10240] instructions leave an
    empty, unpaused queue of exactly the target size with the requested
    index, owned by the program, and one more open queue counted for the
    oracle (once, not once per instruction). Every instruction is needed:
    after a proper prefix the account is still all zero, 10240 bytes per
    instruction, and no queue is counted. *)
Theorem sdk_creates_queue σ σ' :
  lamports_wf σ → fits 32 n → 24 ≤ n → fits 8 index → od ≠ q → data_at σ q = [] →
  run_instructions (initialize_oracle_queue payer identity index (Some n)) σ = Ok ((), σ') →
  n ≤ MAX_QUEUE_ACCOUNT_SIZE ∧ owner_at σ' q = ID ∧
  queue_data (data_at σ' q) [] ∧ zlen (data_at σ' q) = n ∧
  (∃ h, Queue_try_from_bytes (data_at σ' q) = Ok h ∧ queue_index h = index ∧ paused h = 0) ∧
  (∃ oracle, try_from_bytes (data_at σ od) = Ok oracle ∧
     try_from_bytes (data_at σ' od) =
       Ok (set_open_queues oracle (saturating_add 64 (open_queues oracle) 1))) ∧
  ∀ pre post σ1, initialize_oracle_queue payer identity index (Some n) = pre ++ post → post ≠ [] →
    run_instructions pre σ = Ok ((), σ1) →
    data_at σ1 q = zeros (10240 * zlen pre) ∧ data_at σ1 od = data_at σ od.
Proof.
  intros Hwf Hn H24 Hi Hne Hd Hrun. unfold initialize_oracle_queue in *. cbn [from_option id] in *.
  fold ix in Hrun |- *. change (id n) with n in *.
  pose proof (Z.div_mod (n + (10240 - 1)) 10240 ltac:(lia)) as Hdiv.
  pose proof (Z.mod_pos_bound (n + (10240 - 1)) 10240 ltac:(lia)) as Hmod.
  fold (div_ceil n 10240) in Hdiv. set (c := div_ceil n 10240) in *. clearbody c.
  destruct (Z.to_nat c) as [|k] eqn:Hc; [lia|].
  assert (∀ j σ1, (j ≤ k)%nat → run_instructions (replicate j ix) σ = Ok ((), σ1) →
    lamports_wf σ1 ∧ data_at σ1 q = zeros (10240 * Z.of_nat j) ∧ data_at σ1 od = data_at σ od) as Hpre.
  { intros j σ1 Hj H. apply (run_growing j 0 σ σ1 ()); try assumption; [lia|]. destruct j; [by right|left; lia]. }
  rewrite replicate_S_end, run_instructions_app in Hrun.
  inv_M. cbn [replicate run_instructions] in Hrun. inv_M.
  match goal with H : run_instructions _ _ = Ok (_, ?s), H' : run_instruction ix _ = _ |- _ =>
    destruct (Hpre k s ltac:(lia) H) as (Hwf1 & Hd1 & Hod1); rename H' into Hlast; rename s into σk end.
  rewrite run_init in Hlast.
  apply (initialize_oracle_queue_step signer oracle info_od info_q system _ _ _ _ Hwf1 Hne (init_args Hn Hi))
    in Hlast as (_ & _ & _ & _ & _ & Hmax & Ho & _ & Hend).
  assert (zlen (zeros (10240 * Z.of_nat k)) = 10240 * Z.of_nat k) as Hz by (apply zlen_replicate; lia).
  cbn [key info_q info_od ioq_target_size ioq_index InitializeOracleQueue_new] in *.
  rewrite Hd1, Hz in Hend. destruct Hend as (Hq & Hlen & Hh & Hor); [lia|lia|].
  rewrite Hod1 in Hor. do 6 (split; [assumption|]).
  intros pre post σ1' Heq Hpost Hrun'.
  assert (pre = replicate (length pre) ix ∧ (length pre ≤ k)%nat) as [Hp Hle].
  { apply (f_equal length) in Heq as Hl. rewrite length_replicate, length_app in Hl.
    assert (length post ≠ 0%nat) by (destruct post; [done|discriminate]).
    split; [|lia]. apply (f_equal (take (length pre))) in Heq.
    rewrite take_app_length, take_replicate in Heq. rewrite <- Heq at 1. f_equal. lia. }
  rewrite Hp in Hrun'. destruct (Hpre _ _ Hle Hrun') as (_ & Hd' & Hod'). by split.
Qed.
End CreateQueue.
