(* ===== verification/OracleClock.v ===== *)
(** * The oracle service: clocks and caches

    The parts of [vrf-oracle/src] that keep time: [blockhash_cache.rs], the
    slot tracker of [oracle/client.rs], and the host's view of a request's age
    in [oracle/processor.rs]. Durations are nanoseconds and instants are
    nanoseconds from the origin of the monotonic clock, both as integers. *)

From S2P Require Import Prelude Pod Api QueueLayout.

Definition nanos_per_sec : Z := 10 ^ 9.
Definition from_millis (n : Z) : Z := n * 10 ^ 6.
Definition from_secs (n : Z) : Z := n * nanos_per_sec.

(** [Instant::duration_since] and [elapsed] saturate at zero. *)
Definition duration_since (later earlier : Z) : Z := Z.max 0 (later - earlier).

(** ** [blockhash_cache.rs] *)

Record CacheData : Type := mkCacheData {
  cache_blockhash : list byte;
  cache_slot : Z;
  cache_timestamp : Z;
}.

(** [CacheData::apply] at the time [now]. *)
Definition cache_apply (c : CacheData) (blockhash : list byte) (slot now : Z) : CacheData :=
  if slot <? cache_slot c then c else mkCacheData blockhash slot now.

(** [BlockhashCache::new] panics when the first fetch fails. *)
Definition BlockhashCache_new (fetched : option (list byte * Z)) (now : Z) : res CacheData :=
  match fetched with
  | Some (blockhash, slot) => Ok (mkCacheData blockhash slot now)
  | None => Panic
  end.

Definition get_blockhash_and_slot (c : CacheData) : list byte * Z := (cache_blockhash c, cache_slot c).

Definition set_blockhash (blockhash : list byte) (slot now : Z) (c : CacheData) : CacheData :=
  cache_apply c blockhash slot now.

(** [refresh_blockhash]: the fetch may fail. *)
Definition refresh_blockhash (fetched : option (list byte * Z)) (now : Z) (c : CacheData) : CacheData :=
  match fetched with
  | Some (blockhash, slot) => cache_apply c blockhash slot now
  | None => c
  end.

(** [refresh_if_stale]; [asked] is when the age is read, [now] when the
    answer is applied. *)
Definition refresh_if_stale (max_age : Z) (fetched : option (list byte * Z)) (asked now : Z)
    (c : CacheData) : CacheData :=
  if max_age <? duration_since asked (cache_timestamp c) then refresh_blockhash fetched now c else c.

(** A turn of the task of [spawn_refresh_task]. *)
Definition refresh_task_turn : option (list byte * Z) → Z → Z → CacheData → CacheData :=
  refresh_if_stale (from_secs 60).

(** ** [SlotTracker] *)

Definition EARLY_SEND_DIVISOR : Z := 20.
Definition EARLY_SEND_MAX : Z := from_millis 20.
Definition NON_ER_EARLY_SEND_BONUS : Z := from_millis 400.
Definition NON_ER_MIN_SLOT_DURATION : Z := from_millis 200.
Definition MIN_SLOT_SAMPLE : Z := from_millis 1.
Definition MIN_SLOT_SAMPLES : Z := 3.

Record SlotTiming : Type := mkSlotTiming {
  last_boundary : option (Z * Z);
  slot_duration : option Z;
  samples : Z;
  predictive_lead_bonus : Z;
}.

(** The value of the watch channel and the timing behind its mutex. *)
Record SlotTracker : Type := mkSlotTracker { current : Z; timing : SlotTiming }.

Definition SlotTracker_new : SlotTracker := mkSlotTracker 0 (mkSlotTiming None None 0 0).

Definition early_send_lead (slot_duration : Z) : Z :=
  Z.min (slot_duration / EARLY_SEND_DIVISOR) EARLY_SEND_MAX.

Definition set_is_er (is_er : bool) (t : SlotTracker) : SlotTracker :=
  let tm := timing t in
  mkSlotTracker (current t) (mkSlotTiming (last_boundary tm) (slot_duration tm) (samples tm)
    (if is_er then 0 else NON_ER_EARLY_SEND_BONUS)).

Definition update (slot : Z) (t : SlotTracker) : SlotTracker :=
  if current t <? slot then mkSlotTracker slot (timing t) else t.

Definition observe_slot_at (slot now : Z) (t : SlotTracker) : SlotTracker :=
  if slot <? current t then t
  else
    let tm := timing t in
    let bonus := predictive_lead_bonus tm in
    match last_boundary tm with
    | Some (previous_slot, previous_at) =>
      if previous_slot <? slot then
        let slot_delta := Z.min (slot - previous_slot) (2 ^ 32 - 1) in
        let sample := duration_since now previous_at / slot_delta in
        let tm' :=
          if MIN_SLOT_SAMPLE <=? sample then
            mkSlotTiming (Some (slot, now))
              (Some (match slot_duration tm with
                     | Some duration => (duration * 3 + sample) / 4
                     | None => sample
                     end))
              (saturating_add 8 (samples tm) 1) bonus
          else mkSlotTiming (Some (slot, now)) None 0 bonus in
        mkSlotTracker (Z.max (current t) slot) tm'
      else update slot t
    | None =>
      mkSlotTracker (Z.max (current t) slot)
        (mkSlotTiming (Some (slot, now)) (slot_duration tm) (samples tm) bonus)
    end.

(** The largest [Duration]; an [Instant] holds [i64] seconds. *)
Definition duration_max : Z := (2 ^ 64 - 1) * nanos_per_sec + (nanos_per_sec - 1).
Definition instant_max : Z := (2 ^ 63 - 1) * nanos_per_sec + (nanos_per_sec - 1).

Definition duration_checked_mul (d n : Z) : option Z := if d * n <=? duration_max then Some (d * n) else None.

(** [Instant + Duration] panics out of range. *)
Definition instant_add (i d : Z) : res Z := if i + d <=? instant_max then Ok (i + d) else Panic.

Definition instant_checked_sub (i d : Z) : option Z :=
  if - 2 ^ 63 * nanos_per_sec <=? i - d then Some (i - d) else None.

(** The interval in which the start of [target] is expected. *)
Definition early_window (target : Z) (t : SlotTracker) : res (option (Z * Z)) :=
  let tm := timing t in
  if samples tm <? MIN_SLOT_SAMPLES then Ok None
  else
    match last_boundary tm, slot_duration tm with
    | Some (slot, observed_at), Some duration =>
      if (slot <=? target) && (target - slot <? 2 ^ 32) then
        match duration_checked_mul duration (target - slot) with
        | Some d =>
          predicted ← instant_add observed_at d;
          let lead := early_send_lead duration in
          let predictive_lead :=
            lead + (if NON_ER_MIN_SLOT_DURATION <=? duration then predictive_lead_bonus tm else 0) in
          match instant_checked_sub predicted predictive_lead with
          | Some deadline => expires ← instant_add predicted lead; Ok (Some (deadline, expires))
          | None => Ok None
          end
        | None => Ok None
        end
      else Ok None
    | _, _ => Ok None
    end.

Definition early_send_grace (t : SlotTracker) : Z :=
  match slot_duration (timing t) with Some d => early_send_lead d | None => 0 end.

(** One turn of the loop of [wait_for_slot_early]: return, wait for the next
    slot, or wait for it until a deadline. *)
Inductive wait_action : Type :=
| WaitDone
| WaitChange
| WaitUntil (deadline : Z).

(** One turn of [wait_for_slot]. *)
Definition wait_turn (target : Z) (t : SlotTracker) : wait_action :=
  if target <=? current t then WaitDone else WaitChange.

Definition early_wait_turn (target now : Z) (t : SlotTracker) : res wait_action :=
  if target <=? current t then Ok WaitDone
  else
    w ← early_window target t;
    match w with
    | Some (deadline, expires) =>
      if expires <? now then Ok WaitChange else Ok (WaitUntil deadline)
    | None => Ok WaitChange
    end.

(** ** The age of a request on the host *)

Definition CLOCK_SKEW_UNITS : Z := 15.

(** [age_secs] of [processor.rs], at the host time [now] in seconds. *)
Definition host_age_secs (now : Z) (item : QueueItem) : Z :=
  let now_stamp := created_at_from now in
  if wrapping_sub 16 (created_at item) now_stamp <=? CLOCK_SKEW_UNITS then 0
  else age_secs item now_stamp.
