(* ===== verification/ClockTheorems.v ===== *)
(** * The oracle service: theorems on clocks and caches

    What the blockhash cache holds after any updates, how the slot tracker
    estimates the duration of a slot and when it lets a transaction go out
    early, and that the host's age of a request is the program's. *)

From S2P Require Import Prelude Pod Api QueueLayout QueueTheorems OracleClock.

(** ** The blockhash cache *)

(** The updates that reach the cache, from subscriptions and refreshes in the
    order in which they take the lock. *)
Definition cache_apply_all (l : list (list byte * Z * Z)) (c : CacheData) : CacheData :=
  foldl (λ c '(h, s, now), cache_apply c h s now) c l.

(** However updates arrive, the cache holds the last of those with the
    highest slot: its slot never goes back, and an update that is older than
    what the cache holds changes nothing, not even the age of the entry. *)
Theorem blockhash_newest l c0 :
  let c := cache_apply_all l c0 in
  cache_slot c0 ≤ cache_slot c ∧
  Forall (λ '(_, s, _), s ≤ cache_slot c) l ∧
  ((c = c0 ∧ Forall (λ '(_, s, _), s < cache_slot c0) l) ∨
   ∃ l1 h s now l2, l = l1 ++ (h, s, now) :: l2 ∧ c = mkCacheData h s now ∧
     Forall (λ '(_, s', _), s' < s) l2).
Proof.
  cbv zeta. unfold cache_apply_all. induction l as [|[[h s] now] l IH] using rev_ind; cbn.
  { split; [lia|]. split; [constructor|]. left. by split. }
  rewrite foldl_app. cbn [foldl]. set (c := foldl _ c0 l) in *. destruct IH as (Hle & Hall & Hlast).
  unfold cache_apply. destruct (Z.ltb_spec s (cache_slot c)) as [Hlt|Hge].
  - split; [done|]. split.
    { apply Forall_app. split; [done|]. constructor; [lia|constructor]. }
    destruct Hlast as [[Hc Hold]|(l1 & h' & s' & n' & l2 & -> & Hc & Hl2)].
    + left. split; [done|]. apply Forall_app. split; [done|].
      constructor; [rewrite Hc in Hlt; done|constructor].
    + right. exists l1, h', s', n', (l2 ++ [(h, s, now)]). rewrite <- app_assoc. split_and!; [done|done|].
      apply Forall_app. split; [done|]. rewrite Hc in Hlt. by repeat constructor.
  - cbn [cache_slot]. split; [lia|]. split.
    + apply Forall_app. split; [|repeat constructor; lia].
      eapply Forall_impl; [exact Hall|]. intros [[? s'] ?] ?. lia.
    + right. by exists l, h, s, now, [].
Qed.

(** ** How often the blockhash is fetched *)

(** What happens to the cache, in the order of its locks: an update from a
    subscription, or a call of [refresh_if_stale]. *)
Inductive cache_event : Type :=
| CacheSet (hash : list byte) (slot now : Z)
| CacheCall (max_age : Z) (fetched : option (list byte * Z)) (asked now : Z).

Definition cache_step (c : CacheData) (e : cache_event) : CacheData :=
  match e with
  | CacheSet hash slot now => set_blockhash hash slot now c
  | CacheCall max_age fetched asked now => refresh_if_stale max_age fetched asked now c
  end.

(** The call asks the node. *)
Definition fetches (max_age asked : Z) (c : CacheData) : Prop := max_age < duration_since asked (cache_timestamp c).

(** Nothing in [l] is applied before the time [n]. *)
Definition not_before (n : Z) (e : cache_event) : Prop :=
  match e with CacheSet _ _ now | CacheCall _ _ _ now => n ≤ now end.

Lemma cache_step_timestamp n c e :
  n ≤ cache_timestamp c → not_before n e → n ≤ cache_timestamp (cache_step c e).
Proof.
  intros Hc He. destruct e as [h s now|m f a now]; cbn in *;
    unfold set_blockhash, refresh_if_stale, refresh_blockhash, cache_apply; repeat case_match; done.
Qed.

Lemma cache_steps_timestamp n l c :
  n ≤ cache_timestamp c → Forall (not_before n) l → n ≤ cache_timestamp (foldl cache_step c l).
Proof.
  intros Hc Hl. revert c Hc. induction Hl as [|e l He _ IH]; intros c Hc; [done|]. by apply IH, cache_step_timestamp.
Qed.

(** C29. How often the blockhash is fetched, with any number of callers of
    [refresh_if_stale] and any updates in between: after a fetch whose answer
    was taken, at [now1], a call with [max_age] fetches again only when more
    than [max_age] has gone by. Only a fetch whose answer was taken has that
    effect: after one that failed, or whose answer was older than the cached
    one, a call like it fetches again at once. *)
Theorem refresh_rate c m1 fetched1 asked1 now1 l m2 asked2 :
  fetches m1 asked1 c → now1 ≤ asked2 → Forall (not_before now1) l →
  let c1 := cache_step c (CacheCall m1 fetched1 asked1 now1) in
  match fetched1 with
  | Some (hash, slot) =>
      (cache_slot c ≤ slot → c1 = mkCacheData hash slot now1 ∧
         (fetches m2 asked2 (foldl cache_step c1 l) → m2 < asked2 - now1)) ∧
      (slot < cache_slot c → c1 = c ∧ (asked1 ≤ asked2 → fetches m1 asked2 c1))
  | None => c1 = c ∧ (asked1 ≤ asked2 → fetches m1 asked2 c1)
  end.
Proof.
  unfold fetches. intros Hf Hle Hl. cbn [cache_step]. unfold refresh_if_stale.
  rewrite (proj2 (Z.ltb_lt _ _)) by done. unfold refresh_blockhash, cache_apply.
  assert (asked1 ≤ asked2 → m1 < duration_since asked2 (cache_timestamp c)) as Hagain
    by (unfold duration_since in *; lia).
  destruct fetched1 as [[hash slot]|]; [|done].
  destruct (Z.ltb_spec slot (cache_slot c)) as [Hold|Hnew]; (split; intros Hs; [try lia|try lia]); [done|].
  - split; [done|]. intros H2. pose proof (cache_steps_timestamp now1 l (mkCacheData hash slot now1) ltac:(done) Hl).
    unfold duration_since in H2. lia.
Qed.

(** ** The slot tracker *)

(** Everything that changes a tracker. *)
Inductive tracker_event : Type :=
| EvUpdate (slot : Z)
| EvObserve (slot now : Z)
| EvIsEr (is_er : bool).

Definition tracker_step (t : SlotTracker) (e : tracker_event) : SlotTracker :=
  match e with
  | EvUpdate slot => update slot t
  | EvObserve slot now => observe_slot_at slot now t
  | EvIsEr b => set_is_er b t
  end.

Definition event_slot (e : tracker_event) : Z :=
  match e with EvUpdate s => s | EvObserve s _ => s | EvIsEr _ => 0 end.

Definition run_tracker (l : list tracker_event) : SlotTracker := foldl tracker_step SlotTracker_new l.

Definition max_slot (l : list tracker_event) : Z := foldl Z.max 0 (event_slot <$> l).

(** The state of the timing: a slot duration is at least a millisecond and is
    known exactly when there are samples. *)
Record timing_ok (t : SlotTracker) : Prop := {
  to_samples : 0 ≤ samples (timing t) ≤ 255;
  to_duration : match slot_duration (timing t) with
                | Some d => MIN_SLOT_SAMPLE ≤ d ∧ 1 ≤ samples (timing t)
                | None => samples (timing t) = 0
                end;
  to_boundary : match last_boundary (timing t) with
                | Some (s, _) => s ≤ current t
                | None => slot_duration (timing t) = None
                end;
  to_bonus : predictive_lead_bonus (timing t) = 0 ∨ predictive_lead_bonus (timing t) = NON_ER_EARLY_SEND_BONUS;
}.

Lemma update_current s t : current (update s t) = Z.max (current t) s.
Proof. unfold update. destruct (Z.ltb_spec (current t) s); cbn; lia. Qed.

Lemma update_timing s t : timing (update s t) = timing t.
Proof. unfold update. by destruct (current t <? s). Qed.

Lemma observe_current s now t : current (observe_slot_at s now t) = Z.max (current t) s.
Proof.
  unfold observe_slot_at. destruct (Z.ltb_spec s (current t)); [lia|].
  destruct (last_boundary (timing t)) as [[ps pa]|]; [|done].
  destruct (ps <? s); [done|apply update_current].
Qed.

Lemma duration_average d s lo : lo ≤ d → lo ≤ s → lo ≤ (d * 3 + s) / 4.
Proof. intros. apply Z.div_le_lower_bound; lia. Qed.

Lemma timing_ok_step t e : timing_ok t → timing_ok (tracker_step t e).
Proof.
  intros [Hs Hd Hb Hbo]. destruct e as [s|s now|b]; cbn [tracker_step].
  - split; rewrite ?update_timing; try done. rewrite update_current.
    destruct (last_boundary (timing t)) as [[ps ?]|]; [lia|done].
  - unfold observe_slot_at. destruct (s <? current t); [done|]. cbv zeta.
    destruct (last_boundary (timing t)) as [[ps pa]|] eqn:Hl.
    + destruct (ps <? s).
      * destruct (Z.leb_spec MIN_SLOT_SAMPLE (duration_since now pa / Z.min (s - ps) (2 ^ 32 - 1))) as [Hm|];
          split; cbn; try done; try lia; unfold saturating_add; try lia.
        split; [|lia]. destruct (slot_duration (timing t)) as [d|]; [|done]. apply duration_average; [apply Hd|done].
      * split; rewrite ?update_timing; try done. rewrite update_current, Hl. lia.
    + split; cbn; try done; lia.
  - split; cbn; try done. destruct b; [by left|by right].
Qed.

Lemma tracker_step_current t e : 0 ≤ current t → current (tracker_step t e) = Z.max (current t) (event_slot e).
Proof.
  intros. destruct e; cbn; [apply update_current|apply observe_current|lia].
Qed.

(** C31. Over any sequence of slot notifications, in whatever order they come,
    the tracker's slot is the highest slot seen (it never goes back), and its
    timing is consistent: the estimate exists exactly when samples were
    taken, is never below a millisecond, and belongs to a boundary no later
    than the current slot. *)
Theorem slot_tracker_invariant l :
  let t := run_tracker l in current t = max_slot l ∧ timing_ok t.
Proof.
  cbv zeta. unfold run_tracker, max_slot. induction l as [|e l [IHc IHo]] using rev_ind.
  - split; [done|]. split; cbn; try done. by left.
  - rewrite fmap_app, !foldl_app. cbn [foldl fmap list_fmap]. split; [|by apply timing_ok_step].
    rewrite <- IHc. apply tracker_step_current. rewrite IHc. clear. 
    induction l as [|e l IH] using rev_ind; [done|]. rewrite fmap_app, foldl_app. cbn. lia.
Qed.

(** A new slot boundary moves the estimate a quarter of the way towards
    the measured duration of the slots since the last boundary: the new
    estimate lies between the old one and the sample and its error is at most
    three quarters of the old error; a sample below a millisecond discards
    the estimate and all samples. *)
Lemma slot_estimate_converges slot now t s0 at0 :
  last_boundary (timing t) = Some (s0, at0) → current t ≤ slot → s0 < slot < s0 + 2 ^ 32 →
  let sample := duration_since now at0 / (slot - s0) in
  let tm := timing (observe_slot_at slot now t) in
  last_boundary tm = Some (slot, now) ∧
  (sample < MIN_SLOT_SAMPLE → slot_duration tm = None ∧ samples tm = 0) ∧
  (MIN_SLOT_SAMPLE ≤ sample → samples tm = saturating_add 8 (samples (timing t)) 1 ∧
     ∃ d', slot_duration tm = Some d' ∧
       match slot_duration (timing t) with
       | None => d' = sample
       | Some d => Z.min d sample ≤ d' ≤ Z.max d sample ∧ 4 * Z.abs (d' - sample) ≤ 3 * Z.abs (d - sample) + 3
       end).
Proof.
  intros Hl Hc Hs sample tm. subst tm. unfold observe_slot_at. rewrite Hl.
  rewrite (proj2 (Z.ltb_ge _ _)) by lia. rewrite (proj2 (Z.ltb_lt _ _)) by lia.
  rewrite Z.min_l by lia. fold sample. cbv zeta. cbn [timing].
  destruct (Z.leb_spec MIN_SLOT_SAMPLE sample) as [Hm|Hm]; cbn.
  - split; [done|]. split; [lia|]. intros _. split; [done|]. eexists. split; [done|].
    destruct (slot_duration (timing t)) as [d|]; [|done].
    pose proof (Z.div_mod (d * 3 + sample) 4 ltac:(lia)). pose proof (Z.mod_pos_bound (d * 3 + sample) 4 ltac:(lia)).
    split; lia.
  - split; [done|]. split; [done|lia].
Qed.

(** ** Sending early *)

(** Ranges in which no arithmetic of the window can overflow: instants within
    2^31 seconds (68 years) of the origin and slots of at most an hour. *)
Definition in_service (now : Z) : Prop := 0 ≤ now ≤ from_secs (2 ^ 31).

Lemma early_send_lead_bounds d : 0 ≤ d → 0 ≤ early_send_lead d ≤ EARLY_SEND_MAX ∧ 20 * early_send_lead d ≤ d.
Proof.
  intros. unfold early_send_lead, EARLY_SEND_DIVISOR, EARLY_SEND_MAX, from_millis.
  pose proof (Z.div_mod d 20 ltac:(lia)). pose proof (Z.mod_pos_bound d 20 ltac:(lia)). lia.
Qed.

Lemma window_arith at0 p lead bonus :
  0 ≤ at0 ≤ 2 ^ 31 * 10 ^ 9 → 0 ≤ p ≤ 3600 * 10 ^ 9 * 2 ^ 32 → 0 ≤ lead ≤ 20 * 10 ^ 6 →
  0 ≤ bonus ≤ 400 * 10 ^ 6 →
  (if p <=? duration_max then Some p else None) = Some p ∧ instant_add at0 p = Ok (at0 + p) ∧
  (∀ b, 0 ≤ b ≤ bonus → instant_checked_sub (at0 + p) (lead + b) = Some (at0 + p - (lead + b))) ∧
  instant_add (at0 + p) lead = Ok (at0 + p + lead).
Proof.
  intros. unfold duration_max, instant_add, instant_max, instant_checked_sub, nanos_per_sec.
  split; [rewrite (proj2 (Z.leb_le _ _)) by lia; done|].
  split; [rewrite (proj2 (Z.leb_le _ _)) by lia; done|].
  split; [intros b Hb|]; rewrite (proj2 (Z.leb_le _ _)) by lia; done.
Qed.

(** The window is computed without overflow, around the predicted start. *)
Lemma early_window_Ok target t :
  timing_ok t →
  match last_boundary (timing t) with Some (_, at0) => in_service at0 | None => True end →
  match slot_duration (timing t) with Some d => d ≤ from_secs 3600 | None => True end →
  ∃ w, early_window target t = Ok w ∧
    ∀ deadline expires, w = Some (deadline, expires) →
      3 ≤ samples (timing t) ∧
      ∃ slot at0 d, last_boundary (timing t) = Some (slot, at0) ∧ slot_duration (timing t) = Some d ∧
        let predicted := at0 + d * (target - slot) in
        predicted - (from_millis 20 + predictive_lead_bonus (timing t)) ≤ deadline ≤ predicted ∧
        (d < from_millis 200 → predicted - from_millis 20 ≤ deadline) ∧
        predicted ≤ expires ≤ predicted + from_millis 20.
Proof.
  intros [Hs Hd _ Hbo] Hat Hdur. unfold early_window.
  destruct (Z.ltb_spec (samples (timing t)) MIN_SLOT_SAMPLES) as [|H3]; [by exists None|].
  destruct (last_boundary (timing t)) as [[slot at0]|]; [|by exists None].
  destruct (slot_duration (timing t)) as [d|]; [|by exists None].
  destruct (Z.leb_spec slot target) as [Hst|]; [|by exists None].
  destruct (Z.ltb_spec (target - slot) (2 ^ 32)) as [Hlt|]; [|by exists None]. cbn [andb].
  unfold in_service, from_secs, nanos_per_sec, MIN_SLOT_SAMPLE, from_millis in *.
  assert (0 ≤ d * (target - slot) ≤ 3600 * 10 ^ 9 * 2 ^ 32) as Hp by nia.
  destruct (early_send_lead_bounds d) as [Hlead Hlead20]; [lia|]. unfold EARLY_SEND_MAX, from_millis in Hlead.
  unfold duration_checked_mul.
  destruct (window_arith at0 (d * (target - slot)) (early_send_lead d) (predictive_lead_bonus (timing t)))
    as (-> & Hadd & Hsub & Hexp); [lia|lia|lia|unfold NON_ER_EARLY_SEND_BONUS, from_millis in Hbo; lia|].
  rewrite Hadd. cbn [mbind outcome_bind]. cbv zeta.
  assert (∃ b, (if NON_ER_MIN_SLOT_DURATION <=? d then predictive_lead_bonus (timing t) else 0) = b ∧
    0 ≤ b ≤ predictive_lead_bonus (timing t) ∧ (d < 200 * 10 ^ 6 → b = 0)) as (b & -> & Hb & Hb0).
  { unfold NON_ER_MIN_SLOT_DURATION, NON_ER_EARLY_SEND_BONUS, from_millis in *.
    destruct (Z.leb_spec (200 * 10 ^ 6) d); eexists; (split; [done|]); lia. }
  rewrite Hsub, Hexp by lia. cbn [mbind outcome_bind].
  eexists. split; [done|]. intros ? ? [= <- <-]. split; [done|].
  exists slot, at0, d. split_and!; try done; lia.
Qed.

(** C28. Waiting for a slot early never panics, and it sends before the slot
    has begun only on a sound estimate: at least three samples, no earlier
    than 420 ms (20 ms on an ephemeral rollup, or when slots are shorter than
    200 ms) before the predicted start, and never once the prediction is
    overdue by 20 ms. Without an estimate, or after that, only the slot itself
    ends the wait. The clock is within the range of a service's life, and a
    slot is estimated at an hour at most. *)
Theorem early_wait_bounds target now t :
  timing_ok t →
  match last_boundary (timing t) with Some (_, at0) => in_service at0 | None => True end →
  match slot_duration (timing t) with Some d => d ≤ from_secs 3600 | None => True end →
  ∃ a, early_wait_turn target now t = Ok a ∧
    (a = WaitDone ↔ target ≤ current t) ∧
    ∀ deadline, a = WaitUntil deadline →
      current t < target ∧ 3 ≤ samples (timing t) ∧
      ∃ slot at0 d, last_boundary (timing t) = Some (slot, at0) ∧ slot_duration (timing t) = Some d ∧
        let predicted := at0 + d * (target - slot) in
        predicted - (from_millis 20 + predictive_lead_bonus (timing t)) ≤ deadline ≤ predicted ∧
        (d < from_millis 200 → predicted - from_millis 20 ≤ deadline) ∧
        now ≤ predicted + from_millis 20.
Proof.
  intros Hok Hat Hdur. unfold early_wait_turn.
  destruct (Z.leb_spec target (current t)) as [Hle|Hgt]; [by exists WaitDone|].
  destruct (early_window_Ok target t Hok Hat Hdur) as (w & -> & Hw). cbn [mbind outcome_bind].
  assert (∀ a, a ≠ WaitDone → (a = WaitDone ↔ target ≤ current t)) as Hnd.
  { intros a Ha. split; [done|lia]. }
  destruct w as [[dl ex]|]; [|exists WaitChange; split_and!; [done|by apply Hnd|done]].
  destruct (Z.ltb_spec ex now) as [|Hnow]; [exists WaitChange; split_and!; [done|by apply Hnd|done]|].
  exists (WaitUntil dl). split; [done|]. split; [by apply Hnd|]. intros ? [= <-].
  destruct (Hw _ _ eq_refl) as (H3 & slot & at0 & d & Hl & Hd & Hb & Hb' & He).
  split; [done|]. split; [done|]. exists slot, at0, d. cbv zeta in *. split_and!; try done; lia.
Qed.

(** ** The age on the host *)

(** C30. The host judges the age of a request as the program does: with a host
    clock that has not fallen behind the request it reads the program's own
    age, for any request younger than 72 hours; and a host clock up to a
    minute behind the cluster reads 0, where the program's formula would wrap
    to almost 73 hours and the oracle would purge a request it has just
    received. *)
Theorem host_age_agrees now t item :
  0 ≤ t → 0 ≤ now → created_at item = created_at_from t →
  (t ≤ now → now - t < 72 * 3600 → host_age_secs now item = age_secs item (created_at_from now)) ∧
  (now < t → t - now ≤ 60 →
     host_age_secs now item = 0 ∧
     (4 ≤ t - now → QUEUE_TTL_SECONDS < age_secs item (created_at_from now))).
Proof.
  intros Ht Hn Hc. unfold host_age_secs, age_secs, wrapping_sub. rewrite Hc.
  unfold created_at_from, as_u16, wrap, CREATED_AT_UNIT_SECS, CLOCK_SKEW_UNITS, QUEUE_TTL_SECONDS.
  rewrite !Zminus_mod_idemp_l, !Zminus_mod_idemp_r.
  pose proof (quot_4_bounds t). pose proof (quot_4_bounds now). split.
  - intros Hle Hlt. destruct (Z.eq_dec (t ÷ 4) (now ÷ 4)) as [->|Hne].
    + by rewrite Z.sub_diag.
    + rewrite (proj2 (Z.leb_gt _ _)); [done|].
      replace (t ÷ 4 - now ÷ 4) with (t ÷ 4 - now ÷ 4 + 2 ^ 16 + (-1) * 2 ^ 16) by lia.
      rewrite Z.mod_add by lia. rewrite Z.mod_small by lia. lia.
  - intros Hlt H60. rewrite (proj2 (Z.leb_le _ _)) by (rewrite Z.mod_small; lia). split; [done|].
    intros H4. replace (now ÷ 4 - t ÷ 4) with (now ÷ 4 - t ÷ 4 + 2 ^ 16 + (-1) * 2 ^ 16) by lia.
    rewrite Z.mod_add by lia. rewrite Z.mod_small by lia. lia.
Qed.
