(* ===== verification/OracleTasks.v ===== *)
(** * The oracle service: queue views, requests in flight and their tasks

    [process_oracle_queue] of [vrf-oracle/src/oracle/processor.rs] and the maps
    of [OracleClient] it works on: views of a queue are put in order, requests
    that disappeared are dropped and their tasks aborted, and a task is spawned
    for every new request. The whole function runs under one lock, but the
    tasks clean up after themselves in two steps of their own, so the service
    is a transition system in which those steps interleave with a view. *)

From Stdlib Require Import SpecFloat.
From S2P Require Import Prelude Pod Api QueueLayout QueueAccount Solana Accounts.

(** ** [f64]

    Binary64 arithmetic, rounded to nearest even. *)

Definition f64 : Type := spec_float.
Definition f64_of (n : Z) : f64 := binary_normalize 53 1024 n 0 false.
Definition f64_add : f64 → f64 → f64 := SFadd 53 1024.
Definition f64_mul : f64 → f64 → f64 := SFmul 53 1024.
Definition f64_div : f64 → f64 → f64 := SFdiv 53 1024.

(** ** The maps *)

Abbreviation request_id := (list byte).
Abbreviation queue_key := (list byte).

(** A task that was spawned for a request: still in its retry loop, or past
    it and through the first of its two cleanup steps. *)
Inductive phase : Type := Running | Cleaning.

#[global] Instance phase_eq_dec : EqDecision phase.
Proof. solve_decision. Defined.

Record task : Type := mkTask {
  task_queue : queue_key;
  task_id : request_id;
  task_phase : phase;
  task_aborted : bool;
}.

(** The maps of [OracleClient], and the tasks of the async runtime by their
    [JoinHandle]. *)
Record OracleState : Type := mkOracleState {
  client_key : list byte;
  delegated_queue_statuses : option (gmap queue_key bool);
  latest_view_slots : gmap queue_key Z;
  queue_stats : gmap queue_key Z;
  inflight_requests : gmap queue_key (gmap request_id Z);
  active_tasks : gmap queue_key (gmap request_id nat);
  responses : gmap queue_key Z * gmap queue_key f64;
  spawned : gmap nat task;
  next_handle : nat;
}.

(** [OracleClient::new], and [initialize_delegated_queue_filter] from the
    answer to [getVersion]: an ephemeral rollup keeps delegation statuses. *)
Definition OracleState_new (pubkey : list byte) : OracleState :=
  mkOracleState pubkey None ∅ ∅ ∅ ∅ (∅, ∅) ∅ 0.

Definition initialize_delegated_queue_filter (is_er : bool) (st : OracleState) : OracleState :=
  mkOracleState (client_key st) (if is_er then Some ∅ else delegated_queue_statuses st)
    (latest_view_slots st) (queue_stats st) (inflight_requests st) (active_tasks st) (responses st)
    (spawned st) (next_handle st).

Definition response_counts (st : OracleState) : gmap queue_key Z := fst (responses st).
Definition avg_response_slots (st : OracleState) : gmap queue_key f64 := snd (responses st).

(** [entry(queue).or_default()] *)
Definition inflight_of (st : OracleState) (q : queue_key) : gmap request_id Z :=
  default ∅ (inflight_requests st !! q).
Definition tasks_of (st : OracleState) (q : queue_key) : gmap request_id nat :=
  default ∅ (active_tasks st !! q).
Definition latest_of (st : OracleState) (q : queue_key) : Z := default 0 (latest_view_slots st !! q).

Definition set_latest (q : queue_key) (slot : Z) (st : OracleState) : OracleState :=
  mkOracleState (client_key st) (delegated_queue_statuses st) (<[q := slot]> (latest_view_slots st)) (queue_stats st) (inflight_requests st)
    (active_tasks st) (responses st) (spawned st) (next_handle st).
Definition set_stats (q : queue_key) (n : Z) (st : OracleState) : OracleState :=
  mkOracleState (client_key st) (delegated_queue_statuses st) (latest_view_slots st) (<[q := n]> (queue_stats st)) (inflight_requests st)
    (active_tasks st) (responses st) (spawned st) (next_handle st).

(** ** Which queues are served *)

(** [should_process_queue]; [answer] is what [getDelegationStatus] returns if
    it is asked. *)
Definition should_process_queue (q : queue_key) (answer : option bool) (st : OracleState) : OracleState * bool :=
  match delegated_queue_statuses st with
  | None => (st, true)
  | Some statuses =>
    match statuses !! q with
    | Some is_delegated => (st, is_delegated)
    | None =>
      match answer with
      | Some is_delegated =>
        (mkOracleState (client_key st) (Some (<[q := is_delegated]> statuses)) (latest_view_slots st)
           (queue_stats st) (inflight_requests st) (active_tasks st) (responses st) (spawned st)
           (next_handle st), is_delegated)
      | None => (st, false)
      end
    end
  end.

(** ** The order of views *)

(** Whether the view is applied; an accepted view sets the newest slot. *)
Definition admit_view (q : queue_key) (notification_slot : option Z) (is_snapshot : bool)
    (st : OracleState) : OracleState * bool :=
  match notification_slot with
  | Some view_slot =>
    let latest := latest_of st q in
    let stale := if is_snapshot then view_slot <=? latest else view_slot <? latest in
    if stale then (set_latest q latest st, false) else (set_latest q view_slot st, true)
  | None => (st, true)
  end.

(** ** Requests that are gone *)

(** The running average and the count of a queue's responses. *)
Definition record_response (q : queue_key) (latency : Z) (r : gmap queue_key Z * gmap queue_key f64)
    : gmap queue_key Z * gmap queue_key f64 :=
  let '(counts, avgs) := r in
  let count := default 0 (counts !! q) in
  let prev_avg := default (f64_of 0) (avgs !! q) in
  let new_avg :=
    f64_div (f64_add (f64_mul prev_avg (f64_of count)) (f64_of latency)) (f64_add (f64_of count) (f64_of 1)) in
  (<[q := count + 1]> counts, <[q := new_avg]> avgs).

(** The loop body for one tracked id: in-flight slots, task handles, handles
    that were aborted and the response statistics. *)
Definition drop_one (q : queue_key) (current_ids : gset request_id) (notification_slot : option Z)
    (acc : gmap request_id Z * gmap request_id nat * list nat * (gmap queue_key Z * gmap queue_key f64))
    (tracked_id : request_id)
    : gmap request_id Z * gmap request_id nat * list nat * (gmap queue_key Z * gmap queue_key f64) :=
  let '(inflight, tasks, aborted, resp) := acc in
  if decide (tracked_id ∈ current_ids) then acc
  else
    let newer :=
      match inflight !! tracked_id, notification_slot with
      | Some enqueue_slot, Some view_slot => negb (view_slot <=? enqueue_slot)
      | _, _ => true
      end in
    if newer then
      let aborted' := match tasks !! tracked_id with Some h => h :: aborted | None => aborted end in
      let resp' :=
        match inflight !! tracked_id, notification_slot with
        | Some enqueue_slot, Some response_slot_hint =>
            record_response q (Z.max 0 (response_slot_hint - enqueue_slot)) resp
        | _, _ => resp
        end in
      (delete tracked_id inflight, delete tracked_id tasks, aborted', resp')
    else acc.

Definition abort (t : task) : task := mkTask (task_queue t) (task_id t) (task_phase t) true.

(** The ids of a queue's requests in flight, in the unspecified order in which
    [HashMap::keys] yields them. *)
Class KeyOrder : Type := {
  hash_keys : gmap request_id Z → list request_id;
  hash_keys_perm m : hash_keys m ≡ₚ elements (dom m);
}.

Definition drop_gone `{KeyOrder} (q : queue_key) (current_ids : gset request_id) (notification_slot : option Z)
    (st : OracleState) : OracleState :=
  let inflight := inflight_of st q in
  let previously_tracked := hash_keys inflight in
  let '(inflight', tasks', aborted, resp) :=
    foldl (drop_one q current_ids notification_slot)
      (inflight, tasks_of st q, [], responses st) previously_tracked in
  mkOracleState (client_key st) (delegated_queue_statuses st) (latest_view_slots st) (queue_stats st) (<[q := inflight']> (inflight_requests st))
    (<[q := tasks']> (active_tasks st)) resp
    (foldr (λ h m, alter abort h m) (spawned st) aborted) (next_handle st).

(** ** New requests *)

(** Under the in-flight lock: reserve the id, spawn the task and publish its
    handle. *)
Definition spawn_item (q : queue_key) (item : QueueItem) (st : OracleState) : OracleState :=
  let inflight := inflight_of st q in
  match inflight !! item_id item with
  | Some _ => st
  | None =>
    let handle := next_handle st in
    mkOracleState (client_key st) (delegated_queue_statuses st) (latest_view_slots st) (queue_stats st)
      (<[q := <[item_id item := slot item]> inflight]> (inflight_requests st))
      (<[q := <[item_id item := handle]> (tasks_of st q)]> (active_tasks st))
      (responses st)
      (<[handle := mkTask q (item_id item) Running false]> (spawned st)) (S handle)
  end.

(** ** A view *)

Record view : Type := mkView {
  v_queue : queue_key;
  v_header : Queue;
  v_bytes : list byte;
  v_slot : option Z;
  v_snapshot : bool;
  v_answer : option bool;   (* of [getDelegationStatus], if it is asked *)
}.

Definition view_items (v : view) : res (list QueueItem) :=
  acc ← load (v_bytes v); mret (iter_items acc).

(** The part of [process_oracle_queue] before the items are spawned: what is
    left to spawn is returned. *)
Definition begin_view `{Runtime, KeyOrder} (v : view) (st : OracleState) : OracleState * list QueueItem :=
  let q := v_queue v in
  if bytes_eqb (fst (oracle_queue_pda (client_key st) (queue_index (v_header v)))) q then
    let '(st, served) := should_process_queue q (v_answer v) st in
    if served then
      let '(st, admitted) := admit_view q (v_slot v) (v_snapshot v) st in
      if admitted then
        let st := set_stats q (item_count (v_header v)) st in
        match view_items v with
        | Ok items => (drop_gone q (list_to_set (item_id <$> items)) (v_slot v) st, items)
        | _ => (st, [])
        end
      else (st, [])
    else (st, [])
  else (st, []).

(** Without interruption. *)
Definition process_oracle_queue `{Runtime, KeyOrder} (v : view) (st : OracleState) : OracleState :=
  let '(st, items) := begin_view v st in
  foldl (λ st item, spawn_item (v_queue v) item st) st items.

(** ** The end of a task *)

Definition set_phase (p : phase) (t : task) : task := mkTask (task_queue t) (task_id t) p (task_aborted t).

(** Remove the handle, then, under another lock, the in-flight entry. *)
Definition clean_tasks (h : nat) (t : task) (st : OracleState) : OracleState :=
  mkOracleState (client_key st) (delegated_queue_statuses st) (latest_view_slots st) (queue_stats st) (inflight_requests st)
    (alter (delete (task_id t)) (task_queue t) (active_tasks st)) (responses st)
    (<[h := set_phase Cleaning t]> (spawned st)) (next_handle st).

Definition clean_inflight (h : nat) (t : task) (st : OracleState) : OracleState :=
  mkOracleState (client_key st) (delegated_queue_statuses st) (latest_view_slots st) (queue_stats st)
    (alter (delete (task_id t)) (task_queue t) (inflight_requests st))
    (active_tasks st) (responses st) (delete h (spawned st)) (next_handle st).

(** ** The transition system

    A configuration has the maps, the view in progress (its queue and the
    items that are left to spawn) and the requests that a view has dropped. An
    aborted task may stop at any time or still reach its cleanup. *)
Record config : Type := mkConfig {
  cf_state : OracleState;
  cf_view : option (queue_key * list QueueItem);
  cf_gone : gset (queue_key * request_id);
}.

Definition config_new (pubkey : list byte) (is_er : bool) : config :=
  mkConfig (initialize_delegated_queue_filter is_er (OracleState_new pubkey)) None ∅.

(** What a view drops. *)
Definition dropped (q : queue_key) (st st' : OracleState) : gset (queue_key * request_id) :=
  set_map (λ i, (q, i)) (dom (inflight_of st q) ∖ dom (inflight_of st' q)).

Inductive step `{Runtime, KeyOrder} : config → config → Prop :=
| step_begin v st gone st' items :
    begin_view v st = (st', items) →
    (** a request that has left the queue does not come back to it *)
    Forall (λ it, (v_queue v, item_id it) ∉ gone) items →
    step (mkConfig st None gone)
      (mkConfig st' (Some (v_queue v, items)) (gone ∪ dropped (v_queue v) st st'))
| step_spawn st q item items gone :
    step (mkConfig st (Some (q, item :: items)) gone) (mkConfig (spawn_item q item st) (Some (q, items)) gone)
| step_end st q gone :
    step (mkConfig st (Some (q, [])) gone) (mkConfig st None gone)
| step_clean_tasks st h t vw gone :
    spawned st !! h = Some t → task_phase t = Running →
    step (mkConfig st vw gone) (mkConfig (clean_tasks h t st) vw gone)
| step_clean_inflight st h t vw gone :
    spawned st !! h = Some t → task_phase t = Cleaning →
    step (mkConfig st vw gone) (mkConfig (clean_inflight h t st) vw gone)
| step_stopped st h t vw gone :
    spawned st !! h = Some t → task_aborted t = true →
    step (mkConfig st vw gone)
      (mkConfig (mkOracleState (client_key st) (delegated_queue_statuses st) (latest_view_slots st) (queue_stats st) (inflight_requests st)
        (active_tasks st) (responses st) (delete h (spawned st)) (next_handle st)) vw gone).
