(* ===== verification/TaskTheorems.v ===== *)
(** * The oracle service: theorems on views and tasks

    What one view does to the maps, and the invariant of the transition
    system: no request has two tasks, every task in the maps is the live task
    of a request in flight, and no request is in flight without a task. *)

From S2P Require Import Prelude Pod Api QueueLayout QueueAccount Solana Accounts OracleTasks.

(** ** What a view drops *)

(** An id that is no longer in the queue, in a view newer than its request. *)
Definition removable (current_ids : gset request_id) (notification_slot : option Z)
    (inflight : gmap request_id Z) (i : request_id) : bool :=
  bool_decide (i ∉ current_ids) &&
  match inflight !! i, notification_slot with
  | Some e, Some v => e <? v
  | Some _, None => true
  | None, _ => false
  end.

Lemma removable_true cur slot infl i :
  removable cur slot infl i = true ↔
    i ∉ cur ∧ ∃ e, infl !! i = Some e ∧ (∀ v, slot = Some v → e < v).
Proof.
  unfold removable. rewrite andb_true_iff, bool_decide_eq_true.
  destruct (infl !! i) as [e|], slot as [v|]; rewrite ?Z.ltb_lt; naive_solver.
Qed.

Lemma hash_keys_NoDup `{KeyOrder} m : NoDup (hash_keys m).
Proof. rewrite hash_keys_perm. apply NoDup_elements. Qed.

Lemma elem_of_hash_keys `{KeyOrder} m i : i ∈ hash_keys m ↔ is_Some (m !! i).
Proof. by rewrite hash_keys_perm, elem_of_elements, elem_of_dom. Qed.

(** The number of responses of a queue. *)
Definition count_of (q : queue_key) (r : gmap queue_key Z * gmap queue_key f64) : Z := default 0 (fst r !! q).

Lemma record_response_count q l r : count_of q (record_response q l r) = count_of q r + 1.
Proof. destruct r as [counts avgs]. unfold count_of; cbn. by rewrite lookup_insert_eq. Qed.

Section Drop.
Context (cur : gset request_id) (slot : option Z) (infl0 : gmap request_id Z) (tasks0 : gmap request_id nat) (q : queue_key) (resp0 : gmap queue_key Z * gmap queue_key f64).

Let rem (i : request_id) : bool := removable cur slot infl0 i.

Lemma drop_one_id infl tasks ab c i :
  infl !! i = infl0 !! i → is_Some (infl0 !! i) →
  ∃ c', count_of q c' = count_of q c + (if slot is Some _ then 1 else 0) ∧
  drop_one q cur slot (infl, tasks, ab, c) i =
    if rem i then
      (delete i infl, delete i tasks, (match tasks !! i with Some h => h :: ab | None => ab end), c')
    else (infl, tasks, ab, c).
Proof.
  intros Hi [e He].
  exists (match slot with Some v => record_response q (Z.max 0 (v - e)) c | None => c end).
  split; [destruct slot; [apply record_response_count|lia]|].
  unfold drop_one, rem, removable. rewrite Hi, He.
  destruct (decide (i ∈ cur)) as [Hc|Hc].
  - by rewrite bool_decide_eq_false_2 by naive_solver.
  - rewrite bool_decide_eq_true_2 by done. cbn [andb]. destruct slot as [v|]; [|done].
    rewrite Z.ltb_antisym. by destruct (negb (v <=? e)).
Qed.

Lemma drop_fold l :
  NoDup l → (∀ i, i ∈ l → is_Some (infl0 !! i)) →
  let '(infl, tasks, ab, c) := foldl (drop_one q cur slot) (infl0, tasks0, [], resp0) l in
  (∀ i, infl !! i = if bool_decide (i ∈ l) && rem i then None else infl0 !! i) ∧
  (∀ i, tasks !! i = if bool_decide (i ∈ l) && rem i then None else tasks0 !! i) ∧
  (∀ h, h ∈ ab ↔ ∃ i, i ∈ l ∧ rem i = true ∧ tasks0 !! i = Some h) ∧
  count_of q c = count_of q resp0 + (if slot is Some _ then zlen (filter (λ i, rem i = true) l) else 0).
Proof.
  induction l as [|x l IH] using rev_ind; intros Hnd Hdom; cbn [foldl].
  { split_and!; [by intros i; rewrite bool_decide_eq_false_2 by set_solver..|set_solver|].
    destruct slot; unfold zlen; cbn; lia. }
  apply NoDup_app in Hnd as (Hnd & Hx & _). rewrite foldl_app. cbn [foldl].
  specialize (IH Hnd ltac:(set_solver)). destruct (foldl _ _ l) as [[[infl tasks] ab] c].
  destruct IH as (Hi & Ht & Ha & Hc).
  assert (x ∉ l) as Hxl by set_solver.
  assert (infl !! x = infl0 !! x) as Hix by (rewrite Hi, bool_decide_eq_false_2 by done; done).
  assert (tasks !! x = tasks0 !! x) as Htx by (rewrite Ht, bool_decide_eq_false_2 by done; done).
  destruct (drop_one_id infl tasks ab c x) as (c' & Hc' & ->); [done|apply Hdom; set_solver|].
  assert (∀ i, i ≠ x → bool_decide (i ∈ l ++ [x]) = bool_decide (i ∈ l)) as Hmem.
  { intros i Hne. apply bool_decide_ext. set_solver. }
  assert (bool_decide (x ∈ l ++ [x]) = true) as Hmx by (apply bool_decide_eq_true; set_solver).
  rewrite filter_app. destruct (rem x) eqn:Hrx.
  - split_and!.
    + intros i. destruct (decide (i = x)) as [->|Hne]; [by rewrite lookup_delete_eq, Hmx, Hrx|].
      by rewrite lookup_delete_ne, Hmem.
    + intros i. destruct (decide (i = x)) as [->|Hne]; [by rewrite lookup_delete_eq, Hmx, Hrx|].
      by rewrite lookup_delete_ne, Hmem.
    + intros h. rewrite Htx. split.
      * intros Hh. destruct (tasks0 !! x) as [h'|] eqn:Hx'; [apply elem_of_cons in Hh as [->|Hh]|].
        1: by exists x; set_solver.
        all: apply Ha in Hh as (i & ? & ? & ?); exists i; set_solver.
      * intros (i & Hin & Hr & Hti). apply elem_of_app in Hin as [Hin|Hin%list_elem_of_singleton].
        -- assert (h ∈ ab) by (apply Ha; eauto). destruct (tasks0 !! x); set_solver.
        -- subst i. rewrite Hti. set_solver.
    + rewrite filter_cons_True, filter_nil, zlen_app, zlen_cons, zlen_nil, Hc', Hc by done. destruct slot; lia.
  - split_and!.
    + intros i. destruct (decide (i = x)) as [->|Hne]; [by rewrite Hmx, Hrx|]. by rewrite Hi, Hmem.
    + intros i. destruct (decide (i = x)) as [->|Hne]; [by rewrite Hmx, Hrx|]. by rewrite Ht, Hmem.
    + intros h. rewrite Ha. split; intros (i & Hin & Hr & Hti); exists i; [set_solver|].
      apply elem_of_app in Hin as [Hin|Hin%list_elem_of_singleton]; [done|]. subst i. congruence.
    + rewrite filter_cons_False by (rewrite Hrx; done). cbn. rewrite app_nil_r. done.
Qed.
End Drop.

Lemma foldr_abort (m : gmap nat task) ab h :
  foldr (λ h m, alter abort h m) m ab !! h = if decide (h ∈ ab) then abort <$> m !! h else m !! h.
Proof.
  induction ab as [|x ab IH]; cbn [foldr]; [by rewrite decide_False by set_solver|].
  destruct (decide (h = x)) as [->|Hne].
  - rewrite lookup_alter_eq, IH, (decide_True _ _ (P:=x ∈ x :: ab)) by set_solver.
    destruct (decide (x ∈ ab)); [|done]. by destruct (m !! x).
  - rewrite lookup_alter_ne, IH by done. apply decide_ext. set_solver.
Qed.

Lemma inflight_insert st q q' m ck ds lv qs tk rc sp nh :
  inflight_of (mkOracleState ck ds lv qs (<[q := m]> (inflight_requests st)) tk rc sp nh) q' =
    if decide (q' = q) then m else inflight_of st q'.
Proof.
  unfold inflight_of; cbn. destruct (decide (q' = q)) as [->|]; [by rewrite lookup_insert_eq|by rewrite lookup_insert_ne].
Qed.

Lemma tasks_insert st q q' m ck ds lv qs il rc sp nh :
  tasks_of (mkOracleState ck ds lv qs il (<[q := m]> (active_tasks st)) rc sp nh) q' =
    if decide (q' = q) then m else tasks_of st q'.
Proof.
  unfold tasks_of; cbn. destruct (decide (q' = q)) as [->|]; [by rewrite lookup_insert_eq|by rewrite lookup_insert_ne].
Qed.

(** [drop_gone] in closed form. *)
Lemma drop_gone_spec `{KeyOrder} q cur slot st :
  let st' := drop_gone q cur slot st in
  let rem := removable cur slot (inflight_of st q) in
  (∀ q' i, inflight_of st' q' !! i = if bool_decide (q' = q) && rem i then None else inflight_of st q' !! i) ∧
  (∀ q' i, tasks_of st' q' !! i = if bool_decide (q' = q) && rem i then None else tasks_of st q' !! i) ∧
  (∃ ab : list nat, (∀ h, h ∈ ab ↔ ∃ i, rem i = true ∧ tasks_of st q !! i = Some h) ∧
     ∀ h, spawned st' !! h = if decide (h ∈ ab) then abort <$> spawned st !! h else spawned st !! h) ∧
  next_handle st' = next_handle st ∧ latest_view_slots st' = latest_view_slots st ∧
  count_of q (responses st') = count_of q (responses st) +
    (if slot is Some _ then zlen (filter (λ i, rem i = true) (hash_keys (inflight_of st q))) else 0).
Proof.
  cbv zeta. unfold drop_gone. cbv zeta.
  pose proof (drop_fold cur slot (inflight_of st q) (tasks_of st q) q (responses st)
    (hash_keys (inflight_of st q)) (hash_keys_NoDup _)) as Hf.
  destruct (foldl _ _ _) as [[[infl tasks] ab] c].
  destruct Hf as (Hi & Ht & Ha & Hc). { intros i Hi. by apply elem_of_hash_keys in Hi. }
  assert (∀ i, bool_decide (i ∈ hash_keys (inflight_of st q)) && removable cur slot (inflight_of st q) i
    = removable cur slot (inflight_of st q) i) as Hdom.
  { intros i. destruct (removable _ _ _ i) eqn:Hr; [|by rewrite andb_false_r]. rewrite andb_true_r.
    apply removable_true in Hr as (_ & e & He & _). apply bool_decide_eq_true, elem_of_hash_keys. by exists e. }
  split_and!.
  - intros q' i. rewrite inflight_insert. destruct (decide (q' = q)) as [->|Hne].
    + by rewrite Hi, Hdom, bool_decide_eq_true_2.
    + by rewrite bool_decide_eq_false_2.
  - intros q' i. rewrite tasks_insert. destruct (decide (q' = q)) as [->|Hne].
    + by rewrite Ht, Hdom, bool_decide_eq_true_2.
    + by rewrite bool_decide_eq_false_2.
  - exists ab. split; [|intros h; apply foldr_abort]. intros h. rewrite Ha. split.
    + intros (i & _ & ? & ?). eauto.
    + intros (i & Hr & ?). exists i. split; [|done]. rewrite <- Hdom in Hr.
      apply andb_true_iff in Hr as [Hr%bool_decide_eq_true _]. done.
  - done.
  - done.
  - done.
Qed.

Lemma spawn_item_spec q it st :
  let st' := spawn_item q it st in
  latest_view_slots st' = latest_view_slots st ∧
  ((is_Some (inflight_of st q !! item_id it) ∧ st' = st) ∨
   (inflight_of st q !! item_id it = None ∧
    (∀ q' i, inflight_of st' q' !! i =
       if decide (q' = q ∧ i = item_id it) then Some (slot it) else inflight_of st q' !! i) ∧
    (∀ q' i, tasks_of st' q' !! i =
       if decide (q' = q ∧ i = item_id it) then Some (next_handle st) else tasks_of st q' !! i) ∧
    spawned st' = <[next_handle st := mkTask q (item_id it) Running false]> (spawned st) ∧
    next_handle st' = S (next_handle st))).
Proof.
  cbv zeta. unfold spawn_item. destruct (inflight_of st q !! item_id it) as [e|] eqn:He.
  { split; [done|]. left. split; [by exists e|done]. }
  split; [done|]. right. split; [done|]. split_and!; [| |done|done].
  - intros q' i. rewrite inflight_insert. destruct (decide (q' = q)) as [->|Hne].
    + destruct (decide (i = item_id it)) as [->|Hi].
      * by rewrite lookup_insert_eq, decide_True.
      * rewrite lookup_insert_ne, decide_False by naive_solver. done.
    + by rewrite decide_False by naive_solver.
  - intros q' i. rewrite tasks_insert. destruct (decide (q' = q)) as [->|Hne].
    + destruct (decide (i = item_id it)) as [->|Hi].
      * by rewrite lookup_insert_eq, decide_True.
      * rewrite lookup_insert_ne, decide_False by naive_solver. done.
    + by rewrite decide_False by naive_solver.
Qed.

(** States that differ in bookkeeping only. *)
Record same_work (st st1 : OracleState) : Prop := {
  sw_inflight q : inflight_of st1 q = inflight_of st q;
  sw_tasks q : tasks_of st1 q = tasks_of st q;
  sw_spawned : spawned st1 = spawned st;
  sw_next : next_handle st1 = next_handle st;
  sw_responses : responses st1 = responses st;
}.

#[export] Instance same_work_refl : Reflexive same_work.
Proof. by split. Qed.

#[export] Instance same_work_trans : Transitive same_work.
Proof. intros st1 st2 st3 [] []. split; intros; congruence. Qed.

(** The view is of a queue that this oracle serves, and not older than what
    has been seen of it. *)
Definition view_served `{Runtime} (v : view) (st : OracleState) : bool :=
  bytes_eqb (fst (oracle_queue_pda (client_key st) (queue_index (v_header v)))) (v_queue v)
  && snd (should_process_queue (v_queue v) (v_answer v) st).

Definition view_fresh (v : view) (st : OracleState) : bool :=
  match v_slot v with
  | None => true
  | Some s => if v_snapshot v then latest_of st (v_queue v) <? s else latest_of st (v_queue v) <=? s
  end.

Definition view_applies `{Runtime} (v : view) (st : OracleState) : bool := view_served v st && view_fresh v st.

Lemma should_process_queue_same q answer st :
  let '(st1, _) := should_process_queue q answer st in
  same_work st st1 ∧ latest_view_slots st1 = latest_view_slots st.
Proof.
  unfold should_process_queue. destruct (delegated_queue_statuses st) as [m|]; [|done].
  destruct (m !! q); [done|]. by destruct answer.
Qed.

Lemma latest_of_set q n st q' : latest_of (set_latest q n st) q' = if decide (q' = q) then n else latest_of st q'.
Proof.
  unfold latest_of; cbn. destruct (decide (q' = q)) as [->|]; [by rewrite lookup_insert_eq|by rewrite lookup_insert_ne].
Qed.

Lemma admit_view_spec v st :
  let '(st1, ok) := admit_view (v_queue v) (v_slot v) (v_snapshot v) st in
  same_work st st1 ∧ ok = view_fresh v st ∧
  ∀ q, latest_of st1 q =
    if decide (q = v_queue v) then (if ok then default (latest_of st q) (v_slot v) else latest_of st q)
    else latest_of st q.
Proof.
  unfold admit_view, view_fresh. destruct (v_slot v) as [n|].
  - cbv zeta. set (stale := if v_snapshot v then _ else _).
    assert (negb stale = if v_snapshot v then latest_of st (v_queue v) <? n else latest_of st (v_queue v) <=? n) as <-.
    { subst stale. destruct (v_snapshot v); [by rewrite Z.leb_antisym, negb_involutive|].
      by rewrite Z.ltb_antisym, negb_involutive. }
    destruct stale; (split; [done|]; split; [done|]); intros q; rewrite latest_of_set;
      by destruct (decide (q = v_queue v)) as [->|].
  - split; [done|]. split; [done|]. intros q. by destruct (decide (q = v_queue v)).
Qed.

(** The first part of a view: bookkeeping only, or the requests that are gone
    are dropped and the queue's items remain to be spawned. *)
Lemma begin_view_cases `{Runtime, KeyOrder} v st st' items :
  begin_view v st = (st', items) →
  ∃ st1, same_work st st1 ∧
    (∀ q, latest_of st1 q =
       if decide (q = v_queue v) then (if view_applies v st then default (latest_of st q) (v_slot v) else latest_of st q)
       else latest_of st q) ∧
    (items = [] ∧ st' = st1 ∧ (view_applies v st = false ∨ ∀ its, view_items v ≠ Ok its) ∨
     view_applies v st = true ∧ view_items v = Ok items ∧
     st' = drop_gone (v_queue v) (list_to_set (item_id <$> items)) (v_slot v) st1).
Proof.
  unfold begin_view, view_applies, view_served. destruct (bytes_eqb _ _); cbn [andb].
  2: { intros [= <- <-]. exists st. split; [done|]. split; [intros q; by destruct (decide _)|]. left. auto. }
  pose proof (should_process_queue_same (v_queue v) (v_answer v) st) as Hs.
  destruct (should_process_queue _ _ st) as [st1 served]. destruct Hs as [Hs Hl]. cbn [snd].
  assert (∀ q, latest_of st1 q = latest_of st q) as Hl1 by (intros q; unfold latest_of; by rewrite Hl).
  destruct served; cbn [andb].
  2: { intros [= <- <-]. exists st1. split; [done|]. split; [intros q; by destruct (decide _)|]. left. auto. }
  pose proof (admit_view_spec v st1) as Ha. assert (view_fresh v st1 = view_fresh v st) as Hf.
  { unfold view_fresh. by rewrite Hl1. }
  destruct (admit_view _ _ _ st1) as [st2 ok]. rewrite Hf in Ha. destruct Ha as (Hs2 & <- & Hl2).
  assert (same_work st st2) as Hs12 by (by transitivity st1).
  destruct ok.
  2: { intros [= <- <-]. exists st2. split; [done|].
       split; [intros q; rewrite Hl2, Hl1; by destruct (decide _)|]. left. auto. }
  intros Hrun. exists (set_stats (v_queue v) (item_count (v_header v)) st2).
  split; [by transitivity st2|]. split; [intros q; etransitivity; [apply Hl2|]; by rewrite Hl1|].
  destruct (view_items v) as [its|e|]; injection Hrun as <- <-; [by right|left..]; auto.
Qed.

(** The state and the items after the first part of a view. *)
Lemma begin_view_spec `{Runtime, KeyOrder} v st st' items :
  begin_view v st = (st', items) →
  ∃ rem : request_id → bool,
    (∀ i, rem i = true → i ∉ item_id <$> items ∧
       ∃ e, inflight_of st (v_queue v) !! i = Some e ∧ ∀ s, v_slot v = Some s → e < s) ∧
    (∀ q' i, inflight_of st' q' !! i = if bool_decide (q' = v_queue v) && rem i then None else inflight_of st q' !! i) ∧
    (∀ q' i, tasks_of st' q' !! i = if bool_decide (q' = v_queue v) && rem i then None else tasks_of st q' !! i) ∧
    (∃ ab : list nat, (∀ h, h ∈ ab ↔ ∃ i, rem i = true ∧ tasks_of st (v_queue v) !! i = Some h) ∧
       ∀ h, spawned st' !! h = if decide (h ∈ ab) then abort <$> spawned st !! h else spawned st !! h) ∧
    next_handle st' = next_handle st ∧
    (view_applies v st = true → view_items v = Ok items →
       rem = removable (list_to_set (item_id <$> items)) (v_slot v) (inflight_of st (v_queue v)) ∧
       count_of (v_queue v) (responses st') = count_of (v_queue v) (responses st) +
         (if v_slot v is Some _ then zlen (filter (λ i, rem i = true) (hash_keys (inflight_of st (v_queue v)))) else 0)).
Proof.
  intros (st1 & [Hil Htk Hsp Hnh Hre] & _ & [(-> & -> & Hno)|(Happ & Hv & ->)])%begin_view_cases.
  - exists (λ _, false). split_and!; try done; intros.
    1-2: by rewrite andb_false_r, ?Hil, ?Htk.
    2: destruct Hno as [Hno|Hno]; [congruence|by destruct (Hno [])].
    exists []. split; [set_solver|]. intros h. by rewrite decide_False, Hsp by set_solver.
  - destruct (drop_gone_spec (v_queue v) (list_to_set (item_id <$> items)) (v_slot v) st1)
      as (Hi & Ht & (ab & Hab & Hs) & Hn & _ & Hc).
    rewrite Hil in Hi, Ht, Hab, Hc. rewrite Htk in Hab.
    exists (removable (list_to_set (item_id <$> items)) (v_slot v) (inflight_of st (v_queue v))).
    split_and!.
    + intros i (Hc' & He)%removable_true. split; [|done]. by rewrite elem_of_list_to_set in Hc'.
    + intros q' i. by rewrite Hi, Hil.
    + intros q' i. by rewrite Ht, Htk.
    + exists ab. split; [done|]. intros h. by rewrite Hs, Hsp.
    + by rewrite Hn.
    + intros _ _. split; [done|]. rewrite Hc. by rewrite Hre.
Qed.

(** ** The invariant *)

Record tasks_inv (c : config) : Prop := {
  (** a handle belongs to the running task of the request it is filed under *)
  ti_handle q i h : tasks_of (cf_state c) q !! i = Some h →
    (q, i) ∉ cf_gone c ∧ spawned (cf_state c) !! h = Some (mkTask q i Running false);
  (** a request in flight has a task, and has not been dropped *)
  ti_inflight q i e : inflight_of (cf_state c) q !! i = Some e →
    (q, i) ∉ cf_gone c ∧ ∃ h p, spawned (cf_state c) !! h = Some (mkTask q i p false);
  (** a task of a request that was not dropped is not aborted, its request is
      in flight, and its handle is filed until it has removed it *)
  ti_task h t : spawned (cf_state c) !! h = Some t → (task_queue t, task_id t) ∉ cf_gone c →
    task_aborted t = false ∧ is_Some (inflight_of (cf_state c) (task_queue t) !! task_id t) ∧
    tasks_of (cf_state c) (task_queue t) !! task_id t = (if task_phase t then Some h else None);
  (** no request has two tasks *)
  ti_unique h1 h2 t1 t2 : spawned (cf_state c) !! h1 = Some t1 → spawned (cf_state c) !! h2 = Some t2 →
    task_queue t1 = task_queue t2 → task_id t1 = task_id t2 → h1 = h2;
  ti_fresh h : is_Some (spawned (cf_state c) !! h) → (h < next_handle (cf_state c))%nat;
  ti_view q items : cf_view c = Some (q, items) → Forall (λ it, (q, item_id it) ∉ cf_gone c) items;
}.

Lemma inv_new pubkey is_er : tasks_inv (config_new pubkey is_er).
Proof.
  unfold config_new. set (st0 := initialize_delegated_queue_filter is_er (OracleState_new pubkey)).
  assert (∀ q, tasks_of st0 q = ∅ ∧ inflight_of st0 q = ∅) as H.
  { intros q. unfold tasks_of, inflight_of. cbn. by rewrite lookup_empty. }
  split; cbn [cf_state cf_gone cf_view]; intros *.
  - by rewrite (proj1 (H q)), lookup_empty.
  - by rewrite (proj2 (H q)), lookup_empty.
  - cbn. by rewrite lookup_empty.
  - cbn. by rewrite lookup_empty.
  - cbn. rewrite lookup_empty. by intros [].
  - done.
Qed.

Lemma elem_of_dropped q st st' q' i :
  (q', i) ∈ dropped q st st' ↔
    q' = q ∧ is_Some (inflight_of st q !! i) ∧ inflight_of st' q !! i = None.
Proof.
  unfold dropped. rewrite elem_of_map. setoid_rewrite elem_of_difference. setoid_rewrite elem_of_dom.
  setoid_rewrite eq_None_not_Some. naive_solver.
Qed.

Lemma inv_begin `{Runtime, KeyOrder} v st gone st' items :
  tasks_inv (mkConfig st None gone) → begin_view v st = (st', items) →
  Forall (λ it, (v_queue v, item_id it) ∉ gone) items →
  tasks_inv (mkConfig st' (Some (v_queue v, items)) (gone ∪ dropped (v_queue v) st st')).
Proof.
  intros [Hh Hf Ht Hu Hn _] Hb Hgone. cbn in *.
  destruct (begin_view_spec v st st' items Hb) as (rem & Hrem & Hil & Htk & (ab & Hab & Hsp) & Hnh & _).
  assert (∀ q i, (q, i) ∈ dropped (v_queue v) st st' ↔ q = v_queue v ∧ rem i = true) as Hdrop.
  { intros q i. rewrite elem_of_dropped, Hil, bool_decide_eq_true_2 by done. cbn [andb].
    destruct (rem i) eqn:Hr.
    - destruct (Hrem i Hr) as (_ & e & He & _). split; [by intros [-> _]|]. intros [-> _].
      split; [done|]. split; [by exists e|done].
    - split; [intros (_ & [e He] & Hn'); by rewrite He in Hn'|by intros [_ [=]]]. }
  (* an aborted handle belongs to a dropped request *)
  assert (∀ h t, h ∈ ab → spawned st !! h = Some t →
    (task_queue t, task_id t) ∈ dropped (v_queue v) st st') as Habs.
  { intros h t (i & Hr & Hi)%Hab Hs. destruct (Hh _ _ _ Hi) as [_ Hs']. rewrite Hs in Hs'.
    injection Hs' as ->. by apply Hdrop. }
  assert (∀ h t, spawned st' !! h = Some t → (task_queue t, task_id t) ∉ gone ∪ dropped (v_queue v) st st' →
    spawned st !! h = Some t ∧ (task_queue t, task_id t) ∉ gone ∧
    bool_decide (task_queue t = v_queue v) && rem (task_id t) = false) as Hback.
  { intros h t Hs Hng. apply not_elem_of_union in Hng as [Hng Hnd]. rewrite Hsp in Hs.
    destruct (decide (h ∈ ab)) as [Hin|].
    - destruct (spawned st !! h) as [t'|] eqn:Hs'; [|done]. injection Hs as <-. by destruct (Hnd (Habs h t' Hin Hs')).
    - split; [done|]. split; [done|]. apply not_true_iff_false. rewrite andb_true_iff, bool_decide_eq_true.
      intros [Hq Hr]. apply Hnd, Hdrop. by rewrite Hq. }
  assert (∀ q i, (q, i) ∉ gone → bool_decide (q = v_queue v) && rem i = false →
    (q, i) ∉ gone ∪ dropped (v_queue v) st st') as Hkeep.
  { intros q i Hg Hr. apply not_elem_of_union. split; [done|]. intros [-> Hr']%Hdrop.
    by rewrite bool_decide_eq_true_2, Hr' in Hr. }
  assert (∀ h q i p, (q, i) ∉ gone → bool_decide (q = v_queue v) && rem i = false →
    spawned st !! h = Some (mkTask q i p false) → spawned st' !! h = Some (mkTask q i p false)) as Hfwd.
  { intros h q i p Hg Hr Hs. rewrite Hsp, decide_False; [done|]. intros Hin.
    apply Habs in Hs; [|done]. by apply (Hkeep q i Hg Hr), elem_of_union_r. }
  split; cbn.
  - intros q i h Hi. rewrite Htk in Hi. destruct (bool_decide _ && _) eqn:Hr; [done|].
    destruct (Hh _ _ _ Hi) as [Hg Hs]. split; [by apply (Hkeep q i)|by apply Hfwd].
  - intros q i e Hi. rewrite Hil in Hi. destruct (bool_decide _ && _) eqn:Hr; [done|].
    destruct (Hf _ _ _ Hi) as (Hg & h & p & Hs). split; [by apply (Hkeep q i)|]. exists h, p. by apply Hfwd.
  - intros h t Hs Hng. destruct (Hback h t Hs Hng) as (Hs' & Hg & Hr). rewrite Hil, Htk, Hr. by apply Ht.
  - assert (∀ h t, spawned st' !! h = Some t →
      ∃ t0, spawned st !! h = Some t0 ∧ task_queue t0 = task_queue t ∧ task_id t0 = task_id t) as Hold.
    { intros h t. rewrite Hsp. destruct (decide _); [|by eauto].
      destruct (spawned st !! h) as [t0|]; [|done]. intros [= <-]. by exists t0. }
    intros h1 h2 t1 t2 (t1' & Hs1 & Hq1 & Hi1)%Hold (t2' & Hs2 & Hq2 & Hi2)%Hold Hq Hi.
    apply (Hu h1 h2 t1' t2'); congruence.
  - intros h Hs. rewrite Hnh. apply Hn. rewrite Hsp in Hs. destruct (decide _); [|done].
    destruct (spawned st !! h); [by eexists|]. by destruct Hs.
  - intros q its [= <- <-]. apply Forall_forall. intros it Hit.
    rewrite Forall_forall in Hgone. apply not_elem_of_union. split; [by apply Hgone|].
    intros [_ Hr]%Hdrop. destruct (Hrem _ Hr) as [Hno _]. apply Hno. apply list_elem_of_fmap. by exists it.
Qed.

Lemma inv_spawn st q it items gone :
  tasks_inv (mkConfig st (Some (q, it :: items)) gone) →
  tasks_inv (mkConfig (spawn_item q it st) (Some (q, items)) gone).
Proof.
  intros [Hh Hf Ht Hu Hn Hv]. cbn in *.
  specialize (Hv q _ eq_refl). apply Forall_cons in Hv as [Hg Hits].
  destruct (spawn_item_spec q it st) as [_ [[_ ->]|(Hnone & Hil & Htk & Hsp & Hnh)]].
  { split; cbn; try done. by intros ? ? [= <- <-]. }
  assert (spawned st !! next_handle st = None) as Hnew.
  { apply eq_None_not_Some. intros Hs. apply Hn in Hs. lia. }
  (* no task of this request yet *)
  assert (∀ h t, spawned st !! h = Some t → task_queue t = q → task_id t = item_id it → False) as Hno.
  { intros h t Hs Hq Hi. destruct (Ht h t Hs) as (_ & Hin & _); [by rewrite Hq, Hi|].
    rewrite Hq, Hi, Hnone in Hin. by destruct Hin. }
  split; cbn.
  - intros q' i h Hi. rewrite Htk in Hi. rewrite Hsp. destruct (decide _) as [[-> ->]|].
    + injection Hi as <-. by rewrite lookup_insert_eq.
    + destruct (Hh _ _ _ Hi) as [Hg' Hs]. split; [done|]. rewrite lookup_insert_ne; [done|].
      intros <-. by rewrite Hnew in Hs.
  - intros q' i e Hi. rewrite Hil in Hi. destruct (decide _) as [[-> ->]|].
    + split; [done|]. exists (next_handle st), Running. by rewrite Hsp, lookup_insert_eq.
    + destruct (Hf _ _ _ Hi) as (Hg' & h & p & Hs). split; [done|]. exists h, p.
      rewrite Hsp, lookup_insert_ne; [done|]. intros <-. by rewrite Hnew in Hs.
  - intros h t Hs Hng. rewrite Hsp in Hs. rewrite Hil, Htk.
    destruct (decide (h = next_handle st)) as [->|Hne].
    + rewrite lookup_insert_eq in Hs. injection Hs as <-. cbn. by rewrite !decide_True.
    + rewrite lookup_insert_ne in Hs by done. rewrite !decide_False; [by apply Ht|..]; intros [??]; by eapply Hno.
  - intros h1 h2 t1 t2. rewrite Hsp.
    destruct (decide (h1 = next_handle st)) as [->|H1], (decide (h2 = next_handle st)) as [->|H2];
      rewrite ?lookup_insert_eq, ?lookup_insert_ne by done; intros Hs1 Hs2 Hq Hi; try done.
    + injection Hs1 as <-. by destruct (Hno h2 t2).
    + injection Hs2 as <-. by destruct (Hno h1 t1).
    + by apply (Hu h1 h2 t1 t2).
  - intros h. rewrite Hsp, Hnh. destruct (decide (h = next_handle st)) as [->|]; [lia|].
    rewrite lookup_insert_ne by done. intros Hs. apply Hn in Hs. lia.
  - by intros ? ? [= <- <-].
Qed.

Lemma alter_delete_lookup {A} (m : gmap queue_key (gmap request_id A)) q i q' i' :
  default ∅ (alter (delete i) q m !! q') !! i' =
    if decide (q' = q ∧ i' = i) then None else default ∅ (m !! q') !! i'.
Proof.
  destruct (decide (q' = q)) as [->|Hq].
  - rewrite lookup_alter_eq. destruct (m !! q) as [x|]; cbn; [|by rewrite lookup_empty; destruct (decide _)].
    destruct (decide (i' = i)) as [->|Hi].
    + by rewrite lookup_delete_eq, decide_True.
    + rewrite lookup_delete_ne by done. by rewrite decide_False by naive_solver.
  - rewrite lookup_alter_ne by done. by rewrite decide_False by naive_solver.
Qed.

Lemma inv_clean_tasks h t st vw gone :
  tasks_inv (mkConfig st vw gone) → spawned st !! h = Some t → task_phase t = Running →
  tasks_inv (mkConfig (clean_tasks h t st) vw gone).
Proof.
  intros [Hh Hf Ht Hu Hn Hv] Hs Hp. cbn in *.
  pose proof (alter_delete_lookup (active_tasks st) (task_queue t) (task_id t)) as Hdel.
  assert (∀ h0 t0, spawned (clean_tasks h t st) !! h0 = Some t0 →
    ∃ t1, spawned st !! h0 = Some t1 ∧ task_queue t1 = task_queue t0 ∧ task_id t1 = task_id t0) as Hback.
  { intros h0 t0. cbn. destruct (decide (h0 = h)) as [->|Hne].
    - rewrite lookup_insert_eq. intros [= <-]. by exists t.
    - rewrite lookup_insert_ne by done. intros Hs0. by exists t0. }
  split; cbn.
  - intros q i h0. unfold tasks_of; cbn. rewrite Hdel. destruct (decide _) as [|Hd]; [done|]. intros Hi.
    destruct (Hh q i h0 Hi) as [Hg Hs0]. split; [done|].
    rewrite lookup_insert_ne; [done|]. intros <-. apply Hd. rewrite Hs in Hs0. by injection Hs0 as ->.
  - intros q i e Hi. destruct (Hf q i e Hi) as (Hg & h0 & p & Hs0). split; [done|]. exists h0.
    destruct (decide (h0 = h)) as [->|Hne].
    + exists Cleaning. rewrite lookup_insert_eq. rewrite Hs in Hs0. by injection Hs0 as ->.
    + exists p. by rewrite lookup_insert_ne.
  - intros h0 t0 Hs0 Hg. unfold tasks_of; cbn. rewrite Hdel. destruct (decide (h0 = h)) as [->|Hne].
    + rewrite lookup_insert_eq in Hs0. injection Hs0 as <-. destruct (Ht h t Hs Hg) as (Ha & Hi & _).
      split; [done|]. split; [done|]. by rewrite decide_True.
    + rewrite lookup_insert_ne in Hs0 by done. rewrite decide_False; [by apply Ht|].
      intros [Hq Hi]. by apply Hne, (Hu h0 h t0 t).
  - intros h1 h2 t1 t2 H1 H2 Hq Hi. destruct (Hback h1 t1 H1) as (t1' & Hs1 & Hq1 & Hi1).
    destruct (Hback h2 t2 H2) as (t2' & Hs2 & Hq2 & Hi2).
    apply (Hu h1 h2 t1' t2'); congruence.
  - intros h0 [t0 Hs0]. destruct (Hback h0 t0 Hs0) as (t1 & Hs1 & _). apply Hn. by exists t1.
  - exact Hv.
Qed.

Lemma inv_clean_inflight h t st vw gone :
  tasks_inv (mkConfig st vw gone) → spawned st !! h = Some t → task_phase t = Cleaning →
  tasks_inv (mkConfig (clean_inflight h t st) vw gone).
Proof.
  intros [Hh Hf Ht Hu Hn Hv] Hs Hp. cbn in *.
  pose proof (alter_delete_lookup (inflight_requests st) (task_queue t) (task_id t)) as Hdel.
  split; cbn.
  - intros q i h0 Hi. destruct (Hh q i h0 Hi) as [Hg Hs0]. split; [done|].
    rewrite lookup_delete_ne; [done|]. intros <-. rewrite Hs in Hs0. injection Hs0 as ->. discriminate Hp.
  - intros q i e. unfold inflight_of; cbn. rewrite Hdel. destruct (decide _) as [|Hd]; [done|]. intros Hi.
    destruct (Hf q i e Hi) as (Hg & h0 & p & Hs0). split; [done|]. exists h0, p.
    rewrite lookup_delete_ne; [done|]. intros <-. apply Hd. rewrite Hs in Hs0. by injection Hs0 as ->.
  - intros h0 t0 Hs0 Hg. unfold inflight_of; cbn. apply lookup_delete_Some in Hs0 as [Hne Hs0].
    rewrite Hdel. rewrite decide_False; [by apply Ht|]. intros [Hq Hi]. by apply Hne, eq_sym, (Hu h0 h t0 t).
  - intros h1 h2 t1 t2 [_ H1]%lookup_delete_Some [_ H2]%lookup_delete_Some. by apply Hu.
  - intros h0 [t0 [_ Hs0]%lookup_delete_Some]. apply Hn. by exists t0.
  - exact Hv.
Qed.

Lemma inv_stopped h t st st' vw gone :
  tasks_inv (mkConfig st vw gone) → spawned st !! h = Some t → task_aborted t = true →
  (∀ q, inflight_of st' q = inflight_of st q) → (∀ q, tasks_of st' q = tasks_of st q) →
  spawned st' = delete h (spawned st) → next_handle st' = next_handle st →
  tasks_inv (mkConfig st' vw gone).
Proof.
  intros [Hh Hf Ht Hu Hn Hv] Hs Ha Hil Htk Hsp Hnh. cbn in *.
  assert (∀ h0 q i p, spawned st !! h0 = Some (mkTask q i p false) → spawned st' !! h0 = Some (mkTask q i p false)) as Hfwd.
  { intros h0 q i p Hs0. rewrite Hsp, lookup_delete_ne; [done|]. intros <-. rewrite Hs in Hs0.
    injection Hs0 as ->. discriminate Ha. }
  split; cbn.
  - intros q i h0. rewrite Htk. intros Hi. destruct (Hh q i h0 Hi). split; [done|]. by apply Hfwd.
  - intros q i e. rewrite Hil. intros Hi. destruct (Hf q i e Hi) as (Hg & h0 & p & Hs0).
    split; [done|]. exists h0, p. by apply Hfwd.
  - intros h0 t0. rewrite Hsp, Hil, Htk. intros [_ Hs0]%lookup_delete_Some. by apply Ht.
  - intros h1 h2 t1 t2. rewrite Hsp. intros [_ H1]%lookup_delete_Some [_ H2]%lookup_delete_Some. by apply Hu.
  - intros h0. rewrite Hsp, Hnh. intros [t0 [_ Hs0]%lookup_delete_Some]. apply Hn. by exists t0.
  - exact Hv.
Qed.

Lemma inv_step `{Runtime, KeyOrder} c c' : tasks_inv c → step c c' → tasks_inv c'.
Proof.
  intros Hinv Hst. destruct Hst.
  - by eapply inv_begin.
  - by apply inv_spawn.
  - destruct Hinv. by split.
  - by apply inv_clean_tasks.
  - by apply inv_clean_inflight.
  - by eapply inv_stopped.
Qed.

Lemma inv_reachable `{Runtime, KeyOrder} pubkey is_er c : rtc step (config_new pubkey is_er) c → tasks_inv c.
Proof.
  intros Hr. assert (∀ c0, rtc step c0 c → tasks_inv c0 → tasks_inv c) as Hind.
  { induction 1; [done|]. intros. by eapply IHrtc, inv_step. }
  exact (Hind _ Hr (inv_new _ _)).
Qed.

(** C15. However the cleanup steps of finished and aborted tasks interleave with
    the views of the queues, the service never has two tasks for one request;
    every handle it files belongs to the running task of that request, which
    nobody has aborted; every request in flight has a task that is not
    aborted, so none waits forever behind a stale entry; and a request whose
    task was aborted is not in flight any more. *)
Theorem oracle_tasks_consistent `{Runtime, KeyOrder} pubkey is_er c :
  rtc step (config_new pubkey is_er) c →
  let st := cf_state c in
  (∀ h1 h2 t1 t2, spawned st !! h1 = Some t1 → spawned st !! h2 = Some t2 →
     task_queue t1 = task_queue t2 → task_id t1 = task_id t2 → h1 = h2) ∧
  (∀ q i h, tasks_of st q !! i = Some h → spawned st !! h = Some (mkTask q i Running false)) ∧
  (∀ q i e, inflight_of st q !! i = Some e → ∃ h p, spawned st !! h = Some (mkTask q i p false)) ∧
  (∀ h t, spawned st !! h = Some t → task_aborted t = true →
     inflight_of st (task_queue t) !! task_id t = None ∧ tasks_of st (task_queue t) !! task_id t = None).
Proof.
  intros Hr. destruct (inv_reachable pubkey is_er c Hr) as [Hh Hf Ht Hu _ _]. cbv zeta. split_and!.
  - exact Hu.
  - intros q i h Hi. by destruct (Hh q i h Hi).
  - intros q i e Hi. by destruct (Hf q i e Hi).
  - intros h t Hs Ha. split; apply eq_None_not_Some; intros [x Hx].
    + destruct (Hf _ _ _ Hx) as (Hg & _). destruct (Ht h t Hs Hg) as (Ha' & _). congruence.
    + destruct (Hh _ _ _ Hx) as (Hg & _). destruct (Ht h t Hs Hg) as (Ha' & _). congruence.
Qed.

(** ** One view, without interruption *)

Definition first_slot (i : request_id) (items : list QueueItem) : option Z :=
  slot <$> head (filter (λ it, item_id it = i) items).

Lemma first_slot_cons i it items :
  first_slot i (it :: items) = if decide (item_id it = i) then Some (slot it) else first_slot i items.
Proof. unfold first_slot. rewrite filter_cons. by destruct (decide _). Qed.

Lemma spawn_fold q items st :
  let st' := foldl (λ st item, spawn_item q item st) st items in
  (∀ i, inflight_of st' q !! i =
     match inflight_of st q !! i with Some e => Some e | None => first_slot i items end) ∧
  (∀ q', q' ≠ q → inflight_of st' q' = inflight_of st q' ∧ tasks_of st' q' = tasks_of st q') ∧
  (∀ i, match inflight_of st q !! i, first_slot i items with
        | None, Some _ => ∃ h, (next_handle st ≤ h)%nat ∧ tasks_of st' q !! i = Some h ∧
                               spawned st' !! h = Some (mkTask q i Running false)
        | _, _ => tasks_of st' q !! i = tasks_of st q !! i
        end) ∧
  (∀ h, (h < next_handle st)%nat → spawned st' !! h = spawned st !! h) ∧
  latest_view_slots st' = latest_view_slots st ∧ responses st' = responses st.
Proof.
  revert st. induction items as [|it items IH]; intros st; cbn [foldl].
  { cbv zeta. split_and!; try done; intros i; by destruct (inflight_of st q !! i). }
  cbv zeta in *. destruct (IH (spawn_item q it st)) as (Hi & Ho & Ht & Hs & Hl & Hre).
  set (st' := foldl _ _ items) in *.
  destruct (spawn_item_spec q it st) as [Hl1 [[[e He] Heq]|(Hnone & Hil & Htk & Hsp & Hnh)]].
  { rewrite Heq in Hi, Ho, Ht, Hs, Hl, Hre. split_and!; [|done| |done|done|done]; intros i; rewrite first_slot_cons.
    all: destruct (decide (item_id it = i)) as [<-|]; [rewrite He|first [apply Hi|apply Ht]].
    - specialize (Hi (item_id it)). by rewrite He in Hi.
    - specialize (Ht (item_id it)). by rewrite He in Ht. }
  assert (∀ i, i ≠ item_id it → inflight_of (spawn_item q it st) q !! i = inflight_of st q !! i) as Hil1.
  { intros i Hne. rewrite Hil, decide_False; naive_solver. }
  assert (inflight_of (spawn_item q it st) q !! item_id it = Some (slot it)) as Hil2 by (by rewrite Hil, decide_True).
  split_and!.
  - intros i. rewrite Hi, first_slot_cons. destruct (decide (item_id it = i)) as [<-|].
    + by rewrite Hil2, Hnone.
    + by rewrite Hil1.
  - intros q' Hq. destruct (Ho q' Hq) as [-> ->]. split; apply map_eq; intros i.
    + rewrite Hil, decide_False; naive_solver.
    + rewrite Htk, decide_False; naive_solver.
  - intros i. specialize (Ht i). rewrite first_slot_cons. destruct (decide (item_id it = i)) as [<-|Hne].
    + rewrite Hnone. rewrite Hil2 in Ht. exists (next_handle st). split; [done|]. split.
      * by rewrite Ht, Htk, decide_True.
      * rewrite Hs by lia. by rewrite Hsp, lookup_insert_eq.
    + rewrite Hil1 in Ht by done. rewrite Htk, decide_False in Ht by naive_solver.
      destruct (inflight_of st q !! i); [done|]. destruct (first_slot i items); [|done].
      destruct Ht as (h & ? & ? & ?). exists h. split; [lia|done].
  - intros h Hh. rewrite Hs by lia. rewrite Hsp, lookup_insert_ne; [done|lia].
  - by rewrite Hl, Hl1.
  - rewrite Hre. unfold spawn_item. by destruct (_ !! item_id it).
Qed.

Lemma first_slot_None i items : first_slot i items = None ↔ i ∉ item_id <$> items.
Proof.
  induction items as [|it items IH]; [by split; [set_solver|]|].
  rewrite first_slot_cons, fmap_cons, not_elem_of_cons. destruct (decide _); naive_solver.
Qed.

(** The steps of a view that nothing interrupts. *)
Lemma spawn_steps `{Runtime, KeyOrder} q items st gone :
  rtc step (mkConfig st (Some (q, items)) gone)
    (mkConfig (foldl (λ st item, spawn_item q item st) st items) None gone).
Proof.
  revert st. induction items as [|it items IH]; intros st.
  - apply rtc_once. constructor.
  - eapply rtc_l; [constructor|]. apply IH.
Qed.

(** An id [i] with enqueue slot [e] that the view shows to be gone. *)
Definition gone_in (v : view) (items : list QueueItem) (i : request_id) (e : Z) : Prop :=
  i ∉ item_id <$> items ∧ ∀ s, v_slot v = Some s → e < s.

Lemma removable_gone v items infl i e :
  infl !! i = Some e →
  (removable (list_to_set (item_id <$> items)) (v_slot v) infl i = true) ↔ gone_in v items i e.
Proof.
  intros He. rewrite removable_true, elem_of_list_to_set. unfold gone_in. split.
  - intros [Hi (e' & He' & Hs)]. rewrite He in He'. injection He' as <-. done.
  - intros [Hi Hs]. split; [done|]. by exists e.
Qed.

(** The latest slot of every queue only grows. *)
Lemma latest_monotone `{Runtime, KeyOrder} v st q : latest_of st q ≤ latest_of (process_oracle_queue v st) q.
Proof.
  unfold process_oracle_queue. destruct (begin_view v st) as [st1 items] eqn:Hb.
  destruct (spawn_fold (v_queue v) items st1) as (_ & _ & _ & _ & Hl & _).
  unfold latest_of at 2. rewrite Hl. fold (latest_of st1 q).
  apply begin_view_cases in Hb as (st2 & _ & Hlat & Hcase).
  assert (latest_of st1 q = latest_of st2 q) as ->.
  { destruct Hcase as [(_ & -> & _)|(_ & _ & ->)]; [done|]. unfold latest_of.
    by destruct (drop_gone_spec (v_queue v) (list_to_set (item_id <$> items)) (v_slot v) st2) as (_ & _ & _ & _ & -> & _). }
  rewrite Hlat. unfold view_applies, view_fresh. destruct (decide _) as [->|]; [|lia].
  destruct (view_served v st); cbn [andb]; [|lia]. destruct (v_slot v) as [s|]; cbn [default]; [|lia].
  destruct (v_snapshot v); [destruct (Z.ltb_spec (latest_of st (v_queue v)) s)|destruct (Z.leb_spec (latest_of st (v_queue v)) s)]; cbn [from_option id]; lia.
Qed.

(** The number of ids that a loop over the keys drops. *)
Lemma dropped_size `{KeyOrder} (rem : request_id → bool) (m m' : gmap request_id Z) :
  (∀ i, rem i = true ↔ is_Some (m !! i) ∧ m' !! i = None) →
  zlen (filter (λ i, rem i = true) (hash_keys m)) = Z.of_nat (size (dom m ∖ dom m')).
Proof.
  intros Hrem. unfold zlen. f_equal.
  rewrite <- (size_list_to_set (C:=gset request_id) (filter (λ i, rem i = true) (hash_keys m)))
    by apply NoDup_filter, hash_keys_NoDup.
  f_equal. apply leibniz_equiv, set_equiv. intros i.
  rewrite elem_of_list_to_set, list_elem_of_filter, elem_of_hash_keys, Hrem, elem_of_difference, !elem_of_dom.
  rewrite (eq_None_not_Some (m' !! i)). tauto.
Qed.

(** A view touches the requests and the tasks of its own queue only, and a
    view that does not apply touches none. *)
Lemma view_other_queues `{Runtime, KeyOrder} v st q' :
  q' ≠ v_queue v →
  inflight_of (process_oracle_queue v st) q' = inflight_of st q' ∧
  tasks_of (process_oracle_queue v st) q' = tasks_of st q'.
Proof.
  intros Hq'. unfold process_oracle_queue. destruct (begin_view v st) as [st1 its] eqn:Hb.
  destruct (begin_view_spec v st st1 its Hb) as (rem & _ & Hil & Htk & _).
  destruct (spawn_fold (v_queue v) its st1) as (_ & Hfo & _).
  destruct (Hfo q' Hq') as [-> ->].
  split; apply map_eq; intros i; [rewrite Hil|rewrite Htk]; by rewrite bool_decide_eq_false_2.
Qed.

Lemma view_ignored `{Runtime, KeyOrder} v st :
  view_applies v st = false →
  inflight_of (process_oracle_queue v st) (v_queue v) = inflight_of st (v_queue v) ∧
  tasks_of (process_oracle_queue v st) (v_queue v) = tasks_of st (v_queue v) ∧
  spawned (process_oracle_queue v st) = spawned st.
Proof.
  intros Happ. unfold process_oracle_queue. destruct (begin_view v st) as [st1 its] eqn:Hb.
  apply begin_view_cases in Hb as (st2 & Hsw & _ & Hcase). rewrite Happ in Hcase.
  destruct Hcase as [(-> & -> & _)|(? & _)]; [|done]. destruct Hsw as [Hsi Hst Hss _ _].
  cbn [foldl]. by rewrite Hsi, Hst, Hss.
Qed.

(** A view that applies, through the set [rem] of the ids it drops. *)
Lemma view_applied `{Runtime, KeyOrder} pubkey is_er st gone v items :
  rtc step (config_new pubkey is_er) (mkConfig st None gone) →
  view_items v = Ok items → view_applies v st = true →
  let q := v_queue v in
  let st' := process_oracle_queue v st in
  ∃ rem : request_id → bool,
    (∀ i e, inflight_of st q !! i = Some e → (rem i = true) ↔ gone_in v items i e) ∧
    (∀ i, rem i = true → is_Some (inflight_of st q !! i)) ∧
    (∀ i, inflight_of st' q !! i =
       match (if rem i then None else inflight_of st q !! i) with
       | Some e => Some e | None => first_slot i items end) ∧
    (∀ i, match (if rem i then None else inflight_of st q !! i), first_slot i items with
          | None, Some _ => ∃ h, (next_handle st ≤ h)%nat ∧ tasks_of st' q !! i = Some h ∧
                                 spawned st' !! h = Some (mkTask q i Running false)
          | _, _ => tasks_of st' q !! i = if rem i then None else tasks_of st q !! i
          end) ∧
    (∀ i h, tasks_of st q !! i = Some h → spawned st' !! h = Some (mkTask q i Running (rem i))) ∧
    count_of q (responses st') = count_of q (responses st) +
      (if v_slot v is Some _ then zlen (filter (λ i, rem i = true) (hash_keys (inflight_of st q))) else 0).
Proof.
  intros Hr Hits Happ q st'. destruct (inv_reachable pubkey is_er _ Hr) as [Hh _ _ _ Hn _]. cbn in Hh, Hn.
  subst st'. unfold process_oracle_queue. destruct (begin_view v st) as [st1 its] eqn:Hb.
  destruct (begin_view_spec v st st1 its Hb) as (rem & Hrem & Hil & Htk & (ab & Hab & Hsp) & Hnh & Hfull).
  assert (its = items) as ->.
  { apply begin_view_cases in Hb as (st2 & _ & _ & [(_ & _ & [?|Hno])|(_ & Hv & _)]);
      [congruence|by destruct (Hno items)|congruence]. }
  destruct (Hfull Happ Hits) as [Hrm Hcount].
  destruct (spawn_fold q items st1) as (Hfi & _ & Hft & Hfs & _ & Hfr). fold q in Hrem, Hab, Hcount |- *.
  set (st' := foldl _ st1 items) in *. exists rem.
  assert (∀ i, inflight_of st1 q !! i = if rem i then None else inflight_of st q !! i) as Hil1
    by (intros i; by rewrite Hil, bool_decide_eq_true_2).
  assert (∀ i, tasks_of st1 q !! i = if rem i then None else tasks_of st q !! i) as Htk1
    by (intros i; by rewrite Htk, bool_decide_eq_true_2).
  split_and!.
  - intros i e He. rewrite Hrm. by apply removable_gone.
  - intros i (_ & e & He & _)%Hrem. by exists e.
  - intros i. by rewrite Hfi, Hil1.
  - intros i. specialize (Hft i). by rewrite Hil1, Htk1, Hnh in Hft.
  - intros i h Hi. destruct (Hh q i h Hi) as [_ Hs].
    rewrite Hfs, Hsp, Hs by (rewrite Hnh; apply Hn; by eexists).
    destruct (rem i) eqn:Hri.
    + by rewrite decide_True by (apply Hab; eauto).
    + rewrite decide_False; [done|]. intros (j & Hj & Hjh)%Hab. destruct (Hh q j h Hjh) as [_ Hs']. congruence.
  - by rewrite Hfr, Hcount.
Qed.

(** C16. What one view does, from any state the service can be in. A view of a
    queue that is not this oracle's or not delegated to it, or that is older
    than the newest one seen (a snapshot: no newer), changes no request and
    no task. Any other view brings the queue up to date: a request in flight
    that is missing from the view and was enqueued before it is dropped, its
    response counted and its task aborted; one enqueued at or after the
    view's slot is kept, so that a late snapshot never cancels a live
    request; every request of the view that was not in flight gets a fresh
    running task; all others, and all other queues, keep theirs. *)
Theorem process_oracle_queue_spec `{Runtime, KeyOrder} pubkey is_er st gone v items :
  rtc step (config_new pubkey is_er) (mkConfig st None gone) →
  view_items v = Ok items →
  let q := v_queue v in
  let st' := process_oracle_queue v st in
  (∀ q', latest_of st q' ≤ latest_of st' q') ∧
  (∀ q', q' ≠ q → inflight_of st' q' = inflight_of st q' ∧ tasks_of st' q' = tasks_of st q') ∧
  if view_applies v st then
    (∀ i, match inflight_of st q !! i with
          | Some e =>
              (gone_in v items i e → inflight_of st' q !! i = None ∧ tasks_of st' q !! i = None ∧
                 ∀ h, tasks_of st q !! i = Some h → spawned st' !! h = Some (mkTask q i Running true)) ∧
              (¬ gone_in v items i e → inflight_of st' q !! i = Some e ∧ tasks_of st' q !! i = tasks_of st q !! i ∧
                 ∀ h, tasks_of st q !! i = Some h → spawned st' !! h = Some (mkTask q i Running false))
          | None =>
              inflight_of st' q !! i = first_slot i items ∧
              (i ∈ item_id <$> items → ∃ h, spawned st !! h = None ∧
                 tasks_of st' q !! i = Some h ∧ spawned st' !! h = Some (mkTask q i Running false))
          end) ∧
    count_of q (responses st') = count_of q (responses st) +
      (if v_slot v is Some _ then Z.of_nat (size (dom (inflight_of st q) ∖ dom (inflight_of st' q))) else 0)
  else
    inflight_of st' q = inflight_of st q ∧ tasks_of st' q = tasks_of st q ∧ spawned st' = spawned st.
Proof.
  intros Hr Hits q st'.
  split; [intros q'; apply latest_monotone|]. split; [intros q'; apply view_other_queues|].
  destruct (view_applies v st) eqn:Happ; [|by apply view_ignored].
  destruct (view_applied pubkey is_er st gone v items Hr Hits Happ)
    as (rem & Hgone & Hdom & Hfi & Hft & Hold & Hcount). fold q st' in Hdom, Hfi, Hft, Hold, Hcount |- *.
  split.
  - intros i. specialize (Hfi i). specialize (Hft i).
    destruct (inflight_of st q !! i) as [e|] eqn:He.
    + pose proof (Hgone i e He) as Hg. split; intros Hgi.
      * apply Hg in Hgi as Hr1. rewrite Hr1 in Hfi, Hft. destruct Hgi as [Hno _].
        rewrite (proj2 (first_slot_None _ _) Hno) in Hfi, Hft. split; [done|]. split; [done|].
        intros h Hth. rewrite <- Hr1. by apply Hold.
      * assert (rem i = false) as Hr0 by (apply not_true_iff_false; by rewrite Hg). rewrite Hr0 in Hfi, Hft.
        split; [done|]. split; [done|]. intros h Hth. rewrite <- Hr0. by apply Hold.
    + assert (rem i = false) as Hr0.
      { apply not_true_iff_false. intros [e He']%Hdom. by rewrite He in He'. }
      rewrite Hr0 in Hfi, Hft. split; [done|]. intros Hin.
      destruct (first_slot i items) as [sl|] eqn:Hf; [|by apply first_slot_None in Hf].
      destruct Hft as (h & Hle & Hth & Hs). exists h. split; [|done].
      destruct (inv_reachable pubkey is_er _ Hr) as [_ _ _ _ Hn _]. cbn in Hn.
      apply eq_None_not_Some. intros Hx%Hn. lia.
  - rewrite Hcount. f_equal. destruct (v_slot v); [|done].
    apply dropped_size. intros i. rewrite Hfi. split.
    + intros Hr1. rewrite Hr1. destruct (Hdom i Hr1) as [e He].
      split; [by exists e|]. by apply first_slot_None, (Hgone i e He).
    + intros [[e He] Hnone]. destruct (rem i); [done|]. by rewrite He in Hnone.
Qed.
