(* ===== verification/OracleSources.v ===== *)
(** * The oracle service: where views of the queues come from

    The subscriptions of [vrf-oracle/src/oracle/sources.rs], the scan of all
    program accounts ([fetch_and_process_program_accounts] of
    [oracle/processor.rs]), and the part of [OracleClient::run] that starts
    scans ([oracle/client.rs]). A subscription is the sequence of what it
    delivers, in the order in which the service receives it. *)

From S2P Require Import Prelude Pod Api QueueLayout QueueAccount Solana Accounts OracleClock OracleTasks.

(** An update of a queue: key, parsed header, account data and slot. *)
Record queue_update : Type := mkUpdate {
  u_queue : list byte;
  u_header : Queue;
  u_data : list byte;
  u_slot : Z;
}.

(** The [?] of a fallible parse. *)
Definition ok {A} (r : res A) : option A := match r with Ok a => Some a | _ => None end.

(** ** [WebSocketSource]

    An account notification carries the context slot, the account data if it
    decodes, the owner, and the account key if it parses. *)
Inductive ws_event : Type :=
| WsAccount (context_slot : Z) (decoded : option (list byte)) (owner : list byte) (pubkey : option (list byte))
| WsSlot (slot received_at : Z)
| WsClosed.

(** [next]: the update it returns, if any, the tracker, and what it has left
    in the channels. *)
Fixpoint ws_next (events : list ws_event) (t : SlotTracker) : option queue_update * SlotTracker * list ws_event :=
  match events with
  | [] => (None, t, [])
  | WsAccount context_slot decoded owner pubkey :: events =>
    let t := update context_slot t in
    let out :=
      d ← decoded;
      if negb (bytes_eqb owner ID) then None
      else
        queue ← ok (Queue_try_from_bytes d);
        k ← pubkey;
        Some (mkUpdate k queue d context_slot) in
    (out, t, events)
  | WsSlot slot received_at :: events => ws_next events (observe_slot_at slot received_at t)
  | WsClosed :: events => (None, t, events)
  end.

(** ** [LaserstreamSource] *)

Inductive slot_status : Type :=
| SlotProcessed | SlotConfirmed | SlotFinalized | SlotCreatedBank | SlotCompleted | SlotOtherStatus.

(** An account update may lack the account; a block's hash may not parse; the
    status is nothing when its number is not one of the enum. *)
Inductive ls_event : Type :=
| LsError
| LsAccount (slot : Z) (account : option (list byte * list byte))
| LsBlockMeta (blockhash : option (list byte)) (slot received_at : Z)
| LsSlot (status : option slot_status) (slot received_at : Z)
| LsOther.

Definition ls_slot (status : option slot_status) (slot received_at : Z) (t : SlotTracker) : SlotTracker :=
  match status with
  | Some SlotCreatedBank => observe_slot_at slot received_at t
  | Some (SlotProcessed | SlotConfirmed | SlotFinalized | SlotCompleted) => update slot t
  | _ => t
  end.

Fixpoint ls_next (events : list ls_event) (t : SlotTracker) (c : CacheData)
    : option queue_update * SlotTracker * CacheData * list ls_event :=
  match events with
  | [] => (None, t, c, [])
  | LsError :: events => (None, t, c, events)
  | LsAccount slot account :: events =>
    let t := update slot t in
    let out :=
      '(pubkey, d) ← account;
      queue ← ok (Queue_try_from_bytes d);
      if zlen pubkey =? 32 then Some (mkUpdate pubkey queue d slot) else None in
    (out, t, c, events)
  | LsBlockMeta blockhash slot received_at :: events =>
    ls_next events t
      (match blockhash with Some hash => set_blockhash hash slot received_at c | None => c end)
  | LsSlot status slot received_at :: events => ls_next events (ls_slot status slot received_at t) c
  | LsOther :: events => ls_next events t c
  end.

(** The view that [run] processes for an update; [answer] as in
    [should_process_queue]. *)
Definition view_of_update (answer : option bool) (u : queue_update) : view :=
  mkView (u_queue u) (u_header u) (u_data u) (Some (u_slot u)) false answer.

(** ** [fetch_and_process_program_accounts] *)

(** An account of the answer: its key if it parses, and the account if it
    decodes. *)
Definition keyed_account : Type := option (list byte) * option Account.

(** The views of a scan, one spawned task for each; without a context slot
    the scan fails. [answer] is what [getDelegationStatus] returns for a
    queue, if it is asked. *)
Definition scan_view (view_slot : Z) (answer : list byte → option bool) (entry : keyed_account) : option view :=
  let '(pubkey, acc) := entry in
  k ← pubkey;
  a ← acc;
  if negb (bytes_eqb (a_owner a) ID) then None
  else
    queue ← ok (Queue_try_from_bytes (a_data a));
    Some (mkView k queue (a_data a) (Some view_slot) true (answer k)).

Definition scan_views (context_slot : option Z) (answer : list byte → option bool) (accounts : list keyed_account)
    : option (list view) :=
  view_slot ← context_slot;
  Some (omap (scan_view view_slot answer) accounts).

(** ** Scans and reconnects

    [run] scans on a timer and after every (re)connect of the update source,
    under one lock. The timer's task is a loop, so it has at most one scan; a
    connect spawns a task of its own unless [scan_queued] is set, and that
    task clears the flag once it holds the lock, before it scans. The lock is
    the fair mutex of tokio: it goes to whoever waits longest, at the moment
    it is released. *)
Inductive scanner : Type := Timer | PostConnect.

#[global] Instance scanner_eq_dec : EqDecision scanner.
Proof. solve_decision. Defined.

(** Where the holder of the lock is: it has not done anything yet, or it has
    cleared the flag, or it runs its scan, which began after so many
    connects. *)
Inductive scan_stage : Type := Granted | Cleared | Scanning (connects : nat).

(** [rs_spawned] counts the spawned tasks that have not run yet, [rs_line] are
    those that wait for the lock, in order. [rs_gaps] counts the connects so
    far: what was missed before one is shown by a scan that begins after it.
    [rs_begun] is the number of connects before the last scan that began, and
    [rs_covered] the number of connects before the last one of those that
    succeeded. *)
Record run_state : Type := mkRunState {
  scan_queued : bool;
  rs_spawned : nat;
  rs_line : list scanner;
  rs_holder : option (scanner * scan_stage);
  rs_gaps : nat;
  rs_begun : nat;
  rs_covered : nat;
}.

(** After the first scan, before the loop. *)
Definition run_state_new : run_state := mkRunState false 0 [] None 0 0 0.

(** [lock]: at once if the lock is free, else at the end of the line. *)
Definition scan_lock (w : scanner) (s : run_state) : run_state :=
  let '(line, holder) :=
    match rs_holder s with
    | None => (rs_line s, Some (w, Granted))
    | Some h => (rs_line s ++ [w], Some h)
    end in
  mkRunState (scan_queued s) (rs_spawned s) line holder (rs_gaps s) (rs_begun s) (rs_covered s).

(** The guard is dropped: the next in line holds the lock. *)
Definition scan_unlock (s : run_state) : run_state :=
  let '(line, holder) :=
    match rs_line s with
    | [] => ([], None)
    | w :: line => (line, Some (w, Granted))
    end in
  mkRunState (scan_queued s) (rs_spawned s) line holder (rs_gaps s) (rs_begun s) (rs_covered s).

(** What the tasks do that others can see: the loop connects, a spawned task
    runs for the first time, the timer ticks, a queued scan clears the flag,
    a scan begins, and a scan ends, with [Ok], or with [Err] if the endpoint
    fails or the answer has no context slot (see [scan_views]). *)
Inductive run_event : Type := Connect | Spawned | Tick | Clear | Begin | End (ok : bool).

(** The timer's task is at its [tick]: it neither waits for the lock nor
    holds it. *)
Definition timer_idle (s : run_state) : bool :=
  bool_decide (Timer ∉ rs_line s) &&
  match rs_holder s with Some (Timer, _) => false | _ => true end.

Definition run_step (e : run_event) (s : run_state) : option run_state :=
  match e with
  | Connect =>
    (* [scan_queued.swap(true)], and a task is spawned if it was false *)
    let spawned := if scan_queued s then rs_spawned s else S (rs_spawned s) in
    Some (mkRunState true spawned (rs_line s) (rs_holder s) (S (rs_gaps s)) (rs_begun s) (rs_covered s))
  | Spawned =>
    match rs_spawned s with
    | O => None
    | S n =>
      Some (scan_lock PostConnect
        (mkRunState (scan_queued s) n (rs_line s) (rs_holder s) (rs_gaps s) (rs_begun s) (rs_covered s)))
    end
  | Tick => if timer_idle s then Some (scan_lock Timer s) else None
  | Clear =>
    match rs_holder s with
    | Some (PostConnect, Granted) =>
      Some (mkRunState false (rs_spawned s) (rs_line s) (Some (PostConnect, Cleared))
        (rs_gaps s) (rs_begun s) (rs_covered s))
    | _ => None
    end
  | Begin =>
    match rs_holder s with
    | Some ((Timer, Granted) as h | (PostConnect, Cleared) as h) =>
      Some (mkRunState (scan_queued s) (rs_spawned s) (rs_line s) (Some (fst h, Scanning (rs_gaps s)))
        (rs_gaps s) (rs_gaps s) (rs_covered s))
    | _ => None
    end
  | End ok =>
    (* an [Err] is logged and nothing else *)
    match rs_holder s with
    | Some (_, Scanning n) =>
      Some (scan_unlock
        (mkRunState (scan_queued s) (rs_spawned s) (rs_line s) (rs_holder s)
          (rs_gaps s) (rs_begun s) (if ok then n else rs_covered s)))
    | _ => None
    end
  end.

(** Any events in a row. *)
Fixpoint run_steps (es : list run_event) (s : run_state) : option run_state :=
  match es with
  | [] => Some s
  | e :: es => s ← run_step e s; run_steps es s
  end.
