(* ===== verification/SourceTheorems.v ===== *)
(** * The oracle service: theorems on sources and scans

    What a subscription hands on and what it does to the slot tracker, which
    accounts a scan turns into views, and how soon scans cover what was missed
    before a reconnect. *)

From S2P Require Import Prelude Pod Api QueueLayout QueueAccount Solana Accounts OracleClock ClockTheorems OracleTasks TaskTheorems OracleSources.

(** ** Subscriptions *)

(** What a [next] may hand on: the header is that of the data, and the
    tracker has reached its slot. *)
Definition update_ok (t : SlotTracker) (out : option queue_update) : Prop :=
  match out with
  | Some u => Queue_try_from_bytes (u_data u) = Ok (u_header u) ∧ u_slot u ≤ current t
  | None => True
  end.

Lemma ok_Some {A} (r : res A) a : ok r = Some a ↔ r = Ok a.
Proof. destruct r; cbn; naive_solver. Qed.

(** The slots that a consumed event shows to the tracker. *)
Definition ws_slot (e : ws_event) : Z :=
  match e with WsAccount s _ _ _ => s | WsSlot s _ => s | WsClosed => 0 end.

Lemma ws_next_spec events t :
  let '(out, t', rest) := ws_next events t in
  update_ok t' out ∧ (∀ u, out = Some u → ∃ s d o k, WsAccount s (Some d) o (Some k) ∈ events ∧
    u = mkUpdate k (u_header u) d s ∧ o = ID) ∧
  ∃ consumed, events = consumed ++ rest ∧ (0 ≤ current t → Forall (λ e, ws_slot e ≤ current t') consumed) ∧
    current t ≤ current t'.
Proof.
  revert t. induction events as [|e events IH]; intros t; cbn [ws_next].
  { split; [done|]. split; [done|]. exists []. split; [done|]. split; [done|lia]. }
  destruct e as [s d o k|s n|].
  - pose proof (update_current s t) as Hu.
    split; [|split; [|exists [WsAccount s d o k]; split_and!; [done|intros; repeat constructor; cbn; lia|lia]]].
    + destruct d as [d|]; cbn; [|done]. destruct (bytes_eqb o ID); cbn; [|done].
      destruct (ok (Queue_try_from_bytes d)) as [q|] eqn:Hq; cbn; [|done]. destruct k; cbn; [|done].
      apply ok_Some in Hq. split; [done|]. lia.
    + destruct d as [d|]; cbn; [|done]. destruct (bytes_eqb o ID) eqn:Ho; cbn; [|done].
      destruct (ok (Queue_try_from_bytes d)) as [q|] eqn:Hq; cbn; [|done]. destruct k as [k|]; cbn; [|done].
      intros u [= <-]. exists s, d, o, k. split; [by left|]. split; [done|]. by apply bytes_eqb_eq.
  - specialize (IH (observe_slot_at s n t)). destruct (ws_next events _) as [[out t'] rest].
    destruct IH as (H1 & H2 & consumed & -> & H3 & H4). rewrite observe_current in H3, H4. split; [done|].
    split; [intros u Hu; destruct (H2 u Hu) as (s' & d & o & k & Hin & ?); exists s', d, o, k; split; [by right|done]|].
    exists (WsSlot s n :: consumed). split; [done|]. split; [|lia].
    intros. constructor; [cbn; lia|]. apply H3. lia.
  - split; [done|]. split; [done|]. exists [WsClosed]. split; [done|]. split; [|lia]. repeat constructor. cbn. lia.
Qed.

Lemma ls_slot_current st s n t : current (ls_slot st s n t) = current t ∨ current (ls_slot st s n t) = Z.max (current t) s.
Proof.
  destruct st as [[]|]; cbn; rewrite ?update_current, ?observe_current; auto.
Qed.

Lemma ls_next_spec events t c :
  let '(out, t', c', rest) := ls_next events t c in
  update_ok t' out ∧ (∀ u, out = Some u → zlen (u_queue u) = 32) ∧ current t ≤ current t' ∧ cache_slot c ≤ cache_slot c'.
Proof.
  revert t c. induction events as [|e events IH]; intros t c; cbn [ls_next]; [split_and!; done|].
  destruct e as [|s acc|h s n|st s n|].
  - split_and!; done.
  - pose proof (update_current s t) as Hu. destruct acc as [[k d]|]; cbn; [|split_and!; [done|done|lia|done]].
    destruct (ok (Queue_try_from_bytes d)) as [q|] eqn:Hq; cbn; [|split_and!; [done|done|lia|done]].
    destruct (Z.eqb_spec (zlen k) 32); cbn; [|split_and!; [done|done|lia|done]].
    apply ok_Some in Hq. split_and!; [done|lia|by intros u [= <-]|lia|done].
  - set (c1 := match h with Some hash => set_blockhash hash s n c | None => c end).
    assert (cache_slot c ≤ cache_slot c1) as Hc.
    { subst c1. destruct h; [|done]. unfold set_blockhash, cache_apply. destruct (Z.ltb_spec s (cache_slot c)); cbn; lia. }
    specialize (IH t c1). destruct (ls_next events t c1) as [[[out t'] c'] rest]. destruct IH as (? & ? & ? & ?).
    split_and!; try done. lia.
  - specialize (IH (ls_slot st s n t) c). destruct (ls_next events _ c) as [[[out t'] c'] rest].
    destruct IH as (? & ? & ? & ?). split_and!; try done. destruct (ls_slot_current st s n t); lia.
  - specialize (IH t c). destruct (ls_next events t c) as [[[out t'] c'] rest]. done.
Qed.

(** ** Scans *)

Lemma elem_of_scan_views slot answer accounts v :
  (∃ views, scan_views (Some slot) answer accounts = Some views ∧ v ∈ views) ↔
  ∃ k a h, (Some k, Some a) ∈ accounts ∧ a_owner a = ID ∧ Queue_try_from_bytes (a_data a) = Ok h ∧
    v = mkView k h (a_data a) (Some slot) true (answer k).
Proof.
  cbn. split.
  - intros (? & [= <-] & Hv). apply list_elem_of_omap in Hv as ([k a] & Hin & Hv). unfold scan_view in Hv.
    destruct k as [k|]; [|done]. destruct a as [a|]; [|done]. cbn in Hv.
    destruct (bytes_eqb (a_owner a) ID) eqn:Ho; [|done]. cbn in Hv.
    destruct (ok (Queue_try_from_bytes (a_data a))) as [h|] eqn:Hh; [|done]. cbn in Hv. injection Hv as <-.
    exists k, a, h. apply ok_Some in Hh. apply bytes_eqb_eq in Ho. done.
  - intros (k & a & h & Hin & Ho & Hh & ->). eexists. split; [done|]. apply list_elem_of_omap.
    exists (Some k, Some a). split; [done|]. unfold scan_view. cbn.
    rewrite (proj2 (bytes_eqb_eq _ _) Ho). cbn. by rewrite Hh.
Qed.

(** ** Reconnects *)

(** The scans of one kind that wait for the lock. *)
Fixpoint waiting (w : scanner) (line : list scanner) : nat :=
  match line with
  | [] => 0
  | w' :: line =>
    match w, w' with Timer, Timer | PostConnect, PostConnect => S (waiting w line) | _, _ => waiting w line end
  end.
Definition in_line (w : scanner) (s : run_state) : nat := waiting w (rs_line s).

(** A task that is spawned for a connect and has not cleared the flag. *)
Definition granted_queued (s : run_state) : nat :=
  match rs_holder s with Some (PostConnect, Granted) => 1 | _ => 0 end.

Definition timer_holds (s : run_state) : nat :=
  match rs_holder s with Some (Timer, _) => 1 | _ => 0 end.

(** The steps of a scan on its way; a connect and a tick come from outside. *)
Definition scan_event (e : run_event) : bool := match e with Connect | Tick => false | _ => true end.
Definition scan_events (es : list run_event) : nat := length (List.filter scan_event es).

(** How the scans of a run ended, in order. *)
Definition ends (es : list run_event) : list bool := omap (λ e, match e with End ok => Some ok | _ => None end) es.

(** The flag counts the scans that are queued, the timer has one at most, the
    lock is not free while someone waits; and what has connected without a
    scan having begun since has one queued, or past the flag. *)
Record run_inv (s : run_state) : Prop := {
  ri_flag : (rs_spawned s + in_line PostConnect s + granted_queued s)%nat = if scan_queued s then 1%nat else 0%nat;
  ri_timer : (in_line Timer s + timer_holds s ≤ 1)%nat;
  ri_line : rs_holder s = None → rs_line s = [];
  ri_stage : rs_holder s ≠ Some (Timer, Cleared);
  ri_covered : (rs_covered s ≤ rs_begun s ≤ rs_gaps s)%nat;
  ri_scanning w n : rs_holder s = Some (w, Scanning n) → rs_begun s = n;
  ri_gap : (rs_begun s < rs_gaps s)%nat → scan_queued s = true ∨ rs_holder s = Some (PostConnect, Cleared);
}.

(** The cases of a step: the state in its fields, the holder's stage known. *)
Ltac run_cases H :=
  unfold run_step, scan_lock, scan_unlock in H;
  cbn [scan_queued rs_spawned rs_line rs_holder rs_gaps rs_begun rs_covered] in H;
  repeat case_match; simplify_eq.

Lemma waiting_app w l l' : waiting w (l ++ l') = (waiting w l + waiting w l')%nat.
Proof. induction l as [|[] l IH]; cbn; [done|..]; destruct w; by rewrite IH. Qed.

Lemma waiting_length l : length l = (waiting Timer l + waiting PostConnect l)%nat.
Proof. induction l as [|[] l IH]; cbn; lia. Qed.

Lemma timer_idle_spec s : timer_idle s = true ↔ in_line Timer s = 0%nat ∧ timer_holds s = 0%nat.
Proof.
  unfold timer_idle, in_line, timer_holds. rewrite andb_true_iff, bool_decide_eq_true.
  assert (Timer ∉ rs_line s ↔ waiting Timer (rs_line s) = 0%nat) as ->.
  { induction (rs_line s) as [|[] l IH]; cbn; [split; [done|intros _; apply not_elem_of_nil]|..];
      rewrite not_elem_of_cons; naive_solver. }
  destruct (rs_holder s) as [[[] ?]|]; naive_solver.
Qed.

(** The fields of a known state; [solve_run] does the counting. *)
Ltac run_simpl :=
  unfold in_line, granted_queued, timer_holds in *;
  cbn [scan_queued rs_spawned rs_line rs_holder rs_gaps rs_begun rs_covered fst snd] in *;
  rewrite ?waiting_app in *; cbn [waiting app] in *.
Ltac solve_run :=
  first [done | lia | intros; simplify_eq; first [done | lia | by left | by right
    | match goal with H : _ → _ ∨ _ |- _ => destruct H; [lia|..]; simplify_eq; first [done|by left|by right] end] ].

Lemma run_inv_step e s s' : run_inv s → run_step e s = Some s' → run_inv s'.
Proof.
  intros [Hf Ht Hl Hst Hc Hs Hg] H. destruct s as [q n l h g b c]. destruct e; cbn in H.
  - injection H as <-. split; run_simpl; destruct q; solve_run.
  - destruct n as [|n]; [done|]. injection H as <-. unfold scan_lock. cbn.
    destruct q; run_simpl; [|lia]. destruct h as [h|]; split; run_simpl; solve_run.
  - destruct (timer_idle _) eqn:Hi; [|done]. apply timer_idle_spec in Hi as [Hi1 Hi2].
    injection H as <-. unfold scan_lock. cbn. destruct h as [h|]; split; run_simpl; solve_run.
  - destruct h as [[[] []]|]; simplify_eq. split; run_simpl; destruct q; solve_run.
  - destruct h as [[[] []]|]; simplify_eq; split; run_simpl; solve_run.
  - destruct h as [[w []]|]; simplify_eq. specialize (Hs _ _ eq_refl). unfold scan_unlock.
    destruct l as [|[] l]; cbn; destruct ok, w; split; run_simpl; solve_run.
Qed.

(** Induction along a run: what each step keeps, the run keeps. *)
Lemma run_steps_ind (P : run_state → Prop) es s s' :
  (∀ e s1 s2, run_inv s1 → P s1 → run_step e s1 = Some s2 → P s2) →
  run_inv s → P s → run_steps es s = Some s' → run_inv s' ∧ P s'.
Proof.
  intros Hstep. revert s. induction es as [|e es IH]; cbn; intros s Hinv HP H; [by injection H as <-|].
  destruct (run_step e s) as [s1|] eqn:He; [|done]. eapply IH; [by eapply run_inv_step| |done]. by eapply Hstep.
Qed.

Lemma run_inv_reachable es s : run_steps es run_state_new = Some s → run_inv s.
Proof.
  intros H. apply (run_steps_ind (λ _, True) es run_state_new); [done| |done|done].
  split; cbn; [done|lia|done|done|lia|done|lia].
Qed.

(** *** The counts only grow *)

Lemma run_step_grows e s s' :
  run_inv s → run_step e s = Some s' →
  (rs_gaps s ≤ rs_gaps s' ∧ rs_begun s ≤ rs_begun s' ∧ rs_covered s ≤ rs_covered s')%nat.
Proof.
  intros [_ _ _ _ Hc Hs _] H. destruct s as [q n l h g b c]. destruct e; cbn in H; run_cases H; cbn in *; try lia.
  all: rewrite (Hs _ _ eq_refl) in *; lia.
Qed.

(** *** What a scan covers

    Once no scan that began before [T] connects is in flight, whatever ends
    began after them. *)
Definition fresh (T : nat) (s : run_state) : Prop :=
  ∀ w n, rs_holder s = Some (w, Scanning n) → (T ≤ n)%nat.

Lemma fresh_step T e s s' :
  fresh T s → (T ≤ rs_gaps s)%nat → run_step e s = Some s' → fresh T s'.
Proof.
  unfold fresh. intros HT Hg H w n Hh. destruct s as [q m l h g b c]. destruct e; cbn in H; run_cases H; cbn in *; naive_solver.
Qed.

Lemma end_fresh T ok s s' : run_step (End ok) s = Some s' → fresh T s'.
Proof.
  unfold fresh. intros H w n Hh. destruct s as [q m l h g b c]. cbn in H. run_cases H; cbn in *; naive_solver.
Qed.

Lemma end_covers T ok s s' :
  run_inv s → fresh T s → run_step (End ok) s = Some s' →
  (T ≤ rs_begun s' ∧ (ok = true → T ≤ rs_covered s'))%nat.
Proof.
  intros [_ _ _ _ _ Hs _] HT H. destruct s as [q m l h g b c]. cbn in H. run_cases H; cbn in *.
  all: specialize (HT _ _ eq_refl); rewrite (Hs _ _ eq_refl); naive_solver.
Qed.

Lemma run_steps_grow es s s' :
  run_inv s → run_steps es s = Some s' → (rs_begun s ≤ rs_begun s' ∧ rs_covered s ≤ rs_covered s')%nat.
Proof.
  intros Hinv H.
  destruct (run_steps_ind (λ s', rs_begun s ≤ rs_begun s' ∧ rs_covered s ≤ rs_covered s')%nat es s s') as [_ ?]; try done.
  intros e s1 s2 Hi1 H1 Hst. pose proof (run_step_grows _ _ _ Hi1 Hst). lia.
Qed.

Lemma fresh_covers T es s s' :
  run_inv s → fresh T s → (T ≤ rs_gaps s)%nat → run_steps es s = Some s' →
  (ends es ≠ [] → (T ≤ rs_begun s')%nat) ∧ (true ∈ ends es → (T ≤ rs_covered s')%nat).
Proof.
  revert s. induction es as [|e es IH]; cbn; intros s Hinv HT Hg H; [split; [done|by intros ?%not_elem_of_nil]|].
  destruct (run_step e s) as [s1|] eqn:He; [|done]. cbn in H. pose proof (run_inv_step _ _ _ Hinv He) as Hinv1.
  pose proof (run_step_grows _ _ _ Hinv He) as (Hg1 & _). pose proof (fresh_step _ _ _ _ HT Hg He) as HT1.
  destruct (IH s1) as [IH1 IH2]; [done|done|lia|done|].
  destruct e as [| | | | |ok]; try done. cbn. destruct (end_covers _ _ _ _ Hinv HT He) as [H1 H2].
  pose proof (run_steps_grow _ _ _ Hinv1 H) as [Hb Hc]. split; [intros _; lia|].
  intros [Ht|Ht]%elem_of_cons; [|by apply IH2]. specialize (H2 (eq_sym Ht)). lia.
Qed.

(** Behind the scan in flight, whatever ends covers. *)
Lemma second_covers T es s s' :
  run_inv s → (T ≤ rs_gaps s)%nat → run_steps es s = Some s' →
  (tail (ends es) ≠ [] → (T ≤ rs_begun s')%nat) ∧ (true ∈ tail (ends es) → (T ≤ rs_covered s')%nat).
Proof.
  revert s. induction es as [|e es IH]; cbn; intros s Hinv Hg H; [split; [done|by intros ?%not_elem_of_nil]|].
  destruct (run_step e s) as [s1|] eqn:He; [|done]. cbn in H. pose proof (run_inv_step _ _ _ Hinv He) as Hinv1.
  pose proof (run_step_grows _ _ _ Hinv He) as (Hg1 & _).
  destruct e as [| | | | |ok]; try (apply (IH s1); [done|lia|done]).
  apply (fresh_covers T es s1); [done|by eapply end_fresh|lia|done].
Qed.

Lemma failures_cover_nothing es s s' :
  run_steps es s = Some s' → Forall (λ ok, ok = false) (ends es) → rs_covered s' = rs_covered s.
Proof.
  revert s. induction es as [|e es IH]; cbn; intros s H Hf; [by injection H as <-|].
  destruct (run_step e s) as [s1|] eqn:He; [|done]. cbn in H.
  assert (Forall (λ ok, ok = false) (ends es) ∧ rs_covered s1 = rs_covered s) as [Hf' <-]; [|by apply IH].
  destruct s as [q m l h g b c]. destruct e; cbn in He, Hf; run_cases He; try done;
    apply Forall_cons in Hf as [? Hf]; by simplify_eq.
Qed.

(** *** How long a connect waits

    The steps that scans on their way can take before one begins, as long as
    a connect is unread. *)
Definition steps_left (s : run_state) : nat :=
  match rs_holder s with
  | None => 4
  | Some (Timer, Granted) => 1 + rs_spawned s
  | Some (PostConnect, Granted) => 3
  | Some (_, Cleared) => 1 + if scan_queued s then rs_spawned s else 1
  | Some (_, Scanning _) => 4 + rs_spawned s
  end.

Lemma steps_left_bound s : run_inv s → (1 ≤ steps_left s ≤ 5)%nat.
Proof.
  intros [Hf _ _ _ _ _ _]. unfold steps_left. destruct s as [q n l h g b c]. run_simpl.
  destruct h as [[[] []]|], q; lia.
Qed.

Lemma steps_left_step e s s' :
  run_inv s → run_step e s = Some s' → (rs_begun s < rs_gaps s)%nat → (rs_begun s' < rs_gaps s)%nat →
  (steps_left s' + (if scan_event e then 1 else 0) ≤ steps_left s)%nat.
Proof.
  intros [Hf Ht Hl Hst _ _ Hg] H Hlt Hlt'. destruct s as [q n l h g b c]. unfold steps_left.
  destruct e; cbn in H; run_simpl; specialize (Hg Hlt).
  - injection H as <-. cbn in *. destruct h as [[[] []]|], q; naive_solver lia.
  - destruct n as [|n]; [done|]. injection H as <-. unfold scan_lock. cbn. 
    destruct h as [[[] []]|], q; cbn; naive_solver lia.
  - destruct (timer_idle _) eqn:Hi; [|done]. injection H as <-. unfold scan_lock. cbn.
    destruct h as [[[] []]|], q; cbn; naive_solver lia.
  - destruct h as [[[] []]|]; simplify_eq. cbn. destruct q; naive_solver lia.
  - destruct h as [[[] []]|]; simplify_eq; cbn in *; lia.
  - destruct h as [[w []]|]; simplify_eq. unfold scan_unlock. destruct l as [|[] l]; cbn in *; destruct w, q; naive_solver lia.
Qed.

Lemma steps_left_run es s s' T :
  run_inv s → (T ≤ rs_gaps s)%nat → run_steps es s = Some s' → (rs_begun s' < T)%nat →
  (scan_events es < steps_left s)%nat.
Proof.
  revert s. induction es as [|e es IH]; cbn; intros s Hinv HT H Hlt.
  { pose proof (steps_left_bound s Hinv). unfold scan_events. cbn. lia. }
  destruct (run_step e s) as [s1|] eqn:He; [|done]. cbn in H. pose proof (run_inv_step _ _ _ Hinv He) as Hinv1.
  pose proof (run_step_grows _ _ _ Hinv He) as (Hg1 & Hb1 & _). pose proof (run_steps_grow _ _ _ Hinv1 H) as [Hb2 _].
  specialize (IH s1 Hinv1 ltac:(lia) H Hlt).
  pose proof (steps_left_step _ _ _ Hinv He ltac:(lia) ltac:(lia)) as Hst.
  unfold scan_events in *. cbn. destruct e; cbn in *; lia.
Qed.

(** Some scan can go on, or the timer can tick. *)
Lemma scan_enabled s :
  run_inv s → ∃ e, is_Some (run_step e s) ∧ (scan_event e = true ∨ e = Tick ∧ rs_begun s = rs_gaps s).
Proof.
  intros [Hf Ht Hl Hst Hc _ Hg]. destruct s as [q n l h g b c]. run_simpl.
  destruct h as [[[] []]|].
  - exists Begin. by split; [|left].
  - done.
  - exists (End true). by split; [|left].
  - exists Clear. by split; [|left].
  - exists Begin. by split; [|left].
  - exists (End true). by split; [|left].
  - rewrite (Hl eq_refl) in *. destruct n as [|n]; [|exists Spawned; by split; [|left]].
    exists Tick. split; [done|right]. split; [done|].
    destruct (decide (b < g)%nat) as [Hlt|]; [|lia]. destruct (Hg Hlt) as [->|?]; done.
Qed.

