(* ===== verification/OracleSend.v ===== *)
(** * The oracle service: preparing and sending transactions

    [ProcessableItem] and the task that [process_oracle_queue] spawns for a
    request ([vrf-oracle/src/oracle/processor.rs]), and the priority fee it
    pays ([OracleClient::priority_fee] of [oracle/client.rs]). *)

From Stdlib Require Import SpecFloat.
From S2P Require Import Prelude Pod Api QueueLayout QueueAccount Solana Accounts Instructions Verify Handlers Provide Vrf Registry Sdk OracleClock OracleTasks.

(** ** The priority fee *)

Definition PRIORITY_FEE_MAX_AGE : Z := from_secs 10.
Definition DEFAULT_PRIORITY_FEE_MICRO_LAMPORTS : Z := 10000.

(** [f64 as u64]: truncates and saturates, not-a-number is 0. *)
Definition f64_as_u64 (x : f64) : Z :=
  match x with
  | S754_finite false m e => Z.min (Z.shiftl (Zpos m) e) (2 ^ 64 - 1)
  | S754_infinity false => 2 ^ 64 - 1
  | _ => 0
  end.

(** [cached_priority_fee] at the time [now]. *)
Definition cached_priority_fee (now : Z) (cache : option (Z * Z)) : option Z :=
  match cache with
  | Some (fee, fetched_at) => if duration_since now fetched_at <? PRIORITY_FEE_MAX_AGE then Some fee else None
  | None => None
  end.

(** [fetch_priority_fee], from the estimate that the endpoint answers. *)
Definition fetch_priority_fee (answer : option f64) : option Z := f64_as_u64 <$> answer.

(** [priority_fee]: [er] on an ephemeral rollup. The cache is read before and,
    as [cache'] at [now'], under the lock of the refresh; [estimate] is what
    the endpoint answers in time, and [stored_at] is when it is stored. *)
Definition priority_fee (er : bool) (now : Z) (cache : option (Z * Z)) (now' : Z) (cache' : option (Z * Z))
    (estimate : option f64) (stored_at : Z) : Z * option (Z * Z) :=
  if er then (0, cache)
  else
    match cached_priority_fee now cache with
    | Some fee => (fee, cache)
    | None =>
      match cached_priority_fee now' cache' with
      | Some fee => (fee, cache')
      | None =>
        let fee :=
          match fetch_priority_fee estimate with
          | Some fee => fee
          | None => default DEFAULT_PRIORITY_FEE_MICRO_LAMPORTS (fst <$> cache')
          end in
        (fee, Some (fee, stored_at))
      end
    end.

(** ** Preparing a transaction *)

(** The instructions of a transaction: those of the compute budget program,
    by their variants, and those of the VRF program. *)
Inductive tx_instruction : Type :=
| SetComputeUnitLimit (units : Z)
| SetComputeUnitPrice (micro_lamports : Z)
| ProgramInstruction (ix : Instruction).

(** A transaction signed by its payer. *)
Record Transaction : Type := mkTransaction {
  tx_instructions : list tx_instruction;
  tx_payer : list byte;
  tx_blockhash : list byte;
}.

Definition MAX_PRIORITY_FEE_LAMPORTS : Z := 60000.
Definition saturating_mul (w x y : Z) : Z := Z.min (x * y) (2 ^ w - 1).

Section Prepare.
Context {rt : Runtime} {dk : Dalek} {ds : DelegationSdk}.

(** The keys of [OracleClient]. *)
Record OracleKeys : Type := mkOracleKeys {
  keypair_pubkey : list byte;
  oracle_vrf_sk : Scalar;
  oracle_vrf_pk : Point;
}.

(** [OracleClient::new], from the 64 bytes of the keypair. *)
Definition OracleKeys_new (keypair pubkey : list byte) : res OracleKeys :=
  '(sk, pk) ← generate_vrf_keypair keypair;
  mret (mkOracleKeys pubkey sk pk).

Record PreparedVrf : Type := mkPreparedVrf {
  pv_output : list byte;
  pv_commitment_base : list byte;
  pv_commitment_hash : list byte;
  pv_s : list byte;
}.

(** The assertion panics if the proof does not verify. *)
Definition prepare_vrf (k : OracleKeys) (vrf_input : list byte) : res PreparedVrf :=
  '(output, (commitment_base, commitment_hash, s)) ← compute_vrf (oracle_vrf_sk k) vrf_input;
  verified ← vrf_verify (oracle_vrf_pk k) vrf_input output (commitment_base, commitment_hash, s);
  ensure_or_panic verified;;
  mret (mkPreparedVrf output commitment_base commitment_hash (scalar_to_bytes s)).

(** What a task is spawned with. *)
Record TaskInput : Type := mkTaskInput {
  ti_keys : OracleKeys;
  ti_item : QueueItem;
  ti_queue : list byte;
  ti_queue_meta : Queue;
  ti_account_bytes : list byte;
}.

(** What a preparation reads of the caches and the host clock. *)
Record PrepareEnv : Type := mkPrepareEnv {
  pe_now : Z;
  pe_blockhash : list byte;
  pe_priority_fee : Z;
}.

Definition is_purge (t : TaskInput) (now : Z) : bool := QUEUE_TTL_SECONDS <? host_age_secs now (ti_item t).

Definition request_instruction (t : TaskInput) (pv : PreparedVrf) (purge : bool) : res Instruction :=
  let k := ti_keys t in
  if purge then Ok (purge_expired_requests (keypair_pubkey k) (queue_index (ti_queue_meta t)))
  else
    let ix := provide_randomness_with_identity_mode (keypair_pubkey k) (ti_queue t)
      (callback_program_id (ti_item t)) (identity_mode (ti_item t)) (item_id (ti_item t))
      (pv_output pv) (pv_commitment_base pv) (pv_commitment_hash pv) (pv_s pv) in
    ensure_or_panic (8 <=? zlen (ti_account_bytes t));;
    metas ← account_metas (ti_item t) (slice (ti_account_bytes t) 8 (zlen (ti_account_bytes t)));
    mret (mkInstruction (ix_program_id ix) (ix_accounts ix ++ (to_account_meta <$> metas)) (ix_data ix)).

Definition compute_budget (item : QueueItem) (purge : bool) (attempt : Z) : Z :=
  let budget :=
    if purge then 1000000
    else match priority_request item with 1 => 400000 | _ => 300000 end in
  budget + as_u32 (attempt mod 256).

(** The shift drops the bits beyond 64. *)
Definition attempt_price (fee budget attempt : Z) : Z :=
  let max_price := saturating_mul 64 MAX_PRIORITY_FEE_LAMPORTS 1000000 / budget in
  Z.min (as_u64 (Z.shiftl fee (Z.min (attempt / 8) 4))) max_price.

Definition prepare_transaction (t : TaskInput) (pv : PreparedVrf) (env : PrepareEnv) (attempt : Z)
    : res Transaction :=
  let purge := is_purge t (pe_now env) in
  ix ← request_instruction t pv purge;
  let budget := compute_budget (ti_item t) purge attempt in
  let price := attempt_price (pe_priority_fee env) budget attempt in
  mret (mkTransaction
    ([SetComputeUnitLimit budget; ProgramInstruction ix] ++
     (if 0 <? price then [SetComputeUnitPrice price] else []))
    (keypair_pubkey (ti_keys t)) (pe_blockhash env)).

(** ** The task of a request *)

Definition ANCHOR_CONSTRAINT_ADDRESS_ERROR : Z := 2012.
Definition PURGE_RETRY_MAX_SLOTS : Z := 256.

(** How a send ends: accepted, refused with a custom error of instruction 1,
    or with any other error. *)
Inductive send_result : Type :=
| Accepted
| Refused (code : Z)
| Failed.

(** The variables of the loop. *)
Record LoopState : Type := mkLoopState {
  attempts : Z;
  backoff_attempts : Z;
  purges_sent : Z;
  first_legal_attempt_pending : bool;
  prepared_transaction : option Transaction;
}.

(** What one turn observes: the slot when it sends, the host clock when it
    checks the age, the caches for a preparation, the answer, the clock after
    it, and the caches for the next transaction if that is prepared ahead. *)
Record TurnEnv : Type := mkTurnEnv {
  te_slot : Z;
  te_now : Z;
  te_prepare : PrepareEnv;
  te_result : send_result;
  te_after : Z;
  te_prepare_next : PrepareEnv;
}.

(** A transaction that was sent, in which attempt, and the request for
    [skip_preflight]. *)
Record Sent : Type := mkSent {
  sent_tx : Transaction;
  sent_attempt : Z;
  sent_skip_preflight : bool;
}.

(** How a turn ends: [break]; [continue] after a sleep of some seconds; or
    the next attempt from a slot on, after the early grace if asked. *)
Inductive turn_end : Type :=
| TurnBreak
| TurnSleep (secs : Z) (st : LoopState)
| TurnNext (slot : Z) (early_grace : bool) (st : LoopState).

Definition purge_delay (purges_sent : Z) : Z :=
  if 0 <? purges_sent then Z.min (Z.shiftl 1 (Z.min purges_sent 8)) PURGE_RETRY_MAX_SLOTS else 0.

Definition error_delay (use_backoff : bool) (backoff_attempts : Z) : Z :=
  if use_backoff then Z.min (Z.shiftl 1 (Z.min backoff_attempts 5)) 32 else 1.

(** The preparation of the transaction that is sent in this turn. *)
Definition turn_transaction (t : TaskInput) (pv : PreparedVrf) (e : TurnEnv) (st : LoopState) : res Transaction :=
  let expired := is_purge t (te_now e) in
  match prepared_transaction st with
  | Some tx => if negb expired then Ok tx else prepare_transaction t pv (te_prepare e) (attempts st)
  | None => prepare_transaction t pv (te_prepare e) (attempts st)
  end.

(** The body of the loop, from the send on. *)
Definition loop_turn (t : TaskInput) (pv : PreparedVrf) (e : TurnEnv) (st : LoopState) : res (Sent * turn_end) :=
  let first_valid_slot := saturating_add 64 (slot (ti_item t)) 1 in
  let attempt_slot := te_slot e in
  let sent_early := attempt_slot <? first_valid_slot in
  let expired := is_purge t (te_now e) in
  transaction ← turn_transaction t pv e st;
  let skip_preflight := (attempts st =? 0) || first_legal_attempt_pending st in
  let sent := mkSent transaction (attempts st) skip_preflight in
  let accepted := match te_result e with Accepted => true | _ => false end in
  let purges_sent := if accepted && expired then purges_sent st + 1 else purges_sent st in
  let go_on (use_backoff : bool) : res (Sent * turn_end) :=
    let next_attempt := attempts st + 1 in
    prepared ← (if sent_early then Some <$> prepare_transaction t pv (te_prepare_next e) next_attempt else Ok None);
    let retry_slots := Z.max (purge_delay purges_sent) (error_delay use_backoff (backoff_attempts st)) in
    let backoff := if use_backoff then backoff_attempts st + 1 else 0 in
    mret (sent, TurnNext (saturating_add 64 attempt_slot retry_slots) (sent_early && accepted)
      (mkLoopState next_attempt backoff purges_sent sent_early prepared)) in
  match te_result e with
  | Accepted => go_on false
  | Refused code =>
    if code =? error_code RandomnessRequestNotFound then mret (sent, TurnBreak)
    else
      let use_backoff := negb (code =? error_code OracleMustProvideInDifferentSlot) in
      if code =? ANCHOR_CONSTRAINT_ADDRESS_ERROR then
        let until_expiry := Z.max 0 (QUEUE_TTL_SECONDS - host_age_secs (te_after e) (ti_item t)) + 1 in
        mret (sent, TurnSleep until_expiry
          (mkLoopState (attempts st) (backoff_attempts st) purges_sent sent_early None))
      else go_on use_backoff
  | Failed => go_on true
  end.

(** The loop, as long as there are turns to observe: what was sent, and the
    state of the loop or nothing when the task has ended. *)
Fixpoint loop_run (t : TaskInput) (pv : PreparedVrf) (envs : list TurnEnv) (st : LoopState)
    : res (list Sent * option LoopState) :=
  if attempts st <? 100 then
    match envs with
    | [] => Ok ([], Some st)
    | e :: envs =>
      '(sent, how) ← loop_turn t pv e st;
      match how with
      | TurnBreak => mret ([sent], None)
      | TurnSleep _ st' | TurnNext _ _ st' =>
        '(rest, final) ← loop_run t pv envs st';
        mret (sent :: rest, final)
      end
    end
  else Ok ([], None).

(** The whole task: the proof and the first transaction are prepared before
    the loop. *)
Definition request_task (t : TaskInput) (first : PrepareEnv) (envs : list TurnEnv)
    : res (list Sent * option LoopState) :=
  pv ← prepare_vrf (ti_keys t) (item_id (ti_item t));
  tx ← prepare_transaction t pv first 0;
  loop_run t pv envs (mkLoopState 0 0 0 false (Some tx)).

(** [send_transaction]: the configuration of the send. *)
Definition send_skip_preflight (client_skip_preflight : bool) (s : Sent) : bool :=
  client_skip_preflight && sent_skip_preflight s.
End Prepare.
