(* ===== verification/OracleRun.v ===== *)
(** * The oracle service: start-up, subscriptions and the main loop

    [vrf-oracle/src/main.rs], and of [oracle/client.rs] the whole client
    ([OracleClient::new]), [create_update_source] and [run] up to its loop;
    [queue_memcmp_filter] of [oracle/utils.rs]. The answers of the RPC node
    are arguments, [None] where the call fails. *)

From S2P Require Import Prelude Pod Api QueueLayout QueueAccount Solana Accounts Instructions Verify Handlers Provide Vrf Registry Sdk OracleClock OracleTasks OracleSources OracleSend.

(** ** [utils.rs] *)

(** The filter of [solana_client] that is used. *)
Inductive RpcFilterType : Type := Memcmp (offset : Z) (bytes : list byte).

Definition queue_memcmp_filter : list RpcFilterType := [Memcmp 0 (discriminator_to_bytes DQueue)].

(** ** The client *)

Section Client.
Context {rt : Runtime} {dk : Dalek} {ds : DelegationSdk}.

Record OracleClient : Type := mkOracleClient {
  oracle_keys : OracleKeys;
  rpc_url : string;
  websocket_url : string;
  laserstream_endpoint : option string;
  laserstream_api_key : option string;
  client_skip_preflight : bool;
  client_state : OracleState;
  slot_tracker : SlotTracker;
  priority_fee_cache : option (Z * Z);
}.

Definition OracleClient_new (keypair pubkey : list byte) (rpc ws : string) (endpoint api_key : option string)
    (skip_preflight : bool) : res OracleClient :=
  k ← OracleKeys_new keypair pubkey;
  mret (mkOracleClient k rpc ws endpoint api_key skip_preflight (OracleState_new pubkey) SlotTracker_new None).

Definition with_state (c : OracleClient) (st : OracleState) : OracleClient :=
  mkOracleClient (oracle_keys c) (rpc_url c) (websocket_url c) (laserstream_endpoint c) (laserstream_api_key c)
    (client_skip_preflight c) st (slot_tracker c) (priority_fee_cache c).

Definition with_tracker (c : OracleClient) (t : SlotTracker) : OracleClient :=
  mkOracleClient (oracle_keys c) (rpc_url c) (websocket_url c) (laserstream_endpoint c) (laserstream_api_key c)
    (client_skip_preflight c) (client_state c) t (priority_fee_cache c).

(** [priority_fee] of the client, see [OracleSend.v]: an ephemeral rollup is
    one for which delegation statuses are kept. *)
Definition client_priority_fee (now : Z) (now' : Z) (cache' : option (Z * Z)) (estimate : option f64) (stored_at : Z)
    (c : OracleClient) : Z * option (Z * Z) :=
  priority_fee (match delegated_queue_statuses (client_state c) with Some _ => true | None => false end)
    now (priority_fee_cache c) now' cache' estimate stored_at.

(** ** [create_update_source] *)

(** What a subscription asks for: accounts of an owner that pass filters. *)
Record account_filter : Type := mkAccountFilter {
  af_owner : list byte;
  af_filters : list RpcFilterType;
}.

(** The gRPC stream carries slots (of every commitment, and those between)
    and block metadata as well; the web socket has a second subscription for
    slots. *)
Inductive update_source : Type :=
| LaserstreamSource (api_key endpoint : string) (accounts : account_filter)
    (slots_by_commitment slots_interslot blocks_meta : bool)
| WebSocketSource (url : string) (accounts : account_filter).

(** [parse]: the endpoint as a URL; [program_subscribe] and [slot_subscribe]:
    whether the web socket connects. The gRPC stream connects by itself. *)
Definition create_update_source (parse : string → option string) (program_subscribe slot_subscribe : bool)
    (c : OracleClient) : option update_source :=
  match laserstream_api_key c, laserstream_endpoint c with
  | Some api_key, Some endpoint =>
    endpoint ← parse endpoint;
    Some (LaserstreamSource api_key endpoint
            (mkAccountFilter ID [Memcmp 0 (discriminator_to_bytes DQueue)]) false true true)
  | _, _ =>
    if program_subscribe && slot_subscribe
    then Some (WebSocketSource (websocket_url c) (mkAccountFilter ID queue_memcmp_filter))
    else None
  end.

Definition source_accounts (s : update_source) : account_filter :=
  match s with LaserstreamSource _ _ a _ _ _ | WebSocketSource _ a => a end.

(** ** [run], up to the loop *)

(** [initialize_delegated_queue_filter]; [version] says whether the node that
    answered [getVersion] is an ephemeral rollup. *)
Definition client_initialize_filter (version : option bool) (c : OracleClient) : option OracleClient :=
  is_er ← version;
  Some (with_state (with_tracker c (set_is_er is_er (slot_tracker c)))
          (initialize_delegated_queue_filter is_er (client_state c))).

(** [getProgramAccounts] answers with the accounts, and with a context slot if
    the node supports that. *)
Definition scan_answer : Type := option (option Z * list keyed_account).

Definition fetch_program_accounts (scan : scan_answer) (delegation : list byte → option bool) : option (list view) :=
  '(context_slot, accounts) ← scan;
  scan_views context_slot delegation accounts.

Record StartEnv : Type := mkStartEnv {
  se_version : option bool;
  se_blockhash : option (list byte * Z);
  se_now : Z;
  se_scan : scan_answer;
  se_delegation : list byte → option bool;
}.

(** How it ends: an error, with the cache whose refresh task was spawned, if
    it got that far; a panic; or the loop is reached, and the views of the
    first scan are to be processed. *)
Inductive start_end : Type :=
| StartFailed (cache : option CacheData)
| StartPanicked
| Started (cache : CacheData) (views : list view).

Definition run_start (e : StartEnv) (c : OracleClient) : OracleClient * start_end :=
  match client_initialize_filter (se_version e) c with
  | None => (c, StartFailed None)
  | Some c =>
    match BlockhashCache_new (se_blockhash e) (se_now e) with
    | Ok cache =>
      let '(_, initial_slot) := get_blockhash_and_slot cache in
      let c := with_tracker c (update initial_slot (slot_tracker c)) in
      match fetch_program_accounts (se_scan e) (se_delegation e) with
      | None => (c, StartFailed (Some cache))
      | Some views => (c, Started cache views)
      end
    | _ => (c, StartPanicked)
    end
  end.

(** ** [main.rs] *)

Definition DEFAULT_IDENTITY : string :=
  "D4fURjsRpMj1vzfXqHgL94UeJyXR8DFyfyBDmbY647PnpuDzszvbRocMQu6Tzr1LUzBTQvXjarCxeb94kSTqvYx".

Record Args : Type := mkArgs {
  arg_identity : option string;
  arg_rpc_url : string;
  arg_websocket_url : string;
  arg_laserstream_api_key : option string;
  arg_laserstream_endpoint : option string;
  arg_http_port : option Z;
  arg_skip_preflight : bool;
}.

(** The values of [args.rs] without arguments and environment. *)
Definition default_args : Args :=
  mkArgs None "http://localhost:8899" "ws://localhost:8900" None None None true.

(** The server is bound to its port, or the process panics. *)
Definition start_http_server (bind : Z → bool) (port : Z) : res unit := ensure_or_panic (bind port).

(** Up to the loop: a bad identity or a port that is taken panics.
    [from_base58_string] gives the bytes of a keypair and its public key. *)
Definition main_setup (from_base58_string : string → option (list byte * list byte)) (bind : Z → bool) (a : Args)
    : res OracleClient :=
  let identity := default DEFAULT_IDENTITY (arg_identity a) in
  '(keypair, pubkey) ← expect (from_base58_string identity);
  c ← OracleClient_new keypair pubkey (arg_rpc_url a) (arg_websocket_url a) (arg_laserstream_endpoint a)
        (arg_laserstream_api_key a) (arg_skip_preflight a);
  match arg_http_port a with
  | Some port => start_http_server bind port
  | None => Ok ()
  end;;
  mret c.

(** The loop: [run] is called again three seconds after an error; it never
    returns from its own loop. What has been reached when the observed starts
    are used up, and the caches of failed starts: their refresh tasks go on. *)
Inductive main_end : Type :=
| MainStarting
| MainPanicked
| MainServing (cache : CacheData) (views : list view).

Fixpoint main_loop (envs : list StartEnv) (c : OracleClient) : OracleClient * list CacheData * main_end :=
  match envs with
  | [] => (c, [], MainStarting)
  | e :: envs =>
    match run_start e c with
    | (c, StartFailed cache) =>
      let '(c, caches, how) := main_loop envs c in
      (c, match cache with Some cache => cache :: caches | None => caches end, how)
    | (c, StartPanicked) => (c, [], MainPanicked)
    | (c, Started cache views) => (c, [], MainServing cache views)
    end
  end.

(** The HTTP server: the bodies of [GET /stats]; anything else is not found. *)
Definition stats_service (is_get : bool) (path : string) (c : OracleClient)
    : option (gmap queue_key Z * gmap queue_key f64) :=
  if is_get && String.eqb path "/stats"
  then Some (queue_stats (client_state c), avg_response_slots (client_state c))
  else None.
End Client.
