(* ===== verification/RunTheorems.v ===== *)
(** * The oracle service: start-up and subscriptions, theorems *)

From S2P Require Import Prelude Pod Api QueueLayout QueueAccount Solana Accounts Instructions Verify Handlers Provide Vrf Registry Sdk OracleClock ClockTheorems OracleTasks OracleSources SourceTheorems OracleSend OracleRun.

(** ** Filters *)

(** What [solana_client] documents for [memcmp]: the bytes at the offset. *)
Definition filter_matches (data : list byte) (f : RpcFilterType) : Prop :=
  match f with Memcmp offset bytes => offset + zlen bytes ≤ zlen data ∧ slice data offset (offset + zlen bytes) = bytes end.

Definition account_matches (a : Account) (f : account_filter) : Prop :=
  a_owner a = af_owner f ∧ Forall (filter_matches (a_data a)) (af_filters f).

Lemma queue_filter_app acc : Forall (filter_matches (discriminator_to_bytes DQueue ++ acc)) queue_memcmp_filter.
Proof.
  constructor; [|constructor]. cbn [filter_matches]. rewrite zlen_app, zlen_discriminator.
  pose proof (zlen_nonneg acc). split; [lia|]. rewrite <- (app_nil_r (discriminator_to_bytes DQueue)) at 2. 
  unfold slice. cbn [Z.to_nat]. by rewrite app_nil_r.
Qed.

Section Run.
Context {rt : Runtime} {dk : Dalek} {ds : DelegationSdk}.

(** ** Retries of the start *)

(** The calls of a start that can fail, in their order. *)
Definition version_fails (e : StartEnv) : Prop := se_version e = None.
Definition blockhash_fails (e : StartEnv) : Prop := is_Some (se_version e) ∧ se_blockhash e = None.
Definition scan_fails (e : StartEnv) : Prop :=
  is_Some (se_version e) ∧ is_Some (se_blockhash e) ∧ fetch_program_accounts (se_scan e) (se_delegation e) = None.
Definition all_answered (e : StartEnv) : Prop :=
  is_Some (se_version e) ∧ is_Some (se_blockhash e) ∧ is_Some (fetch_program_accounts (se_scan e) (se_delegation e)).

(** What a start leaves alone: everything but the slot tracker and the
    delegation statuses, which an ephemeral rollup starts anew. *)
Record same_client (c c' : OracleClient) : Prop := {
  sc_config : (oracle_keys c', rpc_url c', websocket_url c', laserstream_endpoint c', laserstream_api_key c',
               client_skip_preflight c', priority_fee_cache c') =
              (oracle_keys c, rpc_url c, websocket_url c, laserstream_endpoint c, laserstream_api_key c,
               client_skip_preflight c, priority_fee_cache c);
  sc_state : client_state c' = client_state c ∨ client_state c' = initialize_delegated_queue_filter true (client_state c);
  sc_slot : current (slot_tracker c) ≤ current (slot_tracker c');
}.

#[global] Instance same_client_refl : Reflexive same_client.
Proof. intros c. split; [done|by left|lia]. Qed.

#[global] Instance same_client_trans : Transitive same_client.
Proof.
  intros c1 c2 c3 [H1 Hs1 Ht1] [H2 Hs2 Ht2]. split; [congruence| |lia].
  destruct Hs1 as [Hs1|Hs1], Hs2 as [Hs2|Hs2]; rewrite Hs2, Hs1; auto.
Qed.

Lemma filter_off (st : OracleState) : initialize_delegated_queue_filter false st = st.
Proof. by destruct st. Qed.

Lemma client_filter_same version c c' : client_initialize_filter version c = Some c' → same_client c c'.
Proof.
  destruct version as [is_er|]; [|done]. intros [= <-]. split; [done| |done].
  cbn. destruct is_er; [by right|left; apply filter_off].
Qed.

Lemma with_tracker_same c slot : same_client c (with_tracker c (update slot (slot_tracker c))).
Proof. split; [done|by left|]. cbn. rewrite update_current. lia. Qed.

(** One start. *)
Lemma run_start_spec e c :
  let '(c', how) := run_start e c in
  same_client c c' ∧
  match how with
  | StartFailed None => version_fails e
  | StartPanicked => blockhash_fails e
  | StartFailed (Some _) => scan_fails e
  | Started cache views =>
      all_answered e ∧ fetch_program_accounts (se_scan e) (se_delegation e) = Some views ∧
      se_blockhash e = Some (cache_blockhash cache, cache_slot cache) ∧ cache_slot cache ≤ current (slot_tracker c')
  end.
Proof.
  unfold run_start, version_fails, blockhash_fails, scan_fails, all_answered.
  destruct (client_initialize_filter (se_version e) c) as [c1|] eqn:Hf.
  - apply client_filter_same in Hf as Hsame. assert (is_Some (se_version e)) as Hv by (destruct (se_version e); done).
    unfold BlockhashCache_new. destruct (se_blockhash e) as [[h s]|] eqn:Hb; [|done].
    cbn [get_blockhash_and_slot cache_blockhash cache_slot].
    assert (same_client c (with_tracker c1 (update s (slot_tracker c1)))) as Hsame1
      by (etrans; [exact Hsame|apply with_tracker_same]).
    destruct (fetch_program_accounts _ _) as [views|] eqn:Hs; (split; [exact Hsame1|]); [|by split_and!; eauto].
    split_and!; eauto. cbn. rewrite update_current. lia.
  - split; [done|]. destruct (se_version e); [done|by unfold client_initialize_filter in Hf].
Qed.

Definition scan_fails_bool (e : StartEnv) : bool :=
  match se_version e, se_blockhash e, fetch_program_accounts (se_scan e) (se_delegation e) with
  | Some _, Some _, None => true
  | _, _, _ => false
  end.

(** C26. Starting the service against an unreliable node: as long as only the
    version or the first scan fails it keeps retrying, and it serves from the
    first start in which all three calls succeed, with a slot tracker that is
    not behind its blockhash; but the process ends with a panic at the first
    start in which the version arrives and the blockhash does not. Failed
    starts lose nothing: requests in flight, tasks and statistics are as
    before, and the tracker never goes back. Each failed scan leaves one more
    task that refreshes an abandoned cache. *)
Theorem start_retries envs c :
  let '(c', caches, how) := main_loop envs c in
  same_client c c' ∧
  ∃ pre post, envs = pre ++ post ∧ Forall (λ e, version_fails e ∨ scan_fails e) pre ∧
    length caches = length (filter scan_fails_bool pre) ∧
    match how with
    | MainStarting => post = []
    | MainPanicked => ∃ e, head post = Some e ∧ blockhash_fails e
    | MainServing cache views =>
        ∃ e, head post = Some e ∧ all_answered e ∧
          fetch_program_accounts (se_scan e) (se_delegation e) = Some views ∧
          se_blockhash e = Some (cache_blockhash cache, cache_slot cache) ∧
          cache_slot cache ≤ current (slot_tracker c')
    end.
Proof.
  revert c. induction envs as [|e envs IH]; intros c; cbn [main_loop].
  { split; [done|]. by exists [], []. }
  pose proof (run_start_spec e c) as Hs. destruct (run_start e c) as [c1 [cache| |cache views]].
  - specialize (IH c1). destruct (main_loop envs c1) as [[c' caches] how].
    destruct Hs as [Hsame Hs], IH as (Hsame' & pre & post & -> & Hpre & Hlen & Hhow).
    split; [by etrans|]. exists (e :: pre), post. split; [done|].
    assert (Forall (λ e, version_fails e ∨ scan_fails e) (e :: pre) ∧
      length (match cache with Some cache => cache :: caches | None => caches end) =
      length (filter scan_fails_bool (e :: pre))) as [? ?].
    { destruct cache as [cache|].
      - pose proof Hs as ([v Hv] & [b Hb] & Hf).
        assert (scan_fails_bool e = true) as Hsf by (unfold scan_fails_bool; by rewrite Hv, Hb, Hf).
        rewrite filter_cons, decide_True by (by rewrite Hsf).
        split; [constructor; [by right|done]|cbn; by rewrite Hlen].
      - pose proof Hs as Hv. unfold version_fails in Hv.
        assert (scan_fails_bool e = false) as Hsf by (unfold scan_fails_bool; by rewrite Hv).
        rewrite filter_cons, decide_False by (rewrite Hsf; by intros []).
        split; [constructor; [by left|done]|done]. }
    split; [assumption|]. split; [assumption|]. done.
  - destruct Hs as [Hsame Hs]. split; [done|]. exists [], (e :: envs). split_and!; [done|constructor|done|]. by exists e.
  - destruct Hs as [Hsame Hs]. split; [done|]. exists [], (e :: envs). split_and!; [done|constructor|done|]. by exists e.
Qed.

(** ** Subscriptions *)

(** Whichever source is configured and connects, it asks for the accounts of
    the program that pass the filter of the scans; a gRPC stream is used
    exactly when a key and an endpoint are both given. *)
Lemma create_update_source_spec parse ps ss c s :
  create_update_source parse ps ss c = Some s →
  source_accounts s = mkAccountFilter ID queue_memcmp_filter ∧
  (match s with
   | LaserstreamSource key endpoint _ _ _ _ =>
       laserstream_api_key c = Some key ∧ ∃ e, laserstream_endpoint c = Some e ∧ parse e = Some endpoint
   | WebSocketSource url _ =>
       url = websocket_url c ∧ ps = true ∧ ss = true ∧
       (laserstream_api_key c = None ∨ laserstream_endpoint c = None)
   end).
Proof.
  unfold create_update_source. destruct (laserstream_api_key c) as [k|], (laserstream_endpoint c) as [e|];
    [destruct (parse e) eqn:Hp; [|done]; cbn; intros [= <-]; split; [done|]; by eauto| | |];
    destruct ps, ss; cbn; try done; intros [= <-]; auto 10.
Qed.
End Run.
