(* ===== verification/SendTheorems.v ===== *)
(** * The oracle service: theorems on transactions and retries

    What a prepared transaction spends and how attempts differ, the waits and
    the end of the retry loop. *)

From S2P Require Import Prelude Pod Api QueueLayout QueueAccount Solana Accounts Instructions Verify Handlers Provide Vrf Registry Sdk OracleClock OracleTasks OracleSend.

Section Send.
Context {rt : Runtime} {dk : Dalek} {ds : DelegationSdk}.

(** ** One transaction *)

Lemma as_u32_mod256 a : as_u32 (a mod 256) = a mod 256.
Proof. unfold as_u32, wrap. rewrite Z.mod_small; [done|]. pose proof (Z.mod_pos_bound a 256). lia. Qed.

Lemma compute_budget_cases item purge a :
  ∃ base, compute_budget item purge a = base + a mod 256 ∧
    ((purge = true ∧ base = 1000000) ∨
     (purge = false ∧ base = if priority_request item =? 1 then 400000 else 300000)).
Proof.
  unfold compute_budget. rewrite as_u32_mod256. destruct purge; [by exists 1000000; auto|].
  eexists. split; [done|]. right. split; [done|]. by destruct (priority_request item) as [|[]|].
Qed.

Lemma attempt_price_bounds fee budget a :
  0 < budget ≤ 2 ^ 32 → 0 ≤ attempt_price fee budget a ∧ budget * attempt_price fee budget a ≤ 60000 * 10 ^ 6.
Proof.
  intros Hb. unfold attempt_price, saturating_mul, MAX_PRIORITY_FEE_LAMPORTS.
  rewrite (Z.min_l (60000 * 1000000)) by lia. set (m := 60000 * 1000000 / budget).
  assert (0 ≤ as_u64 (Z.shiftl fee (Z.min (a / 8) 4))) as H0 by (unfold as_u64, wrap; apply Z.mod_pos_bound; lia).
  assert (0 ≤ m) by (apply Z.div_pos; lia).
  pose proof (Z.mul_div_le (60000 * 1000000) budget ltac:(lia)) as Hm. fold m in Hm. split; [lia|]. nia.
Qed.

(** The instructions of a prepared transaction. *)
Lemma prepare_transaction_Ok t pv env a tx :
  prepare_transaction t pv env a = Ok tx →
  ∃ ix limit price, request_instruction t pv (is_purge t (pe_now env)) = Ok ix ∧
    limit = compute_budget (ti_item t) (is_purge t (pe_now env)) a ∧
    price = attempt_price (pe_priority_fee env) limit a ∧
    tx = mkTransaction
      (SetComputeUnitLimit limit :: ProgramInstruction ix :: if 0 <? price then [SetComputeUnitPrice price] else [])
      (keypair_pubkey (ti_keys t)) (pe_blockhash env).
Proof.
  unfold prepare_transaction. destruct (request_instruction _ _ _) as [ix|e|]; [|done|done].
  cbn [mbind outcome_bind]. intros [= <-]. eexists _, _, _. by split_and!.
Qed.

(** The limits of two attempts differ, whichever instructions they are for. *)
Lemma compute_budget_inj item p1 a1 p2 a2 :
  0 ≤ a1 < 256 → 0 ≤ a2 < 256 → compute_budget item p1 a1 = compute_budget item p2 a2 → a1 = a2.
Proof.
  intros H1 H2 Heq. destruct (compute_budget_cases item p1 a1) as (b1 & E1 & C1).
  destruct (compute_budget_cases item p2 a2) as (b2 & E2 & C2). rewrite E1, E2 in Heq.
  rewrite !Z.mod_small in Heq by lia. destruct (priority_request item =? 1); lia.
Qed.

Lemma prepare_distinct t pv env a tx env' a' tx' :
  0 ≤ a < 256 → 0 ≤ a' < 256 →
  prepare_transaction t pv env a = Ok tx → prepare_transaction t pv env' a' = Ok tx' → a ≠ a' → tx ≠ tx'.
Proof.
  intros Ha Ha' (ix & limit & price & _ & -> & _ & ->)%prepare_transaction_Ok
    (ix' & limit' & price' & _ & -> & _ & ->)%prepare_transaction_Ok Hne [= Heq].
  apply Hne. by eapply compute_budget_inj.
Qed.

(** C24. A prepared transaction asks for a compute limit, then has the VRF
    instruction at index 1 (where the send loop expects its errors), and at
    most one price after it. The instruction is a purge exactly when the
    request has expired on the host. The priority fee it offers, limit times
    price, never exceeds 60000 lamports, whatever the endpoint estimated; up
    to that cap the estimate doubles every eight attempts, four times at
    most. And the transactions of two attempts of one request always differ,
    so that a retry under the same blockhash is not taken for a duplicate. *)
Theorem prepare_transaction_spec t pv env a tx env' a' tx' :
  0 ≤ a < 256 → 0 ≤ a' < 256 → fits 64 (pe_priority_fee env) →
  prepare_transaction t pv env a = Ok tx → prepare_transaction t pv env' a' = Ok tx' →
  tx_payer tx = keypair_pubkey (ti_keys t) ∧ tx_blockhash tx = pe_blockhash env ∧
  (∃ limit ix prices, tx_instructions tx = SetComputeUnitLimit limit :: ProgramInstruction ix :: prices ∧
     request_instruction t pv (QUEUE_TTL_SECONDS <? host_age_secs (pe_now env) (ti_item t)) = Ok ix ∧
     300000 ≤ limit < 1000256 ∧
     (prices = [] ∨ ∃ price, prices = [SetComputeUnitPrice price] ∧ 0 < price ∧ limit * price ≤ 60000 * 10 ^ 6) ∧
     (16 * pe_priority_fee env < 2 ^ 64 →
        prices = (let price := Z.min (pe_priority_fee env * 2 ^ Z.min (a / 8) 4) (60000 * 10 ^ 6 / limit) in
                  if 0 <? price then [SetComputeUnitPrice price] else []))) ∧
  (a ≠ a' → tx ≠ tx').
Proof.
  intros Ha Ha' Hfee Htx Htx'. pose proof (prepare_distinct _ _ _ _ _ _ _ _ Ha Ha' Htx Htx') as Hne.
  apply prepare_transaction_Ok in Htx as (ix & limit & price & Hix & Hl & Hp & ->).
  destruct (compute_budget_cases (ti_item t) (is_purge t (pe_now env)) a) as (base & Hb & Hbase).
  rewrite Z.mod_small in Hb by lia.
  assert (300000 ≤ limit < 1000256) as Hlim by (destruct (priority_request (ti_item t) =? 1); lia).
  destruct (attempt_price_bounds (pe_priority_fee env) limit a) as [Hp0 Hpl]; [lia|]. rewrite <- Hp in Hp0, Hpl.
  split; [done|]. split; [done|]. split; [|done].
  - exists limit, ix, (if 0 <? price then [SetComputeUnitPrice price] else []). cbn [tx_instructions].
    split; [done|]. split; [exact Hix|]. split; [done|]. split.
    + destruct (Z.ltb_spec 0 price); [right; exists price|by left]. done.
    + intros H16. cbv zeta. replace price with (Z.min (pe_priority_fee env * 2 ^ Z.min (a / 8) 4) (60000 * 10 ^ 6 / limit)); [done|].
      rewrite Hp. unfold attempt_price, saturating_mul, MAX_PRIORITY_FEE_LAMPORTS. rewrite (Z.min_l _ (2 ^ 64 - 1)) by lia.
      assert (0 ≤ a / 8) by (apply Z.div_pos; lia).
      rewrite Z.shiftl_mul_pow2 by lia. unfold as_u64, wrap. rewrite Z.mod_small; [done|].
      assert (2 ^ Z.min (a / 8) 4 ≤ 2 ^ 4) by (apply Z.pow_le_mono_r; lia).
      assert (0 < 2 ^ Z.min (a / 8) 4) by (apply Z.pow_pos_nonneg; lia). unfold fits in Hfee. nia.
Qed.

(** ** One turn of the loop *)

(** The answer that keeps the attempt: an address constraint of the callback. *)
Definition address_error (r : send_result) : bool :=
  match r with Refused code => code =? ANCHOR_CONSTRAINT_ADDRESS_ERROR | _ => false end.

(** The answer that ends the task. *)
Definition not_found (r : send_result) : bool :=
  match r with Refused code => code =? error_code RandomnessRequestNotFound | _ => false end.

(** Whether the loop backs off. *)
Definition backs_off (r : send_result) : bool :=
  match r with
  | Accepted => false
  | Refused code => negb (code =? error_code OracleMustProvideInDifferentSlot)
  | Failed => true
  end.

(** The transaction kept for the next turn was prepared for its attempt. *)
Definition prepared_ok (t : TaskInput) (pv : PreparedVrf) (st : LoopState) : Prop :=
  ∀ tx, prepared_transaction st = Some tx → ∃ env, prepare_transaction t pv env (attempts st) = Ok tx.

Definition next_purges (t : TaskInput) (e : TurnEnv) (st : LoopState) : Z :=
  match te_result e with
  | Accepted => if is_purge t (te_now e) then purges_sent st + 1 else purges_sent st
  | _ => purges_sent st
  end.

Lemma loop_turn_Ok t pv e st s how :
  loop_turn t pv e st = Ok (s, how) →
  sent_attempt s = attempts st ∧ turn_transaction t pv e st = Ok (sent_tx s) ∧
  sent_skip_preflight s = (attempts st =? 0) || first_legal_attempt_pending st ∧
  match how with
  | TurnBreak => not_found (te_result e) = true
  | TurnSleep secs st' =>
      not_found (te_result e) = false ∧ address_error (te_result e) = true ∧
      secs = Z.max 0 (QUEUE_TTL_SECONDS - host_age_secs (te_after e) (ti_item t)) + 1 ∧
      attempts st' = attempts st ∧ purges_sent st' = purges_sent st ∧
      backoff_attempts st' = backoff_attempts st ∧ prepared_transaction st' = None
  | TurnNext sl grace st' =>
      not_found (te_result e) = false ∧ address_error (te_result e) = false ∧
      sl = saturating_add 64 (te_slot e)
             (Z.max (purge_delay (next_purges t e st)) (error_delay (backs_off (te_result e)) (backoff_attempts st))) ∧
      attempts st' = attempts st + 1 ∧ purges_sent st' = next_purges t e st ∧
      backoff_attempts st' = (if backs_off (te_result e) then backoff_attempts st + 1 else 0) ∧
      prepared_ok t pv st'
  end.
Proof.
  unfold loop_turn. destruct (turn_transaction t pv e st) as [tx|er|]; [|done|done].
  cbn [mbind outcome_bind]. cbv zeta.
  set (nx := te_prepare_next e). unfold next_purges.
  destruct (is_purge t (te_now e)) eqn:Hex, (te_result e) as [|code|] eqn:Hres;
    cbn [andb not_found address_error backs_off];
    try (destruct (code =? error_code RandomnessRequestNotFound); [intros [= <- <-]; done|]);
    try (destruct (code =? ANCHOR_CONSTRAINT_ADDRESS_ERROR); [intros [= <- <-]; done|]);
    destruct (te_slot e <? _); cbn [fmap outcome_fmap mbind outcome_bind];
    try (destruct (prepare_transaction t pv nx (attempts st + 1)) as [tx'|er|] eqn:Hp; [|done|done]);
    intros [= <- <-]; cbn [sent_attempt sent_tx sent_skip_preflight attempts purges_sent backoff_attempts];
    split_and!; try done.
  all: intros tx0 [= <-]; by exists nx.
Qed.

Lemma turn_transaction_prepared t pv e st tx :
  prepared_ok t pv st → turn_transaction t pv e st = Ok tx →
  ∃ env, prepare_transaction t pv env (attempts st) = Ok tx.
Proof.
  intros Hok. unfold turn_transaction. destruct (prepared_transaction st) as [tx0|] eqn:Hp; [|by eauto].
  destruct (is_purge t (te_now e)); cbn [negb]; [by eauto|]. intros [= <-]. by apply Hok.
Qed.

Lemma pow2_min b k : 0 ≤ b → 0 ≤ k → Z.shiftl 1 (Z.min b k) = Z.min (2 ^ b) (2 ^ k).
Proof.
  intros. rewrite Z.shiftl_mul_pow2, Z.mul_1_l by lia. destruct (Z.le_ge_cases b k).
  - rewrite !Z.min_l; [done| |done]. apply Z.pow_le_mono_r; lia.
  - rewrite !Z.min_r; [done| |lia]. apply Z.pow_le_mono_r; lia.
Qed.

Lemma purge_delay_bounds n :
  0 ≤ n → 0 ≤ purge_delay n ≤ 256 ∧ (n = 0 → purge_delay n = 0) ∧ (0 < n → purge_delay n = Z.min (2 ^ n) 256).
Proof.
  intros Hn. unfold purge_delay, PURGE_RETRY_MAX_SLOTS. rewrite pow2_min by lia.
  assert (0 < 2 ^ n) by (apply Z.pow_pos_nonneg; lia). change (2 ^ 8) with 256.
  destruct (Z.ltb_spec 0 n); split_and!; lia.
Qed.

Lemma error_delay_eq b n :
  0 ≤ n → error_delay b n = (if b then Z.min (2 ^ n) 32 else 1) ∧ 1 ≤ error_delay b n ≤ 32.
Proof.
  intros Hn. unfold error_delay. rewrite pow2_min by lia.
  assert (0 < 2 ^ n) by (apply Z.pow_pos_nonneg; lia). change (2 ^ 5) with 32. destruct b; split; lia.
Qed.

(** C25. How long a task waits after a send: at least until the next slot and
    at most 256 slots. After an accepted fulfilment, or when it was merely
    sent too early, it tries again in the next slot; the [k]-th error in a
    row costs [2^(k-1)] slots, at most 32; and after [n] accepted purges of a
    request that does not go away the wait is at least [2^n] slots, up to
    256. After a refusal of a callback address it sleeps until one second
    past the request's expiry on its clock. *)
Theorem retry_delays t pv e st s how :
  0 ≤ purges_sent st → 0 ≤ backoff_attempts st → 0 ≤ te_slot e → te_slot e + 256 < 2 ^ 64 →
  loop_turn t pv e st = Ok (s, how) →
  match how with
  | TurnBreak => te_result e = Refused (error_code RandomnessRequestNotFound)
  | TurnSleep secs _ =>
      te_result e = Refused ANCHOR_CONSTRAINT_ADDRESS_ERROR ∧ 1 ≤ secs ∧
      QUEUE_TTL_SECONDS < host_age_secs (te_after e) (ti_item t) + secs
  | TurnNext sl _ st' =>
      te_slot e + 1 ≤ sl ≤ te_slot e + 256 ∧
      (purges_sent st' = 0 →
         sl = te_slot e + if backs_off (te_result e) then Z.min (2 ^ backoff_attempts st) 32 else 1) ∧
      (0 < purges_sent st' → te_slot e + Z.min (2 ^ purges_sent st') 256 ≤ sl) ∧
      (backs_off (te_result e) = true →
         te_slot e + Z.min (2 ^ backoff_attempts st) 32 ≤ sl ∧ backoff_attempts st' = backoff_attempts st + 1) ∧
      (backs_off (te_result e) = false → backoff_attempts st' = 0)
  end.
Proof.
  intros Hp Hb Hs0 Hs Hturn. apply loop_turn_Ok in Hturn as (_ & _ & _ & Hhow). destruct how as [|secs st'|sl g st'].
  - unfold not_found in Hhow. destruct (te_result e) as [|code|]; [done| |done]. by apply Z.eqb_eq in Hhow as ->.
  - destruct Hhow as (_ & Ha & -> & _). unfold address_error in Ha.
    destruct (te_result e) as [|code|]; [done| |done]. apply Z.eqb_eq in Ha as ->. split; [done|]. lia.
  - destruct Hhow as (_ & _ & -> & _ & -> & -> & _).
    assert (0 ≤ next_purges t e st) as Hn by (unfold next_purges; destruct (te_result e); [destruct (is_purge _ _)|..]; lia).
    destruct (purge_delay_bounds (next_purges t e st) Hn) as (Hd & Hd0 & Hd1).
    destruct (error_delay_eq (backs_off (te_result e)) (backoff_attempts st) Hb) as [He Heb].
    unfold saturating_add. rewrite Z.min_l by lia. rewrite He in *. split; [lia|]. split; [intros ?; rewrite Hd0; lia|].
    split; [intros; lia|]. destruct (backs_off (te_result e)); split; intros; try done; lia.
Qed.

(** ** The loop *)

(** The attempts that the first [k] answers use up. *)
Definition used_up (k : nat) (envs : list TurnEnv) : Z :=
  zlen (filter (λ e, address_error (te_result e) = false) (take k envs)).

Lemma used_up_0 envs : used_up 0 envs = 0.
Proof. done. Qed.

Lemma used_up_nonneg k envs : 0 ≤ used_up k envs.
Proof. apply zlen_nonneg. Qed.

Lemma used_up_S k e envs :
  used_up (S k) (e :: envs) = (if address_error (te_result e) then 0 else 1) + used_up k envs.
Proof.
  unfold used_up. cbn [take]. destruct (address_error (te_result e)) eqn:He.
  - rewrite filter_cons_False by (by rewrite He). lia.
  - rewrite filter_cons_True, zlen_cons by done. lia.
Qed.

Definition sent_for (t : TaskInput) (pv : PreparedVrf) (s : Sent) : Prop :=
  ∃ env, prepare_transaction t pv env (sent_attempt s) = Ok (sent_tx s).

Lemma loop_run_spec t pv envs st sents final :
  loop_run t pv envs st = Ok (sents, final) → prepared_ok t pv st → attempts st ≤ 100 →
  (length sents ≤ length envs)%nat ∧
  (∀ i s, sents !! i = Some s →
     sent_attempt s = attempts st + used_up i envs ∧ sent_attempt s < 100 ∧ sent_for t pv s) ∧
  match final with
  | Some st' => length sents = length envs ∧ attempts st' = attempts st + used_up (length envs) envs ∧ attempts st' < 100
  | None => attempts st + used_up (length sents) envs = 100 ∨
            ∃ k e, length sents = S k ∧ envs !! k = Some e ∧ not_found (te_result e) = true
  end.
Proof.
  revert st sents final. induction envs as [|e envs IH]; intros st sents final; cbn [loop_run].
  { destruct (Z.ltb_spec (attempts st) 100); intros [= <- <-] _ ?; (split; [done|]); (split; [done|]).
    - cbn [length]. rewrite used_up_0. split_and!; [done|lia|lia].
    - left. cbn [length]. rewrite used_up_0. lia. }
  destruct (Z.ltb_spec (attempts st) 100) as [Hlt|].
  2: { intros [= <- <-] _ ?. split; [cbn; lia|]. split; [done|]. left. cbn [length]. rewrite used_up_0. lia. }
  destruct (loop_turn t pv e st) as [[s how]|er|] eqn:Hturn; [|done|done]. cbn [mbind outcome_bind].
  intros Hrun Hok Hle. pose proof (loop_turn_Ok _ _ _ _ _ _ Hturn) as (Hsa & Htx & _ & Hhow).
  destruct (turn_transaction_prepared _ _ _ _ _ Hok Htx) as [env Henv]. rewrite <- Hsa in Henv.
  assert (∀ st', (match how with TurnBreak => False | TurnSleep _ st1 | TurnNext _ _ st1 => st' = st1 end) →
    prepared_ok t pv st' ∧ attempts st' = attempts st + (if address_error (te_result e) then 0 else 1)) as Hst'.
  { intros st' Hst. destruct how as [|secs st1|sl g st1]; [done|subst st'..].
    - destruct Hhow as (_ & -> & _ & -> & _ & _ & Hp). split; [intros tx; by rewrite Hp|lia].
    - by destruct Hhow as (_ & -> & _ & -> & _ & _ & Hp). }
  assert (∀ st', (match how with TurnBreak => False | TurnSleep _ st1 | TurnNext _ _ st1 => st' = st1 end) →
    ('(rest, final0) ← loop_run t pv envs st'; mret (s :: rest, final0)) = Ok (sents, final) →
    (length sents ≤ S (length envs))%nat ∧
    (∀ i s', sents !! i = Some s' →
       sent_attempt s' = attempts st + used_up i (e :: envs) ∧ sent_attempt s' < 100 ∧ sent_for t pv s') ∧
    match final with
    | Some st2 => length sents = S (length envs) ∧
        attempts st2 = attempts st + used_up (S (length envs)) (e :: envs) ∧ attempts st2 < 100
    | None => attempts st + used_up (length sents) (e :: envs) = 100 ∨
              ∃ k e', length sents = S k ∧ (e :: envs) !! k = Some e' ∧ not_found (te_result e') = true
    end) as Hgo.
  { intros st' Hst. destruct (Hst' st' Hst) as [Hok' Hat].
    destruct (loop_run t pv envs st') as [[rest final0]|er|] eqn:Hrest; [|done|done]. cbn [mbind outcome_bind].
    intros [= <- <-]. destruct (IH st' rest final0 Hrest Hok') as (Hlen & Hall & Hfin).
    { destruct (address_error (te_result e)); lia. }
    split; [cbn [length]; lia|]. split.
    - intros [|i] s'; cbn [lookup list_lookup].
      + intros [= <-]. rewrite used_up_0. split_and!; [lia|lia|by exists env].
      + intros Hi. destruct (Hall i s' Hi) as (-> & H1 & H2). rewrite used_up_S. split_and!; [lia|lia|done].
    - destruct final0 as [st2|]; cbn [length].
      + destruct Hfin as (-> & -> & H1). rewrite used_up_S. split_and!; [done|lia|lia].
      + destruct Hfin as [H1|(k & e' & H1 & H2 & H3)].
        * left. rewrite used_up_S. lia.
        * right. exists (S k), e'. by rewrite H1. }
  destruct how as [|secs st'|sl g st'].
  - injection Hrun as <- <-. split; [cbn; lia|]. split.
    + intros [|i] s'; [|done]. intros [= <-]. rewrite used_up_0. split_and!; [lia|lia|by exists env].
    + right. by exists 0%nat, e.
  - by apply (Hgo st').
  - by apply (Hgo st').
Qed.

(** C22. The task of a request, over any answers it may get. It sends a
    transaction per answer; the one it sends after [n] answers that were not
    address errors of the callback belongs to attempt [n], was prepared for
    that attempt, with a proof computed from the oracle's key and the id of
    the request, and differs from the transactions of all other attempts.
    The task makes at most 100 such attempts: after 100 answers other than
    address errors it has ended, and it ends before only when the program
    answers that the request is not in the queue. *)
Theorem request_task_spec t first envs sents final :
  request_task t first envs = Ok (sents, final) →
  (length sents ≤ length envs)%nat ∧
  (∃ pv, prepare_vrf (ti_keys t) (item_id (ti_item t)) = Ok pv ∧ Forall (sent_for t pv) sents) ∧
  (∀ i s, sents !! i = Some s → sent_attempt s = used_up i envs ∧ sent_attempt s < 100) ∧
  (∀ s1 s2, s1 ∈ sents → s2 ∈ sents → sent_attempt s1 ≠ sent_attempt s2 → sent_tx s1 ≠ sent_tx s2) ∧
  (100 ≤ used_up (length envs) envs → final = None) ∧
  (final = None → used_up (length sents) envs = 100 ∨
     ∃ k e, length sents = S k ∧ envs !! k = Some e ∧
       te_result e = Refused (error_code RandomnessRequestNotFound)).
Proof.
  unfold request_task. destruct (prepare_vrf _ _) as [pv|er|]; [|done|done]. cbn [mbind outcome_bind].
  destruct (prepare_transaction t pv first 0) as [tx|er|] eqn:Htx; [|done|done]. cbn [mbind outcome_bind].
  intros Hrun. destruct (loop_run_spec _ _ _ _ _ _ Hrun) as (Hlen & Hall & Hfin); [|cbn; lia|].
  { intros tx0 [= <-]. by exists first. }
  cbn [attempts] in *. split; [done|]. split.
  { exists pv. split; [done|]. apply Forall_forall. intros s [i Hi]%list_elem_of_lookup. by apply (Hall i). }
  split; [intros i s Hi; destruct (Hall i s Hi) as (Ha & ? & _); split; [lia|done]|].
  split.
  { intros s1 s2 [i Hi]%list_elem_of_lookup [j Hj]%list_elem_of_lookup Hne Heq.
    destruct (Hall i s1 Hi) as (Ha1 & Hl1 & e1 & He1), (Hall j s2 Hj) as (Ha2 & Hl2 & e2 & He2).
    pose proof (used_up_nonneg i envs). pose proof (used_up_nonneg j envs).
    eapply (prepare_distinct t pv e1 (sent_attempt s1) _ e2 (sent_attempt s2)); [lia|lia|exact He1|exact He2|done|exact Heq]. }
  split.
  - intros H100. destruct final as [st'|]; [|done]. lia.
  - intros ->. destruct Hfin as [?|(k & e & H1 & H2 & H3)]; [left; lia|]. right. exists k, e.
    split; [done|]. split; [done|]. unfold not_found in H3.
    destruct (te_result e) as [|code|]; [done| |done]. by apply Z.eqb_eq in H3 as ->.
Qed.
End Send.
