(* ===== verification/SendSchedule.v ===== *)
(** * The oracle service: when transactions are sent

    The task of a request ([OracleSend.v]) run against the slot tracker
    ([OracleClock.v]), which moves while the task waits: which slots the
    attempts of a request are sent in. *)

From S2P Require Import Prelude Pod Api QueueLayout QueueAccount Solana Accounts Instructions Verify Handlers Provide Vrf Registry Sdk OracleClock ClockTheorems OracleTasks OracleSend SendTheorems.

(** ** The task and the tracker *)

Section Schedule.
Context {rt : Runtime} {dk : Dalek} {ds : DelegationSdk}.

(** Where the task is: at the loop's condition and the wait for the first
    valid slot, past that wait, waiting for a slot after a turn (and sleeping
    the early grace, if asked), asleep after an address error, or past the
    loop. *)
Inductive task_point : Type :=
| AtLoop (st : LoopState)
| Due (st : LoopState)
| WaitingFor (target : Z) (early_grace : bool) (st : LoopState)
| Asleep (secs : Z) (st : LoopState)
| Ended.

Definition point_after (how : turn_end) : task_point :=
  match how with
  | TurnBreak => Ended
  | TurnSleep secs st => Asleep secs st
  | TurnNext target grace st => WaitingFor target grace st
  end.

Record scheduled : Type := mkScheduled { sd_tracker : SlotTracker; sd_point : task_point }.

Definition first_valid_slot (t : TaskInput) : Z := saturating_add 64 (slot (ti_item t)) 1.

(** The wait at the top of the loop is over: the first attempt may end it
    early, at the deadline of [wait_for_slot_early]. *)
Definition wait_over (t : TaskInput) (tr : SlotTracker) (st : LoopState) : Prop :=
  if attempts st =? 0
  then ∃ now a, early_wait_turn (first_valid_slot t) now tr = Ok a ∧ a ≠ WaitChange
  else wait_turn (first_valid_slot t) tr = WaitDone.

Inductive scheduled_step (t : TaskInput) (pv : PreparedVrf) : scheduled → option (Z * Sent) → scheduled → Prop :=
| sched_tracker ev tr p :
    scheduled_step t pv (mkScheduled tr p) None (mkScheduled (tracker_step tr ev) p)
| sched_due tr st :
    attempts st < 100 → wait_over t tr st →
    scheduled_step t pv (mkScheduled tr (AtLoop st)) None (mkScheduled tr (Due st))
| sched_send e tr st s how :
    te_slot e = current tr → loop_turn t pv e st = Ok (s, how) →
    scheduled_step t pv (mkScheduled tr (Due st)) (Some (current tr, s)) (mkScheduled tr (point_after how))
| sched_exhausted tr st :
    100 ≤ attempts st → scheduled_step t pv (mkScheduled tr (AtLoop st)) None (mkScheduled tr Ended)
| sched_waited tr target grace st :
    wait_turn target tr = WaitDone →
    scheduled_step t pv (mkScheduled tr (WaitingFor target grace st)) None (mkScheduled tr (AtLoop st))
| sched_woken tr secs st :
    scheduled_step t pv (mkScheduled tr (Asleep secs st)) None (mkScheduled tr (AtLoop st)).

(** A run, and what was sent in which slot, in order. *)
Inductive scheduled_run (t : TaskInput) (pv : PreparedVrf) (x0 : scheduled) : list (Z * Sent) → scheduled → Prop :=
| run_nothing : scheduled_run t pv x0 [] x0
| run_snoc sends x out x' :
    scheduled_run t pv x0 sends x → scheduled_step t pv x out x' →
    scheduled_run t pv x0 (sends ++ option_list out) x'.

(** The start of the loop, with the first transaction prepared. *)
Definition task_begin (tr : SlotTracker) (tx : Transaction) : scheduled :=
  mkScheduled tr (AtLoop (mkLoopState 0 0 0 false (Some tx))).

(** ** One turn *)

Lemma loop_turn_pending t pv e st s how :
  loop_turn t pv e st = Ok (s, how) →
  match how with
  | TurnBreak => True
  | TurnSleep _ st' | TurnNext _ _ st' => first_legal_attempt_pending st' = (te_slot e <? first_valid_slot t)
  end.
Proof.
  unfold loop_turn. destruct (turn_transaction t pv e st) as [tx|er|]; [|done|done].
  cbn [mbind outcome_bind]. cbv zeta. fold (first_valid_slot t).
  destruct (te_result e) as [|code|]; [|destruct (code =? error_code _); [intros [= <- <-]; done|];
    destruct (code =? ANCHOR_CONSTRAINT_ADDRESS_ERROR); [intros [= <- <-]; done|]|];
    destruct (te_slot e <? first_valid_slot t); cbn [fmap outcome_fmap mbind outcome_bind];
    try (destruct (prepare_transaction _ _ _ _); [|done|done]); by intros [= <- <-].
Qed.

(** The wait after a turn is at least until the next slot. *)
Lemma loop_turn_wait t pv e st s target grace st' :
  0 ≤ purges_sent st → 0 ≤ backoff_attempts st → te_slot e + 256 < 2 ^ 64 →
  loop_turn t pv e st = Ok (s, TurnNext target grace st') →
  te_slot e < target ∧ attempts st' = attempts st + 1 ∧ 0 ≤ purges_sent st' ∧ 0 ≤ backoff_attempts st'.
Proof.
  intros Hp Hb Hs (_ & _ & _ & _ & _ & -> & -> & -> & -> & _)%loop_turn_Ok.
  assert (0 ≤ next_purges t e st) as Hn by (unfold next_purges; destruct (te_result e); [destruct (is_purge _ _)|..]; lia).
  destruct (purge_delay_bounds _ Hn) as ([? ?] & _).
  destruct (error_delay_eq (backs_off (te_result e)) (backoff_attempts st) Hb) as [_ ?].
  unfold saturating_add. split_and!; [lia|done|done|]. destruct (backs_off _); lia.
Qed.

(** ** The invariant *)

(** What is known of the sends so far when the state of the loop is [st]:
    [before] bounds the slots of earlier attempts. *)
Record sends_ok (t : TaskInput) (sends : list (Z * Sent)) (slot_now : Z) (before : Z → Prop) (st : LoopState) : Prop := {
  so_counters : 0 ≤ attempts st ∧ 0 ≤ purges_sent st ∧ 0 ≤ backoff_attempts st;
  so_attempts : Forall (λ '(sl, s), sl ≤ slot_now ∧ sent_attempt s ≤ attempts st) sends;
  so_before : Forall (λ '(sl, s), sent_attempt s < attempts st → before sl) sends;
  so_pending : first_legal_attempt_pending st = true → attempts st ≤ 1;
}.

Definition point_ok (t : TaskInput) (sends : list (Z * Sent)) (x : scheduled) : Prop :=
  let now := current (sd_tracker x) in
  match sd_point x with
  | AtLoop st => sends_ok t sends now (λ sl, sl < now) st
  | Due st => sends_ok t sends now (λ sl, sl < now) st ∧ (attempts st = 0 ∨ first_valid_slot t ≤ now)
  | WaitingFor target _ st => sends_ok t sends now (λ sl, sl < target) st
  | Asleep _ st => sends_ok t sends now (λ sl, sl < now) st
  | Ended => True
  end.

(** One after the other: attempts in order, later attempts in later slots,
    only the first attempt before the first valid slot, and preflight skipped
    by the first two attempts at most. *)
Definition in_order (p1 p2 : Z * Sent) : Prop :=
  sent_attempt (snd p1) ≤ sent_attempt (snd p2) ∧ fst p1 ≤ fst p2 ∧
  (sent_attempt (snd p1) ≠ sent_attempt (snd p2) → fst p1 < fst p2).

Definition send_ok (t : TaskInput) (p : Z * Sent) : Prop :=
  (fst p < first_valid_slot t → sent_attempt (snd p) = 0) ∧
  (sent_skip_preflight (snd p) = true → sent_attempt (snd p) ≤ 1).

Record trace_ok (t : TaskInput) (sends : list (Z * Sent)) (x : scheduled) : Prop := {
  tk_nonneg : 0 ≤ current (sd_tracker x);
  tk_point : point_ok t sends x;
  tk_sends : Forall (send_ok t) sends;
  tk_order i j p1 p2 : (i < j)%nat → sends !! i = Some p1 → sends !! j = Some p2 → in_order p1 p2;
}.

Lemma sends_ok_later t sends now now' (before before' : Z → Prop) st :
  now ≤ now' → (∀ sl, before sl → before' sl) → sends_ok t sends now before st → sends_ok t sends now' before' st.
Proof.
  intros Hle Himp [Hc Ha Hb Hp]. split; [done| | |done].
  - eapply Forall_impl; [exact Ha|]. intros [sl s] []. lia.
  - eapply Forall_impl; [exact Hb|]. intros [sl s] H Hlt. by apply Himp, H.
Qed.

Lemma point_ok_tracker t sends tr ev p :
  0 ≤ current tr → point_ok t sends (mkScheduled tr p) → point_ok t sends (mkScheduled (tracker_step tr ev) p).
Proof.
  intros H0. unfold point_ok. cbn [sd_tracker sd_point]. rewrite (tracker_step_current tr ev H0).
  destruct p as [st|st|target g st|secs st|]; [| | | |done]; intros H.
  - eapply sends_ok_later; [| |exact H]; [lia|cbn; lia].
  - destruct H as [H Hw]. split; [|lia]. eapply sends_ok_later; [| |exact H]; [lia|cbn; lia].
  - eapply sends_ok_later; [| |exact H]; [lia|done].
  - eapply sends_ok_later; [| |exact H]; [lia|cbn; lia].
Qed.

Lemma wait_over_slot t tr st : wait_over t tr st → attempts st = 0 ∨ first_valid_slot t ≤ current tr.
Proof.
  unfold wait_over. destruct (Z.eqb_spec (attempts st) 0) as [?|Hne]; [by left|right].
  unfold wait_turn in *. destruct (Z.leb_spec (first_valid_slot t) (current tr)); [done|discriminate].
Qed.

(** A send keeps to the order, and the loop goes on in order. *)
Lemma send_point_ok t pv e st sends s how tr :
  current tr + 256 < 2 ^ 64 → te_slot e = current tr → loop_turn t pv e st = Ok (s, how) →
  point_ok t sends (mkScheduled tr (Due st)) →
  point_ok t (sends ++ [(current tr, s)]) (mkScheduled tr (point_after how)) ∧
  send_ok t (current tr, s) ∧ Forall (λ p, in_order p (current tr, s)) sends.
Proof.
  unfold point_ok. cbn [sd_tracker sd_point]. intros Hfit Hslot Hturn [[(Ha0 & Hp0 & Hb0) Ha Hb Hpd] Hw].
  pose proof (loop_turn_pending _ _ _ _ _ _ Hturn) as Hpend.
  pose proof (loop_turn_Ok _ _ _ _ _ _ Hturn) as (Hatt & _ & Hskip & Hhow). split; [|split].
  - destruct how as [|secs st'|target grace st']; cbn [point_after]; [done| |].
    + destruct Hhow as (_ & _ & _ & Ha' & Hp' & Hb' & _). split.
      * by rewrite Ha', Hp', Hb'.
      * apply Forall_app. rewrite Ha'. split; [done|]. repeat constructor; lia.
      * apply Forall_app. rewrite Ha'. split; [done|]. constructor; [lia|constructor].
      * rewrite Hpend, Ha', Hslot. intros Hlt%Z.ltb_lt. lia.
    + destruct (loop_turn_wait _ _ _ _ _ _ _ _ Hp0 Hb0 ltac:(by rewrite Hslot) Hturn) as (Hlt & Ha' & Hp' & Hb').
      rewrite Hslot in Hlt. split; [lia| | |].
      * apply Forall_app. rewrite Ha'. split; [|repeat constructor; lia].
        eapply Forall_impl; [exact Ha|]. intros [sl s0] []. lia.
      * apply Forall_app. split; [|constructor; [done|constructor]].
        eapply Forall_impl; [exact Ha|]. intros [sl s0] [] _. lia.
      * rewrite Hpend, Ha', Hslot. intros Hlt'%Z.ltb_lt. lia.
  - split; cbn [fst snd]; [rewrite Hatt; lia|]. rewrite Hskip, Hatt.
    intros [?%Z.eqb_eq|?%Hpd]%orb_true_iff; lia.
  - rewrite Forall_forall in Ha, Hb |- *. intros [sl s0] Hin.
    destruct (Ha _ Hin) as [Hle1 Hle2]. specialize (Hb _ Hin). cbn in Hb. split; cbn [fst snd]; [lia|].
    split; [done|]. intros Hne. apply Hb. lia.
Qed.

Lemma trace_ok_step t pv sends x out x' :
  current (sd_tracker x) + 256 < 2 ^ 64 → trace_ok t sends x → scheduled_step t pv x out x' →
  trace_ok t (sends ++ option_list out) x'.
Proof.
  intros Hfit [H0 Hp Hs Ho] Hst.
  destruct Hst as [ev tr p|tr st Hat Hw|e tr st s how Hslot Hturn|tr st Hat|tr target grace st Hw|tr secs st];
    cbn [option_list sd_tracker] in *; rewrite ?app_nil_r.
  - split; [|by apply point_ok_tracker|done|done]. cbn. rewrite tracker_step_current by done. lia.
  - split; [done| |done|done]. split; [exact Hp|by apply wait_over_slot].
  - destruct (send_point_ok _ _ _ _ _ _ _ _ Hfit Hslot Hturn Hp) as (Hp' & Hsend & Hord). split; [done|done| |].
    + apply Forall_app. split; [done|]. constructor; [done|constructor].
    + intros i j p1 p2 Hij Hi Hj. rewrite Forall_forall in Hord.
      apply lookup_app_Some in Hj as [Hj|[Hlen Hj]].
      * rewrite lookup_app_l in Hi by (apply lookup_lt_Some in Hj; lia). by eapply Ho.
      * apply list_lookup_singleton_Some in Hj as [Hj <-].
        rewrite lookup_app_l in Hi by lia. by apply Hord, (list_elem_of_lookup_2 _ i).
  - by split.
  - split; [done| |done|done]. unfold point_ok in *. cbn [sd_tracker sd_point] in *.
    unfold wait_turn in Hw. destruct (Z.leb_spec target (current tr)); [|done].
    eapply sends_ok_later; [| |exact Hp]; [lia|cbn; lia].
  - by split.
Qed.

Lemma tracker_never_back t pv x out x' :
  0 ≤ current (sd_tracker x) → scheduled_step t pv x out x' → current (sd_tracker x) ≤ current (sd_tracker x').
Proof. intros H0 Hst. destruct Hst as [ev tr p| | | | |]; cbn [sd_tracker] in *; try lia. rewrite (tracker_step_current tr ev H0). lia. Qed.

(** C23. When a task sends. However the slot tracker moves while it waits: the
    attempts of a request are made in order and in strictly increasing slots,
    so at most one per slot, save that the same attempt is repeated after an
    address error; only the very first attempt can be sent before the first
    slot in which the program accepts a fulfilment; and the preflight check
    is skipped by the first attempt and at most one more. *)
Theorem send_schedule t pv tr tx sends x :
  0 ≤ current tr → scheduled_run t pv (task_begin tr tx) sends x → current (sd_tracker x) + 256 < 2 ^ 64 →
  (∀ i j slot1 s1 slot2 s2, (i < j)%nat → sends !! i = Some (slot1, s1) → sends !! j = Some (slot2, s2) →
     sent_attempt s1 ≤ sent_attempt s2 ∧ slot1 ≤ slot2 ∧ (sent_attempt s1 ≠ sent_attempt s2 → slot1 < slot2)) ∧
  (∀ slot1 s1, (slot1, s1) ∈ sends →
     (slot1 < first_valid_slot t → sent_attempt s1 = 0) ∧
     (sent_skip_preflight s1 = true → sent_attempt s1 ≤ 1)).
Proof.
  intros H0 Hrun Hfit.
  assert (trace_ok t sends x) as [_ _ Hs Ho].
  { induction Hrun as [|sends x out x' Hrun IH Hst].
    - split; [done| |constructor|by intros ? ? ? ?]. by repeat constructor; cbn.
    - assert (0 ≤ current (sd_tracker x)) as Hx.
      { clear -H0 Hrun. induction Hrun as [|? ? ? ? ? IH Hst]; [done|]. pose proof (tracker_never_back _ _ _ _ _ IH Hst). lia. }
      pose proof (tracker_never_back _ _ _ _ _ Hx Hst). eapply trace_ok_step; [|apply IH|exact Hst]; lia. }
  split.
  - intros i j slot1 s1 slot2 s2 Hij Hi Hj. exact (Ho i j _ _ Hij Hi Hj).
  - intros slot1 s1 Hin. rewrite Forall_forall in Hs. exact (Hs _ Hin).
Qed.
End Schedule.
