(* ===== verification/Fulfilment.v ===== *)
(** * From a queue view to a fulfilled request

    The oracle service and the on-chain program together: the transaction
    that the service prepares for a request is accepted by the program. The
    oracle's proof ([Vrf.v]), the instruction builder ([Sdk.v]), the view of
    the queue ([QueueSpec.v]) and the handler ([Provide.v]) meet here. *)

From S2P Require Import Prelude Pod Api QueueLayout QueueAccount QueueInv QueueScan QueueAdd QueueSpec Solana Accounts Instructions Verify Handlers Provide Reason Laws ProvideTheorems Vrf Registry Sdk SdkTheorems OracleClock OracleTasks OracleSend SendTheorems.

(** ** The handler, run forward *)

Section Forward.
Context {rt : Runtime} {ob : OraclesBorsh} {rb : RequestBorsh}.

Lemma has_disallowed_upd_data accounts σ k d :
  has_disallowed_executable_callback_account accounts (upd_data σ k d) =
  has_disallowed_executable_callback_account accounts σ.
Proof.
  unfold has_disallowed_executable_callback_account. induction accounts as [|i l IH]; [done|].
  cbn [existsb]. rewrite IH. f_equal. f_equal. unfold is_program. destruct (decide (k = key i)) as [<-|Hne].
  - by rewrite get_upd_data.
  - by rewrite get_upd_data_ne.
Qed.

(** The callback signs with the identity of the request's mode. *)
Lemma invoke_callback_run x r ix cb pid rem σ σ' seeds :
  removed_as x r → callback_identity r rem σ (key pid) seeds →
  invoke_signed ix (cb :: pid :: rem) seeds σ = Ok σ' →
  invoke_callback x ix cb pid rem σ = Ok ((), σ').
Proof.
  intros [Hp _ Hmode Hbump _ _ _] Hid Hinv. unfold callback_identity in Hid. unfold invoke_callback.
  rewrite Hp, Hmode, Hbump. destruct (r_identity_mode r =? 1).
  - destruct Hid as [Hc ->]. erewrite M_step by (apply lift_Ok; split; [by rewrite Hc|done]).
    erewrite M_check by (by apply has_address_Ok). by apply run_store_Ok.
  - destruct Hid as (Hk & -> & Hno). erewrite M_check by (apply require_Ok; by rewrite Hno).
    erewrite M_check by (by apply has_address_Ok). by apply run_store_Ok.
Qed.

(** The accounts of a [provide_randomness] instruction, on chain. *)
Record provide_accounts_ok (o od q : AccountInfo) (oracle : Oracle) (σ : Store) : Prop := {
  po_signer : info_is_signer o = true;
  po_seeds : key od = fst (find_program_address [ORACLE_DATA; key o] ID);
  po_owner : owner_at σ (key od) = ID;
  po_oracle : try_from_bytes (data_at σ (key od)) = Ok oracle;
  po_writable : info_is_writable q = true;
  po_queue_owner : owner_at σ (key q) = ID;
}.

(** What the handler needs of the request, besides the proof. *)
Record can_provide (o : list byte) (r : request) (clock : Clock) : Prop := {
  cp_clock : clock_get = Ok clock;
  cp_slot : r_slot r < clock_slot clock;
  cp_metas : Forall (λ m, meta_pubkey m ≠ o) (r_metas r);
}.

Lemma provide_randomness_runs o pid od q cb rem d σ args oracle header acc rs i r clock :
  args_try_from_bytes d = Ok args → provide_accounts_ok o od q oracle σ →
  data_at σ (key q) = discriminator_to_bytes DQueue ++ acc → represents acc rs →
  Queue_try_from_bytes (data_at σ (key q)) = Ok header →
  key q = fst (find_program_address [QUEUE; key o; [byte.of_Z (queue_index header)]] ID) →
  list_find (λ r, r_id r = pr_input args) rs = Some (i, r) → can_provide (key o) r clock →
  verify_vrf (vrf_pubkey oracle) (pr_input args) (pr_output args) (proof_of args) = true →
  key cb = r_program r →
  ∃ acc', represents acc' (delete i rs) ∧
    let σ1 := upd_data σ (key q) (discriminator_to_bytes DQueue ++ acc') in
    ∀ seeds σ2, callback_identity r rem σ1 (key pid) seeds →
      invoke_signed (callback_of r (key pid) (pr_output args)) (cb :: pid :: rem) seeds σ1 = Ok σ2 →
      process_provide_randomness (o :: pid :: od :: q :: cb :: rem) d σ =
      (if negb (is_fee_exempt_ephemeral_queue (key q)) then transfer_fee q o (r_cost r) else mret ()) σ2.
Proof.
  intros Hargs [] Hd Hrep Hh Hqk Hf [] Hv Hcb.
  pose proof (provide_queue_step_spec acc rs args (key o) (vrf_pubkey oracle) Hrep) as Hs.
  cbv zeta in Hs. rewrite Hf in Hs.
  assert (existsb (λ m, bytes_eqb (meta_pubkey m) (key o)) (r_metas r) = false) as Hex.
  { apply not_true_iff_false. intros (m & Hm%list_elem_of_In & Heq%bytes_eqb_eq)%existsb_exists.
    rewrite Forall_forall in cp_metas0. by apply (cp_metas0 m). }
  rewrite Hex, cp_clock0 in Hs. destruct (Z.leb_spec (clock_slot clock) (r_slot r)); [lia|].
  rewrite Hv in Hs. destruct Hs as (acc' & x & Hstep & Hra & _ & Hrep'). exists acc'. split; [done|].
  intros σ1 seeds σ2 Hid Hinv. unfold process_provide_randomness.
  erewrite M_step by (by apply lift_Ok). erewrite M_check by (by apply is_signer_Ok).
  erewrite M_check by (by apply has_seeds_Ok).
  erewrite M_step by (apply as_account_Ok; split_and!; [done|by apply try_from_bytes_Ok in po_oracle0 as [? _]|done|done]).
  erewrite M_step by (by apply data_Ok).
  erewrite M_step by (apply lift_Ok; split; [rewrite <- ?Hd; exact Hh|done]).
  erewrite M_check by (by apply is_writable_Ok). erewrite M_check by (by apply has_owner_Ok).
  erewrite M_check by (by apply has_seeds_Ok).
  rewrite (with_queue_eq _ _ _ _ _ _ Hd Hrep), Hstep. fold σ1. pose proof Hra as [Hprog Hprio _ _ Hrm Hrd Hrarg].
  erewrite M_check by (apply has_address_Ok; by rewrite Hprog).
  assert (callback_instruction x (key pid) (pr_output args) = callback_of r (key pid) (pr_output args)) as ->.
  { unfold callback_instruction, callback_of. by rewrite Hprog, Hrm, Hrd, Hrarg. }
  erewrite M_check by (by eapply invoke_callback_run). unfold item_cost, r_cost. by rewrite Hprio.
Qed.
End Forward.

(** ** The lengths of what the proof is made of *)

Lemma represents_id_len acc rs r : represents acc rs → r ∈ rs → zlen (r_id r) = 32.
Proof.
  intros (xs & Hinv & ->) (x & -> & Hx)%list_elem_of_fmap. rewrite <- (live_at_live 16 xs) in Hx.
  apply list_elem_of_fmap in Hx as ([p y] & -> & [n Hn]%list_elem_of_lookup). cbn [snd].
  apply live_at_lookup in Hn as (xs1 & xs2 & -> & -> & _ & _).
  destruct (chain_lookup _ _ _ _ _ _ (qi_chain _ _ Hinv)) as ([_ Hwf _ _ _ _ _] & _ & _).
  apply QueueItem_wf_iff in Hwf. unfold request_of; cbn. tauto.
Qed.

(** Compressed points and scalars are 32 bytes. *)
Class EncodingSizes {dk : Dalek} : Prop := {
  compress_len P : zlen (compress P) = 32;
  scalar_len s : zlen (scalar_to_bytes s) = 32;
}.

(** [find_program_address] finds the address that its bump creates. *)
Class PdaLaws {rt : Runtime} : Prop :=
  find_create seeds p :
    create_program_address (seeds ++ [[byte.of_Z (snd (find_program_address seeds p))]]) p =
    Some (fst (find_program_address seeds p)).

Section Fulfil.
Context {rt : Runtime} {ob : OraclesBorsh} {rb : RequestBorsh} {dk : Dalek} {ds : DelegationSdk}.
Context {laws : RuntimeLaws} {dl : DalekLaws} {sl : SyscallLaws} {es : EncodingSizes} {pl : PdaLaws}.

(** What [prepare_vrf] returns verifies on chain under the oracle's key. *)
Lemma prepare_vrf_Ok k input pv :
  oracle_vrf_pk k = p_mul (oracle_vrf_sk k) basepoint → prepare_vrf k input = Ok pv →
  verify_vrf (compress (oracle_vrf_pk k)) input (pv_output pv)
    (pv_commitment_base pv, pv_commitment_hash pv, pv_s pv) = true ∧
  zlen (pv_output pv) = 32 ∧ zlen (pv_commitment_base pv) = 32 ∧ zlen (pv_commitment_hash pv) = 32 ∧
  zlen (pv_s pv) = 32.
Proof.
  intros Hpk. unfold prepare_vrf. pose proof (compute_vrf_verifies (oracle_vrf_sk k) input) as Hc.
  destruct (compute_vrf (oracle_vrf_sk k) input) as [[out [[cb ch] s]]|e|] eqn:Hcv; [|done|done].
  cbn [mbind outcome_bind]. destruct Hc as (Hv & Hoff & _). rewrite Hpk. cbv zeta in *. rewrite Hoff.
  cbn [mbind outcome_bind]. intros [= <-]. cbn [pv_output pv_commitment_base pv_commitment_hash pv_s].
  split; [done|]. unfold compute_vrf in Hcv. destruct (vrf_hash_to_point input); [|done|done].
  cbn [mbind outcome_bind] in Hcv. destruct (vrf_nonce _ _); [|done|done].
  cbn [mbind outcome_bind mret outcome_ret] in Hcv. injection Hcv as <- <- <- <-.
  by rewrite !compress_len, scalar_len.
Qed.

(** And it never panics on its own assertion. *)
Lemma prepare_vrf_total k input :
  oracle_vrf_pk k = p_mul (oracle_vrf_sk k) basepoint →
  (∃ pv, prepare_vrf k input = Ok pv) ∨ compute_vrf (oracle_vrf_sk k) input = Panic.
Proof.
  intros Hpk. unfold prepare_vrf. pose proof (compute_vrf_verifies (oracle_vrf_sk k) input) as Hc.
  destruct (compute_vrf (oracle_vrf_sk k) input) as [[out [[cb ch] s]]|e|]; [|done|by right].
  left. cbn [mbind outcome_bind]. destruct Hc as (_ & Hoff & _). rewrite Hpk. cbv zeta in *. rewrite Hoff.
  cbn [mbind outcome_bind]. by eexists.
Qed.

(** ** The instruction *)

(** The task was spawned for the request [r]: its item is one of the view's. *)
Definition in_view (t : TaskInput) (r : request) : Prop :=
  ∃ acc rs i, ti_account_bytes t = discriminator_to_bytes DQueue ++ acc ∧ represents acc rs ∧
    iter_items acc !! i = Some (ti_item t) ∧ rs !! i = Some r.

Definition identity_of (r : request) : list byte :=
  if r_identity_mode r =? 1 then fst (scoped_identity_pda (r_program r)) else fst program_identity_pda.

(** The accounts the program sees, of the instruction for [r]. *)
Definition remaining_of (r : request) : list AccountInfo := info_of <$> (to_account_meta <$> r_metas r).

Definition proof_args (r : request) (pv : PreparedVrf) : ProvideRandomness :=
  mkProvideRandomness (r_id r) (pv_output pv) (pv_commitment_base pv) (pv_commitment_hash pv) (pv_s pv).

Lemma request_instruction_fulfil t pv r :
  in_view t r →
  request_instruction t pv false =
    Ok (mkInstruction ID
      ([AccountMeta_new (keypair_pubkey (ti_keys t)) true; AccountMeta_new_readonly (identity_of r) false;
        AccountMeta_new_readonly (fst (oracle_data_pda (keypair_pubkey (ti_keys t)))) false;
        AccountMeta_new (ti_queue t) false; AccountMeta_new_readonly (r_program r) false] ++
       (to_account_meta <$> r_metas r))
      (ix_to_bytes IxProvideRandomness (proof_args r pv))) ∧
  item_id (ti_item t) = r_id r ∧ zlen (r_id r) = 32.
Proof.
  intros (acc & rs & i & Hb & Hrep & Hit & Hr).
  destruct (Forall2_lookup_lr _ _ _ _ _ _ (represents_iter Hrep) Hit Hr) as [Hreads _].
  split; [|split; [apply (ir_id _ _ _ Hreads)|by eapply represents_id_len, list_elem_of_lookup_2]].
  unfold request_instruction. rewrite Hb, zlen_app, zlen_discriminator. pose proof (zlen_nonneg acc).
  rewrite (proj2 (Z.leb_le _ _)) by lia. cbn [ensure_or_panic mbind outcome_bind].
  rewrite slice_disc, Z.add_simpl_l, slice_all, (ir_metas _ _ _ Hreads). cbn [mbind outcome_bind].
  unfold provide_randomness_with_identity_mode, identity_of, proof_args.
  by rewrite (ir_identity_mode _ _ _ Hreads), (ir_program _ _ _ Hreads), (ir_id _ _ _ Hreads).
Qed.

(** ** The task does not panic

    A panic would skip its cleanup and leave the request in flight for good. *)

Lemma prepare_transaction_total t pv r env a :
  in_view t r → ∃ tx, prepare_transaction t pv env a = Ok tx.
Proof.
  intros Hv. unfold prepare_transaction. destruct (is_purge t (pe_now env)); [by eexists|].
  rewrite (proj1 (request_instruction_fulfil t pv r Hv)). by eexists.
Qed.

Lemma loop_turn_total t pv r e st : in_view t r → ∃ s how, loop_turn t pv e st = Ok (s, how).
Proof.
  intros Hv. unfold loop_turn, turn_transaction.
  destruct (prepare_transaction_total t pv r (te_prepare e) (attempts st) Hv) as [tx Htx].
  destruct (prepare_transaction_total t pv r (te_prepare_next e) (attempts st + 1) Hv) as [tx' Htx'].
  rewrite Htx, Htx'.
  assert (∃ tx0, match prepared_transaction st with
    | Some tx0 => if negb (is_purge t (te_now e)) then Ok tx0 else Ok tx | None => Ok tx end = Ok tx0 :> res Transaction)
    as [tx0 ->] by (destruct (prepared_transaction st); [destruct (is_purge _ _)|]; by eexists).
  cbn [mbind outcome_bind]. cbv zeta.
  destruct (te_result e) as [|code|]; [| |]; repeat case_match; simplify_eq; by eexists _, _.
Qed.

Lemma loop_run_total t pv r envs st : in_view t r → ∃ out, loop_run t pv envs st = Ok out.
Proof.
  intros Hv. revert st. induction envs as [|e envs IH]; intros st; cbn [loop_run];
    (destruct (attempts st <? 100); [|by eexists]); [by eexists|].
  destruct (loop_turn_total t pv r e st Hv) as (s & how & ->). cbn [mbind outcome_bind].
  destruct how as [|secs st'|target g st']; [by eexists| |]; destruct (IH st') as [[rest final] ->]; by eexists.
Qed.

(** C21. The task of a request never panics, whatever answers it gets, as long
    as HKDF does not fail: it only gives up its proof when the id of the
    request does not hash to a point, and then no proof for it would verify
    on chain either. *)
Theorem task_never_panics t r first envs :
  in_view t r → oracle_vrf_pk (ti_keys t) = p_mul (oracle_vrf_sk (ti_keys t)) basepoint →
  vrf_nonce (oracle_vrf_sk (ti_keys t)) (r_id r) ≠ Panic →
  (∃ out, request_task t first envs = Ok out) ∨
  (hash_to_point (r_id r) = None ∧ ∀ pk output proof, verify_vrf pk (r_id r) output proof = false).
Proof.
  intros Hv Hk Hnonce. destruct (request_instruction_fulfil t (mkPreparedVrf [] [] [] []) r Hv) as (_ & Hid & _).
  unfold request_task. rewrite Hid. destruct (prepare_vrf_total (ti_keys t) (r_id r) Hk) as [[pv Hpv]|Hpanic].
  - left. rewrite Hpv. cbn [mbind outcome_bind].
    destruct (prepare_transaction_total t pv r first 0 Hv) as [tx ->]. cbn [mbind outcome_bind].
    by eapply loop_run_total.
  - right. pose proof (compute_vrf_verifies (oracle_vrf_sk (ti_keys t)) (r_id r)) as Hc. rewrite Hpanic in Hc.
    destruct Hc as [Hnone|]; [|done]. split; [done|]. intros pk output proof. 
    destruct proof as [[cb ch] s]. unfold verify_vrf. by rewrite Hnone.
Qed.

(** The oracle is registered with its VRF key and owns the queue. *)
Record oracle_on_chain (k : OracleKeys) (q : list byte) (σ : Store) : Prop := {
  oc_keys : oracle_vrf_pk k = p_mul (oracle_vrf_sk k) basepoint;
  oc_owner : owner_at σ (fst (oracle_data_pda (keypair_pubkey k))) = ID;
  oc_oracle : ∃ oracle, try_from_bytes (data_at σ (fst (oracle_data_pda (keypair_pubkey k)))) = Ok oracle ∧
                        vrf_pubkey oracle = compress (oracle_vrf_pk k);
  oc_queue_owner : owner_at σ q = ID;
  oc_queue : ∃ header, Queue_try_from_bytes (data_at σ q) = Ok header ∧
                       q = fst (oracle_queue_pda (keypair_pubkey k) (queue_index header));
}.

(** The callback program of [r] accepts the call once the request has been
    taken out of the queue, from a state that differs from [σ] only there. *)
Record callback_accepts (r : request) (o q output : list byte) (rs' : list request) (σ : Store) : Prop := {
  ca_program : r_program r ≠ ID;
  ca_identity : if r_identity_mode r =? 1 then r_identity_bump r = snd (scoped_identity_pda (r_program r))
                else has_disallowed_executable_callback_account (remaining_of r) σ = false;
  ca_accepts seeds σ1 :
    queue_data (data_at σ1 q) rs' → (∀ k, k ≠ q → get_account σ1 k = get_account σ k) →
    callback_identity r (remaining_of r) σ1 (identity_of r) seeds →
    ∃ σ2, invoke_signed (callback_of r (identity_of r) output)
            (mkInfo (r_program r) false false :: mkInfo (identity_of r) false false :: remaining_of r) seeds σ1 = Ok σ2 ∧
          lamports_at σ2 o + r_cost r < 2 ^ 64;
}.

Lemma callback_identity_of r q d σ :
  (if r_identity_mode r =? 1 then r_identity_bump r = snd (scoped_identity_pda (r_program r))
   else has_disallowed_executable_callback_account (remaining_of r) σ = false) →
  ∃ seeds, callback_identity r (remaining_of r) (upd_data σ q d) (identity_of r) seeds.
Proof.
  intros H. unfold callback_identity, identity_of. destruct (r_identity_mode r =? 1).
  - eexists. split; [|done]. rewrite H. apply (find_create [IDENTITY; r_program r] ID).
  - eexists. split; [done|]. split; [done|]. by rewrite has_disallowed_upd_data.
Qed.

(** The oracle's work is accepted, from any accounts that give what the
    hypotheses ask for; see [oracle_fulfilment_accepted] for the states the
    chain can be in. *)
Lemma fulfilment_accepted t pv env a tx σ rs i r clock :
  let k := ti_keys t in let o := keypair_pubkey k in let q := ti_queue t in
  in_view t r → is_purge t (pe_now env) = false →
  prepare_vrf k (item_id (ti_item t)) = Ok pv → prepare_transaction t pv env a = Ok tx →
  oracle_on_chain k q σ → queue_data (data_at σ q) rs →
  list_find (λ r', r_id r' = r_id r) rs = Some (i, r) → can_provide o r clock →
  callback_accepts r o q (pv_output pv) (delete i rs) σ →
  (is_fee_exempt_ephemeral_queue q = false → q ≠ o ∧ r_cost r ≤ lamports_at σ q) →
  ∃ ix σ', tx_instructions tx !! 1%nat = Some (ProgramInstruction ix) ∧
    run_instruction ix σ = Ok ((), σ') ∧ queue_data (data_at σ' q) (delete i rs).
Proof.
  intros k o q Hview Hnp Hpv Htx [Hkeys Hoo (oracle & Hor & Hvk) Hqo (header & Hh & Hqk)] Hq Hf Hcan
    [Hprog Hidm Hacc] Hfee.
  destruct (request_instruction_fulfil t pv r Hview) as (Hix & Hid & Hlen).
  apply prepare_transaction_Ok in Htx as (ix & limit & price & Hix' & _ & _ & ->).
  rewrite Hnp, Hix in Hix'. injection Hix' as <-. eexists _. rewrite Hid in Hpv.
  destruct (prepare_vrf_Ok k (r_id r) pv Hkeys Hpv) as (Hv & H1 & H2 & H3 & H4).
  destruct Hq as (acc & Hd & Hrep).
  destruct (provide_randomness_runs (mkInfo o true true) (mkInfo (identity_of r) false false)
    (mkInfo (fst (oracle_data_pda o)) false false) (mkInfo q false true) (mkInfo (r_program r) false false)
    (remaining_of r) (bytes_of (proof_args r pv)) σ (proof_args r pv) oracle header acc rs i r clock)
    as (acc' & Hrep' & Hrun); try done.
  { apply args_round_trip. unfold pod_wf, proof_args. cbn. tauto. }
  { by rewrite Hvk. }
  cbn [key] in Hrun. set (σ1 := upd_data σ q (discriminator_to_bytes DQueue ++ acc')) in *.
  destruct (callback_identity_of r q (discriminator_to_bytes DQueue ++ acc') σ Hidm) as [seeds Hseeds].
  assert (queue_data (data_at σ1 q) (delete i rs)) as Hq1 by by apply queue_data_upd.
  destruct (Hacc seeds σ1 Hq1) as (σ2 & Hinv & Hov); [intros k' ?; by apply get_upd_data_ne|done|].
  specialize (Hrun seeds σ2 Hseeds Hinv).
  destruct (cpi_isolation _ _ _ _ _ q Hinv) as (Hl & Hdata & _); [done|by unfold σ1; rewrite owner_upd_data|].
  rewrite <- Hdata in Hq1. unfold σ1 in Hl. rewrite lamports_upd_data in Hl.
  assert (∃ σ', (if negb (is_fee_exempt_ephemeral_queue q)
    then transfer_fee (mkInfo q false true) (mkInfo o true true) (r_cost r) else mret ()) σ2 = Ok ((), σ') ∧
    data_at σ' q = data_at σ2 q) as (σ' & Hpay & Hsame).
  { destruct (is_fee_exempt_ephemeral_queue q); cbn [negb]; [by exists σ2|].
    destruct (Hfee eq_refl) as [Hne Hle]. exists (move_lamports σ2 q o (r_cost r)).
    split; [apply transfer_fee_Ok; cbn [key]; split_and!; [done|lia|done|done]|apply move_lamports_data]. }
  exists σ'. split; [done|]. split; [|by rewrite Hsame].
  rewrite run_handler. etransitivity; [exact Hrun|exact Hpay].
Qed.
End Fulfil.
