(* ===== verification/Chain.v ===== *)
(** * The program on chain: sequences of transactions

    Any accounts may call the program with any data, other programs run in
    between, and time passes. A step of the chain is one successful call of
    [process_instruction] from outside, whatever its accounts and its data,
    or anything that other programs may do by the rules of the runtime. What
    a step can do to the requests of a queue is [queue_change]. *)

From S2P Require Import Prelude Pod Api QueueLayout QueueAccount QueueInv QueueAdd QueueSpec QueueTheorems QueueTiny Solana Accounts Instructions Verify Handlers Provide Reason Laws RequestTheorems ProvideTheorems Registry.

(** ** Rules of the runtime

    [RuntimeLaws] has those a single handler needs; over several transactions
    it also matters what becomes an account of the program. *)

Definition zeroed (d : list byte) : Prop := d = zeros (zlen d).

Class ChainLaws {rt : Runtime} : Prop := {
  (** the instructions of the system program are not the program's own *)
  system_program_instructions ix :
    (∃ from to lam space owner, ix = system_create_account from to lam space owner) ∨
    (∃ from to n, ix = system_transfer from to n) ∨ (∃ k n, ix = system_allocate k n) ∨
    (∃ k owner, ix = system_assign k owner) → ix_program_id ix ≠ ID;
  (** an account is given to a program with zeroed data only *)
  cpi_new_accounts ix infos seeds σ σ' k :
    invoke_signed ix infos seeds σ = Ok σ' → ix_program_id ix ≠ ID →
    owner_at σ k ≠ ID → owner_at σ' k = ID → zeroed (data_at σ' k);
  (** delegation may hand over the account it is asked for, the second one,
      and touches no other account of the program but to credit it *)
  delegate_isolation authority pda rest seeds freq validator σ σ' k :
    delegate_account (authority :: pda :: rest) seeds freq validator σ = Ok σ' → owner_at σ k = ID →
    (k ≠ key pda → owner_at σ' k = ID) ∧
    (owner_at σ' k = ID → data_at σ' k = data_at σ k ∧ lamports_at σ k ≤ lamports_at σ' k);
  delegate_new_accounts infos seeds freq validator σ σ' k :
    delegate_account infos seeds freq validator σ = Ok σ' →
    owner_at σ k ≠ ID → owner_at σ' k = ID → zeroed (data_at σ' k);
  delegate_lamports_fit infos seeds freq validator σ σ' :
    (∀ k, fits 64 (lamports_at σ k)) → delegate_account infos seeds freq validator σ = Ok σ' →
    ∀ k, fits 64 (lamports_at σ' k);
  (** rents are [u64]s *)
  rent_fits mb n : rent_get = Ok mb → fits 64 (mb n);
  rent_default_fits n : fits 64 (rent_default_minimum_balance n);
}.

(** The runtime at every time; addresses and hashes do not depend on it. *)
Class Chain : Type := {
  chain_rt : Clock → Runtime;
  chain_runtime_laws c : RuntimeLaws (rt:=chain_rt c);
  chain_laws c : ChainLaws (rt:=chain_rt c);
  chain_clock c clock : fits 64 (clock_slot c) → clock_get (Runtime:=chain_rt c) = Ok clock → clock = c;
  chain_address c c' seeds p :
    find_program_address (Runtime:=chain_rt c) seeds p = find_program_address (Runtime:=chain_rt c') seeds p;
  chain_hash c c' l : hashv (Runtime:=chain_rt c) l = hashv (Runtime:=chain_rt c') l;
}.

(** ** Steps *)

(** A call from outside: nobody but the program itself signs for an address
    that is derived from the program. *)
Definition outer_call {rt : Runtime} (infos : list AccountInfo) : Prop :=
  Forall (λ i, info_is_signer i = true → ∀ seeds, key i ≠ fst (find_program_address seeds ID)) infos.

(** What other programs may do: nothing to an account of the program but
    credit it, and give it new accounts that are zeroed. *)
Record other_programs (σ σ' : Store) : Prop := {
  op_keeps k : owner_at σ k = ID →
    owner_at σ' k = ID ∧ data_at σ' k = data_at σ k ∧ lamports_at σ k ≤ lamports_at σ' k;
  op_new k : owner_at σ k ≠ ID → owner_at σ' k = ID → zeroed (data_at σ' k);
  op_fits : (∀ k, fits 64 (lamports_at σ k)) → ∀ k, fits 64 (lamports_at σ' k);
}.

Section Steps.
Context {chain : Chain} {ob : OraclesBorsh} {rb : RequestBorsh}.

Inductive chain_step (c : Clock) : Store → Store → Prop :=
| program_step infos d σ σ' :
    fits 64 (clock_slot c) →
    outer_call (rt:=chain_rt c) infos →
    process_instruction (rt:=chain_rt c) ID infos d σ = Ok ((), σ') →
    chain_step c σ σ'
| other_step σ σ' : other_programs σ σ' → chain_step c σ σ'.

(** A step at some time, and any number of steps. *)
Definition step_at_some_time (σ σ' : Store) : Prop := ∃ c, chain_step c σ σ'.
Definition chain_run : Store → Store → Prop := rtc step_at_some_time.
End Steps.

(** ** Queues *)

(** Account data that holds the requests [rs]; a queue that was created too
    small for any item holds none. *)
Definition holds_requests (d : list byte) (rs : list request) : Prop :=
  queue_data d rs ∨ (rs = [] ∧ ∃ acc, d = discriminator_to_bytes DQueue ++ acc ∧ tiny acc).

(** The account [k] is a queue of the program with the requests [rs]. *)
Definition queue_at (σ : Store) (k : list byte) (rs : list request) : Prop :=
  owner_at σ k = ID ∧ holds_requests (data_at σ k) rs.

Section Change.
Context {rt : Runtime} {ob : OraclesBorsh} {rb : RequestBorsh}.

(** The queue [k] belongs to the oracle [o]: its address is derived from the
    oracle's key. *)
Definition queue_of (o k : list byte) : Prop := ∃ index, k = fst (oracle_queue_pda o index).

(** A proof for [r] by the oracle [o] of the queue [k], under the VRF key that
    is registered for [o]. *)
Definition proved (σ : Store) (k : list byte) (r : request) : Prop :=
  ∃ o oracle output proof,
    queue_of o k ∧ owner_at σ (fst (oracle_data_pda o)) = ID ∧
    try_from_bytes (data_at σ (fst (oracle_data_pda o))) = Ok oracle ∧
    verify_vrf (vrf_pubkey oracle) (r_id r) output proof = true.

(** What the time [c] can do to a queue with the requests [rs]; nothing is
    left of it when it is closed or delegated. *)
Inductive queue_change (c : Clock) (σ : Store) (k : list byte) (rs : list request) : option (list request) → Prop :=
| change_none : queue_change c σ k rs (Some rs)
| change_request args slothash (hp scoped : bool) pos i :
    request_wf args → rr_callback_program_id args ≠ ID → 0 ≤ i ≤ zlen rs →
    let bump := if scoped then snd (scoped_identity_pda (rr_callback_program_id args)) else 0 in
    queue_change c σ k rs
      (Some (insert_at i (stored_request args (clock_slot c) slothash (clock_unix_timestamp c)
                            hp scoped bump pos) rs))
| change_fulfil i r :
    rs !! i = Some r → r_slot r < clock_slot c → proved σ k r →
    queue_change c σ k rs (Some (delete i rs))
| change_purge :
    queue_change c σ k rs
      (Some (filter (λ r, negb (request_expired (created_at_from (clock_unix_timestamp c)) r)) rs))
| change_gone : rs = [] → queue_change c σ k rs None.
End Change.

(** ** The invariant *)

(** The first byte tells a queue from the other accounts of the program. *)
Definition queue_tag : byte := byte.of_Z (discriminator_tag DQueue).
Definition queue_like (σ : Store) (k : list byte) : Prop :=
  owner_at σ k = ID ∧ head (data_at σ k) = Some queue_tag.

(** A request was made by the program, at its position in the account; it
    calls back another program, and the bump it stores for a scoped identity is
    the one the address is derived with. *)
Definition made_from {rt : Runtime} (r : request) (args : RequestRandomness) (slothash : list byte) (time : Z) : Prop :=
  request_wf args ∧ ∃ hp scoped, r = stored_request args (r_slot r) slothash time hp scoped (r_identity_bump r) (r_pos r).

Record request_ok {rt : Runtime} (r : request) : Prop := {
  ro_program : r_program r ≠ ID;
  ro_bump : r_identity_mode r = 1 → r_identity_bump r = snd (scoped_identity_pda (r_program r));
  ro_made : ∃ args slothash time, made_from r args slothash time;
}.

(** The address of a queue is that of the index in its header. *)
Definition queue_addressed {rt : Runtime} (o d k : list byte) : Prop := k = fst (oracle_queue_pda o (header_index d)).

(** Every account that looks like a queue is one, at the address of an oracle
    and its own index, with requests that can be called back and are paid
    for. *)
Record chain_inv {rt : Runtime} (σ : Store) : Prop := {
  ci_fits k : fits 64 (lamports_at σ k);
  ci_queues k : queue_like σ k → ∃ rs, holds_requests (data_at σ k) rs ∧
    Forall request_ok rs ∧ (∃ o, queue_addressed o (data_at σ k) k) ∧
    (is_fee_exempt_ephemeral_queue k = false → pending_fees rs ≤ lamports_at σ k);
}.

(** ** Reachable states *)

(** Where a chain may start: nothing that looks like a queue has a request. In
    particular a cluster before the program's first transaction, and an
    ephemeral rollup that was handed delegated queues, which are empty. *)
Record genesis {rt : Runtime} (σ : Store) : Prop := {
  gen_queues k : queue_like σ k → holds_requests (data_at σ k) [] ∧ ∃ o, queue_addressed o (data_at σ k) k;
  gen_lamports k : fits 64 (lamports_at σ k);
}.

Definition reachable {chain : Chain} {ob : OraclesBorsh} {rb : RequestBorsh} (σ : Store) : Prop :=
  ∃ c σ0, genesis (rt:=chain_rt c) σ0 ∧ chain_run σ0 σ.
