(* ===== verification/ChainCalm.v ===== *)
(** * What a handler leaves alone

    [calm P σ σ'] says that no account in [P] that looks like a queue changed,
    other than to be credited, and that none came to look like one. Every
    primitive of the handlers is calm for the accounts it is not applied to,
    and calm runs compose. *)

From S2P Require Import Prelude Pod Api QueueLayout QueueAccount QueueInv QueueAdd QueueSpec Solana Accounts Instructions Verify Handlers Provide Reason Laws Registry Chain.

Record calm (P : list byte → Prop) (σ σ' : Store) : Prop := {
  calm_keeps k : P k → queue_like σ k →
    owner_at σ' k = ID ∧ data_at σ' k = data_at σ k ∧ lamports_at σ k ≤ lamports_at σ' k;
  calm_new k : P k → queue_like σ' k → queue_like σ k;
}.

#[global] Instance calm_preorder P : PreOrder (calm P).
Proof.
  split.
  - intros σ. split; [|done]. intros k _ [Ho _]. by split_and!.
  - intros σ1 σ2 σ3 [Hk1 Hn1] [Hk2 Hn2]. split.
    + intros k HP Hq. destruct (Hk1 k HP Hq) as (Ho & Hd & Hl). destruct Hq as [_ Hh].
      destruct (Hk2 k HP) as (Ho' & Hd' & Hl'); [by split; rewrite ?Hd|]. split_and!; [done|congruence|lia].
    + intros k HP Hq. by apply Hn1, Hn2.
Qed.

(** An account outside the program, or whose data begins otherwise. *)
Lemma not_queue_like σ k : owner_at σ k ≠ ID ∨ head (data_at σ k) ≠ Some queue_tag → ¬ queue_like σ k.
Proof. intros H [??]. naive_solver. Qed.

Lemma head_zeros n : head (zeros n) ≠ Some queue_tag.
Proof. unfold zeros. by destruct (Z.to_nat n). Qed.

Lemma head_zeroed d : zeroed d → head d ≠ Some queue_tag.
Proof. intros ->. apply head_zeros. Qed.

Lemma head_discriminator d l : d ≠ DQueue → head (discriminator_to_bytes d ++ l) ≠ Some queue_tag.
Proof. by destruct d. Qed.

Lemma head_app_queue l : head (discriminator_to_bytes DQueue ++ l) = Some queue_tag.
Proof. done. Qed.

Lemma queue_at_like σ k rs : queue_at σ k rs → queue_like σ k.
Proof. intros [Ho [(acc & Hd & _)|(_ & acc & Hd & _)]]; (split; [done|]); by rewrite Hd. Qed.

(** A queue header can only be read from an account that looks like a queue. *)
Lemma Queue_header_like σ k h :
  owner_at σ k = ID → Queue_try_from_bytes (data_at σ k) = Ok h → queue_like σ k.
Proof.
  intros Ho H. split; [done|]. unfold Queue_try_from_bytes in H. inv_outcome.
  match goal with H : bytes_eqb _ _ = true |- _ => apply bytes_eqb_eq in H; rename H into Hd end.
  destruct (data_at σ k) as [|b l]; [by vm_compute in Hd|].
  change (slice (b :: l) 0 8) with (b :: take 7 l) in Hd. cbn. f_equal.
  apply (f_equal head) in Hd. cbn in Hd. injection Hd as Hd. symmetry. exact Hd.
Qed.

(** The accounts of an oracle and of the registry begin otherwise. *)
Lemma Oracle_head d (o : Oracle) : try_from_bytes d = Ok o → head d ≠ Some queue_tag.
Proof.
  intros (Hl & Hs & _)%try_from_bytes_Ok. destruct d as [|b l]; [done|].
  change (slice (b :: l) 0 1) with [b] in Hs. by injection Hs as ->.
Qed.

Lemma Oracle_not_like σ k (o : Oracle) : try_from_bytes (data_at σ k) = Ok o → ¬ queue_like σ k.
Proof. intros H%Oracle_head. apply not_queue_like. by right. Qed.

Lemma registry_head `{OraclesBorsh} r b : to_bytes_with_discriminator r = Ok b → head b ≠ Some queue_tag.
Proof.
  unfold to_bytes_with_discriminator. intros (v & _ & Hb)%bind_Ok. injection Hb as <-. done.
Qed.

Lemma Oracles_not_like `{OraclesBorsh} σ k r :
  try_from_bytes_with_discriminator (data_at σ k) = Ok r → ¬ queue_like σ k.
Proof.
  intros Hr. apply not_queue_like. right. unfold try_from_bytes_with_discriminator in Hr. inv_outcome.
  match goal with H : bytes_eqb _ _ = true |- _ => apply bytes_eqb_eq in H; rename H into Hd end.
  destruct (data_at σ k) as [|b l]; [done|].
  change (slice (b :: l) 0 8) with (b :: take 7 l) in Hd.
  apply (f_equal head) in Hd. cbn in Hd |- *. injection Hd as Hd. intros [= Hq]. by rewrite Hq in Hd.
Qed.

Section Calm.
Context {rt : Runtime} {laws : RuntimeLaws} {clw : ChainLaws}.
Implicit Types (P : list byte → Prop) (σ : Store).

Lemma calm_ext P σ σ1 σ2 : store_eq σ1 σ2 → calm P σ σ2 → calm P σ σ1.
Proof.
  intros He [Hk Hn]. split; intros k HP; unfold queue_like; rewrite (He k).
  - by apply Hk.
  - by apply Hn.
Qed.

Lemma calm_upd_data P σ k d :
  (P k → ¬ queue_like σ k) → (P k → owner_at σ k = ID → head d ≠ Some queue_tag) →
  calm P σ (upd_data σ k d).
Proof.
  intros Hk Hd. split; intros k' HP; unfold queue_like.
  all: destruct (decide (k = k')) as [<-|]; [rewrite get_upd_data; cbn|rewrite get_upd_data_ne by done].
  - intros Hq. by destruct (Hk HP).
  - by intros [??].
  - intros [Ho Hh]. by destruct (Hd HP Ho).
  - done.
Qed.

Lemma calm_upd_lamports P σ k n :
  (P k → queue_like σ k → lamports_at σ k ≤ n) → calm P σ (upd_lamports σ k n).
Proof.
  intros Hn. split; intros k' HP; unfold queue_like; rewrite ?data_upd_lamports, ?owner_upd_lamports; [|done].
  intros [Ho Hd]. split_and!; [done|done|].
  destruct (decide (k = k')) as [<-|]; [rewrite get_upd_lamports|by rewrite get_upd_lamports_ne].
  apply Hn; [done|by split].
Qed.

Lemma calm_assign P σ i owner :
  (P (key i) → ¬ queue_like σ (key i)) → owner ≠ ID → calm P σ (account_assign i owner σ).
Proof.
  intros Hi Ho. split; intros k HP; unfold queue_like; rewrite assign_law.
  all: destruct (decide (k = key i)) as [->|]; cbn.
  - intros Hq. by destruct (Hi HP).
  - by intros [??].
  - by intros [??].
  - done.
Qed.

(** Cutting or extending an account leaves its first byte, if any. *)
Lemma head_resize n (d : list byte) :
  0 ≤ n → head d ≠ Some queue_tag → head (take (Z.to_nat n) d ++ zeros (n - zlen d)) ≠ Some queue_tag.
Proof.
  intros Hn Hd. destruct d as [|b d]; [rewrite take_nil; apply head_zeros|].
  destruct (Z.to_nat n) as [|m] eqn:Hm; [|done].
  assert (n = 0) as -> by lia. apply head_zeros.
Qed.

Lemma calm_resize P σ σ' i n :
  0 ≤ n → (P (key i) → ¬ queue_like σ (key i)) → account_resize i n σ = Ok σ' → calm P σ σ'.
Proof.
  intros Hn Hi Hr. apply resize_law in Hr; [|done]. eapply calm_ext; [exact Hr|].
  apply calm_upd_data; [done|]. intros HP Ho. apply head_resize; [done|].
  intros Hh. by apply (Hi HP).
Qed.

(** Other programs, called from the handler or not. *)
Lemma calm_others P σ σ' :
  (∀ k, owner_at σ k = ID →
     owner_at σ' k = ID ∧ data_at σ' k = data_at σ k ∧ lamports_at σ k ≤ lamports_at σ' k) →
  (∀ k, owner_at σ k ≠ ID → owner_at σ' k = ID → zeroed (data_at σ' k)) → calm P σ σ'.
Proof.
  intros Hk Hn. split.
  - intros k _ [Ho _]. by apply Hk.
  - intros k _ [Ho Hh]. destruct (decide (owner_at σ k = ID)) as [Ho'|Ho'].
    + destruct (Hk k Ho') as (_ & Hd & _). split; [done|congruence].
    + by destruct (head_zeroed _ (Hn k Ho' Ho)).
Qed.

Lemma calm_cpi P ix infos seeds σ σ' :
  invoke_signed ix infos seeds σ = Ok σ' → ix_program_id ix ≠ ID → calm P σ σ'.
Proof.
  intros Hi Hp. apply calm_others.
  - intros k Ho. destruct (cpi_isolation _ _ _ _ _ k Hi Hp Ho) as (? & ? & ?). done.
  - intros k. by eapply cpi_new_accounts.
Qed.

Lemma calm_move_lamports P σ from to n :
  0 ≤ n → (P from → queue_like σ from → n = 0) → calm P σ (move_lamports σ from to n).
Proof.
  intros Hn Hf. unfold move_lamports. etrans; apply calm_upd_lamports; intros HP Hq; [|lia].
  specialize (Hf HP Hq). lia.
Qed.

(** A handler never calls the VRF program through the system program. *)
Lemma system_transfer_program from to n : ix_program_id (system_transfer from to n) ≠ ID.
Proof. apply system_program_instructions. eauto 10. Qed.
Lemma system_create_program from to l s o : ix_program_id (system_create_account from to l s o) ≠ ID.
Proof. apply system_program_instructions. eauto 10. Qed.
Lemma system_allocate_program k n : ix_program_id (system_allocate k n) ≠ ID.
Proof. apply system_program_instructions. eauto 10. Qed.
Lemma system_assign_program k o : ix_program_id (system_assign k o) ≠ ID.
Proof. apply system_program_instructions. eauto 10. Qed.

(** ** Creating, resizing and closing accounts *)

(** Only an account that does not look like a queue can be created. *)
Lemma calm_create_account P target sys payer space owner seeds mb σ σ' u :
  0 ≤ space < 2 ^ 63 → zlen owner = 32 →
  create_account_at target sys payer space owner seeds mb σ = Ok (u, σ') →
  ¬ queue_like σ (key target) ∧ calm P σ σ'.
Proof.
  intros Hsp Hown Hrun. unfold create_account_at in Hrun. inv_M.
  destruct (lamports_at σ (key target) =? 0); inv_M.
  - split; [|eapply calm_cpi; [exact Hrun|apply system_create_program]].
    apply create_account_law in Hrun as Hl; [|done..]. destruct Hl as (Hd & _). intros [Ho Hh].
    destruct (cpi_isolation _ _ _ _ _ _ Hrun (system_create_program _ _ _ _ _) Ho) as (_ & Hd' & _).
    rewrite <- Hd', Hd in Hh. by apply head_zeros in Hh.
  - match goal with H : (if _ then _ else _) σ = Ok (_, ?s) |- _ =>
      assert (∀ Q, calm Q σ s) as Hpay;
      [intros Q; destruct (0 <? _); unfold invoke in H; inv_M;
       [eapply calm_cpi; [exact H|apply system_transfer_program]|done]|] end.
    match goal with H : invoke_signed (system_allocate _ _) _ _ _ = _ |- _ => rename H into Hal end.
    split.
    + intros Hq. destruct (calm_keeps _ _ _ (Hpay (λ _, True)) _ I Hq) as (Ho & Hd & _).
      pose proof (cpi_isolation _ _ _ _ _ _ Hal (system_allocate_program _ _) Ho) as (_ & Hd' & _).
      apply allocate_law in Hal as (Hz & _); [|done]. destruct Hq as [_ Hh].
      rewrite <- Hd, <- Hd', Hz in Hh. by apply head_zeros in Hh.
    + etrans; [apply Hpay|]. etrans; eapply calm_cpi; [exact Hal|apply system_allocate_program|exact Hrun|apply system_assign_program].
Qed.

Lemma calm_resize_pda P payer pda sys n σ σ' u :
  0 ≤ n → (P (key pda) → ¬ queue_like σ (key pda)) → (P (key payer) → ¬ queue_like σ (key payer)) →
  resize_pda payer pda sys n σ = Ok (u, σ') → calm P σ σ'.
Proof.
  intros Hn Hpda Hpayer Hrun. unfold resize_pda in Hrun. inv_M.
  match goal with H : (if _ then _ else _) σ = Ok (_, ?s) |- _ =>
    assert (calm P σ s) as Hc;
    [destruct (0 <? _); unfold invoke in H; inv_M;
     [eapply calm_cpi; [exact H|apply system_transfer_program]|]|] end.
  { etrans; apply calm_upd_lamports; intros HP Hq; [by destruct Hpda|].
    destruct Hpayer; [done|]. unfold queue_like in *. by rewrite data_upd_lamports, owner_upd_lamports in Hq. }
  etrans; [exact Hc|]. eapply calm_resize; [exact Hn| |exact Hrun].
  intros HP Hq. by eapply Hpda, calm_new.
Qed.

Lemma calm_close_account P a r σ σ' u :
  key a ≠ key r → (P (key a) → ¬ queue_like σ (key a)) → (P (key r) → ¬ queue_like σ (key r)) →
  close_account a r σ = Ok (u, σ') → calm P σ σ'.
Proof.
  intros Hne Ha Hr Hrun. unfold close_account in Hrun. inv_M.
  match goal with H : Ok (account_assign _ _ _) = Ok _ |- _ => injection H as <- end.
  set (σ1 := upd_lamports (upd_lamports _ _ _) _ _) in *.
  assert (calm P σ σ1) as Hc.
  { unfold σ1. etrans; apply calm_upd_lamports; intros HP Hq; [by destruct Hr|].
    destruct Ha; [done|]. unfold queue_like in *. by rewrite data_upd_lamports, owner_upd_lamports in Hq. }
  assert (P (key a) → ¬ queue_like σ1 (key a)) as Ha1 by (intros HP Hq; by eapply Ha, calm_new).
  assert (calm P σ1 (account_assign a system_program_ID σ1)) as Has.
  { apply calm_assign; [done|]. intros He. apply bytes_eqb_eq in He. by vm_compute in He. }
  etrans; [exact Hc|]. etrans; [exact Has|]. eapply calm_resize; [|intros HP Hq|exact Hrun]; [lia|].
  by eapply Ha1, calm_new.
Qed.

(** Paying a fee out of a queue that is not in [P]. *)
Lemma calm_transfer_fee P q o n u σ σ' :
  ¬ P (key q) → 0 ≤ n → transfer_fee q o n σ = Ok (u, σ') → calm P σ σ'.
Proof.
  intros HP Hn (_ & _ & _ & ->)%transfer_fee_Ok. apply calm_move_lamports; [done|]. intros Hq. by destruct HP.
Qed.

(** An operation on a queue that is not in [P]. *)
Lemma calm_with_queue P {A} i (m : queue_op A) a σ σ' :
  ¬ P (key i) → with_queue i m σ = Ok (a, σ') → calm P σ σ'.
Proof.
  intros HP (acc & acc' & _ & _ & ->)%with_queue_Ok. by apply calm_upd_data; intros Hq; destruct HP.
Qed.
End Calm.
