(* ===== verification/ChainHandlers.v ===== *)
(** * One call of the program

    What each handler, when it succeeds on whatever accounts and data, does
    to the queues of the program: [step_effect]. *)

From S2P Require Import Prelude Pod Api QueueLayout QueueAccount QueueInv QueueAdd QueueSpec QueueTheorems QueueTiny Solana Accounts Instructions Verify Handlers Provide Reason Laws RequestTheorems ProvideTheorems QueueAdmin Solvency Registry RegistryTheorems Chain ChainCalm.

(** What is left of a queue with the requests [rs] after a change: still
    enough for what is pending, if it was before. *)
Definition queue_after `{Runtime} (σ σ' : Store) (k : list byte) (rs : list request) (after : option (list request)) : Prop :=
  match after with
  | Some rs' =>
      queue_at σ' k rs' ∧ header_index (data_at σ' k) = header_index (data_at σ k) ∧
      (Forall request_ok rs → Forall request_ok rs') ∧
      (is_fee_exempt_ephemeral_queue k = false →
       lamports_at σ k - pending_fees rs ≤ lamports_at σ' k - pending_fees rs')
  | None => ¬ queue_like σ' k
  end.

Inductive step_effect `{Runtime} (c : Clock) (σ σ' : Store) : Prop :=
| effect_calm : calm (λ _, True) σ σ' → step_effect c σ σ'
| effect_queue k rs after :
    queue_at σ k rs → queue_change c σ k rs after → queue_after σ σ' k rs after →
    calm (λ k', k' ≠ k) σ σ' → step_effect c σ σ'
| effect_open k o :
    ¬ queue_like σ k → queue_at σ' k [] → queue_addressed o (data_at σ' k) k → calm (λ k', k' ≠ k) σ σ' → step_effect c σ σ'.

Lemma all_fits_upd_data σ k d :
  (∀ k, fits 64 (lamports_at σ k)) → ∀ k', fits 64 (lamports_at (upd_data σ k d) k').
Proof. intros Hf k'. by rewrite lamports_upd_data. Qed.

Section Handlers.
Context {rt : Runtime} {ob : OraclesBorsh} {rb : RequestBorsh}.
Context {laws : RuntimeLaws} {clw : ChainLaws} {obl : OraclesBorshLaws} {rbl : RequestBorshLaws}.
Implicit Types (σ : Store) (infos : list AccountInfo).

Lemma chain_lamports_wf σ : chain_inv σ → lamports_wf σ.
Proof. intros [Hf _]. split; [done|apply rent_fits|apply rent_default_fits]. Qed.

(** A queue does not sign. *)
Lemma signer_not_queue σ infos i :
  chain_inv σ → outer_call infos → i ∈ infos → info_is_signer i = true → ¬ queue_like σ (key i).
Proof.
  intros [_ Hq] Hout Hi Hs Hlike. unfold outer_call in Hout. rewrite Forall_forall in Hout.
  destruct (Hq _ Hlike) as (rs & _ & _ & (o & Hk) & _). by eapply (Hout i Hi Hs).
Qed.

(** The queue whose header a handler has read. *)
Lemma queue_read σ k h :
  chain_inv σ → owner_at σ k = ID → Queue_try_from_bytes (data_at σ k) = Ok h →
  ∃ rs, queue_at σ k rs ∧ Forall request_ok rs ∧
    (is_fee_exempt_ephemeral_queue k = false → pending_fees rs ≤ lamports_at σ k).
Proof.
  intros [_ Hq] Ho Hh. destruct (Hq k) as (rs & Hd & Hp & _ & Hf); [by eapply Queue_header_like|].
  by exists rs.
Qed.

(** ** The registry *)

Lemma initialize_effect c infos d σ σ' :
  chain_inv σ → outer_call infos → process_initialize infos d σ = Ok ((), σ') →
  step_effect c σ σ' ∧ ∀ k, fits 64 (lamports_at σ' k).
Proof.
  intros Hinv Hout Hrun. pose proof (ci_fits _ Hinv) as Hfit.
  destruct infos as [|s [|oi [|sys [|]]]]; [done..| |done].
  unfold process_initialize, account_is_empty, create_pda in Hrun. inv_M.
  match goal with H : to_bytes_with_discriminator _ = _ |- _ =>
    pose proof (registry_head _ _ H) as Hhead;
    apply (registry_round_trip []) in H as [_ Hlen]; [|constructor] end.
  match goal with H : create_account_at _ _ _ _ _ _ _ _ = _ |- _ =>
    pose proof (create_account_at_fits _ _ _ _ _ _ _ _ _ _ H Hfit) as Hfit1;
    apply (calm_create_account (λ _, True)) in H as [Hnq Hcalm]; [|by rewrite Hlen|apply zlen_ID] end.
  match goal with H : copy_into _ _ _ _ = Ok _ |- _ => apply copy_into_Ok in H as (_ & _ & Hl & ->) end.
  rewrite splice_whole by lia. split; [|by apply all_fits_upd_data].
  apply effect_calm. etrans; [exact Hcalm|]. apply calm_upd_data.
  - intros _ Hq. by apply Hnq, (calm_new _ _ _ Hcalm).
  - done.
Qed.

Lemma push_oracle_effect args odi sys signer reg σ σ' reg' :
  lamports_wf σ → zlen (mo_oracle_pubkey args) = 32 →
  push_oracle args odi sys signer reg σ = Ok (reg', σ') →
  calm (λ _, True) σ σ' ∧ ∀ k, fits 64 (lamports_at σ' k).
Proof.
  intros Hwf Hpk Hrun. pose proof (push_oracle_Ok _ _ _ _ _ _ _ _ Hwf Hpk Hrun) as (_ & _ & (cl & _ & Hnew) & _ & Hfit).
  split; [|done]. unfold push_oracle in Hrun. inv_M.
  match goal with H : create_program_account _ _ _ _ _ _ _ = _ |- _ =>
    pose proof (create_oracle_Ok _ _ _ _ _ _ _ Hwf H) as (Hd & _);
    unfold create_program_account in H; rewrite size_of_Oracle in H; inv_M end.
  match goal with H : create_account_at _ _ _ _ _ _ _ _ = _ |- _ =>
    apply (calm_create_account (λ _, True)) in H as [Hnq Hcalm]; [|lia|apply zlen_ID] end.
  rewrite get_upd_data in Hnew, Hd. cbn [a_data with_data] in Hnew, Hd.
  etrans; [exact Hcalm|]. etrans; apply calm_upd_data; intros _.
  - intros Hq. by apply Hnq, (calm_new _ _ _ Hcalm).
  - intros _. by eapply Oracle_head.
  - eapply Oracle_not_like. rewrite get_upd_data. exact Hd.
  - intros _. by eapply Oracle_head.
Qed.

Lemma write_registry_effect P signer oi sys reg σ σ' u :
  (P (key oi) → ¬ queue_like σ (key oi)) → (P (key signer) → ¬ queue_like σ (key signer)) →
  (∀ k, fits 64 (lamports_at σ k)) →
  write_registry signer oi sys reg σ = Ok (u, σ') → calm P σ σ' ∧ ∀ k, fits 64 (lamports_at σ' k).
Proof.
  intros Hoi Hs Hfit Hrun. unfold write_registry in Hrun. inv_M.
  assert (0 ≤ size_with_discriminator reg) as Hsz
    by (unfold size_with_discriminator; pose proof (zlen_nonneg (oracles reg)); lia).
  match goal with H : resize_pda _ _ _ _ _ = _ |- _ =>
    pose proof (resize_pda_fits _ _ _ _ _ _ _ Hsz rent_default_fits H Hfit);
    apply (calm_resize_pda P) in H as Hcalm; [|done..] end.
  match goal with H : to_bytes_with_discriminator _ = _ |- _ => pose proof (registry_head _ _ H) as Hhead end.
  match goal with H : copy_into _ _ _ _ = Ok _ |- _ => apply copy_into_Ok in H as (_ & _ & Hl & ->) end.
  rewrite splice_whole by lia. split; [|by apply all_fits_upd_data].
  etrans; [exact Hcalm|]. apply calm_upd_data; [|done].
  intros HP Hq. by eapply Hoi, calm_new.
Qed.

Lemma modify_calm infos d σ σ' :
  chain_inv σ → outer_call infos → process_modify_oracles infos d σ = Ok ((), σ') →
  calm (λ _, True) σ σ' ∧ ∀ k, fits 64 (lamports_at σ' k).
Proof.
  intros Hinv Hout Hrun. pose proof (chain_lamports_wf _ Hinv) as Hwf. pose proof (ci_fits _ Hinv) as Hfit.
  unfold process_modify_oracles in Hrun. inv_M.
  match goal with H : args_try_from_bytes d = Ok ?a |- _ => rename a into args; rename H into Hargs end.
  assert (zlen (mo_oracle_pubkey args) = 32) as Hpk.
  { unfold args_try_from_bytes, pod_try_from_bytes in Hargs.
    destruct (Z.eqb_spec (zlen d) (size_of ModifyOracle)) as [He|]; [|done].
    injection Hargs as <-. by destruct (pod_read_wf (A:=ModifyOracle) d He) as [[??]?]. }
  destruct infos as [|s [|oi [|odi [|pd [|sys [|]]]]]]; [done..| |done].
  unfold load_program_upgrade_authority in Hrun. inv_M.
  assert (¬ queue_like σ (key s)) as Hs by (eapply (signer_not_queue _ _ s); [done|exact Hout|set_solver|done]).
  match goal with H : try_from_bytes_with_discriminator _ = Ok _ |- _ => apply Oracles_not_like in H as Hoi end.
  match goal with H : (if mo_operation args =? 0 then _ else _) σ = Ok (_, ?s1) |- _ =>
    assert (calm (λ _, True) σ s1 ∧ ∀ k, fits 64 (lamports_at s1 k)) as [Hcalm Hfit1];
    [destruct (mo_operation args =? 0); [by eapply push_oracle_effect|];
     destruct (mo_operation args =? 1); [rename H into Hret|by inv_M]|] end.
  - assert (key odi ≠ key s) as Hne.
    { match goal with H : key odi = _ |- _ => rewrite H end. intros He.
      unfold outer_call in Hout. rewrite Forall_forall in Hout.
      by eapply (Hout s); [set_solver|done|rewrite He]. }
    split; [|by eapply (retain_oracle_Ok args odi s); [done|congruence|exact Hret]].
    unfold retain_oracle in Hret. inv_M.
    match goal with H : try_from_bytes _ = Ok _ |- _ => apply Oracle_not_like in H as Hodi end.
    by eapply calm_close_account.
  - eapply (write_registry_effect (λ _, True)) in Hrun as [Hcalm2 Hfit2]; [|intros _ Hq|intros _ Hq|done].
    + split; [|done]. by etrans.
    + by apply Hoi, (calm_new _ _ _ Hcalm).
    + by apply Hs, (calm_new _ _ _ Hcalm).
Qed.

Lemma modify_effect c infos d σ σ' :
  chain_inv σ → outer_call infos → process_modify_oracles infos d σ = Ok ((), σ') →
  step_effect c σ σ' ∧ ∀ k, fits 64 (lamports_at σ' k).
Proof. intros Hinv Hout Hrun. destruct (modify_calm _ _ _ _ Hinv Hout Hrun). split; [by apply effect_calm|done]. Qed.

(** ** Creating a queue *)

Lemma create_or_resize_calm P queue signer sys n seeds bump σ σ' u :
  0 ≤ n < 2 ^ 63 → (P (key queue) → ¬ queue_like σ (key queue)) → (P (key signer) → ¬ queue_like σ (key signer)) →
  create_or_resize queue signer sys n seeds bump σ = Ok (u, σ') → calm P σ σ'.
Proof.
  intros Hn Hq Hs Hrun. unfold create_or_resize, create_pda in Hrun. inv_M.
  destruct (negb _); [inv_M|].
  - by apply (calm_create_account P) in Hrun as [_ ?]; [|done|apply zlen_ID].
  - eapply calm_resize_pda; [|exact Hq|exact Hs|exact Hrun]. lia.
Qed.

(** The header of a new queue, whatever its size. *)
Lemma init_queue_header_holds queue index n σ σ' u :
  0 ≤ n ≤ 2 ^ 32 → fits 8 index → data_at σ (key queue) = zeros n →
  init_queue_header queue index σ = Ok (u, σ') →
  ∃ d, σ' = upd_data σ (key queue) d ∧ holds_requests d [] ∧ header_index d = index.
Proof.
  intros Hn Hi Hd Hrun. destruct (Z.le_gt_cases 24 n) as [H24|H24].
  - destruct (init_queue_header_Ok queue index n σ σ' u ltac:(lia) Hi Hd Hrun) as (acc & -> & Hrep & Hix & _).
    eexists. split; [done|]. split; [left; by exists acc|by rewrite header_index_app].
  - unfold init_queue_header in Hrun. inv_M. rewrite Hd in *.
    match goal with H : copy_into _ _ _ _ = Ok _ |- _ => apply copy_into_Ok in H as (_ & H8 & _ & Hc) end.
    assert (zlen (zeros n) = n) as Hl by (apply zlen_replicate; lia). rewrite Hl in H8.
    assert (splice (zeros n) 0 (discriminator_to_bytes DQueue) =
            discriminator_to_bytes DQueue ++ zeros (n - 8)) as Hsp.
    { unfold splice. rewrite zlen_discriminator. change (take (Z.to_nat 0) (zeros n)) with (@nil byte).
      rewrite app_nil_l. unfold zeros. rewrite drop_replicate. do 2 f_equal. lia. }
    rewrite Hsp in Hc. subst.
    assert (zlen (zeros (n - 8)) = n - 8) as Hl' by (apply zlen_replicate; lia).
    match goal with H : load _ = Ok ?a |- _ => rename H into Hload end.
    assert (20 ≤ n) as H20.
    { unfold load in Hload. inv_outcome. rewrite slice_disc, zlen_app, zlen_discriminator, Z.add_simpl_l, slice_all, size_of_Queue in *.
      match goal with H : (12 <=? _) = true |- _ => apply Z.leb_le in H end. lia. }
    rewrite load_app, header_zeros in Hload by lia. injection Hload as <-. rewrite store_body_app.
    destruct (tiny_fresh (n - 8) index ltac:(lia) Hi) as [Ht Hix].
    eexists. split; [done|]. split; [|by rewrite header_index_app]. right. split; [done|]. by eexists.
Qed.

Lemma initialize_queue_effect c infos d σ σ' :
  chain_inv σ → outer_call infos → process_initialize_oracle_queue infos d σ = Ok ((), σ') →
  step_effect c σ σ' ∧ ∀ k, fits 64 (lamports_at σ' k).
Proof.
  intros Hinv Hout Hrun. pose proof (chain_lamports_wf _ Hinv) as Hwf.
  split; [|by eapply lw_accounts, initialize_oracle_queue_fits].
  unfold process_initialize_oracle_queue in Hrun. inv_M.
  match goal with H : args_try_from_bytes d = Ok ?a |- _ => rename a into args; rename H into Hargs end.
  destruct infos as [|signer [|o [|od [|q [|sys [|]]]]]]; [done..| |done].
  unfold is_empty_or_zeroed in Hrun. inv_M.
  match goal with H : forallb _ _ = true |- _ => apply forallb_zero in H as Hz end.
  match goal with H : (_ <=? MAX_QUEUE_ACCOUNT_SIZE) = true |- _ => apply Z.leb_le in H as Hmax end.
  assert (¬ queue_like σ (key q)) as Hq by (apply not_queue_like; right; rewrite Hz; apply head_zeros).
  assert (¬ queue_like σ (key signer)) as Hs
    by (eapply (signer_not_queue _ _ signer); [done|exact Hout|set_solver|done]).
  assert (0 ≤ ioq_target_size args < 2 ^ 32 ∧ fits 8 (ioq_index args)) as [Ht Hidx].
  { unfold args_try_from_bytes, pod_try_from_bytes in Hargs.
    destruct (Z.eqb_spec (zlen d) (size_of InitializeOracleQueue)) as [He|]; [|done].
    injection Hargs as <-. by destruct (pod_read_wf (A:=InitializeOracleQueue) d He) as [[??]?]. }
  pose proof (zlen_nonneg (data_at σ (key q))) as Hsz.
  destruct (_ <? _) eqn:Hgrow in Hrun.
  - apply effect_calm. eapply create_or_resize_calm; [|intros _; exact Hq|intros _; exact Hs|exact Hrun].
    apply Z.ltb_lt in Hgrow. unfold MAX_EXTRA_BYTES, MAX_QUEUE_ACCOUNT_SIZE, saturating_sub in *. lia.
  - inv_M.
    match goal with H : create_or_resize _ _ _ _ _ _ _ = _ |- _ =>
      pose proof H as Hcr; apply create_or_resize_Ok in H as (Hd & Ho & _); [|done|lia|done] end.
    assert (0 ≤ ioq_target_size args < 2 ^ 63) as Ht' by lia.
    eapply (create_or_resize_calm (λ k, k ≠ key q)) in Hcr as Hcalm; [|done|intros _; exact Hq|intros _; exact Hs].
    match goal with H : init_queue_header _ _ _ = _ |- _ =>
      eapply (init_queue_header_holds _ _ _ _ _ _ ltac:(split; [apply Ht|lia]) Hidx Hd) in H as (dq & -> & Hh & Hix) end.
    match goal with H : try_from_bytes (data_at _ (key od)) = Ok _ |- _ => rename H into Hor end.
    assert (key od ≠ key q) as Hne.
    { intros He. apply Oracle_head in Hor. rewrite He, get_upd_data in Hor. cbn in Hor.
      by destruct Hh as [(acc & -> & _)|(_ & acc & -> & _)]. }
    eapply (effect_open _ _ _ (key q) (key o)); [done| | |].
    + split; [by rewrite !owner_upd_data|]. rewrite get_upd_data_ne, get_upd_data by done. exact Hh.
    + unfold queue_addressed. rewrite get_upd_data_ne, get_upd_data by done. cbn [a_data with_data]. by rewrite Hix.
    + etrans; [exact Hcalm|]. etrans; [|apply calm_upd_data; intros _; [by eapply Oracle_not_like|]].
      { by apply calm_upd_data; intros []. }
      intros _. 
      eapply (Oracle_head _ (set_open_queues _ _)). eapply try_from_bytes_store; [exact Hor|].
      pose proof (try_from_bytes_wf _ _ Hor) as Hwfo. rewrite Oracle_wf_iff in *. cbn.
      unfold saturating_add. destruct_and!. split_and!; try done; fits_lia.
Qed.

(** ** Requests *)

Lemma with_queue_tiny {A} i (m : queue_op A) a σ σ' acc :
  data_at σ (key i) = discriminator_to_bytes DQueue ++ acc → tiny acc →
  with_queue i m σ = Ok (a, σ') →
  ∃ acc', m acc = (acc', Ok a) ∧ σ' = upd_data σ (key i) (discriminator_to_bytes DQueue ++ acc').
Proof.
  intros Hd Ht (acc0 & acc' & Hl & Hm & ->)%with_queue_Ok. rewrite Hd in *. rewrite (tiny_load Ht) in Hl.
  injection Hl as <-. exists acc'. by rewrite store_body_app.
Qed.

(** Who calls from outside cannot ask for a callback into the program itself:
    it would need the signature of an address derived from the program. *)
Lemma outer_identity infos i p :
  outer_call infos → i ∈ infos → info_is_signer i = true →
  key i = fst (find_program_address [IDENTITY] p) → p ≠ ID.
Proof.
  unfold outer_call. rewrite Forall_forall. intros Hout Hi Hs Hk ->. by apply (Hout i Hi Hs [IDENTITY]).
Qed.

Lemma request_effect c infos d hp scoped σ σ' :
  chain_inv σ → outer_call infos → (∀ clock, clock_get = Ok clock → clock = c) →
  process_request_randomness infos d hp scoped σ = Ok ((), σ') →
  step_effect c σ σ' ∧ ∀ k, fits 64 (lamports_at σ' k).
Proof.
  intros Hinv Hout Hc Hrun. pose proof (ci_fits _ Hinv) as Hfit.
  destruct infos as [|signer [|identity [|queue [|system [|slothashes [|]]]]]];
    try (unfold process_request_randomness in Hrun; by inv_M).
  assert (∃ rs, queue_at σ (key queue) rs) as (rs & Ho & Hh).
  { pose proof Hrun as H. unfold process_request_randomness, is_sysvar in H. inv_M.
    match goal with H : Queue_try_from_bytes _ = Ok _ |- _ => eapply queue_read in H as (rs & Hq & _); [|done..] end.
    by exists rs. }
  destruct Hh as [Hq|(-> & acc & Hd & Ht)].
  2: { exfalso. unfold process_request_randomness, is_sysvar in Hrun. inv_M.
       match goal with H : with_queue _ _ _ = _ |- _ =>
         eapply with_queue_tiny in H as (acc' & Hm & _); [|exact Hd|exact Ht] end.
       unfold request_queue_step in Hm. inv_q.
       match goal with H : add_item_with_id _ _ _ _ _ _ = _ |- _ => by apply (tiny_add Ht) in H end. }
  destruct (request_randomness_inv signer identity queue system slothashes d hp scoped σ σ' rs Hq Hrun)
    as (args & clock & acc & acc' & Hargs & Hclock & [Hsig Hid Hids _ _ _ _ _] & Hacc & Hrep & Hb & Hm & Hpay).
  pose proof (Hc _ Hclock) as ->.
  assert (¬ queue_like σ (key signer)) as Hs
    by (eapply (signer_not_queue _ _ signer); [done|exact Hout|set_solver|done]).
  assert (key signer ≠ key queue) as Hne.
  { intros He. apply Hs. rewrite He. eapply queue_at_like. split; [done|]. by left. }
  pose proof (request_deserialize_wf _ _ Hargs) as Hwf.
  assert (rr_callback_program_id args ≠ ID) as Hprog by (eapply outer_identity; [exact Hout| |exact Hids|exact Hid]; set_solver).
  pose proof (request_queue_step_spec acc rs args (clock_slot c) (slice (data_at σ (key slothashes)) 16 48)
    (clock_unix_timestamp c) hp scoped _ Hrep Hwf (clock_fits _ Hclock) Hb) as Hstep.
  rewrite Hm in Hstep. destruct Hstep as (_ & _ & _ & Hframe & i & pos & Hi & _ & _ & Hrep').
  destruct (pay_request _ _ _ _ _ _ Hne (request_cost_fits hp) Hpay) as (Hdata & Hown & Hql & _).
  split.
  - eapply (effect_queue _ _ _ (key queue) rs); [by split; [|left]|by apply (change_request c σ (key queue) rs args)| |].
    + split; [|split; [|split]].
      * split; [by rewrite Hown, owner_upd_data|]. left. rewrite Hdata. by apply queue_data_upd.
      * rewrite Hdata, get_upd_data, Hacc. cbn. rewrite !header_index_app. apply Hframe.
      * intros Hp. apply Forall_insert_at; [|done]. split; [done| |].
        { unfold stored_request. cbn. by destruct scoped. }
        do 3 eexists. split; [exact Hwf|]. by exists hp, scoped.
      * intros Hnx. rewrite Hnx, lamports_upd_data in Hql. rewrite pending_fees_insert, Hql.
        unfold r_cost, stored_request. cbn [r_priority]. assert ((bool_as_u8 hp =? 1) = hp) as -> by by destruct hp. lia.
    + etrans; [by apply (calm_upd_data _ σ (key queue)); intros []|].
      destruct (negb _); inv_M; [|done]. eapply calm_cpi; [exact Hpay|apply system_transfer_program].
  - destruct (negb _); inv_M; [|by apply all_fits_upd_data].
    eapply cpi_lamports_fit; [|exact Hpay]. by apply all_fits_upd_data.
Qed.

(** ** Providing *)

Lemma transfer_fee_fits q o n u σ σ' :
  (∀ k, fits 64 (lamports_at σ k)) → 0 ≤ n → transfer_fee q o n σ = Ok (u, σ') →
  ∀ k, fits 64 (lamports_at σ' k).
Proof.
  intros Hfit Hn (Hne & Hq & Ho & ->)%transfer_fee_Ok k. unfold move_lamports.
  pose proof (Hfit (key q)). pose proof (Hfit (key o)).
  apply upd_lamports_fits; [apply upd_lamports_fits; [done|fits_lia]|]. rewrite get_upd_lamports_ne by done. fits_lia.
Qed.

Lemma provide_fits infos d σ σ' :
  (∀ k, fits 64 (lamports_at σ k)) → process_provide_randomness infos d σ = Ok ((), σ') →
  ∀ k, fits 64 (lamports_at σ' k).
Proof.
  intros Hfit Hrun. unfold process_provide_randomness in Hrun.
  do 5 (destruct infos as [|? infos]; [by inv_M|]). inv_M.
  match goal with H : with_queue _ _ _ = Ok (_, ?s) |- _ =>
    apply with_queue_Ok in H as (acc & acc' & _ & _ & ->) end.
  match goal with H : invoke_callback _ _ _ _ _ _ = Ok (_, ?s) |- _ =>
    assert (∀ k, fits 64 (lamports_at s k)) as Hfit2 end.
  { match goal with H : invoke_callback _ _ _ _ _ _ = _ |- _ => unfold invoke_callback in H end.
    destruct (identity_mode _ =? 1); inv_M; (eapply cpi_lamports_fit; [|eassumption]); by apply all_fits_upd_data. }
  destruct (negb _); inv_M; [|done]. eapply transfer_fee_fits; [done| |exact Hrun].
  unfold item_cost, request_cost, VRF_HIGH_PRIORITY_LAMPORTS_COST, VRF_LAMPORTS_COST. destruct (_ =? 1); lia.
Qed.

Lemma provide_effect c infos d σ σ' :
  chain_inv σ → (∀ clock, clock_get = Ok clock → clock = c) → process_provide_randomness infos d σ = Ok ((), σ') →
  step_effect c σ σ' ∧ ∀ k, fits 64 (lamports_at σ' k).
Proof.
  intros Hinv Hc Hrun. split; [|eapply provide_fits; [apply Hinv|exact Hrun]].
  destruct infos as [|o [|pid [|od [|queue [|cb rem]]]]]; try (unfold process_provide_randomness in Hrun; by inv_M).
  assert (∃ rs, queue_at σ (key queue) rs ∧ Forall request_ok rs) as (rs & [Ho Hh] & Hp).
  { pose proof Hrun as H. unfold process_provide_randomness in H. inv_M.
    match goal with H : Queue_try_from_bytes _ = Ok _ |- _ => eapply queue_read in H as (rs & Hq & Hp & _); [|done..] end.
    by exists rs. }
  destruct Hh as [Hq|(-> & acc & Hd & Ht)].
  2: { exfalso. unfold process_provide_randomness in Hrun. inv_M.
       match goal with H : with_queue _ _ _ = _ |- _ =>
         eapply with_queue_tiny in H as (acc' & Hm & _); [|exact Hd|exact Ht] end.
       unfold provide_queue_step in Hm. inv_q. by rewrite (tiny_find Ht) in *. }
  destruct (provide_randomness_inv o pid od queue cb rem d σ σ' rs Hq Hrun)
    as (args & oracle & header & i & r & clock & acc' & seeds & σ2 & Hargs & (_ & Hod & Hoo & Hor) &
        (_ & _ & _ & Hqk) & (Hf & _ & Hc' & Hs & Hv) & _ & (_ & _ & Hcpi) & Hfee).
  apply Hc in Hc' as ->.
  assert (Forall (λ r, r_program r ≠ ID) rs) as Hprogs by (eapply Forall_impl; [exact Hp|by intros ? []]).
  destruct (provide_randomness_after o pid od queue cb rem d σ σ' rs args Hq Hargs Hprogs Hrun)
    as (i' & r' & Hf' & Hq' & Ho' & Hix & _ & Hl).
  rewrite Hf in Hf'. injection Hf' as <- <-. apply list_find_Some in Hf as (Hi & Hid & _).
  assert (r_program r ≠ ID) as Hrp by (rewrite Forall_forall in Hprogs; eapply Hprogs, list_elem_of_lookup_2, Hi).
  eapply (effect_queue _ _ _ (key queue) rs); [by split; [|left]| | |].
  - eapply change_fulfil; [exact Hi|done|]. exists (key o), oracle, (pr_output args), (proof_of args).
    rewrite Hid. unfold oracle_data_pda. rewrite <- Hod. split_and!; [by eexists|done..].
  - split; [split; [done|by left]|]. split; [done|]. split; [intros; by apply Forall_delete|].
    intros Hnx. rewrite Hnx in Hl. rewrite (pending_fees_delete i r rs Hi). lia.
  - etrans; [by apply (calm_upd_data _ σ (key queue)); intros []|].
    etrans; [by eapply calm_cpi|]. destruct (is_fee_exempt_ephemeral_queue _); [by subst σ'|].
    destruct Hfee as (_ & _ & ->). pose proof (r_cost_pos r). apply calm_move_lamports; [lia|by intros []].
Qed.

(** ** Purging, pausing, closing and delegating *)

Lemma purge_fits infos d σ σ' :
  (∀ k, fits 64 (lamports_at σ k)) → process_purge_expired_requests infos d σ = Ok ((), σ') →
  ∀ k, fits 64 (lamports_at σ' k).
Proof.
  intros Hfit Hrun. unfold process_purge_expired_requests in Hrun.
  destruct infos as [|o [|queue [|]]]; try by inv_M. inv_M.
  match goal with H : with_queue _ _ _ = Ok (?t, _) |- _ =>
    rename t into total; apply with_queue_Ok in H as (acc & acc' & _ & _ & ->) end.
  destruct (Z.ltb_spec 0 total); cbn [andb] in Hrun; [|inv_M; by apply all_fits_upd_data].
  destruct (negb _); inv_M; [|by apply all_fits_upd_data].
  eapply transfer_fee_fits; [by apply all_fits_upd_data| |exact Hrun]. lia.
Qed.

Lemma purge_effect c infos d σ σ' :
  chain_inv σ → (∀ clock, clock_get = Ok clock → clock = c) → process_purge_expired_requests infos d σ = Ok ((), σ') →
  step_effect c σ σ' ∧ ∀ k, fits 64 (lamports_at σ' k).
Proof.
  intros Hinv Hc Hrun. split; [|eapply purge_fits; [apply Hinv|exact Hrun]].
  destruct infos as [|o [|queue [|]]]; try (unfold process_purge_expired_requests in Hrun; by inv_M).
  pose proof Hrun as H. unfold process_purge_expired_requests in H. inv_M.
  match goal with H : Queue_try_from_bytes _ = Ok _ |- _ => eapply queue_read in H as (rs & Hat & Hp & _); [|done..] end.
  match goal with H : clock_get = Ok _ |- _ => apply Hc in H as -> end.
  match goal with H : with_queue _ _ _ = Ok (?t, ?s) |- _ => rename H into Hwq; rename t into total; rename s into σ1 end.
  eapply (effect_queue _ _ _ (key queue) rs); [done|apply change_purge| |].
  2: { eapply (calm_with_queue (λ k, k ≠ key queue)) in Hwq as Hcalm; [|by intros []].
       etrans; [exact Hcalm|]. destruct (Z.ltb_spec 0 total); cbn [andb] in H; [|by inv_M].
       destruct (negb _); [|by inv_M]. eapply calm_transfer_fee; [| |exact H]; [by intros []|lia]. }
  split; [|split; [|split]]; [| |intros _; apply Forall_forall; intros r [_ Hr]%list_elem_of_filter; rewrite Forall_forall in Hp; by apply Hp|].
  - destruct Hat as [Ho [Hq|(-> & acc & Hd & Ht)]].
    + destruct (purge_inv o queue d σ σ' rs Hq Hrun) as (c' & Hc' & Hq' & Ho' & _ & _).
      apply Hc in Hc' as ->. split; [congruence|by left].
    + eapply with_queue_tiny in Hwq as (acc' & Hm & ->); [|exact Hd|exact Ht].
      rewrite (tiny_purge Ht) in Hm. injection Hm as <- <-. cbn in H. inv_M.
      split; [by rewrite owner_upd_data|]. right. split; [done|]. rewrite get_upd_data. by exists acc.
  - destruct Hat as [Ho [Hq|(-> & acc & Hd & Ht)]].
    + by destruct (purge_inv o queue d σ σ' rs Hq Hrun) as (c' & _ & _ & _ & Hix & _).
    + eapply with_queue_tiny in Hwq as (acc' & Hm & ->); [|exact Hd|exact Ht].
      rewrite (tiny_purge Ht) in Hm. injection Hm as <- <-. cbn in H. inv_M. by rewrite get_upd_data, Hd.
  - intros Hnx. destruct Hat as [Ho [Hq|(-> & acc & Hd & Ht)]].
    + destruct (purge_inv o queue d σ σ' rs Hq Hrun) as (c' & Hc' & _ & _ & _ & Hl).
      apply Hc in Hc' as ->. rewrite (Hl Hnx).
      pose proof (pending_fees_filter (request_expired (created_at_from (clock_unix_timestamp c))) rs). lia.
    + eapply with_queue_tiny in Hwq as (acc' & Hm & ->); [|exact Hd|exact Ht].
      rewrite (tiny_purge Ht) in Hm. injection Hm as <- <-. cbn in H. inv_M. rewrite lamports_upd_data. cbn. lia.
Qed.

Lemma pause_effect c infos d σ σ' :
  chain_inv σ → process_set_queue_paused infos d σ = Ok ((), σ') →
  step_effect c σ σ' ∧ ∀ k, fits 64 (lamports_at σ' k).
Proof.
  intros Hinv Hrun. unfold process_set_queue_paused in Hrun. inv_M.
  destruct infos as [|o [|queue [|]]]; [done..| |done]. inv_M.
  match goal with H : args_try_from_bytes d = Ok ?a |- _ => rename a into args; rename H into Hargs end.
  assert (fits 8 (sqp_paused args)) as Hf.
  { unfold args_try_from_bytes, pod_try_from_bytes in Hargs.
    destruct (Z.eqb_spec (zlen d) (size_of SetQueuePaused)) as [He|]; [|done].
    injection Hargs as <-. by destruct (pod_read_wf (A:=SetQueuePaused) d He). }
  match goal with H : Queue_try_from_bytes _ = Ok _ |- _ => eapply queue_read in H as (rs & Hat & _); [|done..] end.
  assert (∃ acc, σ' = upd_data σ (key queue) (discriminator_to_bytes DQueue ++ acc) ∧
            holds_requests (discriminator_to_bytes DQueue ++ acc) rs ∧
            queue_index (header acc) = header_index (data_at σ (key queue))) as (acc & -> & Hh & Hix).
  { destruct Hat as [_ [Hq|(-> & acc & Hd & Ht)]].
    - eapply with_queue_represents in Hrun as (acc & acc' & Hrep & Hd & Hm & ->); [|exact Hq]. inv_q.
      destruct (represents_set_paused acc rs _ Hrep Hf) as (Hrep' & _). eexists. split; [done|].
      split; [left; by eexists|]. rewrite Hd, header_index_app. 
      destruct (represents_bounds Hrep). by rewrite (hu_header _ _ _ (set_paused_update (sqp_paused args) acc ltac:(lia) Hf)).
    - eapply with_queue_tiny in Hrun as (acc' & Hm & ->); [|exact Hd|exact Ht]. inv_q.
      eexists. split; [done|]. split; [right; split; [done|]; eexists; split; [done|by apply tiny_set_paused]|].
      rewrite Hd, header_index_app. destruct Ht as [? _ _].
      by rewrite (hu_header _ _ _ (set_paused_update (sqp_paused args) acc ltac:(lia) Hf)). }
  split; [|by apply all_fits_upd_data, ci_fits].
  eapply (effect_queue _ _ _ (key queue) rs); [done|apply change_none| |by apply calm_upd_data; intros []].
  split; [|split; [|split]]; [| |done|intros _; rewrite lamports_upd_data; lia].
  - split; [by rewrite owner_upd_data|by rewrite get_upd_data].
  - rewrite get_upd_data. cbn. by rewrite header_index_app.
Qed.

(** A queue that says it is empty holds no request. *)
Lemma holds_empty d acc rs : holds_requests d rs → load d = Ok acc → is_empty acc = true → rs = [].
Proof.
  intros [(acc' & -> & Hrep)|[-> _]] Hl He; [|done].
  rewrite (load_represents _ _ Hrep) in Hl. injection Hl as <-. by apply (represents_is_empty Hrep).
Qed.

Lemma holds_count d h rs : holds_requests d rs → Queue_try_from_bytes d = Ok h → item_count h = 0 → rs = [].
Proof.
  intros [Hq|[-> _]] Hh Hn; [|done]. destruct (queue_data_header _ _ Hq) as (h' & Hh' & Hn').
  rewrite Hh in Hh'. injection Hh' as <-. destruct rs as [|r rs]; [done|].
  rewrite zlen_cons in Hn'. pose proof (zlen_nonneg rs). lia.
Qed.

Lemma close_effect c infos d σ σ' :
  chain_inv σ → outer_call infos → process_close_oracle_queue infos d σ = Ok ((), σ') →
  step_effect c σ σ' ∧ ∀ k, fits 64 (lamports_at σ' k).
Proof.
  intros Hinv Hout Hrun. pose proof (ci_fits _ Hinv) as Hfit. unfold process_close_oracle_queue in Hrun. inv_M.
  destruct infos as [|o [|od [|queue [|]]]]; [done..| |done]. inv_M.
  assert (¬ queue_like σ (key o)) as Hs by (eapply (signer_not_queue _ _ o); [done|exact Hout|set_solver|done]).
  match goal with H : Queue_try_from_bytes _ = Ok _ |- _ => eapply queue_read in H as (rs & Hat & _); [|done..] end.
  pose proof (queue_at_like _ _ _ Hat) as Hlike.
  assert (key queue ≠ key o) as Hne by (intros He; apply Hs; by rewrite <- He).
  match goal with H : with_queue _ _ _ = Ok (_, _) |- _ => apply with_queue_Ok in H as (acc & acc' & Hload & Hm & ->) end.
  inv_q. pose proof (proj2 Hat) as Hh. eapply holds_empty in Hh as ->; [|exact Hload|done].
  match goal with H : try_from_bytes _ = Ok _ |- _ => rename H into Hor end.
  match goal with H : key od ≠ key queue |- _ => rename H into Hodq end.
  set (σ1 := upd_data σ _ _) in *. set (σ2 := upd_data σ1 (key od) _) in *.
  assert (calm (λ k, k ≠ key queue) σ σ2) as Hcalm.
  { etrans; [|apply calm_upd_data; intros _; [by eapply Oracle_not_like|]].
    { by apply calm_upd_data; intros []. }
    intros _. eapply (Oracle_head _ (set_open_queues _ _)). eapply try_from_bytes_store; [exact Hor|].
    pose proof (try_from_bytes_wf _ _ Hor) as Hwfo. rewrite Oracle_wf_iff in *. cbn.
    unfold saturating_sub. destruct_and!. split_and!; try done; fits_lia. }
  split.
  - eapply (effect_queue _ _ _ (key queue) []); [done|by apply change_gone| |].
    + apply close_account_Ok in Hrun as (Hq & _); [|done]. intros [Ho _]. rewrite Hq in Ho.
      cbn in Ho. apply bytes_eqb_eq in Ho. by vm_compute in Ho.
    + etrans; [exact Hcalm|]. eapply calm_close_account; [exact Hne|by intros []| |exact Hrun].
      intros HP Hq. by eapply Hs, calm_new.
  - eapply close_account_fits; [exact Hrun|done|]. by apply all_fits_upd_data, all_fits_upd_data.
Qed.

Lemma delegate_effect c infos d σ σ' :
  chain_inv σ → process_delegate_oracle_queue infos d σ = Ok ((), σ') →
  step_effect c σ σ' ∧ ∀ k, fits 64 (lamports_at σ' k).
Proof.
  intros Hinv Hrun. unfold process_delegate_oracle_queue in Hrun. inv_M.
  do 8 (destruct infos as [|? infos]; [by inv_M|]). destruct infos; [|by inv_M]. inv_M.
  match goal with H : delegate_account (_ :: ?q :: _) _ _ _ _ = _ |- _ => rename q into queue; rename H into Hdel end.
  match goal with H : Queue_try_from_bytes _ = Ok ?h |- _ =>
    pose proof H as Hh; eapply queue_read in H as (rs & Hat & _); [|done..] end.
  match goal with H : negb (negb (item_count _ =? 0) || _) = true |- _ =>
    apply negb_true_iff, orb_false_iff in H as [Hn%negb_false_iff%Z.eqb_eq _] end.
  pose proof Hat as [Ho Hholds]. eapply holds_count in Hholds as ->; [|exact Hh|exact Hn].
  split; [|eapply delegate_lamports_fit; [apply Hinv|exact Hdel]].
  assert (calm (λ k, k ≠ key queue) σ σ') as Hcalm.
  { split.
    - intros k Hk [Hok _]. destruct (delegate_isolation _ _ _ _ _ _ _ _ k Hdel Hok) as [Ho' Hd].
      specialize (Ho' Hk). split; [done|]. by apply Hd.
    - intros k Hk [Hok Hhd]. destruct (decide (owner_at σ k = ID)) as [Hok'|Hok'].
      + destruct (delegate_isolation _ _ _ _ _ _ _ _ k Hdel Hok') as [_ Hd].
        destruct (Hd Hok) as [Hdat _]. split; [done|congruence].
      + by destruct (head_zeroed _ (delegate_new_accounts _ _ _ _ _ _ k Hdel Hok' Hok)). }
  destruct (delegate_isolation _ _ _ _ _ _ _ _ (key queue) Hdel Ho) as [_ Hd].
  destruct (decide (owner_at σ' (key queue) = ID)) as [Hok|Hok].
  - destruct (Hd Hok) as [Hdat Hlam].
    eapply (effect_queue _ _ _ (key queue) []); [exact Hat|apply change_none| |exact Hcalm].
    split; [|split; [|split]]; [|by rewrite Hdat|done|cbn; intros _; lia]. split; [done|]. rewrite Hdat. apply Hat.
  - eapply (effect_queue _ _ _ (key queue) []); [exact Hat|by apply change_gone| |exact Hcalm].
    by intros [? _].
Qed.

(** ** Any call *)

Lemma program_effect c infos d σ σ' :
  chain_inv σ → outer_call infos → (∀ clock, clock_get = Ok clock → clock = c) →
  process_instruction ID infos d σ = Ok ((), σ') →
  step_effect c σ σ' ∧ ∀ k, fits 64 (lamports_at σ' k).
Proof.
  intros Hinv Hout Hc Hrun. unfold process_instruction in Hrun. inv_M.
  match goal with H : (let '(_, _) := ?p in _) _ = _ |- _ => destruct p as [[] d'] end.
  - by eapply initialize_effect.
  - by eapply modify_effect.
  - by eapply initialize_queue_effect.
  - by eapply request_effect.
  - by eapply provide_effect.
  - by eapply delegate_effect.
  - by eapply close_effect.
  - by eapply request_effect.
  - by eapply purge_effect.
  - by eapply request_effect.
  - by eapply request_effect.
  - by eapply pause_effect.
Qed.
End Handlers.
