(* ===== verification/ChainTheorems.v ===== *)
(** * The program on chain: theorems

    Whatever sequence of transactions the program sees, from its deployment
    on: its queues stay well formed and solvent, and a request leaves its
    queue only by a fulfilment with a valid proof or by a purge after its
    time to live. *)

From S2P Require Import Prelude Pod Api QueueLayout QueueAccount QueueInv QueueAdd QueueSpec QueueTheorems QueueTiny Solana Accounts Instructions Verify Handlers Provide Reason Laws RequestTheorems ProvideTheorems QueueAdmin Solvency Registry RegistryTheorems Chain ChainCalm ChainHandlers.

(** ** The requests of a queue are determined by its bytes *)

Lemma item_reads_fun acc it r1 r2 : item_reads acc it r1 → item_reads acc it r2 → r1 = r2.
Proof.
  intros [] []. destruct r1, r2; cbn in *.
  repeat match goal with H : ?a = Ok _, H' : ?a = Ok _ |- _ => rewrite H in H'; injection H' as <- end.
  congruence.
Qed.

Lemma represents_fun acc rs1 rs2 : represents acc rs1 → represents acc rs2 → rs1 = rs2.
Proof.
  intros H1%represents_iter H2%represents_iter. generalize dependent rs2.
  induction H1 as [|it r1 its rs1 [Hr1 _] _ IH]; intros rs2 H2; inversion H2 as [|? r2 ? rs2' [Hr2 _] H2']; subst; [done|].
  f_equal; [by eapply item_reads_fun|by apply IH].
Qed.

Lemma holds_requests_fun d rs1 rs2 : holds_requests d rs1 → holds_requests d rs2 → rs1 = rs2.
Proof.
  intros [(acc1 & -> & H1)|(-> & acc1 & -> & Ht1)] [(acc2 & Hd & H2)|(-> & acc2 & Hd & Ht2)];
    try apply app_inv_head in Hd as <-; [by eapply represents_fun| | |done].
  - destruct Ht2, (represents_bounds H1). lia.
  - destruct Ht1, (represents_bounds H2). lia.
Qed.

Lemma queue_at_fun σ k rs1 rs2 : queue_at σ k rs1 → queue_at σ k rs2 → rs1 = rs2.
Proof. intros [_ H1] [_ H2]. by eapply holds_requests_fun. Qed.

(** ** One step *)

Lemma elem_of_insert_at {A} i (x y : A) l : x ∈ insert_at i y l ↔ x = y ∨ x ∈ l.
Proof.
  unfold insert_at. rewrite elem_of_app, elem_of_cons.
  rewrite <- (take_drop (Z.to_nat i) l) at 3. rewrite elem_of_app. tauto.
Qed.

Lemma elem_of_delete_ne {A} (i : nat) (x y : A) (l : list A) : l !! i = Some y → x ∈ l → x ≠ y → x ∈ delete i l.
Proof.
  intros Hi Hx Hne. rewrite <- (take_drop_middle _ _ _ Hi) in Hx. rewrite delete_take_drop.
  apply elem_of_app in Hx as [Hx|Hx]; apply elem_of_app; [by left|].
  apply elem_of_cons in Hx as [->|Hx]; [done|by right].
Qed.

Section Effect.
Context {rt : Runtime} {laws : RuntimeLaws} {clw : ChainLaws}.

(** What an effect means for one queue. *)
Lemma effect_on_queue c σ σ' k rs :
  step_effect c σ σ' → queue_at σ k rs →
  ∃ after, queue_change c σ k rs after ∧ queue_after σ σ' k rs after.
Proof.
  intros Heff Hat. pose proof (queue_at_like _ _ _ Hat) as Hlike.
  assert (∀ P, calm P σ σ' → P k →
    ∃ after, queue_change c σ k rs after ∧ queue_after σ σ' k rs after) as Hcalm.
  { intros P Hc HP. exists (Some rs). split; [apply change_none|].
    destruct (calm_keeps _ _ _ Hc k HP Hlike) as (Ho & Hd & Hl).
    split; [split; [done|rewrite Hd; apply Hat]|]. split; [by rewrite Hd|]. split; [done|]. intros _. lia. }
  destruct Heff as [Hc|k0 rs0 after Hat0 Hch Haf Hc|k0 o Hn _ _ Hc].
  - by eapply Hcalm.
  - destruct (decide (k = k0)) as [->|Hne]; [|by eapply Hcalm].
    rewrite (queue_at_fun _ _ _ _ Hat Hat0). by exists after.
  - apply (Hcalm _ Hc). intros ->. by apply Hn.
Qed.

(** Where the queues of the new state come from. *)
Lemma effect_new_queue c σ σ' k :
  step_effect c σ σ' → queue_like σ' k →
  queue_like σ k ∨ (queue_at σ' k [] ∧ ∃ o, queue_addressed o (data_at σ' k) k).
Proof.
  intros Heff Hlike. destruct Heff as [Hc|k0 rs0 after Hat0 _ _ Hc|k0 o _ Hat Hof Hc].
  - left. by eapply calm_new.
  - left. destruct (decide (k = k0)) as [->|Hne]; [by eapply queue_at_like|by eapply calm_new].
  - destruct (decide (k = k0)) as [->|Hne]; [right; split; [done|by exists o]|left; by eapply calm_new].
Qed.

Lemma effect_inv c σ σ' :
  chain_inv σ → step_effect c σ σ' → (∀ k, fits 64 (lamports_at σ' k)) → chain_inv σ'.
Proof.
  intros [Hfit Hq] Heff Hfit'. split; [done|]. intros k Hlike.
  destruct (effect_new_queue _ _ _ _ Heff Hlike) as [Hlike0|[[_ Hh] Hof]].
  - destruct (Hq k Hlike0) as (rs & Hh & Hok & Hof & Hf).
    assert (queue_at σ k rs) as Hat by (split; [apply Hlike0|done]).
    destruct (effect_on_queue _ _ _ _ _ Heff Hat) as ([rs'|] & _ & Haf); [|done].
    destruct Haf as ([_ Hh'] & Hix & Hok' & Hf'). exists rs'.
    split_and!; [done|by apply Hok'|destruct Hof as [o Ho]; exists o; unfold queue_addressed; by rewrite Hix|].
    intros Hnx. specialize (Hf Hnx). specialize (Hf' Hnx). lia.
  - exists []. split_and!; [done|constructor|done|]. intros _. destruct (Hfit' k). done.
Qed.

Lemma others_effect c σ σ' :
  (∀ k, fits 64 (lamports_at σ k)) → other_programs σ σ' →
  step_effect c σ σ' ∧ ∀ k, fits 64 (lamports_at σ' k).
Proof.
  intros Hfit [Hk Hn Hf]. split; [|by apply Hf]. apply effect_calm. by apply calm_others.
Qed.

Lemma genesis_inv σ : genesis σ → chain_inv σ.
Proof.
  intros [Hq Hl]. split; [done|]. intros k Hk. destruct (Hq k Hk) as [Hh Ho]. exists [].
  split_and!; [done|constructor|done|]. intros _. destruct (Hl k). done.
Qed.
End Effect.

Section Chain.
Context {chain : Chain} {ob : OraclesBorsh} {rb : RequestBorsh}.
Context {obl : OraclesBorshLaws} {rbl : RequestBorshLaws}.

#[local] Instance chain_rt_laws c : RuntimeLaws (rt:=chain_rt c) := chain_runtime_laws c.
#[local] Instance chain_rt_chain_laws c : ChainLaws (rt:=chain_rt c) := chain_laws c.

(** The invariant does not depend on the time. *)
Lemma queue_addressed_time c c' o d k :
  queue_addressed (rt:=chain_rt c) o d k → queue_addressed (rt:=chain_rt c') o d k.
Proof. unfold queue_addressed, oracle_queue_pda. intros ->. by rewrite (chain_address c c'). Qed.

Lemma request_ok_time c c' r : request_ok (rt:=chain_rt c) r → request_ok (rt:=chain_rt c') r.
Proof.
  intros [Hp Hb (args & sh & time & Hwf & hp & scoped & Hr)]. split; [done| |].
  - intros Hm. rewrite (Hb Hm). unfold scoped_identity_pda. by rewrite (chain_address c c').
  - exists args, sh, time. split; [done|]. exists hp, scoped. rewrite Hr at 1.
    unfold stored_request, combined_hash. by rewrite (chain_hash c c').
Qed.

Lemma chain_inv_time c c' σ : chain_inv (rt:=chain_rt c) σ → chain_inv (rt:=chain_rt c') σ.
Proof.
  intros [Hf Hq]. split; [done|]. intros k Hk. destruct (Hq k Hk) as (rs & Hh & Hok & [o Ho] & Hl).
  exists rs. split_and!; [done| |exists o; by eapply queue_addressed_time|done].
  eapply Forall_impl; [exact Hok|]. intros r. apply request_ok_time.
Qed.

Lemma chain_step_effect c σ σ' :
  chain_inv (rt:=chain_rt c) σ → chain_step c σ σ' →
  step_effect (H:=chain_rt c) c σ σ' ∧ chain_inv (rt:=chain_rt c) σ'.
Proof.
  intros Hinv Hstep.
  assert (step_effect (H:=chain_rt c) c σ σ' ∧ ∀ k, fits 64 (lamports_at σ' k)) as [Heff Hfit].
  { destruct Hstep as [infos d σ σ' Hc Hout Hrun|σ σ' Ho].
    - eapply program_effect; [done|exact Hout|intros clock; by apply chain_clock|exact Hrun].
    - apply others_effect; [apply Hinv|done]. }
  split; [done|]. by eapply effect_inv.
Qed.

Lemma reachable_inv c σ : reachable σ → chain_inv (rt:=chain_rt c) σ.
Proof.
  intros (c0 & σ0 & Hg & Hrun). apply (genesis_inv (rt:=chain_rt c0)), (chain_inv_time c0 c) in Hg as Hinv. clear Hg.
  induction Hrun as [|σ1 σ2 σ3 [c' Hstep] _ IH]; [done|]. apply IH.
  apply (chain_inv_time c'). eapply chain_step_effect; [|exact Hstep]. by apply (chain_inv_time c).
Qed.

Lemma reachable_step c σ σ' : reachable σ → chain_step c σ σ' → reachable σ'.
Proof.
  intros (c0 & σ0 & Hg & Hrun) Hstep. exists c0, σ0. split; [done|].
  eapply rtc_r; [exact Hrun|]. by exists c.
Qed.

(** The life of a queue: in any state the chain can be in, one more step,
    whatever it is, does to the requests of a queue one of five things:
    nothing; it adds one request, stamped with the time, that calls back
    another program; it removes one that was made in an earlier slot and for
    which the oracle of the queue has given a proof that verifies under its
    registered key; it removes those that are past their time to live; or it
    closes or delegates the queue, and then there was no request in it. *)
Theorem queue_life c σ σ' k rs :
  reachable σ → chain_step c σ σ' → queue_at σ k rs →
  ∃ after, queue_change (rt:=chain_rt c) c σ k rs after ∧
    match after with Some rs' => queue_at σ' k rs' | None => owner_at σ' k ≠ ID ∨ ∀ rs', ¬ holds_requests (data_at σ' k) rs' end.
Proof.
  intros Hr Hstep Hat. pose proof (reachable_inv c _ Hr) as Hinv.
  destruct (chain_step_effect c _ _ Hinv Hstep) as [Heff _].
  destruct (effect_on_queue _ _ _ _ _ Heff Hat) as (after & Hch & Haf). exists after. split; [done|].
  destruct after as [rs'|]; [apply Haf|]. destruct (decide (owner_at σ' k = ID)) as [Ho|]; [right|by left].
  intros rs' Hh. apply Haf. by apply (queue_at_like _ _ rs').
Qed.

(** How a request can end, between two states of the chain. *)
Definition fulfilled_between (k : list byte) (r : request) (c : Clock) (σ1 : Store) : Prop :=
  r_slot r < clock_slot c ∧ proved (rt:=chain_rt c) σ1 k r.
Definition expired_at (r : request) (c : Clock) : Prop :=
  request_expired (created_at_from (clock_unix_timestamp c)) r = true.

(** C3. No request is lost: if a request was in a queue at some point and
    is not there at a later one, then at a step in between, when it was still
    there, it was fulfilled, with a proof that verifies under the registered key of the queue's
    oracle and in a later slot than its own, or it was past its time to
    live. *)
Theorem no_request_lost σ σ' k rs r :
  reachable σ → queue_at σ k rs → r ∈ rs → chain_run σ σ' →
  (∃ rs', queue_at σ' k rs' ∧ r ∈ rs') ∨
  ∃ c σ1 σ2, chain_run σ σ1 ∧ chain_step c σ1 σ2 ∧ chain_run σ2 σ' ∧
    (∃ rs1, queue_at σ1 k rs1 ∧ r ∈ rs1) ∧ (fulfilled_between k r c σ1 ∨ expired_at r c).
Proof.
  intros Hr Hat Hin Hrun. revert rs Hr Hat Hin.
  induction Hrun as [σ|σ σm σ' [c Hstep] Hrun IH]; intros rs Hr Hat Hin; [left; by exists rs|].
  pose proof (reachable_step _ _ _ Hr Hstep) as Hr'.
  destruct (chain_step_effect c _ _ (reachable_inv c _ Hr) Hstep) as [Heff _].
  destruct (effect_on_queue _ _ _ _ _ Heff Hat) as (after & Hch & Haf).
  assert (∀ rs', after = Some rs' → r ∈ rs' →
    (∃ rs', queue_at σ' k rs' ∧ r ∈ rs') ∨
    ∃ c σ1 σ2, chain_run σ σ1 ∧ chain_step c σ1 σ2 ∧ chain_run σ2 σ' ∧
      (∃ rs1, queue_at σ1 k rs1 ∧ r ∈ rs1) ∧ (fulfilled_between k r c σ1 ∨ expired_at r c)) as Hgo.
  { intros rs' -> Hin'. destruct Haf as (Hat' & _).
    destruct (IH rs' Hr' Hat' Hin') as [?|(c1 & σ1 & σ2 & H1 & Hs & H2 & Hq1 & Hend)]; [by left|right].
    exists c1, σ1, σ2. split_and!; [|done..]. eapply rtc_l; [by exists c|done]. }
  assert (fulfilled_between k r c σ ∨ expired_at r c →
    ∃ c σ1 σ2, chain_run σ σ1 ∧ chain_step c σ1 σ2 ∧ chain_run σ2 σ' ∧
      (∃ rs1, queue_at σ1 k rs1 ∧ r ∈ rs1) ∧ (fulfilled_between k r c σ1 ∨ expired_at r c)) as Hend.
  { intros He. exists c, σ, σm. split_and!; [apply rtc_refl|done|done|by exists rs|done]. }
  destruct Hch as [|args sh hp scoped pos i _ _ Hi bump|i r0 Hi Hs Hp| |He].
  - by apply (Hgo rs).
  - apply (Hgo _ eq_refl). by apply elem_of_insert_at; right.
  - destruct (decide (r = r0)) as [->|Hne]; [right; apply Hend; by left|].
    apply (Hgo _ eq_refl). by eapply elem_of_delete_ne.
  - destruct (request_expired (created_at_from (clock_unix_timestamp c)) r) eqn:Hx; [right; apply Hend; by right|].
    apply (Hgo _ eq_refl). apply list_elem_of_filter. by rewrite Hx.
  - subst rs. by apply not_elem_of_nil in Hin.
Qed.

(** C7. Solvency: in every state the chain can be in, each queue that charges
    fees holds at least the fees of all its pending requests, and what it
    holds beyond them never decreases while it is open. *)
Theorem queues_solvent c σ σ' k rs :
  reachable σ → queue_at σ k rs → is_fee_exempt_ephemeral_queue k = false →
  pending_fees rs ≤ lamports_at σ k ∧
  (chain_step c σ σ' → ∀ rs', queue_at σ' k rs' →
     lamports_at σ k - pending_fees rs ≤ lamports_at σ' k - pending_fees rs').
Proof.
  intros Hr Hat Hnx. pose proof (reachable_inv c _ Hr) as Hinv. split.
  - destruct (ci_queues _ Hinv k) as (rs1 & Hh & _ & _ & Hf); [by eapply queue_at_like|].
    rewrite (holds_requests_fun _ _ _ (proj2 Hat) Hh). by apply Hf.
  - intros Hstep rs' Hat'. destruct (chain_step_effect c _ _ Hinv Hstep) as [Heff _].
    destruct (effect_on_queue _ _ _ _ _ Heff Hat) as ([rs2|] & _ & Haf).
    + destruct Haf as (Hat2 & _ & _ & Hf). rewrite (queue_at_fun _ _ _ _ Hat' Hat2). by apply Hf.
    + destruct Haf. by eapply queue_at_like.
Qed.
End Chain.
