(* ===== verification/ChainIds.v ===== *)
(** * The ids of pending requests

    The id of a request is the input of the oracle's proof, and a fulfilment
    finds its request by it. The program binds it to the position of the item
    in the account; here, what that is good for in every state the chain can
    be in. *)

From coqutil Require Import Word.LittleEndianList.
From S2P Require Import Prelude Pod Api QueueLayout QueueAccount QueueInv QueueAdd QueueSpec QueueTheorems QueueTiny Solana Accounts Instructions Verify Handlers Provide Reason Laws RequestTheorems ProvideTheorems QueueAdmin Solvency Registry RegistryTheorems Chain ChainCalm ChainHandlers ChainTheorems.

(** What the program hashed for the id of [r]. *)
Definition id_input (r : request) (args : RequestRandomness) (slothash : list byte) (time : Z) : list byte :=
  mjoin (combined_hash_input args (r_slot r) slothash time (r_pos r)).

(** The input has the slot behind the seed, and ends with the position. *)
Lemma id_input_position r r' args args' sh sh' time time' :
  fits 32 (r_pos r) → fits 32 (r_pos r') → id_input r args sh time = id_input r' args' sh' time' → r_pos r = r_pos r'.
Proof.
  intros Hf Hf' H. unfold id_input, combined_hash_input in H. cbn [mjoin list_join] in H.
  rewrite !app_nil_r, !app_assoc in H. apply app_inj_2 in H as [_ H]; [|by rewrite !length_le_split].
  by apply (le_split_inj 4).
Qed.

Lemma id_input_slot r r' args args' sh sh' time time' :
  request_wf args → request_wf args' → fits 64 (r_slot r) → fits 64 (r_slot r') →
  id_input r args sh time = id_input r' args' sh' time' → r_slot r = r_slot r'.
Proof.
  intros (Hs & _) (Hs' & _) Hf Hf' H. unfold id_input, combined_hash_input in H. cbn [mjoin list_join] in H.
  unfold zlen in *. apply app_inj_1 in H as [_ H]; [|lia].
  apply app_inj_1 in H as [H _]; [|by rewrite !length_le_split]. by apply (le_split_inj 8).
Qed.

Lemma holds_positions d rs : holds_requests d rs → NoDup (r_pos <$> rs) ∧ Forall (λ r, fits 32 (r_pos r)) rs.
Proof. intros [(acc & _ & Hrep)|[-> _]]; [by apply (represents_positions Hrep)|]. by split; constructor. Qed.

Section Chain.
Context {chain : Chain} {ob : OraclesBorsh} {rb : RequestBorsh}.
Context {obl : OraclesBorshLaws} {rbl : RequestBorshLaws}.

#[local] Existing Instances chain_rt_laws chain_rt_chain_laws.

(** Pending requests have ids of their own: in every state the chain can
    be in, each pending request of a queue was made by the program with the id
    that it hashed from the request's seed, slot, slot hash, callback, time
    and position, and for two of them what was hashed is different, even if
    the same caller asked for the same thing in the same slot. So two pending
    requests share an id only if the hash function collides on these two. *)
Theorem pending_ids_distinct c σ k rs i j r r' :
  reachable σ → queue_at σ k rs → rs !! i = Some r → rs !! j = Some r' → i ≠ j →
  ∃ args sh time args' sh' time',
    made_from (rt:=chain_rt c) r args sh time ∧ made_from (rt:=chain_rt c) r' args' sh' time' ∧
    r_id r = hashv (Runtime:=chain_rt c) (combined_hash_input args (r_slot r) sh time (r_pos r)) ∧
    r_id r' = hashv (Runtime:=chain_rt c) (combined_hash_input args' (r_slot r') sh' time' (r_pos r')) ∧
    id_input r args sh time ≠ id_input r' args' sh' time'.
Proof.
  intros Hr Hat Hi Hj Hne. destruct (ci_queues _ (reachable_inv c _ Hr) k) as (rs1 & Hh & Hok & _);
    [by eapply queue_at_like|].
  rewrite <- (holds_requests_fun _ _ _ (proj2 Hat) Hh) in Hok. destruct (holds_positions _ _ (proj2 Hat)) as [Hnd Hfit].
  rewrite Forall_lookup in Hok, Hfit.
  destruct (Hok i r Hi) as [_ _ (args & sh & time & Hm)], (Hok j r' Hj) as [_ _ (args' & sh' & time' & Hm')].
  exists args, sh, time, args', sh', time'. split_and!; [done|done| | |].
  - destruct Hm as (_ & hp & scoped & Heq). by rewrite Heq at 1.
  - destruct Hm' as (_ & hp & scoped & Heq). by rewrite Heq at 1.
  - intros Heq%id_input_position; [|by eapply Hfit..]. apply Hne.
    by eapply (NoDup_lookup _ i j (r_pos r) Hnd); rewrite list_lookup_fmap; [rewrite Hi|rewrite Hj, Heq].
Qed.
End Chain.
