(* ===== verification/ChainKeys.v ===== *)
(** * The registered VRF keys over time

    A fulfilment is checked under the key in the oracle's account. Here: who
    can change such a key, among all that a step of the chain may do. The
    relation [same_keys P] plays the part that [calm] plays for queues. *)

From S2P Require Import Prelude Pod Api QueueLayout QueueAccount QueueInv QueueAdd QueueSpec QueueTheorems QueueTiny Solana Accounts Instructions Verify Handlers Provide Reason Laws RequestTheorems ProvideTheorems QueueAdmin Solvency Registry RegistryTheorems Chain ChainCalm ChainHandlers ChainTheorems.

(** The VRF key that the program reads in the account [k]. *)
Definition key_of (d : list byte) : option (list byte) :=
  match try_from_bytes (T:=Oracle) d with Ok o => Some (vrf_pubkey o) | _ => None end.
Definition key_at (σ : Store) (k : list byte) : option (list byte) :=
  if bytes_eqb (owner_at σ k) ID then key_of (data_at σ k) else None.

Definition same_keys (P : list byte → Prop) (σ σ' : Store) : Prop := ∀ k, P k → key_at σ' k = key_at σ k.

#[global] Instance same_keys_preorder P : PreOrder (same_keys P).
Proof.
  split; [done|]. intros σ1 σ2 σ3 H1 H2 k HP. by rewrite (H2 k HP), (H1 k HP).
Qed.

(** ** Reading a key *)

Definition oracle_tag : byte := byte.of_Z (discriminator_tag DOracle).

Lemma key_at_owned σ k : owner_at σ k = ID → key_at σ k = key_of (data_at σ k).
Proof. intros H. unfold key_at. by rewrite (proj2 (bytes_eqb_eq _ _) H). Qed.

Lemma key_at_foreign σ k : owner_at σ k ≠ ID → key_at σ k = None.
Proof. intros H. unfold key_at. by rewrite (proj2 (bytes_eqb_neq _ _) H). Qed.

Lemma key_at_oracle σ k (o : Oracle) :
  owner_at σ k = ID → try_from_bytes (data_at σ k) = Ok o → key_at σ k = Some (vrf_pubkey o).
Proof. intros Ho Hd. rewrite key_at_owned by done. unfold key_of. by rewrite Hd. Qed.

Lemma key_at_Some σ k pk :
  key_at σ k = Some pk → owner_at σ k = ID ∧ ∃ o : Oracle, try_from_bytes (data_at σ k) = Ok o ∧ pk = vrf_pubkey o.
Proof.
  unfold key_at, key_of. destruct (bytes_eqb _ ID) eqn:Ho; [|done]. apply bytes_eqb_eq in Ho.
  destruct (try_from_bytes _) as [o| |]; [|done..]. intros [= <-]. split; [done|]. by exists o.
Qed.

(** Data that begins otherwise holds no key. *)
Lemma key_of_head d : head d ≠ Some oracle_tag → key_of d = None.
Proof.
  intros Hh. unfold key_of. destruct (try_from_bytes d) as [o| |] eqn:Hd; [|done..].
  apply try_from_bytes_Ok in Hd as (_ & Hs & _). destruct d as [|b l]; [done|].
  change (slice (b :: l) 0 1) with [b] in Hs. injection Hs as ->. by destruct Hh.
Qed.

Lemma key_of_zeroed d : zeroed d → key_of d = None.
Proof.
  intros ->. apply key_of_head. unfold zeros. by destruct (Z.to_nat _).
Qed.

Lemma key_of_zeros n : key_of (zeros n) = None.
Proof. apply key_of_head. unfold zeros. by destruct (Z.to_nat n). Qed.

Lemma key_at_head σ k : head (data_at σ k) ≠ Some oracle_tag → key_at σ k = None.
Proof. intros Hh. unfold key_at. rewrite key_of_head by done. by destruct (bytes_eqb _ _). Qed.

Lemma key_at_queue_like σ k : queue_like σ k → key_at σ k = None.
Proof. intros [_ Hh]. apply key_at_head. by rewrite Hh. Qed.

Lemma key_at_upd σ k d : key_at (upd_data σ k d) k = if bytes_eqb (owner_at σ k) ID then key_of d else None.
Proof. unfold key_at. by rewrite get_upd_data. Qed.

(** ** What keeps the keys *)

(** Keys do not depend on lamports. *)
Lemma keys_upd_lamports P σ k n : same_keys P σ (upd_lamports σ k n).
Proof. intros k' _. unfold key_at. by rewrite data_upd_lamports, owner_upd_lamports. Qed.

Lemma keys_upd_data P σ k d : (P k → owner_at σ k = ID → key_of d = key_of (data_at σ k)) → same_keys P σ (upd_data σ k d).
Proof.
  intros Hd k' HP. destruct (decide (k = k')) as [<-|]; [|unfold key_at; by rewrite get_upd_data_ne].
  rewrite key_at_upd. unfold key_at. destruct (bytes_eqb _ _) eqn:Ho; [|done]. by apply Hd, bytes_eqb_eq.
Qed.

(** Where there is no key, data without one may be written. *)
Lemma keys_no_key P σ k d :
  (P k → key_at σ k = None) → (P k → key_of d = None) → same_keys P σ (upd_data σ k d).
Proof.
  intros Hk Hd. apply keys_upd_data. intros HP Ho. specialize (Hk HP). rewrite key_at_owned in Hk by done.
  by rewrite Hk, Hd.
Qed.

Lemma keys_store_eq P σ σ1 σ2 : store_eq σ2 σ1 → same_keys P σ σ1 → same_keys P σ σ2.
Proof. intros He H k HP. rewrite <- (H k HP). unfold key_at. by rewrite (He k). Qed.

Lemma keys_others P σ σ' :
  (∀ k, owner_at σ k = ID → owner_at σ' k = ID ∧ data_at σ' k = data_at σ k) →
  (∀ k, owner_at σ k ≠ ID → owner_at σ' k = ID → zeroed (data_at σ' k)) → same_keys P σ σ'.
Proof.
  intros Hk Hn k _. destruct (decide (owner_at σ k = ID)) as [Ho|Ho].
  - destruct (Hk k Ho) as [Ho' Hd]. rewrite !key_at_owned by done. by rewrite Hd.
  - rewrite (key_at_foreign σ) by done. destruct (decide (owner_at σ' k = ID)) as [Ho'|Ho'].
    + rewrite key_at_owned by done. by apply key_of_zeroed, Hn.
    + by apply key_at_foreign.
Qed.

Section Keys.
Context {rt : Runtime} {laws : RuntimeLaws} {clw : ChainLaws}.
Implicit Types (P : list byte → Prop) (σ : Store).

Lemma keys_cpi P ix infos seeds σ σ' :
  invoke_signed ix infos seeds σ = Ok σ' → ix_program_id ix ≠ ID → same_keys P σ σ'.
Proof.
  intros Hi Hp. apply keys_others.
  - intros k Ho. by destruct (cpi_isolation _ _ _ _ _ k Hi Hp Ho) as (_ & ? & ?).
  - intros k. by eapply cpi_new_accounts.
Qed.

(** The account [k], if it is one of the program, begins otherwise than an
    oracle's. Resizing keeps that. *)
Definition other_tag σ k : Prop := owner_at σ k = ID → head (data_at σ k) ≠ Some oracle_tag.

Lemma other_tag_key σ k : other_tag σ k → key_at σ k = None.
Proof.
  intros H. destruct (decide (owner_at σ k = ID)) as [Ho|Ho]; [by apply key_at_head, H|by apply key_at_foreign].
Qed.

Lemma head_zeros_other n : head (zeros n) ≠ Some oracle_tag.
Proof. unfold zeros. by destruct (Z.to_nat n). Qed.

Lemma other_tag_cpi ix infos seeds σ σ' k :
  invoke_signed ix infos seeds σ = Ok σ' → ix_program_id ix ≠ ID → other_tag σ k → other_tag σ' k.
Proof.
  intros Hi Hp Hk Ho'. destruct (decide (owner_at σ k = ID)) as [Ho|Ho].
  - destruct (cpi_isolation _ _ _ _ _ k Hi Hp Ho) as (_ & -> & _). by apply Hk.
  - rewrite (cpi_new_accounts _ _ _ _ _ k Hi Hp Ho Ho'). apply head_zeros_other.
Qed.

Lemma keys_resize P σ σ' i n :
  0 ≤ n → (P (key i) → other_tag σ (key i)) → account_resize i n σ = Ok σ' →
  same_keys P σ σ' ∧ (other_tag σ (key i) → other_tag σ' (key i)).
Proof.
  intros Hn Hi Hr. apply resize_law in Hr; [|done].
  set (d := data_at σ (key i)) in *.
  assert (head d ≠ Some oracle_tag → head (take (Z.to_nat n) d ++ zeros (n - zlen d)) ≠ Some oracle_tag) as Hh.
  { destruct d as [|b d']; [rewrite take_nil; intros _; apply head_zeros_other|].
    destruct (Z.to_nat n) as [|m] eqn:Hm; [|done]. intros _. assert (n = 0) as -> by lia. apply head_zeros_other. }
  split.
  - eapply keys_store_eq; [exact Hr|]. apply keys_upd_data. intros HP Ho.
    specialize (Hi HP Ho). rewrite !key_of_head; [done|exact Hi|by apply Hh].
  - intros Ht. unfold other_tag. rewrite (Hr (key i)), get_upd_data. intros Ho. by apply Hh, Ht.
Qed.

(** ** Creating, resizing and closing accounts *)

(** An account can be created where there is no key, and holds none. *)
Lemma keys_create_account P target sys payer space owner seeds mb σ σ' u :
  0 ≤ space < 2 ^ 63 → zlen owner = 32 →
  create_account_at target sys payer space owner seeds mb σ = Ok (u, σ') →
  same_keys P σ σ' ∧ other_tag σ (key target) ∧ other_tag σ' (key target).
Proof.
  intros Hsp Hown Hrun. unfold create_account_at in Hrun. inv_M.
  destruct (lamports_at σ (key target) =? 0); inv_M.
  - split; [by eapply keys_cpi, system_create_program|].
    apply create_account_law in Hrun as Hl; [|done..]. destruct Hl as (Hd & _). split.
    + intros Ho. destruct (cpi_isolation _ _ _ _ _ _ Hrun (system_create_program _ _ _ _ _) Ho) as (_ & Hd' & _).
      rewrite <- Hd', Hd. apply head_zeros_other.
    + intros _. rewrite Hd. apply head_zeros_other.
  - match goal with H : (if _ then _ else _) σ = Ok (_, ?s) |- _ => rename s into σp; rename H into Hp end.
    assert (same_keys P σ σp ∧ ∀ k, owner_at σ k = ID → owner_at σp k = ID ∧ data_at σp k = data_at σ k) as [Hpay Hdat].
    { destruct (0 <? _); unfold invoke in Hp; inv_M; [|by split]. split.
      - eapply keys_cpi; [exact Hp|apply system_transfer_program].
      - intros k Ho. destruct (cpi_isolation _ _ _ _ _ k Hp (system_transfer_program _ _ _) Ho) as (_ & ? & ?). done. }
    match goal with H : invoke_signed (system_allocate _ _) _ _ _ = Ok ?s |- _ => rename H into Hal; rename s into σa end.
    assert (data_at σa (key target) = zeros space) as Hz by by apply allocate_law in Hal as (? & _).
    split; [|split].
    + etrans; [exact Hpay|]. etrans; eapply keys_cpi; [exact Hal|apply system_allocate_program|exact Hrun|apply system_assign_program].
    + intros Ho. destruct (Hdat _ Ho) as [Ho1 Hd1].
      destruct (cpi_isolation _ _ _ _ _ _ Hal (system_allocate_program _ _) Ho1) as (_ & Hd2 & _).
      rewrite <- Hd1, <- Hd2, Hz. apply head_zeros_other.
    + intros _. apply assign_cpi_law in Hrun as (-> & _); [|done]. rewrite Hz. apply head_zeros_other.
Qed.

Lemma keys_resize_pda P payer pda sys n σ σ' u :
  0 ≤ n → (P (key pda) → other_tag σ (key pda)) → resize_pda payer pda sys n σ = Ok (u, σ') →
  same_keys P σ σ' ∧ (other_tag σ (key pda) → other_tag σ' (key pda)).
Proof.
  intros Hn Ht Hrun. unfold resize_pda in Hrun. inv_M.
  match goal with H : (if _ then _ else _) σ = Ok (_, ?s) |- _ =>
    assert (same_keys P σ s ∧ (other_tag σ (key pda) → other_tag s (key pda))) as [Hc Ht1];
    [destruct (0 <? _); unfold invoke in H; inv_M; split;
     [eapply keys_cpi; [exact H|apply system_transfer_program]
     |by eapply other_tag_cpi, system_transfer_program
     |etrans; apply keys_upd_lamports
     |unfold other_tag; by rewrite !data_upd_lamports, !owner_upd_lamports]|] end.
  eapply keys_resize in Hrun as [Hk Hr]; [|done|intros HP; by apply Ht1, Ht]. split; [by etrans|by intros; apply Hr, Ht1].
Qed.

Lemma keys_close_account a r σ σ' u :
  close_account a r σ = Ok (u, σ') → same_keys (λ k, k ≠ key a) σ σ' ∧ key_at σ' (key a) = None.
Proof.
  intros Hrun. unfold close_account in Hrun. inv_M.
  match goal with H : Ok (account_assign _ _ _) = Ok _ |- _ => injection H as <- end.
  set (σ1 := upd_lamports (upd_lamports _ _ _) _ _) in *.
  set (σ2 := account_assign a system_program_ID σ1) in *.
  assert (owner_at σ2 (key a) ≠ ID) as Ho2.
  { unfold σ2. rewrite assign_law. destruct (decide _) as [_|[]]; [|done]. cbn. intros He.
    apply bytes_eqb_eq in He. by vm_compute in He. }
  assert (same_keys (λ k, k ≠ key a) σ1 σ2) as Has.
  { intros k Hk. unfold key_at, σ2. rewrite assign_law. by destruct (decide (k = key a)). }
  assert (∀ P, same_keys P σ2 σ') as Hres by (intros P; by apply (keys_resize P) in Hrun as [? _]; [|lia|intros _ Ho; by destruct Ho2]).
  split.
  - transitivity σ1; [unfold σ1; etrans; apply keys_upd_lamports|]. by etrans.
  - rewrite (Hres (λ _, True) (key a) I). by apply key_at_foreign.
Qed.

Lemma keys_transfer_fee P q o n u σ σ' : transfer_fee q o n σ = Ok (u, σ') → same_keys P σ σ'.
Proof. intros (_ & _ & _ & ->)%transfer_fee_Ok. unfold move_lamports. etrans; apply keys_upd_lamports. Qed.

(** An operation on a queue keeps its tag. *)
Lemma keys_with_queue P {A} i (m : queue_op A) a h σ σ' :
  Queue_try_from_bytes (data_at σ (key i)) = Ok h → with_queue i m σ = Ok (a, σ') → same_keys P σ σ'.
Proof.
  intros Hh (acc & acc' & _ & _ & ->)%with_queue_Ok. apply keys_upd_data. intros _ Ho.
  destruct (Queue_header_like _ _ _ Ho Hh) as [_ Hd]. destruct (data_at σ (key i)) as [|b d]; [done|].
  injection Hd as ->. by rewrite !key_of_head.
Qed.

(** Counting queues in an oracle's account leaves its key. *)
Lemma keys_set_open_queues P σ k (o : Oracle) n :
  try_from_bytes (data_at σ k) = Ok o → fits 64 n →
  same_keys P σ (upd_data σ k (splice (data_at σ k) 8 (bytes_of (set_open_queues o n)))).
Proof.
  intros Ho Hn. apply keys_upd_data. intros _ _. unfold key_of. rewrite Ho.
  rewrite (try_from_bytes_store _ o (set_open_queues o n) Ho); [done|].
  pose proof (try_from_bytes_wf _ _ Ho) as Hwf. rewrite Oracle_wf_iff in *. cbn. naive_solver.
Qed.
End Keys.

(** ** Changes of a key *)

Section Change.
Context {rt : Runtime} {ob : OraclesBorsh}.

(** The program's upgrade authority, as its program data account has it. *)
Definition upgrade_authority (σ : Store) (a : list byte) : Prop :=
  deserialize_loader_state (data_at σ (fst (find_program_address [ID] bpf_loader_upgradeable_ID))) = Some (Some (Some a)).

Definition signed_by_authority (σ : Store) (infos : list AccountInfo) : Prop :=
  ∃ s, s ∈ infos ∧ info_is_signer s = true ∧ upgrade_authority σ (key s).

(** What [modify_oracles] does to the key of one account: it registers a valid
    one where there is none, or removes that of an oracle without queues. *)
Inductive key_change (σ : Store) (k : list byte) (args : ModifyOracle) : option (list byte) → Prop :=
| key_registered :
    mo_operation args = 0 → key_at σ k = None →
    validate_ristretto (mo_oracle_pubkey args) = true → mo_oracle_pubkey args ≠ zeros 32 →
    key_change σ k args (Some (mo_oracle_pubkey args))
| key_removed (o : Oracle) :
    mo_operation args = 1 → try_from_bytes (data_at σ k) = Ok o → open_queues o = 0 →
    key_change σ k args None.
End Change.

Section Handlers.
Context {rt : Runtime} {ob : OraclesBorsh} {rb : RequestBorsh}.
Context {laws : RuntimeLaws} {clw : ChainLaws} {obl : OraclesBorshLaws}.
Implicit Types (σ : Store) (infos : list AccountInfo) (P : list byte → Prop).

Lemma registry_other_tag σ k r : try_from_bytes_with_discriminator (data_at σ k) = Ok r → other_tag σ k.
Proof.
  intros Hr _. unfold try_from_bytes_with_discriminator in Hr. inv_outcome.
  match goal with H : bytes_eqb _ _ = true |- _ => apply bytes_eqb_eq in H; rename H into Hd end.
  destruct (data_at σ k) as [|b l]; [done|].
  change (slice (b :: l) 0 8) with (b :: take 7 l) in Hd.
  apply (f_equal head) in Hd. cbn in Hd |- *. injection Hd as Hd. intros [= Hq]. by rewrite Hq in Hd.
Qed.

Lemma registry_no_key r b : to_bytes_with_discriminator r = Ok b → head b ≠ Some oracle_tag.
Proof. unfold to_bytes_with_discriminator. intros (v & _ & Hb)%bind_Ok. by injection Hb as <-. Qed.

Lemma initialize_keys P infos d σ σ' : process_initialize infos d σ = Ok ((), σ') → same_keys P σ σ'.
Proof.
  intros Hrun. destruct infos as [|s [|oi [|sys [|]]]]; [done..| |done].
  unfold process_initialize, account_is_empty, create_pda in Hrun. inv_M.
  match goal with H : to_bytes_with_discriminator _ = _ |- _ =>
    pose proof (registry_no_key _ _ H) as Hhead; apply (registry_round_trip []) in H as [_ Hlen]; [|constructor] end.
  match goal with H : create_account_at _ _ _ _ _ _ _ _ = _ |- _ =>
    apply (keys_create_account P) in H as (Hk & _ & Ht); [|by rewrite Hlen|apply zlen_ID] end.
  match goal with H : copy_into _ _ _ _ = Ok _ |- _ => apply copy_into_Ok in H as (_ & _ & Hl & ->) end.
  rewrite splice_whole by lia. etrans; [exact Hk|].
  apply keys_no_key; intros _; [by apply other_tag_key|by apply key_of_head].
Qed.

Lemma write_registry_keys signer oi sys reg σ σ' u :
  write_registry signer oi sys reg σ = Ok (u, σ') →
  same_keys (λ k, k ≠ key oi) σ σ' ∧ key_at σ' (key oi) = None.
Proof.
  intros Hrun. unfold write_registry in Hrun. inv_M.
  assert (0 ≤ size_with_discriminator reg) as Hsz
    by (unfold size_with_discriminator; pose proof (zlen_nonneg (oracles reg)); lia).
  match goal with H : resize_pda _ _ _ _ _ = _ |- _ =>
    apply (keys_resize_pda (λ k, k ≠ key oi)) in H as [Hk _]; [|done|by intros []] end.
  match goal with H : to_bytes_with_discriminator _ = _ |- _ => pose proof (registry_no_key _ _ H) as Hhead end.
  match goal with H : copy_into _ _ _ _ = Ok _ |- _ => apply copy_into_Ok in H as (_ & _ & Hl & ->) end.
  rewrite splice_whole by lia. split.
  - etrans; [exact Hk|]. by apply keys_no_key; intros [].
  - apply key_at_head. by rewrite get_upd_data.
Qed.

Lemma initialize_queue_keys P infos d σ σ' : process_initialize_oracle_queue infos d σ = Ok ((), σ') → same_keys P σ σ'.
Proof.
  intros Hrun. unfold process_initialize_oracle_queue in Hrun. inv_M.
  match goal with H : args_try_from_bytes d = Ok ?a |- _ => rename a into args; rename H into Hargs end.
  destruct infos as [|signer [|o [|od [|q [|sys [|]]]]]]; [done..| |done].
  unfold is_empty_or_zeroed in Hrun. inv_M.
  match goal with H : forallb _ _ = true |- _ => apply forallb_zero in H as Hz end.
  match goal with H : (_ <=? MAX_QUEUE_ACCOUNT_SIZE) = true |- _ => apply Z.leb_le in H as Hmax end.
  assert (0 ≤ ioq_target_size args) as Ht.
  { unfold args_try_from_bytes, pod_try_from_bytes in Hargs.
    destruct (Z.eqb_spec (zlen d) (size_of InitializeOracleQueue)) as [He|]; [|done].
    injection Hargs as <-. by destruct (pod_read_wf (A:=InitializeOracleQueue) d He) as [[[??]?]?]. }
  pose proof (zlen_nonneg (data_at σ (key q))) as Hsz.
  assert (other_tag σ (key q)) as Hq by (intros _; rewrite Hz; apply head_zeros_other).
  assert (∀ n seeds bump σ1 u, 0 ≤ n < 2 ^ 63 → create_or_resize q signer sys n seeds bump σ = Ok (u, σ1) →
    same_keys P σ σ1 ∧ other_tag σ1 (key q)) as Hcr.
  { clear -Hq laws clw. intros n seeds bump σ1 u Hn H. unfold create_or_resize, create_pda in H. inv_M.
    destruct (negb _); [inv_M|].
    - apply (keys_create_account P) in H as (? & _ & ?); [done..|apply zlen_ID].
    - apply (keys_resize_pda P) in H as [? Ht]; [by split; [|apply Ht]|lia|done]. }
  destruct (_ <? _) eqn:Hgrow in Hrun.
  - eapply Hcr in Hrun; [by destruct Hrun|]. apply Z.ltb_lt in Hgrow.
    unfold MAX_EXTRA_BYTES, MAX_QUEUE_ACCOUNT_SIZE, saturating_sub in *. lia.
  - inv_M. unfold MAX_QUEUE_ACCOUNT_SIZE in *.
    match goal with H : create_or_resize _ _ _ _ _ _ _ = _ |- _ => apply Hcr in H as [Hk Hq1]; [|lia] end.
    match goal with H : init_queue_header _ _ _ = Ok (_, ?s) |- _ =>
      assert (same_keys P σ s) as Hk2; [unfold init_queue_header in H; inv_M|] end.
    { etrans; [exact Hk|]. apply keys_no_key; intros _; [by apply other_tag_key|]. apply key_of_head.
      match goal with H : copy_into _ _ _ _ = Ok _ |- _ => apply copy_into_Ok in H as (_ & _ & _ & ->) end. done. }
    etrans; [exact Hk2|].
    match goal with H : try_from_bytes _ = Ok ?v |- _ => pose proof (try_from_bytes_wf _ _ H) as Hw;
      apply keys_set_open_queues; [exact H|rewrite Oracle_wf_iff in Hw] end.
    unfold saturating_add. destruct_and!. fits_lia.
Qed.

(** The handlers that work on one queue. *)
Lemma request_keys P infos d hp scoped σ σ' :
  process_request_randomness infos d hp scoped σ = Ok ((), σ') → same_keys P σ σ'.
Proof.
  intros Hrun. unfold process_request_randomness, is_sysvar in Hrun. inv_M.
  destruct infos as [|signer [|identity [|queue [|system [|slothashes [|]]]]]]; try by inv_M. inv_M.
  match goal with Hw : with_queue _ _ _ = _ |- _ => eapply (keys_with_queue P) in Hw as Hk; [|eassumption] end.
  etrans; [exact Hk|]. destruct (negb _); unfold invoke in *; inv_M; [|done].
  eapply keys_cpi; [exact Hrun|apply system_transfer_program].
Qed.

Lemma purge_keys P infos d σ σ' :
  process_purge_expired_requests infos d σ = Ok ((), σ') → same_keys P σ σ'.
Proof.
  intros Hrun. unfold process_purge_expired_requests in Hrun. inv_M.
  destruct infos as [|o [|queue [|]]]; try by inv_M. inv_M.
  match goal with Hw : with_queue _ _ _ = _ |- _ => eapply (keys_with_queue P) in Hw as Hk; [|eassumption] end.
  etrans; [exact Hk|]. destruct (_ && _); inv_M; [|done]. by eapply keys_transfer_fee.
Qed.

Lemma pause_keys P infos d σ σ' : process_set_queue_paused infos d σ = Ok ((), σ') → same_keys P σ σ'.
Proof.
  intros Hrun. unfold process_set_queue_paused in Hrun. inv_M.
  destruct infos as [|o [|queue [|]]]; [done..| |done]. inv_M. eapply keys_with_queue; eassumption.
Qed.

Lemma close_keys P infos d σ σ' : process_close_oracle_queue infos d σ = Ok ((), σ') → same_keys P σ σ'.
Proof.
  intros Hrun. unfold process_close_oracle_queue in Hrun. inv_M.
  destruct infos as [|o [|od [|queue [|]]]]; [done..| |done]. inv_M.
  match goal with H : owner_at σ (key queue) = ID |- _ => rename H into Ho end.
  match goal with H : Queue_try_from_bytes _ = Ok _ |- _ => rename H into Hh end.
  pose proof (Queue_header_like _ _ _ Ho Hh) as Hlike.
  match goal with Hw : with_queue _ _ _ = Ok (_, ?s) |- _ =>
    eapply (keys_with_queue (λ _, True)) in Hw as Hk; [|exact Hh] end.
  match goal with H : try_from_bytes _ = Ok ?v |- _ => pose proof (try_from_bytes_wf _ _ H) as Hw;
    eapply (keys_set_open_queues (λ _, True) _ _ _ (saturating_sub (open_queues v) 1)) in H as Hk2 end.
  2: { rewrite Oracle_wf_iff in Hw. unfold saturating_sub. destruct_and!. fits_lia. }
  pose proof (same_keys_preorder (λ _, True)) as Hpre. apply keys_close_account in Hrun as [Hk3 Hn].
  intros k _. destruct (decide (k = key queue)) as [->|Hne].
  - by rewrite Hn, key_at_queue_like.
  - by rewrite (Hk3 k Hne), (Hk2 k I), (Hk k I).
Qed.

Lemma delegate_keys P infos d σ σ' : process_delegate_oracle_queue infos d σ = Ok ((), σ') → same_keys P σ σ'.
Proof.
  intros Hrun. unfold process_delegate_oracle_queue in Hrun. inv_M.
  do 8 (destruct infos as [|? infos]; [by inv_M|]). destruct infos; [|by inv_M]. inv_M.
  match goal with H : delegate_account (_ :: ?q :: _) _ _ _ _ = _ |- _ => rename q into queue; rename H into Hdel end.
  match goal with H : owner_at σ (key queue) = ID |- _ => rename H into Ho end.
  match goal with H : Queue_try_from_bytes _ = Ok _ |- _ => pose proof (Queue_header_like _ _ _ Ho H) as Hlike end.
  intros k _. destruct (decide (owner_at σ' k = ID)) as [Ho'|Ho'].
  - rewrite (key_at_owned σ') by done. destruct (decide (owner_at σ k = ID)) as [Hok|Hok].
    + destruct (delegate_isolation _ _ _ _ _ _ _ _ k Hdel Hok) as [_ Hd]. rewrite (key_at_owned σ) by done.
      by destruct (Hd Ho') as [-> _].
    + rewrite (key_at_foreign σ) by done. apply key_of_zeroed. by eapply delegate_new_accounts.
  - rewrite (key_at_foreign σ') by done. destruct (decide (k = key queue)) as [->|Hne].
    + symmetry. by apply key_at_queue_like.
    + destruct (decide (owner_at σ k = ID)) as [Hok|Hok]; [|by rewrite key_at_foreign].
      destruct (delegate_isolation _ _ _ _ _ _ _ _ k Hdel Hok) as [Hd _]. by destruct (Ho' (Hd Hne)).
Qed.

(** The queue with the request that a successful fulfilment takes out. *)
Lemma provide_queue_holds o pid od queue cb rem d σ σ' :
  chain_inv σ → process_provide_randomness (o :: pid :: od :: queue :: cb :: rem) d σ = Ok ((), σ') →
  ∃ rs, queue_data (data_at σ (key queue)) rs ∧ Forall request_ok rs.
Proof.
  intros Hinv Hrun. unfold process_provide_randomness in Hrun. inv_M.
  match goal with H : Queue_try_from_bytes _ = Ok _ |- _ =>
    eapply queue_read in H as (rs & [_ Hh] & Hp & _); [|done..] end.
  destruct Hh as [Hq|(-> & acc & Hd & Ht)]; [by exists rs|exfalso].
  match goal with H : with_queue _ _ _ = _ |- _ =>
    eapply with_queue_tiny in H as (acc' & Hm & _); [|exact Hd|exact Ht] end.
  unfold provide_queue_step in Hm. inv_q. by rewrite (tiny_find Ht) in *.
Qed.

Lemma provide_keys P infos d σ σ' :
  chain_inv σ → process_provide_randomness infos d σ = Ok ((), σ') → same_keys P σ σ'.
Proof.
  intros Hinv Hrun.
  destruct infos as [|o [|pid [|od [|queue [|cb rem]]]]]; try (unfold process_provide_randomness in Hrun; by inv_M).
  destruct (provide_queue_holds _ _ _ _ _ _ _ _ _ Hinv Hrun) as (rs & Hq & Hp).
  destruct (provide_randomness_inv o pid od queue cb rem d σ σ' rs Hq Hrun)
    as (args & oracle & header & i & r & clock & acc' & seeds & σ2 & _ & _ & (Hh & _ & Ho & _) &
        (Hf & _) & _ & (_ & _ & Hcpi) & Hfee).
  apply list_find_Some in Hf as (Hi & _). rewrite Forall_forall in Hp.
  destruct (Hp r) as [Hrp _]; [by eapply list_elem_of_lookup_2|].
  transitivity (upd_data σ (key queue) (discriminator_to_bytes DQueue ++ acc')).
  { apply keys_no_key; intros _; [|by apply key_of_head]. by eapply key_at_queue_like, Queue_header_like. }
  etrans; [by eapply keys_cpi|]. destruct (is_fee_exempt_ephemeral_queue _); [by subst σ'|].
  destruct Hfee as (_ & _ & ->). unfold move_lamports. etrans; apply keys_upd_lamports.
Qed.

(** ** Changing the registry *)

Lemma push_oracle_keys args odi sys signer reg σ σ' reg' :
  lamports_wf σ → zlen (mo_oracle_pubkey args) = 32 → push_oracle args odi sys signer reg σ = Ok (reg', σ') →
  same_keys (λ k, k ≠ key odi) σ σ' ∧ key_at σ (key odi) = None ∧
  key_at σ' (key odi) = Some (mo_oracle_pubkey args).
Proof.
  intros Hwf Hpk Hrun.
  pose proof (push_oracle_Ok _ _ _ _ _ _ _ _ Hwf Hpk Hrun) as (_ & Ho & (cl & _ & Hd) & Hs & _).
  split; [|split; [|by apply (key_at_oracle _ _ _ Ho Hd)]].
  - intros k Hk. destruct (Hs k Hk) as [Hdk Hok]. unfold key_at. by rewrite Hdk, Hok.
  - unfold push_oracle, create_program_account in Hrun. rewrite size_of_Oracle in Hrun. inv_M.
    match goal with H : create_account_at _ _ _ _ _ _ _ _ = _ |- _ =>
      apply (keys_create_account (λ _, True)) in H as (_ & Ht & _); [|lia|apply zlen_ID] end.
    by apply other_tag_key.
Qed.

(** [modify_oracles] changes the key of the account it names, if any. *)
Lemma modify_keys infos d σ σ' :
  lamports_wf σ → process_modify_oracles infos d σ = Ok ((), σ') →
  ∃ args, args_try_from_bytes d = Ok args ∧ signed_by_authority σ infos ∧
    ∀ k, key_at σ' k = key_at σ k ∨
      (k = fst (oracle_data_pda (mo_identity args)) ∧ key_change σ k args (key_at σ' k)).
Proof.
  intros Hwf Hrun. unfold process_modify_oracles in Hrun. inv_M.
  match goal with H : args_try_from_bytes d = Ok ?a |- _ => rename a into args; rename H into Hargs end.
  assert (zlen (mo_oracle_pubkey args) = 32) as Hpk.
  { unfold args_try_from_bytes, pod_try_from_bytes in Hargs.
    destruct (Z.eqb_spec (zlen d) (size_of ModifyOracle)) as [He|]; [|done].
    injection Hargs as <-. by destruct (pod_read_wf (A:=ModifyOracle) d He) as [[??]?]. }
  destruct infos as [|s [|oi [|odi [|pd [|sys [|]]]]]]; [done..| |done].
  unfold load_program_upgrade_authority in Hrun. inv_M.
  match goal with H : ok_or (deserialize_loader_state _) _ = Ok _ |- _ => apply ok_or_Ok in H as Hauth end.
  repeat match goal with H : ok_or _ _ = Ok _ |- _ => apply ok_or_Ok in H as -> end.
  repeat match goal with H : bytes_eqb _ _ = true |- _ => apply bytes_eqb_eq in H end. subst.
  exists args. split; [done|]. split.
  { exists s. split; [set_solver|]. split; [done|]. unfold upgrade_authority.
    match goal with H : _ = key pd |- _ => rewrite H end. congruence. }
  match goal with H : try_from_bytes_with_discriminator _ = Ok _ |- _ =>
    apply registry_other_tag, other_tag_key in H as Hoi end.
  apply write_registry_keys in Hrun as [Hw Hw'].
  intros k. destruct (decide (k = key oi)) as [->|Hk]; [left; by rewrite Hw', Hoi|]. rewrite (Hw k Hk).
  match goal with H : key odi = _ |- _ => fold (oracle_data_pda (mo_identity args)) in H; rename H into Hodi end.
  destruct (decide (k = key odi)) as [->|Hne].
  - right. split; [done|]. destruct (Z.eqb_spec (mo_operation args) 0) as [Hop|Hop].
    + match goal with H : push_oracle _ _ _ _ _ _ = _ |- _ =>
        apply push_oracle_keys in H as (_ & Hn & ->); [|done..] end.
      match goal with H : negb (true && _) = true |- _ =>
        apply negb_true_iff, orb_false_iff in H as [Hz%bytes_eqb_neq Hv%negb_false_iff] end.
      by apply key_registered.
    + destruct (Z.eqb_spec (mo_operation args) 1) as [Hop1|]; [|by inv_M].
      match goal with H : retain_oracle _ _ _ _ _ = _ |- _ => unfold retain_oracle in H; inv_M end.
      match goal with H : close_account _ _ _ = _ |- _ => apply keys_close_account in H as [_ ->] end.
      match goal with H : (open_queues _ =? 0) = true |- _ => apply Z.eqb_eq in H end.
      by eapply key_removed.
  - left. destruct (mo_operation args =? 0).
    + match goal with H : push_oracle _ _ _ _ _ _ = _ |- _ => apply push_oracle_keys in H as (Hs & _ & _); [|done..] end.
      by apply Hs.
    + destruct (mo_operation args =? 1); [|by inv_M].
      match goal with H : retain_oracle _ _ _ _ _ = _ |- _ => unfold retain_oracle in H; inv_M end.
      match goal with H : close_account _ _ _ = _ |- _ => apply keys_close_account in H as [Hs _] end.
      by apply Hs.
Qed.

(** No other instruction changes a key. *)
Lemma instruction_keys P infos d σ σ' :
  chain_inv σ → process_instruction ID infos d σ = Ok ((), σ') →
  same_keys P σ σ' ∨
  ∃ d', parse_instruction8 ID d = Ok (IxModifyOracle, d') ∧ process_modify_oracles infos d' σ = Ok ((), σ').
Proof.
  intros Hinv Hrun. unfold process_instruction in Hrun. inv_M.
  match goal with H : parse_instruction8 _ _ = Ok ?p |- _ => rename H into Hp; destruct p as [[] d'] end.
  2: { right. exists d'. split; assumption. }
  all: left.
  - eapply initialize_keys; eassumption.
  - eapply initialize_queue_keys; eassumption.
  - eapply request_keys; eassumption.
  - eapply provide_keys; eassumption.
  - eapply delegate_keys; eassumption.
  - eapply close_keys; eassumption.
  - eapply request_keys; eassumption.
  - eapply purge_keys; eassumption.
  - eapply request_keys; eassumption.
  - eapply request_keys; eassumption.
  - eapply pause_keys; eassumption.
Qed.

Lemma others_keys P σ σ' : other_programs σ σ' → same_keys P σ σ'.
Proof. intros [Hk Hn _]. apply keys_others; [|done]. intros k' Ho. by destruct (Hk k' Ho) as (? & ? & _). Qed.

End Handlers.

(** ** Every step of the chain *)

Section Chain.
Context {chain : Chain} {ob : OraclesBorsh} {rb : RequestBorsh}.
Context {obl : OraclesBorshLaws} {rbl : RequestBorshLaws}.

#[local] Existing Instances chain_rt_laws chain_rt_chain_laws.

(** A successful [modify_oracles] instruction of the upgrade authority. *)
Definition authority_instruction (c : Clock) (σ σ' : Store) (args : ModifyOracle) : Prop :=
  ∃ infos d d', process_instruction (rt:=chain_rt c) ID infos d σ = Ok ((), σ') ∧
    parse_instruction8 ID d = Ok (IxModifyOracle, d') ∧ args_try_from_bytes d' = Ok args ∧
    signed_by_authority (rt:=chain_rt c) σ infos.

(** One step. A key is never replaced by another in one. *)
Lemma vrf_key_step c σ σ' k :
  reachable σ → chain_step c σ σ' →
  key_at σ' k = key_at σ k ∨
  ∃ args, authority_instruction c σ σ' args ∧
    k = fst (oracle_data_pda (rt:=chain_rt c) (mo_identity args)) ∧ key_change (rt:=chain_rt c) σ k args (key_at σ' k).
Proof.
  intros Hr Hstep. pose proof (reachable_inv c _ Hr) as Hinv.
  destruct Hstep as [infos d σ σ' _ _ Hrun|σ σ' Ho]; [|left; by apply (others_keys (λ _, True) σ σ')].
  destruct (instruction_keys (rt:=chain_rt c) (λ _, True) _ _ _ _ Hinv Hrun) as [Hs|(d' & Hp & Hmod)]; [left; by apply Hs|].
  destruct (modify_keys (rt:=chain_rt c) infos d' σ σ') as (args & Hargs & Hsig & Hall); [by apply chain_lamports_wf|done|].
  destruct (Hall k) as [?|[Hk Hch]]; [by left|right]. exists args.
  split; [|split; [exact Hk|exact Hch]]. exists infos, d, d'. split_and!; assumption.
Qed.

Lemma vrf_key_registered σ σ' k pk :
  reachable σ → chain_run σ σ' → key_at σ k = None → key_at σ' k = Some pk →
  ∃ c σ1 σ2 args, chain_run σ σ1 ∧ chain_step c σ1 σ2 ∧ authority_instruction c σ1 σ2 args ∧
    mo_operation args = 0 ∧ mo_oracle_pubkey args = pk ∧
    k = fst (oracle_data_pda (rt:=chain_rt c) (mo_identity args)) ∧
    rtc (λ s s', step_at_some_time s s' ∧ key_at s' k = Some pk) σ2 σ'.
Proof.
  intros Hr Hrun Hno. revert σ' Hrun pk.
  refine (rtc_ind_r _ _ _ _); [congruence|]. intros σm σ' Hrun [c Hstep] IH pk Hpk.
  assert (reachable σm) as Hrm.
  { destruct Hr as (c0 & σ0 & Hg & H0). exists c0, σ0. split; [done|]. by etrans. }
  destruct (vrf_key_step c σm σ' k Hrm Hstep) as [Hsame|(args & Hauth & Hk & Hch)].
  - destruct (IH pk) as (c1 & σ1 & σ2 & args & H1 & H2 & H3 & H4 & H5 & H6 & H7); [congruence|].
    exists c1, σ1, σ2, args. split_and!; [done..|]. eapply rtc_r; [exact H7|]. split; [by exists c|done].
  - rewrite Hpk in Hch. inversion Hch; subst. exists c, σm, σ', args. by split_and!; [..|apply rtc_refl].
Qed.

(** C8. The VRF keys that proofs are checked under are the upgrade authority's: in
    any state the chain can be in, one more step, whatever it is, leaves the
    key that the program reads in any account as it is, unless the step is a
    successful [modify_oracles] instruction signed by the program's upgrade
    authority and the account that of the identity it names. Then either the
    account had no key, and the one it gets is the instruction's and a valid
    one; or it was the account of an oracle without open queues, and has none
    any more. So between a state in which an account has no key and a later
    one in which it has one, there is a step at which the upgrade authority
    registered exactly this key, and no step since then has changed it. *)
Theorem vrf_keys_authorised σ k :
  reachable σ →
  (∀ c σ', chain_step c σ σ' →
     key_at σ' k = key_at σ k ∨
     ∃ args, authority_instruction c σ σ' args ∧
       k = fst (oracle_data_pda (rt:=chain_rt c) (mo_identity args)) ∧
       key_change (rt:=chain_rt c) σ k args (key_at σ' k)) ∧
  (∀ σ' pk, chain_run σ σ' → key_at σ k = None → key_at σ' k = Some pk →
     ∃ c σ1 σ2 args, chain_run σ σ1 ∧ chain_step c σ1 σ2 ∧ authority_instruction c σ1 σ2 args ∧
       mo_operation args = 0 ∧ mo_oracle_pubkey args = pk ∧
       k = fst (oracle_data_pda (rt:=chain_rt c) (mo_identity args)) ∧
       rtc (λ s s', step_at_some_time s s' ∧ key_at s' k = Some pk) σ2 σ').
Proof.
  intros Hr. split; [intros c σ' Hstep; by apply vrf_key_step|].
  intros σ' pk Hrun Hno Hpk. by apply vrf_key_registered.
Qed.
End Chain.
