(* ===== verification/ChainSpec.v ===== *)
(** * What the program promises: an abstract service

    The specification of the whole program as a labelled transition system
    that knows no accounts, bytes or instructions: the pending requests of
    each queue and the VRF key of each oracle. Each step of the chain is one
    step of this service ([step_simulated]), so every history of the chain is
    a history of the service, whose events account for every request. *)

From stdpp Require Import functions.
From S2P Require Import Prelude Pod Api QueueLayout QueueAccount QueueInv QueueAdd QueueSpec QueueTheorems QueueTiny Solana Accounts Instructions Verify Handlers Provide Reason Laws RequestTheorems ProvideTheorems QueueAdmin Solvency Registry RegistryTheorems Chain ChainCalm ChainHandlers ChainTheorems ChainKeys.

(** ** The service *)

Record Service : Type := mkService {
  sv_queues : list byte → option (list request);
  sv_keys : list byte → option (list byte);
}.

Definition set_queue (k : list byte) (q : option (list request)) (A : Service) : Service :=
  mkService (<[k := q]> (sv_queues A)) (sv_keys A).
Definition set_key (k : list byte) (pk : option (list byte)) (A : Service) : Service :=
  mkService (sv_queues A) (<[k := pk]> (sv_keys A)).

(** The requests that wait in a queue; none in one that is not open. *)
Definition pending (A : Service) (k : list byte) : list request := default [] (sv_queues A k).

Inductive event : Type :=
| EvNothing
| EvOpened (queue : list byte)
| EvRequested (queue : list byte) (r : request)
| EvFulfilled (queue : list byte) (r : request) (pk output : list byte)
| EvExpired (queue : list byte) (rs : list request)
| EvGone (queue : list byte)
| EvRegistered (oracle pk : list byte)
| EvRemoved (oracle : list byte).

Definition expired_now (c : Clock) (r : request) : bool :=
  request_expired (created_at_from (clock_unix_timestamp c)) r.

Section Spec.
Context {rt : Runtime}.

Inductive spec_step (c : Clock) (A : Service) : event → Service → Prop :=
| spec_nothing : spec_step c A EvNothing A
| spec_open k : sv_queues A k = None → spec_step c A (EvOpened k) (set_queue k (Some []) A)
| spec_request k rs args slothash (hp scoped : bool) pos i :
    sv_queues A k = Some rs → request_wf args → rr_callback_program_id args ≠ ID → 0 ≤ i ≤ zlen rs →
    let bump := if scoped then snd (scoped_identity_pda (rr_callback_program_id args)) else 0 in
    let r := stored_request args (clock_slot c) slothash (clock_unix_timestamp c) hp scoped bump pos in
    spec_step c A (EvRequested k r) (set_queue k (Some (insert_at i r rs)) A)
| spec_fulfil k rs i r o pk output proof :
    sv_queues A k = Some rs → rs !! i = Some r → r_slot r < clock_slot c →
    queue_of o k → sv_keys A (fst (oracle_data_pda o)) = Some pk → verify_vrf pk (r_id r) output proof = true →
    spec_step c A (EvFulfilled k r pk output) (set_queue k (Some (delete i rs)) A)
| spec_expire k rs :
    sv_queues A k = Some rs →
    spec_step c A (EvExpired k (filter (λ r, expired_now c r) rs))
      (set_queue k (Some (filter (λ r, negb (expired_now c r)) rs)) A)
| spec_gone k : sv_queues A k = Some [] → spec_step c A (EvGone k) (set_queue k None A)
| spec_register o pk :
    sv_keys A (fst (oracle_data_pda o)) = None → validate_ristretto pk = true → pk ≠ zeros 32 →
    spec_step c A (EvRegistered (fst (oracle_data_pda o)) pk) (set_key (fst (oracle_data_pda o)) (Some pk) A)
| spec_remove o pk :
    sv_keys A (fst (oracle_data_pda o)) = Some pk →
    spec_step c A (EvRemoved (fst (oracle_data_pda o))) (set_key (fst (oracle_data_pda o)) None A).
End Spec.

(** The accounts of the chain hold what the service knows. *)
Record abstracts (σ : Store) (A : Service) : Prop := {
  abs_queues k rs : sv_queues A k = Some rs ↔ queue_at σ k rs;
  abs_keys k : sv_keys A k = key_at σ k;
}.

(** ** One step *)

Lemma calm_queue_at P σ σ' k rs : calm P σ σ' → P k → queue_at σ k rs → queue_at σ' k rs.
Proof.
  intros Hc HP Hat. destruct (calm_keeps _ _ _ Hc k HP (queue_at_like _ _ _ Hat)) as (Ho & Hd & _).
  split; [done|]. rewrite Hd. apply Hat.
Qed.

Section Simulation.
Context {rt : Runtime} {laws : RuntimeLaws} {clw : ChainLaws}.

Lemma calm_queue_at_iff P σ σ' k rs :
  chain_inv σ → calm P σ σ' → P k → queue_at σ' k rs ↔ queue_at σ k rs.
Proof.
  intros Hinv Hc HP. split; [|by eapply calm_queue_at]. intros Hat'.
  assert (queue_like σ k) as Hlike by (eapply calm_new; [exact Hc|done|by eapply queue_at_like]).
  destruct (ci_queues _ Hinv k Hlike) as (rs0 & Hh & _).
  assert (queue_at σ k rs0) as Hat by (split; [apply Hlike|done]).
  by rewrite (queue_at_fun _ _ _ _ Hat' (calm_queue_at _ _ _ _ _ Hc HP Hat)).
Qed.

(** Only the queue [k] changes, and the service is told. *)
Lemma abstracts_queue σ σ' A k q :
  chain_inv σ → abstracts σ A → same_keys (λ _, True) σ σ' → calm (λ k', k' ≠ k) σ σ' →
  (∀ rs, q = Some rs ↔ queue_at σ' k rs) → abstracts σ' (set_queue k q A).
Proof.
  intros Hinv [Hq Hk] Hsk Hc Hk'. split; cbn.
  - intros k' rs. destruct (decide (k = k')) as [<-|Hne]; [by rewrite fn_lookup_insert|].
    rewrite fn_lookup_insert_ne by done. rewrite Hq. symmetry. by apply (calm_queue_at_iff (λ k', k' ≠ k)).
  - intros k'. by rewrite Hsk, Hk.
Qed.

Lemma abstracts_calm σ σ' A :
  chain_inv σ → abstracts σ A → same_keys (λ _, True) σ σ' → calm (λ _, True) σ σ' → abstracts σ' A.
Proof.
  intros Hinv [Hq Hk] Hsk Hc. split; [|intros k; by rewrite Hsk, Hk].
  intros k rs. rewrite Hq. symmetry. by apply (calm_queue_at_iff (λ _, True)).
Qed.

Lemma queue_at_some σ k rs : queue_at σ k rs → ∀ rs', Some rs = Some rs' ↔ queue_at σ k rs'.
Proof. intros Hat rs'. split; [by intros [= <-]|]. intros Hat'. by rewrite (queue_at_fun _ _ _ _ Hat Hat'). Qed.

(** A change of a queue is a step of the service. *)
Lemma change_simulated c σ A k rs after :
  abstracts σ A → queue_at σ k rs → queue_change c σ k rs after →
  ∃ e, spec_step c A e (set_queue k after A) ∨ (after = Some rs ∧ e = EvNothing).
Proof.
  intros [Hq Hk] Hat%Hq Hch. destruct Hch as [|args sh hp scoped pos i Hwf Hp Hi bump|i r Hi Hs Hpr| | ->].
  - exists EvNothing. by right.
  - eexists. left. by eapply (spec_request c A k rs).
  - destruct Hpr as (o & oracle & output & proof & Ho & Hown & Hd & Hv). eexists. left.
    eapply spec_fulfil; try done. rewrite Hk. by apply key_at_oracle.
  - eexists. left. by eapply spec_expire.
  - eexists. left. by apply spec_gone.
Qed.

Lemma effect_simulated c σ σ' A :
  chain_inv σ → abstracts σ A → same_keys (λ _, True) σ σ' → step_effect c σ σ' →
  ∃ e A', spec_step c A e A' ∧ abstracts σ' A'.
Proof.
  intros Hinv HA Hsk [Hc|k rs after Hat Hch Haf Hc|k o Hn Hat _ Hc].
  - exists EvNothing, A. split; [apply spec_nothing|by eapply abstracts_calm].
  - destruct (change_simulated c σ A k rs after HA Hat Hch) as (e & [Hstep|[-> _]]).
    + exists e, (set_queue k after A). split; [done|]. apply (abstracts_queue σ); try done.
      destruct after as [rs'|]; [apply queue_at_some, Haf|].
      intros rs'. split; [done|]. intros Hat'%queue_at_like. by destruct Haf.
    + exists EvNothing, A. split; [apply spec_nothing|]. destruct Haf as [Hat' _].
      destruct (abstracts_queue σ σ' A k (Some rs) Hinv HA Hsk Hc (queue_at_some _ _ _ Hat')) as [Hq' Hk'].
      split; [|exact Hk']. intros k' rs'. rewrite <- Hq'. cbn.
      destruct (decide (k = k')) as [<-|Hne]; [|by rewrite fn_lookup_insert_ne].
      rewrite fn_lookup_insert. by rewrite (proj2 (abs_queues _ _ HA k rs) Hat).
  - exists (EvOpened k), (set_queue k (Some []) A). split; [apply spec_open|].
    + destruct (sv_queues A k) as [rs|] eqn:Hk; [|done]. apply (abs_queues _ _ HA), queue_at_like in Hk. done.
    + apply (abstracts_queue σ); try done. by apply queue_at_some.
Qed.

(** A change of the key of [k] alone. *)
Lemma abstracts_key σ σ' A k :
  chain_inv σ → abstracts σ A → calm (λ _, True) σ σ' → same_keys (λ k', k' ≠ k) σ σ' →
  abstracts σ' (set_key k (key_at σ' k) A).
Proof.
  intros Hinv [Hq Hk] Hc Hsk. split; cbn.
  - intros k' rs. rewrite Hq. symmetry. by apply (calm_queue_at_iff (λ _, True)).
  - intros k'. destruct (decide (k = k')) as [<-|Hne]; [by rewrite fn_lookup_insert|].
    rewrite fn_lookup_insert_ne by done. rewrite Hk. symmetry. by apply Hsk.
Qed.
End Simulation.

(** ** Every step *)

Section Chain.
Context {chain : Chain} {ob : OraclesBorsh} {rb : RequestBorsh}.
Context {obl : OraclesBorshLaws} {rbl : RequestBorshLaws}.

#[local] Existing Instances chain_rt_laws chain_rt_chain_laws.

(** Registering and removing an oracle are steps of the service. *)
Lemma modify_simulated c infos d σ σ' A :
  chain_inv (rt:=chain_rt c) σ → abstracts σ A → outer_call (rt:=chain_rt c) infos →
  process_modify_oracles (rt:=chain_rt c) infos d σ = Ok ((), σ') →
  ∃ e A', spec_step (rt:=chain_rt c) c A e A' ∧ abstracts σ' A'.
Proof.
  intros Hinv HA Hout Hrun. destruct (modify_calm (rt:=chain_rt c) _ _ _ _ Hinv Hout Hrun) as [Hc _].
  destruct (modify_keys (rt:=chain_rt c) infos d σ σ') as (args & _ & _ & Hall); [by apply chain_lamports_wf|done|].
  set (k := fst (oracle_data_pda (rt:=chain_rt c) (mo_identity args))) in *.
  assert (same_keys (λ k', k' ≠ k) σ σ') as Hsk by (intros k' Hne; by destruct (Hall k') as [?|[? _]]).
  pose proof (abstracts_key (rt:=chain_rt c) _ _ _ _ Hinv HA Hc Hsk) as HA'. pose proof (abs_keys _ _ HA k) as Hk.
  destruct (decide (key_at σ' k = key_at σ k)) as [Heq|Hne].
  - exists EvNothing, A. split; [apply spec_nothing|]. apply (abstracts_calm (rt:=chain_rt c) σ); try done.
    intros k' _. destruct (decide (k' = k)) as [->|?]; [done|by apply Hsk].
  - destruct (Hall k) as [?|[_ Hch]]; [done|].
    destruct Hch as [Hop Hn Hv Hz|o Hop Ho Hq].
    + eexists _, _. split; [|exact HA']. apply (spec_register (rt:=chain_rt c)); [by rewrite <- Hn|done|done].
    + destruct (key_at σ k) as [pk|] eqn:Hpk; [|done].
      eexists _, _. split; [|exact HA']. by apply (spec_remove (rt:=chain_rt c) c A _ pk).
Qed.

(** The simulation: a step of the chain is one step of the service. *)
Lemma step_simulated c σ σ' A :
  reachable σ → abstracts σ A → chain_step c σ σ' →
  ∃ e A', spec_step (rt:=chain_rt c) c A e A' ∧ abstracts σ' A'.
Proof.
  intros Hr HA Hstep. pose proof (reachable_inv c _ Hr) as Hinv.
  destruct (chain_step_effect c _ _ Hinv Hstep) as [Heff _].
  destruct Hstep as [infos d σ σ' Hc Hout Hrun|σ σ' Ho].
  - destruct (instruction_keys (rt:=chain_rt c) (λ _, True) _ _ _ _ Hinv Hrun) as [Hs|(d' & _ & Hmod)].
    + by eapply (effect_simulated (rt:=chain_rt c)).
    + by eapply modify_simulated.
  - eapply (effect_simulated (rt:=chain_rt c)); try done. by apply others_keys.
Qed.

(** ** Histories *)

(** Steps of the chain at the times [cs]; of the service, with events; and of
    both side by side, with the same requests and keys before and after every
    step. *)
Inductive timed_run : Store → list Clock → Store → Prop :=
| timed_nil σ : timed_run σ [] σ
| timed_cons c cs σ1 σ2 σ3 : chain_step c σ1 σ2 → timed_run σ2 cs σ3 → timed_run σ1 (c :: cs) σ3.

Inductive spec_run : Service → list (Clock * event) → Service → Prop :=
| spec_run_nil A : spec_run A [] A
| spec_run_cons c e tr A1 A2 A3 :
    spec_step (rt:=chain_rt c) c A1 e A2 → spec_run A2 tr A3 → spec_run A1 ((c, e) :: tr) A3.

Inductive coupled_run : Store → Service → list (Clock * event) → Store → Service → Prop :=
| coupled_nil σ A : abstracts σ A → coupled_run σ A [] σ A
| coupled_cons c e tr σ1 σ2 σ3 A1 A2 A3 :
    abstracts σ1 A1 → chain_step c σ1 σ2 → spec_step (rt:=chain_rt c) c A1 e A2 →
    coupled_run σ2 A2 tr σ3 A3 → coupled_run σ1 A1 ((c, e) :: tr) σ3 A3.

Lemma timed_run_chain σ σ' : chain_run σ σ' ↔ ∃ cs, timed_run σ cs σ'.
Proof.
  split.
  - induction 1 as [σ|σ1 σ2 σ3 [c Hs] _ [cs IH]]; [exists []; constructor|]. exists (c :: cs). by econstructor.
  - intros [cs H]. induction H as [|c cs σ1 σ2 σ3 Hs _ IH]; [apply rtc_refl|]. eapply rtc_l; [by exists c|done].
Qed.

Lemma coupled_run_spec σ A tr σ' A' : coupled_run σ A tr σ' A' → spec_run A tr A' ∧ abstracts σ' A'.
Proof.
  induction 1 as [|c e tr σ1 σ2 σ3 A1 A2 A3 _ _ Hs _ [IH ?]]; [by split; [constructor|]|].
  split; [by econstructor|done].
Qed.

Lemma run_simulated σ cs σ' A :
  reachable σ → abstracts σ A → timed_run σ cs σ' →
  ∃ tr A', coupled_run σ A tr σ' A' ∧ tr.*1 = cs.
Proof.
  intros Hr HA Hrun. revert A Hr HA. induction Hrun as [σ|c cs σ1 σ2 σ3 Hs _ IH]; intros A Hr HA.
  - exists [], A. by split; [constructor|].
  - destruct (step_simulated c σ1 σ2 A Hr HA Hs) as (e & A1 & Hstep & HA1).
    destruct (IH A1) as (tr & A' & Hrun & Hcs); [by eapply reachable_step|done|].
    exists ((c, e) :: tr), A'. split; [by econstructor|]. cbn. by rewrite Hcs.
Qed.

(** The service at the beginning: queues, if any, are empty. *)
#[local] Instance queue_like_dec σ k : Decision (queue_like σ k).
Proof. unfold queue_like. apply _. Defined.

Definition genesis_service (σ : Store) : Service :=
  mkService (λ k, if decide (queue_like σ k) then Some [] else None) (key_at σ).

Lemma genesis_abstracts c σ : genesis (rt:=chain_rt c) σ → abstracts σ (genesis_service σ).
Proof.
  intros [Hq _]. split; [|done]. intros k rs. cbn. destruct (decide (queue_like σ k)) as [Hl|Hl].
  - apply queue_at_some. split; [apply Hl|by apply Hq].
  - split; [done|]. by intros ?%queue_at_like.
Qed.

(** ** Accounting for requests *)

(** What an event, and a history, does with the requests of the queue [k]. *)
Definition ev_requested (k : list byte) (e : event) : list request :=
  match e with EvRequested k' r => if decide (k' = k) then [r] else [] | _ => [] end.
Definition ev_fulfilled (k : list byte) (e : event) : list request :=
  match e with EvFulfilled k' r _ _ => if decide (k' = k) then [r] else [] | _ => [] end.
Definition ev_expired (k : list byte) (e : event) : list request :=
  match e with EvExpired k' rs => if decide (k' = k) then rs else [] | _ => [] end.

Definition requested (k : list byte) (tr : list (Clock * event)) : list request := mjoin (ev_requested k <$> tr.*2).
Definition fulfilled (k : list byte) (tr : list (Clock * event)) : list request := mjoin (ev_fulfilled k <$> tr.*2).
Definition expired (k : list byte) (tr : list (Clock * event)) : list request := mjoin (ev_expired k <$> tr.*2).

Lemma pending_set_queue A k k' q :
  pending (set_queue k q A) k' = if decide (k = k') then default [] q else pending A k'.
Proof.
  unfold pending. cbn. destruct (decide (k = k')) as [<-|Hne]; [by rewrite fn_lookup_insert|by rewrite fn_lookup_insert_ne].
Qed.

Lemma insert_at_perm {X} i (x : X) l : insert_at i x l ≡ₚ x :: l.
Proof. unfold insert_at. rewrite <- Permutation_middle. by rewrite take_drop. Qed.

Lemma filter_split_perm (p : request → bool) rs :
  rs ≡ₚ filter (λ r, negb (p r)) rs ++ filter (λ r, p r) rs.
Proof.
  induction rs as [|r rs IH]; [done|]. rewrite !filter_cons. destruct (p r); simpl.
  - rewrite <- Permutation_middle. by constructor.
  - by constructor.
Qed.

Lemma spec_step_accounts c A e A' k :
  spec_step (rt:=chain_rt c) c A e A' →
  ev_requested k e ++ pending A k ≡ₚ pending A' k ++ ev_fulfilled k e ++ ev_expired k e.
Proof.
  intros Hs. destruct Hs as [|k' Hq|k' rs args sh hp scoped pos i Hq _ _ _ bump r|k' rs i r o pk out pf Hq Hi _ _ _ _|
    k' rs Hq|k' Hq|o pk _ _ _|o pk _]; cbn [ev_requested ev_fulfilled ev_expired];
    rewrite ?app_nil_r, ?pending_set_queue; try done;
    (destruct (decide (k' = k)) as [->|Hne]; [|by rewrite ?app_nil_r]); unfold pending; rewrite Hq; cbn.
  - done.
  - rewrite ?app_nil_r. symmetry. apply insert_at_perm.
  - rewrite <- (take_drop_middle _ _ _ Hi) at 1. rewrite delete_take_drop, ?app_nil_r.
    rewrite <- !app_assoc. f_equiv. by rewrite Permutation_app_comm.
  - apply filter_split_perm.
  - done.
Qed.

Lemma spec_run_accounts A tr A' k :
  spec_run A tr A' → requested k tr ++ pending A k ≡ₚ pending A' k ++ fulfilled k tr ++ expired k tr.
Proof.
  induction 1 as [A|c e tr A1 A2 A3 Hs _ IH]; [by rewrite app_nil_r|].
  apply (spec_step_accounts _ _ _ _ k) in Hs. unfold requested, fulfilled, expired in *. cbn.
  assert (∀ a r p1 p2 p3 f x f' x' : list request,
    a ++ p1 ≡ₚ p2 ++ f ++ x → r ++ p2 ≡ₚ p3 ++ f' ++ x' →
    (a ++ r) ++ p1 ≡ₚ p3 ++ (f ++ f') ++ x ++ x') as Hperm; [|by eapply Hperm].
  clear. intros a r p1 p2 p3 f x f' x' H1 H2.
  rewrite (Permutation_app_comm a r), <- app_assoc, H1, app_assoc, H2, <- !app_assoc. f_equiv.
  rewrite (Permutation_app_swap_app x' f), (Permutation_app_swap_app f' f). do 2 f_equiv. apply Permutation_app_comm.
Qed.

(** ** Where requests and keys come from *)

Lemma spec_run_app A tr1 tr2 A' :
  spec_run A (tr1 ++ tr2) A' → ∃ A1, spec_run A tr1 A1 ∧ spec_run A1 tr2 A'.
Proof.
  revert A. induction tr1 as [|[c e] tr1 IH]; intros A H; [exists A; by split; [constructor|]|].
  inversion H as [|???? A2 ? Hs Hrun]; subst. destruct (IH _ Hrun) as (A1 & H1 & H2).
  exists A1. split; [by econstructor|done].
Qed.

Lemma elem_of_ev_requested k r c A e A' :
  spec_step (rt:=chain_rt c) c A e A' → r ∈ ev_requested k e → e = EvRequested k r ∧ r_slot r = clock_slot c.
Proof.
  intros [] Hr; cbn in Hr; try (by apply not_elem_of_nil in Hr).
  destruct (decide _) as [<-|]; [|by apply not_elem_of_nil in Hr]. by apply list_elem_of_singleton in Hr as ->.
Qed.

Lemma pending_origin A tr A' k r :
  spec_run A tr A' → r ∈ pending A' k →
  r ∈ pending A k ∨ ∃ c, (c, EvRequested k r) ∈ tr ∧ clock_slot c = r_slot r.
Proof.
  induction 1 as [A|c e tr A1 A2 A3 Hs _ IH]; [by left|]. intros Hr.
  destruct (IH Hr) as [Hr2|(c' & Hin & Hc')]; [|right; exists c'; split; [by right|done]].
  assert (r ∈ ev_requested k e ++ pending A1 k) as [Hev|Hp]%elem_of_app.
  { rewrite (spec_step_accounts _ _ _ _ k Hs). apply elem_of_app. by left. }
  - destruct (elem_of_ev_requested _ _ _ _ _ _ Hs Hev) as [-> Hslot]. right. exists c. split; [by left|done].
  - by left.
Qed.

Lemma key_origin A tr A' a pk :
  spec_run A tr A' → sv_keys A' a = Some pk →
  sv_keys A a = Some pk ∨ ∃ c, (c, EvRegistered a pk) ∈ tr.
Proof.
  induction 1 as [A|c e tr A1 A2 A3 Hs _ IH]; [by left|]. intros Hk.
  destruct (IH Hk) as [Hk2|(c' & Hin)]; [|right; exists c'; by right].
  destruct Hs as [|k' Hq|k' rs args sh hp scoped pos i Hq _ _ _ bump r|k' rs i r o pk' out pf Hq Hi _ _ _ _|
    k' rs Hq|k' Hq|o pk' Hn _ _|o pk' _]; cbn in Hk2; try (by left).
  - destruct (decide (fst (oracle_data_pda (rt:=chain_rt c) o) = a)) as [<-|Hne].
    + rewrite fn_lookup_insert in Hk2. injection Hk2 as ->. right. exists c. by left.
    + rewrite fn_lookup_insert_ne in Hk2 by done. by left.
  - destruct (decide (fst (oracle_data_pda (rt:=chain_rt c) o) = a)) as [<-|Hne].
    + by rewrite fn_lookup_insert in Hk2.
    + rewrite fn_lookup_insert_ne in Hk2 by done. by left.
Qed.

(** What lies behind the fulfilment of [r] after the history [tr], which began
    with the keys [keys0]: the request, in an earlier slot, and the registered
    key that a proof verifies under. *)
Record fulfilment_justified (keys0 : list byte → option (list byte)) (tr : list (Clock * event)) (c : Clock)
    (k : list byte) (r : request) (pk output : list byte) : Prop := {
  fj_requested : ∃ c', (c', EvRequested k r) ∈ tr ∧ clock_slot c' = r_slot r ∧ r_slot r < clock_slot c;
  fj_proved : ∃ proof, verify_vrf (rt:=chain_rt c) pk (r_id r) output proof = true;
  fj_key : ∃ o, queue_of (rt:=chain_rt c) o k ∧
    let a := fst (oracle_data_pda (rt:=chain_rt c) o) in keys0 a = Some pk ∨ ∃ c', (c', EvRegistered a pk) ∈ tr;
}.

Lemma spec_fulfilments_justified A tr1 c k r pk output tr2 A' :
  (∀ k, pending A k = []) → spec_run A (tr1 ++ (c, EvFulfilled k r pk output) :: tr2) A' →
  fulfilment_justified (sv_keys A) tr1 c k r pk output.
Proof.
  intros Hempty (A1 & H1 & H2)%spec_run_app. inversion H2 as [|???? A2 ? Hs _]; subst.
  inversion Hs as [| | |? rs i ? o ? ? proof Hq Hi Hslot Ho Hk Hv| | | |]; subst. split.
  - destruct (pending_origin _ _ _ k r H1) as [Hr|(c' & Hin & Hc')].
    + unfold pending. rewrite Hq. by eapply list_elem_of_lookup_2.
    + rewrite Hempty in Hr. by apply not_elem_of_nil in Hr.
    + by exists c'.
  - by exists proof.
  - exists o. split; [done|]. by eapply key_origin.
Qed.

(** ** The program refines the service *)

(** C4. The program refines its specification: whatever sequence of steps the
    chain takes from a state it can be in, at whatever times and with whatever
    accounts and data, each of them is, at its time, one step of the abstract
    service, and before and after each the accounts of the chain hold exactly
    the pending requests and the keys that the service has. A step of the
    service does one of eight things and nothing else: nothing; it opens an
    empty queue; it adds one request that calls back another program, stamped
    with the time; it fulfils one request of an earlier slot, with a proof
    under the key of the queue's oracle; it drops the requests past their time
    to live; it closes or hands over a queue without requests; it registers a
    valid key where there is none; it removes a key. *)
Theorem chain_refines_spec σ cs σ' A :
  reachable σ → abstracts σ A → timed_run σ cs σ' →
  ∃ tr A', coupled_run σ A tr σ' A' ∧ tr.*1 = cs.
Proof. apply run_simulated. Qed.

(** C5. Every request is accounted for: from a start without requests, whatever
    the chain does, its history is one of the abstract service in which, for
    each queue, the requests ever made are, each of them exactly once, those
    that wait in the queue now, those that were fulfilled and those that
    expired. Behind every fulfilment there are, earlier in the history, its
    request, made in an earlier slot, and the registration of the key of the
    queue's oracle (unless the start had it), and a proof for the id of the
    request that verifies under that key. *)
Theorem requests_accounted c0 σ0 cs σ :
  genesis (rt:=chain_rt c0) σ0 → timed_run σ0 cs σ →
  ∃ tr A, coupled_run σ0 (genesis_service σ0) tr σ A ∧ tr.*1 = cs ∧
    (∀ k, requested k tr ≡ₚ pending A k ++ fulfilled k tr ++ expired k tr) ∧
    (∀ tr1 c k r pk output tr2, tr = tr1 ++ (c, EvFulfilled k r pk output) :: tr2 →
       fulfilment_justified (key_at σ0) tr1 c k r pk output).
Proof.
  intros Hg Hrun. assert (reachable σ0) as Hr by (exists c0, σ0; by split; [|apply rtc_refl]).
  destruct (run_simulated _ _ _ _ Hr (genesis_abstracts _ _ Hg) Hrun) as (tr & A & Hc & Hcs).
  destruct (coupled_run_spec _ _ _ _ _ Hc) as [Hspec _].
  assert (∀ k, pending (genesis_service σ0) k = []) as Hempty by (intros k; unfold pending; cbn; by destruct (decide _)).
  exists tr, A. split_and!; [done|done| |].
  - intros k. rewrite <- (spec_run_accounts _ _ _ k Hspec), Hempty. by rewrite app_nil_r.
  - intros tr1 c k r pk output tr2 ->. by eapply spec_fulfilments_justified in Hspec.
Qed.
End Chain.
