(* ===== verification/ChainHistory.v ===== *)
(** * Ids over the whole history

    [pending_ids_distinct] is about the requests that wait at one time. Over
    time items are freed and their places used again, so the position alone
    does not tell the requests of a queue apart; together with the slot it
    does, as no request leaves its queue in the slot it was made in. *)

From stdpp Require Import sorting.
From S2P Require Import Prelude Pod Api QueueLayout QueueAccount QueueInv QueueAdd QueueSpec QueueTheorems QueueTiny Solana Accounts Instructions Verify Handlers Provide Reason Laws RequestTheorems ProvideTheorems QueueAdmin Solvency Registry RegistryTheorems Chain ChainCalm ChainHandlers ChainTheorems ChainIds ChainKeys ChainSpec.

(** Time passes: slots are [u64]s and never go back, and there is one clock
    for a slot. *)
Definition not_later (c c' : Clock) : Prop := clock_slot c < clock_slot c' ∨ c = c'.
Definition time_passes (cs : list Clock) : Prop :=
  StronglySorted not_later cs ∧ Forall (λ c, fits 64 (clock_slot c)) cs.

(** A request is not past its time to live when it is made. *)
Lemma not_expired_at_once c r :
  r_created_at r = created_at_from (clock_unix_timestamp c) → expired_now c r = false.
Proof.
  intros Hc. unfold expired_now, request_expired. rewrite Hc. unfold wrapping_sub, wrap.
  rewrite Z.sub_diag. done.
Qed.

Lemma pending_positions σ A k :
  abstracts σ A → NoDup (r_pos <$> pending A k) ∧ Forall (λ r, fits 32 (r_pos r)) (pending A k).
Proof.
  intros HA. unfold pending. destruct (sv_queues A k) as [rs|] eqn:Hq; cbn; [|by split; constructor].
  apply (abs_queues _ _ HA) in Hq as [_ Hh]. by eapply holds_positions.
Qed.

Section History.
Context {chain : Chain} {ob : OraclesBorsh} {rb : RequestBorsh}.
Context {obl : OraclesBorshLaws} {rbl : RequestBorshLaws}.

#[local] Existing Instances chain_rt_laws chain_rt_chain_laws.

Lemma coupled_start σ A tr σ' A' : coupled_run σ A tr σ' A' → abstracts σ A.
Proof. by intros []. Qed.

Lemma coupled_run_app σ A tr1 tr2 σ' A' :
  coupled_run σ A (tr1 ++ tr2) σ' A' → ∃ σ1 A1, coupled_run σ A tr1 σ1 A1 ∧ coupled_run σ1 A1 tr2 σ' A'.
Proof.
  revert σ A. induction tr1 as [|[c e] tr1 IH]; intros σ A H.
  - exists σ, A. split; [|done]. apply coupled_nil. by eapply coupled_start.
  - inversion H as [|?? tr ? σ2 ?? A2 ? HA Hc Hs Hrun]; subst. destruct (IH _ _ Hrun) as (σ1 & A1 & H1 & H2).
    exists σ1, A1. split; [by econstructor|done].
Qed.

(** A request of the history still waits, or its slot is over. *)
Definition waits_or_over (tr : list (Clock * event)) (A : Service) : Prop :=
  ∀ c k r, (c, EvRequested k r) ∈ tr →
    r_slot r = clock_slot c ∧ r_created_at r = created_at_from (clock_unix_timestamp c) ∧
    (r ∈ pending A k ∨ ∃ c', c' ∈ tr.*1 ∧ clock_slot c < clock_slot c').

(** A request that leaves was made in an earlier slot. *)
Lemma leaves_later c A e A' k r c1 :
  spec_step (rt:=chain_rt c) c A e A' → r ∈ pending A k → r_slot r = clock_slot c1 →
  r_created_at r = created_at_from (clock_unix_timestamp c1) → not_later c1 c →
  r ∈ pending A' k ∨ clock_slot c1 < clock_slot c.
Proof.
  intros Hs Hr Hslot Hc [Hlt| ->]; [by right|left].
  destruct Hs as [|k' Hq|k' rs args sh hp scoped pos i Hq _ _ _ bump r0|k' rs i r0 o pk out pf Hq Hi Hold _ _ _|
    k' rs Hq|k' Hq|o pk _ _ _|o pk _]; try done; rewrite pending_set_queue;
    (destruct (decide (k' = k)) as [->|Hne]; [|done]); unfold pending in Hr; rewrite Hq in Hr; cbn in Hr |- *.
  - by apply not_elem_of_nil in Hr.
  - by apply elem_of_insert_at; right.
  - eapply elem_of_delete_ne; [exact Hi|done|]. intros ->. lia.
  - apply list_elem_of_filter. by rewrite (not_expired_at_once c).
  - by apply not_elem_of_nil in Hr.
Qed.

Lemma requested_now c A k r A' :
  spec_step (rt:=chain_rt c) c A (EvRequested k r) A' →
  r_slot r = clock_slot c ∧ r_created_at r = created_at_from (clock_unix_timestamp c) ∧ r ∈ pending A' k ∧
  pending A' k ≡ₚ r :: pending A k ∧ ∃ args sh time, made_from (rt:=chain_rt c) r args sh time.
Proof.
  intros Hs. inversion Hs as [| |? rs args sh hp scoped pos i Hq Hwf _ _ bump r0| | | | |]; subst.
  split; [done|]. split; [done|]. rewrite pending_set_queue, decide_True by done. cbn. split; [|split].
  - apply elem_of_insert_at. by left.
  - unfold pending. rewrite Hq. apply insert_at_perm.
  - do 3 eexists. split; [exact Hwf|]. by exists hp, scoped.
Qed.

Lemma history_waits A0 tr A :
  spec_run A0 tr A → StronglySorted not_later tr.*1 → waits_or_over tr A.
Proof.
  revert A. induction tr as [|[c e] tr IH] using rev_ind; intros A Hrun Hsort c1 k r Hin.
  - by apply not_elem_of_nil in Hin.
  - apply spec_run_app in Hrun as (A1 & H1 & H2). inversion H2 as [|???? A2 ? Hs Hnil]; subst.
    inversion Hnil; subst. clear Hnil H2.
    rewrite fmap_app in *. apply StronglySorted_app in Hsort as (Hle & Hsort & _).
    apply elem_of_app in Hin as [Hin|Hin%list_elem_of_singleton].
    + destruct (IH A1 H1 Hsort c1 k r Hin) as (Hslot & Hc & Hor). split; [done|]. split; [done|].
      destruct Hor as [Hp|(c' & Hc' & Hlt)].
      * destruct (leaves_later _ _ _ _ _ _ c1 Hs Hp Hslot Hc) as [?|Hlt].
        { apply Hle; [|by left]. by apply (list_elem_of_fmap_2 fst) in Hin. }
        { by left. }
        right. exists c. split; [|done]. apply elem_of_app. right. by left.
      * right. exists c'. split; [|done]. apply elem_of_app. by left.
    + injection Hin as <- <-. destruct (requested_now _ _ _ _ _ Hs) as (? & ? & ? & _). split_and!; [done..|by left].
Qed.

(** A request in a history, and the service before and after it. *)
Lemma request_in_history σ A tr1 c k r tr2 σ' A' :
  coupled_run σ A (tr1 ++ (c, EvRequested k r) :: tr2) σ' A' →
  ∃ A1 A2, spec_run A tr1 A1 ∧ spec_step (rt:=chain_rt c) c A1 (EvRequested k r) A2 ∧
    NoDup (r_pos <$> pending A2 k) ∧ fits 32 (r_pos r).
Proof.
  intros (σ1 & A1 & H1 & H2)%coupled_run_app. inversion H2 as [|?? tr ? σ2 ?? A2 ? _ _ Hs Hrun]; subst.
  apply coupled_start in Hrun. destruct (pending_positions _ _ k Hrun) as [Hnd Hall].
  exists A1, A2. split; [by apply coupled_run_spec in H1 as [? _]|]. split; [done|]. split; [done|].
  rewrite Forall_forall in Hall. apply Hall. by apply (requested_now _ _ _ _ _ Hs).
Qed.

(** C10. The program never uses an id twice: whatever the chain does while time
    passes, from a start without requests, two requests that it ever stores in
    the same queue get ids that it hashed from different inputs, whether the
    first still waits when the second is made or not, and also when the same
    caller asks again for the same thing and the place of the first is used
    again. So a proof for one is a proof for another only if the hash function
    collides on these two inputs. *)
Theorem ids_never_reused c0 σ0 cs σ :
  genesis (rt:=chain_rt c0) σ0 → timed_run σ0 cs σ → time_passes cs →
  ∃ tr A, coupled_run σ0 (genesis_service σ0) tr σ A ∧ tr.*1 = cs ∧
    ∀ tr1 c1 k r1 tr2 c2 r2 tr3,
      tr = tr1 ++ (c1, EvRequested k r1) :: tr2 ++ (c2, EvRequested k r2) :: tr3 →
      ∃ args1 sh1 time1 args2 sh2 time2,
        made_from (rt:=chain_rt c1) r1 args1 sh1 time1 ∧ made_from (rt:=chain_rt c2) r2 args2 sh2 time2 ∧
        id_input r1 args1 sh1 time1 ≠ id_input r2 args2 sh2 time2.
Proof.
  intros Hg Hrun [Hsort Hfit]. assert (reachable σ0) as Hr by (exists c0, σ0; by split; [|apply rtc_refl]).
  destruct (run_simulated _ _ _ _ Hr (genesis_abstracts _ _ Hg) Hrun) as (tr & A & Hc & Hcs).
  exists tr, A. split; [done|]. split; [done|]. intros tr1 c1 k r1 tr2 c2 r2 tr3 ->.
  destruct (request_in_history _ _ _ _ _ _ _ _ _ Hc) as (? & ? & _ & Hs1 & _ & Hpos1).
  rewrite app_comm_cons, app_assoc in Hc, Hcs.
  destruct (request_in_history _ _ _ _ _ _ _ _ _ Hc) as (A1 & A2 & Hrun1 & Hs2 & Hnd & Hpos2).
  destruct (requested_now _ _ _ _ _ Hs1) as (Hslot1 & _ & _ & _ & args1 & sh1 & time1 & Hm1).
  destruct (requested_now _ _ _ _ _ Hs2) as (Hslot2 & _ & _ & Hperm & args2 & sh2 & time2 & Hm2).
  exists args1, sh1, time1, args2, sh2, time2. split; [done|]. split; [done|]. intros Heq.
  rewrite <- Hcs, fmap_app in Hsort, Hfit. apply StronglySorted_app in Hsort as (Hle & Hsort & _).
  assert (r_slot r1 = r_slot r2) as Hslot.
  { eapply id_input_slot; [apply Hm1|apply Hm2|..|exact Heq]; rewrite ?Hslot1, ?Hslot2;
      rewrite Forall_forall in Hfit; apply Hfit; set_solver. }
  destruct (history_waits _ _ _ Hrun1 Hsort c1 k r1) as (_ & _ & [Hp|(c' & Hc' & Hlt)]); [set_solver| |].
  - rewrite Hperm, fmap_cons in Hnd. apply NoDup_cons in Hnd as [Hnin _]. apply Hnin.
    rewrite <- (id_input_position _ _ _ _ _ _ _ _ Hpos1 Hpos2 Heq). by apply list_elem_of_fmap_2.
  - destruct (Hle c' c2) as [?| ->]; [done|by left|lia|lia].
Qed.
End History.
