(* ===== verification/ChainFulfilment.v ===== *)
(** * Service in every state of the chain

    [no_request_lost] says that a request ends by a fulfilment or past its
    time to live; here, that both ways out are open in every state the chain
    can be in: the transaction that the oracle service prepares is accepted,
    and anyone can clear what has expired. Each is a step of the chain. *)

From S2P Require Import Prelude Pod Api QueueLayout QueueAccount QueueInv QueueAdd QueueSpec QueueTheorems QueueTiny Solana Accounts Instructions Verify Handlers Provide Reason Laws RequestTheorems ProvideTheorems QueueAdmin Solvency Vrf Registry RegistryTheorems Sdk SdkTheorems OracleClock OracleTasks OracleSend SendTheorems Fulfilment Chain ChainCalm ChainHandlers ChainTheorems.

(** An account with a private key of its own. *)
Definition keyed {rt : Runtime} (k : list byte) : Prop := ∀ seeds, k ≠ fst (find_program_address seeds ID).

(** What is left to the program that [r] calls back: it accepts the call, once
    the request has been taken out of the queue. *)
Record callback_willing {rt : Runtime} (r : request) (o q output : list byte) (rs' : list request) (σ : Store) : Prop := {
  cw_executables : r_identity_mode r ≠ 1 →
    has_disallowed_executable_callback_account (remaining_of r) σ = false;
  cw_accepts seeds σ1 :
    queue_data (data_at σ1 q) rs' → (∀ k, k ≠ q → get_account σ1 k = get_account σ k) →
    callback_identity r (remaining_of r) σ1 (identity_of r) seeds →
    ∃ σ2, invoke_signed (callback_of r (identity_of r) output)
            (mkInfo (r_program r) false false :: mkInfo (identity_of r) false false :: remaining_of r) seeds σ1 = Ok σ2 ∧
          lamports_at σ2 o + r_cost r < 2 ^ 64;
}.

Lemma pending_fees_elem r rs : r ∈ rs → r_cost r ≤ pending_fees rs.
Proof.
  intros [i Hi]%list_elem_of_lookup. rewrite (pending_fees_delete i r rs Hi).
  pose proof (pending_fees_nonneg (delete i rs)). lia.
Qed.

Section Inv.
Context {rt : Runtime} {ob : OraclesBorsh} {rb : RequestBorsh}.
Context {laws : RuntimeLaws} {clw : ChainLaws}.

Lemma queue_at_data σ k rs r : queue_at σ k rs → r ∈ rs → queue_data (data_at σ k) rs.
Proof. intros [_ [Hq|[-> _]]] Hr; [done|by apply not_elem_of_nil in Hr]. Qed.

(** What the invariant says of a queue whose requests are known. *)
Lemma inv_queue σ k rs :
  chain_inv σ → queue_at σ k rs →
  Forall request_ok rs ∧ (∃ o, queue_addressed o (data_at σ k) k) ∧
  (is_fee_exempt_ephemeral_queue k = false → pending_fees rs ≤ lamports_at σ k).
Proof.
  intros Hinv Hat. destruct (ci_queues _ Hinv k) as (rs1 & Hh & ?); [by eapply queue_at_like|].
  by rewrite (holds_requests_fun _ _ _ (proj2 Hat) Hh).
Qed.

Lemma keyed_not_queue σ k rs o : chain_inv σ → queue_at σ k rs → keyed o → k ≠ o.
Proof. intros Hinv Hat Hk ->. destruct (inv_queue _ _ _ Hinv Hat) as (_ & (o' & Ho) & _). by eapply Hk. Qed.

Lemma inv_purge σ o index rs clock :
  let k := fst (oracle_queue_pda o index) in
  let now := created_at_from (clock_unix_timestamp clock) in
  chain_inv σ → queue_at σ k rs → rs ≠ [] → keyed o → fits 8 index → clock_get = Ok clock →
  lamports_at σ o + pending_fees rs < 2 ^ 64 →
  ∃ σ', run_instruction (purge_expired_requests o index) σ = Ok ((), σ') ∧
    queue_at σ' k (filter (λ r, negb (request_expired now r)) rs).
Proof.
  intros k now Hinv Hat Hne Ho Hidx Hc Hov.
  assert (queue_data (data_at σ k) rs) as Hq.
  { destruct rs as [|r rs]; [done|]. by eapply (queue_at_data _ _ _ r); [|left]. }
  destruct (inv_queue _ _ _ Hinv Hat) as (_ & _ & Hf).
  pose proof (keyed_not_queue _ _ _ _ Hinv Hat Ho) as Hko.
  pose proof (pending_fees_filter (request_expired now) rs) as Hpf.
  pose proof (pending_fees_nonneg (filter (λ r, negb (request_expired now r)) rs)) as Hnn.
  destruct (purge_runs (mkInfo o false true) (mkInfo k false true) (bytes_of (mkQueueIndexArgs index)) σ
    (mkQueueIndexArgs index) clock rs) as (σ' & Hrun & Hpu); [done|by apply args_round_trip|done| | |].
  - split; [done|apply Hat|done].
  - intros [_ Hnx%negb_true_iff]%andb_true_iff. specialize (Hf Hnx). split; [done|]. 
    cbn [key] in *. clear - Hf Hpf Hnn Hov. subst now. split; lia.
  - exists σ'. split; [|split; [rewrite (pu_owner _ _ _ _ _ _ _ Hpu); apply Hat|left; apply (pu_queue _ _ _ _ _ _ _ Hpu)]].
    unfold purge_expired_requests. rewrite run_handler. exact Hrun.
Qed.

Context {dk : Dalek} {ds : DelegationSdk}.
Context {dl : DalekLaws} {sl : SyscallLaws} {es : EncodingSizes} {pl : PdaLaws}.

Lemma inv_fulfilment t pv env a tx σ rs i r clock :
  let k := ti_keys t in let o := keypair_pubkey k in let q := ti_queue t in
  chain_inv σ → in_view t r → is_purge t (pe_now env) = false →
  prepare_vrf k (item_id (ti_item t)) = Ok pv → prepare_transaction t pv env a = Ok tx →
  oracle_on_chain k q σ → queue_at σ q rs → keyed o →
  list_find (λ r', r_id r' = r_id r) rs = Some (i, r) → can_provide o r clock →
  callback_willing r o q (pv_output pv) (delete i rs) σ →
  ∃ ix σ', tx_instructions tx !! 1%nat = Some (ProgramInstruction ix) ∧
    run_instruction ix σ = Ok ((), σ') ∧ queue_data (data_at σ' q) (delete i rs).
Proof.
  intros k o q Hinv Hview Hnp Hpv Htx Hon Hat Ho Hf Hcan [Hex Hacc].
  assert (r ∈ rs) as Hr by (apply list_find_Some in Hf as [Hi _]; by eapply list_elem_of_lookup_2).
  destruct (inv_queue _ _ _ Hinv Hat) as (Hok & _ & Hfees).
  rewrite Forall_forall in Hok. destruct (Hok r Hr) as [Hprog Hbump].
  eapply fulfilment_accepted; try done; [by eapply queue_at_data| |].
  - split; [done| |done]. destruct (Z.eqb_spec (r_identity_mode r) 1); [by apply Hbump|by apply Hex].
  - intros Hnx. specialize (Hfees Hnx). split; [by eapply keyed_not_queue|].
    subst q. etransitivity; [by apply (pending_fees_elem _ _ Hr)|done].
Qed.
End Inv.

Section Service.
Context {chain : Chain} {ob : OraclesBorsh} {rb : RequestBorsh}.
Context {obl : OraclesBorshLaws} {rbl : RequestBorshLaws}.
Context (c : Clock) (Hslot : fits 64 (clock_slot c)).

#[local] Instance rt_at : Runtime := chain_rt c.
#[local] Instance rt_at_laws : RuntimeLaws := chain_runtime_laws c.
#[local] Instance rt_at_chain_laws : ChainLaws := chain_laws c.

(** An instruction of a transaction is a step of the chain. *)
Lemma instruction_step ix σ σ' :
  ix_program_id ix = ID → outer_call (info_of <$> ix_accounts ix) → run_instruction ix σ = Ok ((), σ') →
  chain_step c σ σ'.
Proof. unfold run_instruction. intros ->. by apply program_step. Qed.

(** C13. Expired requests can always be cleared: in every state the chain can
    be in, the purge instruction that the SDK builds for a queue succeeds,
    whoever sends it, and leaves exactly the requests that are within their
    time to live, provided that the oracle's balance has room for the fees. *)
Theorem expired_requests_clearable σ o index rs :
  let k := fst (oracle_queue_pda o index) in
  let now := created_at_from (clock_unix_timestamp c) in
  reachable σ → queue_at σ k rs → rs ≠ [] → keyed o → fits 8 index → clock_get = Ok c →
  lamports_at σ o + pending_fees rs < 2 ^ 64 →
  ∃ σ', run_instruction (purge_expired_requests o index) σ = Ok ((), σ') ∧ chain_step c σ σ' ∧
    queue_at σ' k (filter (λ r, negb (request_expired now r)) rs).
Proof.
  intros k now Hr Hat Hne Ho Hidx Hc Hov. pose proof (reachable_inv c _ Hr) as Hinv.
  destruct (inv_purge σ o index rs c Hinv Hat Hne Ho Hidx Hc Hov) as (σ' & Hrun & Hat').
  exists σ'. split; [exact Hrun|]. split; [|exact Hat'].
  apply (instruction_step (purge_expired_requests o index)); [reflexivity| |exact Hrun].
  unfold outer_call. cbn. repeat apply Forall_cons_2; [discriminate|discriminate|apply Forall_nil_2].
Qed.

Context {dk : Dalek} {ds : DelegationSdk}.
Context {dl : DalekLaws} {sl : SyscallLaws} {es : EncodingSizes} {pl : PdaLaws}.

(** The oracle is the only signer of its transactions. *)
Lemma only_oracle_signs o identity od q p metas :
  keyed o →
  outer_call (info_of <$> [AccountMeta_new o true; AccountMeta_new_readonly identity false;
    AccountMeta_new_readonly od false; AccountMeta_new q false; AccountMeta_new_readonly p false] ++
    (to_account_meta <$> metas)).
Proof.
  intros Ho. unfold outer_call. rewrite fmap_app, Forall_app. split.
  - repeat constructor; try (cbn; discriminate). intros _ seeds. apply Ho.
  - rewrite !Forall_fmap. apply Forall_forall. intros m _. cbn. discriminate.
Qed.

(** A queue with requests is still the program's after a step. *)
Lemma step_keeps_queue σ σ' k rs rs' r :
  chain_inv σ → chain_step c σ σ' → queue_at σ k rs → r ∈ rs → queue_data (data_at σ' k) rs' →
  queue_at σ' k rs'.
Proof.
  intros Hinv Hstep Hat Hr Hd. split; [|by left].
  destruct (chain_step_effect c _ _ Hinv Hstep) as [Heff _].
  destruct (effect_on_queue _ _ _ _ _ Heff Hat) as ([rs1|] & Hch & Haf); [apply Haf|].
  inversion Hch; subst. by apply not_elem_of_nil in Hr.
Qed.

(** C6. The oracle's work is accepted. In every state the chain can be in, the
    transaction that the service prepares for a request of its queue, seen in
    an earlier account update, succeeds under these conditions: the oracle is
    registered on chain with the VRF key of the service, and the queue is its
    own; the request has not expired by the clock of the host; it is the first
    of the queue with its id, none of its callback metas is the oracle's key,
    and the slot is later than its own; the callback accounts and the callback
    program accept the call, and the oracle's balance has room for the fee;
    the oracle's key is not an address derived from the program. It is then a
    step of the chain that takes that request out of the queue, and only that
    one. *)
Theorem oracle_fulfilment_accepted t pv env a tx σ rs i r :
  let k := ti_keys t in let o := keypair_pubkey k in let q := ti_queue t in
  reachable σ → in_view t r → is_purge t (pe_now env) = false →
  prepare_vrf k (item_id (ti_item t)) = Ok pv → prepare_transaction t pv env a = Ok tx →
  oracle_on_chain k q σ → queue_at σ q rs → keyed o →
  list_find (λ r', r_id r' = r_id r) rs = Some (i, r) → can_provide o r c →
  callback_willing r o q (pv_output pv) (delete i rs) σ →
  ∃ ix σ', tx_instructions tx !! 1%nat = Some (ProgramInstruction ix) ∧
    run_instruction ix σ = Ok ((), σ') ∧ chain_step c σ σ' ∧ queue_at σ' q (delete i rs).
Proof.
  intros k o q Hr Hview Hnp Hpv Htx Hon Hat Ho Hf Hcan Hcb. pose proof (reachable_inv c _ Hr) as Hinv.
  destruct (inv_fulfilment t pv env a tx σ rs i r c Hinv Hview Hnp Hpv Htx Hon Hat Ho Hf Hcan Hcb)
    as (ix & σ' & Hix & Hrun & Hd).
  assert (chain_step c σ σ') as Hstep.
  { apply prepare_transaction_Ok in Htx as (ix' & limit & price & Hix' & _ & _ & ->).
    injection Hix as <-. rewrite Hnp, (proj1 (request_instruction_fulfil t pv r Hview)) in Hix'.
    injection Hix' as Heq. subst ix'.
    refine (instruction_step _ _ _ _ _ Hrun); [reflexivity|]. exact (only_oracle_signs _ _ _ _ _ _ Ho). }
  exists ix, σ'. split; [exact Hix|]. split; [exact Hrun|]. split; [exact Hstep|].
  apply (step_keeps_queue σ σ' q rs _ r Hinv Hstep Hat); [|exact Hd].
  apply list_find_Some in Hf as [Hi _]. by eapply list_elem_of_lookup_2.
Qed.
End Service.
