(* ===== verification/Service.v ===== *)
(** * The oracle service and the chain

    Scans of the program's accounts in a state of the chain: the service sees
    every queue with its requests and nothing else, and takes up every request
    of a queue that it serves. Together with [oracle_fulfilment_accepted] this
    is the whole way of a request through the service. *)

From S2P Require Import Prelude Pod Api QueueLayout QueueAccount QueueInv QueueAdd QueueSpec QueueTheorems QueueTiny Solana Accounts Instructions Verify Handlers Provide Reason Laws RequestTheorems ProvideTheorems QueueAdmin Solvency Vrf Registry RegistryTheorems Sdk SdkTheorems OracleClock OracleTasks TaskTheorems OracleSources SourceTheorems OracleSend SendTheorems OracleRun RunTheorems Fulfilment Chain ChainCalm ChainHandlers ChainTheorems ChainFulfilment.

(** What [getProgramAccounts] answers in the state [σ]: the accounts of the
    program that pass the filters, all of them. *)
Record program_accounts (σ : Store) (filters : list RpcFilterType) (l : list keyed_account) : Prop := {
  pa_all k a : σ !! k = Some a → account_matches a (mkAccountFilter ID filters) → (Some k, Some a) ∈ l;
  pa_only k a : (Some k, Some a) ∈ l → σ !! k = Some a;
}.

Lemma owned_lookup σ k : owner_at σ k = ID → σ !! k = Some (get_account σ k).
Proof.
  unfold get_account. destruct (σ !! k) as [a|]; [done|]. intros H. apply bytes_eqb_eq in H. by vm_compute in H.
Qed.

(** ** What a queue looks like to the service *)

Section Tasks.
Context {rt : Runtime} {dk : Dalek} {ds : DelegationSdk}.

(** What the task of an item of a view is spawned with. *)
Definition view_task (keys : OracleKeys) (v : view) (it : QueueItem) : TaskInput :=
  mkTaskInput keys it (v_queue v) (v_header v) (v_bytes v).

(** The items of a view are the requests, and a task spawned for an item
    works on its request. *)
Definition shows (v : view) (items : list QueueItem) (rs : list request) : Prop :=
  view_items v = Ok items ∧
  Forall2 (λ it r, item_id it = r_id r ∧ slot it = r_slot r ∧ ∀ keys, in_view (view_task keys v it) r) items rs.

Lemma queue_data_shows v rs : queue_data (v_bytes v) rs → ∃ items, shows v items rs.
Proof.
  intros (acc & Hd & Hrep). exists (iter_items acc). split.
  { unfold view_items. by rewrite Hd, (load_represents _ _ Hrep). }
  apply Forall2_same_length_lookup. pose proof (represents_iter Hrep) as Hit.
  split; [by eapply Forall2_length|]. intros i it r Hi Hr.
  destruct (Forall2_lookup_lr _ _ _ _ _ _ Hit Hi Hr) as [Hreads _].
  split; [apply Hreads|]. split; [apply Hreads|]. intros keys. by exists acc, rs, i.
Qed.

Lemma tiny_shows v acc : v_bytes v = discriminator_to_bytes DQueue ++ acc → tiny acc → shows v [] [].
Proof.
  intros Hd Ht. split; [|constructor]. unfold view_items. rewrite Hd, (tiny_load Ht). cbn.
  unfold iter_items. by rewrite (tiny_scan Ht).
Qed.

Lemma holds_requests_shows v rs : holds_requests (v_bytes v) rs → ∃ items, shows v items rs.
Proof.
  intros [Hq|(-> & acc & Hd & Ht)]; [by apply queue_data_shows|]. exists []. by eapply tiny_shows.
Qed.

Lemma holds_requests_header d rs :
  holds_requests d rs →
  ∃ h, Queue_try_from_bytes d = Ok h ∧ queue_index h = header_index d ∧ Forall (filter_matches d) queue_memcmp_filter.
Proof.
  assert (∀ acc, 12 ≤ zlen acc → ∃ h, Queue_try_from_bytes (discriminator_to_bytes DQueue ++ acc) = Ok h ∧
    queue_index h = header_index (discriminator_to_bytes DQueue ++ acc) ∧
    Forall (filter_matches (discriminator_to_bytes DQueue ++ acc)) queue_memcmp_filter) as Hacc.
  { intros acc Hl. exists (header acc). rewrite header_index_app.
    split; [by apply Queue_try_from_bytes_app|]. split; [done|apply queue_filter_app]. }
  intros [(acc & -> & Hrep)|(_ & acc & -> & Ht)]; apply Hacc.
  - destruct (represents_bounds Hrep). lia.
  - destruct Ht. lia.
Qed.
End Tasks.

(** ** The client's key never changes *)

Lemma client_key_begin `{Runtime, KeyOrder} v st : client_key (fst (begin_view v st)) = client_key st.
Proof.
  unfold begin_view. destruct (bytes_eqb _ _); [|done].
  unfold should_process_queue, admit_view, drop_gone.
  repeat (case_match; simplify_eq/=; try done).
Qed.

Lemma client_key_step `{Runtime, KeyOrder} c c' : step c c' → client_key (cf_state c') = client_key (cf_state c).
Proof.
  intros Hst. destruct Hst as [v st gone st' items Hb _| | | | |]; try done; cbn.
  - rewrite <- (client_key_begin v st). by rewrite Hb.
  - unfold spawn_item. by case_match.
Qed.

Lemma client_key_reachable `{Runtime, KeyOrder} pubkey is_er c :
  rtc step (config_new pubkey is_er) c → client_key (cf_state c) = pubkey.
Proof.
  intros Hr. assert (∀ c0, rtc step c0 c → client_key (cf_state c) = client_key (cf_state c0)) as Hind.
  { induction 1 as [|c1 c2 c3 Hs _ IH]; [done|]. by rewrite IH, (client_key_step _ _ Hs). }
  by rewrite (Hind _ Hr).
Qed.

(** ** Scans *)

Section Scans.
Context {chain : Chain} {ob : OraclesBorsh} {rb : RequestBorsh} {dk : Dalek} {ds : DelegationSdk}.
Context {obl : OraclesBorshLaws} {rbl : RequestBorshLaws}.
Context (c : Clock).

#[local] Instance rt_then : Runtime := chain_rt c.

(** The view of a queue in a scan. *)
Lemma scan_of_queue σ l slot answer k rs :
  program_accounts σ queue_memcmp_filter l → queue_at σ k rs →
  ∃ h, Queue_try_from_bytes (data_at σ k) = Ok h ∧ queue_index h = header_index (data_at σ k) ∧
    ∃ views, fetch_program_accounts (Some (Some slot, l)) answer = Some views ∧
      mkView k h (data_at σ k) (Some slot) true (answer k) ∈ views.
Proof.
  intros [Hall _] [Ho Hh]. destruct (holds_requests_header _ _ Hh) as (h & Hh' & Hix & Hfl).
  exists h. split; [done|]. split; [done|]. unfold fetch_program_accounts. cbn [mbind option_bind].
  apply (elem_of_scan_views slot answer l). exists k, (get_account σ k), h. split_and!; try done.
  apply Hall; [by apply owned_lookup|]. by split.
Qed.

(** C14. A scan shows the service the queues of the chain as they are: for any
    state the chain can be in, every queue is among the views, and every view
    is of a queue, under the address of an oracle and the index it carries,
    with exactly its requests, in order; a task spawned for an item of the
    view works on that request. *)
Theorem scan_sees_queues σ l slot answer :
  reachable σ → program_accounts σ queue_memcmp_filter l →
  ∃ views, fetch_program_accounts (Some (Some slot, l)) answer = Some views ∧
    (∀ k rs, queue_at σ k rs → ∃ v, v ∈ views ∧ v_queue v = k) ∧
    (∀ v, v ∈ views →
       v_slot v = Some slot ∧ v_snapshot v = true ∧ v_bytes v = data_at σ (v_queue v) ∧
       (∃ o, v_queue v = fst (oracle_queue_pda o (queue_index (v_header v)))) ∧
       ∃ rs items, queue_at σ (v_queue v) rs ∧ shows v items rs).
Proof.
  intros Hr Hacc. pose proof (reachable_inv c _ Hr) as Hinv.
  assert (fetch_program_accounts (Some (Some slot, l)) answer = Some (omap (scan_view slot answer) l)) as Hf by done.
  exists (omap (scan_view slot answer) l). split; [done|]. split.
  - intros k rs Hat. destruct (scan_of_queue σ l slot answer k rs Hacc Hat) as (h & _ & _ & views & Hv & Hin).
    rewrite Hf in Hv. injection Hv as <-. by eexists.
  - intros v Hv. destruct (proj1 (elem_of_scan_views slot answer l v)) as (k & a & h & Hin & Ho & Hh & ->);
      [by eexists|]. apply (pa_only _ _ _ Hacc) in Hin.
    assert (get_account σ k = a) as Ha by (unfold get_account; by rewrite Hin).
    cbn [v_slot v_snapshot v_bytes v_queue v_header]. rewrite <- Ha in Ho, Hh |- *.
    destruct (ci_queues _ Hinv k) as (rs & Hhold & _ & (o & Hk) & _); [by eapply Queue_header_like|].
    destruct (holds_requests_header _ _ Hhold) as (h' & Hh' & Hix & _). rewrite Hh in Hh'. injection Hh' as <-.
    split_and!; try done; [exists o; by rewrite Hix|].
    destruct (holds_requests_shows (mkView k h (data_at σ k) (Some slot) true (answer k)) rs Hhold) as [items Hs].
    by exists rs, items.
Qed.

Context {ko : KeyOrder}.

Lemma process_reachable pubkey is_er st gone v :
  rtc step (config_new pubkey is_er) (mkConfig st None gone) →
  (∀ items, view_items v = Ok items → Forall (λ it, (v_queue v, item_id it) ∉ gone) items) →
  ∃ gone', rtc step (config_new pubkey is_er) (mkConfig (process_oracle_queue v st) None gone').
Proof.
  intros Hr Hgone. unfold process_oracle_queue. destruct (begin_view v st) as [st1 items] eqn:Hb. eexists.
  etrans; [exact Hr|]. eapply rtc_l; [eapply (step_begin v st gone st1 items Hb)|apply spawn_steps].
  apply begin_view_cases in Hb as (st2 & _ & _ & [(-> & _)|(_ & Hits & _)]); [constructor|by apply Hgone].
Qed.

Lemma shows_ids v items rs : shows v items rs → item_id <$> items = r_id <$> rs.
Proof.
  intros [_ Hall]. induction Hall as [|it r items rs [Hid _] _ IH]; [done|]. cbn. by rewrite Hid, IH.
Qed.

(** C11. No request is overlooked: for every request of a queue, in any state
    the chain can be in, there is an oracle (that of the queue) whose service
    takes the request up when it scans: unless it knows a newer view of the
    queue or does not serve it, once the scan's view is processed the request
    is in flight, with a task of its own that is not aborted; and such a task
    works on that request. *)
Theorem requests_taken_up σ l slot answer k rs r :
  reachable σ → program_accounts σ queue_memcmp_filter l → queue_at σ k rs → r ∈ rs →
  ∃ o views v (items : list QueueItem),
    fetch_program_accounts (Some (Some slot, l)) answer = Some views ∧ v ∈ views ∧ v_queue v = k ∧
    (∃ it, it ∈ items ∧ item_id it = r_id r ∧ ∀ keys, in_view (view_task keys v it) r) ∧
    ∀ is_er st gone,
      rtc step (config_new o is_er) (mkConfig st None gone) →
      snd (should_process_queue k (answer k) st) = true → latest_of st k < slot →
      (∀ r', r' ∈ rs → (k, r_id r') ∉ gone) →
      let st' := process_oracle_queue v st in
      (∃ gone', rtc step (config_new o is_er) (mkConfig st' None gone')) ∧
      is_Some (inflight_of st' k !! r_id r) ∧
      ∃ h p, spawned st' !! h = Some (mkTask k (r_id r) p false).
Proof.
  intros Hr Hacc Hat Hin. pose proof (reachable_inv c _ Hr) as Hinv.
  destruct (inv_queue _ _ _ Hinv Hat) as (_ & (o & Hk) & _).
  destruct (scan_of_queue σ l slot answer k rs Hacc Hat) as (h & Hh & Hix & views & Hviews & Hv).
  set (v := mkView k h (data_at σ k) (Some slot) true (answer k)) in *.
  destruct (holds_requests_shows v rs (proj2 Hat)) as [items Hs]. exists o, views, v, items.
  split; [done|]. split; [done|]. split; [done|]. split.
  { destruct Hs as [_ Hall]. apply list_elem_of_lookup in Hin as [i Hi].
    destruct (Forall2_lookup_r _ _ _ _ _ Hall Hi) as (it & Hit & Hid & _ & Hview).
    exists it. split; [by eapply list_elem_of_lookup_2|done]. }
  intros is_er st gone Hst Hserved Hnew Hgone st'.
  pose proof (client_key_reachable _ _ _ Hst) as Hkey. cbn in Hkey. pose proof (shows_ids _ _ _ Hs) as Hids.
  assert (view_applies v st = true) as Happ.
  { unfold view_applies, view_served, view_fresh. cbn [v_queue v_header v_answer v_slot v_snapshot v].
    assert (fst (oracle_queue_pda o (queue_index h)) = k) as Haddr by (rewrite Hix; exact (eq_sym Hk)).
    rewrite Hserved, Hkey, Haddr, (proj2 (bytes_eqb_eq k k) eq_refl). cbn. by apply Z.ltb_lt. }
  destruct (process_reachable o is_er st gone v Hst) as [gone' Hst'].
  { intros its Hits. rewrite (proj1 Hs) in Hits. injection Hits as <-. apply Forall_forall. intros it Hit.
    apply (list_elem_of_fmap_2 item_id) in Hit. rewrite Hids in Hit.
    apply list_elem_of_fmap in Hit as (r' & -> & Hr'). by apply Hgone. }
  fold st' in Hst'. split; [by exists gone'|].
  destruct (view_applied o is_er st gone v items Hst (proj1 Hs) Happ) as (rem & _ & _ & Hfi & _).
  change (v_queue v) with k in Hfi. specialize (Hfi (r_id r)). fold st' in Hfi.
  assert (is_Some (inflight_of st' k !! r_id r)) as [e He].
  { rewrite Hfi. destruct (if rem _ then _ else _); [done|]. apply not_eq_None_Some.
    rewrite first_slot_None, Hids. intros Hno. apply Hno. by apply list_elem_of_fmap_2. }
  split; [by exists e|]. destruct (inv_reachable o is_er _ Hst') as [_ Hf _ _ _ _].
  destruct (Hf k (r_id r) e He) as (_ & h' & p & Hs'). by exists h', p.
Qed.
End Scans.
