(* ===== verification/Cli.v ===== *)
(** * The command-line client

    [vrf-cli/src/main.rs]: the instructions each command sends, and what the
    two queries print. Parsing of arguments and the RPC calls are outside;
    a key argument is a string that may not parse. *)

From S2P Require Import Prelude Pod Api QueueLayout QueueAccount Solana Accounts Instructions Verify Handlers Provide Vrf Registry Sdk OracleClock OracleTasks OracleSend OracleSources.

(** [Pubkey::from_str], and the accounts at the endpoint. *)
Class CliHost : Type := {
  pubkey_from_str : string → option (list byte);
  rpc_get_account : list byte → option Account;
}.

Inductive Commands : Type :=
| CmdInitialize
| CmdAddOracle (identity oracle_pubkey : string)
| CmdRemoveOracle (identity : string)
| CmdInitializeOracleQueue (identity : string) (index : Z) (bytes_to_allocate : option Z)
| CmdDelegateOracleQueue (queue : string)
| CmdCloseOracleQueue (queue : string)
| CmdDerivePubkey
| CmdListQueue.

(** A line of [ListQueue]. *)
Inductive queue_line : Type :=
| QueueLine (address : list byte) (items index : Z) (delegated : bool)
| UnparsedLine (address : list byte).

(** How the client ends: an error, a transaction to send, or a printed
    answer. *)
Inductive cli_outcome : Type :=
| CliError
| CliSend (tx : Transaction)
| CliDerived (pk : list byte)
| CliQueues (l : list queue_line).

Section Cli.
Context {rt : Runtime} {dk : Dalek} {ds : DelegationSdk} {host : CliHost}.

(** The key and the header of an existing queue. *)
Definition fetch_queue (queue : string) : option (list byte * Queue) :=
  q ← pubkey_from_str queue;
  account ← rpc_get_account q;
  header ← ok (Queue_try_from_bytes (a_data account));
  Some (q, header).

Definition command_instructions (signer : list byte) (command : Commands) : option (list Instruction) :=
  match command with
  | CmdInitialize => Some [initialize signer]
  | CmdAddOracle identity oracle_pubkey =>
    i ← pubkey_from_str identity;
    pk ← pubkey_from_str oracle_pubkey;
    Some [add_oracle signer i pk]
  | CmdRemoveOracle identity => i ← pubkey_from_str identity; Some [remove_oracle signer i]
  | CmdInitializeOracleQueue identity index bytes_to_allocate =>
    i ← pubkey_from_str identity;
    Some (initialize_oracle_queue signer i index bytes_to_allocate)
  | CmdDelegateOracleQueue queue =>
    '(q, header) ← fetch_queue queue;
    Some [delegate_oracle_queue signer q (queue_index header)]
  | CmdCloseOracleQueue queue =>
    '(_, header) ← fetch_queue queue;
    Some [close_oracle_queue signer (queue_index header)]
  | CmdDerivePubkey | CmdListQueue => None
  end.

Definition list_queue_line (signer : list byte) (i : Z) : option queue_line :=
  let queue := fst (oracle_queue_pda signer i) in
  account ← rpc_get_account queue;
  Some (match Queue_try_from_bytes (a_data account) with
        | Ok h => QueueLine queue (item_count h) (queue_index h) (negb (bytes_eqb (a_owner account) ID))
        | _ => UnparsedLine queue
        end).

(** [main], with the signer's keypair bytes and key, and the latest blockhash
    if it can be fetched. *)
Definition cli_main (keypair signer : list byte) (blockhash : option (list byte)) (command : Commands)
    : res cli_outcome :=
  match blockhash with
  | None => Ok CliError
  | Some blockhash =>
    match command with
    | CmdDerivePubkey =>
      '(_, oracle_vrf_pk) ← generate_vrf_keypair keypair;
      mret (CliDerived (compress oracle_vrf_pk))
    | CmdListQueue => Ok (CliQueues (omap (list_queue_line signer) (Z.of_nat <$> seq 0 20)))
    | _ =>
      match command_instructions signer command with
      | Some instructions =>
        Ok (CliSend (mkTransaction (SetComputeUnitLimit 200000 :: (ProgramInstruction <$> instructions))
                       signer blockhash))
      | None => Ok CliError
      end
    end
  end.

(** Every instruction the client sends is one of the program, and it is
    signed by nobody but the signer, except a queue's creation, which the
    oracle signs too. *)
Lemma command_instructions_signers signer command l :
  command_instructions signer command = Some l →
  Forall (λ ix, ix_program_id ix = ID ∧
    Forall (λ m, am_is_signer m = true → am_pubkey m = signer ∨
      ∃ identity index size, command = CmdInitializeOracleQueue identity index size ∧
        pubkey_from_str identity = Some (am_pubkey m)) (ix_accounts ix)) l.
Proof.
  destruct command as [|i pk|i|i x b|q|q| |]; cbn.
  - intros [= <-]. repeat constructor; naive_solver.
  - destruct (pubkey_from_str i), (pubkey_from_str pk); intros [= <-]; repeat constructor; naive_solver.
  - destruct (pubkey_from_str i); intros [= <-]. repeat constructor; naive_solver.
  - destruct (pubkey_from_str i) as [k|] eqn:Hk; intros [= <-]. unfold initialize_oracle_queue.
    apply Forall_replicate. split; [done|]. unfold initialize_oracle_queue_ix. cbn [ix_accounts].
    apply Forall_cons. split; [intros _; by left|]. apply Forall_cons. split; [intros _; right; by exists i, x, b|].
    repeat constructor; naive_solver.
  - destruct (fetch_queue q) as [[k h]|]; intros [= <-]. repeat constructor; naive_solver.
  - destruct (fetch_queue q) as [[k h]|]; intros [= <-]. repeat constructor; naive_solver.
  - done.
  - done.
Qed.
End Cli.
