(* ===== verification/Concrete.v ===== *)
(** * A concrete runtime

    Executable instances of every interface to code outside the repository,
    with proofs that they have the documented behaviour the theorems assume:
    a runtime with the system program and its binary instruction format, the
    Borsh encodings of the registry and of a request, and a curve library
    over the group of order two. The hash functions are toys (they pad and
    cut), which is enough to run every handler on concrete accounts. *)

From coqutil Require Import Word.LittleEndianList.
From S2P Require Import Prelude Pod Api QueueLayout QueueAccount QueueInv QueueAdd QueueSpec Solana Accounts Instructions Verify Handlers Provide Reason Laws RequestTheorems Vrf Solvency Registry Sdk.

(** ** The curve: the group of order two and its field of scalars *)

Definition toy_compress (P : bool) : list byte := if P then RISTRETTO_BASEPOINT_POINT else zeros 32.

Definition toy_decompress (b : list byte) : option bool :=
  if bytes_eqb b RISTRETTO_BASEPOINT_POINT then Some true
  else if bytes_eqb b (zeros 32) then Some false else None.

Definition toy_scalar (b : list byte) : bool :=
  match b with x :: _ => Z.odd (byte.unsigned x) | [] => false end.

Definition toy_scalar_bytes (s : bool) : list byte := byte.of_Z (bool_as_u8 s) :: zeros 31.

Definition pad32 (b : list byte) : list byte := take 32 (b ++ zeros 32).

#[export] Instance toy_dalek : Dalek := {|
  Scalar := bool; Point := bool; s_add := xorb; s_mul := andb; p_add := xorb; p_mul := andb;
  p_eqb := eqb; basepoint := true; compress := toy_compress; decompress := toy_decompress;
  scalar_to_bytes := toy_scalar_bytes; from_bytes_mod_order := toy_scalar;
  hkdf_expand := λ salt ikm info, Some (pad32 ikm ++ pad32 (salt ++ info)) |}.

#[export] Instance toy_dalek_laws : DalekLaws.
Proof.
  split.
  - intros P Q. apply eqb_true_iff.
  - by intros [] [] [].
  - by intros [] [] [].
  - by intros [].
  - intros b P. cbn. unfold toy_decompress. destruct (bytes_eqb b RISTRETTO_BASEPOINT_POINT) eqn:H.
    { intros [= <-]. by apply bytes_eqb_eq in H. }
    destruct (bytes_eqb b (zeros 32)) eqn:H0; [|done]. intros [= <-]. by apply bytes_eqb_eq in H0.
Qed.

#[export] Program Instance toy_field : DalekField :=
  {| s_sub := xorb; s_inv := λ s, s; s_one := true; p_sub := xorb |}.
Next Obligation. by intros [] []. Qed.
Next Obligation. by intros []. Qed.
Next Obligation. by intros [] [] []. Qed.
Next Obligation. by intros [] [] []. Qed.

(** ** Borsh *)

Fixpoint keys_of (n : nat) (b : list byte) : list (list byte) :=
  match n with O => [] | S n => take 32 b :: keys_of n (drop 32 b) end.

#[export] Instance toy_oracles_borsh : OraclesBorsh := {|
  oracles_to_vec := λ l, if zlen l <? 2 ^ 32 then Some (le_split 4 (zlen l) ++ mjoin l) else None;
  oracles_try_from_slice := λ b,
    let n := le_combine (take 4 b) in
    if (4 <=? zlen b) && (zlen b =? 4 + 32 * n) then Some (keys_of (Z.to_nat n) (drop 4 b)) else None |}.

Lemma keys_of_join l : Forall (λ k, zlen k = 32) l → keys_of (length l) (mjoin l) = l.
Proof.
  induction 1 as [|k l Hk _ IH]; [done|]. change (mjoin (k :: l)) with (k ++ mjoin l). cbn [length keys_of].
  assert (length k = 32%nat) as Hl by (unfold zlen in Hk; lia).
  by rewrite take_app_length', drop_app_length', IH.
Qed.

Lemma zlen_join l : Forall (λ k, zlen k = 32) l → zlen (mjoin l : list byte) = 32 * zlen l.
Proof.
  induction 1 as [|k l Hk _ IH]; [done|]. change (mjoin (k :: l)) with (k ++ mjoin l).
  rewrite zlen_app, zlen_cons. lia.
Qed.

Lemma keys_of_len n b : zlen b = 32 * Z.of_nat n → Forall (λ k, zlen k = 32) (keys_of n b).
Proof.
  revert b. induction n as [|n IH]; intros b Hb; cbn [keys_of]; constructor.
  - unfold zlen in *. rewrite length_take. lia.
  - apply IH. unfold zlen in *. rewrite length_drop. lia.
Qed.

#[export] Instance toy_oracles_laws : OraclesBorshLaws.
Proof.
  split.
  - intros l b Hl. cbn [oracles_to_vec oracles_try_from_slice toy_oracles_borsh]. destruct (Z.ltb_spec (zlen l) (2 ^ 32)) as [Hlt|]; [|done]. intros Hb.
    assert (b = le_split 4 (zlen l) ++ mjoin l) as -> by congruence. clear Hb.
    pose proof (zlen_nonneg l).
    assert (zlen (le_split 4 (zlen l) ++ mjoin l) = 4 + 32 * zlen l) as Hlen.
    { rewrite zlen_app, zlen_join by done. unfold zlen at 1. rewrite length_le_split. lia. }
    rewrite take_app_length', drop_app_length' by (by rewrite length_le_split).
    rewrite le_combine_split, Z.mod_small by (cbn; lia).
    rewrite Hlen, Z.eqb_refl, (proj2 (Z.leb_le _ _)) by lia. cbn [andb].
    split; [|done]. unfold zlen. by rewrite Nat2Z.id, keys_of_join.
  - intros b l. cbn [oracles_try_from_slice toy_oracles_borsh]. destruct (_ && _) eqn:H; [|done]. intros [= <-].
    apply andb_true_iff in H as [H4%Z.leb_le Hb%Z.eqb_eq]. apply keys_of_len.
    unfold zlen in *. rewrite length_drop. lia.
Qed.

(** Reading a fixed number of bytes, and a byte vector with its [u32] length. *)
Definition read_n (n : Z) (b : list byte) : option (list byte * list byte) :=
  if (0 <=? n) && (n <=? zlen b) then Some (slice b 0 n, slice b n (zlen b)) else None.

Definition read_u32 (b : list byte) : option (Z * list byte) :=
  '(x, b) ← read_n 4 b; Some (le_combine x, b).

Definition read_vec (b : list byte) : option (list byte * list byte) :=
  '(n, b) ← read_u32 b; read_n n b.

Definition read_bool (b : list byte) : option (bool * list byte) :=
  match b with
  | x :: b => if byte.unsigned x <=? 1 then Some (byte.unsigned x =? 1, b) else None
  | [] => None
  end.

Fixpoint read_metas (n : nat) (b : list byte) : option (list SerializableAccountMeta * list byte) :=
  match n with
  | O => Some ([], b)
  | S n =>
    '(k, b) ← read_n 32 b;
    '(s, b) ← read_bool b;
    '(w, b) ← read_bool b;
    '(l, b) ← read_metas n b;
    Some (mkSerializableMeta k s w :: l, b)
  end.

Definition meta_to_vec (m : SerializableAccountMeta) : list byte :=
  ser_pubkey m ++ [byte.of_Z (bool_as_u8 (ser_is_signer m)); byte.of_Z (bool_as_u8 (ser_is_writable m))].

Definition vec_to_vec (b : list byte) : list byte := le_split 4 (zlen b) ++ b.

#[export] Instance toy_request_borsh : RequestBorsh := {|
  request_to_vec := λ r,
    rr_caller_seed r ++ rr_callback_program_id r ++ vec_to_vec (rr_callback_discriminator r) ++
    le_split 4 (zlen (rr_callback_accounts_metas r)) ++
    mjoin (meta_to_vec <$> rr_callback_accounts_metas r) ++ vec_to_vec (rr_callback_args r);
  request_deserialize := λ b,
    '(seed, b) ← read_n 32 b;
    '(program, b) ← read_n 32 b;
    '(disc, b) ← read_vec b;
    '(n, b) ← read_u32 b;
    '(metas, b) ← read_metas (Z.to_nat n) b;
    '(args, b) ← read_vec b;
    Some (mkRequestRandomness seed program disc metas args) |}.

Lemma read_n_len n b x b' : read_n n b = Some (x, b') → zlen x = n.
Proof.
  unfold read_n. destruct (_ && _) eqn:H; [|done]. intros [= <- <-].
  apply andb_true_iff in H as [H0%Z.leb_le Hn%Z.leb_le]. rewrite zlen_slice; lia.
Qed.

Lemma read_metas_len n b l b' : read_metas n b = Some (l, b') → Forall (λ m, zlen (ser_pubkey m) = 32) l.
Proof.
  revert b l b'. induction n as [|n IH]; intros b l b' H; cbn in H.
  - injection H as <- _. constructor.
  - destruct (read_n 32 b) as [[k b1]|] eqn:Hk; [|done]. cbn in H.
    destruct (read_bool b1) as [[s b2]|]; [|done]. cbn in H.
    destruct (read_bool b2) as [[w b3]|]; [|done]. cbn in H.
    destruct (read_metas n b3) as [[l' b4]|] eqn:Hl; [|done]. cbn in H. injection H as <- _.
    constructor; [by eapply read_n_len|by eapply IH].
Qed.

#[export] Instance toy_request_laws : RequestBorshLaws.
Proof.
  split. intros d args H. cbn [request_deserialize toy_request_borsh] in H.
  destruct (read_n 32 d) as [[seed b1]|] eqn:H1; [|done]. cbn in H.
  destruct (read_n 32 b1) as [[program b2]|] eqn:H2; [|done]. cbn in H.
  destruct (read_vec b2) as [[disc b3]|]; [|done]. cbn in H.
  destruct (read_u32 b3) as [[n b4]|]; [|done]. cbn in H.
  destruct (read_metas (Z.to_nat n) b4) as [[metas b5]|] eqn:H5; [|done]. cbn in H.
  destruct (read_vec b5) as [[a b6]|]; [|done]. cbn in H. injection H as <-.
  split_and!; [by eapply read_n_len|by eapply read_n_len|by eapply read_metas_len].
Qed.

(** ** The runtime *)

Definition MAX_PERMITTED_DATA_INCREASE : Z := 10240.

(** The system program's instructions, in bincode. *)
Definition sys_meta (k : list byte) (signer : bool) : AccountMeta := mkAccountMeta k signer true.

Definition toy_create_account (from to : list byte) (lam space : Z) (owner : list byte) : Instruction :=
  mkInstruction system_program_ID [sys_meta from true; sys_meta to true]
    (le_split 4 0 ++ le_split 8 lam ++ le_split 8 space ++ owner).
Definition toy_assign (k owner : list byte) : Instruction :=
  mkInstruction system_program_ID [sys_meta k true] (le_split 4 1 ++ owner).
Definition toy_transfer (from to : list byte) (n : Z) : Instruction :=
  mkInstruction system_program_ID [sys_meta from true; sys_meta to false] (le_split 4 2 ++ le_split 8 n).
Definition toy_allocate (k : list byte) (space : Z) : Instruction :=
  mkInstruction system_program_ID [sys_meta k true] (le_split 4 8 ++ le_split 8 space).

(** The effects of the system program; it touches only its own accounts,
    apart from crediting others. *)
Definition is_system (σ : Store) (k : list byte) : bool := bytes_eqb (owner_at σ k) system_program_ID.

Definition sys_transfer (from to : list byte) (n : Z) (σ : Store) : outcome ProgramError Store :=
  ensure (is_system σ from) InvalidAccountOwner;;
  ensure ((0 <=? n) && (n <=? lamports_at σ from)) (Custom 1);;
  let σ' := move_lamports σ from to n in
  ensure (lamports_at σ' to <? 2 ^ 64) InvalidArgument;;
  Ok σ'.

Definition sys_create (from to : list byte) (lam space : Z) (owner : list byte) (σ : Store)
    : outcome ProgramError Store :=
  ensure (is_system σ to && (zlen (data_at σ to) =? 0)) (Custom 0);;
  σ' ← sys_transfer from to lam σ;
  Ok (<[to := mkAccount (lamports_at σ' to) (zeros space) owner false]> σ').

Definition sys_allocate (k : list byte) (space : Z) (σ : Store) : outcome ProgramError Store :=
  ensure (is_system σ k && (zlen (data_at σ k) =? 0)) (Custom 0);;
  Ok (upd_data σ k (zeros space)).

Definition set_owner (σ : Store) (k owner : list byte) : Store :=
  <[k := mkAccount (lamports_at σ k) (data_at σ k) owner (a_executable (get_account σ k))]> σ.

(** The runtime lets an account change hands with zeroed data only. *)
Definition sys_assign (k owner : list byte) (σ : Store) : outcome ProgramError Store :=
  ensure (is_system σ k && bytes_eqb (data_at σ k) (zeros (zlen (data_at σ k)))) InvalidAccountOwner;;
  Ok (set_owner σ k owner).

(** A CPI: the system program, or a callback that leaves the accounts alone. *)
Definition toy_invoke (ix : Instruction) (infos : list AccountInfo) (seeds : list (list (list byte)))
    (σ : Store) : outcome ProgramError Store :=
  if bytes_eqb (ix_program_id ix) system_program_ID then
    let d := drop 4 (ix_data ix) in
    match le_combine (take 4 (ix_data ix)), ix_accounts ix with
    | 0, [f; t] => sys_create (am_pubkey f) (am_pubkey t) (le_combine (take 8 d))
                     (le_combine (take 8 (drop 8 d))) (drop 16 d) σ
    | 1, [k] => sys_assign (am_pubkey k) d σ
    | 2, [f; t] => sys_transfer (am_pubkey f) (am_pubkey t) (le_combine (take 8 d)) σ
    | 8, [k] => sys_allocate (am_pubkey k) (le_combine (take 8 d)) σ
    | _, _ => Err InvalidInstructionData
    end
  else Ok σ.

Definition toy_resize (i : AccountInfo) (n : Z) (σ : Store) : outcome ProgramError Store :=
  let d := data_at σ (key i) in
  ensure ((0 <=? n) && (n <=? zlen d + MAX_PERMITTED_DATA_INCREASE)) InvalidRealloc;;
  Ok (upd_data σ (key i) (take (Z.to_nat n) d ++ zeros (n - zlen d))).

Definition derive (seeds : list (list byte)) (p : list byte) : list byte :=
  pad32 (mjoin (take 8 <$> p :: seeds)).

Definition toy_hashv (salt : byte) (l : list (list byte)) : list byte :=
  let b := mjoin l in
  if bytes_eqb (take (length VRF_PREFIX_HASH_TO_POINT) b) VRF_PREFIX_HASH_TO_POINT
  then toy_compress (Z.odd (foldr (λ x n, byte.unsigned x + n) 0 b))
  else pad32 b.

Definition toy_loader_state (d : list byte) : option (option (option (list byte))) :=
  if bytes_eqb (take 4 d) (le_split 4 3)
  then Some (Some (if bytes_eqb (slice d 12 13) [byte.of_Z 1] then Some (slice d 13 45) else None))
  else Some None.

Definition toy_rent (n : Z) : Z := wrap 64 ((n + 128) * 6960).

Definition toy_runtime (slot time : Z) (salt : byte) : Runtime := {|
  find_program_address := λ seeds p, (derive seeds p, 255);
  create_program_address := λ seeds p,
    if bool_decide (last seeds = Some [byte.of_Z 255]) then Some (derive (removelast seeds) p) else None;
  hashv := toy_hashv salt;
  hash := λ b, salt :: take 31 (pad32 b);
  clock_get := Ok (mkClock (as_u64 slot) time);
  rent_get := Ok toy_rent;
  rent_default_minimum_balance := toy_rent;
  account_resize := toy_resize;
  account_assign := λ i owner σ, set_owner σ (key i) owner;
  invoke_signed := toy_invoke;
  system_create_account := toy_create_account;
  system_transfer := toy_transfer;
  system_allocate := toy_allocate;
  system_assign := toy_assign;
  delegate_account := λ infos seeds freq validator σ, Ok σ;
  deserialize_loader_state := toy_loader_state;
  validate_edwards := λ b, zlen b =? 32;
  validate_ristretto := λ b, bool_decide (is_Some (toy_decompress b));
  multiply_ristretto := λ s b, (λ P, toy_compress (toy_scalar s && P)) <$> toy_decompress b;
  add_ristretto := λ a b,
    match toy_decompress a, toy_decompress b with
    | Some P, Some Q => Some (toy_compress (xorb P Q))
    | _, _ => None
    end;
  scalar_from_bytes_mod_order := λ b, toy_scalar_bytes (toy_scalar b);
|}.

Lemma toy_syscalls slot time salt : SyscallLaws (rt:=toy_runtime slot time salt).
Proof.
  split; cbn; try done.
  - intros b. apply bool_decide_eq_true.
  - by intros [] b.
Qed.

(** ** The system program has its documented behaviour *)

Lemma zlen_pad32 b : zlen (pad32 b) = 32.
Proof. unfold pad32, zlen. rewrite length_take, length_app. change (length (zeros 32)) with 32%nat. lia. Qed.

Lemma le_combine_take n z l : le_combine (take n (le_split n z ++ l)) = z mod 2 ^ (Z.of_nat n * 8).
Proof. rewrite take_app_length' by by rewrite length_le_split. by rewrite le_combine_split. Qed.

Lemma drop_le_split n z l : drop n (le_split n z ++ l) = l.
Proof. apply drop_app_length'. by rewrite length_le_split. Qed.

Lemma toy_invoke_transfer from to n infos seeds σ :
  fits 64 n → toy_invoke (toy_transfer from to n) infos seeds σ = sys_transfer from to n σ.
Proof.
  intros Hn. unfold toy_invoke, toy_transfer. cbn [ix_program_id ix_data ix_accounts].
  rewrite (proj2 (bytes_eqb_eq _ _) eq_refl), le_combine_take, drop_le_split.
  rewrite <- (app_nil_r (le_split 8 n)), le_combine_take. cbn [sys_meta am_pubkey].
  rewrite (Z.mod_small n) by (unfold fits in Hn; cbn; lia). done.
Qed.

Lemma toy_invoke_allocate k n infos seeds σ :
  0 ≤ n < 2 ^ 63 → toy_invoke (toy_allocate k n) infos seeds σ = sys_allocate k n σ.
Proof.
  intros Hn. unfold toy_invoke, toy_allocate. cbn [ix_program_id ix_data ix_accounts].
  rewrite (proj2 (bytes_eqb_eq _ _) eq_refl), le_combine_take, drop_le_split.
  rewrite <- (app_nil_r (le_split 8 n)), le_combine_take. cbn [sys_meta am_pubkey].
  rewrite (Z.mod_small n) by (cbn; lia). done.
Qed.

Lemma toy_invoke_assign k owner infos seeds σ :
  toy_invoke (toy_assign k owner) infos seeds σ = sys_assign k owner σ.
Proof.
  unfold toy_invoke, toy_assign. cbn [ix_program_id ix_data ix_accounts].
  by rewrite (proj2 (bytes_eqb_eq _ _) eq_refl), le_combine_take, drop_le_split.
Qed.

Lemma toy_invoke_create from to lam space owner infos seeds σ :
  0 ≤ space < 2 ^ 63 →
  toy_invoke (toy_create_account from to lam space owner) infos seeds σ =
  sys_create from to (lam mod 2 ^ 64) space owner σ.
Proof.
  intros Hn. unfold toy_invoke, toy_create_account. cbn [ix_program_id ix_data ix_accounts].
  rewrite (proj2 (bytes_eqb_eq _ _) eq_refl), le_combine_take, !drop_le_split, !le_combine_take.
  cbn [sys_meta am_pubkey]. rewrite (Z.mod_small space) by (cbn; lia).
  change (drop 16 ?l) with (drop (8 + 8) l). rewrite <- drop_drop, !drop_le_split. done.
Qed.

Lemma sys_transfer_Ok from to n σ σ' :
  sys_transfer from to n σ = Ok σ' ↔
    owner_at σ from = system_program_ID ∧ 0 ≤ n ≤ lamports_at σ from ∧
    lamports_at (move_lamports σ from to n) to < 2 ^ 64 ∧ σ' = move_lamports σ from to n.
Proof.
  unfold sys_transfer, is_system, ensure, mbind, outcome_bind. cbv zeta.
  destruct (bytes_eqb _ _) eqn:Ho; [apply bytes_eqb_eq in Ho|apply bytes_eqb_neq in Ho; naive_solver].
  destruct (Z.leb_spec 0 n), (Z.leb_spec n (lamports_at σ from)); cbn [andb]; try naive_solver lia.
  destruct (Z.ltb_spec (lamports_at (move_lamports σ from to n) to) (2 ^ 64)); naive_solver lia.
Qed.

Lemma sys_create_Ok from to lam space owner σ σ' :
  sys_create from to lam space owner σ = Ok σ' ↔
    owner_at σ to = system_program_ID ∧ ∃ σ1, sys_transfer from to lam σ = Ok σ1 ∧
    σ' = <[to := mkAccount (lamports_at σ1 to) (zeros space) owner false]> σ1 ∧ zlen (data_at σ to) = 0.
Proof.
  unfold sys_create, is_system, ensure, mbind, outcome_bind.
  destruct (bytes_eqb _ _) eqn:Ho; [apply bytes_eqb_eq in Ho|apply bytes_eqb_neq in Ho; naive_solver].
  destruct (Z.eqb_spec (zlen (data_at σ to)) 0); cbn [andb]; [|naive_solver].
  destruct (sys_transfer _ _ _ _); naive_solver.
Qed.

Lemma sys_allocate_Ok k space σ σ' :
  sys_allocate k space σ = Ok σ' ↔
    owner_at σ k = system_program_ID ∧ zlen (data_at σ k) = 0 ∧ σ' = upd_data σ k (zeros space).
Proof.
  unfold sys_allocate, is_system, ensure, mbind, outcome_bind.
  destruct (bytes_eqb _ _) eqn:Ho; [apply bytes_eqb_eq in Ho|apply bytes_eqb_neq in Ho; naive_solver].
  destruct (Z.eqb_spec (zlen (data_at σ k)) 0); cbn [andb]; naive_solver.
Qed.

Lemma sys_assign_Ok k owner σ σ' :
  sys_assign k owner σ = Ok σ' ↔
    owner_at σ k = system_program_ID ∧ data_at σ k = zeros (zlen (data_at σ k)) ∧ σ' = set_owner σ k owner.
Proof.
  unfold sys_assign, is_system, ensure, mbind, outcome_bind.
  destruct (bytes_eqb (owner_at σ k) _) eqn:Ho; [apply bytes_eqb_eq in Ho|apply bytes_eqb_neq in Ho; naive_solver].
  destruct (bytes_eqb (data_at σ k) _) eqn:Hd; [apply bytes_eqb_eq in Hd|apply bytes_eqb_neq in Hd]; naive_solver.
Qed.

Lemma get_set_owner σ k owner k' :
  get_account (set_owner σ k owner) k' =
    if decide (k' = k) then mkAccount (lamports_at σ k') (data_at σ k') owner (a_executable (get_account σ k'))
    else get_account σ k'.
Proof.
  unfold set_owner. destruct (decide (k' = k)) as [->|].
  - by rewrite get_account_insert.
  - by rewrite get_account_insert_ne.
Qed.

(** Balances after a transfer. *)
Lemma lamports_move σ from to n k :
  lamports_at (move_lamports σ from to n) k =
    lamports_at σ k - (if decide (k = from) then n else 0) + (if decide (k = to) then n else 0).
Proof.
  unfold move_lamports. destruct (decide (k = to)) as [->|Hto].
  - rewrite get_upd_lamports. cbn [a_lamports with_lamports]. destruct (decide (to = from)) as [->|].
    + rewrite get_upd_lamports. cbn [a_lamports with_lamports]. lia.
    + rewrite get_upd_lamports_ne by done. lia.
  - rewrite get_upd_lamports_ne by done. destruct (decide (k = from)) as [->|].
    + rewrite get_upd_lamports. cbn [a_lamports with_lamports]. lia.
    + rewrite get_upd_lamports_ne by done. lia.
Qed.

(** What a successful CPI can be. *)
Inductive toy_effect (σ : Store) : Store → Prop :=
| eff_transfer from to n σ' : sys_transfer from to n σ = Ok σ' → toy_effect σ σ'
| eff_create from to lam space owner σ' : sys_create from to lam space owner σ = Ok σ' → toy_effect σ σ'
| eff_allocate k space σ' : sys_allocate k space σ = Ok σ' → toy_effect σ σ'
| eff_assign k owner σ' : sys_assign k owner σ = Ok σ' → toy_effect σ σ'
| eff_none : toy_effect σ σ.

Lemma toy_invoke_effect ix infos seeds σ σ' : toy_invoke ix infos seeds σ = Ok σ' → toy_effect σ σ'.
Proof.
  unfold toy_invoke. destruct (bytes_eqb _ _); [|intros [= <-]; apply eff_none]. cbv zeta.
  generalize (le_combine (take 4 (ix_data ix))) as tag, (ix_accounts ix) as l. intros tag l H.
  destruct tag as [|tag|]; [|repeat (destruct tag as [tag|tag|]; try done)|done];
    destruct l as [|m1 [|m2 [|]]]; try done;
    eauto using eff_transfer, eff_create, eff_allocate, eff_assign.
Qed.

Lemma toy_effect_fits σ σ' : toy_effect σ σ' →
  (∀ k, fits 64 (lamports_at σ k)) → ∀ k, fits 64 (lamports_at σ' k).
Proof.
  assert (∀ from to n σ σ', sys_transfer from to n σ = Ok σ' →
    (∀ k, fits 64 (lamports_at σ k)) → ∀ k, fits 64 (lamports_at σ' k)) as Htr.
  { clear. intros from to n σ σ' (_ & Hn & Hto & ->)%sys_transfer_Ok Hfit k. pose proof (Hfit k).
    rewrite !lamports_move in *. repeat case_decide; subst; try done; fits_lia. }
  intros [from to n σ1 H|from to lam space owner σ1 H|k0 space σ1 H|k0 owner σ1 H|] Hfit k.
  - by eapply Htr.
  - apply sys_create_Ok in H as (_ & σ2 & H & -> & _). pose proof (Htr _ _ _ _ _ H Hfit) as Hf.
    destruct (decide (k = to)) as [->|]; [rewrite get_account_insert|rewrite get_account_insert_ne by done]; apply Hf.
  - apply sys_allocate_Ok in H as (_ & _ & ->). by rewrite lamports_upd_data.
  - apply sys_assign_Ok in H as (_ & _ & ->). rewrite get_set_owner. destruct (decide _); apply Hfit.
  - done.
Qed.

Lemma ID_not_system : ID ≠ system_program_ID.
Proof. intros H. apply bytes_eqb_eq in H. vm_compute in H. discriminate H. Qed.

Lemma toy_effect_isolation σ σ' k : toy_effect σ σ' → owner_at σ k = ID →
  lamports_at σ k ≤ lamports_at σ' k ∧ data_at σ' k = data_at σ k ∧ owner_at σ' k = ID.
Proof.
  assert (∀ from to n σ σ', sys_transfer from to n σ = Ok σ' → owner_at σ k = ID →
    lamports_at σ k ≤ lamports_at σ' k ∧ data_at σ' k = data_at σ k ∧ owner_at σ' k = ID) as Htr.
  { clear. intros from to n σ σ' (Ho & Hn & _ & ->)%sys_transfer_Ok Hk.
    rewrite move_lamports_data, move_lamports_owner, lamports_move. split; [|done].
    destruct (decide (k = from)) as [->|]; [|destruct (decide _); lia]. by rewrite Hk in Ho; destruct ID_not_system. }
  intros Heff Hk. pose proof ID_not_system.
  destruct Heff as [from to n σ1 H1|from to lam space owner σ1 H1|k0 space σ1 H1|k0 owner σ1 H1|].
  - by eapply Htr.
  - apply sys_create_Ok in H1 as (Ho & σ2 & H1 & -> & _).
    rewrite get_account_insert_ne by congruence. by eapply Htr.
  - apply sys_allocate_Ok in H1 as (Ho & _ & ->).
    rewrite get_upd_data_ne by congruence. split; [lia|done].
  - apply sys_assign_Ok in H1 as (Ho & _ & ->).
    rewrite get_set_owner, decide_False by congruence. split; [lia|done].
  - split; [lia|done].
Qed.

Lemma toy_hashv_len salt l : zlen (toy_hashv salt l) = 32.
Proof.
  unfold toy_hashv. destruct (bytes_eqb _ _); [by destruct (Z.odd _)|apply zlen_pad32].
Qed.

Lemma toy_create_law σ σ' from to lam space owner :
  sys_create from to lam space owner σ = Ok σ' →
  data_at σ' to = zeros space ∧ owner_at σ' to = owner ∧ same_data_except σ σ' to.
Proof.
  intros (_ & σ1 & (_ & _ & _ & ->)%sys_transfer_Ok & -> & _)%sys_create_Ok.
  rewrite get_account_insert. split_and!; [done|done|]. intros k Hk.
  by rewrite get_account_insert_ne, move_lamports_data, move_lamports_owner.
Qed.

Lemma toy_runtime_laws slot time salt : RuntimeLaws (rt:=toy_runtime slot time salt).
Proof.
  split; cbn [hashv clock_get find_program_address account_resize account_assign invoke_signed
    system_create_account system_transfer system_allocate system_assign toy_runtime snd].
  - apply toy_hashv_len.
  - intros c [= <-]. by apply wrap_fits.
  - intros _ _. unfold fits. lia.
  - intros from to n infos seeds σ σ' Hn H. rewrite toy_invoke_transfer in H by done.
    apply sys_transfer_Ok in H as (_ & ? & _ & ->). split; [lia|done].
  - intros from to lam space owner infos seeds σ σ' Hsp Ho H. rewrite toy_invoke_create in H by done.
    by eapply toy_create_law.
  - intros k space infos seeds σ σ' Hsp H. rewrite toy_invoke_allocate in H by done.
    apply sys_allocate_Ok in H as (_ & _ & ->). rewrite get_upd_data. split_and!; [done|done|].
    intros k' Hk. by rewrite get_upd_data_ne.
  - intros k owner infos seeds σ σ' _ H. rewrite toy_invoke_assign in H.
    apply sys_assign_Ok in H as (_ & _ & ->). rewrite get_set_owner, decide_True by done. split_and!; [done|done|].
    intros k' Hk. by rewrite get_set_owner, decide_False.
  - intros ix infos seeds σ σ' Hfit H. apply toy_invoke_effect in H. by eapply toy_effect_fits.
  - intros ix infos seeds σ σ' k H _ Hk. apply toy_invoke_effect in H. by eapply toy_effect_isolation.
  - intros i owner σ k. apply get_set_owner.
  - intros i n σ σ' H _. unfold toy_resize, ensure, mbind, outcome_bind in H.
    destruct (_ && _) in H; [|done]. by injection H as <-.
Qed.

Lemma toy_rent_fits n : fits 64 (toy_rent n).
Proof. by apply wrap_fits. Qed.

Lemma toy_lamports_wf slot time salt σ :
  (∀ k, fits 64 (lamports_at σ k)) → lamports_wf (rt:=toy_runtime slot time salt) σ.
Proof.
  intros H. split; [done| |intros n; apply toy_rent_fits]. cbn. intros mb n [= <-]. apply toy_rent_fits.
Qed.

(** A store has [u64] balances when its accounts have. *)
Lemma store_fits σ : map_Forall (λ _ a, fits 64 (a_lamports a)) σ → ∀ k, fits 64 (lamports_at σ k).
Proof.
  intros H k. unfold get_account. destruct (σ !! k) as [a|] eqn:Hk; cbn; [by eapply H|fits_lia].
Qed.

(** ** Concrete accounts *)

Definition rt0 : Runtime := toy_runtime 10 1000 (byte.of_Z 1).
(** A few slots later; and long after the request has expired. *)
Definition rt1 : Runtime := toy_runtime 12 1001 (byte.of_Z 1).
Definition rt2 : Runtime := toy_runtime 900 2000 (byte.of_Z 1).
(** The same runtime with another hash function. *)
Definition rt0' : Runtime := toy_runtime 10 1000 (byte.of_Z 2).

Definition K (n : Z) : list byte := replicate 32 (byte.of_Z n).

Definition payer_key : list byte := K 2.
Definition oracle_key : list byte := K 1.
Definition program_key : list byte := K 3.
Definition oracle_data_key : list byte := fst (oracle_data_pda (rt:=rt0) oracle_key).
Definition queue_key : list byte := fst (oracle_queue_pda (rt:=rt0) oracle_key 0).
Definition identity_key : list byte := derive [IDENTITY] program_key.
Definition scoped_key : list byte := derive [IDENTITY; program_key] ID.

Definition payer : AccountInfo := mkInfo payer_key true true.
Definition oracle_info : AccountInfo := mkInfo oracle_key true true.
Definition oracle_data_info : AccountInfo := mkInfo oracle_data_key false true.
Definition queue_info : AccountInfo := mkInfo queue_key false true.
Definition identity_info : AccountInfo := mkInfo identity_key true false.
Definition scoped_info : AccountInfo := mkInfo scoped_key false false.
Definition program_info : AccountInfo := mkInfo program_key false false.
Definition system_info : AccountInfo := mkInfo system_program_ID false false.
Definition slothashes_info : AccountInfo := mkInfo slot_hashes_ID false false.

Definition demo_oracle : Oracle := mkOracle (toy_compress true) 5 1.
Definition oracle_account_data : list byte := discriminator_to_bytes DOracle ++ bytes_of demo_oracle.

Definition accounts_with (queue_data : list byte) : Store := list_to_map [
  (payer_key, mkAccount 100000000 [] system_program_ID false);
  (oracle_key, mkAccount 7000000 [] system_program_ID false);
  (oracle_data_key, mkAccount 2000000 oracle_account_data ID false);
  (queue_key, mkAccount 10000000 queue_data ID false);
  (program_key, mkAccount 1 [] (K 9) true);
  (slot_hashes_ID, mkAccount 1 (zeros 48) sysvar_ID false)].

(** An empty queue, with room for about four requests. *)
Definition empty_queue : list byte := discriminator_to_bytes DQueue ++ set_cursor 16 (zeros 600).
Definition store0 : Store := accounts_with empty_queue.

Definition demo_req : RequestRandomness :=
  mkRequestRandomness (K 7) program_key (bytes_of_string "callback")
    [mkSerializableMeta (K 8) false true] (bytes_of_string "args").

Definition result_store (r : outcome ProgramError (unit * Store)) : Store :=
  match r with Ok (_, σ) => σ | _ => ∅ end.

Definition is_ok {E A} (r : outcome E A) : bool := match r with Ok _ => true | _ => false end.

Lemma result_store_eq r : is_ok r = true → r = Ok ((), result_store r).
Proof. by destruct r as [[[] σ]|e|]. Defined.

Definition request_infos : list AccountInfo :=
  [payer; identity_info; queue_info; system_info; slothashes_info].

Definition request_run (σ : Store) : outcome ProgramError (unit * Store) :=
  process_request_randomness (rt:=rt0) request_infos (request_to_vec demo_req) true true σ.

(** After one scoped high-priority request. *)
Definition store1 : Store := result_store (request_run store0).

Lemma empty_queue_data : queue_data empty_queue [].
Proof. exists (set_cursor 16 (zeros 600)). split; [reflexivity|]. apply represents_fresh. lia. Defined.

Lemma store0_queue : data_at store0 queue_key = empty_queue.
Proof. vm_compute. reflexivity. Defined.

Lemma demo_req_decoded : request_deserialize (request_to_vec demo_req) = Some demo_req.
Proof. vm_compute. reflexivity. Defined.

Lemma request_runs : request_run store0 = Ok ((), store1).
Proof. apply result_store_eq. vm_compute. reflexivity. Defined.
