(* ===== verification/Witnesses.v ===== *)
(** * Witnesses

    Every theorem with hypotheses is applied at the concrete runtime and
    accounts of [Concrete.v]: its hypotheses hold there, and the handlers it
    speaks of run. *)

From coqutil Require Import Word.LittleEndianList.
From S2P Require Import Prelude Pod Api QueueLayout QueueAccount QueueInv QueueAdd QueueSpec QueueMark Solana Accounts Instructions Verify Handlers Provide Reason Laws RequestTheorems ProvideTheorems QueueAdmin Vrf Solvency Registry RegistryTheorems Sdk SdkTheorems Concrete.

(** Concrete facts, by evaluation. *)
Ltac eval_goal := repeat split; vm_compute; first [reflexivity|let H := fresh in intros H; discriminate H].

(** ** Requests *)

Definition other_req : RequestRandomness :=
  mkRequestRandomness (K 7) program_key (bytes_of_string "callback") [] (bytes_of_string "else").

Lemma demo_req_wf : request_wf demo_req ∧ request_wf other_req.
Proof. split; (split; [reflexivity|split; [reflexivity|]]); repeat constructor. Defined.

Lemma combined_hash_binds_witness :
  mjoin (combined_hash_input demo_req 10 (zeros 32) 1000 16) =
    mjoin (combined_hash_input other_req 10 (zeros 32) 1000 16) ∧
  rr_callback_program_id demo_req = rr_callback_program_id other_req ∧ 16 = 16.
Proof.
  assert (mjoin (combined_hash_input demo_req 10 (zeros 32) 1000 16) =
    mjoin (combined_hash_input other_req 10 (zeros 32) 1000 16)) as H by (vm_compute; reflexivity).
  split; [exact H|].
  destruct (combined_hash_binds demo_req other_req 10 10 (zeros 32) (zeros 32) 1000 1000 16 16)
    as (_ & _ & _ & _ & Hp & _ & Hi);
    [apply demo_req_wf|apply demo_req_wf|reflexivity|reflexivity|fits_lia|fits_lia|fits_lia|fits_lia|lia|lia|exact H|].
  split; [exact Hp|exact Hi].
Defined.

Lemma request_randomness_success_witness :
  request_run store0 = Ok ((), store1) ∧
  (∃ r, queue_data (data_at store1 queue_key) [r] ∧ r_program r = program_key) ∧
  lamports_at store1 queue_key = 10800000.
Proof.
  split; [exact request_runs|].
  assert (queue_data (data_at store0 (key queue_info)) []) as Hq.
  { change (key queue_info) with queue_key. rewrite store0_queue. apply empty_queue_data. }
  destruct (request_randomness_success (rt:=rt0) (laws:=toy_runtime_laws _ _ _)
    payer identity_info queue_info system_info slothashes_info (request_to_vec demo_req) true true
    store0 store1 [] Hq)
    as (args & clock & i & pos & Hd & _ & _ & _ & _ & _ & _ & _ & _ & _ & _ & _ & Hdata & Hl & _).
  - intros H. apply bytes_eqb_eq in H. vm_compute in H. discriminate H.
  - intros args Hargs. rewrite demo_req_decoded in Hargs. injection Hargs as <-. apply demo_req_wf.
  - exact request_runs.
  - rewrite demo_req_decoded in Hd. injection Hd as <-. split.
    + eexists. split; [|].
      * unfold insert_at in Hdata. rewrite take_nil, drop_nil in Hdata. exact Hdata.
      * reflexivity.
    + change (key queue_info) with queue_key in Hl. rewrite Hl. vm_compute. reflexivity.
Defined.

Lemma store0_queue_data : queue_data (data_at store0 (key queue_info)) [].
Proof. change (key queue_info) with queue_key. rewrite store0_queue. apply empty_queue_data. Qed.

Lemma payer_not_queue : key payer ≠ key queue_info.
Proof. intros H. apply bytes_eqb_eq in H. vm_compute in H. discriminate H. Qed.

Lemma request_randomness_outcome_witness :
  ∃ σ', request_run store0 = Ok ((), σ').
Proof.
  destruct (request_randomness_outcome (rt:=rt0) (laws:=toy_runtime_laws _ _ _)
    payer identity_info queue_info system_info slothashes_info (request_to_vec demo_req) true true
    store0 [] (set_cursor 16 (zeros 600)) demo_req (mkClock 10 1000)) as (_ & _ & Hok).
  - vm_compute. reflexivity.
  - apply represents_fresh. lia.
  - exact demo_req_decoded.
  - apply demo_req_wf.
  - reflexivity.
  - split; vm_compute; try reflexivity. intros H. discriminate H.
  - apply Hok.
    + eval_goal.
    + eval_goal.
    + eval_goal.
    + intros acc'. eexists. unfold rt0. cbn [invoke_signed system_transfer toy_runtime].
      rewrite toy_invoke_transfer by (unfold request_cost, VRF_HIGH_PRIORITY_LAMPORTS_COST; fits_lia).
      apply sys_transfer_Ok. rewrite owner_upd_data, lamports_move, !lamports_upd_data.
      split; [eval_goal|split; [eval_goal|split; [|reflexivity]]]. eval_goal.
Defined.

(** ** Providing *)

(** The queue after the request. *)
Lemma store1_queue : ∃ pos, queue_data (data_at store1 (key queue_info))
  [stored_request (rt:=rt0) demo_req 10 (zeros 32) 1000 true true 255 pos].
Proof.
  destruct (request_randomness_inv (rt:=rt0) (laws:=toy_runtime_laws _ _ _)
    payer identity_info queue_info system_info slothashes_info (request_to_vec demo_req) true true
    store0 store1 [] store0_queue_data request_runs)
    as (args & clock & acc & acc' & Hd & Hc & _ & _ & Hrep & Hb & Hstep & Hpay).
  rewrite demo_req_decoded in Hd. injection Hd as <-. injection Hc as <-.
  pose proof (request_queue_step_spec (rt:=rt0) (laws:=toy_runtime_laws _ _ _) acc [] demo_req 10
    (zeros 32) 1000 true true 255 Hrep (proj1 demo_req_wf) ltac:(fits_lia) ltac:(fits_lia)) as Hs.
  assert (slice (data_at store0 (key slothashes_info)) 16 48 = zeros 32) as Hsl by (vm_compute; reflexivity).
  rewrite Hsl in Hstep.
  match type of Hs with match ?x with _ => _ end => assert (x = (acc', Ok ())) as Hx by exact Hstep end.
  rewrite Hx in Hs. destruct Hs as (_ & _ & _ & _ & i & pos & _ & _ & _ & Hr).
  exists pos. exists acc'. unfold insert_at in Hr. rewrite take_nil, drop_nil in Hr. split; [|exact Hr].
  eapply (pay_request (rt:=rt0) (laws:=toy_runtime_laws _ _ _)) in Hpay as [Hdata _];
    [|exact payer_not_queue|apply request_cost_fits].
  rewrite Hdata, get_upd_data. reflexivity.
Qed.

Definition default_proof : list byte * (list byte * list byte * bool) := ([], ([], [], false)).
Definition demo_proof : list byte * (list byte * list byte * bool) :=
  match compute_vrf (rt:=rt1) (dk:=toy_dalek) true (K 7) with Ok p => p | _ => default_proof end.

Definition demo_provide : ProvideRandomness :=
  let '(output, (cb, ch, s)) := demo_proof in
  mkProvideRandomness (K 7) output cb ch (toy_scalar_bytes s).

Definition provide_data : list byte := bytes_of demo_provide.

Definition provide_run (σ : Store) : outcome ProgramError (unit * Store) :=
  process_provide_randomness (rt:=rt1)
    [oracle_info; scoped_info; oracle_data_info; queue_info; program_info] provide_data σ.

Definition store2 : Store := result_store (provide_run store1).

Lemma provide_runs : provide_run store1 = Ok ((), store2).
Proof. apply result_store_eq. vm_compute. reflexivity. Qed.

Lemma provide_decoded : args_try_from_bytes provide_data = Ok demo_provide.
Proof. vm_compute. reflexivity. Qed.

Lemma provide_randomness_sound_witness :
  provide_run store1 = Ok ((), store2) ∧
  ∃ i pos r σ1 σ2 seeds, [stored_request (rt:=rt0) demo_req 10 (zeros 32) 1000 true true 255 pos] !! i = Some r ∧
    verify_vrf (rt:=rt1) (toy_compress true) (r_id r) (pr_output demo_provide) (proof_of demo_provide) = true ∧
    invoke_signed (Runtime:=rt1) (callback_of (rt:=rt1) r scoped_key (pr_output demo_provide))
      [program_info; scoped_info] seeds σ1 = Ok σ2.
Proof.
  split; [exact provide_runs|]. destruct store1_queue as [pos Hq].
  destruct (provide_randomness_sound (rt:=rt1) oracle_info scoped_info oracle_data_info queue_info
    program_info [] provide_data store1 store2 _ Hq provide_runs)
    as (args & o & h & i & r & c & σ1 & σ2 & seeds & Ha & _ & _ & _ & Ho & _ & _ & _ & Hi & _ & _ & _ &
        Hv & _ & _ & _ & _ & _ & Hinv).
  rewrite provide_decoded in Ha. injection Ha as <-.
  assert (try_from_bytes (data_at store1 (key oracle_data_info)) = Ok demo_oracle) as Ho' by (vm_compute; reflexivity).
  rewrite Ho' in Ho. injection Ho as <-.
  exists i, pos, r, σ1, σ2, seeds. split; [exact Hi|]. split; [exact Hv|exact Hinv].
Defined.

Lemma provide_randomness_once_witness :
  queue_data (data_at store2 queue_key) [] ∧
  ∀ σ'', process_provide_randomness (rt:=rt1)
    [oracle_info; scoped_info; oracle_data_info; queue_info; program_info] provide_data store2 ≠ Ok ((), σ'').
Proof.
  destruct store1_queue as [pos Hq].
  destruct (provide_randomness_once (rt:=rt1) (laws:=toy_runtime_laws _ _ _)
    oracle_info scoped_info oracle_data_info queue_info program_info [] provide_data store1 store2 _
    demo_provide oracle_info scoped_info oracle_data_info program_info [] provide_data demo_provide Hq)
    as [Hd Hno].
  - apply NoDup_singleton.
  - constructor; [|constructor]. intros H. apply bytes_eqb_eq in H. vm_compute in H. discriminate H.
  - exact provide_decoded.
  - exact provide_decoded.
  - reflexivity.
  - exact provide_runs.
  - split; [|exact Hno]. 
    assert (hashv (Runtime:=rt0) (combined_hash_input demo_req 10 (zeros 32) 1000 pos) = pr_input demo_provide) as Hid.
    { unfold combined_hash_input. vm_compute. reflexivity. }
    rewrite filter_cons_False in Hd; [exact Hd|]. cbn. intros Hne. apply Hne. exact Hid.
Defined.

(** ** Administration of a queue *)

Definition index_data : list byte := bytes_of (mkQueueIndexArgs 0).

Lemma index_decoded : args_try_from_bytes index_data = Ok (mkQueueIndexArgs 0).
Proof. vm_compute. reflexivity. Qed.

Definition purge_run (σ : Store) : outcome ProgramError (unit * Store) :=
  process_purge_expired_requests (rt:=rt2) [oracle_info; queue_info] index_data σ.

(** The request has expired by the time of [rt2]: its fee goes to the oracle. *)
Lemma purge_expired_requests_spec_witness :
  ∃ σ', purge_run store1 = Ok ((), σ') ∧ queue_data (data_at σ' queue_key) [] ∧
    lamports_at σ' queue_key = 10000000 ∧ lamports_at σ' oracle_key = 7800000.
Proof.
  destruct store1_queue as [pos Hq].
  destruct (purge_expired_requests_spec (rt:=rt2) oracle_info queue_info index_data store1
    (mkQueueIndexArgs 0) (mkClock 900 2000) _ Hq index_decoded eq_refl) as (σ' & Hrun & Hpu).
  - split; vm_compute; reflexivity.
  - intros _. split; [intros H; apply bytes_eqb_eq in H; vm_compute in H; discriminate H|eval_goal].
  - exists σ'. split; [exact Hrun|]. split; [exact (pu_queue _ _ _ _ _ _ _ Hpu)|].
    pose proof (pu_lamports _ _ _ _ _ _ _ Hpu) as Hl.
    change (data_at store1 (key queue_info)) with (data_at store1 queue_key) in *.
    match type of Hl with ∀ k, _ = if ?b then _ else _ => assert (b = true) as Hb by (vm_compute; reflexivity) end.
    rewrite Hb in Hl. split.
    + etransitivity; [exact (Hl queue_key)|]. vm_compute. reflexivity.
    + etransitivity; [exact (Hl oracle_key)|]. vm_compute. reflexivity.
Defined.

Definition pause_data : list byte := bytes_of (mkSetQueuePaused 0 1).

Definition pause_run (σ : Store) : outcome ProgramError (unit * Store) :=
  process_set_queue_paused (rt:=rt0) [oracle_info; queue_info] pause_data σ.
Definition store_paused : Store := result_store (pause_run store1).

Lemma pause_runs : pause_run store1 = Ok ((), store_paused).
Proof. apply result_store_eq. vm_compute. reflexivity. Qed.

Lemma set_queue_paused_spec_witness :
  ∃ h pos, Queue_try_from_bytes (data_at store_paused queue_key) = Ok h ∧ paused h = 1 ∧
    queue_data (data_at store_paused queue_key)
      [stored_request (rt:=rt0) demo_req 10 (zeros 32) 1000 true true 255 pos].
Proof.
  destruct store1_queue as [pos Hq].
  destruct (set_queue_paused_spec (rt:=rt0) oracle_info queue_info pause_data store1 store_paused _ Hq pause_runs)
    as (args & h & h' & Ha & _ & _ & _ & _ & _ & Hh' & -> & Hd & _).
  assert (args_try_from_bytes pause_data = Ok (mkSetQueuePaused 0 1)) as Ha' by (vm_compute; reflexivity).
  rewrite Ha' in Ha. injection Ha as <-. exists (with_paused h 1), pos.
  split; [exact Hh'|]. split; [reflexivity|exact Hd].
Defined.

Definition close_run (σ : Store) : outcome ProgramError (unit * Store) :=
  process_close_oracle_queue (rt:=rt0) [oracle_info; oracle_data_info; queue_info] index_data σ.
Definition store_closed : Store := result_store (close_run store0).

Lemma close_runs : close_run store0 = Ok ((), store_closed).
Proof. apply result_store_eq. vm_compute. reflexivity. Qed.

Lemma close_oracle_queue_spec_witness :
  data_at store_closed queue_key = [] ∧ lamports_at store_closed oracle_key = 17000000 ∧
  try_from_bytes (data_at store_closed oracle_data_key) = Ok (set_open_queues demo_oracle 0).
Proof.
  destruct (close_oracle_queue_spec (rt:=rt0) (laws:=toy_runtime_laws _ _ _) oracle_info oracle_data_info
    queue_info index_data store0 store_closed [] demo_oracle store0_queue_data)
    as (_ & _ & _ & Hd & _ & _ & Hl & Ho).
  - intros H. apply bytes_eqb_eq in H. vm_compute in H. discriminate H.
  - intros H. apply bytes_eqb_eq in H. vm_compute in H. discriminate H.
  - vm_compute. reflexivity.
  - eval_goal.
  - eval_goal.
  - eval_goal.
  - exact close_runs.
  - split; [exact Hd|]. split; [etransitivity; [exact Hl|]; vm_compute; reflexivity|exact Ho].
Defined.

Definition delegate_infos : list AccountInfo :=
  [oracle_info; queue_info; mkInfo (K 20) false true; mkInfo (K 21) false true; mkInfo (K 22) false true;
   mkInfo (K 23) false false; mkInfo ID false false; system_info].

Lemma delegate_oracle_queue_spec_witness :
  process_delegate_oracle_queue (rt:=rt0) delegate_infos index_data store0 = Ok ((), store0) ∧
  process_delegate_oracle_queue (rt:=rt0) delegate_infos index_data store1 = Err (vrf_error QueueAlreadyInUse).
Proof.
  destruct store1_queue as [pos Hq1].
  assert (∀ σ, bytes_eqb (owner_at σ queue_key) ID = true →
    delegate_accounts_ok (rt:=rt0) oracle_info queue_info (mkInfo ID false false) 0 σ) as Hok.
  { intros σ H. apply bytes_eqb_eq in H. split; [reflexivity|reflexivity|reflexivity|exact H|reflexivity]. }
  split.
  - refine (eq_trans (proj2 (delegate_oracle_queue_spec (rt:=rt0) oracle_info queue_info _ _ _ _ _ _ index_data
      store0 (mkQueueIndexArgs 0) [] store0_queue_data index_decoded (Hok _ _)) _ _) _);
      try reflexivity; vm_compute; reflexivity.
  - refine (proj1 (delegate_oracle_queue_spec (rt:=rt0) oracle_info queue_info _ _ _ _ _ _ index_data
      store1 (mkQueueIndexArgs 0) _ Hq1 index_decoded (Hok _ _)) _); [vm_compute; reflexivity|].
    left. discriminate.
Defined.

(** ** The VRF *)

Lemma verifiers_agree_witness :
  vrf_verify (rt:=rt0) (dk:=toy_dalek) true (K 7) (toy_compress true) (toy_compress true, toy_compress true, false)
    = Ok true ∧
  verify_vrf (rt:=rt0) (toy_compress true) (K 7) (toy_compress true)
    (toy_compress true, toy_compress true, toy_scalar_bytes false) = true.
Proof.
  split; [vm_compute; reflexivity|].
  refine (eq_trans (verifiers_agree (rt:=rt0) (dk:=toy_dalek) (sl:=toy_syscalls _ _ _) true (K 7) (toy_compress true)
    (toy_compress true) (toy_compress true) false) _).
  vm_compute. reflexivity.
Defined.

Lemma compute_vrf_complete_witness :
  compute_vrf (rt:=rt0) (dk:=toy_dalek) true (K 7) = Ok demo_proof ∧
  verify_vrf (rt:=rt0) (toy_compress true) (K 7) (fst demo_proof)
    (fst (fst (snd demo_proof)), snd (fst (snd demo_proof)), toy_scalar_bytes (snd (snd demo_proof))) = true.
Proof.
  assert (compute_vrf (rt:=rt0) (dk:=toy_dalek) true (K 7) = Ok demo_proof) as H by (vm_compute; reflexivity).
  split; [exact H|].
  pose proof (compute_vrf_complete (rt:=rt0) (dk:=toy_dalek) (sl:=toy_syscalls _ _ _) true (K 7)) as Hc.
  rewrite H in Hc. destruct demo_proof as [output [[cb ch] s]]. destruct Hc as (Hv & _). exact Hv.
Defined.

(** Two hash functions, two challenges, two responses for one commitment. *)
Lemma vrf_special_soundness_witness :
  vrf_challenge (rt:=rt0) (dk:=toy_dalek) (toy_compress true) (toy_compress true) (toy_compress true)
    (toy_compress true) (K 7) = true ∧
  vrf_challenge (rt:=rt0') (dk:=toy_dalek) (toy_compress true) (toy_compress true) (toy_compress true)
    (toy_compress true) (K 7) = false ∧
  p_mul (Dalek:=toy_dalek) (s_mul (Dalek:=toy_dalek) (s_inv (DalekField:=toy_field) (xorb true false)) (xorb false true)) true = true.
Proof.
  split; [vm_compute; reflexivity|]. split; [vm_compute; reflexivity|].
  destruct (vrf_special_soundness (rt1:=rt0) (rt2:=rt0') (dk:=toy_dalek) (sl1:=toy_syscalls _ _ _)
    (sl2:=toy_syscalls _ _ _) (df:=toy_field) true (K 7) (toy_compress true) (toy_compress true) (toy_compress true)
    false true true true) as [Hpk _]; [vm_compute; reflexivity..|vm_compute; discriminate|].
  symmetry. exact Hpk.
Defined.

(** ** Solvency *)

Lemma queue_stays_solvent_witness :
  ∃ rs', solvent 10000000 queue_key store1 rs' ∧
    10000000 + pending_fees (filter (λ _, true) rs') ≤ lamports_at store1 queue_key.
Proof.
  destruct (queue_stays_solvent (rt:=rt0) (laws:=toy_runtime_laws _ _ _) queue_key eq_refl
    10000000 store0 store1 []) as (rs' & Hs & Hp).
  - split; [exact store0_queue_data|vm_compute; reflexivity|constructor|eval_goal].
  - eapply rtc_l; [|apply rtc_refl].
    apply (tx_request queue_key payer identity_info queue_info system_info slothashes_info
             (request_to_vec demo_req) true true store0 store1); [reflexivity|exact payer_not_queue| |exact request_runs].
    intros args Hargs. rewrite demo_req_decoded in Hargs. injection Hargs as <-.
    intros H. apply bytes_eqb_eq in H. vm_compute in H. discriminate H.
  - exists rs'. split; [exact Hs|exact (Hp (λ _, true))].
Defined.

(** ** The registry and new queues *)

Definition upgrade_key : list byte := fst (find_program_address (Runtime:=rt0) [ID] bpf_loader_upgradeable_ID).
Definition oracles_key : list byte := fst (oracles_pda (rt:=rt0)).
Definition new_oracle_key : list byte := fst (oracle_data_pda (rt:=rt0) (K 11)).

(** No registry yet; the payer may upgrade the program. *)
Definition store_bare : Store := list_to_map [
  (payer_key, mkAccount 100000000 [] system_program_ID false);
  (oracle_key, mkAccount 7000000 [] system_program_ID false);
  (oracle_data_key, mkAccount 2000000 oracle_account_data ID false);
  (upgrade_key, mkAccount 1 (le_split 4 3 ++ le_split 8 0 ++ [byte.of_Z 1] ++ payer_key)
                  bpf_loader_upgradeable_ID false)].

Definition oracles_info : AccountInfo := mkInfo oracles_key false true.
Definition new_oracle_info : AccountInfo := mkInfo new_oracle_key false true.
Definition upgrade_info : AccountInfo := mkInfo upgrade_key false false.

Definition initialize_run (σ : Store) : outcome ProgramError (unit * Store) :=
  process_initialize (rt:=rt0) [payer; oracles_info; system_info] [] σ.
Definition store_registry : Store := result_store (initialize_run store_bare).

Lemma initialize_runs : initialize_run store_bare = Ok ((), store_registry).
Proof. apply result_store_eq. vm_compute. reflexivity. Qed.

Lemma wf_of (σ : Store) : bool_decide (map_Forall (λ _ a, fits 64 (a_lamports a)) σ) = true →
  lamports_wf (rt:=rt0) σ.
Proof. intros H%bool_decide_eq_true. apply toy_lamports_wf. by apply store_fits. Qed.

Lemma initialize_spec_witness :
  holds_oracles (data_at store_registry oracles_key) [] ∧
  process_initialize (rt:=rt0) [payer; oracles_info; system_info] [] store_registry = Err AccountAlreadyInitialized.
Proof.
  split.
  - destruct (initialize_spec (rt:=rt0) (laws:=toy_runtime_laws _ _ _) payer oracles_info system_info []
      store_bare (wf_of store_bare ltac:(vm_compute; reflexivity))) as [Hok _].
    destruct (Hok store_registry initialize_runs) as (_ & _ & _ & Hh & _). exact Hh.
  - destruct (initialize_spec (rt:=rt0) (laws:=toy_runtime_laws _ _ _) payer oracles_info system_info []
      store_registry (wf_of store_registry ltac:(vm_compute; reflexivity))) as [_ Herr].
    apply Herr; [reflexivity|]. vm_compute. discriminate.
Defined.

Definition modify_data : list byte := bytes_of (mkModifyOracle (K 11) (toy_compress true) 0).

Definition modify_run (σ : Store) : outcome ProgramError (unit * Store) :=
  process_modify_oracles (rt:=rt0) [payer; oracles_info; new_oracle_info; upgrade_info; system_info] modify_data σ.
Definition store_modified : Store := result_store (modify_run store_registry).

Lemma modify_runs : modify_run store_registry = Ok ((), store_modified).
Proof. apply result_store_eq. vm_compute. reflexivity. Qed.

Lemma modify_oracles_spec_witness :
  holds_oracles (data_at store_modified oracles_key) [K 11] ∧
  try_from_bytes (data_at store_modified new_oracle_key) = Ok (mkOracle (toy_compress true) 10 0).
Proof.
  destruct (modify_oracles_spec (rt:=rt0) (laws:=toy_runtime_laws _ _ _) payer oracles_info new_oracle_info
    upgrade_info system_info modify_data store_registry store_modified
    (mkModifyOracle (K 11) (toy_compress true) 0) (wf_of store_registry ltac:(vm_compute; reflexivity)))
    as (_ & _ & _ & _ & _ & _ & l & Hl & [(_ & _ & _ & Hh & _ & clock & Hc & Ho)|(Hop & _)]).
  - intros H. apply bytes_eqb_eq in H. vm_compute in H. discriminate H.
  - intros H. apply bytes_eqb_eq in H. vm_compute in H. discriminate H.
  - vm_compute. reflexivity.
  - exact modify_runs.
  - assert (try_from_bytes_with_discriminator (data_at store_registry (key oracles_info)) = Ok (mkOracles []))
      as Hl' by (vm_compute; reflexivity).
    rewrite Hl' in Hl. injection Hl as <-. injection Hc as <-. split; [exact Hh|exact Ho].
  - discriminate Hop.
Defined.

(** A queue of 12000 bytes takes two instructions. *)
Definition create_ixs : list Instruction := initialize_oracle_queue (rt:=rt0) payer_key oracle_key 0 (Some 12000).
Definition store_grown : Store :=
  result_store (run_instructions (rt:=rt0) (take 1 create_ixs) store_bare).
Definition store_created : Store := result_store (run_instructions (rt:=rt0) create_ixs store_bare).

Lemma create_runs : run_instructions (rt:=rt0) create_ixs store_bare = Ok ((), store_created).
Proof. apply result_store_eq. vm_compute. reflexivity. Qed.

Lemma oracle_data_not_queue : oracle_data_key ≠ queue_key.
Proof. intros H. apply bytes_eqb_eq in H. vm_compute in H. discriminate H. Qed.

Lemma sdk_creates_queue_witness :
  length create_ixs = 2%nat ∧ queue_data (data_at store_created queue_key) [] ∧
  zlen (data_at store_created queue_key) = 12000 ∧
  data_at store_grown queue_key = zeros 10240.
Proof.
  destruct (sdk_creates_queue (rt:=rt0) (laws:=toy_runtime_laws _ _ _) payer_key oracle_key 0 12000
    store_bare store_created (wf_of store_bare ltac:(vm_compute; reflexivity)) ltac:(fits_lia) ltac:(lia)
    ltac:(fits_lia) oracle_data_not_queue) as (_ & _ & Hq & Hl & _ & _ & Hpre).
  - vm_compute. reflexivity.
  - exact create_runs.
  - split; [vm_compute; reflexivity|]. split; [exact Hq|]. split; [exact Hl|].
    refine (proj1 (Hpre (take 1 create_ixs) (drop 1 create_ixs) store_grown _ _ _)).
    + symmetry. apply take_drop.
    + vm_compute. discriminate.
    + apply result_store_eq. vm_compute. reflexivity.
Defined.

Definition init_data : list byte := bytes_of (InitializeOracleQueue_new 0 9500).
Definition init_run (σ : Store) : outcome ProgramError (unit * Store) :=
  process_initialize_oracle_queue (rt:=rt0) [payer; oracle_info; oracle_data_info; queue_info; system_info]
    init_data σ.
Definition store_init : Store := result_store (init_run store_bare).

Lemma init_runs : init_run store_bare = Ok ((), store_init).
Proof. apply result_store_eq. vm_compute. reflexivity. Qed.

Lemma initialize_oracle_queue_spec_witness :
  zlen (data_at store_init queue_key) = 9500 ∧
  try_from_bytes (data_at store_init oracle_data_key) = Ok (set_open_queues demo_oracle 2).
Proof.
  destruct (initialize_oracle_queue_spec (rt:=rt0) (laws:=toy_runtime_laws _ _ _) payer oracle_info
    oracle_data_info queue_info system_info init_data store_bare store_init (InitializeOracleQueue_new 0 9500)
    (wf_of store_bare ltac:(vm_compute; reflexivity)) oracle_data_not_queue)
    as (_ & _ & _ & _ & _ & _ & _ & _ & Hend).
  - vm_compute. reflexivity.
  - exact init_runs.
  - destruct Hend as (_ & Hl & _ & oracle & Hor & Hor'); [vm_compute; discriminate|vm_compute; discriminate|].
    split; [exact Hl|].
    assert (try_from_bytes (data_at store_bare (key oracle_data_info)) = Ok demo_oracle) as H by (vm_compute; reflexivity).
    rewrite H in Hor. injection Hor as <-. exact Hor'.
Defined.

Lemma instruction_round_trip_witness :
  args_try_from_bytes (A:=SetQueuePaused) (bytes_of (mkSetQueuePaused 3 1)) = Ok (mkSetQueuePaused 3 1) ∧
  ix_to_bytes IxSetQueuePaused (mkSetQueuePaused 3 1) ≠ ix_to_bytes IxSetQueuePaused (mkSetQueuePaused 3 0).
Proof.
  destruct (instruction_round_trip IxSetQueuePaused IxSetQueuePaused (mkSetQueuePaused 3 1) (mkSetQueuePaused 3 0))
    as (_ & Ha & Hinj); [split; vm_compute; (split; [discriminate|reflexivity])..|].
  split; [exact Ha|]. intros H. destruct (Hinj H) as [_ He]. discriminate He.
Defined.
