(* ===== verification/OracleWitnesses.v ===== *)
(** * Witnesses for the oracle service

    The theorems of the service, applied to a run of it on the concrete queue
    of [Concrete.v]: the request in [store1] is seen, a task is spawned for
    it, its transaction is prepared and accepted, and the request leaves. *)

From S2P Require Import Prelude Pod Api QueueLayout QueueAccount QueueInv QueueAdd QueueSpec Solana Accounts Instructions Verify Handlers Provide Reason Laws RequestTheorems ProvideTheorems Vrf Solvency Registry Sdk OracleClock ClockTheorems OracleTasks TaskTheorems OracleSources SourceTheorems OracleSend SendTheorems SendSchedule Fulfilment Concrete Witnesses.

(** ** Clocks *)

(** Four slots of 400 ms, on a base layer cluster. *)
Definition demo_tracker : SlotTracker :=
  run_tracker [EvIsEr false; EvObserve 10 (from_millis 1000); EvObserve 11 (from_millis 1400);
               EvObserve 12 (from_millis 1800); EvObserve 13 (from_millis 2200)].

Lemma demo_tracker_eq : demo_tracker =
  mkSlotTracker 13 (mkSlotTiming (Some (13, from_millis 2200)) (Some (from_millis 400)) 3 (from_millis 400)).
Proof. vm_compute. reflexivity. Defined.

Lemma demo_tracker_ok : timing_ok demo_tracker.
Proof.
  rewrite demo_tracker_eq. split; cbn; try lia.
  - unfold MIN_SLOT_SAMPLE, from_millis. lia.
  - by right.
Qed.

(** It sends for slot 14 at 2180 ms: 420 ms before the slot is due. *)
Lemma early_wait_bounds_witness :
  early_wait_turn 14 (from_millis 2201) demo_tracker = Ok (WaitUntil (from_millis 2180)) ∧
  current demo_tracker < 14 ∧
  ∃ slot at0 d, last_boundary (timing demo_tracker) = Some (slot, at0) ∧
    slot_duration (timing demo_tracker) = Some d ∧ from_millis 2201 ≤ at0 + d * (14 - slot) + from_millis 20.
Proof.
  assert (early_wait_turn 14 (from_millis 2201) demo_tracker = Ok (WaitUntil (from_millis 2180))) as H
    by (vm_compute; reflexivity).
  split; [exact H|].
  destruct (early_wait_bounds 14 (from_millis 2201) demo_tracker demo_tracker_ok) as (a & Ha & _ & Hw).
  - rewrite demo_tracker_eq. cbn. unfold in_service, from_secs, from_millis, nanos_per_sec. lia.
  - rewrite demo_tracker_eq. cbn. unfold from_secs, from_millis, nanos_per_sec. lia.
  - rewrite H in Ha. injection Ha as <-. destruct (Hw _ eq_refl) as (Hc & _ & s & at0 & d & H1 & H2 & _ & _ & H3).
    split; [exact Hc|]. exists s, at0, d. split; [exact H1|]. split; [exact H2|exact H3].
Defined.

(** ** The queue with one request *)

Definition demo_bytes : list byte := data_at store1 queue_key.

Definition no_header : Queue := mkQueue 0 0 0 0 [].
Definition demo_header : Queue := match Queue_try_from_bytes demo_bytes with Ok h => h | _ => no_header end.
Definition items_of (d : list byte) : list QueueItem := match load d with Ok acc => iter_items acc | _ => [] end.
Definition demo_items : list QueueItem := items_of demo_bytes.

Lemma items_of_represents d acc rs :
  d = discriminator_to_bytes DQueue ++ acc → represents acc rs → items_of d = iter_items acc.
Proof. intros -> Hrep. unfold items_of. by rewrite (load_represents acc rs Hrep). Qed.

(** The age of the request, two seconds after it was made. *)
Lemma host_age_agrees_witness :
  ∃ item, item ∈ demo_items ∧ host_age_secs 1010 item = age_secs item (created_at_from 1010) ∧
    host_age_secs 970 item = 0.
Proof.
  assert (∃ item, demo_items = [item] ∧ created_at item = created_at_from 1000) as (item & Hi & Hc).
  { vm_compute. eexists. split; reflexivity. }
  exists item. rewrite Hi. split; [left|].
  destruct (host_age_agrees 1010 1000 item) as [H _]; [lia|lia|exact Hc|].
  destruct (host_age_agrees 970 1000 item) as [_ H']; [lia|lia|exact Hc|].
  split; [apply H; lia|]. apply H'; lia.
Defined.

(** ** Views and tasks *)

#[export] Instance elements_order : KeyOrder :=
  {| hash_keys := λ m, elements (dom m); hash_keys_perm := λ m, reflexivity _ |}.

(** A notification with the request, and a later one with an empty queue. *)
Definition demo_view : view := mkView queue_key demo_header demo_bytes (Some 11) false None.
Definition empty_view : view := mkView queue_key demo_header empty_queue (Some 15) false None.

Definition st_begin : OracleState :=
  initialize_delegated_queue_filter false (OracleState_new oracle_key).
Definition st_seen : OracleState := fst (begin_view (H:=rt1) demo_view st_begin).
Definition no_item : QueueItem := pod_read (zeros 96).
Definition demo_item : QueueItem := default no_item (head demo_items).
Definition st_spawned : OracleState := spawn_item queue_key demo_item st_seen.

Lemma demo_item_in : demo_items = [demo_item].
Proof. vm_compute. reflexivity. Defined.

Lemma seen_items : snd (begin_view (H:=rt1) demo_view st_begin) = [demo_item].
Proof. vm_compute. reflexivity. Defined.

Lemma seen_eq : begin_view (H:=rt1) demo_view st_begin = (st_seen, [demo_item]).
Proof. rewrite <- seen_items. unfold st_seen. by destruct (begin_view _ _). Qed.

Lemma reach_spawned : rtc (step (H:=rt1)) (config_new oracle_key false)
  (mkConfig st_spawned None (∅ ∪ dropped queue_key st_begin st_seen)).
Proof.
  eapply rtc_l; [apply (step_begin (H:=rt1) demo_view st_begin ∅ st_seen [demo_item] seen_eq)|].
  - constructor; [apply not_elem_of_empty|constructor].
  - change (v_queue demo_view) with queue_key. unfold st_spawned.
    generalize st_seen, (∅ ∪ dropped queue_key st_begin st_seen). intros st gone.
    eapply rtc_l; [apply step_spawn|]. apply rtc_once. apply step_end.
Qed.

Lemma spawned_handle :
  tasks_of st_spawned queue_key !! item_id demo_item = Some 0%nat ∧
  inflight_of st_spawned queue_key !! item_id demo_item = Some 10.
Proof. split; vm_compute; reflexivity. Defined.

Definition demo_config : config := mkConfig st_spawned None (∅ ∪ dropped queue_key st_begin st_seen).

Lemma demo_config_handle :
  tasks_of (cf_state demo_config) queue_key !! item_id demo_item = Some 0%nat ∧
  inflight_of (cf_state demo_config) queue_key !! item_id demo_item = Some 10.
Proof. exact spawned_handle. Defined.

Lemma oracle_tasks_consistent_witness :
  rtc (step (H:=rt1)) (config_new oracle_key false) demo_config ∧
  spawned (cf_state demo_config) !! 0%nat = Some (mkTask queue_key (item_id demo_item) Running false) ∧
  ∃ h p, spawned (cf_state demo_config) !! h = Some (mkTask queue_key (item_id demo_item) p false).
Proof.
  split; [exact reach_spawned|]. destruct demo_config_handle as [Ht Hi].
  destruct (oracle_tasks_consistent (H:=rt1) oracle_key false demo_config reach_spawned) as (_ & H2 & H3 & _).
  split; [exact (H2 queue_key _ _ Ht)|exact (H3 queue_key _ _ Hi)].
Defined.

(** The request is gone in the later view: its task is aborted. *)
Lemma process_oracle_queue_spec_witness :
  view_items empty_view = Ok [] ∧
  let st' := process_oracle_queue (H:=rt1) empty_view st_spawned in
  inflight_of st' queue_key !! item_id demo_item = None ∧
  spawned st' !! 0%nat = Some (mkTask queue_key (item_id demo_item) Running true).
Proof.
  assert (view_items empty_view = Ok []) as Hits by (vm_compute; reflexivity).
  split; [exact Hits|]. cbv zeta. destruct spawned_handle as [Ht Hi].
  destruct (process_oracle_queue_spec (H:=rt1) oracle_key false st_spawned _ empty_view [] reach_spawned Hits)
    as (_ & _ & Hspec).
  assert (view_applies (H:=rt1) empty_view st_spawned = true) as Happ by (vm_compute; reflexivity).
  rewrite Happ in Hspec. destruct Hspec as [Hall _]. specialize (Hall (item_id demo_item)).
  change (v_queue empty_view) with queue_key in Hall. rewrite Hi in Hall.
  destruct Hall as [Hgone _]. destruct Hgone as (H1 & _ & H2).
  - split; [apply not_elem_of_nil|]. intros s [= <-]. lia.
  - split; [exact H1|]. by apply H2.
Defined.

(** ** Scans *)

(** Two connects while the timer's scan runs: one scan is queued for both. *)
Definition busy_history : list run_event := [Tick; Begin; Connect; Spawned; Connect].
Definition busy_run : run_state :=
  mkRunState true 0 [PostConnect] (Some (Timer, Scanning 0)) 2 0 0.

(** The timer's scan fails, ticks again, and the queued scan, which fails
    too, is before it: only the third scan shows what was missed. *)
Definition busy_rest : list run_event :=
  [End false; Tick; Clear; Begin; End false; Begin; End true].

Lemma reach_busy_run : run_steps busy_history run_state_new = Some busy_run.
Proof. reflexivity. Defined.


(** A queued scan that fails leaves its connect uncovered with nothing on its
    way: only a tick or another connect can follow. *)
Lemma failed_scan_not_retried :
  ∃ s, run_steps [Connect; Spawned; Clear; Begin; End false] run_state_new = Some s ∧
    rs_covered s = 0%nat ∧ rs_gaps s = 1%nat ∧
    ∀ e, scan_event e = true → run_step e s = None.
Proof. eexists. split; [reflexivity|]. split_and!; [done|done|]. by intros []. Qed.

(** ** Transactions *)

Definition demo_keys : OracleKeys (dk:=toy_dalek) := mkOracleKeys (dk:=toy_dalek) oracle_key true true.
Definition demo_task : TaskInput (dk:=toy_dalek) := mkTaskInput demo_keys demo_item queue_key demo_header demo_bytes.
Definition no_pv : PreparedVrf := mkPreparedVrf [] [] [] [].
Definition demo_pv : PreparedVrf :=
  match prepare_vrf (rt:=rt1) demo_keys (item_id demo_item) with Ok pv => pv | _ => no_pv end.

Definition demo_env : PrepareEnv := mkPrepareEnv 1001 (K 5) 20000.
Definition no_tx : Transaction := mkTransaction [] [] [].
Definition demo_tx (a : Z) : Transaction :=
  match prepare_transaction (rt:=rt1) demo_task demo_pv demo_env a with Ok tx => tx | _ => no_tx end.

Lemma demo_pv_eq : prepare_vrf (rt:=rt1) demo_keys (item_id demo_item) = Ok demo_pv.
Proof. vm_compute. reflexivity. Defined.

Lemma demo_tx_eq : prepare_transaction (rt:=rt1) demo_task demo_pv demo_env 0 = Ok (demo_tx 0) ∧
  prepare_transaction (rt:=rt1) demo_task demo_pv demo_env 9 = Ok (demo_tx 9).
Proof. split; vm_compute; reflexivity. Defined.

Lemma prepare_transaction_spec_witness :
  demo_tx 0 ≠ demo_tx 9 ∧
  ∃ limit ix price, tx_instructions (demo_tx 0) =
    [SetComputeUnitLimit limit; ProgramInstruction ix; SetComputeUnitPrice price] ∧ limit * price ≤ 60000 * 10 ^ 6.
Proof.
  destruct demo_tx_eq as [H0 H9].
  destruct (prepare_transaction_spec (rt:=rt1) demo_task demo_pv demo_env 0 _ demo_env 9 _
    ltac:(lia) ltac:(lia) ltac:(unfold demo_env; cbn [pe_priority_fee]; fits_lia) H0 H9) as (_ & _ & (limit & ix & prices & Hi & _ & Hl & Hp & Hpr) & Hne).
  split; [apply Hne; lia|]. exists limit, ix.
  destruct Hp as [->|(price & -> & _ & Hb)].
  - assert (tx_instructions (demo_tx 0) !! 2%nat ≠ None) as Hn by (vm_compute; discriminate).
    destruct Hn. rewrite Hi. reflexivity.
  - exists price. split; [exact Hi|exact Hb].
Defined.

(** Three answers: too early, a lost connection, accepted. *)
Definition demo_turn (slot : Z) (r : send_result) : TurnEnv := mkTurnEnv slot 1001 demo_env r 1001 demo_env.
Definition demo_turns : list TurnEnv :=
  [demo_turn 10 (Refused (error_code OracleMustProvideInDifferentSlot)); demo_turn 11 Failed; demo_turn 12 Accepted].

Definition demo_run : list (Sent) * option LoopState :=
  match request_task (rt:=rt1) demo_task demo_env demo_turns with Ok r => r | _ => ([], None) end.

Lemma demo_run_eq : request_task (rt:=rt1) demo_task demo_env demo_turns = Ok (fst demo_run, snd demo_run).
Proof. vm_compute. reflexivity. Defined.

Lemma request_task_spec_witness :
  request_task (rt:=rt1) demo_task demo_env demo_turns = Ok (fst demo_run, snd demo_run) ∧
  sent_attempt <$> (fst demo_run !! 2%nat) = Some 2 ∧
  ∀ s1 s2, s1 ∈ fst demo_run → s2 ∈ fst demo_run → sent_attempt s1 ≠ sent_attempt s2 → sent_tx s1 ≠ sent_tx s2.
Proof.
  split; [exact demo_run_eq|].
  destruct (request_task_spec (rt:=rt1) demo_task demo_env demo_turns _ _ demo_run_eq) as (_ & _ & Ha & Hd & _).
  split; [|exact Hd]. destruct (fst demo_run !! 2%nat) as [s|] eqn:Hs; [|vm_compute in Hs; discriminate Hs].
  destruct (Ha _ _ Hs) as [Hn _]. cbn [fmap option_fmap option_map]. rewrite Hn. vm_compute. reflexivity.
Defined.

(** The state after the second answer, when the third error in a row comes. *)
Definition demo_loop : LoopState := mkLoopState 3 2 0 false None.
Definition demo_outcome : Sent * turn_end :=
  match loop_turn (rt:=rt1) demo_task demo_pv (demo_turn 20 Failed) demo_loop with
  | Ok r => r | _ => (mkSent no_tx 0 false, TurnBreak) end.

Lemma demo_outcome_eq :
  loop_turn (rt:=rt1) demo_task demo_pv (demo_turn 20 Failed) demo_loop = Ok (fst demo_outcome, snd demo_outcome).
Proof. vm_compute. reflexivity. Defined.

Lemma retry_delays_witness :
  ∃ sl grace st', snd demo_outcome = TurnNext sl grace st' ∧ purges_sent st' = 0 ∧ sl = 24.
Proof.
  assert (match snd demo_outcome with TurnNext _ _ st' => purges_sent st' =? 0 | _ => false end = true) as H
    by (vm_compute; reflexivity).
  pose proof (retry_delays (rt:=rt1) demo_task demo_pv (demo_turn 20 Failed) demo_loop _ _
    ltac:(cbn; lia) ltac:(cbn; lia) ltac:(cbn; lia) ltac:(cbn; lia) demo_outcome_eq) as Hd.
  destruct (snd demo_outcome) as [|secs st'|sl g st']; [discriminate H|discriminate H|].
  apply Z.eqb_eq in H. exists sl, g, st'. split; [reflexivity|]. split; [exact H|].
  destruct Hd as (_ & Hd & _). rewrite (Hd H). reflexivity.
Defined.

(** ** Fulfilment *)

Lemma toy_sizes : EncodingSizes (dk:=toy_dalek).
Proof. split; intros []; reflexivity. Defined.

Lemma toy_pda slot time salt : PdaLaws (rt:=toy_runtime slot time salt).
Proof.
  intros seeds p. cbn [create_program_address find_program_address toy_runtime fst snd].
  rewrite last_snoc, bool_decide_eq_true_2 by done. by rewrite removelast_last.
Defined.

(** The request that is in [store1]. *)
Definition demo_request (pos : Z) : request := stored_request (rt:=rt0) demo_req 10 (zeros 32) 1000 true true 255 pos.

Lemma demo_request_id pos : queue_data demo_bytes [demo_request pos] → item_id demo_item = r_id (demo_request pos).
Proof.
  intros (acc & Hb & Hrep). pose proof (represents_iter Hrep) as Hit.
  rewrite <- (items_of_represents _ _ _ Hb Hrep) in Hit. fold demo_items in Hit. rewrite demo_item_in in Hit.
  apply Forall2_cons in Hit as [[Hr _] _]. exact (ir_id _ _ _ Hr).
Qed.

Lemma demo_in_view pos : queue_data demo_bytes [demo_request pos] → in_view demo_task (demo_request pos).
Proof.
  intros (acc & Hb & Hrep). exists acc, [demo_request pos], 0%nat.
  split; [exact Hb|]. split; [exact Hrep|]. split; [|reflexivity].
  rewrite <- (items_of_represents _ _ _ Hb Hrep). fold demo_items. rewrite demo_item_in. reflexivity.
Qed.

Lemma task_never_panics_witness :
  ∃ out, request_task (rt:=rt1) demo_task demo_env demo_turns = Ok out.
Proof.
  destruct store1_queue as [pos Hq].
  change (data_at store1 (key queue_info)) with demo_bytes in Hq. fold (demo_request pos) in Hq.
  pose proof (demo_request_id pos Hq) as Hid.
  destruct (task_never_panics (rt:=rt1) (sl:=toy_syscalls _ _ _) demo_task (demo_request pos) demo_env demo_turns
    (demo_in_view pos Hq)) as [Hok|[Hnone _]].
  - reflexivity.
  - rewrite <- Hid. vm_compute. discriminate.
  - exact Hok.
  - rewrite <- Hid in Hnone. vm_compute in Hnone. discriminate Hnone.
Defined.

(** ** The schedule

    The first send, in slot 11, is lost; the second is in slot 12. *)
Definition demo_begin_st : LoopState := mkLoopState 0 0 0 false (Some (demo_tx 0)).
Definition turn_of (e : TurnEnv) (st : LoopState) : Sent * turn_end :=
  match loop_turn (rt:=rt1) demo_task demo_pv e st with Ok r => r | _ => (mkSent no_tx 0 false, TurnBreak) end.
Definition demo_first : Sent * turn_end := turn_of (demo_turn 11 Failed) demo_begin_st.
Definition demo_next_st : LoopState := match snd demo_first with TurnNext _ _ st => st | _ => demo_begin_st end.
Definition demo_second : Sent * turn_end := turn_of (demo_turn 12 Accepted) demo_next_st.

Definition tracker11 : SlotTracker := tracker_step SlotTracker_new (EvUpdate 11).

Lemma demo_schedule : ∃ x,
  scheduled_run (rt:=rt1) demo_task demo_pv (task_begin SlotTracker_new (demo_tx 0))
    [(11, fst demo_first); (12, fst demo_second)] x ∧ current (sd_tracker x) = 12.
Proof.
  assert (snd demo_first = TurnNext 12 false demo_next_st) as Hnext by (vm_compute; reflexivity).
  eexists. split.
  - change [(11, fst demo_first); (12, fst demo_second)] with
      ((((((([] ++ []) ++ []) ++ option_list (Some (11, fst demo_first))) ++ []) ++ []) ++ []) ++
       option_list (Some (12, fst demo_second))).
    eapply run_snoc; [eapply (run_snoc _ _ _ _ _ None); [eapply (run_snoc _ _ _ _ _ None);
      [eapply (run_snoc _ _ _ _ _ None); [eapply run_snoc; [eapply (run_snoc _ _ _ _ _ None);
        [eapply (run_snoc _ _ _ _ _ None); [apply run_nothing|]|]|]|]|]|]|].
    + apply (sched_tracker _ _ (EvUpdate 11)).
    + apply sched_due; [reflexivity|]. exists 0, WaitDone. split; [vm_compute; reflexivity|discriminate].
    + apply (sched_send _ _ (demo_turn 11 Failed) tracker11 demo_begin_st (fst demo_first) (snd demo_first));
        [reflexivity|]. vm_compute. reflexivity.
    + rewrite Hnext. apply (sched_tracker _ _ (EvUpdate 12)).
    + apply sched_waited. reflexivity.
    + apply sched_due; [vm_compute; reflexivity|]. vm_compute. reflexivity.
    + apply (sched_send _ _ (demo_turn 12 Accepted) (tracker_step tracker11 (EvUpdate 12)) demo_next_st (fst demo_second) (snd demo_second));
        [reflexivity|]. vm_compute. reflexivity.
  - reflexivity.
Qed.

Lemma send_schedule_witness :
  sent_attempt (fst demo_first) ≤ sent_attempt (fst demo_second) ∧
  (12 < first_valid_slot demo_task → sent_attempt (fst demo_second) = 0).
Proof.
  destruct demo_schedule as (x & Hrun & Hx).
  destruct (send_schedule (rt:=rt1) demo_task demo_pv SlotTracker_new (demo_tx 0) _ x
    ltac:(cbn; lia) Hrun ltac:(rewrite Hx; lia)) as [Hord Hall].
  split; [exact (proj1 (Hord 0%nat 1%nat 11 _ 12 _ ltac:(lia) eq_refl eq_refl))|].
  exact (proj1 (Hall 12 (fst demo_second) (list_elem_of_further _ _ _ (list_elem_of_here _ _)))).
Defined.

(** ** Fetches of the blockhash *)

Lemma refresh_rate_witness :
  fetches (from_secs 3) (from_secs 10) (mkCacheData [] 5 0) ∧
  cache_step (mkCacheData [] 5 0) (CacheCall (from_secs 3) None (from_secs 10) (from_secs 10)) = mkCacheData [] 5 0.
Proof.
  assert (fetches (from_secs 3) (from_secs 10) (mkCacheData [] 5 0)) as Hf
    by (unfold fetches, duration_since, from_secs, nanos_per_sec; cbn; lia).
  split; [exact Hf|].
  exact (proj1 (refresh_rate (mkCacheData [] 5 0) (from_secs 3) None (from_secs 10) (from_secs 10) [] 0 (from_secs 10)
    Hf ltac:(lia) (List.Forall_nil _))).
Defined.
