(* ===== verification/ChainWitnesses.v ===== *)
(** * Witnesses for the program on chain

    A chain with the concrete runtime of [Concrete.v] at every time, and a run
    of it from before the first transaction: the registry is created, an
    oracle registered, a queue opened, and a request made. The theorems on
    reachable states are applied to the states of that run. *)

From coqutil Require Import Word.LittleEndianList.
From S2P Require Import Prelude Pod Api QueueLayout QueueAccount QueueInv QueueAdd QueueSpec Solana Accounts Instructions Verify Handlers Provide Reason Laws RequestTheorems ProvideTheorems Vrf Solvency Registry Sdk OracleClock OracleTasks OracleSources OracleSend SendTheorems OracleRun RunTheorems Fulfilment Chain ChainCalm ChainHandlers ChainTheorems ChainIds ChainKeys ChainSpec ChainHistory ChainFulfilment Service Concrete Witnesses OracleWitnesses.

(** ** The concrete runtime obeys the rules between transactions *)

Lemma zeroed_zeros n : zeroed (zeros n).
Proof. unfold zeroed, zeros, zlen. rewrite length_replicate. by rewrite Nat2Z.id. Qed.

Lemma toy_effect_new σ σ' k : toy_effect σ σ' → owner_at σ k ≠ ID → owner_at σ' k = ID → zeroed (data_at σ' k).
Proof.
  intros Heff Hn Ho.
  destruct Heff as [from to n σ1 H1|from to lam space owner σ1 H1|k0 space σ1 H1|k0 owner σ1 H1|]; [..|done].
  - apply sys_transfer_Ok in H1 as (_ & _ & _ & ->). by rewrite move_lamports_owner in Ho.
  - apply sys_create_Ok in H1 as (_ & σ2 & (_ & _ & _ & ->)%sys_transfer_Ok & -> & _).
    destruct (decide (k = to)) as [->|Hk].
    + rewrite get_account_insert. apply zeroed_zeros.
    + rewrite get_account_insert_ne, move_lamports_owner in Ho by done. done.
  - apply sys_allocate_Ok in H1 as (_ & _ & ->). by rewrite owner_upd_data in Ho.
  - apply sys_assign_Ok in H1 as (_ & Hz & ->). rewrite get_set_owner in *.
    destruct (decide (k = k0)) as [->|]; [exact Hz|done].
Qed.

Lemma toy_chain_laws slot time salt : ChainLaws (rt:=toy_runtime slot time salt).
Proof.
  split; cbn [invoke_signed rent_get rent_default_minimum_balance delegate_account system_create_account
    system_transfer system_allocate system_assign toy_runtime].
  - intros ix H Heq. apply ID_not_system. rewrite <- Heq.
    by destruct H as [(? & ? & ? & ? & ? & ->)|[(? & ? & ? & ->)|[(? & ? & ->)|(? & ? & ->)]]].
  - intros ix infos seeds σ σ' k H _ Hn Ho. apply toy_invoke_effect in H. by eapply toy_effect_new.
  - intros authority pda rest seeds freq validator σ σ' k [= <-] Hk. split; [done|]. intros _. split; [done|lia].
  - intros infos seeds freq validator σ σ' k [= <-] Hn Ho. done.
  - by intros infos seeds freq validator σ σ' Hf [= <-].
  - intros mb n [= <-]. apply toy_rent_fits.
  - apply toy_rent_fits.
Qed.

#[export] Program Instance toy_chain : Chain :=
  {| chain_rt := λ c, toy_runtime (clock_slot c) (clock_unix_timestamp c) (byte.of_Z 1) |}.
Next Obligation. intros. apply toy_runtime_laws. Qed.
Next Obligation. intros. apply toy_chain_laws. Qed.
Next Obligation.
  intros [slot time] clock Hs H. cbn in *. injection H as <-. unfold as_u64. by rewrite wrap_small.
Qed.
Next Obligation. done. Qed.
Next Obligation. done. Qed.

(** ** A run *)

Definition chain_genesis : Store := list_to_map [
  (payer_key, mkAccount 100000000 [] system_program_ID false);
  (oracle_key, mkAccount 7000000 [] system_program_ID false);
  (program_key, mkAccount 1 [] (K 9) true);
  (slot_hashes_ID, mkAccount 1 (zeros 48) sysvar_ID false);
  (upgrade_key, mkAccount 1 (le_split 4 3 ++ le_split 8 0 ++ [byte.of_Z 1] ++ payer_key)
                  bpf_loader_upgradeable_ID false)].

(** The transactions before slot 10. *)
Definition opening : list Instruction :=
  [initialize (rt:=rt0) payer_key; add_oracle (rt:=rt0) payer_key oracle_key (toy_compress true);
   initialize_oracle_queue_ix (rt:=rt0) payer_key oracle_key 0 608].

Definition opened : Store := foldl (λ σ ix, result_store (run_instruction (rt:=rt0) ix σ)) chain_genesis opening.

(** Then a request. *)
Definition chain_request (σ : Store) : outcome ProgramError (unit * Store) :=
  process_instruction (rt:=rt0) ID request_infos
    (ix_header IxRequestHighPriorityRandomnessScoped ++ request_to_vec demo_req) σ.
Definition chain_store : Store := result_store (chain_request opened).

(** Addresses that are derived from the program start with its own. *)
Definition not_derived (k : list byte) : bool := negb (bytes_eqb (take 8 k) (take 8 ID)).

Lemma not_derived_keyed slot time salt k :
  not_derived k = true → keyed (rt:=toy_runtime slot time salt) k.
Proof.
  unfold not_derived. intros H%negb_true_iff%bytes_eqb_neq seeds ->. apply H. cbn. unfold derive, pad32.
  rewrite take_take. change (8 `min` 32)%nat with 8%nat.
  change (mjoin (take 8 <$> ID :: seeds)) with (take 8 ID ++ mjoin (take 8 <$> seeds)).
  rewrite <- app_assoc. by apply take_app_length'.
Qed.

Definition signers_not_derived (infos : list AccountInfo) : bool :=
  forallb (λ i, negb (info_is_signer i) || not_derived (key i)) infos.

Lemma toy_outer_call slot time salt infos :
  signers_not_derived infos = true → outer_call (rt:=toy_runtime slot time salt) infos.
Proof.
  unfold signers_not_derived. rewrite forallb_forall. intros H. apply Forall_forall. intros i Hi Hs.
  apply list_elem_of_In, H in Hi. rewrite Hs in Hi. by eapply not_derived_keyed.
Qed.

Definition slot10 : Clock := mkClock 10 1000.
Definition slot12 : Clock := mkClock 12 1001.

Lemma step10 infos d σ :
  signers_not_derived infos = true → is_ok (process_instruction (rt:=rt0) ID infos d σ) = true →
  chain_step slot10 σ (result_store (process_instruction (rt:=rt0) ID infos d σ)).
Proof.
  intros Hs Hok. apply program_step with infos d; [cbn; fits_lia|by apply toy_outer_call|].
  by apply (result_store_eq _ Hok).
Qed.

Lemma chain_genesis_ok : genesis (rt:=chain_rt slot10) chain_genesis.
Proof.
  assert (bool_decide (map_Forall (λ _ a, bytes_eqb (a_owner a) ID = false ∧ fits 64 (a_lamports a)) chain_genesis) = true)
    as H%bool_decide_eq_true by (vm_compute; reflexivity).
  assert (∀ k, owner_at chain_genesis k ≠ ID ∧ fits 64 (lamports_at chain_genesis k)) as Hall.
  { intros k. unfold get_account. destruct (chain_genesis !! k) as [x|] eqn:Hk; cbn.
    - destruct (H k x Hk) as [Hne%bytes_eqb_neq ?]. by split.
    - split; [|fits_lia]. intros Heq. exact (ID_not_system (eq_sym Heq)). }
  split; [|apply Hall]. intros k [Ho _]. destruct (proj1 (Hall k) Ho).
Qed.

Fixpoint instructions_ok (l : list Instruction) (σ : Store) : bool :=
  match l with
  | [] => true
  | ix :: l =>
    bytes_eqb (ix_program_id ix) ID && signers_not_derived (info_of <$> ix_accounts ix) &&
    is_ok (run_instruction (rt:=rt0) ix σ) && instructions_ok l (result_store (run_instruction (rt:=rt0) ix σ))
  end.

Lemma instructions_run l σ :
  instructions_ok l σ = true →
  chain_run σ (foldl (λ σ ix, result_store (run_instruction (rt:=rt0) ix σ)) σ l).
Proof.
  revert σ. induction l as [|ix l IH]; intros σ; [intros _; apply rtc_refl|]. cbn [instructions_ok foldl].
  intros [[[Hid%bytes_eqb_eq Hs]%andb_true_iff Hok]%andb_true_iff Hl]%andb_true_iff.
  eapply rtc_l; [exists slot10; apply (step10 _ (ix_data ix) _ Hs)|]; unfold run_instruction in *; rewrite Hid in *;
    [exact Hok|by apply IH].
Qed.

Lemma opened_run : chain_run chain_genesis opened.
Proof. apply instructions_run. vm_compute. reflexivity. Qed.

Lemma opened_reachable : reachable opened.
Proof. exists slot10, chain_genesis. split; [exact chain_genesis_ok|exact opened_run]. Qed.

Lemma opened_queue : queue_at opened queue_key [].
Proof.
  split; [apply bytes_eqb_eq; vm_compute; reflexivity|]. left.
  assert (data_at opened queue_key = empty_queue) as -> by (apply bytes_eqb_eq; vm_compute; reflexivity).
  exact empty_queue_data.
Qed.

Lemma request_step : chain_step slot10 opened chain_store.
Proof. apply step10; vm_compute; reflexivity. Qed.

Lemma chain_store_reachable : reachable chain_store.
Proof. exact (reachable_step slot10 _ _ opened_reachable request_step). Qed.

(** The queue is that of [store1]. *)
Lemma chain_store_bytes : data_at chain_store queue_key = demo_bytes.
Proof. apply bytes_eqb_eq. vm_compute. reflexivity. Qed.

Lemma chain_store_queue : ∃ pos, queue_data demo_bytes [demo_request pos] ∧ queue_at chain_store queue_key [demo_request pos].
Proof.
  destruct store1_queue as [pos Hq]. exists pos. split; [exact Hq|].
  split; [apply bytes_eqb_eq; vm_compute; reflexivity|]. left. rewrite chain_store_bytes. exact Hq.
Qed.

(** ** The life of the queue *)

Lemma oracle_keyed c : keyed (rt:=chain_rt c) oracle_key.
Proof. apply not_derived_keyed. vm_compute. reflexivity. Qed.

(** The step that made the request is one that adds a request. *)
Lemma queue_life_witness :
  ∃ r, queue_at chain_store queue_key [r] ∧ queue_change (rt:=chain_rt slot10) slot10 opened queue_key [] (Some [r]).
Proof.
  destruct chain_store_queue as (pos & _ & Hat). exists (demo_request pos). split; [exact Hat|].
  destruct (queue_life slot10 opened chain_store queue_key [] opened_reachable request_step opened_queue)
    as (after & Hch & Haf).
  destruct after as [rs'|].
  - rewrite (queue_at_fun _ _ _ _ Hat Haf). exact Hch.
  - destruct Haf as [Hno|Hno]; [destruct (Hno (proj1 Hat))|destruct (Hno _ (proj2 Hat))].
Defined.

Lemma queues_solvent_witness :
  ∃ r, queue_at chain_store queue_key [r] ∧
    lamports_at opened queue_key ≤ lamports_at chain_store queue_key - r_cost r.
Proof.
  destruct chain_store_queue as (pos & _ & Hat). exists (demo_request pos). split; [exact Hat|].
  destruct (queues_solvent slot10 opened chain_store queue_key [] opened_reachable opened_queue) as [_ Hstep].
  - vm_compute. reflexivity.
  - specialize (Hstep request_step _ Hat). cbn [pending_fees] in Hstep.
    change (pending_fees [demo_request pos]) with (r_cost (demo_request pos) + 0) in Hstep.
    change (pending_fees []) with 0 in Hstep. lia.
Defined.

(** The key of the oracle was registered by the upgrade authority. *)
Lemma vrf_keys_authorised_witness :
  ∃ c σ1 σ2 args, chain_run chain_genesis σ1 ∧ chain_step c σ1 σ2 ∧
    authority_instruction c σ1 σ2 args ∧ mo_oracle_pubkey args = toy_compress true.
Proof.
  destruct (vrf_keys_authorised chain_genesis oracle_data_key) as [_ Hreg].
  - exists slot10, chain_genesis. split; [exact chain_genesis_ok|apply rtc_refl].
  - destruct (Hreg opened (toy_compress true) opened_run) as (c & σ1 & σ2 & args & H1 & H2 & H3 & _ & H5 & _).
    + vm_compute. reflexivity.
    + vm_compute. reflexivity.
    + exists c, σ1, σ2, args. split; [exact H1|]. split; [exact H2|]. split; [exact H3|exact H5].
Defined.

(** Anyone clears the queue when the request has expired. *)
Definition late : Clock := mkClock 900 2000.

Lemma expired_requests_clearable_witness :
  ∃ σ', run_instruction (rt:=chain_rt late) (purge_expired_requests (rt:=chain_rt late) oracle_key 0) chain_store =
          Ok ((), σ') ∧ queue_at σ' queue_key [].
Proof.
  destruct chain_store_queue as (pos & _ & Hat).
  destruct (expired_requests_clearable late ltac:(cbn; fits_lia) chain_store oracle_key 0 [demo_request pos]
    chain_store_reachable Hat) as (σ' & Hrun & _ & Hq).
  - discriminate.
  - apply oracle_keyed.
  - fits_lia.
  - reflexivity.
  - eval_goal.
  - exists σ'. split; [exact Hrun|exact Hq].
Defined.

(** The same request once more, in the same slot: its id is another one. *)
Definition chain_twice : Store := result_store (chain_request chain_store).

Lemma chain_twice_step : chain_step slot10 chain_store chain_twice.
Proof. apply step10; vm_compute; reflexivity. Qed.

Lemma chain_twice_reachable : reachable chain_twice.
Proof. exact (reachable_step slot10 _ _ chain_store_reachable chain_twice_step). Qed.

Lemma chain_twice_queue : ∃ r r', queue_at chain_twice queue_key [r; r'].
Proof.
  assert (queue_like chain_twice queue_key) as Hlike.
  { split; [apply bytes_eqb_eq; vm_compute; reflexivity|vm_compute; reflexivity]. }
  destruct (ci_queues _ (reachable_inv slot10 _ chain_twice_reachable) _ Hlike) as (rs & Hh & _).
  assert (length rs = 2%nat) as Hlen.
  { destruct Hh as [(acc & Hd & Hrep)|(_ & acc & Hd & [Hl _ _])].
    - pose proof (represents_iter Hrep) as Hit. rewrite <- (items_of_represents _ _ _ Hd Hrep) in Hit.
      apply Forall2_length in Hit. rewrite <- Hit. vm_compute. reflexivity.
    - apply (f_equal zlen) in Hd. rewrite zlen_app, zlen_discriminator in Hd.
      replace (zlen (data_at chain_twice queue_key)) with 608 in Hd by (vm_compute; reflexivity). lia. }
  destruct rs as [|r [|r' [|]]]; try done. exists r, r'. split; [apply Hlike|done].
Qed.

Lemma pending_ids_distinct_witness :
  ∃ r r' args sh time args' sh' time', queue_at chain_twice queue_key [r; r'] ∧
    made_from (rt:=chain_rt slot10) r args sh time ∧ made_from (rt:=chain_rt slot10) r' args' sh' time' ∧
    id_input r args sh time ≠ id_input r' args' sh' time'.
Proof.
  destruct chain_twice_queue as (r & r' & Hat).
  destruct (pending_ids_distinct slot10 chain_twice queue_key [r; r'] 0 1 r r' chain_twice_reachable Hat)
    as (args & sh & time & args' & sh' & time' & Hm & Hm' & _ & _ & Hne).
  - reflexivity.
  - reflexivity.
  - discriminate.
  - exists r, r', args, sh, time, args', sh', time'. split; [exact Hat|]. split; [exact Hm|]. split; [exact Hm'|exact Hne].
Defined.

(** ** The oracle fulfils the request *)

Lemma demo_willing pos :
  callback_willing (rt:=rt1) (demo_request pos) oracle_key queue_key (pv_output demo_pv) [] chain_store.
Proof.
  split; [intros Hm; destruct Hm; reflexivity|].
  intros seeds σ1 _ Hsame _. exists σ1. split; [reflexivity|].
  rewrite Hsame; [|intros H; apply bytes_eqb_eq in H; vm_compute in H; discriminate H].
  vm_compute. reflexivity.
Qed.

Lemma demo_on_chain : oracle_on_chain (rt:=rt1) demo_keys queue_key chain_store.
Proof.
  split.
  - reflexivity.
  - apply bytes_eqb_eq. vm_compute. reflexivity.
  - exists (mkOracle (toy_compress true) 10 1). split; vm_compute; reflexivity.
  - apply bytes_eqb_eq. vm_compute. reflexivity.
  - exists demo_header. split; [vm_compute; reflexivity|]. apply bytes_eqb_eq. vm_compute. reflexivity.
Qed.

Lemma demo_can_provide pos : can_provide (rt:=rt1) oracle_key (demo_request pos) slot12.
Proof.
  split; [reflexivity|vm_compute; reflexivity|]. constructor; [|constructor].
  intros H. apply bytes_eqb_eq in H. vm_compute in H. discriminate H.
Qed.

Lemma oracle_fulfilment_accepted_witness :
  ∃ ix σ', tx_instructions (demo_tx 0) !! 1%nat = Some (ProgramInstruction ix) ∧
    run_instruction (rt:=rt1) ix chain_store = Ok ((), σ') ∧ queue_at σ' queue_key [].
Proof.
  destruct chain_store_queue as (pos & Hq & Hat).
  destruct (oracle_fulfilment_accepted (chain:=toy_chain) (dk:=toy_dalek) slot12 ltac:(cbn; fits_lia)
    (sl:=toy_syscalls 12 1001 (byte.of_Z 1)) (es:=toy_sizes) (pl:=toy_pda 12 1001 (byte.of_Z 1))
    demo_task demo_pv demo_env 0 (demo_tx 0) chain_store [demo_request pos] 0 (demo_request pos)
    chain_store_reachable (demo_in_view pos Hq)) as (ix & σ' & Hix & Hrun & _ & Hat').
  - vm_compute. reflexivity.
  - exact demo_pv_eq.
  - exact (proj1 demo_tx_eq).
  - exact demo_on_chain.
  - exact Hat.
  - apply oracle_keyed.
  - apply list_find_Some. split; [reflexivity|]. split; [reflexivity|]. intros j y Hj Hlt. lia.
  - apply demo_can_provide.
  - apply demo_willing.
  - exists ix, σ'. split; [exact Hix|]. split; [exact Hrun|exact Hat'].
Defined.

(** After the fulfilment the request is gone, so it has been fulfilled, or had
    expired. *)
Definition fulfil_infos : list AccountInfo :=
  [oracle_info; scoped_info; mkInfo oracle_data_key false false; queue_info; program_info; mkInfo (K 8) false true].
Definition fulfil_data : list byte :=
  ix_to_bytes IxProvideRandomness (mkProvideRandomness (item_id demo_item) (pv_output demo_pv)
    (pv_commitment_base demo_pv) (pv_commitment_hash demo_pv) (pv_s demo_pv)).
Definition chain_done : Store :=
  result_store (process_instruction (rt:=rt1) ID fulfil_infos fulfil_data chain_store).

Lemma fulfil_step : chain_step slot12 chain_store chain_done.
Proof.
  apply program_step with fulfil_infos fulfil_data; [cbn; fits_lia|apply toy_outer_call; vm_compute; reflexivity|].
  apply result_store_eq. vm_compute. reflexivity.
Qed.

Lemma chain_done_empty rs : queue_at chain_done queue_key rs → rs = [].
Proof.
  intros [_ [(acc & Hd & Hrep)|[-> _]]]; [|done]. pose proof (represents_iter Hrep) as Hit.
  rewrite <- (items_of_represents _ _ _ Hd Hrep) in Hit.
  replace (items_of (data_at chain_done queue_key)) with (@nil QueueItem) in Hit by (vm_compute; reflexivity).
  by inversion Hit.
Qed.

Lemma no_request_lost_witness :
  ∃ r c σ1 σ2, chain_step c σ1 σ2 ∧ (fulfilled_between queue_key r c σ1 ∨ expired_at r c).
Proof.
  destruct chain_store_queue as (pos & _ & Hat). exists (demo_request pos).
  destruct (no_request_lost chain_store chain_done queue_key [demo_request pos] (demo_request pos)
    chain_store_reachable Hat) as [(rs' & Hat' & Hin)|(c & σ1 & σ2 & _ & Hstep & _ & _ & Hend)].
  - left.
  - apply rtc_once. exists slot12. exact fulfil_step.
  - rewrite (chain_done_empty _ Hat') in Hin. by apply not_elem_of_nil in Hin.
  - exists c, σ1, σ2. split; [exact Hstep|exact Hend].
Defined.

(** ** The run as a history of the abstract service *)

Lemma chain_done_run : chain_run chain_genesis chain_done.
Proof.
  etrans; [exact opened_run|]. eapply rtc_l; [exists slot10; exact request_step|].
  apply rtc_once. exists slot12. exact fulfil_step.
Qed.

Lemma opened_service : ∃ A, abstracts opened A.
Proof.
  destruct (proj1 (timed_run_chain _ _) opened_run) as [cs Hrun].
  destruct (run_simulated chain_genesis cs opened (genesis_service chain_genesis)) as (tr & A & Hc & _).
  - exists slot10, chain_genesis. split; [exact chain_genesis_ok|apply rtc_refl].
  - exact (genesis_abstracts slot10 _ chain_genesis_ok).
  - exact Hrun.
  - exists A. by apply coupled_run_spec in Hc as [_ ?].
Qed.

Lemma coupled_one c σ σ' A tr A' :
  coupled_run σ A tr σ' A' → tr.*1 = [c] → ∃ e, spec_step (rt:=chain_rt c) c A e A' ∧ abstracts σ' A'.
Proof.
  intros H Hc. inversion H as [|c' e tr1 ? σ2 ? ? A2 ? HA Hs Hspec Hrest]; subst; [done|].
  cbn in Hc. injection Hc as -> Hnil. apply fmap_nil_inv in Hnil as ->. inversion Hrest; subst. by exists e.
Qed.

(** The request is a step of the service that adds it. *)
Lemma chain_refines_spec_witness :
  ∃ e A A' r, spec_step (rt:=chain_rt slot10) slot10 A e A' ∧
    sv_queues A queue_key = Some [] ∧ sv_queues A' queue_key = Some [r].
Proof.
  destruct opened_service as [A HA]. destruct chain_store_queue as (pos & _ & Hat).
  destruct (chain_refines_spec opened [slot10] chain_store A opened_reachable HA) as (tr & A' & Hrun & Hcs).
  - apply timed_cons with chain_store; [exact request_step|apply timed_nil].
  - destruct (coupled_one slot10 _ _ _ _ _ Hrun Hcs) as (e & Hstep & HA').
    exists e, A, A', (demo_request pos). split; [exact Hstep|]. split.
    + apply (abs_queues _ _ HA). exact opened_queue.
    + apply (abs_queues _ _ HA'). exact Hat.
Defined.

(** At the end of the run nothing waits, so all that was requested has been
    fulfilled or has expired. *)
Lemma requests_accounted_witness :
  ∃ tr A, coupled_run chain_genesis (genesis_service chain_genesis) tr chain_done A ∧
    requested queue_key tr ≡ₚ fulfilled queue_key tr ++ expired queue_key tr.
Proof.
  destruct (proj1 (timed_run_chain _ _) chain_done_run) as [cs Hrun].
  destruct (requests_accounted slot10 chain_genesis cs chain_done chain_genesis_ok Hrun)
    as (tr & A & Hc & _ & Hacc & _).
  exists tr, A. split; [exact Hc|]. rewrite (Hacc queue_key).
  replace (pending A queue_key) with (@nil request); [reflexivity|].
  unfold pending. destruct (sv_queues A queue_key) as [rs|] eqn:Hq; [|reflexivity].
  apply (abs_queues _ _ (proj2 (coupled_run_spec _ _ _ _ _ Hc))) in Hq.
  symmetry. exact (chain_done_empty _ Hq).
Defined.

(** ** Two requests in one slot *)

Lemma instructions_timed l σ :
  instructions_ok l σ = true →
  timed_run σ (replicate (length l) slot10) (foldl (λ σ ix, result_store (run_instruction (rt:=rt0) ix σ)) σ l).
Proof.
  revert σ. induction l as [|ix l IH]; intros σ; [intros _; apply timed_nil|]. cbn [instructions_ok foldl].
  intros [[[Hid%bytes_eqb_eq Hs]%andb_true_iff Hok]%andb_true_iff Hl]%andb_true_iff.
  apply timed_cons with (result_store (run_instruction (rt:=rt0) ix σ)); [|by apply IH].
  unfold run_instruction in *. rewrite Hid in *. by apply (step10 _ (ix_data ix) _ Hs).
Qed.

Lemma timed_run_app σ1 cs σ2 c σ3 : timed_run σ1 cs σ2 → chain_step c σ2 σ3 → timed_run σ1 (cs ++ [c]) σ3.
Proof.
  induction 1 as [σ|c' cs σ σ' σ'' Hs _ IH]; intros Hlast; cbn.
  - eapply timed_cons; [exact Hlast|apply timed_nil].
  - eapply timed_cons; [exact Hs|by apply IH].
Qed.

Definition twice_clocks : list Clock := (replicate (length opening) slot10 ++ [slot10]) ++ [slot10].

Lemma twice_run : timed_run chain_genesis twice_clocks chain_twice.
Proof.
  eapply timed_run_app; [|exact chain_twice_step]. eapply timed_run_app; [|exact request_step].
  apply instructions_timed. vm_compute. reflexivity.
Qed.

Lemma twice_time : time_passes twice_clocks.
Proof.
  assert (Forall (λ c, c = slot10) twice_clocks) as Hall by (repeat constructor).
  split; [|eapply Forall_impl; [exact Hall|]; intros c ->; cbn; fits_lia].
  induction Hall as [|c cs -> Hall IH]; constructor; [exact IH|].
  eapply Forall_impl; [exact Hall|]. intros c ->. by right.
Qed.

Lemma ids_never_reused_witness :
  ∃ tr A, coupled_run chain_genesis (genesis_service chain_genesis) tr chain_twice A ∧
    (2 ≤ length (requested queue_key tr))%nat ∧
    ∀ tr1 c1 r1 tr2 c2 r2 tr3,
      tr = tr1 ++ (c1, EvRequested queue_key r1) :: tr2 ++ (c2, EvRequested queue_key r2) :: tr3 →
      ∃ args1 sh1 time1 args2 sh2 time2, id_input r1 args1 sh1 time1 ≠ id_input r2 args2 sh2 time2.
Proof.
  destruct (ids_never_reused slot10 chain_genesis twice_clocks chain_twice chain_genesis_ok twice_run twice_time)
    as (tr & A & Hc & _ & Hids).
  exists tr, A. split; [exact Hc|]. split.
  - destruct (coupled_run_spec _ _ _ _ _ Hc) as [Hspec HA].
    apply (spec_run_accounts _ _ _ queue_key), Permutation_length in Hspec.
    destruct chain_twice_queue as (r & r' & Hat). apply (abs_queues _ _ HA) in Hat.
    assert (pending A queue_key = [r; r']) as Hp by (unfold pending; by rewrite Hat).
    assert (pending (genesis_service chain_genesis) queue_key = []) as Hg by (vm_compute; reflexivity).
    rewrite Hp, Hg, app_nil_r, !length_app in Hspec. rewrite Hspec. apply Nat.le_add_r.
  - intros tr1 c1 r1 tr2 c2 r2 tr3 Htr.
    destruct (Hids _ _ _ _ _ _ _ _ Htr) as (a1 & s1 & t1 & a2 & s2 & t2 & _ & _ & Hne).
    exists a1, s1, t1, a2, s2, t2. exact Hne.
Defined.

(** ** The oracle scans *)

Definition scan_accounts : list keyed_account := (λ '(k, a), (Some k, Some a)) <$> map_to_list chain_store.

Lemma scan_accounts_ok : program_accounts chain_store queue_memcmp_filter scan_accounts.
Proof.
  unfold scan_accounts. split.
  - intros k a Hk _. apply list_elem_of_fmap. exists (k, a). split; [done|]. by apply elem_of_map_to_list.
  - intros k a Hin. apply list_elem_of_fmap in Hin as ([k' a'] & [= -> ->] & Hin).
    by apply elem_of_map_to_list.
Qed.

Definition no_answer (_ : list byte) : option bool := None.

Lemma scan_sees_queues_witness :
  ∃ views v, fetch_program_accounts (Some (Some 11, scan_accounts)) no_answer = Some views ∧ v ∈ views ∧
    v_queue v = Concrete.queue_key.
Proof.
  destruct chain_store_queue as (pos & _ & Hat).
  destruct (scan_sees_queues slot12 chain_store scan_accounts 11 no_answer chain_store_reachable scan_accounts_ok)
    as (views & Hv & Hall & _).
  destruct (Hall _ _ Hat) as (v & Hin & Hq). exists views, v. split; [exact Hv|]. split; [exact Hin|exact Hq].
Defined.

Lemma requests_taken_up_witness :
  ∃ r o v, queue_at chain_store Concrete.queue_key [r] ∧
    is_Some (inflight_of (process_oracle_queue (H:=rt1) v (OracleState_new o)) Concrete.queue_key !! r_id r).
Proof.
  destruct chain_store_queue as (pos & _ & Hat). exists (demo_request pos).
  destruct (requests_taken_up slot12 chain_store scan_accounts 11 no_answer Concrete.queue_key [demo_request pos]
    (demo_request pos) chain_store_reachable scan_accounts_ok Hat (list_elem_of_here _ _))
    as (o & views & v & items & _ & _ & _ & _ & Hrun).
  exists o, v. split; [exact Hat|].
  destruct (Hrun false (OracleState_new o) ∅ (rtc_refl _ _)) as (_ & Hin & _).
  - reflexivity.
  - reflexivity.
  - intros r' _. apply not_elem_of_empty.
  - exact Hin.
Defined.
